(* ===== verification/_CoqProject ===== *)
-Q . S2P
Prelude.v
GoStd.v
Utils.v
Types.v
FreeList.v
Service.v
Plugin.v
Server.v
ServerConn.v
ServerSafety.v
ServerProps.v
ServerProgress.v
ServerTypes.v
JsonCodec.v
GobCodec.v
ServerDemo.v
Client.v
ClientSafety.v
ClientLedger.v
ClientProps.v
ClientProgress.v
ClientCall.v
ClientTrace.v
RpcSpec.v
Wire.v
EndToEnd.v
EndToEndServer.v
EndToEndClient.v
EndToEndSafety.v
EndToEndRefine.v
EndToEndAlive.v
EndToEndMeasure.v
EndToEndProgress.v
EndToEndClose.v
EndToEndProps.v
GobWire.v
JsonWire.v
Dencoder.v
Selector.v
Registry.v
RegistryHistory.v
Watcher.v
Balancer.v
Discovery.v
Lifecycle.v
