(* ===== verification/Prelude.v ===== *)
(** * byterpc: a verification development

    byterpc is an RPC framework in Go in the manner of [net/rpc]: a server that
    publishes the methods of registered receivers, a client that multiplexes
    calls over one connection, codecs between them, plugins around both, and,
    beside these, service registries, naming, address selection and a balancer
    with which a client is to find its servers.  The development translates the
    sources under src/ into executable definitions and proves what makes them
    correct; where the code does something else than it means to, the theorem
    says what it does.

    ** The parts of the program and the files that model them

    - [Prelude] (this file): Go's 64-bit integers, outcomes of calls (return or
      panic), labelled transition systems with reachability, the invariant rule
      and the rules for what every schedule comes to, the tactics and generic
      lemmas the other files share.
    - [GoStd]: errors, strings as bytes, [strings], [strconv], UTF-8 with what
      encoding/json makes of strings that are not, the upper-case test of
      [unicode], and the types that [reflect] describes.
    - [Utils] (utils.go): [isExported], [isExportedOrBuiltinType],
      [getLocalIPV4], [WrapArrayErrs], [TransformInvokePointToPath], [MD5Of].
    - [Types] (request.go, response.go, config.go, codec.go and [Endpoint] of
      service.go): the records, and the two codec interfaces as type classes.
    - [FreeList] (server.go, [getRequest] to [freeResponse]): the recycled
      header objects as an explicit heap with the linked list through it.
    - [Service] (service.go, [registerMethods]): which methods are published.
    - [Plugin] (plugin.go): the managers' maps, [Add], [Remove], [Disable],
      [Enable], and every dispatcher of the server's and client's manager.
    - [Server] (server.go): the server's fields, construction, the singleton,
      [register], [endpointOf], [readRequestHeader] and [readRequest].
    - [ServerConn] (server.go, service.go): [acceptLoop], [handleConn],
      [serveCodec], [Service.call] and [sendResponse] as goroutines of one
      transition system over the shared state.  [ServerSafety] has its
      invariant, [ServerProps] and [ServerProgress] the theorems, [ServerTypes] the
      types of the values that a method is called with, [ServerDemo] a server at work on which
      the theorems are instantiated.
    - [JsonCodec], [GobCodec] (json_codec.go, gob_codec.go): the codecs, on
      streams of JSON and gob values; both are instances of the classes of
      [Types], so that what is proved of server and client holds with them.
    - [Client] (client.go): [Go], [send], [receive], [done] and [Close] as a
      transition system.  [ClientSafety] and [ClientLedger] have its invariant,
      [ClientProps] and [ClientProgress] the theorems, [ClientCall] the method
      [Call], [ClientTrace] what a step leaves alone of a call.
    - [RpcSpec]: the abstract specification of remote procedure calls, which has
      no connection, codec, sequence number or goroutine in it.
    - [Wire]: what client and server rely on in the pair of codecs between them, as
      classes: the operations that join two codecs by a connection, and the laws.
    - [EndToEnd]: a client and a server joined by a connection with such codecs at
      its ends, beside any other connections of the server; the steps are those of
      [Client] and [ServerConn], with the codec's answers computed.
      [EndToEndServer] and [EndToEndClient] have the invariants of the two sides,
      [EndToEndSafety] puts them together, [EndToEndRefine] has the simulation,
      [EndToEndAlive] what holds while the client is open, [EndToEndMeasure] the
      measure of the work that is left, which every step lowers, [EndToEndProgress]
      that the goroutines can go on, [EndToEndClose] the same for a client that was
      closed, [EndToEndProps] the theorems.
    - [GobWire] (client.go, [NewClient] and [Connect]), [JsonWire]: the gob and the
      JSON codecs are instances of [Wire] and obey its laws, so that all this holds
      for both; and a run of a client and a server with each.
    - [Dencoder] (dencoder.go): frames of protobuf messages.
    - [Selector] (selector.go, selector_random.go, selector_rr.go, [Address] of
      balancer.go), [Registry] (registry.go, registry_mem.go, registry_etcd.go,
      registry_zk.go, [Endpoint.Data] of service.go) with [RegistryHistory], [Watcher] (naming.go,
      watcher.go, the two resolvers), [Balancer] (balancer.go): how a client
      finds a server.  The balancer is proved against the class [Selector],
      which the two selectors implement, and the registry against the laws
      [KVLaws] of a key-value store.  [Discovery] puts them together: servers that
      announce themselves, the store, a watcher and a client's balancer.
    - [Lifecycle] (lifecycle.go): callbacks, [Start] and [Stop].

    ** How code becomes definitions

    A function keeps its name; a method of which several types have one gets a
    prefix ([js_] for the JSON server codec, [gc_] for the gob client codec,
    [kv_], [mem_], [spm_], [cpm_] and so on).  A fallible function returns an
    [option error] or a sum, one that can panic an [outcome].  Concurrent code
    is a partial function [step : state -> event -> option state]: an event is
    one atomic action of one goroutine (a critical section, a call of the
    codec, a channel operation) together with what its environment answers, and
    [None] means that the goroutine cannot move.  A theorem on reachable states
    is thus about every interleaving, every codec and every user method.
    Fields that only record the history, such as [completed], [received] and
    [seq_of] of the client and the log of a connection, are written and never
    read by the steps.

    ** What is shown

    - End to end.  The composed system refines the specification: a call is
      issued once, its method is run at most once, with the call's own argument,
      and it is completed at most once, with the reply or the error of that run,
      with a rejection of a call that is never run, or with a failure of the
      connection.  In particular a call that is completed without an error has
      the reply that its own method returned, with no error or one without a text.  And while the client is open, every
      schedule of the goroutines leads within [cost] steps of theirs to a state in
      which every call is answered, whatever else the server does; once the client
      is closed, every schedule leads to the end of both sides, with every call
      completed and the connection forgotten by the server.  This is proved against
      the laws of [Wire], which the gob and the JSON codecs obey for programs all of
      whose arguments and replies they can write (see the parameters below).
    - Client.  A call is completed at most once, and exactly once when the
      goroutines have ended; a response reaches only the call registered under
      its number; a Done channel with room loses no completion; the calls
      pending when [receive] ends get the final error; the first [Close] returns
      the codec's answer, and a closed client refuses;
      under every schedule the client comes to its end with every call completed,
      once the codec delivers no more headers;
      [Call] makes a channel of its own and returns exactly when its own call is
      completed, with the error of that call.
    - Server.  Every response echoes the header of a request that was read, none
      is answered twice, and at [Close] of a connection all are answered; no two
      goroutines hold the same header object, and the object still has the
      header when it is needed; the counters and the map of connections count
      what they should, and [onStop] waits for them; under every schedule the server
      answers all that it has read, with no mutex left locked; reading a request never
      panics, and the values that a method is called with fit its parameters, so
      that [reflect.Value.Call] does not panic either; registration, with its panic
      on a nil receiver and the order of its checks, and dispatch are described
      branch by branch.
    - Codecs and frames.  Round trips of a call through the JSON and the gob
      codec and of messages through the framing; reading and writing of the
      JSON server codec commute; the gob server codec writes whole responses and
      closes its connection once; what goes wrong: an argument gob cannot encode, a truncated frame, a frame of absurd length.
    - Plugins.  [Add] never adds, so that all hooks are without effect; each manager
      refuses the hooks of the other side.
    - Selection and balancing.  [Reset] and the round-robin [Select] exactly;
      an update that has the mutex neither panics nor blocks on the [Notify]
      channel, which then holds it alone; a closed balancer refuses.  Also what does not work: a failed [Get] keeps the
      mutex, a blocking [Get] waits for an update that needs it, the default
      selector never selects, and round robin does not rotate.
    - Registries and naming.  The memory registry lists what its history says; the
      key-value registry implements a map with the set of the paths it has announced,
      also when other clients write to the store; what it stores lies where the
      resolver watches, but is not what it reads, so that addresses are lost: put
      together, a service that is announced is reported to the client, but without
      its address, and no [Get] of the default balancer returns one.
    - Life cycle.  [done] is closed once, after all the callbacks that the [Stop]
      which closes it found have run; overlapping [Stop]s run the callbacks twice
      and panic.

    ** Bounds and fuel

    The client's theorems and those of the composed system assume that at most
    2^64 requests were registered, after which sequence numbers repeat.  The theorems
    on every schedule have explicit bounds on the steps of the goroutines: [load]
    for a server, [distance] for a client, [cost] and [close_cost] for both; they add
    up what each goroutine and each message on the way still costs, and [lts_credits]
    turns them into bounds on runs.  The loop of the round-robin [Select] has fuel; [rr_Select_spec] shows that one round is enough whenever it
    returns and that no fuel is enough otherwise.  A varint has at most ten
    bytes, which is the bound of its loops.  All other recursions are structural.

    ** Parameters

    The user's values and their encodings ([GoJson], [GoGob], [ProtoMessage]),
    the codec ([ServerCodec], [ClientCodec]), the tables of [unicode] beyond
    ASCII ([UnicodeTables]), the order in which Go ranges over a map ([ord]),
    the case folding of [encoding/json] on keys, the key-value store, and the
    largest allocation, [net.Dial] and the digest of crypto/md5.

    The type of the user's values is a parameter, and the theorems on the composed
    system with the codecs of this package ([gob_system_serves],
    [json_system_serves]) are for programs that meet a condition on their values:
    gob can encode all of them ([encodable_values]), or encoding/json can marshal
    all of them, and not to null ([marshallable_values]).  Neither holds of every Go
    value, and where it does not the conclusions fail: a value that gob cannot
    encode breaks the stream, as [GobCodec] shows, and a JSON reply that is null
    ends the connection.  Of the libraries they assume that an error of decoding has
    a text ([gob_errors_have_text], [json_errors_have_text]).  The answers of the network, of user methods and of
    plugins are part of the events or of the plugin records.

    ** Not modelled

    The byte level of [encoding/json] and [encoding/gob] and protobuf's
    encoding, which are libraries; sockets; logging; monitor.go and discovery.go,
    which declare empty types; code that is commented out in the sources.  Data
    races that Go leaves undefined are outside of the model: an unsynchronised
    access is an atomic step. *)

From Stdlib Require Export Ascii.
From stdpp Require Export base tactics option list numbers gmap strings.
From stdpp Require Import fin_maps.

(** Every file of the development works with Go's integers as [Z] at their
    width, so [Z_scope] is the default scope. *)
#[global] Open Scope Z_scope.

(** ** Machine integers

    The target is a 64-bit platform: [uint] and [uint64] are 64 bits wide and
    wrap around, [int] is a two's-complement 64-bit integer. *)
Module Word.

Definition modulus : Z := 2 ^ 64.

(** Reduction of an integer to [uint64]. *)
Definition u64 (z : Z) : Z := z mod modulus.

(** Reduction of an integer to [int] (two's complement). *)
Definition int64 (z : Z) : Z :=
  let w := z mod modulus in if bool_decide (w < 2 ^ 63) then w else w - modulus.

Definition is_u64 (z : Z) : Prop := 0 <= z < modulus.

#[global] Instance is_u64_dec z : Decision (is_u64 z).
Proof. unfold is_u64. apply _. Defined.

Lemma modulus_pos : 0 < modulus.
Proof. unfold modulus. lia. Qed.

Lemma u64_range z : is_u64 (u64 z).
Proof. unfold is_u64, u64. pose proof modulus_pos. apply Z.mod_pos_bound. lia. Qed.

Lemma u64_small z : is_u64 z -> u64 z = z.
Proof. intros H. unfold u64. apply Z.mod_small, H. Qed.

Lemma int64_small z : 0 <= z < 2 ^ 63 -> int64 z = z.
Proof.
  intros H. unfold int64, modulus. rewrite Z.mod_small by lia.
  by rewrite bool_decide_eq_true_2 by lia.
Qed.

Lemma int64_high z : 2 ^ 63 <= z < 2 ^ 64 -> int64 z = z - 2 ^ 64.
Proof.
  intros H. unfold int64, modulus. rewrite Z.mod_small by lia.
  by rewrite bool_decide_eq_false_2 by lia.
Qed.

End Word.

(** ** Outcomes of Go code

    A call either returns, or panics with a message.  Loops that can fail to
    return carry fuel and have their own result type where they are modelled. *)
Inductive outcome (A : Type) : Type :=
| Return (a : A)
| Panic (why : string).
Arguments Return {A} a.
Arguments Panic {A} why.

#[global] Instance outcome_eq_dec `{EqDecision A} : EqDecision (outcome A).
Proof. solve_decision. Defined.

Definition outcome_bind {A B} (m : outcome A) (k : A -> outcome B) : outcome B :=
  match m with
  | Return a => k a
  | Panic w => Panic w
  end.

Declare Scope go_scope.
Delimit Scope go_scope with go.
Notation "'let*' x ':=' m 'in' k" := (outcome_bind m (fun x => k))
  (at level 10, x pattern, m at level 100, k at level 200) : go_scope.

(** Transitive resolution of a [match] or [if] whose scrutinee is a concrete
    case: splits every match of the goal and the hypotheses and discharges the
    impossible branches. *)
Ltac split_matches := repeat (case_match; simplify_eq/=; try done).

(** Destructs the matches of one hypothesis only. *)
Ltac split_matches_in H :=
  repeat match type of H with
  | context [match ?x with _ => _ end] => destruct x eqn:?; simplify_eq/=; try done
  end.

(** ** Labelled transition systems

    The concurrent parts of the program (client, server connection, balancer)
    and the histories of operations on the sequential parts are transition
    systems whose step is a partial function of the state and of the event
    that is scheduled next: an event names the goroutine that moves and what
    its environment answers, and [None] means that the event is not enabled. *)
(** Sums over the events of a run. *)
Lemma sum_list_with_const {A} n (l : list A) : sum_list_with (fun _ => n) l = (n * length l)%nat.
Proof. induction l; simpl; lia. Qed.

Lemma sum_list_with_mult {A} n (f : A -> nat) l : sum_list_with (fun x => n * f x)%nat l = (n * sum_list_with f l)%nat.
Proof. induction l; simpl; lia. Qed.

Lemma sum_list_with_filter {A} (P : A -> Prop) `{!forall x, Decision (P x)} l :
  sum_list_with (fun x => if decide (P x) then 1 else 0)%nat l = length (filter P l).
Proof. induction l as [|x l IH]; simpl; [done|]. rewrite filter_cons. case_decide; simpl; lia. Qed.

Class LTS (S E : Type) := lts_step : S -> E -> option S.

Section lts.
Context {S E : Type} `{!LTS S E}.
Implicit Types (s : S) (e : E) (es : list E).

Fixpoint lts_run s es : option S :=
  match es with
  | [] => Some s
  | e :: es' => match lts_step s e with Some s' => lts_run s' es' | None => None end
  end.

(** Reachability, for rule induction. *)
Inductive reachable (s0 : S) : S -> Prop :=
| reachable_refl : reachable s0 s0
| reachable_step s e s' : reachable s0 s -> lts_step s e = Some s' -> reachable s0 s'.

Lemma reachable_trans s0 s1 s2 : reachable s0 s1 -> reachable s1 s2 -> reachable s0 s2.
Proof. intros H1 H2. induction H2; [done|]. eapply reachable_step; eauto. Qed.

Lemma lts_run_app s es1 es2 :
  lts_run s (es1 ++ es2) = (lts_run s es1) ≫= fun s' => lts_run s' es2.
Proof.
  revert s; induction es1 as [|e es1 IH]; intros s; simpl; [done|].
  destruct (lts_step s e); simpl; [apply IH|done].
Qed.

Lemma lts_run_reachable s0 es s : lts_run s0 es = Some s -> reachable s0 s.
Proof.
  revert s; induction es as [|e es IH] using rev_ind; intros s Hr; simpl in Hr.
  - simplify_eq. constructor.
  - rewrite lts_run_app in Hr.
    destruct (lts_run s0 es) as [s1|] eqn:E1; simpl in Hr; [|done].
    destruct (lts_step s1 e) as [s2|] eqn:E2; simplify_eq/=.
    eapply reachable_step; eauto.
Qed.

(** The invariant rule. *)
Lemma reachable_invariant (I : S -> Prop) s0 s :
  I s0 -> (forall s e s', I s -> lts_step s e = Some s' -> I s') ->
  reachable s0 s -> I s.
Proof. intros H0 Hs. induction 1; eauto. Qed.

(** The invariant rule with an established invariant to strengthen it. *)
Lemma reachable_invariant_under (J I : S -> Prop) s0 s :
  (forall s, reachable s0 s -> J s) ->
  I s0 -> (forall s e s', J s -> I s -> lts_step s e = Some s' -> I s') ->
  reachable s0 s -> I s.
Proof. intros HJ H0 Hs. induction 1; eauto. Qed.

(** Every schedule: where each step pays for itself out of a measure of the state,
    or out of the credit that its event brings, this bounds what a run can do. *)
Lemma lts_credits (I : S -> Prop) (Q : E -> Prop) (price credit : E -> nat) (m : S -> nat) :
  (forall s e s', I s -> Q e -> lts_step s e = Some s' -> I s' ∧ (price e + m s' <= credit e + m s)%nat) ->
  forall es s s', I s -> Forall Q es -> lts_run s es = Some s' ->
    I s' ∧ (sum_list_with price es + m s' <= sum_list_with credit es + m s)%nat.
Proof.
  intros Hstep. induction es as [|e es IH]; intros s s' Hi HQ Hr; simpl in *; [simplify_eq; split; [done|lia]|].
  apply Forall_cons in HQ as [Hq HQ]. destruct (lts_step s e) as [s1|] eqn:Hs; [|done].
  destruct (Hstep _ _ _ Hi Hq Hs) as (Hi1 & Hle). destruct (IH _ _ Hi1 HQ Hr) as [Hi' Hb]. split; [done|lia].
Qed.

(** A measure that no step raises and the steps of interest lower bounds how many
    of these a run can have, in whatever order the others come. *)
Lemma lts_bounded (I : S -> Prop) (Q P : E -> Prop) `{!forall e, Decision (P e)} (m : S -> nat) :
  (forall s e s', I s -> Q e -> lts_step s e = Some s' -> I s' ∧ (m s' <= m s)%nat ∧ (P e -> m s' < m s)%nat) ->
  forall es s s', I s -> Forall Q es -> lts_run s es = Some s' -> I s' ∧ (length (filter P es) + m s' <= m s)%nat.
Proof.
  intros Hstep es s s' Hi HQ Hr.
  destruct (lts_credits I Q (fun e => if decide (P e) then 1 else 0)%nat (fun _ => 0%nat) m) with es s s' as [Hi' Hb]; [|done..|].
  - intros s1 e s2 H1 H2 H3. destruct (Hstep _ _ _ H1 H2 H3) as (? & ? & Hlt). split; [done|]. case_decide as Hp; [specialize (Hlt Hp)|]; lia.
  - rewrite sum_list_with_filter, (sum_list_with_const 0) in Hb. split; [done|lia].
Qed.

(** A run of nothing but such steps ends. *)
Lemma lts_terminates (I : S -> Prop) (P : E -> Prop) (m : S -> nat) :
  (forall s e s', I s -> P e -> lts_step s e = Some s' -> I s' ∧ (m s' < m s)%nat) ->
  forall es s s', I s -> Forall P es -> lts_run s es = Some s' -> I s' ∧ (length es + m s' <= m s)%nat.
Proof.
  intros Hstep es s s' Hi HP Hr.
  destruct (lts_credits I P (fun _ => 1%nat) (fun _ => 0%nat) m) with es s s' as [Hi' Hb]; [|done..|].
  - intros s1 e s2 H1 H2 H3. destruct (Hstep _ _ _ H1 H2 H3). split; [done|lia].
  - rewrite (sum_list_with_const 1), (sum_list_with_const 0) in Hb. split; [done|lia].
Qed.

(** Some schedule: where there is such a step until the goal is reached, a run of
    them reaches it. *)
Lemma lts_comes_to (I Rest : S -> Prop) (P : E -> Prop) (m : S -> nat) :
  (forall s e s', I s -> P e -> lts_step s e = Some s' -> I s' ∧ (m s' < m s)%nat) ->
  (forall s, I s -> (exists e, P e ∧ is_Some (lts_step s e)) ∨ Rest s) ->
  forall s, I s -> exists es s', Forall P es ∧ lts_run s es = Some s' ∧ I s' ∧ Rest s'.
Proof.
  intros Hstep Hmove s. remember (m s) as n eqn:Hn. revert s Hn. induction (lt_wf n) as [n _ IH]. intros s -> Hi.
  destruct (Hmove s Hi) as [(e & He & s1 & Hs)|Hrest]; [|by exists [], s].
  destruct (Hstep _ _ _ Hi He Hs) as [Hi1 Hlt]. destruct (IH (m s1) Hlt s1 eq_refl Hi1) as (es & s' & HP & Hr & Hi' & Hrest).
  exists (e :: es), s'. split_and!; [by constructor|simpl; by rewrite Hs|done|done].
Qed.
End lts.

Arguments reachable {S E _} s0 s.

(** ** Lists *)
(** What a field without duplicates tells apart. *)
Lemma NoDup_fmap_inj {A B} (f : A -> B) (l : list A) x y :
  NoDup (f <$> l) -> x ∈ l -> y ∈ l -> f x = f y -> x = y.
Proof.
  intros Hnd [i Hi]%list_elem_of_lookup [j Hj]%list_elem_of_lookup E. assert (i = j) as ->; [|congruence].
  eapply NoDup_lookup; [exact Hnd|..]; rewrite list_lookup_fmap; [by rewrite Hi|]. rewrite Hj. simpl. by rewrite E.
Qed.

Lemma elem_of_take_weaken {A} (l : list A) n x : x ∈ take n l -> x ∈ l.
Proof. intros [i [Hi _]%lookup_take_Some]%list_elem_of_lookup. by eapply list_elem_of_lookup_2. Qed.

(** Different numbers below [n] are at most [n]. *)
Lemma NoDup_bounded (l : list Z) (n : Z) : NoDup l -> (forall z, z ∈ l -> 0 <= z < n) -> 0 <= n -> Z.of_nat (length l) <= n.
Proof.
  intros Hnd Hb Hn. assert (length l <= length (seqZ 0 n))%nat as Hl.
  { apply submseteq_length, NoDup_submseteq; [done|]. intros z Hz%Hb. apply elem_of_seqZ. lia. }
  rewrite length_seqZ in Hl. lia.
Qed.

Lemma NoDup_fmap_snoc {A B} (f : A -> B) (l : list A) x y :
  NoDup (f <$> l ++ [x]) -> y ∈ l -> f y <> f x.
Proof.
  rewrite fmap_app. intros (_ & Hnd & _)%NoDup_app Hy E. apply (Hnd (f y)); [by apply list_elem_of_fmap_2|]. rewrite E. set_solver.
Qed.

Section lists.
Context {A : Type}.
Implicit Types (l : list A).

Lemma filter_absent (P : A -> Prop) `{!forall x, Decision (P x)} l :
  (forall x, x ∈ l -> ~ P x) -> filter P l = [].
Proof.
  intros Hno. destruct (filter P l) as [|x k] eqn:E; [done|]. exfalso.
  assert (x ∈ filter P l) as Hx by (rewrite E; set_solver). apply list_elem_of_filter in Hx as [? ?].
  by eapply Hno.
Qed.

Lemma mapM_fmap_option {B C} (f : A -> option B) (g : B -> C) l (k : list B) :
  mapM f l = Some k -> mapM (fun x => g <$> f x) l = Some (g <$> k).
Proof.
  revert k; induction l as [|x l IH]; intros k Hk; simpl in *.
  - by injection Hk as <-.
  - destruct (f x); simpl in *; [|done]. destruct (mapM f l) as [k'|]; simpl in *; [|done].
    injection Hk as <-. by rewrite (IH k').
Qed.
End lists.

(** Balancing an account: [H] was [R] and what is open, [C]; one open entry is
    replaced, [rd] is booked and [wr] is settled. *)
Lemma Permutation_balance {X} (H R C C' rd wr a b : list X) :
  H ≡ₚ R ++ C -> a ++ C' ≡ₚ b ++ C -> wr ++ b ≡ₚ rd ++ a -> H ++ rd ≡ₚ (R ++ wr) ++ C'.
Proof.
  intros HH HC Hw. apply (Permutation_app_inv_l a). rewrite HH.
  trans (R ++ (rd ++ a) ++ C); [solve_Permutation|]. rewrite <- Hw.
  trans (R ++ wr ++ (b ++ C)); [solve_Permutation|]. rewrite <- HC. solve_Permutation.
Qed.

(** ** What the entries of a map contribute

    [collect f m] gathers the contributions [f k x] of all entries, in no
    particular order.  It counts goroutines in some state, and lists what they
    still owe; the lemmas say how one update changes it. *)
Section collect.
Context `{Countable K} {G X : Type}.
Implicit Types (m : gmap K G) (f : K -> G -> list X).

Definition collect f m : list X := map_to_list m ≫= fun kx => f kx.1 kx.2.

Lemma collect_empty f : collect f ∅ = [].
Proof. unfold collect. by rewrite map_to_list_empty. Qed.

Lemma collect_insert_new f m k x :
  m !! k = None -> collect f (<[k := x]> m) ≡ₚ f k x ++ collect f m.
Proof. intros Hk. unfold collect. by rewrite map_to_list_insert. Qed.

Lemma collect_delete f m k x :
  m !! k = Some x -> f k x ++ collect f (delete k m) ≡ₚ collect f m.
Proof.
  intros Hk. rewrite <- collect_insert_new by apply lookup_delete_eq.
  by rewrite insert_delete_id.
Qed.

Lemma collect_update f m k x x' :
  m !! k = Some x -> f k x ++ collect f (<[k := x']> m) ≡ₚ f k x' ++ collect f m.
Proof.
  intros Hk. rewrite <- insert_delete_eq, collect_insert_new by apply lookup_delete_eq.
  rewrite <- (collect_delete f m k x Hk). by rewrite !(assoc_L (++)), (comm (++) (f k x)).
Qed.

(** An update that contributes what the old entry did changes nothing. *)
Lemma collect_update_same f m k x x' :
  m !! k = Some x -> f k x' = f k x -> collect f (<[k := x']> m) ≡ₚ collect f m.
Proof.
  intros Hk Hf. pose proof (collect_update f m k x x' Hk) as Hp. rewrite Hf in Hp.
  by apply Permutation_app_inv_l in Hp.
Qed.

Lemma collect_nil f m : (forall k x, m !! k = Some x -> f k x = []) -> collect f m = [].
Proof.
  intros Hf. unfold collect. assert (Forall (fun kx => f kx.1 kx.2 = []) (map_to_list m)) as Ha.
  { apply Forall_forall. intros [k x] Hin%elem_of_map_to_list. by apply Hf. }
  induction Ha as [|kx l Hkx _ IH]; [done|]. csimpl. by rewrite Hkx.
Qed.

(** An entry that contributes nothing before and after. *)
Lemma collect_insert_ne f m k x :
  (forall y, f k y = []) -> collect f (<[k := x]> m) ≡ₚ collect f m.
Proof.
  intros Hf. destruct (m !! k) as [y|] eqn:Hk.
  - apply (collect_update_same _ _ _ y); [done|]. by rewrite !Hf.
  - by rewrite collect_insert_new, Hf.
Qed.

Lemma collect_delete_ne f m k :
  (forall y, f k y = []) -> collect f (delete k m) ≡ₚ collect f m.
Proof.
  intros Hf. destruct (m !! k) as [y|] eqn:Hk.
  - rewrite <- (collect_delete f m k y Hk). by rewrite Hf.
  - by rewrite delete_id.
Qed.

Lemma elem_of_collect f m y : y ∈ collect f m <-> exists k x, m !! k = Some x ∧ y ∈ f k x.
Proof.
  unfold collect. rewrite list_elem_of_bind. split.
  - intros ([k x] & Hy & Hin%elem_of_map_to_list). by exists k, x.
  - intros (k & x & Hk & Hy). exists (k, x). by rewrite elem_of_map_to_list.
Qed.
End collect.

Section total.
Context `{Countable K} {G : Type}.
Implicit Types (m : gmap K G) (w : K -> G -> nat).

(** The sum of the weights of the entries. *)
Definition total w m : nat := length (collect (fun k x => replicate (w k x) tt) m).

Lemma total_insert_new w m k x : m !! k = None -> total w (<[k := x]> m) = (w k x + total w m)%nat.
Proof.
  intros Hk. unfold total. by rewrite (collect_insert_new (fun k x => replicate (w k x) tt) m k x Hk), length_app, length_replicate.
Qed.

Lemma total_delete w m k x : m !! k = Some x -> (w k x + total w (delete k m))%nat = total w m.
Proof.
  intros Hk. unfold total.
  by rewrite <- (collect_delete (fun k x => replicate (w k x) tt) m k x Hk), length_app, length_replicate.
Qed.

Lemma total_update w m k x x' :
  m !! k = Some x -> (w k x + total w (<[k := x']> m))%nat = (w k x' + total w m)%nat.
Proof.
  intros Hk. pose proof (collect_update (fun k x => replicate (w k x) tt) m k x x' Hk) as Hp%Permutation_length.
  by rewrite !length_app, !length_replicate in Hp.
Qed.

(** Entries without weight do not matter. *)
Lemma total_filter w m (P : K * G -> Prop) `{!forall x, Decision (P x)} :
  (forall k x, ~ P (k, x) -> w k x = 0%nat) -> total w (filter P m) = total w m.
Proof.
  intros Hz. induction m as [|k x m Hk IH] using map_ind; [by rewrite map_filter_empty|].
  rewrite total_insert_new by done. destruct (decide (P (k, x))) as [Hp|Hp].
  - rewrite map_filter_insert_True, total_insert_new, IH by (try done; apply map_lookup_filter_None; by left). done.
  - rewrite map_filter_insert_not', IH, Hz by (try done; by rewrite Hk). done.
Qed.
End total.

(** ** The hint database of the development *)
Create HintDb byterpc.
#[export] Hint Resolve Word.u64_range : byterpc.
#[export] Hint Constructors reachable : byterpc.
