(* ===== verification/GoStd.v ===== *)
(** * The parts of the Go language and its library that byterpc uses

    Error values, byte strings and the functions of [strings], [strconv],
    [unicode/utf8] and [unicode] that the sources call, with the lemmas about
    them that the components share.  A Go string is a sequence of bytes, which
    is what [string] is here. *)
From stdpp Require Import pretty.
From S2P Require Import Prelude.

(** ** Errors

    An [error] interface value.  The package-level variables are compared by
    identity in the code, so each is a constructor; [ErrNew] is any other error
    (made by [errors.New] or returned by a library), known by its text.  A nil
    error is [None]. *)
Inductive error : Type :=
| EOF | ErrUnexpectedEOF                                     (* package io *)
| ErrInvalidServiceName | ErrMethodMustBeExported
| ErrServiceAlreadyDefinedInServer | ErrServerCanNotDecodeRequest  (* server.go *)
| ErrMethodMustHaveThreeParameters | ErrMethodArgsMustBeExported
| ErrMethodSecondArgMustBePointer | ErrMethodReturnValueMustBeAnError  (* service.go *)
| ErrShutdown                                                (* client.go *)
| UnsupportedOperationError                                  (* plugin.go *)
| ErrUnsupportedRegistrationType                             (* registry.go *)
| ErrClientConnClosing                                       (* balancer.go *)
| ErrAddrListEmptyErr | ErrAddrDoesNotExistErr | ErrNoAvailableAddressErr  (* selector.go *)
| ErrNoTargetProvided                                        (* resolver_etcd.go *)
| ErrInvalidInvokePoint                                      (* utils.go *)
| ServerError (e : string)                                   (* client.go *)
| ErrNew (text : string).

#[global] Instance error_eq_dec : EqDecision error.
Proof. solve_decision. Defined.

(** [err.Error()]. *)
Definition Error (e : error) : string :=
  match e with
  | EOF => "EOF"
  | ErrUnexpectedEOF => "unexpected EOF"
  | ErrInvalidServiceName => "invalid service name, can't be empty"
  | ErrMethodMustBeExported => "method must be exported for registration"
  | ErrServiceAlreadyDefinedInServer => "service already defined in this server."
  | ErrServerCanNotDecodeRequest => "server cannot decode request"
  | ErrMethodMustHaveThreeParameters =>
      "method to be exported must has 2 parameters and 1 error return value"
  | ErrMethodArgsMustBeExported => "method's args must be exported"
  | ErrMethodSecondArgMustBePointer => "method's second args must be pointer"
  | ErrMethodReturnValueMustBeAnError => "method's return value must be an error"
  | ErrShutdown => "connection is shut down"
  | UnsupportedOperationError => "unsuppported operation"
  | ErrUnsupportedRegistrationType => "unsupported registration type"
  | ErrClientConnClosing => "balancer is closed"
  | ErrAddrListEmptyErr => "addr list is emtpy"
  | ErrAddrDoesNotExistErr => "addr does not exist"
  | ErrNoAvailableAddressErr => "no available address"
  | ErrNoTargetProvided => "no target provided"
  | ErrInvalidInvokePoint => "invalid invoke-point, must be: PSM:ServiceName.MethodName"
  | ServerError e => e
  | ErrNew text => text
  end.

(** What a connection answers that was closed. *)
Definition closed_error : error := ErrNew "use of closed network connection".

(** ** Byte strings *)
Module Str.

(** The byte at the front of a string, as a number. *)
Definition byte_of (c : ascii) : Z := Z.of_N (N_of_ascii c).

(** [s[:n]] and [s[n:]], for [n] within the string. *)
Fixpoint take (n : nat) (s : string) : string :=
  match n, s with
  | S n', String c s' => String c (take n' s')
  | _, _ => EmptyString
  end.

Fixpoint drop (n : nat) (s : string) : string :=
  match n, s with
  | S n', String _ s' => drop n' s'
  | _, _ => s
  end.

(** Whether a byte occurs in a string. *)
Fixpoint has (c : ascii) (s : string) : bool :=
  match s with
  | EmptyString => false
  | String a s' => bool_decide (a = c) || has c s'
  end.

(** The number of occurrences of a byte. *)
Fixpoint count (c : ascii) (s : string) : nat :=
  match s with
  | EmptyString => 0
  | String a s' => (if bool_decide (a = c) then 1 else 0) + count c s'
  end%nat.

(** [strings.LastIndex(s, c)] for a one-byte [c]: the scan keeps the last hit. *)
Fixpoint last_index_from (c : ascii) (s : string) (i hit : Z) : Z :=
  match s with
  | EmptyString => hit
  | String a s' => last_index_from c s' (i + 1) (if bool_decide (a = c) then i else hit)
  end.

Definition LastIndex (s : string) (c : ascii) : Z := last_index_from c s 0 (-1).

(** [strings.Split(s, c)] for a one-byte separator. *)
Fixpoint Split (s : string) (c : ascii) : list string :=
  match s with
  | EmptyString => [EmptyString]
  | String a s' =>
      if bool_decide (a = c) then EmptyString :: Split s' c
      else match Split s' c with
           | [] => [String a EmptyString]
           | p :: ps => String a p :: ps
           end
  end.

(** [strings.Trim(s, " ")]. *)
Fixpoint trim_left (s : string) : string :=
  match s with
  | String a s' => if bool_decide (a = " "%char) then trim_left s' else s
  | EmptyString => EmptyString
  end.

Fixpoint trim_right (s : string) : string :=
  match s with
  | EmptyString => EmptyString
  | String a s' =>
      match trim_right s' with
      | EmptyString => if bool_decide (a = " "%char) then EmptyString else String a EmptyString
      | t => String a t
      end
  end.

Definition Trim (s : string) : string := trim_right (trim_left s).

(** [strings.HasPrefix] and [strings.Contains]. *)
Fixpoint HasPrefix (s p : string) : bool :=
  match p, s with
  | EmptyString, _ => true
  | String a p', String b s' => bool_decide (a = b) && HasPrefix s' p'
  | String _ _, EmptyString => false
  end.

Fixpoint Contains (s p : string) : bool :=
  HasPrefix s p || match s with EmptyString => false | String _ s' => Contains s' p end.

(** Concatenation of a list, as [strings.Builder] accumulates it. *)
Fixpoint concat (l : list string) : string :=
  match l with
  | [] => EmptyString
  | s :: l' => s +:+ concat l'
  end.

(** *** Lemmas *)

Lemma app_cons a s t : String a s +:+ t = String a (s +:+ t).
Proof. done. Qed.

Lemma app_nil_l t : "" +:+ t = t.
Proof. done. Qed.

Lemma app_nil_r s : s +:+ "" = s.
Proof. induction s as [|a s IH]; [done|]. by rewrite app_cons, IH. Qed.

Lemma app_assoc s t u : s +:+ (t +:+ u) = (s +:+ t) +:+ u.
Proof. induction s as [|a s IH]; [done|]. by rewrite !app_cons, IH. Qed.

Lemma length_app s t : String.length (s +:+ t) = (String.length s + String.length t)%nat.
Proof. induction s as [|a s IH]; [done|]. rewrite app_cons. simpl. by rewrite IH. Qed.

Lemma take_app s t : take (String.length s) (s +:+ t) = s.
Proof. induction s as [|a s IH]; [by destruct t|]. rewrite app_cons. simpl. by rewrite IH. Qed.

Lemma drop_app s t n : drop (String.length s + n) (s +:+ t) = drop n t.
Proof. induction s as [|a s IH]; [done|]. by rewrite app_cons. Qed.

Lemma has_app c s t : has c (s +:+ t) = has c s || has c t.
Proof. induction s as [|a s IH]; [done|]. rewrite app_cons. simpl. by rewrite IH, orb_assoc. Qed.

Lemma count_app c s t : count c (s +:+ t) = (count c s + count c t)%nat.
Proof. induction s as [|a s IH]; [done|]. rewrite app_cons. simpl. rewrite IH. lia. Qed.

Lemma has_count c s : has c s = bool_decide (0 < count c s)%nat.
Proof.
  induction s as [|a s IH]; [done|]. simpl. rewrite IH.
  by destruct (bool_decide (a = c)).
Qed.

Lemma count_0_has c s : count c s = 0%nat <-> has c s = false.
Proof. rewrite has_count, bool_decide_eq_false. lia. Qed.

Lemma last_index_absent c s i hit :
  has c s = false -> last_index_from c s i hit = hit.
Proof.
  revert i hit; induction s as [|a s IH]; intros i hit H; simpl in *; [done|].
  apply orb_false_iff in H as [H1 H2].
  rewrite IH by done. by rewrite H1.
Qed.

Lemma last_index_app c s t i hit :
  last_index_from c (s +:+ t) i hit =
  last_index_from c t (i + Z.of_nat (String.length s)) (last_index_from c s i hit).
Proof.
  revert i hit; induction s as [|a s IH]; intros i hit.
  - rewrite app_nil_l. simpl. f_equal. lia.
  - rewrite app_cons. cbn [last_index_from]. rewrite IH. f_equal. simpl String.length. lia.
Qed.

(** The last separator of [s ++ c ++ t] is the one shown when [t] has none. *)
Lemma LastIndex_app c s t :
  has c t = false ->
  LastIndex (s +:+ String c t) c = Z.of_nat (String.length s).
Proof.
  intros H. unfold LastIndex. rewrite last_index_app. simpl.
  rewrite bool_decide_eq_true_2 by done. by rewrite last_index_absent.
Qed.

(** [LastIndex] splits a string at its last separator, or finds none. *)
Lemma LastIndex_spec c s :
  (LastIndex s c = -1 /\ has c s = false) \/
  (exists p q, s = p +:+ String c q /\ has c q = false /\
               LastIndex s c = Z.of_nat (String.length p)).
Proof.
  assert ((has c s = false) \/ exists p q, s = p +:+ String c q /\ has c q = false) as [H|H].
  { induction s as [|a s IH]; [by left|]. simpl.
    destruct IH as [H|(p & q & -> & H)].
    - rewrite H, orb_false_r. case_bool_decide; [|by left].
      right. exists EmptyString, s. by subst.
    - right. by exists (String a p), q. }
  - left. split; [|done]. unfold LastIndex. by rewrite last_index_absent.
  - right. destruct H as (p & q & -> & H). exists p, q. by rewrite LastIndex_app.
Qed.

Lemma Split_not_nil s c : Split s c <> [].
Proof. destruct s; simpl; [done|]. split_matches. Qed.

Lemma Split_none s c : has c s = false -> Split s c = [s].
Proof.
  induction s as [|a s IH]; simpl; [done|].
  intros [H1 H2]%orb_false_iff. by rewrite H1, IH.
Qed.

Lemma Split_app s t c : has c s = false -> Split (s +:+ String c t) c = s :: Split t c.
Proof.
  induction s as [|a s IH]; simpl.
  - by rewrite bool_decide_eq_true_2.
  - intros [H1 H2]%orb_false_iff. by rewrite H1, IH.
Qed.

(** The number of parts is the number of separators plus one. *)
Lemma length_Split s c : length (Split s c) = S (count c s).
Proof.
  induction s as [|a s IH]; simpl; [done|]. case_bool_decide; simpl; [by rewrite IH|].
  pose proof (Split_not_nil s c). destruct (Split s c); simpl in *; [done|lia].
Qed.

(** A string with one separator has the two sides as its parts. *)
Lemma count_1_split s c :
  count c s = 1%nat -> exists p q, s = p +:+ String c q /\ has c p = false /\ has c q = false.
Proof.
  induction s as [|a s IH]; simpl; [done|]. case_bool_decide; intros H1.
  - exists EmptyString, s. subst. split_and!; [done|done|apply count_0_has; lia].
  - destruct IH as (p & q & -> & Hp & Hq); [lia|].
    exists (String a p), q. simpl. by rewrite bool_decide_eq_false_2 by done.
Qed.

Lemma HasPrefix_app s t : HasPrefix (s +:+ t) s = true.
Proof. induction s as [|a s IH]; [by destruct t|]. simpl. by rewrite bool_decide_eq_true_2. Qed.

Lemma HasPrefix_iff s p : HasPrefix s p = true <-> exists t, s = p +:+ t.
Proof.
  split; [|by intros [t ->]; apply HasPrefix_app].
  revert s; induction p as [|a p IH]; intros s; simpl; [by exists s|].
  destruct s as [|b s]; [done|].
  intros [Hab H]%andb_true_iff. apply bool_decide_eq_true in Hab as ->.
  destruct (IH s H) as [t ->]. by exists t.
Qed.

Lemma Contains_unfold s p :
  Contains s p =
  HasPrefix s p || match s with EmptyString => false | String _ s' => Contains s' p end.
Proof. by destruct s. Qed.

Lemma Contains_iff s p : Contains s p = true <-> exists u v, s = u +:+ (p +:+ v).
Proof.
  split.
  - induction s as [|a s IH]; rewrite Contains_unfold; intros H;
      apply orb_true_iff in H as [H|H]; try done.
    + apply HasPrefix_iff in H as [t Ht]. by exists EmptyString, t.
    + apply HasPrefix_iff in H as [t Ht]. by exists EmptyString, t.
    + destruct (IH H) as (u & v & ->). by exists (String a u), v.
  - intros (u & v & ->). induction u as [|a u IH]; rewrite Contains_unfold.
    + by rewrite app_nil_l, HasPrefix_app.
    + rewrite app_cons, IH. by rewrite orb_true_r.
Qed.

Lemma trim_right_nil s : trim_right s = "" -> count "010"%char s = 0%nat.
Proof.
  induction s as [|a s IH]; simpl; [done|].
  destruct (trim_right s); [|done]. case_bool_decide; [|done].
  intros _. subst. simpl. by apply IH.
Qed.

Lemma trim_left_count s : count "010"%char (trim_left s) = count "010"%char s.
Proof. induction s as [|a s IH]; simpl; [done|]. by case_bool_decide; subst. Qed.

(** A string that holds a newline is not trimmed to nothing. *)
Lemma Trim_newline s : (0 < count "010"%char s)%nat -> Trim s <> "".
Proof. unfold Trim. intros H E%trim_right_nil. rewrite trim_left_count in E. lia. Qed.

End Str.

(** ** strconv *)

Definition Itoa (n : Z) : string := pretty n.

Definition digit (c : ascii) : option Z :=
  let b := Str.byte_of c - 48 in if bool_decide (0 <= b <= 9) then Some b else None.

Fixpoint atoi_digits (s : string) (n : Z) : option Z :=
  match s with
  | EmptyString => Some n
  | String c s' => match digit c with Some d => atoi_digits s' (n * 10 + d) | None => None end
  end.

(** [strconv.Atoi]: [None] stands for a syntax or range error. *)
Definition Atoi (s : string) : option Z :=
  let '(neg, ds) :=
    match s with
    | String c s' =>
        if bool_decide (c = "-"%char) then (true, s')
        else if bool_decide (c = "+"%char) then (false, s') else (false, s)
    | EmptyString => (false, s)
    end in
  match ds with
  | EmptyString => None
  | _ =>
      match atoi_digits ds 0 with
      | Some n =>
          let v := if (neg : bool) then - n else n in
          if bool_decide (- 2 ^ 63 <= v < 2 ^ 63) then Some v else None
      | None => None
      end
  end.

Lemma Atoi_range s n : Atoi s = Some n -> - 2 ^ 63 <= n < 2 ^ 63.
Proof. unfold Atoi. intros H. split_matches_in H; by case_bool_decide. Qed.

(** ** unicode *)

(** The tables of package [unicode] for runes above U+00FF are data of the Go
    distribution; the code only needs that the replacement rune is no upper-case
    letter. *)
Class UnicodeTables := {
  upper_table : Z -> bool;
  RuneError_not_upper : upper_table 65533 = false
}.

(** [utf8.DecodeRuneInString]: the first rune and its size in bytes; [RuneError]
    of size 1 when the bytes are not a rune. *)
Definition RuneError : Z := 65533.

Definition in_range (lo hi b : Z) : bool := bool_decide (lo <= b <= hi).

Definition DecodeRuneInString (s : string) : Z * nat :=
  match s with
  | EmptyString => (RuneError, 0%nat)
  | String c0 s1 =>
      let b0 := Str.byte_of c0 in
      if in_range 0 127 b0 then (b0, 1%nat)
      else
        match s1 with
        | EmptyString => (RuneError, 1%nat)
        | String c1 s2 =>
            let b1 := Str.byte_of c1 in
            let lo := if bool_decide (b0 = 224) then 160
                      else if bool_decide (b0 = 240) then 144 else 128 in
            let hi := if bool_decide (b0 = 237) then 159
                      else if bool_decide (b0 = 244) then 143 else 191 in
            if negb (in_range 194 244 b0) || negb (in_range lo hi b1) then (RuneError, 1%nat)
            else if in_range 194 223 b0 then ((b0 - 192) * 64 + (b1 - 128), 2%nat)
            else
              match s2 with
              | EmptyString => (RuneError, 1%nat)
              | String c2 s3 =>
                  let b2 := Str.byte_of c2 in
                  if negb (in_range 128 191 b2) then (RuneError, 1%nat)
                  else if in_range 224 239 b0
                  then ((b0 - 224) * 4096 + (b1 - 128) * 64 + (b2 - 128), 3%nat)
                  else
                    match s3 with
                    | EmptyString => (RuneError, 1%nat)
                    | String c3 _ =>
                        let b3 := Str.byte_of c3 in
                        if negb (in_range 128 191 b3) then (RuneError, 1%nat)
                        else ((b0 - 240) * 262144 + (b1 - 128) * 4096 + (b2 - 128) * 64
                             + (b3 - 128), 4%nat)
                    end
              end
        end
  end.

Definition DecodeRune (s : string) : Z := (DecodeRuneInString s).1.

(** What a string is when it has gone through encoding/json, which writes only
    valid UTF-8: each byte that is not part of a rune becomes U+FFFD, the rest
    is as it was.  [skip] counts the bytes left of the rune at hand. *)
Module Utf8.

Definition replacement (s : string) : string :=
  String "239"%char (String "191"%char (String "189"%char s)).

Fixpoint coerce_from (skip : nat) (s : string) : string :=
  match s with
  | EmptyString => EmptyString
  | String c s' =>
      match skip with
      | S k => String c (coerce_from k s')
      | O =>
          let '(r, size) := DecodeRuneInString s in
          if bool_decide (r = RuneError) && bool_decide (size = 1%nat) then replacement (coerce_from 0 s')
          else String c (coerce_from (size - 1) s')
      end
  end.

Definition coerce (s : string) : string := coerce_from 0 s.

Lemma coerce_empty s : coerce s = "" <-> s = "".
Proof.
  unfold coerce. destruct s as [|c s]; [done|]. split; [|done]. intros E. exfalso.
  cbn [coerce_from] in E. destruct (DecodeRuneInString (String c s)) as [r n].
  destruct (bool_decide (r = RuneError) && bool_decide (n = 1%nat)); discriminate E.
Qed.

(** A lone byte, a rune of two bytes, and one that is cut off. *)
Example coerce_bytes :
  coerce (String "255"%char (String "195"%char (String "169"%char (String "226"%char (String "130"%char "")))))
  = replacement (String "195"%char (String "169"%char (replacement (replacement "")))).
Proof. vm_compute. reflexivity. Qed.

(** A string of ASCII characters goes through unchanged. *)
Fixpoint ascii_only (s : string) : bool :=
  match s with
  | EmptyString => true
  | String c s' => in_range 0 127 (Str.byte_of c) && ascii_only s'
  end.

Lemma coerce_ascii s : ascii_only s = true -> coerce s = s.
Proof.
  unfold coerce. induction s as [|c s IH]; [done|]. cbn [ascii_only]. intros [Hc Hs]%andb_true_iff.
  cbn [coerce_from]. unfold DecodeRuneInString. rewrite Hc.
  assert (Str.byte_of c <> RuneError) as Hne.
  { unfold in_range in Hc. apply bool_decide_eq_true_1 in Hc. unfold RuneError. lia. }
  rewrite (bool_decide_eq_false_2 _ Hne). cbn [andb Nat.sub]. by rewrite IH.
Qed.
End Utf8.

(** [unicode.IsUpper]: the Latin-1 range is a fixed property table. *)
Definition IsUpper `{UnicodeTables} (r : Z) : bool :=
  if bool_decide (r <= 255)
  then in_range 65 90 r || in_range 192 214 r || in_range 216 222 r
  else upper_table r.

(** ** reflect

    A [reflect.Type] as far as the program inspects it.  [Kind] separates the
    kinds the code tests for; the numbered rest stands for all others. *)
Inductive Kind := Ptr | Map | Slice | OtherKind (n : nat).

#[global] Instance Kind_eq_dec : EqDecision Kind.
Proof. solve_decision. Defined.

(** A pointer type has an element type; every other type is a leaf.  Unnamed
    types have an empty name and an empty package path, and so do the package
    paths of predeclared types. *)
Inductive rtype :=
| PtrType (name pkg : string) (elem : rtype)
| MapType (name pkg : string)
| SliceType (name pkg : string)
| LeafType (kind : nat) (name pkg : string).

#[global] Instance rtype_eq_dec : EqDecision rtype.
Proof. solve_decision. Defined.

Definition rtype_Kind (t : rtype) : Kind :=
  match t with
  | PtrType _ _ _ => Ptr
  | MapType _ _ => Map
  | SliceType _ _ => Slice
  | LeafType k _ _ => OtherKind k
  end.

Definition rtype_Name (t : rtype) : string :=
  match t with PtrType n _ _ | MapType n _ | SliceType n _ | LeafType _ n _ => n end.

Definition rtype_PkgPath (t : rtype) : string :=
  match t with PtrType _ p _ | MapType _ p | SliceType _ p | LeafType _ _ p => p end.

(** [t.Elem()], called on pointer types only; on other types the model panics. *)
Definition rtype_Elem (t : rtype) : outcome rtype :=
  match t with
  | PtrType _ _ e => Return e
  | _ => Panic "reflect: Elem of invalid type"
  end.

(** [reflect.Interface] and [reflect.Struct]. *)
Definition Interface : nat := 20.
Definition Struct : nat := 25.
