(* ===== verification/Utils.v ===== *)
(** * utils.go: names, error lists and invocation points

    The small functions the other components share. *)
From stdpp Require Import pretty.
From S2P Require Import Prelude GoStd.

Section exported.
Context `{UnicodeTables}.

(** [isExported]: the first rune of the name is an upper-case letter. *)
Definition isExported (methodName : string) : bool := IsUpper (DecodeRune methodName).

(** [isExportedOrBuiltinType]: pointers are stripped first. *)
Fixpoint isExportedOrBuiltinType (t : rtype) : bool :=
  match t with
  | PtrType _ _ e => isExportedOrBuiltinType e
  | _ => isExported (rtype_Name t) || bool_decide (rtype_PkgPath t = "")
  end.
End exported.

(** [WrapArrayErrs] *)
Definition WrapArrayErrs (errs : list error) : option error :=
  let rs := foldl (fun sb e => sb +:+ (Error e +:+ String "010"%char "")) "" errs in
  if bool_decide (String.length (Str.Trim rs) = 0%nat) then None else Some (ErrNew rs).

(** [TransformInvokePointToPath] *)
Definition TransformInvokePointToPath (invokePoint : string) : string + error :=
  let sp := Str.Split invokePoint ":"%char in
  if bool_decide (length sp <> 2%nat) then inr ErrInvalidInvokePoint
  else
    let psm := default "" (sp !! 0%nat) in
    let sName := default "" (Str.Split (default "" (sp !! 1%nat)) "."%char !! 0%nat) in
    inl ("/" +:+ psm +:+ "/" +:+ sName).

(** ** getLocalIPV4

    The address list of the host is the answer of [net.InterfaceAddrs]; an
    address is an [*net.IPNet] with the bytes of its IP, or of another type. *)
Inductive netAddr := IPNet (ip : list Z) | OtherAddr.

(** [ip.To4()]: the 4-byte form, also of a v4-in-v6 address. *)
Definition To4 (ip : list Z) : option (list Z) :=
  if bool_decide (length ip = 4%nat) then Some ip
  else if bool_decide (length ip = 16%nat /\ take 12 ip = repeat 0 10 ++ [255; 255])
  then Some (drop 12 ip) else None.

(** [ip.IsLoopback()] *)
Definition IsLoopback (ip : list Z) : bool :=
  match To4 ip with
  | Some ip4 => bool_decide (head ip4 = Some 127)
  | None => bool_decide (ip = repeat 0 15 ++ [1])
  end.

(** [ip.String()] of an address with a 4-byte form. *)
Definition dotted (ip4 : list Z) : string :=
  match ip4 with
  | [a; b; c; d] => pretty a +:+ "." +:+ pretty b +:+ "." +:+ pretty c +:+ "." +:+ pretty d
  | _ => ""
  end.

Fixpoint first_ipv4 (addrs : list netAddr) : string :=
  match addrs with
  | [] => ""
  | IPNet ip :: rest =>
      if negb (IsLoopback ip)
      then match To4 ip with Some ip4 => dotted ip4 | None => first_ipv4 rest end
      else first_ipv4 rest
  | OtherAddr :: rest => first_ipv4 rest
  end.

Definition getLocalIPV4 (InterfaceAddrs : list netAddr + error) : string * option error :=
  match InterfaceAddrs with
  | inr err => ("", Some err)
  | inl addrs => (first_ipv4 addrs, None)
  end.

(** ** MD5Of

    [Md5Hasher] is one object of the package; its state is what was written since
    the last [Reset].  [md5] is the library's digest. *)
Section md5.
Context (md5 : string -> list Z).

Definition hex_digit (n : Z) : ascii := default "0"%char (String.get (Z.to_nat n) "0123456789abcdef").

(** [hex.EncodeToString] *)
Fixpoint EncodeToString (src : list Z) : string :=
  match src with
  | [] => ""
  | b :: rest => String (hex_digit (b / 16)) (String (hex_digit (b mod 16)) (EncodeToString rest))
  end.

(** Where a call is: before [Write], before [Sum], before the deferred [Reset],
    at its end with what it returns. *)
Inductive md5_pc := MWrite | MSum | MReset (out : string) | MReturned (out : string).

(** The hasher, and the calls with their texts. *)
Definition md5_state : Type := string * gmap nat (string * md5_pc).

Definition md5_step (s : md5_state) (id : nat) : option md5_state :=
  match s.2 !! id with
  | Some (text, MWrite) => Some (s.1 +:+ text, <[id := (text, MSum)]> s.2)
  | Some (text, MSum) => Some (s.1, <[id := (text, MReset (EncodeToString (md5 s.1)))]> s.2)
  | Some (text, MReset out) => Some ("", <[id := (text, MReturned out)]> s.2)
  | _ => None
  end.

#[global] Instance md5_lts : LTS md5_state nat := md5_step.

(** [MD5Of], undisturbed: the hasher afterwards and the result. *)
Definition MD5Of (hasher text : string) : string * string := ("", EncodeToString (md5 (hasher +:+ text))).
End md5.

(** ** Lemmas *)

Lemma isExported_ascii `{UnicodeTables} c s :
  Str.byte_of c <= 127 ->
  isExported (String c s) = bool_decide (65 <= Str.byte_of c <= 90).
Proof.
  intros Hc. assert (0 <= Str.byte_of c) by (unfold Str.byte_of; lia).
  unfold isExported, DecodeRune, DecodeRuneInString, IsUpper, in_range.
  rewrite (bool_decide_eq_true_2 (0 <= _ <= 127)) by lia. cbn [fst].
  rewrite (bool_decide_eq_true_2 (_ <= 255)) by lia.
  rewrite (bool_decide_eq_false_2 (192 <= _ <= 214)) by lia.
  rewrite (bool_decide_eq_false_2 (216 <= _ <= 222)) by lia.
  by rewrite !orb_false_r.
Qed.

Lemma isExported_empty `{UnicodeTables} : isExported "" = false.
Proof. apply RuneError_not_upper. Qed.

(** The text that [WrapArrayErrs] accumulates. *)
Definition err_lines (errs : list error) : string :=
  Str.concat (map (fun e => Error e +:+ String "010"%char "") errs).

Lemma err_lines_foldl errs acc :
  foldl (fun sb e => sb +:+ (Error e +:+ String "010"%char "")) acc errs
  = acc +:+ err_lines errs.
Proof.
  revert acc; induction errs as [|e errs IH]; intros acc; unfold err_lines; simpl.
  - by rewrite Str.app_nil_r.
  - rewrite IH. symmetry. apply Str.app_assoc.
Qed.

Lemma err_lines_newline e errs : (0 < Str.count "010"%char (err_lines (e :: errs)))%nat.
Proof.
  unfold err_lines. simpl. rewrite !Str.count_app. simpl. lia.
Qed.

Lemma WrapArrayErrs_cons e errs :
  WrapArrayErrs (e :: errs) = Some (ErrNew (err_lines (e :: errs))).
Proof.
  unfold WrapArrayErrs. rewrite err_lines_foldl, Str.app_nil_l.
  rewrite bool_decide_eq_false_2; [done|].
  intros Hl. apply (Str.Trim_newline _ (err_lines_newline e errs)).
  by destruct (Str.Trim _).
Qed.

Lemma Transform_one psm rest :
  Str.has ":"%char psm = false -> Str.has ":"%char rest = false ->
  TransformInvokePointToPath (psm +:+ String ":"%char rest)
  = inl ("/" +:+ psm +:+ "/" +:+ default "" (Str.Split rest "."%char !! 0%nat)).
Proof.
  intros H1 H2. unfold TransformInvokePointToPath.
  rewrite Str.Split_app, Str.Split_none by done. done.
Qed.

(** ** Properties *)

(** [WrapArrayErrs] returns nil exactly for an empty list; for any other
    list the error's text is every message followed by a newline, in order. *)
Theorem WrapArrayErrs_spec errs :
  match WrapArrayErrs errs with
  | None => errs = []
  | Some err => errs <> [] /\ Error err = Str.concat (map (fun e => Error e +:+ String "010"%char "") errs)
  end.
Proof. destruct errs as [|e errs]; [done|]. by rewrite WrapArrayErrs_cons. Qed.

(** An invocation point is rejected exactly when it does not have one colon;
    [PSM:Service.Method] and [PSM:Service] are mapped to [/PSM/Service]. *)
Theorem TransformInvokePointToPath_spec :
  (forall ip, TransformInvokePointToPath ip = inr ErrInvalidInvokePoint
              <-> Str.count ":"%char ip <> 1%nat) /\
  (forall psm svc rest,
     Str.has ":"%char psm = false -> Str.has ":"%char (svc +:+ rest) = false ->
     Str.has "."%char svc = false -> rest = "" \/ (exists m, rest = String "."%char m) ->
     TransformInvokePointToPath (psm +:+ String ":"%char (svc +:+ rest))
     = inl ("/" +:+ psm +:+ "/" +:+ svc)).
Proof.
  split.
  - intros ip. split.
    + intros E Hc. apply Str.count_1_split in Hc as (p & q & -> & Hp & Hq).
      by rewrite Transform_one in E.
    + intros Hc. unfold TransformInvokePointToPath.
      by rewrite bool_decide_eq_true_2 by (rewrite Str.length_Split; lia).
  - intros psm svc rest Hp Hr Hs Hm. rewrite Transform_one by done.
    destruct Hm as [->|[m ->]].
    + by rewrite Str.app_nil_r, Str.Split_none.
    + by rewrite Str.Split_app.
Qed.

(** [MD5Of], when calls do not overlap, leaves the hasher as it found it and
    returns the digest of its text; two calls that overlap can both return the
    digest of the two texts together. *)
Theorem MD5Of_shares_hasher md5 (a b : string) :
  (MD5Of md5 "" a = ("", EncodeToString (md5 a)) ∧
   @lts_run _ _ (md5_lts md5) ("", {[0%nat := (a, MWrite)]}) [0; 0; 0]%nat = Some ("", {[0%nat := (a, MReturned (MD5Of md5 "" a).2)]})) ∧
  @lts_run _ _ (md5_lts md5) ("", {[0%nat := (a, MWrite); 1%nat := (b, MWrite)]}) [0; 1; 0; 1; 0; 1]%nat
    = Some ("", {[0%nat := (a, MReturned (EncodeToString (md5 (a +:+ b)))); 1%nat := (b, MReturned (EncodeToString (md5 (a +:+ b))))]}).
Proof. by vm_compute. Qed.
