(* ===== verification/Types.v ===== *)
(** * The shared records: request.go, response.go, config.go, codec.go and the
      [Endpoint] of service.go *)
From S2P Require Import Prelude GoStd.

(** Addresses of heap objects; a nil pointer is [None]. *)
Abbreviation loc := nat.

(** [RpcRequest]: the header of a call; [next] links the server's free list. *)
Record RpcRequest := mkRequest {
  req_ServiceMethod : string;
  req_Seq : Z;
  req_next : option loc
}.

(** [RpcResponse] *)
Record RpcResponse := mkResponse {
  resp_ServiceMethod : string;
  resp_Seq : Z;
  resp_Error : string;
  resp_next : option loc
}.

#[global] Instance RpcRequest_eq_dec : EqDecision RpcRequest.
Proof. solve_decision. Defined.
#[global] Instance RpcResponse_eq_dec : EqDecision RpcResponse.
Proof. solve_decision. Defined.

(** The zero values, as [new] and [RpcRequest{}] make them. *)
Definition RpcRequest0 : RpcRequest := mkRequest "" 0 None.
Definition RpcResponse0 : RpcResponse := mkResponse "" 0 "" None.

(** ** Configuration; durations are in nanoseconds. *)
Record ServerConfig := mkServerConfig {
  cfg_PSM : string;
  cfg_Port : Z;
  cfg_CodecType : string;
  cfg_RequestTimeout : Z;
  cfg_ConnectionTimeout : Z;
  cfg_Retries : Z;
  cfg_LoadBalance : string;
  cfg_MaxConcurrencyOnMethod : Z;
  cfg_MaxConcurrencyOnService : Z
}.

Definition DefaultConfig : ServerConfig := {|
  cfg_CodecType := "gob";
  cfg_Port := 8888;
  cfg_PSM := "byterpc.default.basic";
  cfg_RequestTimeout := 1000000000 * 30;
  cfg_ConnectionTimeout := 0;
  cfg_Retries := 3;
  cfg_LoadBalance := "random";
  cfg_MaxConcurrencyOnMethod := 10000;
  cfg_MaxConcurrencyOnService := 10000 * 10
|}.

Record ClientConfig := mkClientConfig { ccfg_CodecType : string }.

Definition config_check (c : ServerConfig) : option error := None.

(** ** Endpoints

    [MetaData] is a [map[string]string], nil when absent. *)
Record Endpoint := mkEndpoint {
  ep_PSM : string;
  ep_Address : string;
  ep_ServiceName : string;
  ep_Path : string;
  ep_MetaData : option (gmap string string)
}.

Definition Endpoint0 : Endpoint := mkEndpoint "" "" "" "" None.

#[global] Instance Endpoint_eq_dec : EqDecision Endpoint.
Proof. solve_decision. Defined.

(** ** The codec interface of the server

    A codec is a value of some state type [C] that owns the connection's input
    and output.  [ReadRequestHeader] fills the header it is given;
    [ReadRequestBody] decodes into a new value of the given type, and
    [DiscardRequestBody] is [ReadRequestBody(nil)].  [V] is the type of the Go
    values that arguments and replies are. *)
Class ServerCodec (V C : Type) := {
  ReadRequestHeader : C -> RpcRequest -> C * RpcRequest * option error;
  ReadRequestBody : C -> rtype -> C * (V + error);
  DiscardRequestBody : C -> C * option error;
  WriteResponse : C -> RpcResponse -> V -> C * option error;
  CloseCodec : C -> C * option error
}.

(** ** The codec interface of the client

    [ReadResponseBody] decodes into the value that the reply pointer holds, and
    may panic; [DiscardResponseBody] is [ReadResponseBody(nil)]. *)
Class ClientCodec (V C : Type) := {
  ReadResponseHeader : C -> RpcResponse -> C * RpcResponse * option error;
  ReadResponseBody : C -> V -> outcome (C * (V + error));
  DiscardResponseBody : C -> C * option error;
  WriteRequest : C -> RpcRequest -> V -> C * option error;
  CloseClientCodec : C -> C * option error
}.
