(* ===== verification/FreeList.v ===== *)
(** * The free lists of request and response headers (server.go)

    The server recycles header objects through two linked lists, [freeReq] and
    [freeResp], each guarded by its own mutex.  The objects are shared heap
    objects: a handler reads its request header when it sends the response,
    long after the header was read.  So the heap is explicit here, and the
    theorem is that an object is never handed out while it is in use.

    The two lists have the same code at two types; [Pooled] is what the code
    needs of the type. *)
From S2P Require Import Prelude GoStd Types.

Class Pooled (T : Type) := {
  zero : T;
  next : T -> option loc;
  set_next : option loc -> T -> T;
  next_set_next n t : next (set_next n t) = n
}.

#[global] Instance Pooled_RpcRequest : Pooled RpcRequest := {
  zero := RpcRequest0;
  next := req_next;
  set_next n r := mkRequest (req_ServiceMethod r) (req_Seq r) n;
  next_set_next n r := eq_refl
}.

#[global] Instance Pooled_RpcResponse : Pooled RpcResponse := {
  zero := RpcResponse0;
  next := resp_next;
  set_next n r := mkResponse (resp_ServiceMethod r) (resp_Seq r) (resp_Error r) n;
  next_set_next n r := eq_refl
}.

(** The heap of one object type with the head of its free list; [brk] is the
    address of the next object that [new] makes. *)
Record pool (T : Type) := mkPool {
  heap : gmap loc T;
  free : option loc;
  brk : loc
}.
Arguments mkPool {T} _ _ _.
Arguments heap {T} _.
Arguments free {T} _.
Arguments brk {T} _.

Definition empty_pool {T} : pool T := mkPool ∅ None 0%nat.

Section pool.
Context `{Pooled T}.
Implicit Types (P : pool T) (p q : loc) (live : gset loc).

(** Take the head of the list and clear it, or make a new object. *)
Definition get_free P : loc * pool T :=
  match free P with
  | None => (brk P, mkPool (<[brk P := zero]> (heap P)) None (S (brk P)))
  | Some p =>
      (p, mkPool (<[p := zero]> (heap P)) (heap P !! p ≫= next) (brk P))
  end.

(** Push the object on the list. *)
Definition put_free P p : pool T :=
  mkPool (alter (set_next (free P)) p (heap P)) (Some p) (brk P).

(** A write through a pointer to an object. *)
Definition store P p (v : T) : pool T := mkPool (<[p := v]> (heap P)) (free P) (brk P).

(** ** The invariant

    [chain h o l]: following [next] from [o] visits exactly the objects [l]. *)
Fixpoint chain (h : gmap loc T) (o : option loc) (l : list loc) : Prop :=
  match l with
  | [] => o = None
  | p :: l' => o = Some p /\ exists v, h !! p = Some v /\ chain h (next v) l'
  end.

(** The free list is a finite chain without repetition, it is disjoint from the
    objects in use, and both are allocated below [brk]. *)
Record pool_ok live P : Prop := {
  ok_list : exists l, chain (heap P) (free P) l /\ NoDup l /\ (forall p, p ∈ l -> p ∉ live);
  ok_live : forall p, p ∈ live -> is_Some (heap P !! p);
  ok_brk : forall p, is_Some (heap P !! p) -> (p < brk P)%nat
}.

(** ** Lemmas *)

Lemma chain_ext h h' o l :
  (forall p, p ∈ l -> h' !! p = h !! p) -> chain h o l -> chain h' o l.
Proof.
  revert o; induction l as [|p l IH]; intros o Hh; simpl; [done|].
  intros (-> & v & Hv & Hc). split; [done|]. exists v.
  rewrite Hh by set_solver. split; [done|]. apply IH; [|done]. set_solver.
Qed.

Lemma empty_pool_ok : pool_ok ∅ empty_pool.
Proof.
  split; [exists []; split_and!; [done|constructor|set_solver]|set_solver|].
  simpl. intros p [v Hv]. by rewrite lookup_empty in Hv.
Qed.

(** Taking an object: it was not in use, it is cleared, and the objects in use
    are untouched. *)
Lemma get_free_ok live P p P' :
  pool_ok live P -> get_free P = (p, P') ->
  (p ∉ live) /\ pool_ok ({[p]} ∪ live) P' /\ heap P' !! p = Some zero /\
  (forall q, q ∈ live -> heap P' !! q = heap P !! q).
Proof.
  intros [(l & Hc & Hnd & Hdis) Hlive Hbrk] Hg. unfold get_free in Hg.
  destruct (free P) as [p0|] eqn:Hf; injection Hg as <- <-.
  - destruct l as [|p1 l]; simpl in Hc; [done|].
    destruct Hc as ([= ->] & v & Hv & Hc).
    apply NoDup_cons in Hnd as [Hnin Hnd].
    assert (p1 ∉ live) by set_solver. split_and!; [done|split| |]; simpl.
    + exists l. rewrite Hv. simpl. split_and!; [|done|set_solver].
      eapply chain_ext; [|done]. intros q Hq. by rewrite lookup_insert_ne by set_solver.
    + intros q Hq. rewrite lookup_insert. case_decide; set_solver.
    + intros q. rewrite lookup_insert. case_decide; subst; eauto.
    + by rewrite lookup_insert_eq.
    + intros q Hq. by rewrite lookup_insert_ne by set_solver.
  - destruct l as [|? ?]; simpl in Hc; [|by destruct Hc].
    assert (brk P ∉ live) by (intros Hin; specialize (Hbrk _ (Hlive _ Hin)); lia).
    split_and!; [done|split| |]; simpl.
    + exists []. split_and!; [done|constructor|set_solver].
    + intros q Hq. rewrite lookup_insert. case_decide; set_solver.
    + intros q. rewrite lookup_insert. case_decide; [lia|]. intros Hq. specialize (Hbrk _ Hq). lia.
    + by rewrite lookup_insert_eq.
    + intros q Hq. by rewrite lookup_insert_ne by set_solver.
Qed.

(** Freeing an object in use. *)
Lemma put_free_ok live P p :
  pool_ok live P -> p ∈ live ->
  pool_ok (live ∖ {[p]}) (put_free P p) /\
  (forall q, q <> p -> heap (put_free P p) !! q = heap P !! q).
Proof.
  intros [(l & Hc & Hnd & Hdis) Hlive Hbrk] Hp. unfold put_free.
  assert (forall q, q <> p -> alter (set_next (free P)) p (heap P) !! q = heap P !! q) as Hother.
  { intros q Hq. by rewrite lookup_alter_ne by done. }
  destruct (Hlive p Hp) as [v Hv]. split; [split; simpl|done].
  - exists (p :: l). split_and!.
    + split; [done|]. exists (set_next (free P) v). split.
      * by rewrite lookup_alter_eq, Hv.
      * rewrite next_set_next. eapply chain_ext; [|done]. intros q Hq. apply Hother. set_solver.
    + constructor; [set_solver|done].
    + set_solver.
  - intros q Hq. rewrite Hother by set_solver. apply Hlive. set_solver.
  - intros q. rewrite lookup_alter. case_decide; subst; [|by apply Hbrk].
    intros _. apply Hbrk. eauto.
Qed.

(** Writing an object in use. *)
Lemma store_ok live P p v : pool_ok live P -> p ∈ live -> pool_ok live (store P p v).
Proof.
  intros [(l & Hc & Hnd & Hdis) Hlive Hbrk] Hp. unfold store.
  split; simpl.
  - exists l. split_and!; [|done|done]. eapply chain_ext; [|done].
    intros q Hq. rewrite lookup_insert_ne; [done|]. intros ->. by eapply Hdis.
  - intros q Hq. rewrite lookup_insert. case_decide; eauto.
  - intros q. rewrite lookup_insert. case_decide; subst; eauto.
Qed.

Lemma store_store P p a b : store (store P p a) p b = store P p b.
Proof. unfold store. simpl. by rewrite insert_insert_eq. Qed.

(** ** Ownership by goroutines

    Every goroutine [g] of a map holds at most one object of the pool, [own g],
    and [content g v] is what it knows of the object's value.  [held] says that
    the objects held are in use, that no two goroutines hold the same, and that
    they have the values their holders rely on; it is kept by every step a
    goroutine takes. *)
Section held.
Context `{Countable K} {G : Type} (own : G -> option loc) (content : G -> T -> Prop).
Implicit Types (m : gmap K G) (k : K) (g : G) (v : T).

Record held m P : Prop := {
  held_pool : exists live, pool_ok live P ∧
    forall k g q, m !! k = Some g -> own g = Some q -> q ∈ live;
  held_inj : forall k1 k2 g1 g2 q, m !! k1 = Some g1 -> m !! k2 = Some g2 ->
    own g1 = Some q -> own g2 = Some q -> k1 = k2;
  held_value : forall k g q, m !! k = Some g -> own g = Some q ->
    exists v, heap P !! q = Some v ∧ content g v
}.

Lemma held_empty P : pool_ok ∅ P -> held ∅ P.
Proof. split; [exists ∅; split; [done|]|..]; intros *; by rewrite lookup_empty. Qed.

(** A goroutine changes state and keeps or forgets what it held; a new goroutine
    holds nothing. *)
Lemma held_insert m P k g' :
  held m P ->
  (forall q, own g' = Some q -> exists g, m !! k = Some g ∧ own g = Some q ∧
     forall v, content g v -> content g' v) ->
  held (<[k := g']> m) P.
Proof.
  intros [(live & Hok & Hl) Hi Hv] Hg'. split.
  - exists live. split; [done|]. intros k1 g1 q. rewrite lookup_insert.
    case_decide; [|by eauto]. intros [= <-] Hq. destruct (Hg' q Hq) as (g & ? & ? & ?). eauto.
  - intros k1 k2 g1 g2 q. rewrite !lookup_insert.
    intros H1 H2 H3 H4. do 2 case_decide; simplify_eq/=; [done|..|by eauto].
    + destruct (Hg' q) as (g & ? & ? & ?); [congruence|]. eauto.
    + destruct (Hg' q) as (g & ? & ? & ?); [congruence|]. eauto.
  - intros k1 g1 q. rewrite lookup_insert. case_decide; [|by eauto]. intros [= <-] Hq.
    destruct (Hg' q Hq) as (g & Hk & Ho & Hc). destruct (Hv k g q) as (v & ? & ?); eauto.
Qed.

Lemma held_delete m P k : held m P -> held (delete k m) P.
Proof.
  intros [(live & Hok & Hl) Hi Hv]. split.
  - exists live. split; [done|]. intros k1 g1 q [_ ?]%lookup_delete_Some. eauto.
  - intros k1 k2 g1 g2 q [_ ?]%lookup_delete_Some [_ ?]%lookup_delete_Some. eauto.
  - intros k1 g1 q [_ ?]%lookup_delete_Some. eauto.
Qed.

(** [getRequest] and [getResponse]: the object is new to everyone. *)
Lemma held_get m P k g' p P' :
  held m P -> get_free P = (p, P') -> own g' = Some p -> content g' zero ->
  held (<[k := g']> m) P'.
Proof.
  intros [(live & Hok & Hl) Hi Hv] Hg Hg' Hc.
  destruct (get_free_ok _ _ _ _ Hok Hg) as (Hp & Hok' & Hz & Hsame). split.
  - exists ({[p]} ∪ live). split; [done|]. intros k1 g1 q. rewrite lookup_insert.
    case_decide; intros; simplify_eq; set_solver.
  - intros k1 k2 g1 g2 q. rewrite !lookup_insert.
    do 2 case_decide; intros; simplify_eq; try by eauto.
    + exfalso. apply Hp. eauto.
    + exfalso. apply Hp. eauto.
  - intros k1 g1 q. rewrite lookup_insert. case_decide; intros; simplify_eq; [by eauto|].
    rewrite Hsame by eauto. eauto.
Qed.

(** [freeRequest] and [freeResponse] by the holder. *)
Lemma held_put m P k g g' q :
  held m P -> m !! k = Some g -> own g = Some q -> own g' = None ->
  held (<[k := g']> m) (put_free P q).
Proof.
  intros [(live & Hok & Hl) Hi Hv] Hk Hq Hg'.
  destruct (put_free_ok live P q) as [Hok' Hsame]; [done|eauto|].
  assert (forall k1 g1 q1, k1 <> k -> m !! k1 = Some g1 -> own g1 = Some q1 -> q1 <> q) as Hne.
  { intros k1 g1 q1 Hkk Hk1 Hq1 ->. by destruct (Hi k k1 g g1 q). }
  split.
  - exists (live ∖ {[q]}). split; [done|]. intros k1 g1 q1. rewrite lookup_insert.
    case_decide; intros; simplify_eq. apply elem_of_difference. split; [eauto|].
    intros ?%elem_of_singleton. by eapply Hne.
  - intros k1 k2 g1 g2 q1. rewrite !lookup_insert.
    do 2 case_decide; intros; simplify_eq; eauto.
  - intros k1 g1 q1. rewrite lookup_insert. case_decide; intros; simplify_eq.
    rewrite Hsame by (by eapply Hne). eauto.
Qed.

(** A write by the holder, who may then let go of the object. *)
Lemma held_store m P k g g' q v :
  held m P -> m !! k = Some g -> own g = Some q ->
  (forall q', own g' = Some q' -> q' = q ∧ content g' v) ->
  held (<[k := g']> m) (store P q v).
Proof.
  intros [(live & Hok & Hl) Hi Hv] Hk Hq Hg'.
  assert (forall k1 g1 q1, k1 <> k -> m !! k1 = Some g1 -> own g1 = Some q1 -> q1 <> q) as Hne.
  { intros k1 g1 q1 Hkk Hk1 Hq1 ->. by destruct (Hi k k1 g g1 q). }
  split.
  - exists live. split; [apply store_ok; eauto|]. intros k1 g1 q1. rewrite lookup_insert.
    case_decide; intros; simplify_eq; [|by eauto]. destruct (Hg' q1) as [-> _]; eauto.
  - intros k1 k2 g1 g2 q1. rewrite !lookup_insert.
    do 2 case_decide; intros; simplify_eq; try by eauto.
    + destruct (Hg' q1) as [-> _]; [done|]. exfalso. by eapply (Hne k2).
    + destruct (Hg' q1) as [-> _]; [done|]. exfalso. by eapply (Hne k1).
  - intros k1 g1 q1. rewrite lookup_insert. simpl. case_decide; intros; simplify_eq.
    + destruct (Hg' q1) as [-> Hc]; [done|]. exists v. by rewrite lookup_insert_eq.
    + rewrite lookup_insert_ne; [by eauto|]. intros ->. by eapply Hne.
Qed.

(** A goroutine hands what it holds to a new one. *)
Lemma held_transfer m P k k' g g1 g' :
  held m P -> m !! k = Some g -> m !! k' = None -> own g1 = None -> own g' = own g ->
  (forall v, content g v -> content g' v) ->
  held (<[k' := g']> (<[k := g1]> m)) P.
Proof.
  intros [(live & Hok & Hl) Hi Hv] Hk Hk' Hg1 Hg' Hc. split.
  - exists live. split; [done|]. intros k1 g2 q. rewrite !lookup_insert.
    repeat case_decide; intros; simplify_eq; eauto with congruence.
  - intros k1 k2 h1 h2 q. rewrite !lookup_insert.
    repeat case_decide; intros; simplify_eq; try congruence; try by eauto.
    + exfalso. assert (k = k2) by (eapply Hi; eauto; congruence). done.
    + exfalso. assert (k1 = k) by (eapply Hi; eauto; congruence). done.
  - intros k1 g2 q. rewrite !lookup_insert. repeat case_decide; intros; simplify_eq; [|by eauto].
    destruct (Hv k g q) as (v & ? & ?); [done|congruence|]. eauto.
Qed.
End held.

(** ** Histories

    A history of the list under its discipline: an owner frees an object it was
    given and has not freed yet, and writes only objects it owns. *)
Inductive pool_event := EvGet | EvPut (p : loc) | EvStore (p : loc) (v : T).

Definition pool_step (s : gset loc * pool T) (e : pool_event) : option (gset loc * pool T) :=
  let '(live, P) := s in
  match e with
  | EvGet => let '(p, P') := get_free P in Some ({[p]} ∪ live, P')
  | EvPut p => if bool_decide (p ∈ live) then Some (live ∖ {[p]}, put_free P p) else None
  | EvStore p v => if bool_decide (p ∈ live) then Some (live, store P p v) else None
  end.

#[global] Instance pool_lts : LTS (gset loc * pool T) pool_event := pool_step.

Lemma pool_history_ok live P : reachable (∅, empty_pool) (live, P) -> pool_ok live P.
Proof.
  intros Hr. refine (reachable_invariant (fun s => pool_ok s.1 s.2) _ _ _ _ Hr).
  - apply empty_pool_ok.
  - intros [l1 P1] e [l2 P2] Hok Hs. unfold lts_step, pool_lts, pool_step in Hs. simpl in *.
    destruct e; [|case_bool_decide..]; simplify_eq/=.
    + destruct (get_free P1) as [p P1'] eqn:Hg. simplify_eq.
      by eapply get_free_ok in Hg as (_ & ? & _).
    + by apply put_free_ok.
    + by apply store_ok.
Qed.
End pool.

Arguments pool_event T : clear implicits.

(** ** The four functions of server.go *)
Definition getRequest (P : pool RpcRequest) : loc * pool RpcRequest := get_free P.
Definition freeRequest (P : pool RpcRequest) (req : loc) : pool RpcRequest := put_free P req.
Definition getResponse (P : pool RpcResponse) : loc * pool RpcResponse := get_free P.
Definition freeResponse (P : pool RpcResponse) (resp : loc) : pool RpcResponse := put_free P resp.

(** ** Properties *)

(** C22: whatever sequence of [getRequest]s, writes and [freeRequest]s the
    goroutines of a server perform on objects they own, the next [getRequest]
    returns an object that nobody holds, with all fields zero, and leaves every
    object in use as it was; when some object is free, none is allocated. *)
Theorem getRequest_exclusive (live : gset loc) (P : pool RpcRequest) (p : loc) (P' : pool RpcRequest) :
  reachable (E := pool_event RpcRequest) (∅, empty_pool) (live, P) -> getRequest P = (p, P') ->
  (p ∉ live) /\ heap P' !! p = Some RpcRequest0 /\
  (forall q, q ∈ live -> heap P' !! q = heap P !! q) /\
  (free P <> None -> brk P' = brk P).
Proof.
  intros Hok%pool_history_ok Hg.
  destruct (get_free_ok _ _ _ _ Hok Hg) as (? & _ & ? & ?). split_and!; [done..|].
  unfold getRequest, get_free in Hg. by destruct (free P); simplify_eq/=.
Qed.

(** Two requests are taken, the first is freed: the third call gets the first
    object back while the second stays in use. *)
Lemma getRequest_exclusive_witness :
  exists live P p P',
    lts_run (E := pool_event RpcRequest) (∅ : gset loc, empty_pool) [EvGet; EvGet; EvStore 0%nat (mkRequest "A.B" 7 None); EvPut 0%nat]
    = Some (live, P) /\ getRequest P = (p, P') /\ p = 0%nat /\ (p ∉ live) /\
    heap P' !! p = Some RpcRequest0.
Proof.
  eexists _, _, _, _. split; [vm_compute; reflexivity|].
  split; [vm_compute; reflexivity|]. split; [done|].
  edestruct (getRequest_exclusive) as (H1 & H2 & _).
  - eapply (lts_run_reachable _ [EvGet; EvGet; EvStore 0%nat (mkRequest "A.B" 7 None); EvPut 0%nat]).
    vm_compute. reflexivity.
  - vm_compute. reflexivity.
  - split; [exact H1|exact H2].
Defined.
