(* ===== verification/Service.v ===== *)
(** * service.go: the methods of a service

    [registerMethods] walks the method set of the receiver's type and keeps the
    methods that have the shape of an RPC method. *)
From S2P Require Import Prelude GoStd Utils Types.

(** [reflect.Method] with the signature of its function: the types of the
    parameters, the receiver first, and of the results.  [m_Func] identifies the
    function. *)
Record rmethod := mkRMethod {
  m_Name : string;
  m_PkgPath : string;
  m_In : list rtype;
  m_Out : list rtype;
  m_Func : nat
}.

(** [Method] *)
Record Method := mkMethod {
  method : rmethod;
  ArgType : rtype;
  ReplyType : rtype;
  numCalls : Z
}.

(** [Service]; the receiver is known by the type whose method set it has. *)
Record Service := mkService {
  name : string;
  aliasName : string;
  receiverTyp : string;
  methods : gmap string Method
}.

(** [typeOfError]: the predeclared interface type [error]. *)
Definition typeOfError : rtype := LeafType Interface "error" "".

Section register.
Context `{UnicodeTables}.

(** The checks on one exported method, in the order of the code; [inr] is the
    error that the check returns when errors are not skipped. *)
Definition checkMethod (m : rmethod) : Method + error :=
  match m_In m with
  | [_; argType; replyType] =>
      if negb (isExportedOrBuiltinType argType) then inr ErrMethodArgsMustBeExported
      else if bool_decide (rtype_Kind replyType <> Ptr) then inr ErrMethodSecondArgMustBePointer
      else if negb (isExportedOrBuiltinType replyType) then inr ErrMethodArgsMustBeExported
      else
        match m_Out m with
        | [returnType] =>
            if bool_decide (returnType <> typeOfError) then inr ErrMethodReturnValueMustBeAnError
            else inl (mkMethod m argType replyType 0)
        | _ => inr ErrMethodReturnValueMustBeAnError
        end
  | _ => inr ErrMethodMustHaveThreeParameters
  end.

(** The loop of [registerMethods] over the remaining methods of the type. *)
Fixpoint registerMethods_loop (typ : list rmethod) (skipError : bool)
    (ms : gmap string Method) : gmap string Method + error :=
  match typ with
  | [] => inl ms
  | m :: rest =>
      if bool_decide (m_PkgPath m <> "") then registerMethods_loop rest skipError ms
      else
        match checkMethod m with
        | inr err => if skipError then registerMethods_loop rest skipError ms else inr err
        | inl meth => registerMethods_loop rest skipError (<[m_Name m := meth]> ms)
        end
  end.

Definition registerMethods (typ : list rmethod) (skipError : bool) : gmap string Method + error :=
  registerMethods_loop typ skipError ∅.

(** ** Specification

    A suitable method, as the documentation of [RegisterService] lists it. *)
Record suitable (m : rmethod) : Prop := {
  suit_in : exists recv arg reply, m_In m = [recv; arg; reply] /\
            isExportedOrBuiltinType arg = true /\
            (exists n p e, reply = PtrType n p e) /\
            isExportedOrBuiltinType reply = true;
  suit_out : m_Out m = [typeOfError]
}.

(** Why an exported method is refused, and with which error, in the order of the
    checks: each condition comes with those before it met. *)
Inductive method_fault (m : rmethod) : error -> Prop :=
| fault_params :
    length (m_In m) <> 3%nat -> method_fault m ErrMethodMustHaveThreeParameters
| fault_arg recv arg reply :
    m_In m = [recv; arg; reply] -> isExportedOrBuiltinType arg = false ->
    method_fault m ErrMethodArgsMustBeExported
| fault_pointer recv arg reply :
    m_In m = [recv; arg; reply] -> isExportedOrBuiltinType arg = true ->
    (forall n p e, reply <> PtrType n p e) -> method_fault m ErrMethodSecondArgMustBePointer
| fault_reply recv arg n p e :
    m_In m = [recv; arg; PtrType n p e] -> isExportedOrBuiltinType arg = true ->
    isExportedOrBuiltinType (PtrType n p e) = false -> method_fault m ErrMethodArgsMustBeExported
| fault_return recv arg n p e :
    m_In m = [recv; arg; PtrType n p e] -> isExportedOrBuiltinType arg = true ->
    isExportedOrBuiltinType (PtrType n p e) = true -> m_Out m <> [typeOfError] ->
    method_fault m ErrMethodReturnValueMustBeAnError.

(** The first exported method that is refused. *)
Definition first_fault (typ : list rmethod) (e : error) : Prop :=
  exists before m after, typ = before ++ m :: after ∧
    (forall m', m' ∈ before -> m_PkgPath m' = "" -> suitable m') ∧ m_PkgPath m = "" ∧ method_fault m e.

(** ** Lemmas *)

Lemma Kind_Ptr t : rtype_Kind t = Ptr <-> exists n p e, t = PtrType n p e.
Proof. destruct t; simpl; naive_solver. Qed.

Lemma checkMethod_inl m meth :
  checkMethod m = inl meth <->
  suitable m ∧ exists recv arg reply,
    m_In m = [recv; arg; reply] ∧ meth = mkMethod m arg reply 0.
Proof.
  unfold checkMethod. split.
  - intros Hc.
    destruct (m_In m) as [|recv [|arg [|reply [|? ?]]]] eqn:Hin; try done.
    destruct (isExportedOrBuiltinType arg) eqn:Ha; [|done]. simpl in Hc.
    case_bool_decide as Hk; [done|]. destruct (isExportedOrBuiltinType reply) eqn:Hr; [|done].
    destruct (m_Out m) as [|o [|? ?]] eqn:Ho; try done. simpl in Hc.
    case_bool_decide as Hoe; [done|]. simplify_eq.
    apply Kind_Ptr in Hk. split; [split|]; eauto 10.
  - intros [[(r & a & p & Hin & Ha & (n & k & e & ->) & Hp) Ho] (recv & arg & reply & Hin' & ->)].
    rewrite Hin in Hin'. simplify_eq. by rewrite Hin, Ha, Hp, Ho.
Qed.

Lemma checkMethod_inr m err : checkMethod m = inr err -> method_fault m err.
Proof.
  unfold checkMethod. intros Hc.
  destruct (m_In m) as [|recv [|arg [|reply [|? ?]]]] eqn:Hin; simplify_eq; try (constructor; by rewrite Hin).
  destruct (isExportedOrBuiltinType arg) eqn:Ha; simplify_eq/=; [|by eapply fault_arg].
  case_bool_decide as Hk; simplify_eq/=.
  { eapply fault_pointer; [done..|]. intros n p e ->. by apply Hk. }
  apply Kind_Ptr in Hk as (n & p & e & ->).
  destruct (isExportedOrBuiltinType (PtrType n p e)) eqn:Hr; simplify_eq/=; [|by eapply fault_reply].
  assert (err = ErrMethodReturnValueMustBeAnError ∧ m_Out m <> [typeOfError]) as [-> Ho]; [|by eapply fault_return].
  destruct (m_Out m) as [|o [|? ?]]; simplify_eq/=; try done. case_bool_decide; naive_solver.
Qed.

Lemma checkMethod_suitable m : suitable m <-> exists meth, checkMethod m = inl meth.
Proof.
  split.
  - intros Hs. destruct (suit_in _ Hs) as (r & a & p & Hin & _).
    exists (mkMethod m a p 0). apply checkMethod_inl. eauto 10.
  - intros [meth [Hs _]%checkMethod_inl]. done.
Qed.

#[global] Instance suitable_dec m : Decision (suitable m).
Proof.
  destruct (checkMethod m) as [meth|err] eqn:Hc.
  - left. apply checkMethod_suitable. eauto.
  - right. intros [meth Hm]%checkMethod_suitable. congruence.
Defined.

(** The methods that the loop keeps, with their names, and the first error that
    it meets: the reference against which the loop is checked. *)
Definition accepted (typ : list rmethod) : list (string * Method) :=
  omap (fun m => if bool_decide (m_PkgPath m <> "") then None
                 else match checkMethod m with inl meth => Some (m_Name m, meth) | inr _ => None end)
       typ.

Definition first_error (typ : list rmethod) : option error :=
  head (omap (fun m => if bool_decide (m_PkgPath m <> "") then None
                       else match checkMethod m with inl _ => None | inr e => Some e end) typ).

Lemma accepted_names typ : sublist (accepted typ).*1 (m_Name <$> typ).
Proof.
  induction typ as [|m typ IH]; simpl; [constructor|].
  case_bool_decide; [by constructor|]. destruct (checkMethod m); by constructor.
Qed.

Lemma accepted_in typ n meth :
  (n, meth) ∈ accepted typ <->
  exists m, m ∈ typ ∧ m_PkgPath m = "" ∧ m_Name m = n ∧ checkMethod m = inl meth.
Proof.
  unfold accepted. rewrite list_elem_of_omap. split.
  - intros (m & Hm & Hf). case_bool_decide; [done|]. destruct (checkMethod m) eqn:E; naive_solver.
  - intros (m & Hm & Hp & <- & Hc). exists m. split; [done|].
    by rewrite bool_decide_eq_false_2, Hc by auto.
Qed.

Lemma first_error_in typ e :
  first_error typ = Some e ->
  exists m, m ∈ typ ∧ m_PkgPath m = "" ∧ checkMethod m = inr e.
Proof.
  unfold first_error. intros Hh%head_Some_elem_of. apply list_elem_of_omap in Hh as (m & Hm & Hf).
  case_bool_decide; [done|]. destruct (checkMethod m) eqn:E; naive_solver.
Qed.

Lemma first_error_cons m typ :
  first_error (m :: typ) =
  if bool_decide (m_PkgPath m <> "") then first_error typ
  else match checkMethod m with inl _ => first_error typ | inr e => Some e end.
Proof. unfold first_error. simpl. case_bool_decide; [done|]. by destruct (checkMethod m). Qed.

Lemma first_error_fault typ e : first_error typ = Some e -> first_fault typ e.
Proof.
  induction typ as [|m typ IH]; [done|]. rewrite first_error_cons. case_bool_decide as Hp.
  { intros (before & m' & after & -> & Hb & Hm)%IH. exists (m :: before), m', after. split; [done|]. split; [|done].
    intros x [->|Hx]%elem_of_cons Hpx; [done|by apply Hb]. }
  assert (m_PkgPath m = "") as Hp' by (destruct (decide (m_PkgPath m = "")); tauto).
  destruct (checkMethod m) as [meth|err] eqn:Hc.
  - intros (before & m' & after & -> & Hb & Hm)%IH. exists (m :: before), m', after. split; [done|]. split; [|done].
    intros x [->|Hx]%elem_of_cons Hpx; [apply checkMethod_suitable; by exists meth|by apply Hb].
  - intros [= <-]. exists [], m, typ. split; [done|]. split; [by intros x ?%elem_of_nil|]. split; [done|by apply checkMethod_inr].
Qed.

Lemma first_error_None typ m :
  first_error typ = None -> m ∈ typ -> m_PkgPath m = "" -> suitable m.
Proof.
  unfold first_error. intros Hh%head_None Hm Hp. apply checkMethod_suitable.
  destruct (checkMethod m) as [meth|e] eqn:E; [by exists meth|]. exfalso.
  apply (not_elem_of_nil e). rewrite <- Hh. apply list_elem_of_omap. exists m.
  by rewrite bool_decide_eq_false_2, E by auto.
Qed.

(** The loop against the reference. *)
Lemma registerMethods_loop_eq typ skip ms :
  NoDup (m_Name <$> typ) ->
  registerMethods_loop typ skip ms =
  match (if skip then None else first_error typ) with
  | Some e => inr e
  | None => inl (list_to_map (accepted typ) ∪ ms)
  end.
Proof.
  revert ms; induction typ as [|m typ IH]; intros ms Hnd; simpl.
  { destruct skip; simpl; by rewrite (left_id_L ∅ (∪)). }
  apply NoDup_cons in Hnd as [Hnin Hnd]. rewrite first_error_cons.
  case_bool_decide; [by apply IH|].
  destruct (checkMethod m) as [meth|e]; [|by destruct skip; [apply IH|]].
  rewrite IH by done. destruct (if skip then None else first_error typ); [done|].
  assert (list_to_map (M := gmap string Method) (accepted typ) !! m_Name m = None).
  { apply not_elem_of_list_to_map_1. intros Hi. apply Hnin.
    eapply elem_of_submseteq; [exact Hi|]. apply sublist_submseteq, accepted_names. }
  by rewrite <- insert_union_r, insert_union_l by done.
Qed.

Lemma accepted_lookup typ n meth :
  NoDup (m_Name <$> typ) ->
  list_to_map (M := gmap string Method) (accepted typ) !! n = Some meth <->
  exists m, m ∈ typ ∧ m_PkgPath m = "" ∧ m_Name m = n ∧ checkMethod m = inl meth.
Proof.
  intros Hnd. rewrite <- accepted_in. symmetry. apply elem_of_list_to_map.
  eapply sublist_NoDup; [done|apply accepted_names].
Qed.

(** ** Properties *)

(** With errors skipped, [registerMethods] keeps exactly the exported
    suitable methods, each under its name with its argument and reply types and
    a zero call count; with errors returned it does the same when every exported
    method is suitable, and otherwise returns the error of the first check that
    the first unsuitable one fails. *)
Theorem registerMethods_spec typ (Hnd : NoDup (m_Name <$> typ)) :
  (exists ms, registerMethods typ true = inl ms ∧
     forall n meth, ms !! n = Some meth <->
       exists m recv, m ∈ typ ∧ m_PkgPath m = "" ∧ m_Name m = n ∧ suitable m ∧
         m_In m = [recv; ArgType meth; ReplyType meth] ∧
         meth = mkMethod m (ArgType meth) (ReplyType meth) 0) ∧
  match registerMethods typ false with
  | inl ms => registerMethods typ true = inl ms ∧
              forall m, m ∈ typ -> m_PkgPath m = "" -> suitable m
  | inr e => first_fault typ e
  end.
Proof.
  unfold registerMethods. rewrite !registerMethods_loop_eq by done. split.
  - eexists. split; [done|]. intros n meth. rewrite (right_id_L ∅ (∪)), accepted_lookup by done.
    setoid_rewrite checkMethod_inl. split.
    + intros (m & ? & ? & ? & ? & recv & arg & reply & ? & ->). by exists m, recv.
    + intros (m & recv & ? & ? & ? & ? & ? & ->). exists m. eauto 10.
  - destruct (first_error typ) as [e|] eqn:He; [by apply first_error_fault|].
    split; [done|]. intros m. by apply first_error_None.
Qed.
End register.
