(* ===== verification/Plugin.v ===== *)
(** * plugin.go: plugins and the two plugin managers

    A plugin is user code.  A hook receives pointers to the message, so it is a
    function that may change the message and may return an error; which of the
    plugin interfaces a plugin implements is an [option] per interface, and a
    failed type assertion panics.  Go iterates over a map in an unspecified
    order: the order is the parameter [ord], of which only that it lists the
    map is assumed. *)
From S2P Require Import Prelude GoStd Utils Types.

(** [PluginType] is a [uint8]; the named constants start at one. *)
Definition ServerRWPluginType : Z := 1.
Definition ServerConnPluginType : Z := 2.
Definition ServiceRegistrationPluginType : Z := 3.
Definition ClientRWPluginType : Z := 4.
Definition ClientMonitorPluginType : Z := 5.
Definition ServerMonitorPluginType : Z := 6.

(** Connections, by identity. *)
Abbreviation connid := nat.

(** A hook on a message of type [A]. *)
Definition hook (A : Type) : Type := A -> A * option error.

Section plugin.
(** [V]: argument and reply values; [W]: the state outside the program that the
    registration plugins write to. *)
Context {V W : Type}.

Record ServerRWPlugin := {
  srw_PreReadRequest : hook RpcRequest;
  srw_PostReadRequest : hook (RpcRequest * V);
  srw_PreWriteResponse : hook (RpcResponse * V);
  srw_PostWriteResponse : hook (RpcResponse * V)
}.

Record ClientRWPlugin := {
  crw_PreWriteRequest : hook (RpcRequest * V);
  crw_PostWriteRequest : hook (RpcRequest * V);
  crw_PreReadResponse : hook RpcResponse;
  crw_PostReadResponse : hook (RpcResponse * V)
}.

Record ServerConnPlugin := {
  sc_HandleConnAccept : connid -> connid * option error;
  sc_HandleConnClose : connid -> option error
}.

Record ServiceRegistrationPlugin := {
  sr_RegisterService : Endpoint -> hook W;
  sr_DeRegisterService : Endpoint -> hook W
}.

(** [Plugin], with the interfaces it implements beside [Plugin]. *)
Record Plugin := mkPlugin {
  p_Name : string;
  p_Type : Z;
  p_disabled : bool;
  p_serverRW : option ServerRWPlugin;
  p_clientRW : option ClientRWPlugin;
  p_serverConn : option ServerConnPlugin;
  p_registration : option ServiceRegistrationPlugin
}.

Definition SetDisable (p : Plugin) (disable : bool) : Plugin :=
  mkPlugin (p_Name p) (p_Type p) disable (p_serverRW p) (p_clientRW p) (p_serverConn p)
           (p_registration p).

(** [pluginManager]: a map from types to maps from names; both maps may be nil
    (a nil outer map behaves as an empty one here, since it is never assigned). *)
Record pluginManager := mkManager {
  plugins : gmap Z (option (gmap string Plugin))
}.

Definition newServerPluginManager : pluginManager := mkManager ∅.
Definition newClientPluginManager : pluginManager := mkManager ∅.

(** [Add]: when the inner map is nil a new one is made in a local variable and
    is not put back. *)
Definition Add (pm : pluginManager) (p : Plugin) : pluginManager :=
  match plugins pm !! p_Type p with
  | Some (Some typMap) => mkManager (<[p_Type p := Some (<[p_Name p := p]> typMap)]> (plugins pm))
  | Some None => pm
  | None => pm
  end.

Definition lookup_plugin (typMap : option (gmap string Plugin)) (n : string) : option Plugin :=
  typMap ≫= fun m => m !! n.

Definition Remove (pm : pluginManager) (pl : Plugin) : pluginManager :=
  match plugins pm !! p_Type pl with
  | Some typMap =>
      match lookup_plugin typMap (p_Name pl) with
      | Some p => mkManager (<[p_Type pl := delete (p_Name p) <$> typMap]> (plugins pm))
      | None => pm
      end
  | None => pm
  end.

(** [Disable] and [Enable] differ in the flag they set. *)
Definition set_disabled (d : bool) (pm : pluginManager) (pl : Plugin) : pluginManager * option error :=
  match plugins pm !! p_Type pl with
  | Some typMap =>
      match lookup_plugin typMap (p_Name pl) with
      | Some p =>
          (mkManager (<[p_Type pl := insert (p_Name pl) (SetDisable p d) <$> typMap]> (plugins pm)), None)
      | None => (pm, Some (ErrNew "not found plugin, please add it first"))
      end
  | None => (pm, None)
  end.

Definition Disable := set_disabled true.
Definition Enable := set_disabled false.

(** ** Running hooks *)
Section hooks.
Context (ord : gmap string Plugin -> list (string * Plugin)).

(** The loops of the managers: every plugin is asked for the hook (the type
    assertion), runs on the message, and errors are collected. *)
Fixpoint run_hooks {A} (h : Plugin -> option (hook A)) (ps : list (string * Plugin)) (a : A)
    (errs : list error) : outcome (A * list error) :=
  match ps with
  | [] => Return (a, errs)
  | (_, p) :: ps' =>
      match h p with
      | None => Panic "interface conversion"
      | Some f =>
          let '(a', err) := f a in
          run_hooks h ps' a' (match err with Some e => errs ++ [e] | None => errs end)
      end
  end.

(** The plugins of one type in iteration order; a nil inner map has none. *)
Definition range_plugins (typMap : option (gmap string Plugin)) : list (string * Plugin) :=
  match typMap with Some m => ord m | None => [] end.

(** [errors.New(prefix + WrapArrayErrs(errs).Error())] when there are errors. *)
Definition wrap_errors (prefix : string) (errs : list error) : outcome (option error) :=
  match errs with
  | [] => Return None
  | _ => match WrapArrayErrs errs with
         | Some e => Return (Some (ErrNew (prefix +:+ Error e)))
         | None => Panic "nil pointer dereference"
         end
  end.

(** The common body of the manager methods. *)
Definition dispatch {A} (pm : pluginManager) (typ : Z) (h : Plugin -> option (hook A))
    (prefix : string) (a : A) : outcome (A * option error) :=
  match plugins pm !! typ with
  | None => Return (a, None)
  | Some typMap =>
      match run_hooks h (range_plugins typMap) a [] with
      | Panic w => Panic w
      | Return (a', errs) =>
          match wrap_errors prefix errs with
          | Return err => Return (a', err)
          | Panic w => Panic w
          end
      end
  end.

(** *** [serverPluginManager] *)
Definition spm_PreWriteRequest (spm : pluginManager) (req : RpcRequest * V) : option error :=
  Some UnsupportedOperationError.
Definition spm_PostWriteRequest (spm : pluginManager) (req : RpcRequest * V) : option error :=
  Some UnsupportedOperationError.
Definition spm_PreReadResponse (spm : pluginManager) (resp : RpcResponse) : option error :=
  Some UnsupportedOperationError.
Definition spm_PostReadResponse (spm : pluginManager) (resp : RpcResponse * V) : option error :=
  Some UnsupportedOperationError.

Definition spm_PreReadRequest (spm : pluginManager) (req : RpcRequest) :=
  dispatch spm ServerRWPluginType (fun p => srw_PreReadRequest <$> p_serverRW p)
    "pre-read-request error happened: " req.

Definition spm_PostReadRequest (spm : pluginManager) (req : RpcRequest * V) :=
  dispatch spm ServerRWPluginType (fun p => srw_PostReadRequest <$> p_serverRW p)
    "post-read-request error happened: " req.

Definition spm_PreWriteResponse (spm : pluginManager) (resp : RpcResponse * V) :=
  dispatch spm ServerRWPluginType (fun p => srw_PreWriteResponse <$> p_serverRW p)
    "pre-write-response error happened: " resp.

Definition spm_PostWriteResponse (spm : pluginManager) (resp : RpcResponse * V) :=
  dispatch spm ServerRWPluginType (fun p => srw_PostWriteResponse <$> p_serverRW p)
    "post-write-response error happened: " resp.

(** The connection is replaced by the plugin's answer unless it failed. *)
Definition accept_hook (sc : ServerConnPlugin) : hook connid := fun conn =>
  let '(cnn, err) := sc_HandleConnAccept sc conn in
  match err with Some e => (conn, Some e) | None => (cnn, None) end.

Definition spm_HandleConnAccept (spm : pluginManager) (conn : connid) :=
  dispatch spm ServerConnPluginType (fun p => accept_hook <$> p_serverConn p)
    "handle-conn-accept error happened: " conn.

Definition close_hook (sc : ServerConnPlugin) : hook connid := fun conn =>
  (conn, sc_HandleConnClose sc conn).

Definition spm_HandleConnClose (spm : pluginManager) (conn : connid) :=
  dispatch spm ServerConnPluginType (fun p => close_hook <$> p_serverConn p)
    "handle-conn-close error happened: " conn.

(** [RegisterService] stops at the first error. *)
Fixpoint register_loop (ps : list (string * Plugin)) (s : Endpoint) (w : W) : outcome (W * option error) :=
  match ps with
  | [] => Return (w, None)
  | (_, p) :: ps' =>
      match p_registration p with
      | None => Panic "interface conversion"
      | Some sr =>
          let '(w', err) := sr_RegisterService sr s w in
          match err with
          | Some e => Return (w', Some e)
          | None => register_loop ps' s w'
          end
      end
  end.

Definition spm_RegisterService (spm : pluginManager) (s : Endpoint) (w : W) : outcome (W * option error) :=
  match plugins spm !! ServiceRegistrationPluginType with
  | Some v => register_loop (range_plugins v) s w
  | None => Return (w, None)
  end.

(** *** [clientPluginManager] *)
Definition cpm_PreWriteRequest (cpm : pluginManager) (req : RpcRequest * V) :=
  dispatch cpm ClientRWPluginType (fun p => crw_PreWriteRequest <$> p_clientRW p)
    "pre-write-request error happened: " req.

Definition cpm_PostWriteRequest (cpm : pluginManager) (req : RpcRequest * V) :=
  dispatch cpm ClientRWPluginType (fun p => crw_PostWriteRequest <$> p_clientRW p)
    "post-write-request error happened: " req.

Definition cpm_PreReadResponse (cpm : pluginManager) (resp : RpcResponse) :=
  dispatch cpm ClientRWPluginType (fun p => crw_PreReadResponse <$> p_clientRW p)
    "pre-read-response error happened: " resp.

Definition cpm_PostReadResponse (cpm : pluginManager) (resp : RpcResponse * V) :=
  dispatch cpm ClientRWPluginType (fun p => crw_PostReadResponse <$> p_clientRW p)
    "post-read-response error happened: " resp.

Definition cpm_PreReadRequest (cpm : pluginManager) (req : RpcRequest) : option error :=
  Some UnsupportedOperationError.
Definition cpm_PostReadRequest (cpm : pluginManager) (req : RpcRequest * V) : option error :=
  Some UnsupportedOperationError.
Definition cpm_PreWriteResponse (cpm : pluginManager) (resp : RpcResponse * V) : option error :=
  Some UnsupportedOperationError.
Definition cpm_PostWriteResponse (cpm : pluginManager) (resp : RpcResponse * V) : option error :=
  Some UnsupportedOperationError.
Definition cpm_HandleConnAccept (cpm : pluginManager) (conn : connid) : connid * option error :=
  (conn, Some UnsupportedOperationError).
Definition cpm_HandleConnClose (cpm : pluginManager) (conn : connid) : option error :=
  Some UnsupportedOperationError.
Definition cpm_PreRegister (cpm : pluginManager) (service : Endpoint) : Endpoint * option error :=
  (service, Some UnsupportedOperationError).
Definition cpm_RegisterService (cpm : pluginManager) (s : Endpoint) : option error :=
  Some UnsupportedOperationError.

(** *** The interface of both

    [PluginManager] has the hooks of both sides; each manager refuses those of the
    other side.  [Add], [Remove], [Disable] and [Enable] are those of
    [pluginManager], which both embed.  A hook gives back what it leaves of its
    message; [RegisterService] changes the state outside of the program. *)
Record PluginManager := mkPluginManager {
  pm_PreWriteRequest : pluginManager -> RpcRequest * V -> outcome (RpcRequest * V * option error);
  pm_PostWriteRequest : pluginManager -> RpcRequest * V -> outcome (RpcRequest * V * option error);
  pm_PreReadResponse : pluginManager -> RpcResponse -> outcome (RpcResponse * option error);
  pm_PostReadResponse : pluginManager -> RpcResponse * V -> outcome (RpcResponse * V * option error);
  pm_PreReadRequest : pluginManager -> RpcRequest -> outcome (RpcRequest * option error);
  pm_PostReadRequest : pluginManager -> RpcRequest * V -> outcome (RpcRequest * V * option error);
  pm_PreWriteResponse : pluginManager -> RpcResponse * V -> outcome (RpcResponse * V * option error);
  pm_PostWriteResponse : pluginManager -> RpcResponse * V -> outcome (RpcResponse * V * option error);
  pm_HandleConnAccept : pluginManager -> connid -> outcome (connid * option error);
  pm_HandleConnClose : pluginManager -> connid -> outcome (connid * option error);
  pm_RegisterService : pluginManager -> Endpoint -> W -> outcome (W * option error)
}.

(** An operation that is not there returns an error and does nothing. *)
Definition refuses {A} (f : pluginManager -> A -> option error) (pm : pluginManager) (a : A) : outcome (A * option error) :=
  Return (a, f pm a).

Definition serverPluginManager : PluginManager :=
  mkPluginManager (refuses spm_PreWriteRequest) (refuses spm_PostWriteRequest) (refuses spm_PreReadResponse)
    (refuses spm_PostReadResponse) spm_PreReadRequest spm_PostReadRequest spm_PreWriteResponse spm_PostWriteResponse
    spm_HandleConnAccept spm_HandleConnClose spm_RegisterService.

Definition clientPluginManager : PluginManager :=
  mkPluginManager cpm_PreWriteRequest cpm_PostWriteRequest cpm_PreReadResponse cpm_PostReadResponse
    (refuses cpm_PreReadRequest) (refuses cpm_PostReadRequest) (refuses cpm_PreWriteResponse) (refuses cpm_PostWriteResponse)
    (fun cpm conn => Return (cpm_HandleConnAccept cpm conn)) (refuses cpm_HandleConnClose)
    (fun cpm s w => Return (w, cpm_RegisterService cpm s)).
End hooks.

(** ** Histories of a manager *)
Inductive pm_event := EvAdd (p : Plugin) | EvRemove (p : Plugin) | EvDisable (p : Plugin) | EvEnable (p : Plugin).

Definition pm_step (pm : pluginManager) (e : pm_event) : option pluginManager :=
  Some match e with
  | EvAdd p => Add pm p
  | EvRemove p => Remove pm p
  | EvDisable p => (Disable pm p).1
  | EvEnable p => (Enable pm p).1
  end.

#[global] Instance pm_lts : LTS pluginManager pm_event := pm_step.

(** ** Lemmas *)

Lemma wrap_errors_total prefix errs :
  exists err, wrap_errors prefix errs = Return err /\ (err = None <-> errs = []).
Proof.
  destruct errs as [|e errs]; [by exists None|]. unfold wrap_errors.
  rewrite WrapArrayErrs_cons. eexists; split; [done|]. done.
Qed.

(** No operation adds a type to the outer map, so a manager that starts without
    types stays without plugins. *)
Lemma manager_stays_empty pm : reachable newServerPluginManager pm -> pm = newServerPluginManager.
Proof.
  induction 1 as [|pm e pm' _ -> Hs]; [done|].
  unfold lts_step, pm_lts, pm_step in Hs. by destruct e; simplify_eq/=.
Qed.

Lemma dispatch_empty {A} ord typ (h : Plugin -> option (hook A)) prefix a :
  dispatch ord newServerPluginManager typ h prefix a = Return (a, None).
Proof. done. Qed.

(** The result of a sequence of hooks on a message: the last message and the
    errors in order, each hook seeing what the ones before it left. *)
Fixpoint hooks_result {A} (fs : list (hook A)) (a : A) : A * list error :=
  match fs with
  | [] => (a, [])
  | f :: fs' =>
      let '(a1, err) := f a in
      let '(a2, errs) := hooks_result fs' a1 in
      (a2, match err with Some e => e :: errs | None => errs end)
  end.

Lemma run_hooks_result {A} (h : Plugin -> option (hook A)) ps fs a errs :
  mapM (fun np => h np.2) ps = Some fs ->
  run_hooks h ps a errs = Return ((hooks_result fs a).1, errs ++ (hooks_result fs a).2).
Proof.
  revert fs a errs; induction ps as [|[n p] ps IH]; intros fs a errs Hm; simpl in Hm.
  - injection Hm as <-. simpl. by rewrite app_nil_r.
  - destruct (h p) as [f|] eqn:Hp; simpl in Hm; [|done].
    destruct (mapM _ ps) as [fs'|] eqn:Hm'; simpl in Hm; [|done]. injection Hm as <-.
    simpl. rewrite Hp. destruct (f a) as [a1 err]. erewrite IH by done.
    destruct (hooks_result fs' a1) as [a2 errs2]. simpl.
    destruct err; simpl; [|done]. by rewrite <- app_assoc.
Qed.

(** Every method that dispatches to plugins of one type, in one lemma. *)
Lemma dispatch_result {A} ord pm typ typMap (h : Plugin -> option (hook A)) prefix a fs :
  plugins pm !! typ = Some typMap ->
  mapM (fun np => h np.2) (range_plugins ord typMap) = Some fs ->
  exists err, dispatch ord pm typ h prefix a = Return ((hooks_result fs a).1, err) ∧
              (err = None <-> (hooks_result fs a).2 = []).
Proof.
  intros Ht Hm. unfold dispatch. rewrite Ht. erewrite run_hooks_result by done. simpl.
  destruct (wrap_errors_total prefix (hooks_result fs a).2) as (err & -> & Herr). by exists err.
Qed.

(** ** Properties *)

(** What the hooks of one side and of the other answer. *)
Definition hooks_answer (m : PluginManager) (pm : pluginManager) (client_hooks server_hooks : option error) : Prop :=
  (forall req, pm_PreWriteRequest m pm req = Return (req, client_hooks)) ∧
  (forall req, pm_PostWriteRequest m pm req = Return (req, client_hooks)) ∧
  (forall resp, pm_PreReadResponse m pm resp = Return (resp, client_hooks)) ∧
  (forall resp, pm_PostReadResponse m pm resp = Return (resp, client_hooks)) ∧
  (forall req, pm_PreReadRequest m pm req = Return (req, server_hooks)) ∧
  (forall req, pm_PostReadRequest m pm req = Return (req, server_hooks)) ∧
  (forall resp, pm_PreWriteResponse m pm resp = Return (resp, server_hooks)) ∧
  (forall resp, pm_PostWriteResponse m pm resp = Return (resp, server_hooks)) ∧
  (forall conn, pm_HandleConnAccept m pm conn = Return (conn, server_hooks)) ∧
  (forall conn, pm_HandleConnClose m pm conn = Return (conn, server_hooks)) ∧
  (forall s w, pm_RegisterService m pm s w = Return (w, server_hooks)).

(** C28: a manager made by [newServerPluginManager] or [newClientPluginManager]
    never holds a plugin: [Add] only writes into a type's map that exists
    already, and none ever does.  So after any sequence of [Add], [Remove],
    [Disable] and [Enable] every hook of the manager's own side succeeds and leaves
    its message alone, no registration plugin runs, and every hook of the other
    side is refused with [UnsupportedOperationError]. *)
Theorem no_plugin_is_ever_added ord (pm : pluginManager) :
  reachable newServerPluginManager pm ->
  (forall p, Add pm p = pm) ∧
  hooks_answer (serverPluginManager ord) pm (Some UnsupportedOperationError) None ∧
  hooks_answer (clientPluginManager ord) pm None (Some UnsupportedOperationError).
Proof. intros ->%manager_stays_empty. split; [done|]. split; repeat split. Qed.

(** With plugins in the manager's map, [PreReadRequest] runs the hook of
    every plugin of the type, also of a disabled one, each on what the previous
    one left of the request; it fails exactly when one of them failed. *)
Theorem PreReadRequest_runs_all ord (pm : pluginManager) (typMap : gmap string Plugin)
    (req : RpcRequest) (rws : list ServerRWPlugin) :
  (forall m, ord m ≡ₚ map_to_list m) ->
  plugins pm !! ServerRWPluginType = Some (Some typMap) ->
  mapM (fun np => p_serverRW np.2) (ord typMap) = Some rws ->
  length rws = size typMap ∧
  exists err,
    spm_PreReadRequest ord pm req
    = Return ((hooks_result (srw_PreReadRequest <$> rws) req).1, err) ∧
    (err = None <-> (hooks_result (srw_PreReadRequest <$> rws) req).2 = []).
Proof.
  intros Hord Ht Hm. split.
  - apply length_mapM in Hm. by rewrite <- Hm, (Permutation_length (Hord typMap)), length_map_to_list.
  - eapply dispatch_result; [done|]. by apply mapM_fmap_option.
Qed.
End plugin.

Arguments Plugin V W : clear implicits.
Arguments pluginManager V W : clear implicits.
Arguments pm_event V W : clear implicits.
