(* ===== verification/Server.v ===== *)
(** * server.go: the server's state and its sequential operations

    Registration of services, endpoints, the singleton, and the reading of one
    request.  The goroutines of the connections are in [ServerConn]. *)
From S2P Require Import Prelude GoStd Utils Types FreeList Service Plugin.

(** The value given to [RegisterService].  [rcv_Indirect] is what
    [reflect.Indirect] of it is: a value, known by the name of its type, or the
    zero [Value], which has none, when the receiver is nil or a nil pointer.
    Then the method set of the receiver's type, in which every name occurs
    once. *)
Record Receiver := mkReceiver {
  rcv_Indirect : option string;
  rcv_typ : list rmethod;
  rcv_names : NoDup (m_Name <$> rcv_typ)
}.

(** An argument as it is passed to a method: the decoded value, the type that it
    was allocated with, and whether it is passed by value (indirected) or by the
    pointer of [reflect.New]. *)
Record argval (V : Type) := mkArg { arg_value : V; arg_elem : rtype; arg_indirect : bool }.
Arguments mkArg {V} _ _ _.
Arguments arg_value {V} _.
Arguments arg_elem {V} _.
Arguments arg_indirect {V} _.

(** The reply a method starts from: a new zero value of the element type, or an
    empty map or slice. *)
Inductive replyval := ReplyZero (t : rtype) | ReplyMap (t : rtype) | ReplySlice (t : rtype).

Section server.
Context {V W : Type} `{UnicodeTables}.
Context (ord : gmap string (Plugin V W) -> list (string * Plugin V W)).

(** [Server], with the state [world] of the registries behind its plugins.  The
    listener is known by its address; [activeConn] is nil before [Start].  The
    stop and error channels are never sent to, and stop listeners are never
    added, so they carry no state. *)
Record Server := mkServer {
  serverConfig : ServerConfig;
  ln : option string;
  spm : pluginManager V W;
  activeConn : option (gset connid);
  serviceMap : gmap string Service;
  reqs : pool RpcRequest;
  resps : pool RpcResponse;
  serveWG : Z;
  world : W
}.

Definition set_active (s : Server) (a : option (gset connid)) : Server :=
  mkServer (serverConfig s) (ln s) (spm s) a (serviceMap s) (reqs s) (resps s) (serveWG s) (world s).
Definition set_services (s : Server) (m : gmap string Service) : Server :=
  mkServer (serverConfig s) (ln s) (spm s) (activeConn s) m (reqs s) (resps s) (serveWG s) (world s).
Definition set_reqs (s : Server) (P : pool RpcRequest) : Server :=
  mkServer (serverConfig s) (ln s) (spm s) (activeConn s) (serviceMap s) P (resps s) (serveWG s) (world s).
Definition set_resps (s : Server) (P : pool RpcResponse) : Server :=
  mkServer (serverConfig s) (ln s) (spm s) (activeConn s) (serviceMap s) (reqs s) P (serveWG s) (world s).
Definition set_serveWG (s : Server) (n : Z) : Server :=
  mkServer (serverConfig s) (ln s) (spm s) (activeConn s) (serviceMap s) (reqs s) (resps s) n (world s).
Definition set_world (s : Server) (w : W) : Server :=
  mkServer (serverConfig s) (ln s) (spm s) (activeConn s) (serviceMap s) (reqs s) (resps s) (serveWG s) w.

(** ** Construction *)

Definition MainPort (conf : ServerConfig) : string := Itoa (cfg_Port conf).
Definition PSM (s : Server) : string := cfg_PSM (serverConfig s).

(** [newRpcServerWithOptions] with [init]: [check], then [initListener], which
    asks [net.Listen] for the listener. *)
Definition newRpcServerWithOptions (Listen : string -> string + error) (w : W) (conf : ServerConfig)
    : outcome Server :=
  match config_check conf with
  | Some err => Panic ("server config error:" +:+ Error err)
  | None =>
      match Listen (":" +:+ MainPort conf) with
      | inr err => Panic ("server: listening tcp port " +:+ MainPort conf +:+ " with error:" +:+ Error err)
      | inl addr =>
          Return (mkServer conf (Some addr) newServerPluginManager None ∅ empty_pool empty_pool 0 w)
      end
  end.

(** The package variables [serverOnce] and [serverInstance]. *)
Record globals := mkGlobals { serverOnce : bool; serverInstance : option Server }.

(** [NewServer]: [Once.Do] marks itself done also when the function panics. *)
Definition NewServer (Listen : string -> string + error) (w : W) (g : globals) (conf : ServerConfig)
    : globals * outcome (option Server) :=
  if serverOnce g then (g, Return (serverInstance g))
  else
    match newRpcServerWithOptions Listen w conf with
    | Return s => (mkGlobals true (Some s), Return (Some s))
    | Panic why => (mkGlobals true (serverInstance g), Panic why)
    end.

Definition GetServer (g : globals) : option Server := serverInstance g.

(** [Start] up to the accept loop. *)
Definition Start (s : Server) : outcome Server :=
  match ln s with
  | None => Panic "server's net listener can't be nil"
  | Some _ => Return (match activeConn s with None => set_active s (Some ∅) | Some _ => s end)
  end.

(** ** Registration *)

(** [endpointOf]; the address is read from the listener. *)
Definition endpointOf (s : Server) (svc : Service) : outcome Endpoint :=
  match ln s with
  | None => Panic "nil pointer dereference"
  | Some addr =>
      let psm := cfg_PSM (serverConfig s) in
      Return (mkEndpoint psm addr (name svc)
                ("/" +:+ psm +:+ "/" +:+ name svc +:+ "/" +:+ addr) None)
  end.

(** [register]: [Type] of the zero [Value] panics; the map's key is the name as
    given, the service's own name is trimmed. *)
Definition register (s : Server) (receiver : Receiver) (alias : string) (useAlias : bool)
    : outcome (Server * option error) :=
  match rcv_Indirect receiver with
  | None => Panic "reflect: call of reflect.Value.Type on zero Value"
  | Some typeName =>
  let sName := if useAlias then alias else typeName in
  if bool_decide (sName = "") then Return (s, Some ErrInvalidServiceName)
  else if negb (isExported sName) && negb useAlias then Return (s, Some ErrMethodMustBeExported)
  else
    match registerMethods (rcv_typ receiver) false with
    | inr err => Return (s, Some err)
    | inl ms =>
        let svc := mkService (Str.Trim sName) "" typeName ms in
        match serviceMap s !! sName with
        | Some _ => Return (s, Some ErrServiceAlreadyDefinedInServer)
        | None =>
            let s1 := set_services s (<[sName := svc]> (serviceMap s)) in
            match endpointOf s1 svc with
            | Panic w => Panic w
            | Return rs =>
                match spm_RegisterService ord (spm s1) rs (world s1) with
                | Panic w => Panic w
                | Return (w', _) => Return (set_world s1 w', None)
                end
            end
        end
    end
  end.

Definition RegisterService (s : Server) (receiver : Receiver) := register s receiver "" false.

Definition RegisterServiceWithName (s : Server) (receiver : Receiver) (nm : string)
    : outcome (Server * option error) :=
  if bool_decide (String.length nm = 0%nat) then Return (s, Some ErrInvalidServiceName)
  else register s receiver nm true.

(** ** Reading a request *)
Section read.
Context {C : Type} `{ServerCodec V C}.

(** The results of [readRequestHeader].  A service and a method are known by
    their keys: an entry of [serviceMap] is never replaced. *)
Record headerResult := mkHeader {
  hr_svc : option string;
  hr_method : option (string * Method);
  hr_req : option loc;
  hr_keepReading : bool;
  hr_err : option error
}.

Definition is_eof (e : error) : bool := bool_decide (e = EOF ∨ e = ErrUnexpectedEOF).

(** The split of [ServiceMethod] at its last dot. *)
Definition splitServiceMethod (sm : string) : option (string * string) :=
  let dot := Str.LastIndex sm "."%char in
  if bool_decide (dot < 0) then None
  else Some (Str.take (Z.to_nat dot) sm, Str.drop (Z.to_nat (dot + 1)) sm).

(** [readRequestHeader], from the point where [getRequest] has returned the
    object [req]. *)
Definition readRequestHeader (s : Server) (codec : C) (req : loc)
    : outcome (Server * C * headerResult) :=
  let '(codec1, r1, err) := ReadRequestHeader codec (default RpcRequest0 (heap (reqs s) !! req)) in
  let s1 := set_reqs s (store (reqs s) req r1) in
  match err with
  | Some e =>
      let err' := if is_eof e then e else ErrServerCanNotDecodeRequest in
      Return (s1, codec1, mkHeader None None None false (Some err'))
  | None =>
      match splitServiceMethod (req_ServiceMethod r1) with
      | None =>
          Return (s1, codec1, mkHeader None None (Some req) true
            (Some (ErrNew ("service/method request invalid: " +:+ req_ServiceMethod r1))))
      | Some (serviceName, methodName) =>
          match serviceMap s1 !! serviceName with
          | None =>
              Return (s1, codec1, mkHeader None None (Some req) true
                (Some (ErrNew ("can't find service " +:+ req_ServiceMethod r1))))
          | Some svc =>
              match methods svc !! methodName with
              | None =>
                  Return (s1, codec1, mkHeader (Some serviceName) None (Some req) true
                    (Some (ErrNew ("can't find method " +:+ req_ServiceMethod r1))))
              | Some m =>
                  match spm_PreReadRequest ord (spm s1) r1 with
                  | Panic w => Panic w
                  | Return (r2, herr) =>
                      Return (set_reqs s1 (store (reqs s1) req r2), codec1,
                        mkHeader (Some serviceName) (Some (methodName, m)) (Some req) true herr)
                  end
              end
          end
      end
  end.

(** The results of [readRequest]. *)
Record requestResult := mkResult {
  rr_header : headerResult;
  rr_argv : option (argval V);
  rr_reply : option replyval
}.

(** The type that the argument is decoded into, and whether it is indirected. *)
Definition argTarget (t : rtype) : rtype * bool :=
  match t with
  | PtrType _ _ e => (e, false)
  | _ => (t, true)
  end.

Definition newReply (replyElem : rtype) : replyval :=
  match rtype_Kind replyElem with
  | Map => ReplyMap replyElem
  | Slice => ReplySlice replyElem
  | _ => ReplyZero replyElem
  end.

Definition with_err (h : headerResult) (err : option error) : headerResult :=
  mkHeader (hr_svc h) (hr_method h) (hr_req h) (hr_keepReading h) err.

Definition readRequest (s : Server) (codec : C) (req : loc)
    : outcome (Server * C * requestResult) :=
  match readRequestHeader s codec req with
  | Panic w => Panic w
  | Return (s1, codec1, h) =>
      match hr_err h with
      | Some _ =>
          if negb (hr_keepReading h) then Return (s1, codec1, mkResult h None None)
          else
            let '(codec2, _) := DiscardRequestBody codec1 in
            Return (s1, codec2, mkResult h None None)
      | None =>
          match hr_method h with
          | None => Panic "nil pointer dereference"
          | Some (_, m) =>
              let '(t, indirect) := argTarget (ArgType m) in
              let '(codec2, body) := ReadRequestBody codec1 t in
              match body with
              | inr err => Return (s1, codec2, mkResult (with_err h (Some err)) None None)
              | inl v =>
                  match rtype_Elem (ReplyType m) with
                  | Panic w => Panic w
                  | Return elem =>
                      match spm_PostReadRequest ord (spm s1)
                              (default RpcRequest0 (heap (reqs s1) !! req), v) with
                      | Panic w => Panic w
                      | Return (r3, v', perr) =>
                          Return (set_reqs s1 (store (reqs s1) req r3), codec2,
                            mkResult (with_err h perr) (Some (mkArg v' t indirect)) (Some (newReply elem)))
                      end
                  end
              end
          end
      end
  end.

(** ** Lemmas about reading *)

(** No plugin can be in the server's manager, and every method of a registered
    service has a pointer for its reply: the facts that keep reading from
    panicking. *)
Record server_ok (s : Server) : Prop := {
  ok_spm : spm s = newServerPluginManager;
  ok_ln : is_Some (ln s);
  ok_methods : forall sn svc mn m, serviceMap s !! sn = Some svc -> methods svc !! mn = Some m ->
    rtype_Kind (ReplyType m) = Ptr
}.

(** What a header tells: a failed header gives up the connection; otherwise the
    request object is kept and names a method, or an error. *)
Definition header_ok (s : Server) (q : loc) (h : headerResult) : Prop :=
  (hr_keepReading h = false ∧ hr_req h = None ∧ is_Some (hr_err h)) ∨
  (hr_keepReading h = true ∧ hr_req h = Some q ∧
   (hr_err h = None -> exists sn svc mn m,
      hr_svc h = Some sn ∧ hr_method h = Some (mn, m) ∧
      serviceMap s !! sn = Some svc ∧ methods svc !! mn = Some m)).

Lemma readRequestHeader_effect s cd q :
  server_ok s ->
  exists r1 h, readRequestHeader s cd q
    = Return (set_reqs s (store (reqs s) q r1), (ReadRequestHeader cd (default RpcRequest0 (heap (reqs s) !! q))).1.1, h)
    ∧ header_ok s q h
    ∧ r1 = (ReadRequestHeader cd (default RpcRequest0 (heap (reqs s) !! q))).1.2.
Proof.
  intros Hok. unfold readRequestHeader, header_ok.
  destruct (ReadRequestHeader _ _) as [[cd1 r1] [e|]]; simpl.
  { exists r1. eexists. split_and!; [done|left; simpl|done]. eauto. }
  destruct (splitServiceMethod _) as [[sn mn]|]; [|exists r1; eexists; split_and!; [done|by right|done]].
  destruct (serviceMap s !! sn) as [svc|] eqn:Hs;
    [|exists r1; eexists; split_and!; [done|by right|done]].
  destruct (methods svc !! mn) as [m|] eqn:Hm;
    [|exists r1; eexists; split_and!; [done|by right|done]].
  rewrite (ok_spm _ Hok). unfold spm_PreReadRequest. rewrite dispatch_empty.
  exists r1. eexists. rewrite store_store. split_and!; [done| |done].
  right. simpl. split_and!; [done..|]. intros _. by exists sn, svc, mn, m.
Qed.

(** The results of [readRequest] on such a server: it returns, and changes
    nothing of the server but the request object it was given. *)
Lemma readRequest_effect s cd q :
  server_ok s ->
  exists cd1 rr, readRequest s cd q
    = Return (set_reqs s (store (reqs s) q
        (ReadRequestHeader cd (default RpcRequest0 (heap (reqs s) !! q))).1.2), cd1, rr)
    ∧ header_ok s q (rr_header rr)
    ∧ (hr_err (rr_header rr) = None -> is_Some (rr_argv rr) ∧ is_Some (rr_reply rr)).
Proof.
  intros Hok. unfold readRequest.
  destruct (readRequestHeader_effect s cd q Hok) as (r1 & h & -> & Hh & ->).
  destruct (hr_err h) as [e|] eqn:He.
  { destruct (hr_keepReading h) eqn:Hk; simpl; [destruct (DiscardRequestBody _)|];
      eexists _, _; (split_and!; [done|done|]); simpl; by rewrite He. }
  destruct Hh as [(_ & _ & Hs)|(Hk & Hq & Hm)]; [by destruct Hs; congruence|].
  destruct (Hm He) as (sn & svc & mn & m & Hsn & Hmn & Hsvc & Hme). rewrite Hmn.
  destruct (argTarget (ArgType m)) as [t ind]. destruct (ReadRequestBody _ t) as [cd2 [v|err]].
  - destruct (proj1 (Kind_Ptr (ReplyType m))) as (n & p & e & ->); [by eapply ok_methods|].
    unfold spm_PostReadRequest. simpl. rewrite (ok_spm _ Hok), dispatch_empty, lookup_insert_eq.
    simpl. eexists _, _. rewrite store_store. split_and!; [done| |by eauto].
    right. simpl. split_and!; [done..|]. by exists sn, svc, mn, m.
  - eexists _, _. split_and!; [done| |done]. right. simpl. by split_and!.
Qed.

(** The argument and the reply of a request that was read without an error are
    made for the method's parameters. *)
Lemma readRequest_values s cd q s1 cd1 rr :
  server_ok s -> readRequest s cd q = Return (s1, cd1, rr) -> hr_err (rr_header rr) = None ->
  exists sn svc mn m v n p e, hr_svc (rr_header rr) = Some sn ∧ hr_method (rr_header rr) = Some (mn, m) ∧
    serviceMap s !! sn = Some svc ∧ methods svc !! mn = Some m ∧ ReplyType m = PtrType n p e ∧
    rr_argv rr = Some (mkArg v (argTarget (ArgType m)).1 (argTarget (ArgType m)).2) ∧ rr_reply rr = Some (newReply e).
Proof.
  intros Hok Hr He. unfold readRequest in Hr.
  destruct (readRequestHeader_effect s cd q Hok) as (r1 & h & Hh & Hhdr & _). rewrite Hh in Hr.
  destruct (hr_err h) as [err|] eqn:Herr.
  { destruct (negb _); [|destruct (DiscardRequestBody _)]; simplify_eq; simpl in He; congruence. }
  destruct Hhdr as [(_ & _ & Hs)|(_ & _ & Hm)]; [by destruct Hs; congruence|].
  destruct (Hm Herr) as (sn & svc & mn & m & Hsn & Hmn & Hsvc & Hme). rewrite Hmn in Hr.
  destruct (argTarget (ArgType m)) as [t ind] eqn:Ht. destruct (ReadRequestBody _ t) as [cd2 [v|err]]; [|by simplify_eq].
  destruct (proj1 (Kind_Ptr (ReplyType m))) as (n & p & e & Ep); [by eapply ok_methods|]. rewrite Ep in Hr. simpl in Hr.
  unfold spm_PostReadRequest in Hr. simpl in Hr. rewrite (ok_spm _ Hok), dispatch_empty in Hr. simplify_eq/=.
  exists sn, svc, mn, m, v, n, p, e. rewrite Ht. by split_and!.
Qed.
End read.

(** ** Lemmas about registration *)

Lemma registerMethods_ptr typ ms mn m :
  NoDup (m_Name <$> typ) -> registerMethods typ false = inl ms -> ms !! mn = Some m ->
  rtype_Kind (ReplyType m) = Ptr.
Proof.
  intros Hnd Hr Hm. unfold registerMethods in Hr. rewrite registerMethods_loop_eq in Hr by done.
  destruct (first_error typ); simplify_eq. rewrite (right_id_L ∅ (∪)) in Hm.
  apply accepted_lookup in Hm as (rm & _ & _ & _ & Hc); [|done].
  apply checkMethod_inl in Hc as [[(r & a & p & Hin & _ & Hp & _) _] (r' & a' & p' & Hin' & ->)].
  rewrite Hin in Hin'. simplify_eq/=. by apply Kind_Ptr.
Qed.

Lemma first_error_iff typ :
  first_error typ = None <-> forall m, m ∈ typ -> m_PkgPath m = "" -> suitable m.
Proof.
  split; [by intros ? ?; apply first_error_None|]. intros Hs.
  destruct (first_error typ) as [e|] eqn:He; [|done].
  apply first_error_in in He as (m & Hm & Hp & Hc).
  destruct (proj1 (checkMethod_suitable m)) as [meth Hmeth]; [by apply Hs|]. congruence.
Qed.

(** The service that a successful registration stores. *)
Definition new_service (rcv : Receiver) (typeName sName : string) : Service :=
  mkService (Str.Trim sName) "" typeName (list_to_map (accepted (rcv_typ rcv))).

(** A registration that comes back had a receiver that is not nil. *)
Lemma register_returns s rcv alias useAlias r :
  register s rcv alias useAlias = Return r -> exists typeName, rcv_Indirect rcv = Some typeName.
Proof. unfold register. destruct (rcv_Indirect rcv); [eauto|done]. Qed.

(** [register] stores the service and changes nothing else, or fails and changes
    nothing. *)
Lemma register_cases s (rcv : Receiver) (typeName alias : string) (useAlias : bool) :
  server_ok s -> rcv_Indirect rcv = Some typeName ->
  let sName := if useAlias then alias else typeName in
  (register s rcv alias useAlias
   = Return (set_services s (<[sName := new_service rcv typeName sName]> (serviceMap s)), None) ∧
   sName <> "" ∧ (useAlias = true ∨ isExported sName = true) ∧
   first_error (rcv_typ rcv) = None ∧ serviceMap s !! sName = None) ∨
  (exists e, register s rcv alias useAlias = Return (s, Some e) ∧
   ((sName = "" ∧ e = ErrInvalidServiceName) ∨
    (sName <> "" ∧ useAlias = false ∧ isExported sName = false ∧ e = ErrMethodMustBeExported) ∨
    (sName <> "" ∧ (useAlias = true ∨ isExported sName = true) ∧ first_error (rcv_typ rcv) = Some e) ∨
    (sName <> "" ∧ (useAlias = true ∨ isExported sName = true) ∧ first_error (rcv_typ rcv) = None ∧
     is_Some (serviceMap s !! sName) ∧ e = ErrServiceAlreadyDefinedInServer))).
Proof.
  intros Hok Hi sName. pose proof (rcv_names rcv) as Hnd. unfold register, registerMethods. rewrite Hi. fold sName.
  rewrite registerMethods_loop_eq by done.
  case_bool_decide; [right; eexists; split; [done|by left]|].
  destruct (negb (isExported sName) && negb useAlias) eqn:Hx.
  { right. eexists. split; [done|]. right. left. by destruct useAlias, (isExported sName). }
  assert (useAlias = true ∨ isExported sName = true) as Hx'
    by (destruct useAlias; [by left|right]; by destruct (isExported sName)).
  destruct (first_error (rcv_typ rcv)) as [e|] eqn:He.
  { right. eexists. split; [done|]. naive_solver. }
  destruct (serviceMap s !! sName) as [svc|] eqn:Hs.
  { right. eexists. split; [done|]. naive_solver. }
  left. unfold endpointOf. simpl. destruct (ok_ln _ Hok) as [addr ->].
  unfold spm_RegisterService. simpl. rewrite (ok_spm _ Hok). simpl.
  rewrite (right_id_L ∅ (∪)). by split_and!.
Qed.

Lemma server_ok_services s m :
  server_ok s ->
  (forall sn svc mn me, m !! sn = Some svc -> methods svc !! mn = Some me ->
     rtype_Kind (ReplyType me) = Ptr) ->
  server_ok (set_services s m).
Proof. intros [? ? ?] ?. by split. Qed.

Lemma register_ok s rcv alias useAlias s' err :
  server_ok s ->
  register s rcv alias useAlias = Return (s', err) ->
  server_ok s' ∧ s' = set_services s (serviceMap s').
Proof.
  intros Hok Hr. pose proof (rcv_names rcv) as Hnd.
  destruct (register_returns _ _ _ _ _ Hr) as [typeName Hi].
  destruct (register_cases s rcv typeName alias useAlias Hok Hi) as [(Hr' & _ & _ & Hf & _)|(e & Hr' & _)];
    rewrite Hr' in Hr; simplify_eq; [|by destruct s'].
  split; [|done]. apply server_ok_services; [done|].
  intros sn svc mn me. rewrite lookup_insert. case_decide; [|by apply (ok_methods _ Hok)].
  intros [= <-] Hm. apply (registerMethods_ptr (rcv_typ rcv) (list_to_map (accepted (rcv_typ rcv))) mn); [done| |done].
  unfold registerMethods. rewrite registerMethods_loop_eq by done.
  by rewrite Hf, (right_id_L ∅ (∪)).
Qed.
End server.

Arguments Server V W : clear implicits.
Arguments globals V W : clear implicits.
Arguments requestResult V : clear implicits.
