(* ===== verification/ServerConn.v ===== *)
(** * server.go, service.go: the goroutines of a running server

    [acceptLoop] starts a goroutine per connection ([handleConn], which runs
    [serveCodec]), and [serveCodec] starts one per request ([Service.call],
    which runs [sendResponse]).  They share the server's two free lists and its
    map of services, and the goroutines of a connection share its codec, its
    [sending] mutex and its wait group.  The state [sys] holds all of them, and
    one event is one atomic action of one goroutine: a critical section of a
    mutex, a call of the codec, or a call of a user's method, whose answer is
    part of the event. *)
From S2P Require Import Prelude GoStd Utils Types FreeList Service Plugin Server.

(** A request header as the client knows it. *)
Abbreviation hdr := (string * Z)%type.
Definition hdr_of_req (r : RpcRequest) : hdr := (req_ServiceMethod r, req_Seq r).
Definition hdr_of_resp (r : RpcResponse) : hdr := (resp_ServiceMethod r, resp_Seq r).

(** Where a goroutine is.  [q] and [r] are the request and response objects it
    holds.  The reader of a connection runs [sendResponse] itself for a request
    it rejects. *)
Inductive pc :=
| Loop                      (* serveCodec: before getRequest *)
| Reading (q : loc)         (* in readRequest *)
| Enter (q : loc)           (* Service.call: before the call count *)
| Calling (q : loc)         (* the user's method runs *)
| GetResp (q : loc)         (* sendResponse: before getResponse *)
| Fill (q r : loc)          (* before the fields are set *)
| Lock (q r : loc)          (* before sending.Lock() *)
| Writing (q r : loc)       (* before codec.WriteResponse *)
| Unlock (q r : loc)        (* before sending.Unlock() *)
| FreeResp (q r : loc)      (* before freeResponse *)
| FreeReq (q : loc)         (* before freeRequest *)
| WgDone                    (* before wg.Done() *)
| Waiting                   (* serveCodec: in wg.Wait() *)
| Tail.                     (* handleConn: after serveCodec *)

#[global] Instance pc_eq_dec : EqDecision pc.
Proof. solve_decision. Defined.

Section conn.
Context {V W C : Type} `{UnicodeTables} `{ServerCodec V C}.
Context (ord : gmap string (Plugin V W) -> list (string * Plugin V W)).
Context (invalidRequest : V) (NewJsonServerCodec NewGobServerCodec : connid -> C).

(** A goroutine: [g_hdr] is the header of the request it answers, recorded when
    the request was read; [g_reply] and [g_err] are the variables [reply] and
    [errMsg] of [sendResponse]. *)
Record goroutine := mkG {
  g_pc : pc;
  g_hdr : hdr;
  g_meth : string * string;
  g_args : option (argval V * replyval);
  g_reply : V;
  g_err : string
}.

Definition at_pc (g : goroutine) (p : pc) : goroutine :=
  mkG p (g_hdr g) (g_meth g) (g_args g) (g_reply g) (g_err g).

Definition reader0 (p : pc) : goroutine := mkG p ("", 0) ("", "") None invalidRequest "".

(** A connection: its codec (none for an unknown codec type), who holds the
    [sending] mutex, the wait group, and two histories: the headers that were
    read, and the responses given to [WriteResponse] with the header that each
    one answers. *)
Record conn := mkConn {
  codec : option C;
  sending : option nat;
  wg : Z;
  closed : bool;
  headers : list hdr;
  responses : list (hdr * RpcResponse)
}.

Definition set_codec (cn : conn) (cd : option C) : conn :=
  mkConn cd (sending cn) (wg cn) (closed cn) (headers cn) (responses cn).
Definition set_sending (cn : conn) (o : option nat) : conn :=
  mkConn (codec cn) o (wg cn) (closed cn) (headers cn) (responses cn).
Definition set_wg (cn : conn) (n : Z) : conn :=
  mkConn (codec cn) (sending cn) n (closed cn) (headers cn) (responses cn).
Definition set_closed (cn : conn) : conn :=
  mkConn (codec cn) (sending cn) (wg cn) true (headers cn) (responses cn).
Definition log_header (cn : conn) (h : hdr) : conn :=
  mkConn (codec cn) (sending cn) (wg cn) (closed cn) (headers cn ++ [h]) (responses cn).
Definition log_response (cn : conn) (h : hdr) (r : RpcResponse) : conn :=
  mkConn (codec cn) (sending cn) (wg cn) (closed cn) (headers cn) (responses cn ++ [(h, r)]).

Record sys := mkSys {
  srv : Server V W;
  conns : gmap connid conn;
  gs : gmap (connid * nat) goroutine
}.

(** ** acceptLoop and handleConn *)

(** The codec of a connection, by the configured type. *)
Definition newCodec (codecType : string) (c : connid) : option C :=
  if bool_decide (codecType = "json") then Some (NewJsonServerCodec c)
  else if bool_decide (codecType = "gob") then Some (NewGobServerCodec c)
  else None.

(** One iteration of [acceptLoop] for an accepted connection [c]; it must be new
    to the server.  The goroutine of [handleConn] is the connection's number 0. *)
Definition accept (σ : sys) (c : connid) : option sys :=
  match spm_HandleConnAccept ord (spm (srv σ)) c with
  | Panic _ => None
  | Return (_, Some _) => Some σ
  | Return (c', None) =>
      match activeConn (srv σ), conns σ !! c' with
      | Some active, None =>
          let s1 := set_active (srv σ) (Some ({[c']} ∪ active)) in
          let s2 := set_serveWG s1 (serveWG s1 + 1) in
          let cd := newCodec (cfg_CodecType (serverConfig s2)) c' in
          let p := match cd with Some _ => Loop | None => Tail end in
          Some (mkSys s2 (<[c' := mkConn cd None 0 false [] []]> (conns σ))
                  (<[(c', 0%nat) := reader0 p]> (gs σ)))
      | _, _ => None
      end
  end.

(** The end of [handleConn]; the goroutine ends with [serveWG.Done()]. *)
Definition finish (σ : sys) (c : connid) : option sys :=
  let s1 := set_active (srv σ) ((fun a => a ∖ {[c]}) <$> activeConn (srv σ)) in
  match spm_HandleConnClose ord (spm s1) c with
  | Panic _ => None
  | Return _ =>
      Some (mkSys (set_serveWG s1 (serveWG s1 - 1)) (conns σ) (delete (c, 0%nat) (gs σ)))
  end.

(** [onStop], which [acceptLoop] calls when [stopChan] is signalled: it waits for
    the connections and then runs the listeners, each of which may do anything to
    the server. *)
Definition onStop (stopListeners : list (Server V W -> Server V W)) (σ : sys) : option sys :=
  if bool_decide (serveWG (srv σ) = 0) then
    Some (mkSys (foldl (fun s l => l s) (srv σ) stopListeners) (conns σ) (gs σ))
  else None.

(** ** serveCodec *)

(** What the loop does with the results of [readRequest]; [h] is the number of
    the goroutine that is started for a good request. *)
Definition dispatch_request (σ : sys) (c : connid) (cn : conn) (h : nat) (rr : requestResult V)
    : option sys :=
  let hr := rr_header rr in
  let k0 := (c, 0%nat) in
  match hr_err hr, hr_keepReading hr, hr_req hr with
  | Some _, false, _ => Some (mkSys (srv σ) (<[c := cn]> (conns σ)) (<[k0 := reader0 Waiting]> (gs σ)))
  | Some _, true, None => Some (mkSys (srv σ) (<[c := cn]> (conns σ)) (<[k0 := reader0 Loop]> (gs σ)))
  | Some err, true, Some q =>
      let hd := hdr_of_req (default RpcRequest0 (heap (reqs (srv σ)) !! q)) in
      let g := mkG (GetResp q) hd ("", "") None invalidRequest (Error err) in
      Some (mkSys (srv σ) (<[c := log_header cn hd]> (conns σ)) (<[k0 := g]> (gs σ)))
  | None, _, Some q =>
      match hr_svc hr, hr_method hr, rr_argv rr, rr_reply rr with
      | Some sn, Some (mn, _), Some argv, Some rv =>
          if bool_decide (h <> 0%nat ∧ gs σ !! (c, h) = None) then
            let hd := hdr_of_req (default RpcRequest0 (heap (reqs (srv σ)) !! q)) in
            let g := mkG (Enter q) hd (sn, mn) (Some (argv, rv)) invalidRequest "" in
            Some (mkSys (srv σ)
                    (<[c := log_header (set_wg cn (wg cn + 1)) hd]> (conns σ))
                    (<[(c, h) := g]> (<[k0 := reader0 Loop]> (gs σ))))
          else None
      | _, _, _, _ => None
      end
  | None, _, None => None
  end.

(** One step of the connection's reader. *)
Definition reader_step (σ : sys) (c : connid) (h : nat) : option sys :=
  let k0 := (c, 0%nat) in
  match gs σ !! k0, conns σ !! c with
  | Some g, Some cn =>
      match g_pc g with
      | Loop =>
          let '(q, P) := getRequest (reqs (srv σ)) in
          Some (mkSys (set_reqs (srv σ) P) (conns σ) (<[k0 := reader0 (Reading q)]> (gs σ)))
      | Reading q =>
          match codec cn with
          | None => None
          | Some cd =>
              match readRequest ord (srv σ) cd q with
              | Panic _ => None
              | Return (s1, cd1, rr) =>
                  dispatch_request (mkSys s1 (conns σ) (gs σ)) c (set_codec cn (Some cd1)) h rr
              end
          end
      | Waiting =>
          if bool_decide (wg cn = 0) then
            let cd := match codec cn with Some cd => Some (CloseCodec cd).1 | None => None end in
            Some (mkSys (srv σ) (<[c := set_closed (set_codec cn cd)]> (conns σ))
                    (<[k0 := reader0 Tail]> (gs σ)))
          else None
      | Tail => finish σ c
      | _ => None
      end
  | _, _ => None
  end.

(** ** Service.call and sendResponse *)

(** [method.numCalls++]; [numCalls] is a [uint]. *)
Definition count_call (s : Server V W) (m : string * string) : Server V W :=
  set_services s
    (alter (fun svc => mkService (name svc) (aliasName svc) (receiverTyp svc)
              (alter (fun m => mkMethod (method m) (ArgType m) (ReplyType m) (Word.u64 (numCalls m + 1)))
                 m.2 (methods svc))) m.1 (serviceMap s)).

(** The user's method returns. *)
Definition method_returns (σ : sys) (c : connid) (h : nat) (reply : V) (err : option error) : option sys :=
  match gs σ !! (c, h) with
  | Some g =>
      match g_pc g with
      | Calling q =>
          let errMsg := match err with Some e => Error e | None => "" end in
          Some (mkSys (srv σ) (conns σ)
                  (<[(c, h) := mkG (GetResp q) (g_hdr g) (g_meth g) (g_args g) reply errMsg]> (gs σ)))
      | _ => None
      end
  | None => None
  end.

(** The fields of the response, lines 340 to 345. *)
Definition fill_response (req : RpcRequest) (resp : RpcResponse) (errMsg : string) : RpcResponse :=
  mkResponse (req_ServiceMethod req) (req_Seq req)
    (if bool_decide (errMsg <> "") then errMsg else resp_Error resp) (resp_next resp).

(** One step of goroutine [h] of connection [c] within [Service.call] and
    [sendResponse]. *)
Definition go_step (σ : sys) (c : connid) (h : nat) : option sys :=
  let k := (c, h) in
  let s := srv σ in
  match gs σ !! k, conns σ !! c with
  | Some g, Some cn =>
      match g_pc g with
      | Enter q =>
          Some (mkSys (count_call s (g_meth g)) (conns σ) (<[k := at_pc g (Calling q)]> (gs σ)))
      | GetResp q =>
          let '(r, P) := getResponse (resps s) in
          Some (mkSys (set_resps s P) (conns σ) (<[k := at_pc g (Fill q r)]> (gs σ)))
      | Fill q r =>
          let req := default RpcRequest0 (heap (reqs s) !! q) in
          let resp := default RpcResponse0 (heap (resps s) !! r) in
          let reply := if bool_decide (g_err g <> "") then invalidRequest else g_reply g in
          Some (mkSys (set_resps s (store (resps s) r (fill_response req resp (g_err g)))) (conns σ)
                  (<[k := mkG (Lock q r) (g_hdr g) (g_meth g) (g_args g) reply (g_err g)]> (gs σ)))
      | Lock q r =>
          match sending cn with
          | Some _ => None
          | None =>
              Some (mkSys s (<[c := set_sending cn (Some h)]> (conns σ))
                      (<[k := at_pc g (Writing q r)]> (gs σ)))
          end
      | Writing q r =>
          let resp := default RpcResponse0 (heap (resps s) !! r) in
          match spm_PreWriteResponse ord (spm s) (resp, g_reply g), codec cn with
          | Return (resp', reply', _), Some cd =>
              let '(cd', _) := WriteResponse cd resp' reply' in
              Some (mkSys (set_resps s (store (resps s) r resp'))
                      (<[c := log_response (set_codec cn (Some cd')) (g_hdr g) resp']> (conns σ))
                      (<[k := mkG (Unlock q r) (g_hdr g) (g_meth g) (g_args g) reply' (g_err g)]> (gs σ)))
          | _, _ => None
          end
      | Unlock q r =>
          let resp := default RpcResponse0 (heap (resps s) !! r) in
          match spm_PostWriteResponse ord (spm s) (resp, g_reply g) with
          | Return (resp', _, _) =>
              Some (mkSys (set_resps s (store (resps s) r resp'))
                      (<[c := set_sending cn None]> (conns σ))
                      (<[k := at_pc g (FreeResp q r)]> (gs σ)))
          | Panic _ => None
          end
      | FreeResp q r =>
          Some (mkSys (set_resps s (freeResponse (resps s) r)) (conns σ)
                  (<[k := at_pc g (FreeReq q)]> (gs σ)))
      | FreeReq q =>
          let g' := if bool_decide (h = 0%nat) then reader0 Loop else at_pc g WgDone in
          Some (mkSys (set_reqs s (freeRequest (reqs s) q)) (conns σ) (<[k := g']> (gs σ)))
      | WgDone =>
          Some (mkSys s (<[c := set_wg cn (wg cn - 1)]> (conns σ)) (delete k (gs σ)))
      | _ => None
      end
  | _, _ => None
  end.

(** ** The transition system

    A registration that panics, with a nil receiver, is no step. *)
Inductive sys_event :=
| EvRegister (rcv : Receiver) (alias : string) (useAlias : bool)
| EvAccept (c : connid)
| EvReader (c : connid) (h : nat)
| EvReturn (c : connid) (h : nat) (reply : V) (err : option error)
| EvGo (c : connid) (h : nat).

Definition sys_step (σ : sys) (e : sys_event) : option sys :=
  match e with
  | EvRegister rcv alias useAlias =>
      match register ord (srv σ) rcv alias useAlias with
      | Return (s', _) => Some (mkSys s' (conns σ) (gs σ))
      | Panic _ => None
      end
  | EvAccept c => accept σ c
  | EvReader c h => reader_step σ c h
  | EvReturn c h reply err => method_returns σ c h reply err
  | EvGo c h => go_step σ c h
  end.

#[global] Instance sys_lts : LTS sys sys_event := sys_step.

(** A started server: what [Start] has made of a new server, with any services
    registered before. *)
Definition started (s : Server V W) : sys := mkSys s ∅ ∅.
End conn.
