(* ===== verification/ServerSafety.v ===== *)
(** * Safety of the running server

    The invariant of the goroutines of [ServerConn], by induction over the
    steps: header objects have one owner, the objects hold what their owner
    relies on, and the books of every connection balance. *)
From S2P Require Import Prelude GoStd Utils Types FreeList Service Plugin Server ServerConn.

Section safety.
Context {V W C : Type} `{UnicodeTables} `{ServerCodec V C}.
Context (ord : gmap string (Plugin V W) -> list (string * Plugin V W)).
Context (invalidRequest : V) (NewJsonServerCodec NewGobServerCodec : connid -> C).

Abbreviation sys := (@sys V W C).
Abbreviation goroutine := (@goroutine V).
Abbreviation conn := (@conn C).
Abbreviation step := (sys_step ord invalidRequest NewJsonServerCodec NewGobServerCodec).
Abbreviation R0 := (reader0 invalidRequest).

Implicit Types (s : Server V W) (σ : sys) (g : goroutine) (cn : conn)
  (cs : gmap connid conn) (G : gmap (connid * nat) goroutine) (c : connid) (h : nat) (q r : loc).

(** ** The steps as a relation

    The effects of [sys_step] on a server without plugins, one rule per action;
    what the rules leave out (which codec state, which services) the invariant
    does not depend on. *)
Inductive sstep : sys -> sys -> Prop :=
| ss_server s s' cs G
    (Hreqs : reqs s' = reqs s) (Hresps : resps s' = resps s) :
    sstep (mkSys s cs G) (mkSys s' cs G)
| ss_accept s s' cs G c cd p
    (Hreqs : reqs s' = reqs s) (Hresps : resps s' = resps s) (Hcn : cs !! c = None) (Hp :
    p = Loop ∨ p = Tail) :
    sstep (mkSys s cs G) (mkSys s' (<[c := mkConn cd None 0 false [] []]> cs)
                            (<[(c, 0%nat) := R0 p]> G))
| ss_get s cs G c g q P
    (Hg : G !! (c, 0%nat) = Some g) (Hpc : g_pc g = Loop) (Hget : getRequest (reqs s) =
    (q, P)) :
    sstep (mkSys s cs G) (mkSys (set_reqs s P) cs (<[(c, 0%nat) := R0 (Reading q)]> G))
| ss_read_end s cs G c g cn q cd v
    (Hg : G !! (c, 0%nat) = Some g) (Hpc : g_pc g = Reading q) (Hcn : cs !! c = Some cn) :
    sstep (mkSys s cs G)
      (mkSys (set_reqs s (store (reqs s) q v)) (<[c := set_codec cn cd]> cs)
         (<[(c, 0%nat) := R0 Waiting]> G))
| ss_read_bad s cs G c g cn q cd v g'
    (Hg : G !! (c, 0%nat) = Some g) (Hpc : g_pc g = Reading q) (Hcn : cs !! c = Some cn)
    (Hpc' : g_pc g' = GetResp q) (Hhdr : g_hdr g' = hdr_of_req v) :
    sstep (mkSys s cs G)
      (mkSys (set_reqs s (store (reqs s) q v)) (<[c := log_header (set_codec cn cd) (hdr_of_req v)]> cs)
         (<[(c, 0%nat) := g']> G))
| ss_read_ok s cs G c h g cn q cd v g'
    (Hg : G !! (c, 0%nat) = Some g) (Hpc : g_pc g = Reading q) (Hcn : cs !! c = Some cn)
    (Hh : h <> 0%nat) (Hnew : G !! (c, h) = None) (Hpc' : g_pc g' = Enter q) (Hhdr : g_hdr
    g' = hdr_of_req v) :
    sstep (mkSys s cs G)
      (mkSys (set_reqs s (store (reqs s) q v))
         (<[c := log_header (set_wg (set_codec cn cd) (wg cn + 1)) (hdr_of_req v)]> cs)
         (<[(c, h) := g']> (<[(c, 0%nat) := R0 Loop]> G)))
| ss_close s cs G c g cn cd
    (Hg : G !! (c, 0%nat) = Some g) (Hpc : g_pc g = Waiting) (Hcn : cs !! c = Some cn)
    (Hwg : wg cn = 0) :
    sstep (mkSys s cs G)
      (mkSys s (<[c := set_closed (set_codec cn cd)]> cs) (<[(c, 0%nat) := R0 Tail]> G))
| ss_finish s s' cs G c g
    (Hg : G !! (c, 0%nat) = Some g) (Hpc : g_pc g = Tail) (Hreqs : reqs s' = reqs s)
    (Hresps : resps s' = resps s) :
    sstep (mkSys s cs G) (mkSys s' cs (delete (c, 0%nat) G))
| ss_enter s s' cs G c h g q
    (Hg : G !! (c, h) = Some g) (Hpc : g_pc g = Enter q) (Hreqs : reqs s' = reqs s)
    (Hresps : resps s' = resps s) :
    sstep (mkSys s cs G) (mkSys s' cs (<[(c, h) := at_pc g (Calling q)]> G))
| ss_return s cs G c h g q g'
    (Hg : G !! (c, h) = Some g) (Hpc : g_pc g = Calling q) (Hpc' : g_pc g' = GetResp q)
    (Hhdr : g_hdr g' = g_hdr g) :
    sstep (mkSys s cs G) (mkSys s cs (<[(c, h) := g']> G))
| ss_getresp s cs G c h g q r P
    (Hg : G !! (c, h) = Some g) (Hpc : g_pc g = GetResp q) (Hget : getResponse (resps s) =
    (r, P)) :
    sstep (mkSys s cs G) (mkSys (set_resps s P) cs (<[(c, h) := at_pc g (Fill q r)]> G))
| ss_fill s cs G c h g q r g'
    (Hg : G !! (c, h) = Some g) (Hpc : g_pc g = Fill q r) (Hpc' : g_pc g' = Lock q r)
    (Hhdr : g_hdr g' = g_hdr g) (Herr : g_err g' = g_err g) :
    sstep (mkSys s cs G)
      (mkSys (set_resps s (store (resps s) r
                (fill_response (default RpcRequest0 (heap (reqs s) !! q))
                   (default RpcResponse0 (heap (resps s) !! r)) (g_err g)))) cs
         (<[(c, h) := g']> G))
| ss_lock s cs G c h g cn q r
    (Hg : G !! (c, h) = Some g) (Hpc : g_pc g = Lock q r) (Hcn : cs !! c = Some cn) (Hsend
    : sending cn = None) :
    sstep (mkSys s cs G)
      (mkSys s (<[c := set_sending cn (Some h)]> cs) (<[(c, h) := at_pc g (Writing q r)]> G))
| ss_write s cs G c h g cn q r cd g'
    (Hg : G !! (c, h) = Some g) (Hpc : g_pc g = Writing q r) (Hcn : cs !! c = Some cn)
    (Hpc' : g_pc g' = Unlock q r) (Hhdr : g_hdr g' = g_hdr g) (Herr : g_err g' = g_err g) :
    sstep (mkSys s cs G)
      (mkSys (set_resps s (store (resps s) r (default RpcResponse0 (heap (resps s) !! r))))
         (<[c := log_response (set_codec cn cd) (g_hdr g) (default RpcResponse0 (heap (resps s) !! r))]> cs)
         (<[(c, h) := g']> G))
| ss_unlock s cs G c h g cn q r
    (Hg : G !! (c, h) = Some g) (Hpc : g_pc g = Unlock q r) (Hcn : cs !! c = Some cn) :
    sstep (mkSys s cs G)
      (mkSys (set_resps s (store (resps s) r (default RpcResponse0 (heap (resps s) !! r))))
         (<[c := set_sending cn None]> cs) (<[(c, h) := at_pc g (FreeResp q r)]> G))
| ss_freeresp s cs G c h g q r
    (Hg : G !! (c, h) = Some g) (Hpc : g_pc g = FreeResp q r) :
    sstep (mkSys s cs G)
      (mkSys (set_resps s (freeResponse (resps s) r)) cs (<[(c, h) := at_pc g (FreeReq q)]> G))
| ss_freereq s cs G c h g q g'
    (Hg : G !! (c, h) = Some g) (Hpc : g_pc g = FreeReq q) (Hg' : h = 0%nat ∧ g' = R0 Loop
    ∨ h <> 0%nat ∧ g' = at_pc g WgDone) :
    sstep (mkSys s cs G)
      (mkSys (set_reqs s (freeRequest (reqs s) q)) cs (<[(c, h) := g']> G))
| ss_wgdone s cs G c h g cn
    (Hg : G !! (c, h) = Some g) (Hpc : g_pc g = WgDone) (Hcn : cs !! c = Some cn) :
    sstep (mkSys s cs G) (mkSys s (<[c := set_wg cn (wg cn - 1)]> cs) (delete (c, h) G)).

(** *** The function against the relation *)

Lemma server_ok_ext s s' :
  server_ok s -> spm s' = spm s -> ln s' = ln s -> serviceMap s' = serviceMap s -> server_ok s'.
Proof. intros [? ? ?] E1 E2 E3. split; by rewrite ?E1, ?E2, ?E3. Qed.

Lemma count_call_ok s m : server_ok s -> server_ok (count_call s m).
Proof.
  intros Hok. apply server_ok_services; [done|]. intros sn svc mn me.
  rewrite lookup_alter. case_decide; [|by apply (ok_methods _ Hok)].
  intros (svc0 & Hs & ->)%fmap_Some. simpl. rewrite lookup_alter.
  case_decide; [|by eapply ok_methods].
  intros (me0 & Hm & ->)%fmap_Some. simpl. by eapply ok_methods.
Qed.

Lemma reader_step_sstep σ c h σ' :
  server_ok (srv σ) ->
  reader_step ord invalidRequest σ c h = Some σ' -> sstep σ σ' ∧ server_ok (srv σ').
Proof.
  destruct σ as [s cs G]. simpl. intros Hok Hs. unfold reader_step in Hs. simpl in Hs.
  destruct (G !! (c, 0%nat)) as [g|] eqn:Hg; [|done].
  destruct (cs !! c) as [cn|] eqn:Hcn; [|done].
  destruct (g_pc g) as [|q| | | | | | | | | | | |] eqn:Hpc; try done.
  - destruct (getRequest (reqs s)) as [q P] eqn:Hget. simplify_eq.
    split; [by eapply ss_get|by eapply server_ok_ext].
  - destruct (codec cn) as [cd|]; [|done].
    destruct (readRequest_effect ord s cd q Hok) as (cd1 & rr & Hrr & Hh & Hargs).
    rewrite Hrr in Hs. clear Hrr. set (v := (ReadRequestHeader _ _).1.2) in *.
    set (s1 := set_reqs s (store (reqs s) q v)) in *.
    assert (server_ok s1) by (by eapply server_ok_ext).
    assert (default RpcRequest0 (heap (reqs s1) !! q) = v) as Hv.
    { unfold s1. simpl. by rewrite lookup_insert_eq. }
    unfold dispatch_request in Hs. cbn [srv conns gs] in Hs.
    destruct Hh as [(Hk & Hq & [e He])|(Hk & Hq & Hm)]; rewrite ?Hk, ?Hq, ?He in Hs.
    { simplify_eq. split; [by eapply ss_read_end|done]. }
    rewrite Hv in Hs. destruct (hr_err (rr_header rr)) as [e|] eqn:He.
    { simplify_eq. split; [by eapply ss_read_bad|done]. }
    destruct (Hm eq_refl) as (sn & svc & mn & m & Hsn & Hmn & _ & _).
    destruct (Hargs eq_refl) as [[av Hav] [rv Hrv]]. rewrite Hsn, Hmn, Hav, Hrv in Hs.
    case_bool_decide as Hh; [|done]. destruct Hh as [Hh0 Hh]. simplify_eq.
    split; [by eapply (ss_read_ok s cs G c h g cn q (Some cd1))|done].
  - case_bool_decide; [|done]. simplify_eq. split; [by eapply ss_close|done].
  - unfold finish in Hs. simpl in Hs. destruct (spm_HandleConnClose _ _ _) as [[? ?]|]; [|done].
    simplify_eq. split; [by eapply ss_finish|by eapply server_ok_ext].
Qed.

Lemma go_step_sstep σ c h σ' :
  server_ok (srv σ) ->
  go_step ord invalidRequest σ c h = Some σ' -> sstep σ σ' ∧ server_ok (srv σ').
Proof.
  destruct σ as [s cs G]. simpl. intros Hok Hs. unfold go_step in Hs. simpl in Hs.
  destruct (G !! (c, h)) as [g|] eqn:Hg; [|done].
  destruct (cs !! c) as [cn|] eqn:Hcn; [|done].
  destruct (g_pc g) as [| |q| |q|q r|q r|q r|q r|q r|q| | |] eqn:Hpc; try done.
  - simplify_eq. split; [by eapply ss_enter|by apply count_call_ok].
  - destruct (getResponse (resps s)) as [r P] eqn:Hget. simplify_eq.
    split; [by eapply ss_getresp|by eapply server_ok_ext].
  - simplify_eq. split; [by eapply ss_fill|by eapply server_ok_ext].
  - destruct (sending cn) eqn:Hsend; [done|]. simplify_eq. split; [by eapply ss_lock|done].
  - unfold spm_PreWriteResponse in Hs. rewrite (ok_spm _ Hok), dispatch_empty in Hs.
    destruct (codec cn) as [cd|]; [|done]. destruct (WriteResponse _ _ _) as [cd' e].
    simplify_eq. split; [by eapply ss_write|by eapply server_ok_ext].
  - unfold spm_PostWriteResponse in Hs. rewrite (ok_spm _ Hok), dispatch_empty in Hs.
    simplify_eq. split; [by eapply ss_unlock|by eapply server_ok_ext].
  - simplify_eq. split; [by eapply ss_freeresp|by eapply server_ok_ext].
  - simplify_eq. split; [|by eapply server_ok_ext]. eapply ss_freereq; [done|done|].
    case_bool_decide; auto.
  - simplify_eq. split; [by eapply ss_wgdone|done].
Qed.

Lemma step_sstep σ e σ' :
  server_ok (srv σ) -> step σ e = Some σ' -> sstep σ σ' ∧ server_ok (srv σ').
Proof.
  intros Hok Hs. destruct e as [rcv al ua|c|c h|c h reply err|c h]; simpl in Hs.
  - destruct (register ord (srv σ) rcv al ua) as [[s' err]|] eqn:Hr; simplify_eq/=.
    apply register_ok in Hr as [Hok' Heq]; [|done]. destruct σ. split; [|done].
    rewrite Heq. by apply ss_server.
  - unfold accept in Hs. unfold spm_HandleConnAccept in Hs.
    rewrite (ok_spm _ Hok), dispatch_empty in Hs.
    destruct (activeConn (srv σ)) as [a|]; [|done]. destruct (conns σ !! c) eqn:Hc; [done|].
    simplify_eq. destruct σ as [s cs G]. simpl in *.
    split; [|by eapply server_ok_ext]. apply ss_accept; try done.
    unfold newCodec. repeat case_bool_decide; auto.
  - by eapply reader_step_sstep.
  - unfold method_returns in Hs. destruct (gs σ !! (c, h)) as [g|] eqn:Hg; [|done].
    destruct (g_pc g) eqn:Hpc; simplify_eq. destruct σ as [s cs G]. simpl in *.
    split; [by eapply ss_return|done].
  - by eapply go_step_sstep.
Qed.

(** ** The invariant *)

Definition own_req g : option loc :=
  match g_pc g with
  | Reading q | Enter q | Calling q | GetResp q | Fill q _ | Lock q _ | Writing q _ | Unlock q _
  | FreeResp q _ | FreeReq q => Some q
  | _ => None
  end.

Definition own_resp g : option loc :=
  match g_pc g with
  | Fill _ r | Lock _ r | Writing _ r | Unlock _ r | FreeResp _ r => Some r
  | _ => None
  end.

(** The request object is clear before a header is read into it, and then has the
    header that its goroutine answers. *)
Definition req_content g (v : RpcRequest) : Prop :=
  match g_pc g with Reading _ => v = RpcRequest0 | _ => hdr_of_req v = g_hdr g end.

(** The response object is clear before it is filled, and then carries the
    header and the error until it is written. *)
Definition resp_content g (v : RpcResponse) : Prop :=
  match g_pc g with
  | Fill _ _ => v = RpcResponse0
  | FreeResp _ _ => True
  | _ => hdr_of_resp v = g_hdr g ∧ resp_Error v = g_err g
  end.

(** The header a goroutine of connection [c] has still to answer. *)
Definition owes c (k : connid * nat) g : list hdr :=
  if bool_decide (k.1 = c) then
    match g_pc g with
    | Enter _ | Calling _ | GetResp _ | Fill _ _ | Lock _ _ | Writing _ _ => [g_hdr g]
    | _ => []
    end
  else [].

(** The goroutines that count in the wait group of [c]. *)
Definition handler c (k : connid * nat) g : list unit :=
  if bool_decide (k.1 = c ∧ k.2 <> 0%nat) then [tt] else [].

Definition locked g : bool := match g_pc g with Writing _ _ | Unlock _ _ => true | _ => false end.

Definition reader_pc (p : pc) : Prop :=
  match p with Enter _ | Calling _ | WgDone => False | _ => True end.
Definition handler_pc (p : pc) : Prop :=
  match p with Loop | Reading _ | Waiting | Tail => False | _ => True end.

(** The books of a connection: every header read is answered by a response that
    was written or is still owed by a goroutine; the wait group counts the
    goroutines; responses echo the header they answer; the mutex is held by the
    goroutine that is writing; and after [Close] only the reader is left. *)
Record books c cn G : Prop := {
  b_headers : headers cn ≡ₚ (responses cn).*1 ++ collect (owes c) G;
  b_wg : wg cn = Z.of_nat (length (collect (handler c) G));
  b_echo : Forall (fun x => hdr_of_resp x.2 = x.1) (responses cn);
  b_lock : forall h, sending cn = Some h <-> exists g, G !! (c, h) = Some g ∧ locked g = true;
  b_closed : closed cn = true -> forall h g, G !! (c, h) = Some g -> g_pc g = Tail
}.

Record inv σ : Prop := {
  inv_req : held own_req req_content (gs σ) (reqs (srv σ));
  inv_resp : held own_resp resp_content (gs σ) (resps (srv σ));
  inv_shape : forall c h g, gs σ !! (c, h) = Some g ->
    is_Some (conns σ !! c) ∧ (h = 0%nat -> reader_pc (g_pc g)) ∧ (h <> 0%nat -> handler_pc (g_pc g));
  inv_books : forall c cn, conns σ !! c = Some cn -> books c cn (gs σ)
}.

(** *** The objects *)

(** A goroutine that keeps or drops its object, by its old state [Hg]. *)
Ltac keep Hg :=
  eapply held_insert; [eassumption|];
  let q' := fresh "q" in let Hq' := fresh in intros q' Hq';
  unfold own_req, own_resp, req_content, resp_content in *; simpl in *;
  repeat match goal with E : g_pc _ = _ |- _ => rewrite E in * end;
  simplify_eq/=; try done; eexists; (split; [exact Hg|]);
  repeat match goal with E : g_pc _ = _ |- _ => rewrite E in * end;
  (split; [done|intros; try done; try congruence]).

Lemma sstep_req σ σ' :
  held own_req req_content (gs σ) (reqs (srv σ)) -> sstep σ σ' ->
  held own_req req_content (gs σ') (reqs (srv σ')).
Proof.
  intros Hh Hs. destruct Hs; simpl in *; rewrite ?Hreqs; try done;
    try (by keep Hg); try (by apply held_delete).
  - apply held_insert; [done|]. by destruct Hp as [->| ->].
  - by eapply held_get.
  - eapply held_store; [done|done|by unfold own_req; rewrite Hpc|done].
  - eapply held_store; [done|done|by unfold own_req; rewrite Hpc|].
    unfold own_req, req_content. rewrite Hpc', Hhdr. by intros ? [= ->].
  - rewrite <- (insert_insert_eq G (c, 0%nat) (R0 Loop) g').
    eapply held_transfer; [|by rewrite lookup_insert_eq| |done|done|done].
    + eapply held_store; [done|done|by unfold own_req; rewrite Hpc|].
      unfold own_req, req_content. rewrite Hpc', Hhdr. by intros ? [= ->].
    + by rewrite lookup_insert_ne by congruence.
  - eapply held_put; [done|done|by unfold own_req; rewrite Hpc|].
    by destruct Hg' as [[_ ->]|[_ ->]].
Qed.

Lemma sstep_resp σ σ' :
  held own_req req_content (gs σ) (reqs (srv σ)) ->
  held own_resp resp_content (gs σ) (resps (srv σ)) -> sstep σ σ' ->
  held own_resp resp_content (gs σ') (resps (srv σ')).
Proof.
  intros Hrq Hh Hs. destruct Hs; simpl in *; rewrite ?Hresps; try done;
    try (by keep Hg); try (by apply held_delete).
  - apply held_insert; [done|]. by destruct Hp as [->| ->].
  - apply held_insert; [by keep Hg|]. unfold own_resp. by rewrite Hpc'.
  - by eapply held_get.
  - destruct (held_value _ _ _ _ Hrq (c, h) g q) as (v & Hv & Hc);
      [done|by unfold own_req; rewrite Hpc|].
    destruct (held_value _ _ _ _ Hh (c, h) g r) as (w & Hw & Hcw);
      [done|by unfold own_resp; rewrite Hpc|].
    eapply held_store; [done|done|by unfold own_resp; rewrite Hpc|].
    unfold own_resp, req_content, resp_content in *. rewrite Hpc in Hc, Hcw. rewrite Hpc'.
    intros ? [= <-]. rewrite Hv, Hw. subst w. simpl. split_and!; [done|by rewrite Hhdr|].
    rewrite Herr. case_bool_decide as Hm; [done|]. by rewrite Hm.
  - destruct (held_value _ _ _ _ Hh (c, h) g r) as (w & Hw & Hcw);
      [done|by unfold own_resp; rewrite Hpc|].
    eapply held_store; [done|done|by unfold own_resp; rewrite Hpc|].
    unfold own_resp, resp_content in *. rewrite Hpc in Hcw. rewrite Hpc', Hhdr, Herr, Hw.
    by intros ? [= <-].
  - eapply held_store; [done|done|by unfold own_resp; rewrite Hpc|]. by intros ? [= <-].
  - eapply held_put; [done|done|by unfold own_resp; rewrite Hpc|done].
  - destruct Hg' as [[_ ->]|[_ ->]]; by keep Hg.
Qed.

(** *** The shape of the map of goroutines *)

Definition shape (cs : gmap connid conn) (G : gmap (connid * nat) goroutine) : Prop :=
  forall c h g, G !! (c, h) = Some g ->
    is_Some (cs !! c) ∧ (h = 0%nat -> reader_pc (g_pc g)) ∧ (h <> 0%nat -> handler_pc (g_pc g)).

Lemma shape_insert cs G c h g :
  shape cs G -> is_Some (cs !! c) -> (h = 0%nat -> reader_pc (g_pc g)) ->
  (h <> 0%nat -> handler_pc (g_pc g)) -> shape cs (<[(c, h) := g]> G).
Proof. intros Hs ? ? ? c1 h1 g1. rewrite lookup_insert. case_decide; [|by eauto]. naive_solver. Qed.

(** A goroutine whose new position suits both roles when the old one did. *)
Lemma shape_update cs G c h g g' :
  shape cs G -> G !! (c, h) = Some g ->
  (reader_pc (g_pc g) -> reader_pc (g_pc g')) -> (handler_pc (g_pc g) -> handler_pc (g_pc g')) ->
  shape cs (<[(c, h) := g']> G).
Proof. intros Hs Hg ? ?. destruct (Hs _ _ _ Hg) as (? & ? & ?). apply shape_insert; auto. Qed.

Lemma shape_delete cs G k : shape cs G -> shape cs (delete k G).
Proof. intros Hs c1 h1 g1 [_ ?]%lookup_delete_Some. eauto. Qed.

Lemma shape_conns cs G c cn : shape cs G -> shape (<[c := cn]> cs) G.
Proof.
  intros Hs c1 h1 g1 Hg. destruct (Hs _ _ _ Hg) as (? & ? & ?). split_and!; [|done..].
  rewrite lookup_insert. case_decide; eauto.
Qed.

Lemma sstep_shape σ σ' : shape (conns σ) (gs σ) -> sstep σ σ' -> shape (conns σ') (gs σ').
Proof.
  intros Hs Hst. destruct Hst; simpl in *; auto using shape_delete, shape_conns;
    try (eapply shape_update; [try apply shape_conns; exact Hs|exact Hg|..];
         rewrite ?Hpc, ?Hpc'; by simpl).
  - apply shape_insert; [by apply shape_conns|by rewrite lookup_insert_eq| |done].
    by destruct Hp as [->| ->].
  - apply shape_insert; [|by rewrite lookup_insert_eq|done|by rewrite Hpc'].
    eapply shape_update; [by apply shape_conns|done|by rewrite Hpc..].
  - destruct (Hs _ _ _ Hg) as (? & ? & ?).
    apply shape_insert; [done|done|..]; by destruct Hg' as [[-> ->]|[? ->]].
Qed.

(** *** The books *)

Lemma books_other_insert c cn G c1 h1 g1 :
  c1 <> c -> books c cn G -> books c cn (<[(c1, h1) := g1]> G).
Proof.
  intros Hne [Hh Hw He Hl Hc]. split.
  - rewrite collect_insert_ne; [done|]. intros g. unfold owes. by rewrite bool_decide_eq_false_2.
  - rewrite collect_insert_ne; [done|]. intros g. unfold handler.
    by rewrite bool_decide_eq_false_2 by naive_solver.
  - done.
  - intros h. rewrite lookup_insert_ne by congruence. apply Hl.
  - intros Ht h g. rewrite lookup_insert_ne by congruence. by apply Hc.
Qed.

Lemma books_other_delete c cn G c1 h1 :
  c1 <> c -> books c cn G -> books c cn (delete (c1, h1) G).
Proof.
  intros Hne [Hh Hw He Hl Hc]. split.
  - rewrite collect_delete_ne; [done|]. intros g. unfold owes. by rewrite bool_decide_eq_false_2.
  - rewrite collect_delete_ne; [done|]. intros g. unfold handler.
    by rewrite bool_decide_eq_false_2 by naive_solver.
  - done.
  - intros h. rewrite lookup_delete_ne by congruence. apply Hl.
  - intros Ht h g. rewrite lookup_delete_ne by congruence. by apply Hc.
Qed.

(** One goroutine moves: what it newly owes was read or was owed before, what it
    wrote was owed, and the mutex follows it. *)
Lemma books_update c cn cn' G h g g' read wrote :
  books c cn G -> G !! (c, h) = Some g ->
  headers cn' = headers cn ++ read -> responses cn' = responses cn ++ wrote ->
  wrote.*1 ++ owes c (c, h) g' ≡ₚ read ++ owes c (c, h) g ->
  Forall (fun x => hdr_of_resp x.2 = x.1) wrote ->
  wg cn' = wg cn ->
  (locked g' = true -> locked g = true ∨ sending cn = None) ->
  sending cn' = (if locked g' then Some h else if locked g then None else sending cn) ->
  (closed cn' = closed cn ∧ g_pc g <> Tail ∨
   g_pc g' = Tail ∧ forall h1 g1, G !! (c, h1) = Some g1 -> h1 = h) ->
  books c cn' (<[(c, h) := g']> G).
Proof.
  intros [Hh Hw He Hl Hc] Hg Er Ew Hp Hf Ewg Hlk Es Hcl. split.
  - rewrite Er, Ew, fmap_app. eapply Permutation_balance; [done| |exact Hp].
    by apply collect_update.
  - by rewrite Ewg, Hw, (collect_update_same _ _ _ g).
  - rewrite Ew. by apply Forall_app.
  - intros h1. rewrite Es. destruct (decide (h1 = h)) as [->|Hne].
    + rewrite lookup_insert_eq. specialize (Hl h). destruct (locked g') eqn:Hg'.
      { split; [intros _; by exists g'|done]. }
      split; [|intros (? & [= <-] & ?); congruence].
      destruct (locked g) eqn:Hlg; [done|]. intros (g0 & ? & ?)%Hl. congruence.
    + rewrite lookup_insert_ne by congruence. rewrite <- Hl.
      destruct (locked g) eqn:Hlg.
      * assert (sending cn = Some h) as -> by (apply Hl; eauto).
        destruct (locked g'); naive_solver.
      * destruct (locked g') eqn:Hg'; [|done].
        destruct (Hlk eq_refl) as [?| ->]; naive_solver.
  - intros Ht h1 g1. rewrite lookup_insert. case_decide as Hd; intros Hg1; simplify_eq.
    + destruct Hcl as [[E Hn]|[? _]]; [|done]. exfalso. apply Hn. apply (Hc (eq_trans (eq_sym E) Ht) h1). done.
    + destruct Hcl as [[E Hn]|[? Honly]]; [|by destruct Hd; f_equal; symmetry; eapply Honly].
      eapply Hc; [congruence|done].
Qed.

(** A goroutine ends that owes nothing and does not hold the mutex. *)
Lemma books_delete c cn cn' G h g :
  books c cn G -> G !! (c, h) = Some g -> owes c (c, h) g = [] -> locked g = false ->
  headers cn' = headers cn -> responses cn' = responses cn -> sending cn' = sending cn ->
  closed cn' = closed cn ->
  wg cn' = wg cn - Z.of_nat (length (handler c (c, h) g)) ->
  books c cn' (delete (c, h) G).
Proof.
  intros [Hh Hw He Hl Hc] Hg Ho Hlk Er Ew Es Ecl Ewg. split.
  - rewrite Er, Ew, Hh. rewrite <- (collect_delete _ _ _ _ Hg), Ho. done.
  - rewrite Ewg, Hw. rewrite <- (collect_delete (handler c) _ _ _ Hg), length_app. lia.
  - by rewrite Ew.
  - intros h1. rewrite Es, Hl. split; intros (g0 & Hg0 & Hl0); exists g0; (split; [|done]).
    + apply lookup_delete_Some. split; [|done]. intros [= <-]. congruence.
    + by apply lookup_delete_Some in Hg0 as [_ ?].
  - intros Ht h1 g1 [_ Hg1]%lookup_delete_Some. eapply Hc; [congruence|done].
Qed.

(** A request is read and a goroutine starts for it. *)
Lemma books_spawn c cn cn' G h g hd :
  books c cn G -> G !! (c, h) = None -> h <> 0%nat -> closed cn = false ->
  owes c (c, h) g = [hd] -> locked g = false ->
  headers cn' = headers cn ++ [hd] -> responses cn' = responses cn -> sending cn' = sending cn ->
  closed cn' = closed cn -> wg cn' = wg cn + 1 ->
  books c cn' (<[(c, h) := g]> G).
Proof.
  intros [Hh Hw He Hl Hc] Hg Hh0 Hnc Ho Hlk Er Ew Es Ecl Ewg. split.
  - rewrite Er, Ew, Hh, collect_insert_new, Ho by done. solve_Permutation.
  - rewrite Ewg, Hw, collect_insert_new by done. unfold handler at 2.
    rewrite bool_decide_eq_true_2 by done. simpl. lia.
  - by rewrite Ew.
  - intros h1. rewrite Es, Hl, lookup_insert. case_decide as Hd; [|done]. simplify_eq.
    split; intros (g0 & ? & ?); congruence.
  - congruence.
Qed.

(** A connection without goroutines, other than a new reader. *)
Lemma books_new c cd G p :
  (forall h, G !! (c, h) = None) -> p = Loop ∨ p = Tail ->
  books c (mkConn cd None 0 false [] []) (<[(c, 0%nat) := R0 p]> G).
Proof.
  intros Hn Hp.
  assert (forall k g, G !! k = Some g -> k.1 <> c) as Hk
    by (intros [c1 h1] g Hg E; simpl in E; subst c1; by rewrite Hn in Hg).
  split; simpl; try done.
  - rewrite collect_insert_new, collect_nil by
      (done || (intros k g ?; unfold owes; by rewrite bool_decide_eq_false_2 by eauto)).
    unfold owes. simpl. case_bool_decide; [|done]. by destruct Hp as [->| ->].
  - rewrite collect_insert_new, collect_nil by
      (done || (intros k g ?; unfold handler; rewrite bool_decide_eq_false_2; naive_solver)).
    unfold handler. by rewrite bool_decide_eq_false_2 by naive_solver.
  - intros h. split; [done|]. intros (g & Hg & Hl). rewrite lookup_insert in Hg.
    case_decide; [|by rewrite Hn in Hg]. simplify_eq. by destruct Hp as [->| ->].
Qed.

(** After [Close] the connection has no goroutine but the reader at its end, so
    any other position shows that it is open. *)
Lemma books_open c cn G h g :
  books c cn G -> G !! (c, h) = Some g -> g_pc g <> Tail -> closed cn = false.
Proof.
  intros Hb Hg Hn. destruct (closed cn) eqn:Hc; [|done]. exfalso. by eapply Hn, b_closed.
Qed.

Lemma no_handlers c cn G h g :
  books c cn G -> wg cn = 0 -> G !! (c, h) = Some g -> h = 0%nat.
Proof.
  intros Hb Hw Hg. destruct (decide (h = 0%nat)) as [|Hh]; [done|exfalso].
  assert (tt ∈ collect (handler c) G) as Hin.
  { apply elem_of_collect. exists (c, h), g. split; [done|]. unfold handler.
    rewrite bool_decide_eq_true_2 by done. set_solver. }
  rewrite (b_wg _ _ _ Hb) in Hw. destruct (collect (handler c) G); [set_solver|]. simpl in Hw. lia.
Qed.

(** The cases of [books_update] for a goroutine at [Hpc] that moves to [Hpc'],
    with nothing read, nothing written, and an unchanged connection. *)
Ltac move_on Hg :=
  eapply (books_update _ _ _ _ _ _ _ [] []); [eassumption|exact Hg|..];
  unfold owes, locked in *; simpl in *; rewrite ?app_nil_r;
  repeat match goal with E : g_pc _ = _ |- _ => rewrite E in * end;
  repeat match goal with E : g_hdr _ = _ |- _ => rewrite E in * end;
  rewrite ?bool_decide_eq_true_2 by done; auto.

(** A response is written. *)
Lemma books_write c cn G h g q r w cd g' :
  books c cn G -> G !! (c, h) = Some g -> g_pc g = Writing q r -> g_pc g' = Unlock q r -> g_hdr g' = g_hdr g ->
  hdr_of_resp w = g_hdr g -> books c (log_response (set_codec cn cd) (g_hdr g) w) (<[(c, h) := g']> G).
Proof.
  intros Hbc Hg Hpc Hpc' Hhdr Hc.
  eapply (books_update _ _ _ _ _ _ _ [] [(g_hdr g, w)]); [exact Hbc|exact Hg|..];
    unfold owes, locked; simpl; rewrite ?app_nil_r, ?Hpc, ?Hpc'; auto.
  - by rewrite bool_decide_eq_true_2.
  - apply (b_lock _ _ _ Hbc). exists g. unfold locked. by rewrite Hpc.
Qed.

Lemma sstep_books σ σ' c0 cn0 :
  inv σ -> sstep σ σ' -> conns σ' !! c0 = Some cn0 -> books c0 cn0 (gs σ').
Proof.
  intros [Hrq Hrs Hsh Hb] Hst Hc0. destruct Hst; simpl in *;
    first [rewrite lookup_insert in Hc0; case_decide as Hcc; simplify_eq;
           [try pose proof (Hb _ _ Hcn) as Hbc|pose proof (Hb _ _ Hc0)]
          |destruct (decide (c = c0)) as [->|Hcc]; pose proof (Hb _ _ Hc0) as Hbc
          |pose proof (Hb _ _ Hc0)];
    auto using books_other_insert, books_other_delete; try (by move_on Hg).
  - (* accept *) apply books_new; [|done]. intros h. apply eq_None_not_Some. intros [g Hg].
    destruct (Hsh _ _ _ Hg) as [[? ?] _]. congruence.
  - (* a rejected request *)
    eapply (books_update _ _ _ _ _ _ _ [hdr_of_req v] []); [exact Hbc|exact Hg|done| |..];
      unfold owes, locked; simpl; rewrite ?app_nil_r, ?Hpc, ?Hpc', ?Hhdr; auto.
    by rewrite bool_decide_eq_true_2.
  - (* a request with its goroutine *)
    eapply (books_spawn _ (set_codec cn cd) _ _ _ _ (hdr_of_req v)); try done.
    + by move_on Hg.
    + rewrite lookup_insert_ne by congruence. done.
    + simpl. eapply books_open; [done|exact Hg|by rewrite Hpc].
    + unfold owes. by rewrite Hpc', Hhdr, bool_decide_eq_true_2.
    + unfold locked. by rewrite Hpc'.
  - (* close *)
    eapply (books_update _ _ _ _ _ _ _ [] []); [exact Hbc|exact Hg|..];
      unfold owes, locked; simpl; rewrite ?app_nil_r, ?Hpc; auto.
    right. split; [done|]. intros. by eapply no_handlers.
  - (* the reader ends *)
    eapply books_delete; [exact Hbc|exact Hg|..]; unfold owes, locked, handler; simpl;
      rewrite ?Hpc; try done; [by case_bool_decide|].
    rewrite bool_decide_eq_false_2 by naive_solver. simpl. lia.
  - (* a response is written *)
    destruct (held_value _ _ _ _ Hrs (c0, h) g r) as (w & Hw & Hc);
      [done|by unfold own_resp; rewrite Hpc|].
    unfold resp_content in Hc. rewrite Hpc in Hc. destruct Hc as [Hc _]. rewrite Hw. by eapply books_write.
  - (* the request is freed *) destruct Hg' as [[-> ->]|[Hh ->]]; by move_on Hg.
  - (* a goroutine ends *)
    eapply books_delete; [exact Hbc|exact Hg|..]; unfold owes, locked, handler; simpl;
      rewrite ?Hpc; try done; [by case_bool_decide|].
    rewrite bool_decide_eq_true_2; [simpl; lia|]. split; [done|].
    intros ->. destruct (Hsh _ _ _ Hg) as (_ & Hr & _). by rewrite Hpc in Hr; apply Hr.
Qed.

(** *** All of it, for every reachable state *)

Lemma inv_started s : reqs s = empty_pool -> resps s = empty_pool -> inv (started s).
Proof.
  intros E1 E2. split; simpl; rewrite ?E1, ?E2; try by intros *; rewrite lookup_empty.
  - apply held_empty, empty_pool_ok.
  - apply held_empty, empty_pool_ok.
Qed.

Lemma inv_step σ e σ' :
  server_ok (srv σ) -> inv σ -> step σ e = Some σ' -> server_ok (srv σ') ∧ inv σ'.
Proof.
  intros Hok Hi Hs. apply step_sstep in Hs as [Hs Hok']; [|done]. split; [done|].
  pose proof Hi as [Hrq Hrs Hsh Hb]. split.
  - by eapply sstep_req.
  - by eapply sstep_resp.
  - by eapply sstep_shape.
  - intros. by eapply sstep_books.
Qed.

#[local] Instance server_lts : LTS sys (sys_event (V := V)) := step.

Lemma reachable_inv s σ :
  server_ok s -> reqs s = empty_pool -> resps s = empty_pool ->
  reachable (started s) σ -> server_ok (srv σ) ∧ inv σ.
Proof.
  intros Hok E1 E2 Hr. refine (reachable_invariant (fun σ => server_ok (srv σ) ∧ inv σ) _ _ _ _ Hr).
  - split; [done|]. by apply inv_started.
  - intros σ1 e σ2 [? ?] Hs. by eapply inv_step.
Qed.
End safety.
