(* ===== verification/ServerProps.v ===== *)
(** * What the server promises

    The theorems on the goroutines of [server.go], for every interleaving of
    connections, readers and calls, every codec and every behaviour of the
    user's methods. *)
From S2P Require Import Prelude GoStd Utils Types FreeList Service Plugin Server ServerConn ServerSafety.

Section props.
Context {V W C : Type} `{UnicodeTables} `{ServerCodec V C}.
Context (ord : gmap string (Plugin V W) -> list (string * Plugin V W)).
Context (invalidRequest : V) (NewJsonServerCodec NewGobServerCodec : connid -> C).

Abbreviation sys := (@sys V W C).
Abbreviation step := (sys_step ord invalidRequest NewJsonServerCodec NewGobServerCodec).
#[local] Instance server_steps : LTS sys (sys_event (V := V)) := step.

(** A server as a program makes it: constructed, with any registrations. *)
Inductive prepared : Server V W -> Prop :=
| prepared_new Listen w conf s : newRpcServerWithOptions Listen w conf = Return s -> prepared s
| prepared_register s rcv alias useAlias s' err :
    prepared s -> register ord s rcv alias useAlias = Return (s', err) -> prepared s'.

Definition running (σ : sys) : Prop :=
  exists s s1, prepared s ∧ Start s = Return s1 ∧ reachable (started s1) σ.

Lemma prepared_ok s :
  prepared s -> server_ok s ∧ reqs s = empty_pool ∧ resps s = empty_pool ∧ serveWG s = 0 ∧ activeConn s = None.
Proof.
  induction 1 as [Listen w conf s Hn|s rcv alias useAlias s' err _ (IH & E1 & E2 & E3 & E4) Hr].
  - unfold newRpcServerWithOptions in Hn. simpl in Hn. destruct (Listen _); simplify_eq.
    by split_and!.
  - apply register_ok in Hr as [? E]; [|done]. split; [done|]. rewrite E. done.
Qed.

Lemma prepared_start s s1 :
  prepared s -> Start s = Return s1 ->
  server_ok s1 ∧ reqs s1 = empty_pool ∧ resps s1 = empty_pool ∧ serveWG s1 = 0 ∧ activeConn s1 = Some ∅.
Proof.
  intros (Hok & E1 & E2 & E3 & E4)%prepared_ok Hs. unfold Start in Hs. destruct (ok_ln _ Hok) as [addr Ha]. rewrite Ha, E4 in Hs.
  simplify_eq. split_and!; try done. by destruct Hok.
Qed.

Lemma running_inv σ : running σ -> server_ok (srv σ) ∧ inv σ.
Proof.
  intros (s & s1 & Hp & Hs & Hr). destruct (prepared_start s s1 Hp Hs) as (Hok & E1 & E2 & _). by eapply reachable_inv.
Qed.

(** C10: every response that a connection is given to write carries the service
    method and the sequence number of the request it answers; no request gets
    two responses, and none is answered that was not read.  When the connection
    is closed, every request that was read has been answered, exactly once. *)
Theorem responses_answer_requests σ c cn :
  running σ -> conns σ !! c = Some cn ->
  (forall h r, (h, r) ∈ responses cn -> hdr_of_resp r = h) ∧
  (exists unanswered, headers cn ≡ₚ (hdr_of_resp <$> (responses cn).*2) ++ unanswered) ∧
  (closed cn = true -> headers cn ≡ₚ (hdr_of_resp <$> (responses cn).*2)).
Proof.
  intros [_ Hi]%running_inv Hc. pose proof (inv_books _ Hi c cn Hc) as [Hh _ He _ Hcl].
  rewrite Forall_forall in He.
  assert ((hdr_of_resp <$> (responses cn).*2) = (responses cn).*1) as E.
  { rewrite <- list_fmap_compose. apply list_fmap_ext. intros i x Hx.
    simpl. apply He. by eapply list_elem_of_lookup_2. }
  split_and!.
  - intros h r Hin. by apply (He (h, r)).
  - exists (collect (owes c) (gs σ)). by rewrite E.
  - intros Hclosed. rewrite E, Hh, collect_nil, app_nil_r; [done|].
    intros [c1 h] g Hg. unfold owes. simpl. case_bool_decide; [subst|done].
    by rewrite (Hcl Hclosed h g Hg).
Qed.

(** C12: the goroutines of all the connections share the free lists safely: no
    two of them hold the same request object or the same response object, and
    on each connection at most one goroutine is between [sending.Lock] and
    [sending.Unlock]. *)
Theorem objects_have_one_owner σ c1 h1 g1 c2 h2 g2 :
  running σ -> gs σ !! (c1, h1) = Some g1 -> gs σ !! (c2, h2) = Some g2 -> (c1, h1) <> (c2, h2) ->
  (forall q, own_req g1 = Some q -> own_req g2 <> Some q) ∧
  (forall r, own_resp g1 = Some r -> own_resp g2 <> Some r) ∧
  (c1 = c2 -> locked g1 = true -> locked g2 = false).
Proof.
  intros [_ Hi]%running_inv H1 H2 Hne. split_and!.
  - intros q Hq1 Hq2. by apply Hne, (held_inj _ _ _ _ (inv_req _ Hi) _ _ g1 g2 q).
  - intros r Hq1 Hq2. by apply Hne, (held_inj _ _ _ _ (inv_resp _ Hi) _ _ g1 g2 r).
  - intros <- Hl1. destruct (locked g2) eqn:Hl2; [|done].
    destruct (inv_shape _ Hi _ _ _ H1) as [[cn Hc] _].
    pose proof (b_lock _ _ _ (inv_books _ Hi _ _ Hc)) as Hb.
    assert (sending cn = Some h1) by (apply Hb; eauto). assert (sending cn = Some h2) by (apply Hb; eauto).
    congruence.
Qed.

(** C23: a request object still holds the header that was read into it when its
    response is filled in, and the response object that a goroutine fills is
    clear: nothing of an earlier use of the two objects shows in a response. *)
Theorem response_is_fresh σ c h g q r :
  running σ -> gs σ !! (c, h) = Some g -> g_pc g = Fill q r ->
  exists req, heap (reqs (srv σ)) !! q = Some req ∧ hdr_of_req req = g_hdr g ∧
    heap (resps (srv σ)) !! r = Some RpcResponse0 ∧
    fill_response req RpcResponse0 (g_err g) = mkResponse (g_hdr g).1 (g_hdr g).2 (g_err g) None.
Proof.
  intros [_ Hi]%running_inv Hg Hpc.
  destruct (held_value _ _ _ _ (inv_req _ Hi) (c, h) g q) as (req & Hq & Hcq);
    [done|by unfold own_req; rewrite Hpc|].
  destruct (held_value _ _ _ _ (inv_resp _ Hi) (c, h) g r) as (resp & Hr & Hcr);
    [done|by unfold own_resp; rewrite Hpc|].
  unfold req_content in Hcq. unfold resp_content in Hcr. rewrite Hpc in Hcq, Hcr. subst resp.
  exists req. split_and!; try done. unfold fill_response. rewrite <- Hcq. simpl. f_equal.
  case_bool_decide as He; [done|]. by destruct (g_err g); [|destruct He].
Qed.

(** ** The accounts of the connections *)

(** Which connections [activeConn] holds and what [serveWG] counts: those whose
    [handleConn] has not ended. *)
Definition accounts (σ : sys) : Prop :=
  exists active, activeConn (srv σ) = Some active ∧
    (forall c, c ∈ active <-> is_Some (gs σ !! (c, 0%nat))) ∧
    serveWG (srv σ) = Z.of_nat (size active).

(** A step that neither starts nor ends a [handleConn]. *)
Lemma accounts_keep σ σ' :
  accounts σ -> activeConn (srv σ') = activeConn (srv σ) -> serveWG (srv σ') = serveWG (srv σ) ->
  (forall c, is_Some (gs σ' !! (c, 0%nat)) <-> is_Some (gs σ !! (c, 0%nat))) -> accounts σ'.
Proof.
  intros (a & Ha & Hc & Hw) E1 E2 E3. exists a. rewrite E1, E2. split_and!; try done.
  intros c. by rewrite E3.
Qed.

Lemma present_update (G : gmap (connid * nat) (@goroutine V)) k g g' :
  G !! k = Some g -> forall c, is_Some (<[k := g']> G !! (c, 0%nat)) <-> is_Some (G !! (c, 0%nat)).
Proof. intros Hk c. rewrite lookup_insert. case_decide; subst; [rewrite Hk|]; split; eauto. Qed.

Lemma present_other (G : gmap (connid * nat) (@goroutine V)) c0 h g :
  h <> 0%nat -> forall c, is_Some (<[(c0, h) := g]> G !! (c, 0%nat)) <-> is_Some (G !! (c, 0%nat)).
Proof. intros Hh c. by rewrite lookup_insert_ne by congruence. Qed.

Lemma present_delete (G : gmap (connid * nat) (@goroutine V)) c0 h :
  h <> 0%nat -> forall c, is_Some (delete (c0, h) G !! (c, 0%nat)) <-> is_Some (G !! (c, 0%nat)).
Proof. intros Hh c. by rewrite lookup_delete_ne by congruence. Qed.

Lemma accounts_accept σ c σ' :
  server_ok (srv σ) -> inv σ -> accounts σ ->
  accept ord invalidRequest NewJsonServerCodec NewGobServerCodec σ c = Some σ' -> accounts σ'.
Proof.
  intros Hok Hi (a & Ha & Hc & Hw) Hs. unfold accept in Hs.
  unfold spm_HandleConnAccept in Hs. rewrite (ok_spm _ Hok), dispatch_empty, Ha in Hs.
  destruct (conns σ !! c) eqn:Hcn; simplify_eq.
  assert (c ∉ a) as Hna.
  { intros [g Hg]%Hc. destruct (inv_shape _ Hi _ _ _ Hg) as [[? ?] _]. congruence. }
  exists ({[c]} ∪ a). simpl. split_and!; [done| |].
  - intros c1. rewrite elem_of_union, elem_of_singleton, Hc, lookup_insert.
    case_decide; simplify_eq; [by split; eauto|]. naive_solver.
  - rewrite Hw, size_union, size_singleton by set_solver. lia.
Qed.

Lemma accounts_finish σ c σ' :
  server_ok (srv σ) -> accounts σ -> is_Some (gs σ !! (c, 0%nat)) -> finish ord σ c = Some σ' -> accounts σ'.
Proof.
  intros Hok (a & Ha & Hc & Hw) Hg Hs. unfold finish in Hs. unfold spm_HandleConnClose in Hs. simpl in Hs.
  rewrite (ok_spm _ Hok), dispatch_empty, Ha in Hs. simplify_eq. exists (a ∖ {[c]}). simpl.
  apply Hc in Hg. split_and!; [done| |].
  - intros c1. rewrite elem_of_difference, elem_of_singleton, Hc, lookup_delete.
    case_decide; simplify_eq; [|naive_solver]. split; [naive_solver|]. by intros [? ?].
  - rewrite Hw, size_difference, size_singleton by set_solver.
    assert (size a <> 0%nat); [|lia]. intros E%size_empty_inv. set_solver.
Qed.

Lemma accounts_dispatch σ c cn h g (rr : requestResult V) σ' :
  accounts σ -> gs σ !! (c, 0%nat) = Some g ->
  dispatch_request invalidRequest σ c cn h rr = Some σ' -> accounts σ'.
Proof.
  intros Ha Hg Hs. unfold dispatch_request in Hs. split_matches_in Hs;
    apply (accounts_keep _ _ Ha); simpl; try done; try by eapply present_update.
  intros c1. rewrite present_other by naive_solver. by eapply present_update.
Qed.

Lemma accounts_reader σ c h σ' :
  server_ok (srv σ) -> accounts σ -> reader_step ord invalidRequest σ c h = Some σ' -> accounts σ'.
Proof.
  intros Hok Ha Hs. unfold reader_step in Hs.
  destruct (gs σ !! (c, 0%nat)) as [g|] eqn:Hg; [|done].
  destruct (conns σ !! c) as [cn|] eqn:Hcn; [|done].
  destruct (g_pc g) as [|q| | | | | | | | | | | |] eqn:Hpc; try done.
  - destruct (getRequest _) as [q P]. simplify_eq. apply (accounts_keep _ _ Ha); simpl; try done.
    by eapply present_update.
  - destruct (codec cn) as [cd|]; [|done].
    destruct (readRequest_effect ord (srv σ) cd q Hok) as (cd1 & rr & E & _). rewrite E in Hs.
    eapply accounts_dispatch; [| |exact Hs]; [by apply (accounts_keep _ _ Ha)|exact Hg].
  - case_bool_decide; simplify_eq. apply (accounts_keep _ _ Ha); simpl; try done. by eapply present_update.
  - by eapply accounts_finish.
Qed.

Lemma accounts_go σ c h σ' :
  server_ok (srv σ) -> inv σ -> accounts σ -> go_step ord invalidRequest σ c h = Some σ' -> accounts σ'.
Proof.
  intros Hok Hi Ha Hs. unfold go_step in Hs.
  destruct (gs σ !! (c, h)) as [g|] eqn:Hg; [|done].
  destruct (conns σ !! c) as [cn|] eqn:Hcn; [|done].
  assert (g_pc g = WgDone -> h <> 0%nat) as Hwg.
  { intros E ->. destruct (inv_shape _ Hi _ _ _ Hg) as (_ & Hr & _). rewrite E in Hr. by apply Hr. }
  destruct (g_pc g) eqn:Hpc; try done; split_matches_in Hs; simplify_eq;
    apply (accounts_keep _ _ Ha); simpl; try done; try by eapply present_update.
  apply present_delete. auto.
Qed.

Lemma accounts_step σ e σ' :
  server_ok (srv σ) -> inv σ -> accounts σ -> sys_step ord invalidRequest NewJsonServerCodec NewGobServerCodec σ e = Some σ' -> accounts σ'.
Proof.
  intros Hok Hi Ha Hs. destruct e as [rcv alias u|c1|c1 h|c1 h v e|c1 h]; simpl in Hs.
  - destruct (register _ _ _ _ _) as [[s2 err]|] eqn:Hreg; simplify_eq.
    apply register_ok in Hreg as [_ E]; [|done]. apply (accounts_keep _ _ Ha); simpl; try done; by rewrite E.
  - by eapply accounts_accept.
  - by eapply accounts_reader.
  - unfold method_returns in Hs. destruct (gs σ !! (c1, h)) as [g|] eqn:Hg; [|done]. destruct (g_pc g); simplify_eq.
    apply (accounts_keep _ _ Ha); simpl; try done. by eapply present_update.
  - by eapply accounts_go.
Qed.

Lemma accounts_started s s1 : prepared s -> Start s = Return s1 -> accounts (started s1).
Proof.
  intros Hp Hs. destruct (prepared_start s s1 Hp Hs) as (_ & _ & _ & E3 & E4). exists ∅. simpl. rewrite E3, E4.
  split_and!; [done| |done]. intros c1. rewrite lookup_empty. split; [set_solver|]. by intros [? ?].
Qed.

Lemma running_accounts σ : running σ -> accounts σ.
Proof.
  intros (s & s1 & Hp & Hs & Hr). pose proof (accounts_started s s1 Hp Hs) as Ha. revert Hr.
  apply (reachable_invariant_under (fun σ => server_ok (srv σ) ∧ inv σ)); [|done|].
  - intros σ1 Hr1. apply running_inv. by exists s, s1.
  - intros σ1 e σ2 [Hok2 Hi2] Ha2 Hs2. by eapply accounts_step.
Qed.

(** C21: at every moment [activeConn] holds exactly the connections whose
    [handleConn] has not ended, and [serveWG] counts them, so that [onStop],
    which waits for [serveWG], waits for exactly these; on each connection the
    wait group of [serveCodec] counts the requests that are being served, and
    [Close] of the codec is called when none is left.  Neither counter is ever
    negative. *)
Theorem wait_groups_count σ c cn :
  running σ -> conns σ !! c = Some cn ->
  (exists active, activeConn (srv σ) = Some active ∧
     (forall c, c ∈ active <-> is_Some (gs σ !! (c, 0%nat))) ∧ serveWG (srv σ) = Z.of_nat (size active)) ∧
  wg cn = Z.of_nat (length (collect (handler c) (gs σ))) ∧
  (closed cn = true -> forall h g, gs σ !! (c, h) = Some g -> h = 0%nat ∧ g_pc g = Tail).
Proof.
  intros Hrun Hc. pose proof (running_inv _ Hrun) as [_ Hi]. split_and!.
  - by apply running_accounts.
  - apply (b_wg _ _ _ (inv_books _ Hi _ _ Hc)).
  - intros Hcl h g Hg. pose proof (b_closed _ _ _ (inv_books _ Hi _ _ Hc) Hcl h g Hg) as Hpc.
    split; [|done]. destruct (decide (h = 0%nat)) as [|Hh]; [done|].
    destruct (inv_shape _ Hi _ _ _ Hg) as (_ & _ & Hk). rewrite Hpc in Hk. by destruct (Hk Hh).
Qed.

(** [onStop] passes its wait exactly when every [handleConn] has ended. *)
Theorem onStop_waits σ listeners :
  running σ -> is_Some (onStop listeners σ) <-> forall c, gs σ !! (c, 0%nat) = None.
Proof.
  intros Hrun. destruct (running_accounts _ Hrun) as (a & _ & Hc & Hw). unfold onStop. split.
  - intros [σ' Hs] c. case_bool_decide as E; [|done]. rewrite Hw in E. destruct (gs σ !! (c, 0%nat)) as [g|] eqn:Hg; [|done].
    assert (c ∈ a) as Hin by (apply Hc; by rewrite Hg). assert (size a = 0%nat) as E0 by lia. apply size_empty_inv in E0. set_solver.
  - intros Hn. rewrite bool_decide_eq_true_2; [by eexists|]. rewrite Hw. assert (a ≡ ∅) as ->; [|by rewrite size_empty].
    intros c. rewrite Hc, Hn. split; [by intros [? ?]|set_solver].
Qed.

(** ** Registration and the reading of one request *)

(** C17: [register] on every branch.  It panics exactly when the receiver is nil
    or a nil pointer, whatever the alias.  Otherwise it fails, and changes
    nothing, with the first of: no name, an unexported type name without an
    alias, the fault of the first exported method that is not suitable (the
    number of its parameters, its argument's type, its reply not a pointer, its
    reply's type, its results, in this order), a name that is taken.  Otherwise
    it stores the service under the name it was given, and nothing else of the
    server changes; the service has exactly the exported methods of the
    receiver, all of them suitable, each with the types of its own second and
    third parameter and no calls counted. *)
Theorem register_spec s rcv alias useAlias :
  prepared s ->
  match register ord s rcv alias useAlias with
  | Panic _ => rcv_Indirect rcv = None
  | Return (s', err) => exists typeName, rcv_Indirect rcv = Some typeName ∧
      let sName := if (useAlias : bool) then alias else typeName in
      match err with
      | Some e => s' = s ∧
          ((sName = "" ∧ e = ErrInvalidServiceName) ∨
           (sName <> "" ∧ useAlias = false ∧ isExported sName = false ∧ e = ErrMethodMustBeExported) ∨
           (sName <> "" ∧ (useAlias = true ∨ isExported sName = true) ∧ first_fault (rcv_typ rcv) e) ∨
           (sName <> "" ∧ (useAlias = true ∨ isExported sName = true) ∧
            (forall m, m ∈ rcv_typ rcv -> m_PkgPath m = "" -> suitable m) ∧
            is_Some (serviceMap s !! sName) ∧ e = ErrServiceAlreadyDefinedInServer))
      | None =>
          sName <> "" ∧ serviceMap s !! sName = None ∧ (useAlias = true ∨ isExported sName = true) ∧
          (forall m, m ∈ rcv_typ rcv -> m_PkgPath m = "" -> suitable m) ∧
          exists svc, s' = set_services s (<[sName := svc]> (serviceMap s)) ∧
            name svc = Str.Trim sName ∧ receiverTyp svc = typeName ∧
            forall mn me, methods svc !! mn = Some me <->
              exists m recv arg reply, m ∈ rcv_typ rcv ∧ m_PkgPath m = "" ∧ m_Name m = mn ∧
                m_In m = [recv; arg; reply] ∧ me = mkMethod m arg reply 0
      end
  end.
Proof.
  intros [Hok _]%prepared_ok. pose proof (rcv_names rcv) as Hnd.
  destruct (rcv_Indirect rcv) as [tn|] eqn:Hi; [|by unfold register; rewrite Hi].
  destruct (register_cases ord s rcv tn alias useAlias Hok Hi) as [(Hr & Hn & Hx & Hf & Hs)|(e & Hr & Hwhy)]; rewrite Hr; exists tn.
  - pose proof (proj1 (first_error_iff _) Hf) as Hsuit. split; [done|]. split_and!; [done..|].
    eexists. split_and!; [done..|]. intros mn me. simpl. rewrite accepted_lookup by done. setoid_rewrite checkMethod_inl.
    split; [intros (m & ? & ? & ? & _ & r & a & p & ? & ?); by exists m, r, a, p|].
    intros (m & r & a & p & ? & Hp & ? & ? & ?). exists m. split_and!; [done..|by apply Hsuit|by exists r, a, p].
  - split; [done|]. split; [done|]. rewrite first_error_iff in Hwhy. naive_solver eauto using first_error_fault.
Qed.

(** The split of a header is the split at the last dot. *)
Lemma split_app sn mn :
  Str.has "."%char mn = false -> splitServiceMethod (sn +:+ String "."%char mn) = Some (sn, mn).
Proof.
  intros Hmn. unfold splitServiceMethod. rewrite Str.LastIndex_app by done.
  rewrite bool_decide_eq_false_2 by lia. rewrite Nat2Z.id, Str.take_app.
  replace (Z.to_nat (Z.of_nat (String.length sn) + 1)) with (String.length sn + 1)%nat by lia.
  by rewrite Str.drop_app.
Qed.

Lemma split_dot sm : is_Some (splitServiceMethod sm) <-> Str.has "."%char sm = true.
Proof.
  unfold splitServiceMethod. destruct (Str.LastIndex_spec "."%char sm) as [[Hl Hn]|(p & t & -> & Hn & Hl)].
  - rewrite Hl, Hn. simpl. split; [by intros [? ?]|done].
  - rewrite Hl, Str.has_app, bool_decide_eq_false_2 by lia. simpl. rewrite orb_true_r. by split; eauto.
Qed.

(** C16: a request for [sn.mn], where [mn] has no dot and [sn] may have some, is
    dispatched to method [mn] of the service stored under [sn]: the header is
    split at its last dot.  An unknown service or method, or a name without a
    dot, is an error that keeps the connection; a header that cannot be read
    gives it up, and says why only at the end of the stream. *)
Theorem header_dispatch σ cd q cd1 r1 err :
  running σ ->
  ReadRequestHeader cd (default RpcRequest0 (heap (reqs (srv σ)) !! q)) = (cd1, r1, err) ->
  exists h, readRequestHeader ord (srv σ) cd q
              = Return (set_reqs (srv σ) (store (reqs (srv σ)) q r1), cd1, h) ∧
    match err with
    | Some e => hr_req h = None ∧ hr_keepReading h = false ∧
                hr_err h = Some (if is_eof e then e else ErrServerCanNotDecodeRequest)
    | None =>
        hr_req h = Some q ∧ hr_keepReading h = true ∧
        (Str.has "."%char (req_ServiceMethod r1) = false ->
           hr_err h = Some (ErrNew ("service/method request invalid: " +:+ req_ServiceMethod r1))) ∧
        (forall sn mn, req_ServiceMethod r1 = sn +:+ String "."%char mn -> Str.has "."%char mn = false ->
           match serviceMap (srv σ) !! sn with
           | None => hr_err h = Some (ErrNew ("can't find service " +:+ req_ServiceMethod r1))
           | Some svc =>
               match methods svc !! mn with
               | None => hr_err h = Some (ErrNew ("can't find method " +:+ req_ServiceMethod r1))
               | Some m => hr_err h = None ∧ hr_svc h = Some sn ∧ hr_method h = Some (mn, m)
               end
           end)
    end.
Proof.
  intros [Hok _]%running_inv Hread. unfold readRequestHeader. rewrite Hread.
  destruct err as [e|]; [by eexists|]. simpl.
  destruct (splitServiceMethod (req_ServiceMethod r1)) as [[sn mn]|] eqn:Hsp.
  - assert (Str.has "."%char (req_ServiceMethod r1) = true) as Hdot by by apply split_dot; rewrite Hsp.
    assert (forall sn' mn', req_ServiceMethod r1 = sn' +:+ String "."%char mn' ->
      Str.has "."%char mn' = false -> sn' = sn ∧ mn' = mn) as Huniq.
    { intros sn' mn' E Hmn. rewrite E, split_app in Hsp by done. by simplify_eq. }
    destruct (serviceMap (srv σ) !! sn) as [svc|] eqn:Hs; [destruct (methods svc !! mn) as [m|] eqn:Hm|].
    1: unfold spm_PreReadRequest; rewrite (ok_spm _ Hok), dispatch_empty, store_store.
    all: eexists; split_and!; [reflexivity|done|done|by rewrite Hdot|].
    all: intros sn' mn' E Hmn; destruct (Huniq _ _ E Hmn) as [-> ->]; by rewrite Hs, ?Hm.
  - eexists. split_and!; [done..|]. intros sn mn E Hmn. by rewrite E, split_app in Hsp.
Qed.

(** C24: the reading loop of a connection never panics and never blocks on the
    server: in every state [readRequest] returns, having changed nothing but
    the request object it got; if it returns no error it has found a method,
    decoded an argument and made a reply; if it returns an error, the loop
    either gives up the connection or has the request to send the error to. *)
Theorem readRequest_total σ cd q :
  running σ ->
  exists r1 cd1 rr, readRequest ord (srv σ) cd q = Return (set_reqs (srv σ) (store (reqs (srv σ)) q r1), cd1, rr) ∧
    match hr_err (rr_header rr) with
    | None => hr_req (rr_header rr) = Some q ∧ is_Some (rr_argv rr) ∧ is_Some (rr_reply rr) ∧
        exists sn svc mn m, hr_svc (rr_header rr) = Some sn ∧ hr_method (rr_header rr) = Some (mn, m) ∧
          serviceMap (srv σ) !! sn = Some svc ∧ methods svc !! mn = Some m
    | Some _ => hr_req (rr_header rr) = (if hr_keepReading (rr_header rr) then Some q else None)
    end.
Proof.
  intros [Hok _]%running_inv.
  destruct (readRequest_effect ord (srv σ) cd q Hok) as (cd1 & rr & Hr & Hh & Ha).
  eexists _, cd1, rr. split; [exact Hr|]. destruct Hh as [(-> & -> & [e He])|(-> & -> & Hm)].
  - by rewrite He.
  - destruct (hr_err (rr_header rr)); [done|]. destruct (Ha eq_refl). split_and!; try done. by apply Hm.
Qed.

(** There is one server per process: the first [NewServer] that can listen
    makes it, and every later [NewServer], whatever its configuration, and
    [GetServer] return it.  If the first one cannot listen it panics, and from
    then on there is no server: [NewServer] returns nil. *)
Theorem NewServer_singleton Listen (w : W) conf :
  let '(g, r) := NewServer Listen w (mkGlobals false None) conf in
  match Listen (":" +:+ Itoa (cfg_Port conf)) with
  | inl addr => exists s, r = Return (Some s) ∧ serverConfig s = conf ∧ ln s = Some addr ∧
      GetServer g = Some s ∧
      forall Listen' w' conf', NewServer Listen' w' g conf' = (g, Return (Some s))
  | inr err => (exists why, r = Panic why) ∧ GetServer g = (None : option (Server V W)) ∧
      forall Listen' w' conf', NewServer Listen' w' g conf' = (g, Return None)
  end.
Proof.
  unfold NewServer, newRpcServerWithOptions, MainPort. simpl.
  destruct (Listen _) as [addr|err]; simpl; [|by eauto]. eexists. by split_and!.
Qed.
End props.
