(* ===== verification/ServerProgress.v ===== *)
(** * The server answers

    From every state of a running server the goroutines that serve requests come to
    their end under every schedule, with every request that was read answered:
    nobody waits for ever for a [sending] mutex, and a wait group reaches zero. *)
From S2P Require Import Prelude GoStd Utils Types FreeList Service Plugin Server ServerConn ServerSafety ServerProps.

(** How far a goroutine is from its end.  Writing a response leaves room for the
    two messages that it sends. *)
Definition go_cost (p : pc) : nat :=
  match p with
  | Enter _ => 18 | Calling _ => 17 | GetResp _ => 16 | Fill _ _ => 15 | Lock _ _ => 14 | Writing _ _ => 13
  | Unlock _ _ => 4 | FreeResp _ _ => 3 | FreeReq _ => 2 | WgDone | Loop => 1
  | Reading _ | Waiting | Tail => 0
  end.
Definition write_cost (p : pc) : nat := match p with Writing _ _ => 8 | _ => 0 end.

(** A goroutine that serves a request. *)
Definition serving_pc (p : pc) : bool :=
  match p with Loop | Reading _ | Waiting | Tail => false | _ => true end.

Section progress.
Context {V W C : Type} `{UnicodeTables} `{ServerCodec V C}.
Context (ord : gmap string (Plugin V W) -> list (string * Plugin V W)).
Context (invalidRequest : V) (NewJsonServerCodec NewGobServerCodec : connid -> C).

Abbreviation sys := (@sys V W C).
Abbreviation goroutine := (@goroutine V).
Abbreviation step := (sys_step ord invalidRequest NewJsonServerCodec NewGobServerCodec).
Abbreviation running := (running ord invalidRequest NewJsonServerCodec NewGobServerCodec).
#[local] Instance progress_sys : LTS sys (sys_event (V := V)) := step.
Implicit Types (σ : sys) (g : goroutine) (cn : @conn C) (c : connid) (h : nat).

(** What a goroutine that serves a request does next; [returns c h] is what the
    method returns that goroutine [h] of connection [c] runs. *)
Definition serving_event (returns : connid -> nat -> V * option error) (e : sys_event (V := V)) : Prop :=
  match e with
  | EvGo _ _ => True
  | EvReturn c h reply err => (reply, err) = returns c h
  | _ => False
  end.

Definition event_of (returns : connid -> nat -> V * option error) c h g : sys_event (V := V) :=
  match g_pc g with Calling _ => EvReturn c h (returns c h).1 (returns c h).2 | _ => EvGo c h end.

Lemma event_of_serving returns c h g : serving_event returns (event_of returns c h g).
Proof. unfold event_of. destruct (g_pc g); simpl; try done. by destruct (returns c h). Qed.

(** A step that brings it nearer to its end. *)
Definition advances σ c h g cn σ' : Prop :=
  (exists cn', conns σ' = <[c := cn']> (conns σ) ∧ headers cn' = headers cn) ∧
  ((exists g', gs σ' = <[(c, h) := g']> (gs σ) ∧ (go_cost (g_pc g') + write_cost (g_pc g) < go_cost (g_pc g))%nat) ∨
   (gs σ' = delete (c, h) (gs σ) ∧ g_pc g = WgDone)).

(** Every step of a goroutine that serves a request is one. *)
Definition event_on (e : sys_event (V := V)) c h : Prop :=
  match e with EvGo c1 h1 | EvReturn c1 h1 _ _ => c1 = c ∧ h1 = h | _ => False end.

Lemma step_advances σ e c h g cn σ' :
  server_ok (srv σ) -> gs σ !! (c, h) = Some g -> conns σ !! c = Some cn -> event_on e c h -> step σ e = Some σ' ->
  advances σ c h g cn σ'.
Proof.
  intros Hok Hg Hc He Hs. assert (conns σ = <[c := cn]> (conns σ)) as Eid by (symmetry; by apply insert_id).
  unfold advances. destruct e as [| | |c1 h1 v err|c1 h1]; try done; destruct He as [-> ->]; simpl in Hs;
    unfold method_returns, go_step, spm_PreWriteResponse, spm_PostWriteResponse in Hs; rewrite Hg, ?Hc in Hs;
    destruct (g_pc g) as [| |q|q|q|q r|q r|q r|q r|q r|q| | |] eqn:Hpc; try done; rewrite ?(ok_spm _ Hok), ?dispatch_empty in Hs;
    repeat case_match; simplify_eq; (split; [eexists; split; [first [exact Eid|reflexivity]|done]|]); first [by right|left];
    eexists; (split; [reflexivity|]); simpl; lia.
Qed.

Lemma event_on_serving σ e c h g σ' :
  gs σ !! (c, h) = Some g -> event_on e c h -> step σ e = Some σ' -> serving_pc (g_pc g) = true.
Proof.
  intros Hg He Hs. destruct e as [| | |c1 h1 v err|c1 h1]; try done; destruct He as [-> ->]; simpl in Hs; unfold method_returns, go_step in Hs;
    rewrite Hg in Hs; try destruct (conns σ !! c); by destruct (g_pc g).
Qed.

(** It can take one, unless it has to wait for the [sending] mutex. *)
Lemma goroutine_moves returns σ c h g cn :
  server_ok (srv σ) -> gs σ !! (c, h) = Some g -> conns σ !! c = Some cn -> is_Some (codec cn) -> serving_pc (g_pc g) = true ->
  (sending cn = None ∨ locked g = true) -> is_Some (step σ (event_of returns c h g)).
Proof.
  intros Hok Hg Hc [cd Hcd] Hp Hm. unfold locked in Hm. unfold event_of.
  destruct (g_pc g) as [| |q|q|q|q r|q r|q r|q r|q r|q| | |] eqn:Hpc; try done; simpl;
    unfold method_returns, go_step, spm_PreWriteResponse, spm_PostWriteResponse; rewrite Hg, ?Hc, Hpc, ?Hcd, ?(ok_spm _ Hok), ?dispatch_empty;
    try done.
  - by destruct (getResponse (resps (srv σ))) as [r P].
  - by destruct Hm as [->|?].
  - by destruct (WriteResponse _ _ _).
Qed.

(** ** Every connection that is served has a codec *)
Definition coded σ : Prop :=
  forall c cn, conns σ !! c = Some cn -> codec cn = None -> forall h g, gs σ !! (c, h) = Some g -> g_pc g = Tail.

Lemma coded_keep σ σ' :
  coded σ ->
  (forall c cn', conns σ' !! c = Some cn' -> codec cn' = None -> exists cn, conns σ !! c = Some cn ∧ codec cn = None) ->
  (forall c h g', gs σ' !! (c, h) = Some g' -> g_pc g' = Tail ∨ exists h0 g0, gs σ !! (c, h0) = Some g0 ∧ g_pc g0 <> Tail) ->
  coded σ'.
Proof.
  intros Hco Hc Hg c cn' Hcn Hn h g' Hg'. destruct (Hc c cn' Hcn Hn) as (cn & Hcn0 & Hn0).
  destruct (Hg c h g' Hg') as [?|(h0 & g0 & Hg0 & Hne)]; [done|]. by destruct Hne; eapply Hco.
Qed.

(** A goroutine of connection [c] that is not at its end moves. *)
Lemma coded_move σ σ' c h0 g0 cn :
  coded σ -> conns σ !! c = Some cn -> gs σ !! (c, h0) = Some g0 -> g_pc g0 <> Tail ->
  (conns σ' = conns σ ∨ exists cn', conns σ' = <[c := cn']> (conns σ) ∧ (codec cn' = None -> codec cn = None)) ->
  (forall c1 h g', gs σ' !! (c1, h) = Some g' -> c1 = c ∨ gs σ !! (c1, h) = Some g') -> coded σ'.
Proof.
  intros Hco Hc Hg Hne Ec Eg. apply (coded_keep σ σ' Hco).
  - intros c1 cn1 Hc1 Hn. destruct Ec as [Ec|(cn' & Ec & Hcn')]; rewrite Ec in Hc1; [eauto|].
    rewrite lookup_insert in Hc1. case_decide; [|eauto]. simplify_eq. eauto.
  - intros c1 h g' Hg'. destruct (Eg c1 h g' Hg') as [->|Hg1]; [eauto|]. destruct (decide (g_pc g' = Tail)); eauto.
Qed.

Ltac same_conn :=
  let c1 := fresh in let h1 := fresh in let g1 := fresh in
  intros c1 h1 g1; simpl; rewrite ?lookup_insert, ?lookup_delete; repeat case_decide; simplify_eq; auto.

Lemma coded_reader σ c h σ' : server_ok (srv σ) -> coded σ -> reader_step ord invalidRequest σ c h = Some σ' -> coded σ'.
Proof.
  intros Hok Hco Hs. unfold reader_step in Hs. destruct (gs σ !! (c, 0%nat)) as [g|] eqn:Hg; [|done].
  destruct (conns σ !! c) as [cn|] eqn:Hc; [|done]. destruct (g_pc g) as [|q| | | | | | | | | | | |] eqn:Hpc; try done.
  - destruct (getRequest _) as [q P]. simplify_eq. eapply (coded_move σ _ c 0 g cn); [done..|by rewrite Hpc|by left|]. same_conn.
  - destruct (codec cn) as [cd|] eqn:Hcd; [|done].
    destruct (readRequest_effect ord (srv σ) cd q Hok) as (cd1 & rr & Hrr & _). rewrite Hrr in Hs. clear Hrr.
    unfold dispatch_request in Hs. repeat case_match; simplify_eq;
      (eapply (coded_move σ _ c 0 g cn); [done..|by rewrite Hpc|right; eexists; split; [reflexivity|done]|]; same_conn).
  - case_bool_decide; simplify_eq. eapply (coded_move σ _ c 0 g cn); [done..|by rewrite Hpc| |].
    + right. eexists. split; [reflexivity|]. simpl. by destruct (codec cn).
    + same_conn.
  - unfold finish in Hs. destruct (spm_HandleConnClose _ _ _) as [[? ?]|]; simplify_eq. apply (coded_keep σ _ Hco); simpl; [eauto|].
    intros c1 h1 g1. rewrite lookup_delete. case_decide; [done|]. intros Hg1. destruct (decide (g_pc g1 = Tail)); eauto.
Qed.

Lemma coded_go σ c h σ' : coded σ -> go_step ord invalidRequest σ c h = Some σ' -> coded σ'.
Proof.
  intros Hco Hs. unfold go_step in Hs. destruct (gs σ !! (c, h)) as [g|] eqn:Hg; [|done].
  destruct (conns σ !! c) as [cn|] eqn:Hc; [|done].
  assert (g_pc g <> Tail) as Hne by (intros E; by rewrite E in Hs).
  destruct (g_pc g) eqn:Hpc; try done; repeat case_match; simplify_eq;
    (eapply (coded_move σ _ c h g cn); [done..|by rewrite Hpc| |]; [|same_conn]);
    first [by left|right; eexists; split; [reflexivity|done]].
Qed.

Lemma running_coded σ : running σ -> coded σ.
Proof.
  intros (s & s1 & Hp & Hs & Hr).
  assert (forall σ1, reachable (started s1) σ1 -> server_ok (srv σ1) ∧ inv σ1) as Hinv.
  { intros σ1 Hr1. apply (running_inv ord invalidRequest NewJsonServerCodec NewGobServerCodec). by exists s, s1. }
  revert Hr. apply (reachable_invariant_under (fun σ => server_ok (srv σ) ∧ inv σ)); [exact Hinv|..].
  - intros c cn. simpl. by rewrite lookup_empty.
  - intros σ1 e σ2 [Hok Hi] Hco Hs2. change (step σ1 e = Some σ2) in Hs2.
    destruct e as [rcv alias u|c|c h|c h v e|c h]; simpl in Hs2.
    + destruct (register _ _ _ _ _) as [[s2 err]|]; by simplify_eq.
    + unfold accept in Hs2. destruct (spm_HandleConnAccept _ _ _) as [[c1 [err|]]|]; [by simplify_eq| |done].
      destruct (activeConn (srv σ1)) as [active|]; [|done]. destruct (conns σ1 !! c1) eqn:Hc1; [done|]. simplify_eq.
      assert (forall h g, gs σ1 !! (c1, h) <> Some g) as Hno.
      { intros h1 g1 Hg1. destruct (inv_shape _ Hi _ _ _ Hg1) as [[? ?] _]. congruence. }
      intros c2 cn2 Hc2 Hn h1 g1 Hg1. simpl in *. rewrite lookup_insert in Hc2. rewrite lookup_insert in Hg1. repeat case_decide; simplify_eq.
      * simpl in *. by rewrite Hn.
      * by destruct (Hno h1 g1).
      * eauto.
    + by eapply coded_reader.
    + unfold method_returns in Hs2. destruct (gs σ1 !! (c, h)) as [g|] eqn:Hg; [|done]. destruct (g_pc g) eqn:Hpc; simplify_eq.
      destruct (inv_shape _ Hi _ _ _ Hg) as [[cn Hc] _]. eapply (coded_move σ1 _ c h g cn); [done..|by rewrite Hpc|by left|]. same_conn.
    + by eapply coded_go.
Qed.

(** ** The requests that are being served *)
Definition load σ : nat := total (fun _ g => go_cost (g_pc g)) (gs σ).

Lemma advances_load σ c h g cn σ' : gs σ !! (c, h) = Some g -> advances σ c h g cn σ' -> (load σ' < load σ)%nat.
Proof.
  intros Hg (_ & [(g' & E & Hlt)|(E & Hpc)]); unfold load; rewrite E.
  - pose proof (total_update (fun _ g => go_cost (g_pc g)) _ _ _ g' Hg). simpl in *. lia.
  - pose proof (total_delete (fun _ g => go_cost (g_pc g)) _ _ _ Hg) as Ht. simpl in Ht. rewrite Hpc in Ht. simpl in Ht. lia.
Qed.

(** No goroutine is serving a request. *)
Definition at_rest σ : Prop := forall c h g, gs σ !! (c, h) = Some g -> serving_pc (g_pc g) = false.

Lemma running_step σ e σ' : running σ -> step σ e = Some σ' -> running σ'.
Proof. intros (s & s1 & ? & ? & ?) Hs. exists s, s1. split_and!; [done..|]. by eapply reachable_step. Qed.

Lemma server_moves returns σ : running σ -> (exists e, serving_event returns e ∧ is_Some (step σ e)) ∨ at_rest σ.
Proof.
  intros Hr. destruct (running_inv _ _ _ _ _ Hr) as [Hok Hi]. pose proof (running_coded σ Hr) as Hco.
  destruct (map_choose_or_empty (filter (fun kg => serving_pc (g_pc kg.2) = true) (gs σ))) as [([c h] & g & Hf)|Hf].
  - left. apply map_lookup_filter_Some in Hf as [Hg Hp]. simpl in Hp. destruct (inv_shape _ Hi _ _ _ Hg) as [[cn Hc] _].
    assert (is_Some (codec cn)) as Hcd.
    { destruct (codec cn) as [cd|] eqn:Hcd; [by eexists|]. rewrite (Hco _ _ Hc Hcd _ _ Hg) in Hp. done. }
    destruct (sending cn) as [h1|] eqn:Hsend.
    + destruct (proj1 (b_lock _ _ _ (inv_books _ Hi _ _ Hc) h1) Hsend) as (g1 & Hg1 & Hl1).
      exists (event_of returns c h1 g1). split; [apply event_of_serving|].
      eapply goroutine_moves; [done..| |by right]. unfold locked in Hl1. by destruct (g_pc g1).
    + exists (event_of returns c h g). split; [apply event_of_serving|]. eapply goroutine_moves; [done..|by left].
  - right. intros c h g Hg. destruct (serving_pc (g_pc g)) eqn:Hp; [|done].
    assert (filter (fun kg : connid * nat * goroutine => serving_pc (g_pc kg.2) = true) (gs σ) !! (c, h) = Some g) as E
      by (by apply map_lookup_filter_Some). by rewrite Hf in E.
Qed.

(** Each of their steps lowers the load and reads nothing. *)
Definition read_so_far σ0 σ : Prop :=
  forall c cn, conns σ0 !! c = Some cn -> exists cn', conns σ !! c = Some cn' ∧ headers cn' = headers cn.

Lemma serving_step_goroutine returns σ e σ' :
  inv σ -> serving_event returns e -> step σ e = Some σ' ->
  exists c h g cn, event_on e c h ∧ gs σ !! (c, h) = Some g ∧ conns σ !! c = Some cn.
Proof.
  intros Hi He Hs. destruct e as [| | |c h v err|c h]; try done; simpl in Hs; exists c, h.
  - unfold method_returns in Hs. destruct (gs σ !! (c, h)) as [g|] eqn:Hg; [|done].
    destruct (inv_shape _ Hi _ _ _ Hg) as [[cn Hc] _]. by exists g, cn.
  - unfold go_step in Hs. destruct (gs σ !! (c, h)) as [g|] eqn:Hg; [|done]. destruct (conns σ !! c) as [cn|] eqn:Hc; [|done]. by exists g, cn.
Qed.

Lemma serving_step_lowers returns σ0 σ e σ' :
  running σ ∧ read_so_far σ0 σ -> serving_event returns e -> step σ e = Some σ' ->
  (running σ' ∧ read_so_far σ0 σ') ∧ (load σ' < load σ)%nat.
Proof.
  intros [Hr Hk] He Hs. destruct (running_inv _ _ _ _ _ Hr) as [Hok Hi].
  destruct (serving_step_goroutine _ _ _ _ Hi He Hs) as (c & h & g & cn & Hon & Hg & Hc).
  pose proof (step_advances _ _ _ _ _ _ _ Hok Hg Hc Hon Hs) as Hadv.
  split_and!; [by eapply running_step| |by eapply advances_load].
  destruct Hadv as [(cn' & E & Eh) _]. intros c1 cn1 Hc1. destruct (Hk c1 cn1 Hc1) as (cn2 & Hc2 & E2). rewrite E, lookup_insert.
  case_decide; [subst c1|by exists cn2]. exists cn'. split; [done|]. congruence.
Qed.

(** A server at rest has answered what it has read. *)
Definition served σ σ' : Prop :=
  at_rest σ' ∧ forall c cn, conns σ !! c = Some cn -> exists cn', conns σ' !! c = Some cn' ∧
    headers cn ≡ₚ hdr_of_resp <$> (responses cn').*2 ∧ wg cn' = 0 ∧ sending cn' = None.

Lemma rest_served σ σ' : running σ' ∧ read_so_far σ σ' -> at_rest σ' -> served σ σ'.
Proof.
  intros [Hr' Hk] Hrest. split; [done|]. intros c cn Hc. destruct (Hk c cn Hc) as (cn' & Hc' & Eh). exists cn'. split; [done|].
  rewrite <- Eh. destruct (running_inv _ _ _ _ _ Hr') as [_ Hi]. destruct (inv_books _ Hi _ _ Hc') as [Hb Hw He Hl _].
  split_and!.
  - rewrite Hb, (collect_nil (owes c)), app_nil_r.
    + rewrite <- list_fmap_compose. erewrite list_fmap_ext; [done|]. intros i x Hx. simpl. symmetry.
      rewrite Forall_forall in He. by apply He, (list_elem_of_lookup_2 _ i).
    + intros [c1 h] g Hg. apply Hrest in Hg. unfold owes. case_bool_decide; [|done]. by destruct (g_pc g).
  - rewrite Hw, (collect_nil (handler c)); [done|]. intros [c1 h] g Hg. unfold handler. case_bool_decide as E; [|done].
    destruct E as [E1 E2]. simpl in E1, E2. destruct (inv_shape _ Hi _ _ _ Hg) as (_ & _ & Hh). apply Hrest in Hg.
    specialize (Hh E2). by destruct (g_pc g).
  - destruct (sending cn') as [h|] eqn:Hs; [|done]. destruct (proj1 (Hl h) eq_refl) as (g & Hg & Hlk). apply Hrest in Hg.
    unfold locked in Hlk. by destruct (g_pc g).
Qed.

(** C14: a server answers what it has read, under every schedule.  From each state
    of a running server, whatever codec its connections have and whatever the
    methods return, the goroutines that serve requests take at most [load] steps in
    any order, and as long as one of them is left some of them can go on.  When none
    is left, exactly the requests that were read have been answered on every
    connection, each once, the wait group is at zero, so that [serveCodec] can
    return, and nobody holds the [sending] mutex; and there is a run to that point. *)
Theorem server_answers (returns : connid -> nat -> V * option error) σ :
  running σ ->
  (exists es σ', Forall (serving_event returns) es ∧ lts_run σ es = Some σ' ∧ served σ σ') ∧
  forall es σ', Forall (serving_event returns) es -> lts_run σ es = Some σ' ->
    (length es <= load σ)%nat ∧ ((exists e, serving_event returns e ∧ is_Some (step σ' e)) ∨ served σ σ').
Proof.
  intros Hr. assert (running σ ∧ read_so_far σ σ) as Hi by (split; [done|intros c cn Hc; by exists cn]). split.
  - destruct (lts_comes_to (fun σ1 => running σ1 ∧ read_so_far σ σ1) at_rest (serving_event returns) load
      (serving_step_lowers returns σ)) with (s := σ) as (es & σ' & ? & ? & ? & ?); [|done|].
    + intros σ1 [Hr1 _]. by apply server_moves.
    + exists es, σ'. split_and!; [done..|]. by apply rest_served.
  - intros es σ' Hes Hrun.
    destruct (lts_terminates (fun σ1 => running σ1 ∧ read_so_far σ σ1) (serving_event returns) load
      (serving_step_lowers returns σ) es σ σ') as [Hi' Hb]; [done..|]. split; [lia|].
    destruct (server_moves returns σ' (proj1 Hi')); [by left|right; by apply rest_served].
Qed.
End progress.
