(* ===== verification/ServerTypes.v ===== *)
(** * server.go, service.go: the types of a call

    [Service.call] hands the argument and the reply to [reflect.Value.Call], which
    panics when a value cannot be assigned to its parameter or when their number
    is wrong.  For every goroutine that is about to call a method, they fit. *)
From S2P Require Import Prelude GoStd Utils Types FreeList Service Plugin Server ServerConn ServerSafety ServerProps.

(** ** reflect *)

(** [reflect.New(t)] is of the pointer type to [t], which has no name; [Elem] is
    of type [t]. *)
Definition arg_type {V} (a : argval V) : rtype :=
  if arg_indirect a then arg_elem a else PtrType "" "" (arg_elem a).
Definition reply_type (r : replyval) : rtype :=
  match r with ReplyZero t | ReplyMap t | ReplySlice t => PtrType "" "" t end.

(** Assignability of a value of type [t] to a variable of type [u], for identical
    types and for pointers of which one has no name. *)
Definition assignable (t u : rtype) : bool :=
  bool_decide (t = u) ||
  match t, u with
  | PtrType n _ a, PtrType n' _ b => bool_decide (a = b) && (bool_decide (n = "") || bool_decide (n' = ""))
  | _, _ => false
  end.

(** What [function.Call] asks of the values after the receiver, and what
    [returnValues[0]] asks of the results. *)
Definition Call_fits (f : rmethod) (args : list rtype) : bool :=
  bool_decide (length (m_In f) = S (length args)) && forallb (fun p => assignable p.1 p.2) (zip args (drop 1 (m_In f)))
  && bool_decide (m_Out f = [typeOfError]).

Lemma assignable_ptr n p e : assignable (PtrType "" "" e) (PtrType n p e) = true.
Proof. unfold assignable. rewrite orb_true_iff. right. by rewrite (bool_decide_eq_true_2 (e = e)). Qed.

Lemma arg_assignable {V} (v : V) T : assignable (arg_type (mkArg v (argTarget T).1 (argTarget T).2)) T = true.
Proof.
  unfold arg_type. destruct T; simpl; [apply assignable_ptr|..]; unfold assignable; by rewrite bool_decide_eq_true_2.
Qed.

Lemma reply_assignable n p e : assignable (reply_type (newReply e)) (PtrType n p e) = true.
Proof. unfold newReply. destruct (rtype_Kind e); apply assignable_ptr. Qed.

Section types.
Context {V W C : Type} `{UnicodeTables} `{ServerCodec V C}.
Context (ord : gmap string (Plugin V W) -> list (string * Plugin V W)).
Context (invalidRequest : V) (NewJsonServerCodec NewGobServerCodec : connid -> C).

Abbreviation sys := (@sys V W C).
Abbreviation goroutine := (@goroutine V).
Abbreviation step := (sys_step ord invalidRequest NewJsonServerCodec NewGobServerCodec).
#[local] Instance typed_steps : LTS sys (sys_event (V := V)) := step.
Implicit Types (c : connid) (h : nat) (s : Server V W) (σ : sys) (g : goroutine) (m : string * string).

(** ** Methods stay *)

(** Method [m.2] of service [m.1] is there, with its function and types. *)
Definition has s m (f : rmethod) (T R : rtype) : Prop :=
  exists svc me, serviceMap s !! m.1 = Some svc ∧ methods svc !! m.2 = Some me ∧
    method me = f ∧ ArgType me = T ∧ ReplyType me = R.

(** It takes arguments of type [T]. *)
Definition takes s m (T : rtype) : Prop := exists f R, has s m f T R.

Definition grows s s' : Prop := forall m f T R, has s m f T R -> has s' m f T R.

Lemma takes_grows s s' m T : grows s s' -> takes s m T -> takes s' m T.
Proof. intros Hg (f & R & Hh). exists f, R. auto. Qed.

Lemma grows_eq s s' : serviceMap s' = serviceMap s -> grows s s'.
Proof. intros E m f T R. unfold has. by rewrite E. Qed.

Lemma grows_count s m : grows s (count_call s m).
Proof.
  intros m1 f T R (svc & me & Hs & Hm & Hme). unfold has, count_call. simpl. rewrite lookup_alter.
  case_decide as E; [|by exists svc, me]. rewrite E, Hs. simpl. eexists. destruct (decide (m.2 = m1.2)) as [E2|E2]; eexists; (split; [done|]); simpl.
  - rewrite E2, lookup_alter_eq, Hm. by split.
  - rewrite lookup_alter_ne by done. by split.
Qed.

Lemma grows_register s rcv alias useAlias s' err :
  server_ok s -> register ord s rcv alias useAlias = Return (s', err) -> grows s s'.
Proof.
  intros Hok Hr. destruct (register_returns _ _ _ _ _ _ Hr) as [tn Hi].
  destruct (register_cases ord s rcv tn alias useAlias Hok Hi) as [(Hr' & _ & _ & _ & Hn)|(e & Hr' & _)];
    rewrite Hr' in Hr; simplify_eq; [|by apply grows_eq].
  intros m f T R (svc & me & Hs & Hm & Ht). exists svc, me. split_and!; try done; try apply Ht. simpl.
  rewrite lookup_insert_ne; [done|]. congruence.
Qed.

(** What a step does to the services: it registers one, counts a call, or leaves
    them alone. *)
Lemma step_services σ e σ' :
  server_ok (srv σ) -> step σ e = Some σ' ->
  (exists rcv al ua err, register ord (srv σ) rcv al ua = Return (srv σ', err)) ∨
  (exists m, srv σ' = count_call (srv σ) m) ∨ serviceMap (srv σ') = serviceMap (srv σ).
Proof.
  intros Hok Hs. destruct e as [rcv al ua|c|c h|c h reply err|c h]; simpl in Hs.
  - left. destruct (register ord (srv σ) rcv al ua) as [[s' err]|] eqn:Hr; simplify_eq/=. by exists rcv, al, ua, err.
  - do 2 right. unfold accept in Hs. by repeat case_match; simplify_eq.
  - do 2 right. unfold reader_step in Hs. destruct (gs σ !! (c, 0%nat)) as [g|]; [|done]. destruct (conns σ !! c) as [cn|]; [|done].
    destruct (g_pc g) as [|q| | | | | | | | | | | |]; try done.
    + destruct (getRequest _) as [q P]. by simplify_eq.
    + destruct (codec cn) as [cd|]; [|done].
      destruct (readRequest_effect ord (srv σ) cd q Hok) as (cd1 & rr & Hrr & _). rewrite Hrr in Hs. clear Hrr.
      unfold dispatch_request in Hs. by repeat case_match; simplify_eq.
    + case_bool_decide; by simplify_eq.
    + unfold finish in Hs. destruct (spm_HandleConnClose _ _ _) as [[? ?]|]; by simplify_eq.
  - do 2 right. unfold method_returns in Hs. by repeat case_match; simplify_eq.
  - right. unfold go_step in Hs. destruct (gs σ !! (c, h)) as [g|]; [|done]. destruct (conns σ !! c) as [cn|]; [|done].
    destruct (g_pc g) as [| |q| |q|q r|q r|q r|q r|q r|q| | |]; try done; repeat case_match; simplify_eq; eauto.
Qed.

Lemma step_grows σ e σ' : server_ok (srv σ) -> step σ e = Some σ' -> grows (srv σ) (srv σ').
Proof.
  intros Hok Hs. destruct (step_services _ _ _ Hok Hs) as [(rcv & al & ua & err & Hr)|[[m ->]|E]];
    [by eapply grows_register|apply grows_count|by apply grows_eq].
Qed.

(** ** The parameters of registered methods *)

Definition methods_fit s : Prop := forall m f T R, has s m f T R ->
  exists recv n p e, m_In f = [recv; T; R] ∧ R = PtrType n p e ∧ m_Out f = [typeOfError].

Lemma methods_fit_eq s s' : serviceMap s' = serviceMap s -> methods_fit s -> methods_fit s'.
Proof. intros E Hm m f T R. unfold has. rewrite E. apply Hm. Qed.

Lemma methods_fit_count s m : methods_fit s -> methods_fit (count_call s m).
Proof.
  intros Hf m1 f T R (svc & me & Hs & Hm & Hme). apply (Hf m1). unfold count_call in Hs. simpl in Hs.
  rewrite lookup_alter in Hs. case_decide as E; [|by exists svc, me].
  apply fmap_Some in Hs as (svc0 & Hs & ->). rewrite E in Hs. simpl in Hm. rewrite lookup_alter in Hm.
  case_decide as E2; [|by exists svc0, me]. apply fmap_Some in Hm as (me0 & Hm & ->). rewrite E2 in Hm. by exists svc0, me0.
Qed.

Lemma methods_fit_register s rcv al ua s' err :
  server_ok s -> methods_fit s -> register ord s rcv al ua = Return (s', err) -> methods_fit s'.
Proof.
  intros Hok Hf Hr. destruct (register_returns _ _ _ _ _ _ Hr) as [tn Hi].
  destruct (register_cases ord s rcv tn al ua Hok Hi) as [(Hr' & Hx)|(e & Hr' & _)];
    rewrite Hr' in Hr; simplify_eq; [|by eapply methods_fit_eq].
  set (sn := if ua then al else tn). intros m f T R (svc & me & Hs & Hm & Hme). simpl in Hs.
  rewrite lookup_insert in Hs. case_decide; [|apply (Hf m); by exists svc, me]. simplify_eq. simpl in Hm.
  apply accepted_lookup in Hm as (rm & _ & _ & _ & Hc); [|apply (rcv_names rcv)].
  apply checkMethod_inl in Hc as [[(r & a & p & Hin & _ & (n & k & e & ->) & _) Hout] (r' & a' & p' & Hin' & ->)].
  rewrite Hin in Hin'. destruct Hme as (<- & <- & <-). simplify_eq/=. by exists r', n, k, e.
Qed.

(** ** The goroutines *)

(** The values that a goroutine is about to call a method with fit. *)
Definition fits s g : Prop :=
  match g_pc g with
  | Enter _ | Calling _ => exists f T R arg rv, has s (g_meth g) f T R ∧ g_args g = Some (arg, rv) ∧
      Call_fits f [arg_type arg; reply_type rv] = true
  | _ => True
  end.

Lemma fits_grows s s' g : grows s s' -> fits s g -> fits s' g.
Proof.
  intros Hg Hf. unfold fits in *. destruct (g_pc g); try done; destruct Hf as (f & T & R & arg & rv & ? & ?); exists f, T, R, arg, rv; auto.
Qed.

Record typed σ : Prop := {
  ty_methods : methods_fit (srv σ);
  ty_jobs : forall k g, gs σ !! k = Some g -> fits (srv σ) g
}.

Lemma jobs_insert_fit (P : goroutine -> Prop) (G : gmap (connid * nat) goroutine) k0 g' :
  (forall k g, G !! k = Some g -> P g) -> P g' -> forall k g, <[k0 := g']> G !! k = Some g -> P g.
Proof. intros Hj Hg k g. rewrite lookup_insert. case_decide; [by intros [= <-]|apply Hj]. Qed.

(** A request that was read without an error fits its method. *)
Lemma read_fits s s' cd q s1 cd1 (rr : requestResult V) sn mn me arg rv g :
  server_ok s -> methods_fit s -> grows s s' -> readRequest ord s cd q = Return (s1, cd1, rr) -> hr_err (rr_header rr) = None ->
  hr_svc (rr_header rr) = Some sn -> hr_method (rr_header rr) = Some (mn, me) -> rr_argv rr = Some arg -> rr_reply rr = Some rv ->
  g_meth g = (sn, mn) -> g_args g = Some (arg, rv) -> fits s' g.
Proof.
  intros Hok Hf Hg Hr He E1 E2 E3 E4 Em Ea.
  destruct (readRequest_values ord s cd q s1 cd1 rr Hok Hr He) as (sn' & svc & mn' & m & v & n & p & e & F1 & F2 & Hs & Hm & Er & F3 & F4).
  rewrite E1 in F1. rewrite E2 in F2. rewrite E3 in F3. rewrite E4 in F4. injection F1 as <-. injection F2 as <- <-.
  injection F3 as ->. injection F4 as ->. assert (has s (sn, mn) (method me) (ArgType me) (ReplyType me)) as Hh by (by exists svc, me).
  destruct (Hf _ _ _ _ Hh) as (recv & n1 & p1 & e1 & Hin & Er1 & Hout). rewrite Er in Er1. injection Er1 as <- <- <-. unfold fits.
  assert (Call_fits (method me) [arg_type (mkArg v (argTarget (ArgType me)).1 (argTarget (ArgType me)).2); reply_type (newReply e)] = true) as Hcall.
  { unfold Call_fits. rewrite Hin, Hout, Er. simpl. rewrite arg_assignable, reply_assignable. done. }
  destruct (g_pc g); try done; eexists _, _, _, _, _; (split; [apply Hg; rewrite Em; exact Hh|]); by split.
Qed.

Lemma typed_jobs σ e σ' :
  server_ok (srv σ) -> typed σ -> step σ e = Some σ' -> forall k g, gs σ' !! k = Some g -> fits (srv σ') g.
Proof.
  intros Hok [Hm Hj] Hs. pose proof (step_grows _ _ _ Hok Hs) as Hg.
  assert (forall k g, gs σ !! k = Some g -> fits (srv σ') g) as Hj' by (intros k g ?; by eapply fits_grows; eauto).
  destruct e as [rcv al ua|c|c h|c h reply err|c h]; simpl in Hs.
  - destruct (register ord (srv σ) rcv al ua) as [[s' err]|]; by simplify_eq.
  - unfold accept in Hs. destruct (spm_HandleConnAccept _ _ _) as [[c1 [?|]]|]; [by simplify_eq| |done].
    destruct (activeConn (srv σ)); [|done]. destruct (conns σ !! c1); simplify_eq. simpl. apply jobs_insert_fit; [done|].
    by destruct (newCodec _ _ _ _).
  - unfold reader_step in Hs. destruct (gs σ !! (c, 0%nat)) as [g|] eqn:Hg0; [|done]. destruct (conns σ !! c) as [cn|]; [|done].
    destruct (g_pc g) as [|q| | | | | | | | | | | |]; try done.
    + destruct (getRequest _) as [q P]. simplify_eq. by apply jobs_insert_fit.
    + destruct (codec cn) as [cd|]; [|done]. destruct (readRequest ord (srv σ) cd q) as [[[s1 cd1] rr]|] eqn:Hrr; [|done].
      unfold dispatch_request in Hs. destruct (hr_err (rr_header rr)) as [e|] eqn:He.
      * destruct (hr_keepReading (rr_header rr)), (hr_req (rr_header rr)); simplify_eq; by apply jobs_insert_fit.
      * destruct (hr_req _) as [q1|]; [|done]. destruct (hr_svc (rr_header rr)) as [sn|] eqn:E1; [|done].
        destruct (hr_method (rr_header rr)) as [[mn me]|] eqn:E2; [|done]. destruct (rr_argv rr) as [arg|] eqn:E3; [|done].
        destruct (rr_reply rr) as [rv|] eqn:E4; [|done]. case_bool_decide; simplify_eq. apply jobs_insert_fit; [by apply jobs_insert_fit|].
        by eapply (read_fits (srv σ) s1).
    + case_bool_decide; simplify_eq. by apply jobs_insert_fit.
    + unfold finish in Hs. destruct (spm_HandleConnClose _ _ _) as [[? ?]|]; simplify_eq. simpl. intros k g1 [_ ?]%lookup_delete_Some. by eapply Hj'.
  - unfold method_returns in Hs. destruct (gs σ !! (c, h)) as [g|]; [|done]. destruct (g_pc g); simplify_eq. by apply jobs_insert_fit.
  - unfold go_step in Hs. destruct (gs σ !! (c, h)) as [g|] eqn:Hg0; [|done]. destruct (conns σ !! c) as [cn|]; [|done].
    destruct (g_pc g) as [| |q| |q|q r|q r|q r|q r|q r|q| | |] eqn:Hpc; try done; repeat case_match; simplify_eq;
      try (by apply jobs_insert_fit; [done|repeat case_bool_decide]).
    + apply jobs_insert_fit; [done|]. specialize (Hj' _ _ Hg0). unfold fits in *. rewrite Hpc in Hj'. done.
    + simpl. intros k g1 [_ ?]%lookup_delete_Some. by eapply Hj'.
Qed.

Lemma typed_step σ e σ' : server_ok (srv σ) -> typed σ -> step σ e = Some σ' -> typed σ'.
Proof.
  intros Hok Ht Hs. split; [|by eapply typed_jobs]. destruct Ht as [Hm _].
  destruct (step_services _ _ _ Hok Hs) as [(rcv & al & ua & err & Hr)|[[m ->]|E]];
    [by eapply methods_fit_register|by apply methods_fit_count|by eapply methods_fit_eq].
Qed.

Lemma prepared_fit s : prepared ord s -> methods_fit s.
Proof.
  induction 1 as [Listen w conf s Hn|s rcv alias useAlias s' err Hp IH Hr].
  - unfold newRpcServerWithOptions in Hn. simpl in Hn. destruct (Listen _); simplify_eq. intros m f T R (svc & me & Hs & _).
    simpl in Hs. by rewrite lookup_empty in Hs.
  - eapply methods_fit_register; [apply (prepared_ok ord s Hp)|done|done].
Qed.

Lemma running_typed σ : running ord invalidRequest NewJsonServerCodec NewGobServerCodec σ -> typed σ.
Proof.
  intros (s & s1 & Hp & Hs & Hr). pose proof (prepared_fit s Hp) as Hf. apply prepared_ok in Hp as (Hok & E1 & E2 & _ & E4).
  unfold Start in Hs. destruct (ok_ln _ Hok) as [addr Ha]. rewrite Ha, E4 in Hs. injection Hs as <-.
  refine (reachable_invariant_under (fun σ => server_ok (srv σ)) typed _ σ _ _ _ Hr).
  - intros σ1 Hr1. eapply (reachable_inv ord invalidRequest NewJsonServerCodec NewGobServerCodec); [| | |exact Hr1]; [|done..]. by destruct Hok.
  - split; [by eapply methods_fit_eq|]. intros k g. simpl. by rewrite lookup_empty.
  - intros σ1 e σ2 Hok1 Ht1 Hs1. by eapply typed_step.
Qed.

(** C15: a method is never called with values that [reflect.Value.Call] would
    panic on: when a goroutine is about to call a method, or is calling it, the
    method is registered, and its function takes a receiver and two more
    parameters, to which the decoded argument and the new reply can be assigned,
    and returns one error. *)
Theorem calls_are_typed σ c h g q :
  running ord invalidRequest NewJsonServerCodec NewGobServerCodec σ -> gs σ !! (c, h) = Some g ->
  g_pc g = Enter q ∨ g_pc g = Calling q ->
  exists svc me arg rv, serviceMap (srv σ) !! (g_meth g).1 = Some svc ∧ methods svc !! (g_meth g).2 = Some me ∧
    g_args g = Some (arg, rv) ∧ Call_fits (method me) [arg_type arg; reply_type rv] = true.
Proof.
  intros [_ Hj]%running_typed Hg Hpc. specialize (Hj _ _ Hg). unfold fits in Hj.
  assert (exists f T R arg rv, has (srv σ) (g_meth g) f T R ∧ g_args g = Some (arg, rv) ∧ Call_fits f [arg_type arg; reply_type rv] = true)
    as (f & T & R & arg & rv & (svc & me & Hs & Hm & <- & _) & Ha & Hc) by (by destruct Hpc as [Hpc|Hpc]; rewrite Hpc in Hj).
  by exists svc, me, arg, rv.
Qed.
End types.
