(* ===== verification/JsonCodec.v ===== *)
(** * json_codec.go: the JSON codecs

    A connection carries JSON values.  [encoding/json]'s text level (printing
    and scanning of a value) is not modelled: a stream is the sequence of the
    values on it, and decoding a value into a struct is modelled field by field.
    A string is written as valid UTF-8, bytes that are not become U+FFFD
    ([Utf8.coerce]); this is done where the codecs write strings of their own.
    How the user's argument and reply types are written and read is the
    interface [GoJson]. *)
From S2P Require Import Prelude GoStd Types.

(** JSON values; an integral number is [JNum], any other number keeps its text. *)
Inductive json :=
| JNull
| JBool (b : bool)
| JNum (n : Z)
| JNumText (s : string)
| JStr (s : string)
| JArr (l : list json)
| JObj (fields : list (string * json)).

(** What [json.Marshal] and [json.Unmarshal] do with the user's types:
    [unmarshal t j] decodes into a new value of type [t], [unmarshal_into v j]
    into the value [v] that a pointer holds. *)
Class GoJson (V : Type) := {
  marshal : V -> json + error;
  unmarshal_into : V -> json -> V + error;
  zero_value : rtype -> V
}.

Definition unmarshal `{GoJson V} (t : rtype) (j : json) : V + error :=
  unmarshal_into (zero_value t) j.

(** ** Streams

    The values to be read, each of which may be an error of the connection or
    of the syntax instead; such an error is permanent.  After the last value
    reading gives [io.EOF].  [sent] is what was written, until [wclosed]. *)
Record stream := mkStream {
  input : list (json + error);
  sent : list json;
  wclosed : bool
}.

Definition new_stream (l : list (json + error)) : stream := mkStream l [] false.

(** The next value of a [json.Decoder]. *)
Definition next_value (s : stream) : stream * (json + error) :=
  match input s with
  | [] => (s, inr EOF)
  | inr e :: _ => (s, inr e)
  | inl j :: rest => (mkStream rest (sent s) (wclosed s), inl j)
  end.

(** [json.Encoder.Encode] of an already marshalled value. *)
Definition write_value (s : stream) (j : json) : stream * option error :=
  if wclosed s then (s, Some closed_error)
  else (mkStream (input s) (sent s ++ [j]) (wclosed s), None).

(** [Close] of the connection: reads fail from now on as well. *)
Definition close_stream (s : stream) : stream * option error :=
  if wclosed s then (s, Some closed_error)
  else (mkStream [inr closed_error] (sent s) true, None).

(** ** Decoding into a struct

    A key of an object selects a field: the one of that very name, else the
    first whose name it matches in [fold] ([encoding/json]'s case folding). *)
Section fields.
Context (fold : string -> string -> bool).

Definition field_of (names : list string) (key : string) : option string :=
  if bool_decide (key ∈ names) then Some key
  else head (filter (fun n => fold key n = true) names).

(** Decoding an object applies [set name value st] for each known key in turn;
    it goes on after a type error and reports the first one.  A null decodes to
    nothing, another value does not fit a struct. *)
Fixpoint decode_fields {A} (names : list string) (set : string -> json -> A -> A * option error)
    (fs : list (string * json)) (a : A) (err : option error) : A * option error :=
  match fs with
  | [] => (a, err)
  | (k, v) :: fs' =>
      match field_of names k with
      | None => decode_fields names set fs' a err
      | Some n =>
          let '(a', e) := set n v a in
          decode_fields names set fs' a' (match err with Some _ => err | None => e end)
      end
  end.

Definition type_error : error := ErrNew "json: cannot unmarshal value into Go value".

Definition decode_struct {A} (names : list string) (set : string -> json -> A -> A * option error)
    (j : json) (a : A) : A * option error :=
  match j with
  | JObj fs => decode_fields names set fs a None
  | JNull => (a, None)
  | _ => (a, Some type_error)
  end.

(** A [*json.RawMessage] field: null makes it nil. *)
Definition raw_of (j : json) : option json := match j with JNull => None | _ => Some j end.

(** ** The server's codec *)

Record serverRequest := mkServerRequest {
  sq_Method : string;
  sq_Params : option json;
  sq_Id : option json
}.

Definition serverRequest_reset : serverRequest := mkServerRequest "" None None.

Definition set_serverRequest (n : string) (v : json) (r : serverRequest) : serverRequest * option error :=
  if bool_decide (n = "method") then
    match v with
    | JStr s => (mkServerRequest s (sq_Params r) (sq_Id r), None)
    | JNull => (r, None)
    | _ => (r, Some type_error)
    end
  else if bool_decide (n = "params") then (mkServerRequest (sq_Method r) (raw_of v) (sq_Id r), None)
  else (mkServerRequest (sq_Method r) (sq_Params r) (raw_of v), None).

Definition decode_serverRequest := decode_struct ["method"; "params"; "id"] set_serverRequest.

Record jsonServerCodec := mkJsonServer {
  js_conn : stream;
  js_req : serverRequest;
  js_seq : Z;
  js_pending : gmap Z (option json)
}.

Definition NewJsonServerCodec (conn : stream) : jsonServerCodec :=
  mkJsonServer conn serverRequest_reset 0 ∅.

Definition js_ReadRequestHeader (jsc : jsonServerCodec) (r : RpcRequest)
    : jsonServerCodec * RpcRequest * option error :=
  match next_value (js_conn jsc) with
  | (conn, inr e) => (mkJsonServer conn serverRequest_reset (js_seq jsc) (js_pending jsc), r, Some e)
  | (conn, inl j) =>
      match decode_serverRequest j serverRequest_reset with
      | (req, Some e) => (mkJsonServer conn req (js_seq jsc) (js_pending jsc), r, Some e)
      | (req, None) =>
          let seq := Word.u64 (js_seq jsc + 1) in
          (mkJsonServer conn (mkServerRequest (sq_Method req) (sq_Params req) None) seq
             (<[seq := sq_Id req]> (js_pending jsc)),
           mkRequest (sq_Method req) seq (req_next r), None)
      end
  end.

Section values.
Context {V : Type} `{GoJson V}.

(** [json.Unmarshal(params, &[1]interface{}{x})] with [x] a new value: the first
    element is decoded into it; a null, an empty array and a null element leave
    it alone. *)
Definition unmarshal_params (t : rtype) (j : json) : V + error :=
  match j with
  | JArr (JNull :: _) | JArr [] | JNull => inl (zero_value t)
  | JArr (e :: _) => unmarshal t e
  | _ => inr type_error
  end.

Definition js_ReadRequestBody (jsc : jsonServerCodec) (t : rtype) : jsonServerCodec * (V + error) :=
  match sq_Params (js_req jsc) with
  | None => (jsc, inr (ErrNew "illegal argument for request params"))
  | Some params => (jsc, unmarshal_params t params)
  end.

(** [ReadRequestBody(nil)] *)
Definition js_DiscardRequestBody (jsc : jsonServerCodec) : jsonServerCodec * option error := (jsc, None).

(** The [serverResponse] object; [Encode] writes nothing when the result cannot
    be marshalled. *)
Definition js_WriteResponse (jsc : jsonServerCodec) (r : RpcResponse) (x : V)
    : jsonServerCodec * option error :=
  match js_pending jsc !! resp_Seq r with
  | None => (jsc, Some (ErrNew "invalid sequence number in response"))
  | Some b =>
      let pending := delete (resp_Seq r) (js_pending jsc) in
      let id := match b with Some raw => raw | None => JNull end in
      let result := if bool_decide (resp_Error r = "") then marshal x else inl JNull in
      let err := if bool_decide (resp_Error r = "") then JNull else JStr (Utf8.coerce (resp_Error r)) in
      match result with
      | inr e => (mkJsonServer (js_conn jsc) (js_req jsc) (js_seq jsc) pending, Some e)
      | inl j =>
          let '(conn, werr) := write_value (js_conn jsc) (JObj [("id", id); ("result", j); ("error", err)]) in
          (mkJsonServer conn (js_req jsc) (js_seq jsc) pending, werr)
      end
  end.

Definition js_Close (jsc : jsonServerCodec) : jsonServerCodec * option error :=
  let '(conn, e) := close_stream (js_conn jsc) in
  (mkJsonServer conn (js_req jsc) (js_seq jsc) (js_pending jsc), e).

#[global] Instance json_ServerCodec : ServerCodec V jsonServerCodec := {
  ReadRequestHeader := js_ReadRequestHeader;
  ReadRequestBody := js_ReadRequestBody;
  DiscardRequestBody := js_DiscardRequestBody;
  WriteResponse := js_WriteResponse;
  CloseCodec := js_Close
}.

(** ** The client's codec *)

Record clientRequest := mkClientRequest {
  cq_Method : string;
  cq_Param : option V;
  cq_Id : Z
}.

(** The field [Error interface{}]: nil, a string, or another value. *)
Record clientResponse := mkClientResponse {
  cr_Id : Z;
  cr_Result : option json;
  cr_Error : option json
}.

Definition clientResponse_reset : clientResponse := mkClientResponse 0 None None.

Definition set_clientResponse (n : string) (v : json) (r : clientResponse) : clientResponse * option error :=
  if bool_decide (n = "id") then
    match v with
    | JNum z => if bool_decide (Word.is_u64 z) then (mkClientResponse z (cr_Result r) (cr_Error r), None)
                else (r, Some type_error)
    | JNull => (r, None)
    | _ => (r, Some type_error)
    end
  else if bool_decide (n = "result") then (mkClientResponse (cr_Id r) (raw_of v) (cr_Error r), None)
  else (mkClientResponse (cr_Id r) (cr_Result r) (raw_of v), None).

Definition decode_clientResponse := decode_struct ["id"; "result"; "error"] set_clientResponse.

Record jsonClientCodec := mkJsonClient {
  jc_conn : stream;
  jc_req : clientRequest;
  jc_resp : clientResponse;
  jc_pending : gmap Z string
}.

Definition NewJsonClientCodec (conn : stream) : jsonClientCodec :=
  mkJsonClient conn (mkClientRequest "" None 0) clientResponse_reset ∅.

Definition jc_WriteRequest (c : jsonClientCodec) (r : RpcRequest) (param : V)
    : jsonClientCodec * option error :=
  let pending := <[req_Seq r := req_ServiceMethod r]> (jc_pending c) in
  let req := mkClientRequest (req_ServiceMethod r) (Some param) (req_Seq r) in
  match marshal param with
  | inr e => (mkJsonClient (jc_conn c) req (jc_resp c) pending, Some e)
  | inl j =>
      let '(conn, werr) := write_value (jc_conn c)
        (JObj [("method", JStr (Utf8.coerce (cq_Method req))); ("params", JArr [j]); ("id", JNum (cq_Id req))]) in
      (mkJsonClient conn req (jc_resp c) pending, werr)
  end.

(** The text of [fmt.Errorf("invalid error %v", ...)] is not computed beyond its
    fixed part. *)
Definition jc_ReadResponseHeader (c : jsonClientCodec) (r : RpcResponse)
    : jsonClientCodec * RpcResponse * option error :=
  match next_value (jc_conn c) with
  | (conn, inr e) => (mkJsonClient conn (jc_req c) clientResponse_reset (jc_pending c), r, Some e)
  | (conn, inl j) =>
      match decode_clientResponse j clientResponse_reset with
      | (resp, Some e) => (mkJsonClient conn (jc_req c) resp (jc_pending c), r, Some e)
      | (resp, None) =>
          let c' := mkJsonClient conn (jc_req c) resp (delete (cr_Id resp) (jc_pending c)) in
          let r' err := mkResponse (default "" (jc_pending c !! cr_Id resp)) (cr_Id resp) err (resp_next r) in
          if bool_decide (cr_Error resp <> None ∨ cr_Result resp = None) then
            match cr_Error resp with
            | Some (JStr x) => (c', r' (if bool_decide (x = "") then "unspecified error" else x), None)
            | _ => (c', r' "", Some (ErrNew "invalid error"))
            end
          else (c', r' "", None)
      end
  end.

Definition jc_ReadResponseBody (c : jsonClientCodec) (x : V) : outcome (jsonClientCodec * (V + error)) :=
  match cr_Result (jc_resp c) with
  | Some j => Return (c, unmarshal_into x j)
  | None => Panic "nil pointer dereference"
  end.

Definition jc_DiscardResponseBody (c : jsonClientCodec) : jsonClientCodec * option error := (c, None).

Definition jc_Close (c : jsonClientCodec) : jsonClientCodec * option error :=
  let '(conn, e) := close_stream (jc_conn c) in
  (mkJsonClient conn (jc_req c) (jc_resp c) (jc_pending c), e).

#[global] Instance json_ClientCodec : ClientCodec V jsonClientCodec := {
  ReadResponseHeader := jc_ReadResponseHeader;
  ReadResponseBody := jc_ReadResponseBody;
  DiscardResponseBody := jc_DiscardResponseBody;
  WriteRequest := jc_WriteRequest;
  CloseClientCodec := jc_Close
}.

(** ** Lemmas *)

Lemma field_of_exact names key : key ∈ names -> field_of names key = Some key.
Proof. intros Hk. unfold field_of. by rewrite bool_decide_eq_true_2. Qed.

(** What the client writes, the server decodes. *)
Lemma decode_request sm j id :
  decode_serverRequest (JObj [("method", JStr sm); ("params", JArr [j]); ("id", JNum id)])
    serverRequest_reset
  = (mkServerRequest sm (Some (JArr [j])) (Some (JNum id)), None).
Proof.
  unfold decode_serverRequest, decode_struct. cbn [decode_fields].
  by rewrite !field_of_exact by set_solver.
Qed.

(** What the server writes, the client decodes. *)
Lemma decode_response id j err :
  Word.is_u64 id ->
  decode_clientResponse (JObj [("id", JNum id); ("result", j); ("error", err)]) clientResponse_reset
  = (mkClientResponse id (raw_of j) (raw_of err), None).
Proof.
  intros Hid. unfold decode_clientResponse, decode_struct. cbn [decode_fields].
  rewrite !field_of_exact by set_solver. unfold set_clientResponse. simpl.
  by rewrite bool_decide_eq_true_2.
Qed.

Lemma raw_of_Some j : j <> JNull -> raw_of j = Some j.
Proof. by destruct j. Qed.

(** The request message of a call and the response message to it. *)
Definition request_message (sm : string) (j : json) (id : Z) : json :=
  JObj [("method", JStr sm); ("params", JArr [j]); ("id", JNum id)].

Lemma jc_WriteRequest_open c r param j :
  wclosed (jc_conn c) = false -> marshal param = inl j ->
  exists c', jc_WriteRequest c r param = (c', None) ∧
    sent (jc_conn c') = sent (jc_conn c) ++ [request_message (Utf8.coerce (req_ServiceMethod r)) j (req_Seq r)] ∧
    input (jc_conn c') = input (jc_conn c) ∧
    jc_pending c' = <[req_Seq r := req_ServiceMethod r]> (jc_pending c).
Proof.
  intros Hc Hm. unfold jc_WriteRequest, write_value. rewrite Hm, Hc. simpl. by eexists.
Qed.

Lemma js_ReadRequestHeader_message jsc rest r sm j id :
  input (js_conn jsc) = inl (request_message sm j id) :: rest ->
  exists jsc', js_ReadRequestHeader jsc r
      = (jsc', mkRequest sm (Word.u64 (js_seq jsc + 1)) (req_next r), None) ∧
    input (js_conn jsc') = rest ∧ sent (js_conn jsc') = sent (js_conn jsc) ∧
    wclosed (js_conn jsc') = wclosed (js_conn jsc) ∧
    js_pending jsc' = <[Word.u64 (js_seq jsc + 1) := Some (JNum id)]> (js_pending jsc) ∧
    sq_Params (js_req jsc') = Some (JArr [j]).
Proof.
  intros Hin. unfold js_ReadRequestHeader, next_value. rewrite Hin.
  unfold request_message. rewrite decode_request. simpl. by eexists.
Qed.

Lemma js_WriteResponse_open jsc (r : RpcResponse) (x : V) (id : Z) jx :
  wclosed (js_conn jsc) = false ->
  js_pending jsc !! resp_Seq r = Some (Some (JNum id)) ->
  (resp_Error r = "" -> marshal x = inl jx) ->
  exists jsc', js_WriteResponse jsc r x = (jsc', None) ∧
    sent (js_conn jsc') = sent (js_conn jsc) ++
      [JObj [("id", JNum id); ("result", if bool_decide (resp_Error r = "") then jx else JNull);
             ("error", if bool_decide (resp_Error r = "") then JNull else JStr (Utf8.coerce (resp_Error r)))]] ∧
    js_pending jsc' = delete (resp_Seq r) (js_pending jsc).
Proof.
  intros Hc Hp Hm. unfold js_WriteResponse, write_value. rewrite Hp, Hc.
  case_bool_decide; [rewrite Hm by done|]; simpl; by eexists.
Qed.

(** The header of a response as the client reads it. *)
Lemma jc_ReadResponseHeader_message c rest r id sm err jx :
  Word.is_u64 id -> jc_pending c !! id = Some sm -> (err = "" -> jx <> JNull) ->
  input (jc_conn c) =
    inl (JObj [("id", JNum id); ("result", if bool_decide (err = "") then jx else JNull);
               ("error", if bool_decide (err = "") then JNull else JStr (Utf8.coerce err))]) :: rest ->
  exists c', jc_ReadResponseHeader c r = (c', mkResponse sm id (Utf8.coerce err) (resp_next r), None) ∧
    cr_Result (jc_resp c') = (if bool_decide (err = "") then Some jx else None) ∧
    jc_pending c' = delete id (jc_pending c) ∧ input (jc_conn c') = rest.
Proof.
  intros Hid Hp Hx Hin. unfold jc_ReadResponseHeader, next_value. rewrite Hin.
  rewrite decode_response by done. simpl. rewrite Hp. simpl.
  destruct (decide (err = "")) as [->|He].
  - rewrite !(bool_decide_eq_true_2 ("" = "")) by done. simpl.
    rewrite (raw_of_Some jx) by auto. rewrite bool_decide_eq_false_2 by naive_solver.
    eexists. split_and!; try done.
  - rewrite !(bool_decide_eq_false_2 (err = "")) by done. simpl.
    rewrite (bool_decide_eq_false_2 (Utf8.coerce err = "")) by (by rewrite Utf8.coerce_empty). eexists. split_and!; done.
Qed.

(** ** Properties *)

(** C20: a call through the two JSON codecs, on open connections, with an
    argument that can be marshalled and is not written as null.  What the client
    writes for a call the server reads as the same method and argument, under a
    sequence number of its own; and the response that the server writes to that
    number reaches the client under the client's number, with the method of the
    call and with the error text, or with the reply, provided that this can be
    marshalled and is not written as null.  The method's name as the server reads
    it and the error text as the client reads it have U+FFFD for the bytes that
    are not UTF-8; in particular names and texts in ASCII arrive as they are, and
    an error text arrives empty only if it was empty. *)
Theorem json_call_roundtrip (c : jsonClientCodec) (jsc : jsonServerCodec)
    (req r0 : RpcRequest) (param : V) (jp : json) (t : rtype) rest :
  Word.is_u64 (req_Seq req) ->
  wclosed (jc_conn c) = false -> wclosed (js_conn jsc) = false ->
  marshal param = inl jp -> jp <> JNull ->
  input (js_conn jsc) = inl (request_message (Utf8.coerce (req_ServiceMethod req)) jp (req_Seq req)) :: rest ->
  exists c1 jsc1 r1,
    jc_WriteRequest c req param = (c1, None) ∧
    sent (jc_conn c1) = sent (jc_conn c) ++ [request_message (Utf8.coerce (req_ServiceMethod req)) jp (req_Seq req)] ∧
    js_ReadRequestHeader jsc r0 = (jsc1, r1, None) ∧
    req_ServiceMethod r1 = Utf8.coerce (req_ServiceMethod req) ∧
    (Utf8.ascii_only (req_ServiceMethod req) = true -> req_ServiceMethod r1 = req_ServiceMethod req) ∧
    js_ReadRequestBody jsc1 t = (jsc1, unmarshal t jp) ∧
    forall resp (x : V) jx c2 rest2,
      resp_Seq resp = req_Seq r1 ->
      (resp_Error resp = "" -> marshal x = inl jx ∧ jx <> JNull) ->
      jc_pending c2 = jc_pending c1 ->
      exists jsc2 msg, js_WriteResponse jsc1 resp x = (jsc2, None) ∧
        sent (js_conn jsc2) = sent (js_conn jsc1) ++ [msg] ∧
        (input (jc_conn c2) = inl msg :: rest2 ->
         exists c3, jc_ReadResponseHeader c2 RpcResponse0
             = (c3, mkResponse (req_ServiceMethod req) (req_Seq req) (Utf8.coerce (resp_Error resp)) None, None) ∧
           (Utf8.coerce (resp_Error resp) = "" <-> resp_Error resp = "") ∧
           (Utf8.ascii_only (resp_Error resp) = true -> Utf8.coerce (resp_Error resp) = resp_Error resp) ∧
           (resp_Error resp = "" ->
            forall y, jc_ReadResponseBody c3 y = Return (c3, unmarshal_into y jx))).
Proof.
  intros Hid Hcc Hcs Hm Hjp Hin.
  destruct (jc_WriteRequest_open c req param jp Hcc Hm) as (c1 & Hw & Hs1 & _ & Hp1).
  destruct (js_ReadRequestHeader_message jsc rest r0 _ _ _ Hin)
    as (jsc1 & Hr & _ & _ & Hcs1 & Hpend & Hpar).
  eexists c1, jsc1, _. split_and!; [done..|by intros ?; simpl; apply Utf8.coerce_ascii| | ].
  { unfold js_ReadRequestBody. rewrite Hpar. by destruct jp. }
  intros resp x jx c2 rest2 Hseq Hx Hpc2. simpl in Hseq.
  destruct (js_WriteResponse_open jsc1 resp x (req_Seq req) jx) as (jsc2 & Hw2 & Hs2 & _).
  { by rewrite Hcs1. }
  { by rewrite Hpend, Hseq, lookup_insert_eq. }
  { by intros [? _]%Hx. }
  eexists jsc2, _. split_and!; [done..|]. intros Hin2.
  destruct (jc_ReadResponseHeader_message c2 rest2 RpcResponse0 (req_Seq req)
    (req_ServiceMethod req) (resp_Error resp) jx) as (c3 & Hr3 & Hres & _ & _); [done| | |done|].
  { by rewrite Hpc2, Hp1, lookup_insert_eq. }
  { by intros [_ ?]%Hx. }
  exists c3. split; [done|]. split; [apply Utf8.coerce_empty|]. split; [apply Utf8.coerce_ascii|]. intros He y. unfold jc_ReadResponseBody.
  by rewrite Hres, bool_decide_eq_true_2.
Qed.

(** A sequence number is answered at most once: [WriteResponse] needs the
    number in [pending] and removes it whatever happens to the write, so a second
    response to it, and one to a number never read, fail without writing. *)
Theorem json_answer_once (jsc jsc' : jsonServerCodec) (r r' : RpcResponse) (x x' : V) err :
  js_WriteResponse jsc r x = (jsc', err) -> resp_Seq r' = resp_Seq r ->
  js_WriteResponse jsc' r' x' = (jsc', Some (ErrNew "invalid sequence number in response")).
Proof.
  intros Hw Hs. assert (js_pending jsc' !! resp_Seq r = None) as Hn.
  { unfold js_WriteResponse in Hw. destruct (js_pending jsc !! resp_Seq r) eqn:Hp; [|by simplify_eq].
    destruct (if bool_decide _ then marshal x else inl JNull);
      [destruct (write_value _ _)|]; simplify_eq; apply lookup_delete_eq. }
  unfold js_WriteResponse. by rewrite Hs, Hn.
Qed.

(** C27: reading the next header and writing the response to an earlier request
    commute, results and final states alike, on an open connection: the reader
    and the handlers of a connection cannot disturb each other through the
    codec. *)
Theorem json_read_write_commute (jsc : jsonServerCodec) (r0 : RpcRequest) (r : RpcResponse) (x : V) :
  wclosed (js_conn jsc) = false -> resp_Seq r <> Word.u64 (js_seq jsc + 1) ->
  let '(a1, rq1, e1) := js_ReadRequestHeader jsc r0 in
  let '(a2, w1) := js_WriteResponse a1 r x in
  let '(b1, w2) := js_WriteResponse jsc r x in
  let '(b2, rq2, e2) := js_ReadRequestHeader b1 r0 in
  a2 = b2 ∧ rq1 = rq2 ∧ e1 = e2 ∧ w1 = w2.
Proof.
  intros Hc Hne. unfold js_ReadRequestHeader, js_WriteResponse, next_value, write_value.
  destruct jsc as [[inp snt wc] rq sq pend]; simpl in *. subst wc.
  set (result := if bool_decide _ then marshal x else inl JNull).
  destruct inp as [|[j|e] rest]; simpl.
  - destruct (pend !! resp_Seq r); [destruct result|]; done.
  - destruct (decode_serverRequest j serverRequest_reset) as [rq' [e|]] eqn:Hd; simpl.
    + destruct (pend !! resp_Seq r); [destruct result|]; simpl; by rewrite ?Hd.
    + rewrite lookup_insert_ne by done.
      destruct (pend !! resp_Seq r); [destruct result|]; simpl; rewrite ?Hd; simpl; try done.
      all: split_and!; try done. all: by rewrite delete_insert_ne.
  - destruct (pend !! resp_Seq r); [destruct result|]; done.
Qed.
End values.
End fields.
