(* ===== verification/GobCodec.v ===== *)
(** * gob_codec.go: the gob codecs

    A connection carries gob values: the headers, of which gob sends the fields
    that are not zero, and the bodies.  How gob treats the user's types is the
    interface [GoGob].  The encoders write to the connection itself; the
    buffered writer beside them is only flushed. *)
From S2P Require Import Prelude GoStd Types.

(** What gob does with the user's types: whether a value can be encoded, and how
    a sent value is decoded into a new value of a type, or into a given one. *)
Class GoGob (V : Type) := {
  gob_unencodable : V -> option error;
  gob_decode_new : rtype -> V -> V + error;
  gob_decode_into : V -> V -> V + error
}.

Inductive gob_field := GStr (s : string) | GUint (n : Z).

Section gob.
Context {V : Type} `{GoGob V}.

Inductive gob_value := GHeader (fields : list (string * gob_field)) | GBody (v : V).

(** The connection: what is to be read, what was written until it was closed,
    and how often its [Close] was called. *)
Record gob_stream := mkGob {
  g_input : list (gob_value + error);
  g_sent : list gob_value;
  g_closed : bool;
  g_closes : nat
}.

Definition gob_type_error : error := ErrNew "gob: type mismatch".

Definition gob_next (s : gob_stream) : gob_stream * (gob_value + error) :=
  match g_input s with
  | [] => (s, inr EOF)
  | inr e :: _ => (s, inr e)
  | inl v :: rest => (mkGob rest (g_sent s) (g_closed s) (g_closes s), inl v)
  end.

Definition gob_write (s : gob_stream) (v : gob_value) : gob_stream * option error :=
  if g_closed s then (s, Some closed_error) else (mkGob (g_input s) (g_sent s ++ [v]) false (g_closes s), None).

Definition gob_close (s : gob_stream) : gob_stream * option error :=
  if g_closed s then (mkGob (g_input s) (g_sent s) true (S (g_closes s)), Some closed_error)
  else (mkGob [inr closed_error] (g_sent s) true (S (g_closes s)), None).

(** ** gob.Encoder and gob.Decoder on headers *)

Definition str_field (n s : string) : list (string * gob_field) := if bool_decide (s = "") then [] else [(n, GStr s)].
Definition uint_field (n : string) (x : Z) : list (string * gob_field) := if bool_decide (x = 0) then [] else [(n, GUint x)].

Definition gob_request (r : RpcRequest) : gob_value :=
  GHeader (str_field "ServiceMethod" (req_ServiceMethod r) ++ uint_field "Seq" (req_Seq r)).
Definition gob_response (r : RpcResponse) : gob_value :=
  GHeader (str_field "ServiceMethod" (resp_ServiceMethod r) ++ uint_field "Seq" (resp_Seq r) ++
           str_field "Error" (resp_Error r)).

(** A field that was not sent keeps the value it has. *)
Fixpoint set_request_fields (fs : list (string * gob_field)) (r : RpcRequest) : RpcRequest * option error :=
  match fs with
  | [] => (r, None)
  | (n, GStr s) :: fs' =>
      if bool_decide (n = "ServiceMethod") then set_request_fields fs' (mkRequest s (req_Seq r) (req_next r))
      else if bool_decide (n = "Seq") then (r, Some gob_type_error) else set_request_fields fs' r
  | (n, GUint x) :: fs' =>
      if bool_decide (n = "Seq") then set_request_fields fs' (mkRequest (req_ServiceMethod r) x (req_next r))
      else if bool_decide (n = "ServiceMethod") then (r, Some gob_type_error) else set_request_fields fs' r
  end.

Fixpoint set_response_fields (fs : list (string * gob_field)) (r : RpcResponse) : RpcResponse * option error :=
  match fs with
  | [] => (r, None)
  | (n, GStr s) :: fs' =>
      if bool_decide (n = "ServiceMethod") then set_response_fields fs' (mkResponse s (resp_Seq r) (resp_Error r) (resp_next r))
      else if bool_decide (n = "Error") then set_response_fields fs' (mkResponse (resp_ServiceMethod r) (resp_Seq r) s (resp_next r))
      else if bool_decide (n = "Seq") then (r, Some gob_type_error) else set_response_fields fs' r
  | (n, GUint x) :: fs' =>
      if bool_decide (n = "Seq") then set_response_fields fs' (mkResponse (resp_ServiceMethod r) x (resp_Error r) (resp_next r))
      else if bool_decide (n = "ServiceMethod" ∨ n = "Error") then (r, Some gob_type_error) else set_response_fields fs' r
  end.

(** [dec.Decode(r)] *)
Definition decode_request (s : gob_stream) (r : RpcRequest) : gob_stream * RpcRequest * option error :=
  match gob_next s with
  | (s', inr e) => (s', r, Some e)
  | (s', inl (GBody _)) => (s', r, Some gob_type_error)
  | (s', inl (GHeader fs)) => let '(r', e) := set_request_fields fs r in (s', r', e)
  end.

Definition decode_response (s : gob_stream) (r : RpcResponse) : gob_stream * RpcResponse * option error :=
  match gob_next s with
  | (s', inr e) => (s', r, Some e)
  | (s', inl (GBody _)) => (s', r, Some gob_type_error)
  | (s', inl (GHeader fs)) => let '(r', e) := set_response_fields fs r in (s', r', e)
  end.

(** [dec.Decode(body)] for a body that is not nil. *)
Definition decode_body (dec : V -> V + error) (s : gob_stream) : gob_stream * (V + error) :=
  match gob_next s with
  | (s', inr e) => (s', inr e)
  | (s', inl (GHeader _)) => (s', inr gob_type_error)
  | (s', inl (GBody v)) => (s', dec v)
  end.

(** [dec.Decode(nil)] drops the next value. *)
Definition decode_nil (s : gob_stream) : gob_stream * option error :=
  match gob_next s with
  | (s', inr e) => (s', Some e)
  | (s', inl _) => (s', None)
  end.

(** [enc.Encode(body)]: a value that gob cannot encode is not written. *)
Definition encode_body (s : gob_stream) (v : V) : gob_stream * option error :=
  match gob_unencodable v with
  | Some e => (s, Some e)
  | None => gob_write s (GBody v)
  end.

(** ** The server's codec *)

(** [gs_encBuf] is what the buffered writer holds. *)
Record gobServerCodec := mkGobServer { gs_rwc : gob_stream; gs_encBuf : list gob_value; gs_closed : bool }.

Definition NewGobServerCodec (conn : gob_stream) : gobServerCodec := mkGobServer conn [] false.

(** [encBuf.Flush()]: nothing to write, nothing can fail. *)
Definition Flush (conn : gob_stream) (buf : list gob_value) : gob_stream * list gob_value * option error :=
  match buf with
  | [] => (conn, [], None)
  | _ => if g_closed conn then (conn, buf, Some closed_error)
         else (mkGob (g_input conn) (g_sent conn ++ buf) false (g_closes conn), [], None)
  end.

Definition gs_Close (c : gobServerCodec) : gobServerCodec * option error :=
  if gs_closed c then (c, None)
  else let '(conn, e) := gob_close (gs_rwc c) in (mkGobServer conn (gs_encBuf c) true, e).

Definition gs_ReadRequestHeader (c : gobServerCodec) (r : RpcRequest) : gobServerCodec * RpcRequest * option error :=
  let '(conn, r', e) := decode_request (gs_rwc c) r in (mkGobServer conn (gs_encBuf c) (gs_closed c), r', e).

Definition gs_ReadRequestBody (c : gobServerCodec) (t : rtype) : gobServerCodec * (V + error) :=
  let '(conn, v) := decode_body (gob_decode_new t) (gs_rwc c) in (mkGobServer conn (gs_encBuf c) (gs_closed c), v).

Definition gs_DiscardRequestBody (c : gobServerCodec) : gobServerCodec * option error :=
  let '(conn, e) := decode_nil (gs_rwc c) in (mkGobServer conn (gs_encBuf c) (gs_closed c), e).

(** The error path: flush, and close if that worked. *)
Definition gs_abort (c : gobServerCodec) (conn : gob_stream) : gobServerCodec :=
  let '(conn', buf', fe) := Flush conn (gs_encBuf c) in
  let c' := mkGobServer conn' buf' (gs_closed c) in
  match fe with None => (gs_Close c').1 | Some _ => c' end.

Definition gs_WriteResponse (c : gobServerCodec) (r : RpcResponse) (body : V) : gobServerCodec * option error :=
  match gob_write (gs_rwc c) (gob_response r) with
  | (conn, Some e) => (gs_abort c conn, Some e)
  | (conn, None) =>
      match encode_body conn body with
      | (conn', Some e) => (gs_abort c conn', Some e)
      | (conn', None) =>
          let '(conn'', buf', fe) := Flush conn' (gs_encBuf c) in
          (mkGobServer conn'' buf' (gs_closed c), fe)
      end
  end.

#[global] Instance gob_ServerCodec : ServerCodec V gobServerCodec := {
  ReadRequestHeader := gs_ReadRequestHeader;
  ReadRequestBody := gs_ReadRequestBody;
  DiscardRequestBody := gs_DiscardRequestBody;
  WriteResponse := gs_WriteResponse;
  CloseCodec := gs_Close
}.

(** ** The client's codec *)

Record gobClientCodec := mkGobClient { gc_rwc : gob_stream; gc_encBuf : list gob_value }.

Definition NewGobClientCodec (conn : gob_stream) : gobClientCodec := mkGobClient conn [].

Definition gc_WriteRequest (c : gobClientCodec) (r : RpcRequest) (body : V) : gobClientCodec * option error :=
  match gob_write (gc_rwc c) (gob_request r) with
  | (conn, Some e) => (mkGobClient conn (gc_encBuf c), Some e)
  | (conn, None) =>
      match encode_body conn body with
      | (conn', Some e) => (mkGobClient conn' (gc_encBuf c), Some e)
      | (conn', None) =>
          let '(conn'', buf', fe) := Flush conn' (gc_encBuf c) in (mkGobClient conn'' buf', fe)
      end
  end.

Definition gc_ReadResponseHeader (c : gobClientCodec) (r : RpcResponse) : gobClientCodec * RpcResponse * option error :=
  let '(conn, r', e) := decode_response (gc_rwc c) r in (mkGobClient conn (gc_encBuf c), r', e).

Definition gc_ReadResponseBody (c : gobClientCodec) (x : V) : outcome (gobClientCodec * (V + error)) :=
  let '(conn, v) := decode_body (gob_decode_into x) (gc_rwc c) in Return (mkGobClient conn (gc_encBuf c), v).

Definition gc_DiscardResponseBody (c : gobClientCodec) : gobClientCodec * option error :=
  let '(conn, e) := decode_nil (gc_rwc c) in (mkGobClient conn (gc_encBuf c), e).

Definition gc_Close (c : gobClientCodec) : gobClientCodec * option error :=
  let '(conn, e) := gob_close (gc_rwc c) in (mkGobClient conn (gc_encBuf c), e).

#[global] Instance gob_ClientCodec : ClientCodec V gobClientCodec := {
  ReadResponseHeader := gc_ReadResponseHeader;
  ReadResponseBody := gc_ReadResponseBody;
  DiscardResponseBody := gc_DiscardResponseBody;
  WriteRequest := gc_WriteRequest;
  CloseClientCodec := gc_Close
}.

(** ** Lemmas *)

Lemma set_request_fields_sent sm sq nx :
  set_request_fields (str_field "ServiceMethod" sm ++ uint_field "Seq" sq) (mkRequest "" 0 nx) = (mkRequest sm sq nx, None).
Proof.
  unfold str_field, uint_field. destruct (decide (sm = "")) as [->|]; destruct (decide (sq = 0)) as [->|];
    rewrite ?(bool_decide_eq_false_2 (sm = "")), ?(bool_decide_eq_false_2 (sq = 0)) by done; done.
Qed.

Lemma set_response_fields_sent sm sq err nx :
  set_response_fields (str_field "ServiceMethod" sm ++ uint_field "Seq" sq ++ str_field "Error" err) (mkResponse "" 0 "" nx)
  = (mkResponse sm sq err nx, None).
Proof.
  unfold str_field, uint_field. destruct (decide (sm = "")) as [->|]; destruct (decide (sq = 0)) as [->|];
    destruct (decide (err = "")) as [->|];
    rewrite ?(bool_decide_eq_false_2 (sm = "")), ?(bool_decide_eq_false_2 (sq = 0)), ?(bool_decide_eq_false_2 (err = "")) by done; done.
Qed.

(** ** Properties *)

(** A call through the two gob codecs.  The client writes the header and the
    argument; the server, reading into a header object that is clear, gets the
    same header and the argument; it answers with a header and the reply, and
    the client, again with a clear object, gets the same header and the reply.
    The objects have to be clear because gob leaves out fields that are zero. *)
Theorem gob_call_roundtrip (c : gobClientCodec) (s : gobServerCodec) (req : RpcRequest) (param : V) t rest nx
    (resp : RpcResponse) (x : V) :
  g_closed (gc_rwc c) = false -> gc_encBuf c = [] -> g_closed (gs_rwc s) = false -> gs_encBuf s = [] ->
  gob_unencodable param = None -> gob_unencodable x = None ->
  exists c1, gc_WriteRequest c req param = (c1, None) ∧
    g_sent (gc_rwc c1) = g_sent (gc_rwc c) ++ [gob_request req; GBody param] ∧
    (g_input (gs_rwc s) = inl (gob_request req) :: inl (GBody param) :: rest ->
     exists s1 s2 s3, gs_ReadRequestHeader s (mkRequest "" 0 nx)
         = (s1, mkRequest (req_ServiceMethod req) (req_Seq req) nx, None) ∧
       gs_ReadRequestBody s1 t = (s2, gob_decode_new t param) ∧ g_input (gs_rwc s2) = rest ∧
       gs_WriteResponse s2 resp x = (s3, None) ∧
       g_sent (gs_rwc s3) = g_sent (gs_rwc s) ++ [gob_response resp; GBody x] ∧
       forall c2 rest2, g_input (gc_rwc c2) = inl (gob_response resp) :: inl (GBody x) :: rest2 ->
         exists c3, gc_ReadResponseHeader c2 RpcResponse0
             = (c3, mkResponse (resp_ServiceMethod resp) (resp_Seq resp) (resp_Error resp) None, None) ∧
           forall y, exists c4, gc_ReadResponseBody c3 y = Return (c4, gob_decode_into y x)).
Proof.
  intros Hc Hb Hs Hsb Hp Hx. unfold gc_WriteRequest, encode_body, gob_write. rewrite Hc. simpl. rewrite Hp, Hb. simpl.
  eexists. split; [done|]. simpl. rewrite <- (assoc_L (++)). split; [done|]. intros Hin.
  unfold gs_ReadRequestHeader, decode_request, gob_next. rewrite Hin. unfold gob_request.
  rewrite set_request_fields_sent. do 3 eexists. split; [done|].
  unfold gs_ReadRequestBody, decode_body, gob_next. simpl. split; [done|]. split; [done|].
  unfold gs_WriteResponse, gob_write, encode_body. simpl. rewrite Hs, Hx, Hsb. simpl. split; [done|].
  simpl. rewrite <- (assoc_L (++)). split; [done|]. intros c2 rest2 Hin2.
  unfold gc_ReadResponseHeader, decode_response, gob_next. rewrite Hin2. unfold gob_response.
  unfold RpcResponse0. rewrite set_response_fields_sent. eexists. split; [done|]. intros y.
  unfold gc_ReadResponseBody, decode_body, gob_next. simpl. by eexists.
Qed.

(** *** What the server sends *)

Inductive gob_event :=
| GReadHeader (r : RpcRequest) | GReadBody (t : rtype) | GDiscard | GRespond (r : RpcResponse) (v : V) | GClose.

Definition gob_step (c : gobServerCodec) (e : gob_event) : option gobServerCodec :=
  Some match e with
  | GReadHeader r => (gs_ReadRequestHeader c r).1.1
  | GReadBody t => (gs_ReadRequestBody c t).1
  | GDiscard => (gs_DiscardRequestBody c).1
  | GRespond r v => (gs_WriteResponse c r v).1
  | GClose => (gs_Close c).1
  end.

#[global] Instance gob_lts : LTS gobServerCodec gob_event := gob_step.

(** A sequence of headers, each followed by its body. *)
Inductive framed : list gob_value -> Prop :=
| framed_nil : framed []
| framed_snoc l r v : framed l -> framed (l ++ [gob_response r; GBody v]).

Record gob_ok (c : gobServerCodec) : Prop := {
  go_buf : gs_encBuf c = [];
  go_closed : gs_closed c = g_closed (gs_rwc c);
  go_closes : g_closes (gs_rwc c) = if gs_closed c then 1%nat else 0%nat;
  go_sent : framed (g_sent (gs_rwc c)) ∨
    (g_closed (gs_rwc c) = true ∧ exists l r, framed l ∧ g_sent (gs_rwc c) = l ++ [gob_response r])
}.

(** What reading leaves alone. *)
Definition written (s : gob_stream) : list gob_value * bool * nat := (g_sent s, g_closed s, g_closes s).

Lemma gob_ok_read c conn :
  gob_ok c -> written conn = written (gs_rwc c) -> gob_ok (mkGobServer conn (gs_encBuf c) (gs_closed c)).
Proof. intros [H1 H2 H3 H4] [= E1 E2 E3]. split; simpl; rewrite ?E1, ?E2, ?E3; done. Qed.

Lemma gob_next_written s : written (gob_next s).1 = written s.
Proof. unfold gob_next. by destruct (g_input s) as [|[v|e] l]. Qed.

Lemma decode_request_written s r : written (decode_request s r).1.1 = written s.
Proof.
  pose proof (gob_next_written s). unfold decode_request. destruct (gob_next s) as [s' [[fs|v]|e]]; try done.
  by destruct (set_request_fields fs r).
Qed.

Lemma decode_body_written dec s : written (decode_body dec s).1 = written s.
Proof. pose proof (gob_next_written s). unfold decode_body. by destruct (gob_next s) as [s' [[fs|v]|e]]. Qed.

Lemma decode_nil_written s : written (decode_nil s).1 = written s.
Proof. pose proof (gob_next_written s). unfold decode_nil. by destruct (gob_next s) as [s' [v|e]]. Qed.

Lemma gob_ok_write c r v : gob_ok c -> gob_ok (gs_WriteResponse c r v).1.
Proof.
  intros [Hb Hc Hn Hs]. unfold gs_WriteResponse, gob_write, encode_body, gs_abort, gs_Close, gob_close.
  destruct c as [[inp snt cl n] buf gcl]. simpl in *. subst buf gcl. destruct cl; simpl; [by split|]. subst n.
  destruct Hs as [Hs|[? _]]; [|done].
  destruct (gob_unencodable v); simpl; (split; [done|done|done|]); simpl.
  - right. split; [done|]. eauto.
  - left. rewrite <- (assoc_L (++)). by constructor.
Qed.

Lemma gob_ok_step c e c' : gob_ok c -> gob_step c e = Some c' -> gob_ok c'.
Proof.
  intros Hok [= <-]. destruct e as [r|t| |r v|].
  - pose proof (decode_request_written (gs_rwc c) r) as Hd. unfold gs_ReadRequestHeader.
    destruct (decode_request (gs_rwc c) r) as [[conn r'] e]. by apply gob_ok_read.
  - pose proof (decode_body_written (gob_decode_new t) (gs_rwc c)) as Hd. unfold gs_ReadRequestBody.
    destruct (decode_body _ (gs_rwc c)) as [conn v]. by apply gob_ok_read.
  - pose proof (decode_nil_written (gs_rwc c)) as Hd. unfold gs_DiscardRequestBody.
    destruct (decode_nil (gs_rwc c)) as [conn e]. by apply gob_ok_read.
  - by apply gob_ok_write.
  - unfold gs_Close, gob_close. destruct (gs_closed c) eqn:E; [done|]. destruct Hok as [H1 H2 Hn H3].
    rewrite E in H2, Hn. rewrite <- H2 in H3 |- *. simpl. rewrite Hn. split; simpl; [done..|]. left. by destruct H3 as [?|[? _]].
Qed.

(** C29: whatever is read and written through a server codec, and in whatever
    order, what it has sent is a sequence of headers each followed by its body;
    only when the connection is closed can the last header lack its body.  The
    codec is closed exactly when its connection is, and it has called the
    connection's [Close] once then and never before, however often it was itself
    closed; a [Close] of the closed codec returns no error. *)
Theorem gob_server_frames conn c :
  g_sent conn = [] -> g_closed conn = false -> g_closes conn = 0%nat -> reachable (NewGobServerCodec conn) c ->
  gs_encBuf c = [] ∧ gs_closed c = g_closed (gs_rwc c) ∧
  g_closes (gs_rwc c) = (if gs_closed c then 1%nat else 0%nat) ∧
  (gs_closed c = true -> gs_Close c = (c, None)) ∧
  (gs_closed c = false -> exists c', gs_Close c = (c', None) ∧ gs_closed c' = true ∧ g_closes (gs_rwc c') = 1%nat) ∧
  (framed (g_sent (gs_rwc c)) ∨
   (g_closed (gs_rwc c) = true ∧ exists l r, framed l ∧ g_sent (gs_rwc c) = l ++ [gob_response r])).
Proof.
  intros Hs Hc Hn Hr. assert (gob_ok c) as [H1 H2 H3 H4].
  { revert Hr. apply (reachable_invariant gob_ok); [|intros ? ? ?; apply gob_ok_step].
    split; simpl; [done..|]. left. rewrite Hs. constructor. }
  unfold gs_Close, gob_close. split_and!; [done..| | |done]; intros E; rewrite E in *; [done|].
  rewrite <- H2, H3. by eexists.
Qed.

(** The client's codec does not recover from an argument that gob cannot
    encode: the header is out already and the connection stays open, so the next
    request follows a header without a body.  The server then takes the next
    header for the argument of the failed call, and the next argument for a
    header, on which it gives up the connection. *)
Theorem gob_client_loses_step (c : gobClientCodec) (s : gobServerCodec) r1 v1 e r2 v2 rest t nx :
  g_closed (gc_rwc c) = false -> gc_encBuf c = [] -> gob_unencodable v1 = Some e -> gob_unencodable v2 = None ->
  g_input (gs_rwc s) = inl (gob_request r1) :: inl (gob_request r2) :: inl (GBody v2) :: rest ->
  exists c1 c2, gc_WriteRequest c r1 v1 = (c1, Some e) ∧ gc_WriteRequest c1 r2 v2 = (c2, None) ∧
    g_sent (gc_rwc c2) = g_sent (gc_rwc c) ++ [gob_request r1; gob_request r2; GBody v2] ∧
    exists s1 s2 s3 rq, gs_ReadRequestHeader s (mkRequest "" 0 nx)
        = (s1, mkRequest (req_ServiceMethod r1) (req_Seq r1) nx, None) ∧
      gs_ReadRequestBody s1 t = (s2, inr gob_type_error) ∧
      gs_ReadRequestHeader s2 (mkRequest "" 0 nx) = (s3, rq, Some gob_type_error).
Proof.
  intros Hc Hb H1 H2 Hin. unfold gc_WriteRequest, encode_body, gob_write. rewrite Hc. simpl. rewrite H1.
  do 2 eexists. split; [done|]. simpl. rewrite H2, Hb. simpl. split; [done|]. simpl. rewrite <- !(assoc_L (++)).
  split; [done|]. unfold gs_ReadRequestHeader, decode_request, gob_next. rewrite Hin. unfold gob_request.
  rewrite set_request_fields_sent. do 4 eexists. split; [done|].
  unfold gs_ReadRequestBody, decode_body, gob_next. simpl. split; done.
Qed.
End gob.

Arguments gob_value V : clear implicits.
Arguments gob_stream V : clear implicits.
Arguments gobServerCodec V : clear implicits.
Arguments gobClientCodec V : clear implicits.

(** ** Integers, of which the negative ones cannot be encoded *)
Module GobDemo.

#[export] Instance nat_gob : GoGob Z := {
  gob_unencodable z := if bool_decide (z < 0) then Some (ErrNew "gob: negative") else None;
  gob_decode_new _ z := inl z;
  gob_decode_into _ z := inl z
}.

Definition client0 : gobClientCodec Z := NewGobClientCodec (mkGob [] [] false 0).
Definition req : RpcRequest := mkRequest "Arith.Double" 0 None.
Definition server0 : gobServerCodec Z :=
  NewGobServerCodec (mkGob [inl (gob_request req); inl (GBody 21)] [] false 0).

Lemma gob_call_roundtrip_witness :
  exists c1, gc_WriteRequest client0 req 21 = (c1, None) ∧
    exists s1 s2 s3, gs_ReadRequestHeader server0 RpcRequest0 = (s1, req, None) ∧
      gs_ReadRequestBody s1 (LeafType 2 "int" "") = (s2, inl 21) ∧
      gs_WriteResponse s2 (mkResponse "Arith.Double" 0 "" None) 42 = (s3, None).
Proof.
  destruct (gob_call_roundtrip client0 server0 req 21 (LeafType 2 "int" "") [] None (mkResponse "Arith.Double" 0 "" None) 42)
    as (c1 & H1 & _ & H2); [reflexivity..|].
  exists c1. split; [exact H1|]. destruct H2 as (s1 & s2 & s3 & E1 & E2 & _ & E3 & _); [reflexivity|].
  exists s1, s2, s3. split; [exact E1|split; [exact E2|exact E3]].
Defined.

(** A response that cannot be encoded. *)
Definition broken : gobServerCodec Z := (gs_WriteResponse server0 (mkResponse "Arith.Double" 0 "" None) (-1)).1.

Lemma gob_server_frames_witness :
  g_closes (gs_rwc broken) = 1%nat ∧ gs_Close broken = (broken, None) ∧
  (framed (g_sent (gs_rwc broken)) ∨
   (g_closed (gs_rwc broken) = true ∧ exists l r, framed l ∧ g_sent (gs_rwc broken) = l ++ [gob_response r])).
Proof.
  destruct (gob_server_frames (mkGob [inl (gob_request req); inl (GBody 21)] [] false 0) broken)
    as (_ & _ & H1 & H2 & _ & H3); [reflexivity..| |].
  - apply (lts_run_reachable _ [GRespond (mkResponse "Arith.Double" 0 "" None) (-1)]). reflexivity.
  - split; [exact H1|]. split; [apply H2; reflexivity|exact H3].
Defined.

Definition desynced : gobServerCodec Z :=
  NewGobServerCodec (mkGob [inl (gob_request req); inl (gob_request req); inl (GBody 2)] [] false 0).

Lemma gob_client_loses_step_witness :
  exists c1 c2, gc_WriteRequest client0 req (-1) = (c1, Some (ErrNew "gob: negative")) ∧ gc_WriteRequest c1 req 2 = (c2, None) ∧
    g_sent (gc_rwc c2) = [gob_request req; gob_request req; GBody 2] ∧
    exists s1 s2 s3 rq, gs_ReadRequestHeader desynced RpcRequest0 = (s1, req, None) ∧
      gs_ReadRequestBody s1 (LeafType 2 "int" "") = (s2, inr gob_type_error) ∧
      gs_ReadRequestHeader s2 RpcRequest0 = (s3, rq, Some gob_type_error).
Proof.
  apply (gob_client_loses_step client0 desynced req (-1) (ErrNew "gob: negative") req 2 [] (LeafType 2 "int" "") None);
    reflexivity.
Defined.
End GobDemo.
