(* ===== verification/ServerDemo.v ===== *)
(** * A server at work

    A concrete server with a JSON codec, one service and one connection, and
    the theorems on it.  The connection brings a call of [Arith.Double], a call
    of a method that does not exist, and the end of the stream; the second
    answer is sent while the first call still runs. *)
From S2P Require Import Prelude GoStd Utils Types FreeList Service Plugin Server ServerConn ServerSafety ServerProps ServerProgress ServerTypes JsonCodec.

Module ServerDemo.

#[export] Instance ascii_tables : UnicodeTables := { upper_table := fun _ => false; RuneError_not_upper := eq_refl }.

(** Integers as the only values. *)
#[export] Instance int_json : GoJson Z := {
  marshal z := inl (JNum z);
  unmarshal_into z j := match j with JNum n => inl n | JNull => inl z | _ => inr type_error end;
  zero_value _ := 0
}.

Definition order (m : gmap string (Plugin Z unit)) : list (string * Plugin Z unit) := map_to_list m.

Definition int_type : rtype := LeafType 2 "int" "".
Definition Double : rmethod :=
  mkRMethod "Double" "" [PtrType "" "" (LeafType 25 "Arith" "main"); int_type; PtrType "" "" int_type]
    [typeOfError] 0.
Definition typ : list rmethod := [Double].

Lemma typ_names : NoDup (m_Name <$> typ).
Proof. apply (bool_decide_unpack _). by vm_compute. Qed.

Definition Arith : Receiver := mkReceiver (Some "Arith") typ typ_names.

(** A nil pointer of the same type. *)
Definition nilArith : Receiver := mkReceiver None typ typ_names.

Definition messages : list (json + error) :=
  [inl (request_message "Arith.Double" (JNum 21) 7); inl (request_message "Arith.Halve" (JNum 4) 8)].

#[export] Instance demo_codec : ServerCodec Z jsonServerCodec := json_ServerCodec String.eqb.

Definition dial (c : connid) : jsonServerCodec := NewJsonServerCodec (new_stream messages).

#[export] Instance demo_steps : LTS (@sys Z unit jsonServerCodec) (sys_event (V := Z)) :=
  server_steps order 0 dial dial.

Definition conf : ServerConfig := mkServerConfig "demo.arith.svc" 8888 "json" 0 0 0 "rr" 0 0.
Definition Listen (addr : string) : string + error := inl ("127.0.0.1" +:+ addr).

Definition new : Server Z unit :=
  match newRpcServerWithOptions Listen tt conf with Return s => s | Panic _ => mkServer conf None newServerPluginManager None ∅ empty_pool empty_pool 0 tt end.
Definition made : Server Z unit :=
  match RegisterService order new Arith with Return (s, _) => s | Panic _ => new end.
Definition up : Server Z unit := match Start made with Return s => s | Panic _ => made end.

(** The reader takes both messages before the first call returns. *)
Definition serving : list (sys_event (V := Z)) :=
  [EvAccept 0; EvReader 0 1; EvReader 0 1; EvReader 0 2; EvReader 0 2; EvGo 0 1; EvGo 0 0; EvGo 0 0].
(** The reader answers the second request and sees the end of the stream. *)
Definition rejecting : list (sys_event (V := Z)) :=
  [EvGo 0 0; EvGo 0 0; EvGo 0 0; EvGo 0 0; EvGo 0 0; EvReader 0 2; EvReader 0 2].
(** The call returns and is answered, and the connection is closed. *)
Definition ending : list (sys_event (V := Z)) :=
  [EvReturn 0 1 42 None; EvGo 0 1; EvGo 0 1; EvGo 0 1; EvGo 0 1; EvGo 0 1; EvGo 0 1; EvGo 0 1; EvGo 0 1; EvReader 0 2].

Definition run (es : list (sys_event (V := Z))) : @sys Z unit jsonServerCodec :=
  default (started up) (lts_run (started up) es).

Definition mid := run serving.
Definition done := run (serving ++ rejecting ++ ending).

(** ** The theorems on this server *)

Lemma new_prepared : prepared order new.
Proof. apply (prepared_new order Listen tt conf). vm_compute. reflexivity. Qed.

Lemma made_prepared : prepared order made.
Proof. apply (prepared_register order new Arith "" false made None); [apply new_prepared|]. vm_compute. reflexivity. Qed.

Lemma run_running es : lts_run (started up) es = Some (run es) -> running order 0 dial dial (run es).
Proof.
  intros Hr. exists made, up. split; [apply made_prepared|split; [reflexivity|]].
  by apply (lts_run_reachable _ es).
Qed.

Lemma mid_running : running order 0 dial dial mid.
Proof. apply (run_running serving). vm_compute. reflexivity. Qed.

Lemma done_running : running order 0 dial dial done.
Proof. apply (run_running (serving ++ rejecting ++ ending)). vm_compute. reflexivity. Qed.

(** The connection at the end, and the two goroutines in the middle. *)
Definition done_conn : conn :=
  default (mkConn None None 0 false [] []) (conns done !! 0%nat).
Definition caller : goroutine := default (reader0 0 Loop) (gs mid !! (0, 1)%nat).
Definition reader : goroutine := default (reader0 0 Loop) (gs mid !! (0, 0)%nat).

Lemma responses_answer_requests_witness :
  (forall h r, (h, r) ∈ responses done_conn -> hdr_of_resp r = h) ∧
  (exists unanswered, headers done_conn ≡ₚ (hdr_of_resp <$> (responses done_conn).*2) ++ unanswered) ∧
  (closed done_conn = true -> headers done_conn ≡ₚ (hdr_of_resp <$> (responses done_conn).*2)).
Proof.
  apply (responses_answer_requests order 0 dial dial done 0 done_conn); [apply done_running|].
  vm_compute. reflexivity.
Defined.

(** The call of [Arith.Double], with its argument. *)
Lemma calls_are_typed_witness :
  exists svc me arg rv, serviceMap (srv mid) !! (g_meth caller).1 = Some svc ∧ methods svc !! (g_meth caller).2 = Some me ∧
    g_args caller = Some (arg, rv) ∧ Call_fits (method me) [arg_type arg; reply_type rv] = true.
Proof.
  apply (calls_are_typed order 0 dial dial mid 0 1 caller 0); [apply mid_running|vm_compute; reflexivity|right; vm_compute; reflexivity].
Defined.

(** In the middle one request is with its method and one with the reader. *)
Lemma server_answers_witness :
  load mid = 31%nat ∧
  (exists es σ', Forall (serving_event (fun _ _ => (42, None))) es ∧ lts_run mid es = Some σ' ∧ served mid σ') ∧
  forall es σ', Forall (serving_event (fun _ _ => (42, None))) es -> lts_run mid es = Some σ' ->
    (length es <= load mid)%nat ∧ ((exists e, serving_event (fun _ _ => (42, None)) e ∧ is_Some (sys_step order 0 dial dial σ' e)) ∨ served mid σ').
Proof. split; [vm_compute; reflexivity|]. apply (server_answers order 0 dial dial (fun _ _ => (42, None)) mid), mid_running. Defined.

(** In the middle the connection holds it up. *)
Lemma onStop_waits_witness : is_Some (onStop [] mid) <-> forall c, gs mid !! (c, 0%nat) = None.
Proof. apply (onStop_waits order 0 dial dial mid []), mid_running. Defined.

Lemma objects_have_one_owner_witness :
  (forall q, own_req caller = Some q -> own_req reader <> Some q) ∧
  (forall r, own_resp caller = Some r -> own_resp reader <> Some r) ∧
  (0 = 0 -> locked caller = true -> locked reader = false)%nat.
Proof.
  apply (objects_have_one_owner order 0 dial dial mid 0 1 caller 0 0 reader);
    [apply mid_running|vm_compute; reflexivity..|discriminate].
Defined.

Definition filling := run (take 7 serving).
Definition filler : goroutine := default (reader0 0 Loop) (gs filling !! (0, 0)%nat).

Lemma response_is_fresh_witness :
  exists req, heap (reqs (srv filling)) !! 1%nat = Some req ∧ hdr_of_req req = g_hdr filler ∧
    heap (resps (srv filling)) !! 0%nat = Some RpcResponse0 ∧
    fill_response req RpcResponse0 (g_err filler)
    = mkResponse (g_hdr filler).1 (g_hdr filler).2 (g_err filler) None.
Proof.
  apply (response_is_fresh order 0 dial dial filling 0 0 filler 1 0);
    [apply (run_running (take 7 serving))|..]; vm_compute; reflexivity.
Defined.

Lemma wait_groups_count_witness :
  (exists active, activeConn (srv done) = Some active ∧
     (forall c, c ∈ active <-> is_Some (gs done !! (c, 0%nat))) ∧ serveWG (srv done) = Z.of_nat (size active)) ∧
  wg done_conn = Z.of_nat (length (collect (handler 0) (gs done))) ∧
  (closed done_conn = true -> forall h g, gs done !! (0%nat, h) = Some g -> h = 0%nat ∧ g_pc g = Tail).
Proof.
  apply (wait_groups_count order 0 dial dial done 0 done_conn); [apply done_running|].
  vm_compute. reflexivity.
Defined.

Lemma register_spec_witness :
  (exists s' svc, register order new Arith "" false = Return (s', None) ∧
    s' = set_services new (<["Arith" := svc]> (serviceMap new)) ∧ name svc = "Arith" ∧
    forall mn me, methods svc !! mn = Some me <->
      exists m recv arg reply, m ∈ typ ∧ m_PkgPath m = "" ∧ m_Name m = mn ∧
        m_In m = [recv; arg; reply] ∧ me = mkMethod m arg reply 0) ∧
  (exists why, register order new nilArith "Named" true = Panic why).
Proof.
  pose proof (register_spec order new Arith "" false new_prepared) as H.
  pose proof (register_spec order new nilArith "Named" true new_prepared) as Hnil. split.
  - destruct (register order new Arith "" false) as [[s' [e|]]|why] eqn:E; [exfalso; vm_compute in E; discriminate| |discriminate].
    destruct H as (tn & Htn & H). injection Htn as <-. destruct H as (_ & _ & _ & _ & svc & H1 & H2 & _ & H3).
    exists s', svc. split; [reflexivity|]. split; [exact H1|]. split; [exact H2|exact H3].
  - destruct (register order new nilArith "Named" true) as [[s' err]|why]; [|exists why; reflexivity].
    destruct Hnil as (tn & Htn & _). discriminate.
Defined.

Definition reading := run (take 2 serving).

Lemma header_dispatch_witness :
  exists h, readRequestHeader order (srv reading) (dial 0) 0
    = Return (set_reqs (srv reading) (store (reqs (srv reading)) 0 (mkRequest "Arith.Double" 1 None)),
              (ReadRequestHeader (dial 0) RpcRequest0).1.1, h) ∧ hr_req h = Some 0%nat ∧ hr_keepReading h = true.
Proof.
  destruct (header_dispatch order 0 dial dial reading (dial 0) 0 (ReadRequestHeader (dial 0) RpcRequest0).1.1
    (mkRequest "Arith.Double" 1 None) None) as (h & E & H1 & H2 & _).
  - apply (run_running (take 2 serving)). vm_compute. reflexivity.
  - vm_compute. reflexivity.
  - exists h. split; [exact E|split; [exact H1|exact H2]].
Defined.

Lemma readRequest_total_witness :
  exists r1 cd1 rr, readRequest order (srv reading) (dial 0) 0
    = Return (set_reqs (srv reading) (store (reqs (srv reading)) 0 r1), cd1, rr).
Proof.
  destruct (readRequest_total order 0 dial dial reading (dial 0) 0) as (r1 & cd1 & rr & E & _).
  - apply (run_running (take 2 serving)). vm_compute. reflexivity.
  - exists r1, cd1, rr. exact E.
Defined.

Lemma registerMethods_spec_witness :
  exists ms, registerMethods typ true = inl ms ∧ registerMethods typ false = inl ms.
Proof.
  destruct (registerMethods_spec typ typ_names) as [(ms & E & _) _].
  exists ms. split; [exact E|]. rewrite <- E. vm_compute. reflexivity.
Defined.

(** ** Plugins *)

(** A plugin that counts requests up. *)
Definition rw : ServerRWPlugin :=
  {| srw_PreReadRequest := fun r => (mkRequest (req_ServiceMethod r) (req_Seq r + 1) (req_next r), None);
     srw_PostReadRequest := fun r : RpcRequest * Z => (r, None);
     srw_PreWriteResponse := fun r => (r, None);
     srw_PostWriteResponse := fun r => (r, None) |}.

Definition bump : Plugin Z unit := mkPlugin "bump" ServerRWPluginType true (Some rw) None None None.

Lemma no_plugin_is_ever_added_witness :
  (forall p, Add (Add newServerPluginManager bump) p = Add newServerPluginManager bump) ∧
  hooks_answer (serverPluginManager order) (Add newServerPluginManager bump) (Some UnsupportedOperationError) None ∧
  hooks_answer (clientPluginManager order) (Add newServerPluginManager bump) None (Some UnsupportedOperationError).
Proof.
  apply (no_plugin_is_ever_added order (Add newServerPluginManager bump)).
  apply (lts_run_reachable _ [EvAdd bump]). vm_compute. reflexivity.
Defined.

Lemma PreReadRequest_runs_all_witness :
  exists err, spm_PreReadRequest order (mkManager {[ ServerRWPluginType := Some {[ "bump" := bump ]} ]})
      (mkRequest "Arith.Double" 1 None)
    = Return (mkRequest "Arith.Double" 2 None, err).
Proof.
  destruct (PreReadRequest_runs_all order (mkManager {[ ServerRWPluginType := Some {[ "bump" := bump ]} ]})
    {[ "bump" := bump ]} (mkRequest "Arith.Double" 1 None) [rw]) as (_ & err & E & _).
  - intros m. reflexivity.
  - vm_compute. reflexivity.
  - vm_compute. reflexivity.
  - exists err. exact E.
Defined.

(** ** The JSON codecs *)

Definition client0 : jsonClientCodec (V := Z) := NewJsonClientCodec (new_stream []).
Definition server0 : jsonServerCodec := NewJsonServerCodec (new_stream [inl (request_message "Arith.Double" (JNum 21) 7)]).

Lemma json_call_roundtrip_witness :
  exists c1 jsc1 r1,
    jc_WriteRequest client0 (mkRequest "Arith.Double" 7 None) 21 = (c1, None) ∧
    js_ReadRequestHeader String.eqb server0 RpcRequest0 = (jsc1, r1, None) ∧
    req_ServiceMethod r1 = "Arith.Double".
Proof.
  destruct (json_call_roundtrip String.eqb client0 server0 (mkRequest "Arith.Double" 7 None) RpcRequest0 21 (JNum 21)
    int_type []) as (c1 & jsc1 & r1 & H1 & _ & H2 & H3 & _);
    [apply (bool_decide_unpack _); vm_compute; exact I|reflexivity..|discriminate|reflexivity|].
  exists c1, jsc1, r1. split; [exact H1|split; [exact H2|exact H3]].
Defined.

(** A server codec that has read the request. *)
Definition server1 : jsonServerCodec := (js_ReadRequestHeader String.eqb server0 RpcRequest0).1.1.
Definition server2 : jsonServerCodec := (js_WriteResponse server1 (mkResponse "Arith.Double" 1 "" None) 42).1.

Lemma json_answer_once_witness :
  js_WriteResponse server2 (mkResponse "" 1 "again" None) 0
  = (server2, Some (ErrNew "invalid sequence number in response")).
Proof.
  apply (json_answer_once server1 server2 (mkResponse "Arith.Double" 1 "" None) (mkResponse "" 1 "again" None) 42 0 None);
    vm_compute; reflexivity.
Defined.

Lemma json_read_write_commute_witness :
  let '(a1, rq1, e1) := js_ReadRequestHeader String.eqb server1 RpcRequest0 in
  let '(a2, w1) := js_WriteResponse a1 (mkResponse "Arith.Double" 1 "" None) 42 in
  let '(b1, w2) := js_WriteResponse server1 (mkResponse "Arith.Double" 1 "" None) 42 in
  let '(b2, rq2, e2) := js_ReadRequestHeader String.eqb b1 RpcRequest0 in
  a2 = b2 ∧ rq1 = rq2 ∧ e1 = e2 ∧ w1 = w2.
Proof.
  apply (json_read_write_commute String.eqb server1 RpcRequest0 (mkResponse "Arith.Double" 1 "" None) 42);
    [vm_compute; reflexivity|vm_compute; discriminate].
Defined.
End ServerDemo.
