(* ===== verification/Client.v ===== *)
(** * client.go: the client

    A client has any number of goroutines in [Go]/[send], one in [receive], and
    callers of [Close].  The state holds the fields of [Client], the [Call]
    objects and [Done] channels, and where each goroutine is.  One event is one
    atomic action: a critical section of [mutex], taking [reqMutex], a call of
    the codec (whose answer is part of the event) or a send on a channel. *)
From S2P Require Import Prelude GoStd Types Plugin.

Abbreviation callid := nat.
Abbreviation chanid := nat.

Section client.
Context {V W : Type}.
Context (ord : gmap string (Plugin V W) -> list (string * Plugin V W)).

(** [Call]; [c_Reply] is the value that the reply pointer holds. *)
Record Call := mkCall {
  c_ServiceMethod : string;
  c_Args : V;
  c_Reply : V;
  c_Error : option error;
  c_Done : chanid
}.

Definition set_Error (c : Call) (e : option error) : Call :=
  mkCall (c_ServiceMethod c) (c_Args c) (c_Reply c) e (c_Done c).
Definition set_Reply (c : Call) (v : V) : Call :=
  mkCall (c_ServiceMethod c) (c_Args c) v (c_Error c) (c_Done c).

(** A channel of calls. *)
Record chan := mkChan { cap : nat; buf : list callid }.

(** Where a goroutine in [send] is. *)
Inductive send_pc :=
| SLock                               (* before reqMutex.Lock() *)
| SRegister                           (* before the first critical section *)
| SRefused                            (* the client is shut down *)
| SWrite (seq : Z)                    (* before codec.WriteRequest *)
| SFailed (seq : Z) (err : error)     (* before the second critical section *)
| SFailDone (call : callid) (err : error)  (* before call.done() *)
| SUnlock.                            (* before reqMutex.Unlock() *)

(** Where [receive] is. *)
Inductive rx_pc :=
| RxRead                                        (* before ReadResponseHeader *)
| RxPop (resp : RpcResponse)                    (* before the critical section *)
| RxHooks (resp : RpcResponse) (call : option callid)
| RxBody (resp : RpcResponse) (call : option callid)
| RxStop (err : error)                          (* before reqMutex.Lock() *)
| RxTerm (err : error)                          (* before the pending calls are ended *)
| RxUnlock
| RxDone.

Inductive owner := OSend (id : callid) | ORx.

(** How a call was completed: the channel it was sent on, the response that
    was delivered to it, if any, and the error it was left with. *)
Record completion := mkCompletion {
  co_call : callid;
  co_done : chanid;
  co_resp : option RpcResponse;
  co_err : option error
}.

(** [Client], its goroutines, and four histories: the number of requests
    registered, the sequence number of each registered call, the calls
    completed, in order, and what was received from the [Done] channels. *)
Record client := mkClient {
  cpm : pluginManager V W;
  reqMutex : option owner;
  request : RpcRequest;
  seq : Z;
  pending : gmap Z callid;
  closing : bool;
  shutdown : bool;
  calls : gmap callid Call;
  chans : gmap chanid chan;
  senders : gmap callid send_pc;
  rx : rx_pc;
  registered : Z;
  seq_of : gmap callid Z;
  completed : list completion;
  received : list (chanid * callid)
}.

(** [NewClientWithCodec] *)
Definition NewClientWithCodec : client :=
  mkClient newClientPluginManager None RpcRequest0 0 ∅ false false ∅ ∅ ∅ RxRead 0 ∅ [] [].

Definition upd_senders (st : client) (f : gmap callid send_pc) : client :=
  mkClient (cpm st) (reqMutex st) (request st) (seq st) (pending st) (closing st) (shutdown st)
    (calls st) (chans st) f (rx st) (registered st) (seq_of st) (completed st) (received st).
Definition upd_mutex (st : client) (o : option owner) : client :=
  mkClient (cpm st) o (request st) (seq st) (pending st) (closing st) (shutdown st)
    (calls st) (chans st) (senders st) (rx st) (registered st) (seq_of st) (completed st) (received st).
Definition upd_rx (st : client) (p : rx_pc) : client :=
  mkClient (cpm st) (reqMutex st) (request st) (seq st) (pending st) (closing st) (shutdown st)
    (calls st) (chans st) (senders st) p (registered st) (seq_of st) (completed st) (received st).
Definition upd_pending (st : client) (m : gmap Z callid) : client :=
  mkClient (cpm st) (reqMutex st) (request st) (seq st) m (closing st) (shutdown st)
    (calls st) (chans st) (senders st) (rx st) (registered st) (seq_of st) (completed st) (received st).
Definition upd_request (st : client) (r : RpcRequest) : client :=
  mkClient (cpm st) (reqMutex st) r (seq st) (pending st) (closing st) (shutdown st)
    (calls st) (chans st) (senders st) (rx st) (registered st) (seq_of st) (completed st) (received st).
Definition upd_calls (st : client) (m : gmap callid Call) : client :=
  mkClient (cpm st) (reqMutex st) (request st) (seq st) (pending st) (closing st) (shutdown st)
    m (chans st) (senders st) (rx st) (registered st) (seq_of st) (completed st) (received st).
Definition upd_chans (st : client) (m : gmap chanid chan) : client :=
  mkClient (cpm st) (reqMutex st) (request st) (seq st) (pending st) (closing st) (shutdown st)
    (calls st) m (senders st) (rx st) (registered st) (seq_of st) (completed st) (received st).
Definition upd_flags (st : client) (cl sd : bool) : client :=
  mkClient (cpm st) (reqMutex st) (request st) (seq st) (pending st) cl sd
    (calls st) (chans st) (senders st) (rx st) (registered st) (seq_of st) (completed st) (received st).
Definition upd_received (st : client) (l : list (chanid * callid)) : client :=
  mkClient (cpm st) (reqMutex st) (request st) (seq st) (pending st) (closing st) (shutdown st)
    (calls st) (chans st) (senders st) (rx st) (registered st) (seq_of st) (completed st) l.

(** ** done, Close, Go *)

(** [call.done()]: a send that does not block; a full channel drops the call. *)
Definition push (ch : chan) (id : callid) : chan :=
  if bool_decide (length (buf ch) < cap ch)%nat then mkChan (cap ch) (buf ch ++ [id]) else ch.

(** [call.Error = err] (when [err] is given) and [call.done()]. *)
Definition finish_call (st : client) (id : callid) (err : option error) (resp : option RpcResponse) : client :=
  match calls st !! id with
  | None => st
  | Some c =>
      let c' := match err with Some e => set_Error c (Some e) | None => c end in
      mkClient (cpm st) (reqMutex st) (request st) (seq st) (pending st) (closing st) (shutdown st)
        (<[id := c']> (calls st)) (alter (fun ch => push ch id) (c_Done c) (chans st))
        (senders st) (rx st) (registered st) (seq_of st)
        (completed st ++ [mkCompletion id (c_Done c) resp (c_Error c')]) (received st)
  end.

(** What [Close] does to the client, under the mutex. *)
Definition mark_closing (st : client) : client :=
  if closing st then st else upd_flags st true (shutdown st).

(** [Close]: the first one closes the codec and returns the codec's answer. *)
Definition Close {C : Type} `{ClientCodec V C} (st : client) (codec : C) : client * C * option error :=
  if closing st then (st, codec, Some ErrShutdown)
  else let '(codec', err) := CloseClientCodec codec in (mark_closing st, codec', err).

(** [Go] up to [send]: a nil [done] gets a new channel of capacity 10; an
    unbuffered one panics. *)
Definition Go (st : client) (id : callid) (serviceMethod : string) (args reply : V)
    (done : option chanid) (fresh : chanid) : outcome client :=
  let start ch chs :=
    mkClient (cpm st) (reqMutex st) (request st) (seq st) (pending st) (closing st) (shutdown st)
      (<[id := mkCall serviceMethod args reply None ch]> (calls st)) chs
      (<[id := SLock]> (senders st)) (rx st) (registered st) (seq_of st) (completed st) (received st) in
  match done with
  | None => Return (start fresh (<[fresh := mkChan 10 []]> (chans st)))
  | Some ch =>
      match chans st !! ch with
      | Some c => if bool_decide (cap c = 0%nat) then Panic "done channel is unbuffered"
                  else Return (start ch (chans st))
      | None => Panic "no such channel"
      end
  end.

(** ** send *)

(** The first critical section. *)
Definition register_call (st : client) (id : callid) : client :=
  if shutdown st || closing st then upd_senders st (<[id := SRefused]> (senders st))
  else
    let s := seq st in
    mkClient (cpm st) (reqMutex st) (request st) (Word.u64 (s + 1)) (<[s := id]> (pending st))
      (closing st) (shutdown st) (calls st) (chans st) (<[id := SWrite s]> (senders st)) (rx st)
      (registered st + 1) (<[id := s]> (seq_of st)) (completed st) (received st).

(** One step of the goroutine that sends call [id]; [answer] is the result of
    [codec.WriteRequest]. *)
Definition send_step (st : client) (id : callid) (answer : option error) : option client :=
  match senders st !! id with
  | None => None
  | Some SLock =>
      match reqMutex st with
      | None => Some (upd_senders (upd_mutex st (Some (OSend id))) (<[id := SRegister]> (senders st)))
      | Some _ => None
      end
  | Some SRegister => Some (register_call st id)
  | Some SRefused =>
      let st1 := finish_call st id (Some ErrShutdown) None in
      Some (upd_senders st1 (<[id := SUnlock]> (senders st1)))
  | Some (SWrite s) =>
      let sm := match calls st !! id with Some c => c_ServiceMethod c | None => "" end in
      let st1 := upd_request st (mkRequest sm s (req_next (request st))) in
      Some (upd_senders st1 (<[id := match answer with None => SUnlock | Some e => SFailed s e end]> (senders st1)))
  | Some (SFailed s e) =>
      let found := pending st !! s in
      let st1 := upd_pending st (delete s (pending st)) in
      Some (upd_senders st1 (<[id := match found with Some call => SFailDone call e | None => SUnlock end]> (senders st1)))
  | Some (SFailDone call e) =>
      let st1 := finish_call st call (Some e) None in
      Some (upd_senders st1 (<[id := SUnlock]> (senders st1)))
  | Some SUnlock => Some (upd_senders (upd_mutex st None) (delete id (senders st)))
  end.

(** ** receive *)

(** The answers of the codec and the order of the loop over [pending]. *)
Inductive rx_answer :=
| AHeader (resp : RpcResponse)
| AHeaderErr (e : error)
| ABody (v : V) (e : option error)
| ADiscard (e : option error)
| ATau
| AOrder (ids : list callid).

Definition after_loop (err : option error) : rx_pc :=
  match err with None => RxRead | Some e => RxStop e end.

(** The error that ends the pending calls. *)
Definition final_error (st : client) (err : error) : error :=
  if bool_decide (err = EOF) then (if closing st then ErrShutdown else ErrUnexpectedEOF) else err.

Definition finish_all (st : client) (ids : list callid) (e : error) : client :=
  foldl (fun st id => finish_call st id (Some e) None) st ids.

(** The last case of the switch: [ReadResponseBody] leaves [v] in the reply and
    answers [e]; the result of [PostReadResponse] replaces it in [err]. *)
Definition deliver (st : client) (resp : RpcResponse) (id : callid) (v : V) (e : option error) : option client :=
  let read c := match e with
                | None => set_Reply c v
                | Some e => set_Error (set_Reply c v) (Some (ErrNew ("reading body " +:+ Error e)))
                end in
  match cpm_PostReadResponse ord (cpm st) (resp, v) with
  | Panic _ => None
  | Return (_, perr) =>
      let err := (fun e => ErrNew ("execute client PostReadResponse error:" +:+ Error e)) <$> perr in
      Some (upd_rx (finish_call (upd_calls st (alter read id (calls st))) id None (Some resp)) (after_loop err))
  end.

Definition rx_step (st : client) (a : rx_answer) : option client :=
  match rx st, a with
  | RxRead, AHeader resp => Some (upd_rx st (RxPop resp))
  | RxRead, AHeaderErr e => Some (upd_rx st (RxStop e))
  | RxPop resp, ATau =>
      let call := pending st !! resp_Seq resp in
      Some (upd_rx (upd_pending st (delete (resp_Seq resp) (pending st))) (RxHooks resp call))
  | RxHooks resp call, ATau =>
      match cpm_PreReadResponse ord (cpm st) resp with
      | Panic _ => None
      | Return (resp', None) => Some (upd_rx st (RxBody resp' call))
      | Return (_, Some e) => Some (upd_rx st (RxStop e))
      end
  | RxBody resp None, ADiscard e =>
      Some (upd_rx st (after_loop ((fun e => ErrNew ("reading error body: " +:+ Error e)) <$> e)))
  | RxBody resp (Some id), ADiscard e =>
      if bool_decide (resp_Error resp <> "") then
        Some (upd_rx (finish_call st id (Some (ServerError (resp_Error resp))) (Some resp))
                (after_loop ((fun e => ErrNew ("reading error body: " +:+ Error e)) <$> e)))
      else None
  | RxBody resp (Some id), ABody v e =>
      if bool_decide (resp_Error resp = "") then deliver st resp id v e else None
  | RxStop e, ATau =>
      match reqMutex st with
      | None => Some (upd_rx (upd_mutex st (Some ORx)) (RxTerm e))
      | Some _ => None
      end
  | RxTerm e, AOrder ids =>
      if bool_decide (ids ≡ₚ (map_to_list (pending st)).*2) then
        let st1 := upd_flags st (closing st) true in
        Some (upd_rx (finish_all st1 ids (final_error st e)) RxUnlock)
      else None
  | RxUnlock, ATau => Some (upd_rx (upd_mutex st None) RxDone)
  | _, _ => None
  end.

(** ** The transition system *)
Inductive client_event :=
| EvMakeChan (ch : chanid) (capacity : nat)
| EvReceive (ch : chanid)
| EvGoCall (id : callid) (serviceMethod : string) (args reply : V) (done : option chanid) (fresh : chanid)
| EvSend (id : callid) (answer : option error)
| EvRx (a : rx_answer)
| EvClose.

Definition client_step (st : client) (e : client_event) : option client :=
  match e with
  | EvMakeChan ch capacity =>
      if bool_decide (chans st !! ch = None) then Some (upd_chans st (<[ch := mkChan capacity []]> (chans st)))
      else None
  | EvReceive ch =>
      match chans st !! ch with
      | Some (mkChan n (id :: rest)) =>
          Some (upd_received (upd_chans st (<[ch := mkChan n rest]> (chans st))) (received st ++ [(ch, id)]))
      | _ => None
      end
  | EvGoCall id sm args reply done fresh =>
      if bool_decide (calls st !! id = None ∧ chans st !! fresh = None) then
        match Go st id sm args reply done fresh with Return st' => Some st' | Panic _ => None end
      else None
  | EvSend id answer => send_step st id answer
  | EvRx a => rx_step st a
  | EvClose => Some (mark_closing st)
  end.

#[global] Instance client_lts : LTS client client_event := client_step.
End client.
