(* ===== verification/ClientSafety.v ===== *)
(** * Safety of the client

    The invariant of [Client]: the two mutexes exclude what they should, a
    sequence number names one call, and every call that was issued is in exactly
    one place until it is completed, once. *)
From S2P Require Import Prelude GoStd Types Plugin Client.

Section safety.
Context {V W : Type}.
Context (ord : gmap string (Plugin V W) -> list (string * Plugin V W)).

Abbreviation client := (@client V W).
Abbreviation step := (client_step ord).
Implicit Types (st : client) (id : callid).

(** ** Mutual exclusion and shutdown *)

Definition rx_locked (p : rx_pc) : bool := match p with RxTerm _ | RxUnlock => true | _ => false end.
Definition rx_stopped (p : rx_pc) : bool := match p with RxUnlock | RxDone => true | _ => false end.

(** The positions of a sender between its registration and the end of its
    request. *)
Definition sending_request (p : send_pc) : bool :=
  match p with SWrite _ | SFailed _ _ | SFailDone _ _ => true | _ => false end.

Record excl st : Prop := {
  ex_send : forall id, reqMutex st = Some (OSend id) <-> exists p, senders st !! id = Some p ∧ p <> SLock;
  ex_rx : reqMutex st = Some ORx <-> rx_locked (rx st) = true;
  ex_shutdown : shutdown st = rx_stopped (rx st);
  ex_quiet : shutdown st = true -> forall id p, senders st !! id = Some p -> sending_request p = false;
  ex_calls : forall id p, senders st !! id = Some p -> id ∈ dom (calls st)
}.

(** *** Which fields the operations leave alone *)

Lemma finish_call_frame st id e r :
  let st' := finish_call st id e r in
  cpm st' = cpm st ∧ reqMutex st' = reqMutex st ∧ pending st' = pending st ∧ seq st' = seq st ∧
  shutdown st' = shutdown st ∧ closing st' = closing st ∧ senders st' = senders st ∧ rx st' = rx st ∧
  registered st' = registered st ∧ seq_of st' = seq_of st ∧ dom (calls st') = dom (calls st).
Proof.
  unfold finish_call. destruct (calls st !! id) eqn:Hc; simpl; split_and!; try done.
  rewrite dom_insert_lookup_L; eauto.
Qed.

Lemma finish_all_frame st ids e :
  let st' := finish_all st ids e in
  cpm st' = cpm st ∧ reqMutex st' = reqMutex st ∧ pending st' = pending st ∧ seq st' = seq st ∧
  shutdown st' = shutdown st ∧ closing st' = closing st ∧ senders st' = senders st ∧ rx st' = rx st ∧
  registered st' = registered st ∧ seq_of st' = seq_of st ∧ dom (calls st') = dom (calls st).
Proof.
  simpl. unfold finish_all. revert st; induction ids as [|id ids IH]; intros st; simpl; [done|].
  pose proof (finish_call_frame st id (Some e) None) as Hf. simpl in Hf.
  specialize (IH (finish_call st id (Some e) None)). destruct_and!. split_and!; congruence.
Qed.

Lemma excl_ext st st' :
  excl st -> reqMutex st' = reqMutex st -> senders st' = senders st -> rx st' = rx st ->
  shutdown st' = shutdown st -> dom (calls st') = dom (calls st) -> excl st'.
Proof. intros [? ? ? ? ?] E1 E2 E3 E4 E5. split; by rewrite ?E1, ?E2, ?E3, ?E4, ?E5. Qed.

(** The holder of [reqMutex] moves without letting go of it. *)
Lemma excl_send_move st st' id p p' :
  excl st -> senders st !! id = Some p -> p <> SLock -> p' <> SLock ->
  reqMutex st' = reqMutex st -> senders st' = <[id := p']> (senders st) -> rx st' = rx st ->
  shutdown st' = shutdown st -> dom (calls st') = dom (calls st) ->
  (shutdown st = true -> sending_request p' = false) ->
  excl st'.
Proof.
  intros [H1 H2 H3 H4 H5] Hp Hn Hn' E1 E2 E3 E4 E5 Hq. split; rewrite ?E1, ?E2, ?E3, ?E4, ?E5; try done.
  - intros id1. rewrite H1, lookup_insert. case_decide; [subst|done]. naive_solver.
  - intros Hs id1 p1. rewrite lookup_insert. case_decide; [|by apply H4]. naive_solver.
  - intros id1 p1. rewrite lookup_insert. case_decide; subst; eauto.
Qed.

(** [receive] moves without touching [reqMutex] or stopping. *)
Lemma excl_rx_move st st' :
  excl st -> rx_locked (rx st') = rx_locked (rx st) -> rx_stopped (rx st') = rx_stopped (rx st) ->
  reqMutex st' = reqMutex st -> senders st' = senders st ->
  shutdown st' = shutdown st -> dom (calls st') = dom (calls st) -> excl st'.
Proof.
  intros [H1 H2 H3 H4 H5] Hl Hs E1 E2 E4 E5.
  split; rewrite ?E1, ?E2, ?E4, ?E5, ?Hl, ?Hs; done.
Qed.

(** A sender takes the mutex, or a new one starts and waits for it. *)
Lemma excl_send_lock st id :
  excl st -> senders st !! id = Some SLock -> reqMutex st = None ->
  excl (upd_senders (upd_mutex st (Some (OSend id))) (<[id := SRegister]> (senders st))).
Proof.
  intros [H1 H2 H3 H4 H5] Hp Hm. split; simpl; try done.
  - intros id1. rewrite lookup_insert. case_decide; subst; [naive_solver|].
    rewrite <- H1, Hm. naive_solver.
  - rewrite <- H2, Hm. done.
  - intros Hs id1 p1. rewrite lookup_insert. case_decide; [naive_solver|by apply H4].
  - intros id1 p1. rewrite lookup_insert. case_decide; subst; eauto.
Qed.

Lemma excl_start st st' id :
  excl st -> calls st !! id = None -> reqMutex st' = reqMutex st ->
  senders st' = <[id := SLock]> (senders st) -> rx st' = rx st -> shutdown st' = shutdown st ->
  dom (calls st') = {[id]} ∪ dom (calls st) -> excl st'.
Proof.
  intros [H1 H2 H3 H4 H5] Hc E1 E2 E3 E4 E5.
  assert (senders st !! id = None) as Hn.
  { apply eq_None_not_Some. intros [p Hp]. apply H5, elem_of_dom in Hp. by rewrite Hc in Hp; destruct Hp. }
  split; rewrite ?E1, ?E2, ?E3, ?E4, ?E5; try done.
  - intros id1. rewrite H1, lookup_insert. case_decide; [subst|done]. rewrite Hn. naive_solver.
  - intros Hs id1 p1. rewrite lookup_insert. case_decide; [naive_solver|by apply H4].
  - intros id1 p1. rewrite lookup_insert. case_decide; set_solver.
Qed.

(** A sender lets go of the mutex and ends. *)
Lemma excl_send_unlock st id :
  excl st -> senders st !! id = Some SUnlock ->
  excl (upd_senders (upd_mutex st None) (delete id (senders st))).
Proof.
  intros [H1 H2 H3 H4 H5] Hp. assert (reqMutex st = Some (OSend id)) as Hm by (apply H1; eauto).
  split; simpl; try done.
  - intros id1. split; [done|]. intros (p & [Hne Hp1]%lookup_delete_Some & Hp1').
    assert (reqMutex st = Some (OSend id1)) by (apply H1; eauto). congruence.
  - rewrite <- H2, Hm. done.
  - intros Hs id1 p1 [_ ?]%lookup_delete_Some. eauto.
  - intros id1 p1 [_ ?]%lookup_delete_Some. eauto.
Qed.

(** [receive] takes the mutex, ends the calls, and lets go. *)
Lemma excl_rx_lock st e :
  excl st -> rx st = RxStop e -> reqMutex st = None -> excl (upd_rx (upd_mutex st (Some ORx)) (RxTerm e)).
Proof.
  intros [H1 H2 H3 H4 H5] Hr Hm. split; simpl; try done.
  - intros id. rewrite <- H1, Hm. done.
  - by rewrite H3, Hr.
Qed.

Lemma excl_rx_term st st' e :
  excl st -> rx st = RxTerm e -> reqMutex st' = reqMutex st -> senders st' = senders st ->
  rx st' = RxUnlock -> shutdown st' = true -> dom (calls st') = dom (calls st) -> excl st'.
Proof.
  intros [H1 H2 H3 H4 H5] Hr E1 E2 E3 E4 E5.
  assert (reqMutex st = Some ORx) as Hm by (by apply H2; rewrite Hr).
  split; rewrite ?E1, ?E2, ?E3, ?E4, ?E5; try done.
  intros _ id p Hp. destruct (sending_request p) eqn:Hs; [|done].
  assert (reqMutex st = Some (OSend id)); [|congruence]. apply H1. exists p. split; [done|]. by intros ->.
Qed.

Lemma excl_rx_unlock st : excl st -> rx st = RxUnlock -> excl (upd_rx (upd_mutex st None) RxDone).
Proof.
  intros [H1 H2 H3 H4 H5] Hr. assert (reqMutex st = Some ORx) as Hm by (by apply H2; rewrite Hr).
  split; simpl; try done.
  - intros id. split; [done|]. intros Hp. apply H1 in Hp. congruence.
  - by rewrite H3, Hr.
Qed.

(** *** Every step *)

Lemma excl_send_step st id a st' : excl st -> send_step st id a = Some st' -> excl st'.
Proof.
  intros Hx Hs. unfold send_step in Hs. destruct (senders st !! id) as [p|] eqn:Hp; [|done].
  pose proof (finish_call_frame st) as Hf. simpl in Hf.
  destruct p as [| | |s|s e|call e|]; try (by simplify_eq; apply excl_send_unlock).
  - destruct (reqMutex st) eqn:Hm; simplify_eq. by apply excl_send_lock.
  - simplify_eq. unfold register_call. destruct (shutdown st || closing st) eqn:Hc.
    + by eapply (excl_send_move st _ id SRegister SRefused).
    + eapply (excl_send_move st _ id SRegister (SWrite (seq st))); try done.
      by destruct (shutdown st).
  - destruct (Hf id (Some ErrShutdown) None) as (_ & E1 & _ & _ & E2 & _ & E3 & E4 & _ & _ & E5).
    simplify_eq. eapply (excl_send_move st _ id SRefused SUnlock); try done. simpl. by rewrite E3.
  - simplify_eq. eapply (excl_send_move st _ id (SWrite s)); try done; [by destruct a|].
    intros Hsd. eapply (ex_quiet _ Hx) in Hp; done.
  - simplify_eq. eapply (excl_send_move st _ id (SFailed s e)); try done; [by destruct (pending st !! s)|].
    intros Hsd. eapply (ex_quiet _ Hx) in Hp; done.
  - destruct (Hf call (Some e) None) as (_ & E1 & _ & _ & E2 & _ & E3 & E4 & _ & _ & E5).
    simplify_eq. eapply (excl_send_move st _ id (SFailDone call e) SUnlock); try done. simpl. by rewrite E3.
Qed.

Lemma deliver_frame st resp id v e st' :
  deliver ord st resp id v e = Some st' ->
  cpm st' = cpm st ∧ reqMutex st' = reqMutex st ∧ pending st' = pending st ∧ seq st' = seq st ∧
  shutdown st' = shutdown st ∧ closing st' = closing st ∧ senders st' = senders st ∧
  (exists e, rx st' = after_loop e) ∧
  registered st' = registered st ∧ seq_of st' = seq_of st ∧ dom (calls st') = dom (calls st).
Proof.
  unfold deliver. intros Hd. set (m := alter _ id (calls st)) in Hd.
  destruct (cpm_PostReadResponse _ _ _) as [[? perr]|]; simplify_eq/=.
  pose proof (finish_call_frame (upd_calls st m) id None (Some resp)) as Hf. simpl in Hf. destruct_and!.
  assert (dom m = dom (calls st)) by apply dom_alter_L.
  split_and!; try congruence; eauto.
Qed.

Lemma after_loop_free e : rx_locked (after_loop e) = false ∧ rx_stopped (after_loop e) = false.
Proof. by destruct e. Qed.

(** The moves of [receive] that keep its hands off [reqMutex]. *)
Ltac rx_move Hx Hr := eapply (excl_rx_move _ _ Hx); simpl; rewrite ?Hr; done.

Lemma excl_rx_step st a st' : excl st -> rx_step ord st a = Some st' -> excl st'.
Proof.
  intros Hx Hs. unfold rx_step in Hs.
  destruct (rx st) as [|resp|resp call|resp call|e|e| |] eqn:Hr.
  - destruct a; simplify_eq; rx_move Hx Hr.
  - destruct a; simplify_eq; rx_move Hx Hr.
  - destruct a; try done. destruct (cpm_PreReadResponse _ _ _) as [[resp' [e|]]|]; simplify_eq;
      rx_move Hx Hr.
  - destruct call as [id|].
    + destruct a as [| |v e|e| |]; try done; case_bool_decide; try done.
      * destruct (deliver_frame _ _ _ _ _ _ Hs) as (_ & ? & _ & _ & ? & _ & ? & [e0 He] & _ & _ & ?).
        destruct (after_loop_free e0). eapply (excl_rx_move _ _ Hx); rewrite ?Hr, ?He; done.
      * simplify_eq. destruct (after_loop_free ((fun e => ErrNew ("reading error body: " +:+ Error e)) <$> e)).
        destruct (finish_call_frame st id (Some (ServerError (resp_Error resp))) (Some resp))
          as (_ & ? & _ & _ & ? & _ & ? & _ & _ & _ & ?).
        rx_move Hx Hr.
    + destruct a as [| |v e|e| |]; simplify_eq.
      destruct (after_loop_free ((fun e => ErrNew ("reading error body: " +:+ Error e)) <$> e)).
      rx_move Hx Hr.
  - destruct a; try done. destruct (reqMutex st) eqn:Hm; simplify_eq. by apply excl_rx_lock.
  - destruct a; try done. case_bool_decide; simplify_eq.
    destruct (finish_all_frame (upd_flags st (closing st) true) ids (final_error st e))
      as (_ & ? & _ & _ & ? & _ & ? & _ & _ & _ & ?).
    by eapply excl_rx_term.
  - destruct a; simplify_eq. by apply excl_rx_unlock.
  - by destruct a.
Qed.

Lemma Go_frame st id sm args reply done fresh st' :
  Go st id sm args reply done fresh = Return st' ->
  cpm st' = cpm st ∧ reqMutex st' = reqMutex st ∧ pending st' = pending st ∧ seq st' = seq st ∧
  shutdown st' = shutdown st ∧ closing st' = closing st ∧ senders st' = <[id := SLock]> (senders st) ∧
  rx st' = rx st ∧ registered st' = registered st ∧ seq_of st' = seq_of st ∧
  completed st' = completed st ∧
  exists ch, calls st' = <[id := mkCall sm args reply None ch]> (calls st).
Proof.
  unfold Go. intros Hg. destruct done as [ch|].
  - destruct (chans st !! ch) as [c|]; [|done]. case_bool_decide; simplify_eq/=. split_and!; eauto.
  - simplify_eq/=. split_and!; eauto.
Qed.

Lemma excl_step st e st' : excl st -> step st e = Some st' -> excl st'.
Proof.
  intros Hx Hs. destruct e as [ch n|ch|id sm args reply done fresh|id a|a|]; simpl in Hs.
  - case_bool_decide; simplify_eq. by eapply excl_ext.
  - destruct (chans st !! ch) as [[n [|x l]]|]; simplify_eq. by eapply excl_ext.
  - case_bool_decide as Hf; [|done]. destruct Hf as [Hc _].
    destruct (Go _ _ _ _ _ _ _) as [st1|] eqn:Hg; simplify_eq.
    apply Go_frame in Hg as (_ & ? & _ & _ & ? & _ & ? & ? & _ & _ & _ & ch & Hcl).
    eapply excl_start; try done. by rewrite Hcl, dom_insert_L.
  - by eapply excl_send_step.
  - by eapply excl_rx_step.
  - simplify_eq. unfold mark_closing. destruct (closing st); [done|]. by eapply excl_ext.
Qed.

(** ** No plugins

    The client's manager is made without plugins and nothing changes it. *)
Lemma step_cpm st e st' : step st e = Some st' -> cpm st' = cpm st.
Proof.
  intros Hs. destruct e as [ch n|ch|id sm args reply done fresh|id a|a|]; simpl in Hs.
  - case_bool_decide; by simplify_eq.
  - destruct (chans st !! ch) as [[n [|x l]]|]; by simplify_eq.
  - case_bool_decide; [|done]. destruct (Go _ _ _ _ _ _ _) as [st1|] eqn:Hg; simplify_eq.
    by apply Go_frame in Hg as (? & _).
  - unfold send_step, register_call in Hs. split_matches; simpl;
      try apply (proj1 (finish_call_frame _ _ _ _)); done.
  - unfold rx_step in Hs. split_matches; simpl; try apply (proj1 (finish_call_frame _ _ _ _)); try done.
    + by apply deliver_frame in Hs as (? & _).
    + apply (proj1 (finish_all_frame (upd_flags _ _ _) _ _)).
  - simplify_eq. unfold mark_closing. by destruct (closing st).
Qed.

(** ** Sequence numbers *)

(** The call that [receive] has taken out of [pending], with its response. *)
Definition rx_holds (p : rx_pc) : option (RpcResponse * callid) :=
  match p with
  | RxHooks resp (Some id) | RxBody resp (Some id) => Some (resp, id)
  | _ => None
  end.

(** What a sender's position says of the number of its call. *)
Definition sender_number (sq : gmap callid Z) id (p : send_pc) : Prop :=
  match p with
  | SLock | SRegister | SRefused => sq !! id = None
  | SWrite s | SFailed s _ => sq !! id = Some s
  | SFailDone f _ => f = id
  | SUnlock => True
  end.

Record numbers st : Prop := {
  nu_seq : seq st = Word.u64 (registered st) ∧ 0 <= registered st;
  nu_pending : forall s id, pending st !! s = Some id -> seq_of st !! id = Some s;
  nu_range : forall id s, seq_of st !! id = Some s -> 0 <= s < registered st ∧ id ∈ dom (calls st);
  nu_inj : forall id1 id2 s, seq_of st !! id1 = Some s -> seq_of st !! id2 = Some s -> id1 = id2;
  nu_rx : forall resp id, rx_holds (rx st) = Some (resp, id) -> seq_of st !! id = Some (resp_Seq resp);
  nu_send : forall id p, senders st !! id = Some p -> sender_number (seq_of st) id p
}.

(** Moves that keep the counters: the pending calls may become fewer, [receive]
    holds what it held or what was pending, and one sender may move. *)
Lemma numbers_move st st' :
  numbers st -> seq st' = seq st -> registered st' = registered st -> seq_of st' = seq_of st ->
  dom (calls st) ⊆ dom (calls st') -> pending st' ⊆ pending st ->
  (forall resp id, rx_holds (rx st') = Some (resp, id) ->
     rx_holds (rx st) = Some (resp, id) ∨ pending st !! resp_Seq resp = Some id) ->
  (forall id p, senders st' !! id = Some p ->
     senders st !! id = Some p ∨ sender_number (seq_of st) id p) ->
  numbers st'.
Proof.
  intros [H1 H2 H3 H4 H5 H6] E1 E2 E3 Hd Hp Hr Hs. split; rewrite ?E1, ?E2, ?E3; try done.
  - intros s id Hk. apply H2. by eapply lookup_weaken.
  - intros id s Hk. destruct (H3 id s Hk). split; [done|]. by apply Hd.
  - intros resp id Hk. destruct (Hr _ _ Hk); auto.
  - intros id p Hk. destruct (Hs _ _ Hk); auto.
Qed.

(** The registration of a call under a number that is not in use. *)
Lemma numbers_register st id :
  numbers st -> excl st -> senders st !! id = Some SRegister ->
  registered st < Word.modulus -> numbers (register_call st id).
Proof.
  intros Hn Hx Hp Hlt. pose proof Hn as [[Hs H0] H2 H3 H4 H5 H6]. unfold register_call.
  assert (seq_of st !! id = None) as Hnone by apply (H6 id _ Hp).
  destruct (shutdown st || closing st).
  { eapply numbers_move; try done; [by left|]. intros id1 p1. simpl. rewrite lookup_insert.
    case_decide; [|by left]. intros [= <-]. right. by subst. }
  assert (seq st = registered st) as Hseq by (rewrite Hs; apply Word.u64_small; done).
  rewrite Hseq. split; simpl.
  - split; [done|lia].
  - intros s id1 Hk. rewrite lookup_insert in Hk. case_decide; simplify_eq; [by rewrite lookup_insert_eq|].
    apply H2 in Hk. rewrite lookup_insert_ne by congruence. done.
  - intros id1 s. rewrite lookup_insert. case_decide; intros; simplify_eq.
    + split; [lia|]. by eapply ex_calls.
    + destruct (H3 id1 s); [done|]. split; [lia|done].
  - intros id1 id2 s. rewrite !lookup_insert. repeat case_decide; intros; simplify_eq; try done; [..|by eauto].
    + destruct (H3 id2 (registered st)); [done|lia].
    + destruct (H3 id1 (registered st)); [done|lia].
  - intros resp id1 Hk. rewrite lookup_insert. specialize (H5 _ _ Hk).
    case_decide; [congruence|done].
  - intros id1 p1 Hk. rewrite lookup_insert in Hk. case_decide; simplify_eq.
    + simpl. by rewrite lookup_insert_eq.
    + specialize (H6 _ _ Hk). unfold sender_number in *. by rewrite lookup_insert_ne by done.
Qed.
(** One sender moves; nothing else that carries a number does. *)
Lemma numbers_send_move st st' id p' :
  numbers st -> seq st' = seq st -> registered st' = registered st -> seq_of st' = seq_of st ->
  dom (calls st) ⊆ dom (calls st') -> pending st' ⊆ pending st -> rx st' = rx st ->
  senders st' = <[id := p']> (senders st) -> sender_number (seq_of st) id p' -> numbers st'.
Proof.
  intros Hn E1 E2 E3 Hd Hp Hr Hs Hp'. eapply numbers_move; try done.
  - rewrite Hr. by left.
  - intros id1 p1. rewrite Hs, lookup_insert. case_decide; [|by left]. intros [= <-]. right. by subst.
Qed.

Lemma numbers_send_step st id a st' :
  numbers st -> excl st -> send_step st id a = Some st' -> registered st' <= Word.modulus -> numbers st'.
Proof.
  intros Hn Hx Hs Hb. unfold send_step in Hs. destruct (senders st !! id) as [p|] eqn:Hp; [|done].
  pose proof (nu_send _ Hn _ _ Hp) as Hnum. pose proof (finish_call_frame st) as Hf. simpl in Hf.
  destruct p as [| | |s|s e|call e|]; simpl in Hnum.
  - destruct (reqMutex st) eqn:Hm; simplify_eq. by eapply (numbers_send_move st _ id SRegister).
  - simplify_eq. destruct (decide (registered st < Word.modulus)); [by apply numbers_register|].
    revert Hb. unfold register_call. destruct (shutdown st || closing st); simpl; [|lia]. intros _.
    by eapply (numbers_send_move st _ id SRefused).
  - destruct (Hf id (Some ErrShutdown) None) as (_ & _ & E1 & E2 & _ & _ & E3 & E4 & E5 & E6 & E7).
    simplify_eq. eapply (numbers_send_move st _ id SUnlock); simpl; rewrite ?E1, ?E3, ?E7; done.
  - simplify_eq. by eapply (numbers_send_move st _ id); [..|destruct a].
  - simplify_eq. destruct (pending st !! s) as [call|] eqn:Hk.
    + eapply (numbers_send_move st _ id (SFailDone call e)); simpl; try done; [apply delete_subseteq|].
      apply (nu_pending _ Hn) in Hk. by eapply nu_inj.
    + eapply (numbers_send_move st _ id SUnlock); simpl; try done. apply delete_subseteq.
  - destruct (Hf call (Some e) None) as (_ & _ & E1 & E2 & _ & _ & E3 & E4 & E5 & E6 & E7).
    simplify_eq. eapply (numbers_send_move st _ id SUnlock); simpl; rewrite ?E1, ?E3, ?E7; done.
  - simplify_eq. eapply numbers_move; try done; [by left|].
    simpl. intros id1 p1 [_ ?]%lookup_delete_Some. by left.
Qed.

Lemma after_loop_holds e : rx_holds (after_loop e) = None.
Proof. by destruct e. Qed.

(** [receive] moves; the senders do not. *)
Lemma numbers_rx_move st st' :
  numbers st -> seq st' = seq st -> registered st' = registered st -> seq_of st' = seq_of st ->
  dom (calls st') = dom (calls st) -> pending st' ⊆ pending st -> senders st' = senders st ->
  (forall resp id, rx_holds (rx st') = Some (resp, id) ->
     rx_holds (rx st) = Some (resp, id) ∨ pending st !! resp_Seq resp = Some id) ->
  numbers st'.
Proof.
  intros Hn E1 E2 E3 E4 Hp E5 Hr. apply (numbers_move st); try done.
  - by rewrite E4.
  - rewrite E5. by left.
Qed.

Lemma numbers_rx_step st a st' :
  numbers st -> cpm st = newClientPluginManager -> rx_step ord st a = Some st' -> numbers st'.
Proof.
  intros Hn Hc Hs. unfold rx_step in Hs.
  destruct (rx st) as [|resp|resp call|resp call|e|e| |] eqn:Hr.
  - destruct a; simplify_eq; by eapply (numbers_rx_move _ _ Hn).
  - destruct a; simplify_eq. eapply (numbers_rx_move _ _ Hn); simpl; try done; [apply delete_subseteq|].
    destruct (pending st !! resp_Seq resp) as [c|] eqn:Hk; naive_solver.
  - destruct a; try done. rewrite Hc in Hs. unfold cpm_PreReadResponse in Hs.
    rewrite (dispatch_empty ord) in Hs. simplify_eq. eapply (numbers_rx_move _ _ Hn); rewrite ?Hr; try done. by left.
  - destruct call as [id|].
    + destruct a as [| |v e|e| |]; try done; case_bool_decide; try done.
      * destruct (deliver_frame _ _ _ _ _ _ Hs) as (_ & _ & E & ? & _ & _ & ? & [e0 He] & ? & ? & ?).
        eapply (numbers_rx_move _ _ Hn); rewrite ?E, ?He, ?after_loop_holds; done.
      * simplify_eq. destruct (finish_call_frame st id (Some (ServerError (resp_Error resp))) (Some resp))
          as (_ & _ & E & ? & _ & _ & ? & _ & ? & ? & ?).
        eapply (numbers_rx_move _ _ Hn); simpl; rewrite ?E, ?after_loop_holds; done.
    + destruct a as [| |v e|e| |]; simplify_eq.
      eapply (numbers_rx_move _ _ Hn); simpl; rewrite ?after_loop_holds; done.
  - destruct a; try done. destruct (reqMutex st) eqn:Hm; simplify_eq. by eapply (numbers_rx_move _ _ Hn).
  - destruct a; try done. case_bool_decide; simplify_eq.
    destruct (finish_all_frame (upd_flags st (closing st) true) ids (final_error st e))
      as (_ & _ & E & ? & _ & _ & ? & _ & ? & ? & ?).
    eapply (numbers_rx_move _ _ Hn); simpl; rewrite ?E; done.
  - destruct a; simplify_eq. by eapply (numbers_rx_move _ _ Hn).
  - by destruct a.
Qed.

Lemma numbers_step st e st' :
  numbers st -> excl st -> cpm st = newClientPluginManager -> step st e = Some st' ->
  registered st' <= Word.modulus -> numbers st'.
Proof.
  intros Hn Hx Hcp Hs Hb. destruct e as [ch n|ch|id sm args reply done fresh|id a|a|]; simpl in Hs.
  - case_bool_decide; simplify_eq. eapply (numbers_rx_move _ _ Hn); try done. by left.
  - destruct (chans st !! ch) as [[n [|x l]]|]; simplify_eq. eapply (numbers_rx_move _ _ Hn); try done. by left.
  - case_bool_decide as Hf; [|done]. destruct Hf as [Hc _].
    destruct (Go _ _ _ _ _ _ _) as [st1|] eqn:Hg; simplify_eq.
    apply Go_frame in Hg as (_ & _ & E1 & ? & _ & _ & ? & ? & ? & ? & _ & ch & Hcl).
    eapply (numbers_send_move _ _ id SLock Hn); rewrite ?Hcl, ?E1; try done; [set_solver|].
    simpl. apply eq_None_not_Some. intros [s Hk]. apply (nu_range _ Hn) in Hk as [_ Hk].
    apply elem_of_dom in Hk. rewrite Hc in Hk. by destruct Hk.
  - by eapply numbers_send_step.
  - by eapply numbers_rx_step.
  - simplify_eq. unfold mark_closing. destruct (closing st); [done|].
    eapply (numbers_rx_move _ _ Hn); try done. by left.
Qed.
(** ** Every call is in one place *)

(** The call that a sender still has to complete or to register. *)
Definition sender_owes id (p : send_pc) : list callid :=
  match p with
  | SLock | SRegister | SRefused => [id]
  | SFailDone f _ => [f]
  | _ => []
  end.

Definition rx_call (p : rx_pc) : list callid :=
  match rx_holds p with Some (_, id) => [id] | None => [] end.

Definition pending_calls st : list callid :=
  if shutdown st then [] else collect (fun _ id => [id]) (pending st).

(** The calls that are not completed: with a sender, pending, or with
    [receive]. *)
Definition open_calls st : list callid :=
  collect sender_owes (senders st) ++ pending_calls st ++ rx_call (rx st).

Definition books st : Prop :=
  elements (dom (calls st)) ≡ₚ (co_call <$> completed st) ++ open_calls st.

Lemma open_issued st id : books st -> id ∈ open_calls st -> id ∈ dom (calls st).
Proof. unfold books. intros Hb Hid. rewrite <- elem_of_elements, Hb. set_solver. Qed.

Lemma finish_call_completed st id e r :
  id ∈ dom (calls st) ->
  co_call <$> completed (finish_call st id e r) = (co_call <$> completed st) ++ [id].
Proof.
  intros [c Hc]%elem_of_dom. unfold finish_call. rewrite Hc. simpl. by rewrite fmap_app.
Qed.

Lemma finish_all_completed st ids e :
  (forall id, id ∈ ids -> id ∈ dom (calls st)) ->
  co_call <$> completed (finish_all st ids e) = (co_call <$> completed st) ++ ids.
Proof.
  unfold finish_all. revert st; induction ids as [|id ids IH]; intros st Hd; simpl; [by rewrite app_nil_r|].
  destruct (finish_call_frame st id (Some e) None) as (_ & _ & _ & _ & _ & _ & _ & _ & _ & _ & Hdom).
  rewrite IH by (rewrite Hdom; set_solver). rewrite finish_call_completed by set_solver.
  by rewrite <- (assoc_L (++)).
Qed.

(** Balancing the books: [new] calls are issued and [fin] are completed. *)
Lemma books_move st st' new fin :
  books st -> elements (dom (calls st')) ≡ₚ new ++ elements (dom (calls st)) ->
  co_call <$> completed st' = (co_call <$> completed st) ++ fin ->
  fin ++ open_calls st' ≡ₚ new ++ open_calls st -> books st'.
Proof.
  unfold books. intros Hb Hd Hc Ho. rewrite Hd, Hb, Hc, <- (assoc_L (++)), Ho. solve_Permutation.
Qed.

Lemma books_keep st st' fin :
  books st -> dom (calls st') = dom (calls st) ->
  co_call <$> completed st' = (co_call <$> completed st) ++ fin ->
  fin ++ open_calls st' ≡ₚ open_calls st -> books st'.
Proof. intros Hb Hd Hc Ho. eapply (books_move st st' [] fin); simpl; try done. by rewrite Hd. Qed.

(** One sender moves. *)
Lemma open_send_move st st' id p p' :
  senders st !! id = Some p -> senders st' = <[id := p']> (senders st) ->
  shutdown st' = shutdown st -> pending st' = pending st -> rx st' = rx st ->
  sender_owes id p ++ open_calls st' ≡ₚ sender_owes id p' ++ open_calls st.
Proof.
  intros Hp E1 E2 E3 E4. unfold open_calls, pending_calls. rewrite E1, E2, E3, E4.
  rewrite !(assoc_L (++)), (collect_update _ _ _ _ p' Hp). done.
Qed.

(** A sender and the table of pending calls move. *)
Lemma open_send_pending st st' id p p' a b :
  senders st !! id = Some p -> senders st' = <[id := p']> (senders st) ->
  rx st' = rx st -> a ++ pending_calls st' ≡ₚ b ++ pending_calls st ->
  a ++ sender_owes id p ++ open_calls st' ≡ₚ b ++ sender_owes id p' ++ open_calls st.
Proof.
  intros Hp E1 E2 Hc. unfold open_calls. rewrite E1, E2.
  trans ((sender_owes id p ++ collect sender_owes (<[id := p']> (senders st))) ++
    (a ++ pending_calls st') ++ rx_call (rx st)); [solve_Permutation|].
  rewrite Hc, (collect_update _ _ _ _ p' Hp). solve_Permutation.
Qed.

Lemma pending_delete st s id st' :
  shutdown st = false -> shutdown st' = false -> pending st !! s = Some id ->
  pending st' = delete s (pending st) -> [id] ++ pending_calls st' ≡ₚ pending_calls st.
Proof.
  intros Hs Hs' Hk E. unfold pending_calls. rewrite Hs, Hs', E.
  apply (collect_delete (fun _ id => [id])), Hk.
Qed.

Lemma pending_keep st st' :
  shutdown st' = shutdown st -> pending st' = pending st -> pending_calls st' = pending_calls st.
Proof. intros E1 E2. unfold pending_calls. by rewrite E1, E2. Qed.

Lemma sender_owes_open st id p x : senders st !! id = Some p -> x ∈ sender_owes id p -> x ∈ open_calls st.
Proof.
  intros Hp Hx. unfold open_calls. apply elem_of_app. left. apply elem_of_collect. eauto.
Qed.

(** A sender completes the call it holds. *)
Lemma books_send_finish st id p c e :
  books st -> senders st !! id = Some p -> sender_owes id p = [c] ->
  let st1 := finish_call st c (Some e) None in
  books (upd_senders st1 (<[id := SUnlock]> (senders st1))).
Proof.
  intros Hb Hp Ho. simpl.
  assert (c ∈ dom (calls st)) as Hc.
  { eapply open_issued, sender_owes_open; [done..|]. rewrite Ho. set_solver. }
  destruct (finish_call_frame st c (Some e) None) as (_ & _ & E1 & _ & E2 & _ & E3 & E4 & _ & _ & E5).
  eapply (books_keep st _ [c]); simpl; try done; [by apply finish_call_completed|].
  match goal with |- ?x :: ?l ≡ₚ ?r => change ([x] ++ l ≡ₚ sender_owes id SUnlock ++ r) end.
  rewrite <- Ho. apply open_send_move; try done. simpl. by rewrite E3.
Qed.
Lemma books_register st id :
  books st -> excl st -> numbers st -> senders st !! id = Some SRegister ->
  registered (register_call st id) <= Word.modulus -> books (register_call st id).
Proof.
  intros Hb Hx Hn Hp Hlt. unfold register_call in *. destruct (shutdown st || closing st) eqn:Hsd; simpl in Hlt.
  - eapply (books_keep st _ []); simpl; try done; [by rewrite app_nil_r|].
    apply (Permutation_app_inv_l [id]). by apply (open_send_move st _ id SRegister SRefused).
  - apply orb_false_iff in Hsd as [Hsd _].
    eapply (books_keep st _ []); simpl; try done; [by rewrite app_nil_r|].
    apply (Permutation_app_inv_l [id]). change ([id] ++ ?l) with ([] ++ [id] ++ l) at 1.
    rewrite (open_send_pending st _ id SRegister (SWrite (seq st)) [] [id]); try done.
    unfold pending_calls. simpl. rewrite Hsd. apply (collect_insert_new (fun _ id => [id])).
    apply eq_None_not_Some. intros [id1 Hk]. apply (nu_pending _ Hn) in Hk.
    apply (nu_range _ Hn) in Hk as [Hk _]. destruct (nu_seq _ Hn) as [E ?].
    rewrite E, Word.u64_small in Hk; unfold Word.is_u64; lia.
Qed.

Lemma books_send_step st id a st' :
  books st -> excl st -> numbers st -> send_step st id a = Some st' ->
  registered st' <= Word.modulus -> books st'.
Proof.
  intros Hb Hx Hn Hs Hlt. unfold send_step in Hs. destruct (senders st !! id) as [p|] eqn:Hp; [|done].
  assert (forall p' st', sender_owes id p' = sender_owes id p -> senders st' = <[id := p']> (senders st) ->
    shutdown st' = shutdown st -> pending st' = pending st -> rx st' = rx st -> calls st' = calls st ->
    completed st' = completed st -> books st') as Hmove.
  { intros p' st1 Ho E1 E2 E3 E4 E5 E6. eapply (books_keep st _ []); rewrite ?E5, ?E6; try done.
    { by rewrite app_nil_r. }
    eapply (Permutation_app_inv_l (sender_owes id p)). rewrite <- Ho at 2. by apply open_send_move. }
  destruct p as [| | |s|s e|call e|].
  - destruct (reqMutex st) eqn:Hm; simplify_eq. by eapply (Hmove SRegister).
  - simplify_eq. by apply books_register.
  - simplify_eq. by eapply books_send_finish.
  - simplify_eq. by apply (Hmove (match a with None => SUnlock | Some e => SFailed s e end)); [destruct a|..].
  - simplify_eq. destruct (pending st !! s) as [call|] eqn:Hk.
    + assert (shutdown st = false) as Hsd.
      { destruct (shutdown st) eqn:Hsd; [|done]. by pose proof (ex_quiet _ Hx Hsd id _ Hp). }
      eapply (books_keep st _ []); simpl; try done; [by rewrite app_nil_r|].
      apply (Permutation_app_inv_l [call]).
      apply (open_send_pending st _ id (SFailed s e) (SFailDone call e) [call] []); simpl; try done.
      by apply (pending_delete st s call).
    + eapply (Hmove SUnlock); try done. simpl. by apply delete_id.
  - simplify_eq. by eapply books_send_finish.
  - simplify_eq. eapply (books_keep st _ []); simpl; try done; [by rewrite app_nil_r|].
    unfold open_calls, pending_calls; simpl. by rewrite <- (collect_delete _ _ _ _ Hp).
Qed.

(** [receive] moves, and completes [fin]. *)
Lemma books_rx_move st st' fin :
  books st -> dom (calls st') = dom (calls st) -> senders st' = senders st ->
  co_call <$> completed st' = (co_call <$> completed st) ++ fin ->
  fin ++ pending_calls st' ++ rx_call (rx st') ≡ₚ pending_calls st ++ rx_call (rx st) -> books st'.
Proof.
  intros Hb Hd Hs Hc Ho. eapply (books_keep st _ fin); try done. unfold open_calls. rewrite Hs, <- Ho.
  solve_Permutation.
Qed.

Lemma after_loop_call e : rx_call (after_loop e) = [].
Proof. by destruct e. Qed.

Lemma pending_values (m : gmap Z callid) : (map_to_list m).*2 = collect (fun _ id => [id]) m.
Proof. unfold collect. induction (map_to_list m) as [|x l IH]; [done|]. csimpl. by rewrite IH. Qed.
Lemma deliver_completed st resp id v e st' :
  deliver ord st resp id v e = Some st' -> id ∈ dom (calls st) ->
  co_call <$> completed st' = (co_call <$> completed st) ++ [id].
Proof.
  unfold deliver. intros Hd Hid. destruct (cpm_PostReadResponse _ _ _) as [[? perr]|]; simplify_eq/=.
  rewrite finish_call_completed; [done|]. simpl. by rewrite dom_alter_L.
Qed.

Lemma rx_call_open st id : rx_call (rx st) = [id] -> id ∈ open_calls st.
Proof. unfold open_calls. intros ->. set_solver. Qed.

Lemma books_rx_step st a st' :
  books st -> excl st -> cpm st = newClientPluginManager -> rx_step ord st a = Some st' -> books st'.
Proof.
  intros Hb Hx Hc Hs. unfold rx_step in Hs. pose proof (rx_call_open st) as Hopen.
  destruct (rx st) as [|resp|resp call|resp call|e|e| |] eqn:Hr.
  - destruct a; simplify_eq; eapply (books_rx_move st _ []); simpl; rewrite ?Hr, ?app_nil_r; done.
  - destruct a; simplify_eq. eapply (books_rx_move st _ []); simpl; try done; [by rewrite app_nil_r|].
    assert (shutdown st = false) as Hsd by (by rewrite (ex_shutdown _ Hx), Hr).
    rewrite Hr. change (rx_call (RxPop resp)) with (@nil callid). rewrite app_nil_r.
    destruct (pending st !! resp_Seq resp) as [id|] eqn:Hk.
    + rewrite (comm (++)). by apply (pending_delete st (resp_Seq resp)).
    + simpl. rewrite app_nil_r. unfold pending_calls. simpl. by rewrite delete_id.
  - destruct a; try done. rewrite Hc in Hs. unfold cpm_PreReadResponse in Hs.
    rewrite (dispatch_empty ord) in Hs. simplify_eq.
    eapply (books_rx_move st _ []); simpl; rewrite ?Hr, ?app_nil_r; done.
  - destruct call as [id|].
    + pose proof (open_issued st id Hb (Hopen id eq_refl)) as Hid.
      destruct a as [| |v e|e| |]; try done; case_bool_decide; try done.
      * destruct (deliver_frame _ _ _ _ _ _ Hs) as (_ & _ & ? & _ & ? & _ & ? & [e0 He] & _ & _ & ?).
        eapply (books_rx_move st _ [id]); try done; [by eapply deliver_completed|].
        rewrite He, after_loop_call, (pending_keep st), Hr by done. solve_Permutation.
      * simplify_eq. destruct (finish_call_frame st id (Some (ServerError (resp_Error resp))) (Some resp))
          as (_ & _ & ? & _ & ? & _ & ? & _ & _ & _ & ?).
        eapply (books_rx_move st _ [id]); simpl; try done; [by apply finish_call_completed|].
        rewrite after_loop_call, (pending_keep st), Hr by done. simpl. solve_Permutation.
    + destruct a as [| |v e|e| |]; simplify_eq.
      eapply (books_rx_move st _ []); simpl; rewrite ?Hr, ?app_nil_r, ?after_loop_call, ?app_nil_r; done.
  - destruct a; try done. destruct (reqMutex st) eqn:Hm; simplify_eq.
    eapply (books_rx_move st _ []); simpl; rewrite ?Hr, ?app_nil_r; done.
  - destruct a; try done. case_bool_decide as Hids; simplify_eq.
    assert (shutdown st = false) as Hsd by (by rewrite (ex_shutdown _ Hx), Hr).
    rewrite pending_values in Hids.
    destruct (finish_all_frame (upd_flags st (closing st) true) ids (final_error st e))
      as (_ & _ & E & _ & E2 & _ & ? & _ & _ & _ & ?).
    eapply (books_rx_move st _ ids); simpl; try done.
    + rewrite finish_all_completed; [done|]. intros id Hid. simpl. apply (open_issued st); [done|].
      unfold open_calls, pending_calls. rewrite Hsd, <- Hids. set_solver.
    + unfold pending_calls at 1. simpl. rewrite E2. simpl. unfold pending_calls.
      rewrite Hr, Hsd, Hids, !app_nil_r. done.
  - destruct a; simplify_eq. eapply (books_rx_move st _ []); simpl; rewrite ?Hr, ?app_nil_r; done.
  - by destruct a.
Qed.

Lemma books_step st e st' :
  books st -> excl st -> numbers st -> cpm st = newClientPluginManager -> step st e = Some st' ->
  registered st' <= Word.modulus -> books st'.
Proof.
  intros Hb Hx Hn Hcp Hs Hlt. destruct e as [ch n|ch|id sm args reply done fresh|id a|a|]; simpl in Hs.
  - case_bool_decide; by simplify_eq.
  - destruct (chans st !! ch) as [[n [|x l]]|]; by simplify_eq.
  - case_bool_decide as Hf; [|done]. destruct Hf as [Hc _].
    destruct (Go _ _ _ _ _ _ _) as [st1|] eqn:Hg; simplify_eq.
    apply Go_frame in Hg as (_ & _ & E1 & _ & E2 & _ & E3 & E4 & _ & _ & E5 & ch & Hcl).
    assert (senders st !! id = None) as Hnone.
    { apply eq_None_not_Some. intros [p Hp]. apply (ex_calls _ Hx), elem_of_dom in Hp.
      rewrite Hc in Hp. by destruct Hp. }
    eapply (books_move st st' [id] []); try done.
    + rewrite Hcl, dom_insert_L. apply elements_union_singleton. by apply not_elem_of_dom.
    + by rewrite E5, app_nil_r.
    + unfold open_calls, pending_calls. rewrite E1, E2, E3, E4, (collect_insert_new sender_owes) by done.
      done.
  - by eapply books_send_step.
  - by eapply books_rx_step.
  - simplify_eq. unfold mark_closing. by destruct (closing st).
Qed.
End safety.
