(* ===== verification/ClientLedger.v ===== *)
(** * What the client's completed calls are left with

    Each step of the client completes some calls, in order; this file says how
    a completion changes the call and its channel, and what is known of every
    call that was ever completed. *)
From S2P Require Import Prelude GoStd Types Plugin Client ClientSafety.

Section ledger.
Context {V W : Type}.
Context (ord : gmap string (Plugin V W) -> list (string * Plugin V W)).

Abbreviation client := (@client V W).
Abbreviation step := (client_step ord).
Implicit Types (st : client) (id : callid) (co : completion).

(** ** The outcome of a call *)

(** What a completion says: a call that got a response got the one with its
    own number, and the error of that response if it has one; else it was left
    without an error or with the error of reading the body.  A call without a
    response was left with an error. *)
Definition outcome_ok (sq : gmap callid Z) co : Prop :=
  match co_resp co with
  | Some r =>
      sq !! co_call co = Some (resp_Seq r) ∧
      (if bool_decide (resp_Error r = "")
       then co_err co = None ∨ exists e, co_err co = Some (ErrNew ("reading body " +:+ Error e))
       else co_err co = Some (ServerError (resp_Error r)))
  | None => co_err co <> None
  end.

Definition finished st : list callid := co_call <$> completed st.

(** One completion. *)
Definition completes st st' id (resp : option RpcResponse) : Prop :=
  id ∉ finished st ∧ seq_of st' = seq_of st ∧ received st' = received st ∧
  exists c c', calls st !! id = Some c ∧ c_Done c' = c_Done c ∧ calls st' = <[id := c']> (calls st) ∧
    chans st' = alter (fun ch => push ch id) (c_Done c) (chans st) ∧
    completed st' = completed st ++ [mkCompletion id (c_Done c) resp (c_Error c')] ∧
    outcome_ok (seq_of st) (mkCompletion id (c_Done c) resp (c_Error c')).

Lemma finish_call_completes st id e resp st' :
  id ∉ finished st -> id ∈ dom (calls st) ->
  (match resp with
   | Some r => seq_of st !! id = Some (resp_Seq r) ∧ resp_Error r <> "" ∧ e = ServerError (resp_Error r)
   | None => True end) ->
  seq_of st' = seq_of st ->
  calls st' = calls (finish_call st id (Some e) resp) ->
  chans st' = chans (finish_call st id (Some e) resp) ->
  completed st' = completed (finish_call st id (Some e) resp) ->
  received st' = received st -> completes st st' id resp.
Proof.
  intros Hf [c Hc]%elem_of_dom Hresp Esq E1 E2 E3 E4. unfold finish_call in *. rewrite Hc in E1, E2, E3.
  simpl in *. split_and!; try done. exists c, (set_Error c (Some e)). split_and!; try done.
  unfold outcome_ok; simpl. destruct resp as [r|]; [|done]. destruct Hresp as (? & ? & ->).
  by rewrite bool_decide_eq_false_2.
Qed.

Lemma deliver_completes st resp id v e st' :
  deliver ord st resp id v e = Some st' -> id ∉ finished st ->
  seq_of st !! id = Some (resp_Seq resp) -> resp_Error resp = "" ->
  (forall c, calls st !! id = Some c -> c_Error c = None) -> id ∈ dom (calls st) ->
  completes st st' id (Some resp).
Proof.
  intros Hd Hf Hsq He Herr [c Hc]%elem_of_dom. pose proof Hd as Hfr.
  apply deliver_frame in Hfr as (_ & _ & _ & _ & _ & _ & _ & _ & _ & Esq & _).
  unfold deliver in Hd. set (rd := fun c : Call => match e with None => _ | Some e => _ end) in Hd.
  assert (c_Done (rd c) = c_Done c) as Hdone by (unfold rd; by destruct e).
  destruct (cpm_PostReadResponse _ _ _) as [[? perr]|]; simplify_eq. unfold finish_call in *. simpl in *.
  rewrite lookup_alter_eq, Hc in *. simpl in *. split_and!; try done. exists c, (rd c). split_and!; simpl; try done.
  - apply map_eq. intros i. rewrite !lookup_insert. case_decide; [done|]. by rewrite lookup_alter_ne.
  - by rewrite Hdone.
  - by rewrite Hdone.
  - unfold outcome_ok; simpl. rewrite bool_decide_eq_true_2 by done. split; [done|].
    unfold rd. destruct e as [e|]; [right; by exists e|left; simpl; auto].
Qed.

(** What a step does to the calls, their completions and their channels. *)
Inductive effect st st' : Prop :=
| eff_quiet :
    calls st' = calls st -> completed st' = completed st -> chans st' = chans st ->
    received st' = received st -> seq_of st ⊆ seq_of st' -> effect st st'
| eff_makechan ch n :
    calls st' = calls st -> completed st' = completed st -> received st' = received st ->
    seq_of st' = seq_of st -> chans st !! ch = None -> chans st' = <[ch := mkChan n []]> (chans st) ->
    effect st st'
| eff_receive ch n id rest :
    calls st' = calls st -> completed st' = completed st -> seq_of st' = seq_of st ->
    chans st !! ch = Some (mkChan n (id :: rest)) -> chans st' = <[ch := mkChan n rest]> (chans st) ->
    received st' = received st ++ [(ch, id)] -> effect st st'
| eff_issue id c :
    calls st !! id = None -> calls st' = <[id := c]> (calls st) -> c_Error c = None ->
    is_Some (chans st' !! c_Done c) ->
    (chans st' = chans st ∨
     chans st !! c_Done c = None ∧ exists n, chans st' = <[c_Done c := mkChan n []]> (chans st)) ->
    completed st' = completed st -> received st' = received st -> seq_of st' = seq_of st -> effect st st'
| eff_complete id resp : completes st st' id resp -> effect st st'
| eff_end st1 e ids :
    calls st1 = calls st -> completed st1 = completed st -> chans st1 = chans st ->
    received st1 = received st -> seq_of st1 = seq_of st ->
    NoDup (finished st ++ ids) -> (forall id, id ∈ ids -> id ∈ dom (calls st)) ->
    seq_of st' = seq_of st -> received st' = received st ->
    calls st' = calls (finish_all st1 ids e) -> chans st' = chans (finish_all st1 ids e) ->
    completed st' = completed (finish_all st1 ids e) -> effect st st'.

(** ** The ledger *)

(** The calls issued with channel [ch], those completed, and those received
    from it. *)
Definition issued_on st (ch : chanid) : list callid :=
  collect (fun id c => if bool_decide (c_Done c = ch) then [id] else []) (calls st).
Definition completed_on st (ch : chanid) : list callid :=
  co_call <$> filter (fun co => co_done co = ch) (completed st).
Definition received_on st (ch : chanid) : list callid :=
  (filter (fun p => p.1 = ch) (received st)).*2.

Record ledger st : Prop := {
  le_open : forall id c, calls st !! id = Some c -> id ∉ finished st -> c_Error c = None;
  le_completed : forall co, co ∈ completed st -> outcome_ok (seq_of st) co ∧
    exists c, calls st !! co_call co = Some c ∧ c_Error c = co_err co ∧ c_Done c = co_done co;
  le_chan : forall id c, calls st !! id = Some c -> is_Some (chans st !! c_Done c);
  le_received : forall ch id, (ch, id) ∈ received st -> is_Some (chans st !! ch);
  le_delivered : forall ch c, chans st !! ch = Some c -> (length (issued_on st ch) <= cap c)%nat ->
    completed_on st ch = received_on st ch ++ buf c
}.

Lemma outcome_ok_mono sq sq' co : sq ⊆ sq' -> outcome_ok sq co -> outcome_ok sq' co.
Proof.
  intros Hs. unfold outcome_ok. destruct (co_resp co); [|done]. intros [? ?]. split; [|done].
  by eapply lookup_weaken.
Qed.

Lemma completed_on_snoc st st' co ch :
  completed st' = completed st ++ [co] ->
  completed_on st' ch = completed_on st ch ++ (if bool_decide (co_done co = ch) then [co_call co] else []).
Proof.
  intros E. unfold completed_on. rewrite E, filter_app, fmap_app. f_equal.
  rewrite filter_cons, filter_nil. by destruct (decide (co_done co = ch)) as [H|H];
    [rewrite bool_decide_eq_true_2|rewrite bool_decide_eq_false_2].
Qed.

(** A call that is not completed leaves room in a channel that is large enough
    for all its calls. *)
Lemma completed_on_room st id c :
  ledger st -> NoDup (finished st) -> calls st !! id = Some c -> id ∉ finished st ->
  (length (completed_on st (c_Done c)) < length (issued_on st (c_Done c)))%nat.
Proof.
  intros Hl Hnd Hc Hf. set (ch := c_Done c).
  assert (completed_on st ch ⊆ finished st) as Hsub.
  { unfold completed_on, finished. intros x [co [-> Hin]]%list_elem_of_fmap.
    apply list_elem_of_fmap. apply list_elem_of_filter in Hin as [_ ?]. eauto. }
  assert (sublist (completed_on st ch) (finished st)) as Hsl.
  { unfold completed_on, finished. apply fmap_sublist, sublist_filter. }
  change (length (id :: completed_on st ch) <= length (issued_on st ch))%nat.
  apply submseteq_length, NoDup_submseteq.
  { constructor; [by intros ?%Hsub|]. by eapply sublist_NoDup. }
  intros x [->|Hx]%elem_of_cons; apply elem_of_collect.
  - exists id, c. split; [done|]. rewrite bool_decide_eq_true_2 by done. set_solver.
  - unfold completed_on in Hx. apply list_elem_of_fmap in Hx as (co & -> & [Hch Hin]%list_elem_of_filter).
    destruct (le_completed _ Hl _ Hin) as (_ & c1 & Hc1 & _ & Hd). exists (co_call co), c1.
    split; [done|]. rewrite bool_decide_eq_true_2 by congruence. set_solver.
Qed.

(** *** Every effect keeps the ledger *)

Lemma issued_on_new st st' id c ch :
  calls st !! id = None -> calls st' = <[id := c]> (calls st) ->
  (length (issued_on st ch) <= length (issued_on st' ch))%nat.
Proof.
  intros Hn E. unfold issued_on. rewrite E, (collect_insert_new _ (calls st)) by done.
  rewrite length_app. lia.
Qed.

Lemma ledger_completes st st' id resp :
  ledger st -> NoDup (finished st) -> completes st st' id resp -> ledger st'.
Proof.
  intros Hl Hnd (Hf & Esq & Erc & c & c' & Hc & Hd & Ecl & Ech & Eco & Hok).
  assert (finished st' = finished st ++ [id]) as Efin by (unfold finished; by rewrite Eco, fmap_app).
  split.
  - intros id1 c1. rewrite Ecl, lookup_insert, Efin. intros Hk Hn. case_decide; [set_solver|].
    eapply (le_open _ Hl); [done|set_solver].
  - intros co. rewrite Eco, Esq, Ecl. intros [Hin|Hin%list_elem_of_singleton]%elem_of_app; [|subst co].
    + destruct (le_completed _ Hl co Hin) as (? & c1 & ? & ? & ?). split; [done|]. exists c1.
      rewrite lookup_insert_ne; [done|]. intros Heq. apply Hf. rewrite Heq. unfold finished. by apply list_elem_of_fmap_2.
    + split; [done|]. exists c'. simpl. by rewrite lookup_insert_eq.
  - intros id1 c1. rewrite Ecl, Ech, lookup_insert. case_decide; intros Hk; simplify_eq;
      rewrite lookup_alter; case_decide; rewrite ?Hd, ?fmap_is_Some; by eapply (le_chan _ Hl).
  - intros ch i. rewrite Erc, Ech, lookup_alter. intros Hi. apply (le_received _ Hl) in Hi as [x Hx].
    case_decide; subst; rewrite ?Hx; simpl; eauto.
  - intros ch k Hk Hlen. rewrite (completed_on_snoc st st' _ ch Eco). simpl.
    assert (length (issued_on st' ch) = length (issued_on st ch)) as Hiss.
    { apply Permutation_length. unfold issued_on. rewrite Ecl. apply (collect_update_same _ _ _ c); [done|].
      by rewrite Hd. }
    rewrite Hiss in Hlen. unfold received_on in *. rewrite Erc. rewrite Ech, lookup_alter in Hk.
    destruct (decide (c_Done c = ch)) as [<-|Hne]; [|by rewrite bool_decide_eq_false_2, app_nil_r by done;
      apply (le_delivered _ Hl)].
    rewrite bool_decide_eq_true_2 by done. apply fmap_Some in Hk as (k0 & Hk0 & ->).
    assert (cap (push k0 id) = cap k0) as Hcap by (unfold push; by case_bool_decide).
    rewrite Hcap in Hlen. pose proof (le_delivered _ Hl _ _ Hk0 Hlen) as Hdel. rewrite Hdel.
    pose proof (completed_on_room st id c Hl Hnd Hc Hf) as Hroom. rewrite Hdel, length_app in Hroom.
    unfold push. rewrite bool_decide_eq_true_2 by lia. simpl. by rewrite (assoc_L (++)).
Qed.

Lemma ledger_same st st' :
  ledger st -> calls st' = calls st -> completed st' = completed st -> chans st' = chans st ->
  received st' = received st -> seq_of st ⊆ seq_of st' -> ledger st'.
Proof.
  intros [H1 H2 H3 H4 H5] E1 E2 E3 E4 Hs.
  split; unfold finished, issued_on, completed_on, received_on in *; rewrite ?E1, ?E2, ?E3, ?E4; try done.
  intros co Hin. destruct (H2 co Hin). split; [|done]. by eapply outcome_ok_mono.
Qed.

Lemma ledger_finish_all st ids e :
  ledger st -> NoDup (finished st ++ ids) -> (forall id, id ∈ ids -> id ∈ dom (calls st)) ->
  ledger (finish_all st ids e).
Proof.
  unfold finish_all. revert st; induction ids as [|id ids IH]; intros st Hl Hnd Hd; simpl; [done|].
  assert (id ∈ dom (calls st)) as Hid by set_solver.
  assert (finished (finish_call st id (Some e) None) = finished st ++ [id]) as Hfin
    by by apply finish_call_completed.
  destruct (finish_call_frame st id (Some e) None) as (_ & _ & _ & _ & _ & _ & _ & _ & _ & Esq & Hdom).
  apply IH.
  - eapply (ledger_completes st _ id None); [done|by apply NoDup_app in Hnd as (? & _)|].
    apply (finish_call_completes _ _ e); try done.
    + apply NoDup_app in Hnd as (_ & Hn & _). intros ?. eapply Hn; [done|set_solver].
    + unfold finish_call. by destruct (calls st !! id).
  - rewrite Hfin, <- (assoc_L (++)). done.
  - intros i Hi. rewrite Hdom. set_solver.
Qed.

(** Nothing was completed or received on a channel that does not exist. *)
Lemma no_channel st ch :
  ledger st -> chans st !! ch = None -> completed_on st ch = [] ∧ received_on st ch = [].
Proof.
  intros Hl Hn. unfold completed_on, received_on. rewrite !filter_absent; [done|..].
  - intros [ch1 id] Hin Heq. simpl in Heq. subst ch1. apply (le_received _ Hl) in Hin. rewrite Hn in Hin. by destruct Hin.
  - intros co Hin Heq. destruct (le_completed _ Hl co Hin) as (_ & c & Hc & _ & Hd).
    apply (le_chan _ Hl) in Hc. rewrite Hd, Heq, Hn in Hc. by destruct Hc.
Qed.

(** A channel is made, possibly for a call that is issued with it. *)
Lemma ledger_makechan st st' ch n :
  ledger st -> calls st' = calls st -> completed st' = completed st -> received st' = received st ->
  seq_of st' = seq_of st -> chans st !! ch = None -> chans st' = <[ch := mkChan n []]> (chans st) ->
  ledger st'.
Proof.
  intros Hl E1 E2 E3 E4 Hn E5. pose proof Hl as [H1 H2 H3 H4 H5].
  split; unfold finished, issued_on in *; rewrite ?E1, ?E2, ?E3, ?E4, ?E5; try done.
  - intros id c Hc. destruct (H3 _ _ Hc). rewrite lookup_insert. case_decide; eauto.
  - intros ch1 id Hi. destruct (H4 _ _ Hi). rewrite lookup_insert. case_decide; eauto.
  - intros ch1 k Hk Hlen. unfold completed_on, received_on. rewrite E2, E3.
    rewrite lookup_insert in Hk. case_decide; simplify_eq; [|by apply H5].
    destruct (no_channel st ch1 Hl Hn) as [Hc Hr]. unfold completed_on, received_on in *. by rewrite Hc, Hr.
Qed.

Lemma ledger_receive st st' ch n id rest :
  ledger st -> calls st' = calls st -> completed st' = completed st -> seq_of st' = seq_of st ->
  chans st !! ch = Some (mkChan n (id :: rest)) -> chans st' = <[ch := mkChan n rest]> (chans st) ->
  received st' = received st ++ [(ch, id)] -> ledger st'.
Proof.
  intros [H1 H2 H3 H4 H5] E1 E2 E4 Hc E5 E3.
  split; unfold finished, issued_on in *; rewrite ?E1, ?E2, ?E4, ?E5; try done.
  - intros id1 c1 Hk. rewrite lookup_insert. case_decide; eauto.
  - intros ch1 id1. rewrite E3, lookup_insert. case_decide; eauto.
    intros [?|Hi%list_elem_of_singleton]%elem_of_app; [eauto|congruence].
  - intros ch1 k Hk Hlen. unfold completed_on, received_on in *. rewrite E2, E3, filter_app, fmap_app.
    rewrite filter_cons, filter_nil. rewrite lookup_insert in Hk. simpl. case_decide; simplify_eq/=.
    + rewrite <- (assoc_L (++)). by rewrite (H5 _ _ Hc Hlen).
    + rewrite app_nil_r. by apply H5.
Qed.

Lemma ledger_issue st st' id c :
  ledger st -> (forall i, i ∈ finished st -> i ∈ dom (calls st)) ->
  calls st !! id = None -> calls st' = <[id := c]> (calls st) -> c_Error c = None ->
  is_Some (chans st !! c_Done c) -> chans st' = chans st ->
  completed st' = completed st -> received st' = received st -> seq_of st' = seq_of st -> ledger st'.
Proof.
  intros [H1 H2 H3 H4 H5] Hfin Hn E1 He Hch E2 E3 E4 E5.
  split; unfold finished in *; rewrite ?E1, ?E2, ?E3, ?E4, ?E5; try done.
  - intros id1 c1 Hk. rewrite lookup_insert in Hk. case_decide; simplify_eq; eauto.
  - intros co Hin. destruct (H2 co Hin) as (? & c1 & ? & ? & ?). split; [done|]. exists c1.
    rewrite lookup_insert_ne; [done|congruence].
  - intros id1 c1 Hk. rewrite lookup_insert in Hk. case_decide; simplify_eq; eauto.
  - intros ch k Hk Hlen. unfold completed_on, received_on in *. rewrite E3, E4. apply H5; [done|].
    etrans; [by eapply (issued_on_new st st')|done].
Qed.

Lemma finish_call_received st id e r : received (finish_call st id e r) = received st.
Proof. unfold finish_call. by destruct (calls st !! id). Qed.

Lemma finish_all_received st ids e : received (finish_all st ids e) = received st.
Proof.
  unfold finish_all. revert st; induction ids as [|i ids IH]; intros st; simpl; [done|].
  by rewrite IH, finish_call_received.
Qed.

Lemma ledger_effect st st' :
  ledger st -> NoDup (finished st) -> (forall i, i ∈ finished st -> i ∈ dom (calls st)) ->
  effect st st' -> ledger st'.
Proof.
  intros Hl Hnd Hfin He. destruct He as [| | |id c Hn E1 He Hch Hchs E2 E3 E4|id resp Hc|st1 e ids F1 F2 F3 F4 E0 Hn Hd E1 E2 E3 E4 E5].
  - by eapply ledger_same.
  - by eapply ledger_makechan.
  - by eapply ledger_receive.
  - destruct Hchs as [E5|[Hno (n & E5)]].
    + rewrite E5 in Hch. by eapply ledger_issue.
    + assert (ledger (upd_chans st (<[c_Done c := mkChan n []]> (chans st)))) as Hl1
        by by eapply ledger_makechan.
      eapply (ledger_issue _ _ id c Hl1); simpl; try done. by rewrite <- E5.
  - by eapply ledger_completes.
  - assert (ledger st1) as Hl1 by (eapply ledger_same; try done; by rewrite E0).
    assert (ledger (finish_all st1 ids e)) as Hl2.
    { apply ledger_finish_all; [done|unfold finished; by rewrite F2|by rewrite F1]. }
    destruct (finish_all_frame st1 ids e) as (_ & _ & _ & _ & _ & _ & _ & _ & _ & Esq & _).
    eapply (ledger_same _ _ Hl2); try done; [by rewrite finish_all_received, F4|by rewrite Esq, E1, E0].
Qed.

(** ** The invariant of the client *)

Record client_inv st : Prop := {
  ci_cpm : cpm st = newClientPluginManager;
  ci_excl : excl st;
  ci_numbers : numbers st;
  ci_books : books st;
  ci_ledger : ledger st
}.

Lemma books_NoDup st : books st -> NoDup (finished st ++ open_calls st).
Proof. unfold books, finished. intros <-. apply NoDup_elements. Qed.

Lemma open_unfinished st id : books st -> id ∈ open_calls st -> id ∉ finished st.
Proof. intros Hb%books_NoDup Ho Hf. apply NoDup_app in Hb as (_ & Hb & _). by eapply Hb. Qed.

Lemma finished_NoDup st : books st -> NoDup (finished st).
Proof. intros Hb%books_NoDup. by apply NoDup_app in Hb as (? & _). Qed.

Lemma finished_issued st id : books st -> id ∈ finished st -> id ∈ dom (calls st).
Proof. unfold books, finished. intros Hb Hid. rewrite <- elem_of_elements, Hb. set_solver. Qed.

(** A sender completes the call it holds. *)
Lemma effect_send_finish st id p c e :
  books st -> senders st !! id = Some p -> sender_owes id p = [c] ->
  let st1 := finish_call st c (Some e) None in
  effect st (upd_senders st1 (<[id := SUnlock]> (senders st1))).
Proof.
  intros Hb Hp Ho st1. assert (c ∈ open_calls st) as Hc.
  { eapply sender_owes_open; [done|]. rewrite Ho. set_solver. }
  apply (eff_complete st _ c None), (finish_call_completes _ _ e); try done;
    [by apply open_unfinished|by apply open_issued|..]; simpl.
  - by destruct (finish_call_frame st c (Some e) None) as (_ & _ & _ & _ & _ & _ & _ & _ & _ & ? & _).
  - apply finish_call_received.
Qed.

Lemma effect_send_step st id a st' : client_inv st -> send_step st id a = Some st' -> effect st st'.
Proof.
  intros [_ Hx Hn Hb _] Hs. unfold send_step in Hs. destruct (senders st !! id) as [p|] eqn:Hp; [|done].
  destruct p as [| | |s|s e|call e|].
  - destruct (reqMutex st) eqn:Hm; simplify_eq. by apply eff_quiet.
  - simplify_eq. unfold register_call. destruct (shutdown st || closing st); apply eff_quiet; simpl; try done.
    apply insert_subseteq. apply (nu_send _ Hn _ _ Hp).
  - simplify_eq. by eapply effect_send_finish.
  - simplify_eq. by apply eff_quiet.
  - simplify_eq. by apply eff_quiet.
  - simplify_eq. by eapply effect_send_finish.
  - simplify_eq. by apply eff_quiet.
Qed.

Lemma effect_rx_step st a st' : client_inv st -> rx_step ord st a = Some st' -> effect st st'.
Proof.
  intros [Hc Hx Hn Hb Hl] Hs. unfold rx_step in Hs. pose proof (rx_call_open st) as Hopen.
  pose proof (nu_rx _ Hn) as Hseq.
  destruct (rx st) as [|resp|resp call|resp call|e|e| |] eqn:Hr.
  - destruct a; simplify_eq; by apply eff_quiet.
  - destruct a; simplify_eq; by apply eff_quiet.
  - destruct a; try done. rewrite Hc in Hs. unfold cpm_PreReadResponse in Hs.
    rewrite (dispatch_empty ord) in Hs. simplify_eq. by apply eff_quiet.
  - destruct call as [id|]; [|destruct a; simplify_eq; by apply eff_quiet].
    specialize (Hopen id eq_refl). specialize (Hseq resp id eq_refl).
    pose proof (open_issued st id Hb Hopen). pose proof (open_unfinished st id Hb Hopen).
    destruct a as [| |v e|e| |]; try done; case_bool_decide; try done.
    + apply (eff_complete st _ id (Some resp)). eapply deliver_completes; try done.
      intros c Hcl. by eapply (le_open _ Hl).
    + simplify_eq. apply (eff_complete st _ id (Some resp)).
      apply (finish_call_completes _ _ (ServerError (resp_Error resp))); try done; simpl.
      * by destruct (finish_call_frame st id (Some (ServerError (resp_Error resp))) (Some resp))
          as (_ & _ & _ & _ & _ & _ & _ & _ & _ & ? & _).
      * apply finish_call_received.
  - destruct a; try done. destruct (reqMutex st) eqn:Hm; simplify_eq. by apply eff_quiet.
  - destruct a; try done. case_bool_decide as Hids; simplify_eq. rewrite pending_values in Hids.
    assert (shutdown st = false) as Hsd by (by rewrite (ex_shutdown _ Hx), Hr).
    assert (open_calls st ≡ₚ ids ++ collect sender_owes (senders st) ++ rx_call (rx st)) as Hop.
    { unfold open_calls, pending_calls. rewrite Hsd, Hids. solve_Permutation. }
    set (st1 := upd_flags st (closing st) true).
    destruct (finish_all_frame st1 ids (final_error st e)) as (_ & _ & _ & _ & _ & _ & _ & _ & _ & Esq & _).
    apply (eff_end st _ st1 (final_error st e) ids); simpl; try done.
    + pose proof (books_NoDup st Hb) as Hnd. rewrite Hop, (assoc_L (++)) in Hnd.
      by apply NoDup_app in Hnd as (? & _).
    + intros id Hid. apply (open_issued st); [done|]. rewrite Hop. set_solver.
    + apply (finish_all_received st1).
  - destruct a; simplify_eq. by apply eff_quiet.
  - by destruct a.
Qed.

Lemma effect_step st e st' : client_inv st -> step st e = Some st' -> effect st st'.
Proof.
  intros Hi Hs. destruct e as [ch n|ch|id sm args reply done fresh|id a|a|]; simpl in Hs.
  - case_bool_decide; simplify_eq. by eapply eff_makechan.
  - destruct (chans st !! ch) as [[n [|x l]]|] eqn:Hc; simplify_eq. by eapply eff_receive.
  - case_bool_decide as Hf; [|done]. destruct Hf as [Hc Hfr]. unfold Go in Hs. destruct done as [ch|].
    + destruct (chans st !! ch) as [c|] eqn:Hch; [|done]. case_bool_decide; simplify_eq.
      eapply (eff_issue _ _ id); simpl; try done. by left.
    + simplify_eq. eapply (eff_issue _ _ id); simpl; try done; [rewrite lookup_insert_eq; by eexists|].
      right. split; [done|]. by eexists.
  - by eapply effect_send_step.
  - by eapply effect_rx_step.
  - simplify_eq. unfold mark_closing. destruct (closing st); by apply eff_quiet.
Qed.

Lemma client_inv_step st e st' :
  client_inv st -> step st e = Some st' -> registered st' <= Word.modulus -> client_inv st'.
Proof.
  intros Hi Hs Hb. pose proof (effect_step _ _ _ Hi Hs) as He. destruct Hi as [H1 H2 H3 H4 H5].
  split; [by rewrite (step_cpm _ _ _ _ Hs)|by eapply excl_step|by eapply numbers_step|by eapply books_step|].
  eapply ledger_effect; try done; [by apply finished_NoDup|]. intros i. by apply finished_issued.
Qed.

Lemma client_inv_init : client_inv NewClientWithCodec.
Proof.
  split; [done|..].
  - split; simpl; [|done..|]; intros id; [|done]. split; [done|]. by intros (p & Hp & _).
  - by split.
  - unfold books. simpl. by rewrite dom_empty_L, elements_empty.
  - split; try done; set_solver.
Qed.

Lemma finish_call_registered st id e r : registered (finish_call st id e r) = registered st.
Proof. unfold finish_call. by destruct (calls st !! id). Qed.

Lemma finish_all_registered st ids e : registered (finish_all st ids e) = registered st.
Proof.
  unfold finish_all. revert st; induction ids as [|i ids IH]; intros st; simpl; [done|].
  by rewrite IH, finish_call_registered.
Qed.

Lemma registered_mono st e st' : step st e = Some st' -> registered st <= registered st'.
Proof.
  intros Hs. destruct e as [ch n|ch|id sm args reply done fresh|id a|a|]; simpl in Hs.
  - case_bool_decide; by simplify_eq.
  - destruct (chans st !! ch) as [[n [|x l]]|]; by simplify_eq.
  - case_bool_decide; [|done]. destruct (Go _ _ _ _ _ _ _) as [st1|] eqn:Hg; simplify_eq.
    apply Go_frame in Hg. destruct_and!. lia.
  - unfold send_step, register_call in Hs. split_matches; simpl; rewrite ?finish_call_registered; lia.
  - unfold rx_step in Hs. split_matches; simpl; rewrite ?finish_call_registered; try lia.
    + apply deliver_frame in Hs. destruct_and!. lia.
    + rewrite finish_all_registered. done.
  - simplify_eq. unfold mark_closing. by destruct (closing st).
Qed.

Lemma reachable_client_inv st :
  @reachable _ _ (client_lts ord) NewClientWithCodec st -> registered st <= Word.modulus -> client_inv st.
Proof.
  induction 1 as [|st e st' Hr IH Hs]; intros Hb; [apply client_inv_init|].
  eapply client_inv_step; [apply IH|done|done]. pose proof (registered_mono _ _ _ Hs). lia.
Qed.
End ledger.
