(* ===== verification/ClientProps.v ===== *)
(** * What the client promises

    The theorems on [client.go], for every interleaving of its callers,
    senders, [receive] and [Close], and every behaviour of the codec.  They
    hold as long as fewer than 2^64 requests were registered, after which the
    counter wraps around. *)
From S2P Require Import Prelude GoStd Types Plugin GobCodec Client ClientSafety ClientLedger.

Section props.
Context {V W : Type}.
Context (ord : gmap string (Plugin V W) -> list (string * Plugin V W)).

Abbreviation client := (@client V W).
#[local] Instance client_steps : LTS client client_event := client_lts ord.
Implicit Types (st : client) (id : callid).

(** C9: a call is completed (its [Error] set for the last time, and the call
    sent on [Done]) at most once, and a call that is completed was issued; when
    [receive] has ended and no goroutine is left in [send], every issued call
    has been completed, exactly once. *)
Theorem call_completed_once st :
  reachable NewClientWithCodec st -> registered st <= Word.modulus ->
  NoDup (co_call <$> completed st) ∧
  (forall co, co ∈ completed st -> co_call co ∈ dom (calls st)) ∧
  (rx st = RxDone -> senders st = ∅ -> (co_call <$> completed st) ≡ₚ elements (dom (calls st))).
Proof.
  intros Hr Hb. destruct (reachable_client_inv ord st Hr Hb) as [_ Hx _ Hbk _]. split_and!.
  - by apply finished_NoDup.
  - intros co Hin. apply finished_issued; [done|]. by apply list_elem_of_fmap_2.
  - intros Hd Hs. unfold books in Hbk. rewrite Hbk. unfold open_calls, pending_calls.
    rewrite (ex_shutdown _ Hx), Hd, Hs, collect_empty. simpl. by rewrite app_nil_r.
Qed.

(** C11: a response is given to the call that was registered under its sequence
    number, and to no other.  The call is left with the server's error when the
    response has one, and otherwise without an error or with the error of
    reading the body; a call that is completed without a response is left with
    an error.  No later step changes the [Error] of a completed call. *)
Theorem response_goes_to_its_call st co :
  reachable NewClientWithCodec st -> registered st <= Word.modulus -> co ∈ completed st ->
  (exists c, calls st !! co_call co = Some c ∧ c_Error c = co_err co) ∧
  match co_resp co with
  | None => co_err co <> None
  | Some r =>
      (forall id, seq_of st !! id = Some (resp_Seq r) <-> id = co_call co) ∧
      (resp_Error r <> "" -> co_err co = Some (ServerError (resp_Error r))) ∧
      (resp_Error r = "" -> co_err co = None ∨ exists e, co_err co = Some (ErrNew ("reading body " +:+ Error e)))
  end.
Proof.
  intros Hr Hb Hin. destruct (reachable_client_inv ord st Hr Hb) as [_ _ Hn _ Hl].
  destruct (le_completed _ Hl co Hin) as (Hok & c & Hc & He & _). split; [by exists c|].
  unfold outcome_ok in Hok. destruct (co_resp co) as [r|]; [|done]. destruct Hok as [Hsq Hok]. split.
  - intros id. split; [|by intros ->]. intros Hid. by eapply nu_inj.
  - case_bool_decide; naive_solver.
Qed.

(** C18: the [Done] channel signals every completion: on a channel with room for
    all the calls that were issued with it, what was received from it and then
    what waits in it are the calls completed on it, in that order; none is
    dropped. *)
Theorem done_channel_signals st ch c :
  reachable NewClientWithCodec st -> registered st <= Word.modulus ->
  chans st !! ch = Some c -> (length (issued_on st ch) <= cap c)%nat ->
  completed_on st ch = received_on st ch ++ buf c.
Proof. intros Hr Hb. destruct (reachable_client_inv ord st Hr Hb) as [_ _ _ _ Hl]. apply (le_delivered _ Hl). Qed.

(** [reqMutex] lets one goroutine at a time between its [Lock] and its
    [Unlock]: of two senders, or a sender and the end of [receive], at most one
    is past the lock.  So [request] and the writing half of the codec are never
    used by two goroutines at once, and once [shutdown] is set no sender is
    between registering a call and the end of its write. *)
Theorem one_request_writer st id p :
  reachable NewClientWithCodec st -> senders st !! id = Some p -> p <> SLock ->
  rx_locked (rx st) = false ∧
  (forall id' p', senders st !! id' = Some p' -> p' <> SLock -> id' = id) ∧
  (shutdown st = true -> sending_request p = false).
Proof.
  intros Hr Hp Hn.
  assert (excl st) as Hx.
  { eapply reachable_invariant; [|intros; by eapply excl_step|done]. apply client_inv_init. }
  assert (reqMutex st = Some (OSend id)) as Hm by (apply (ex_send _ Hx); eauto). split_and!.
  - destruct (rx_locked (rx st)) eqn:E; [|done]. apply (ex_rx _ Hx) in E. congruence.
  - intros id' p' Hp' Hn'. assert (reqMutex st = Some (OSend id')) by (apply (ex_send _ Hx); eauto). congruence.
  - intros Hs. by eapply ex_quiet.
Qed.

Lemma finish_call_pending st id e r : pending (finish_call st id e r) = pending st.
Proof. unfold finish_call. by destruct (calls st !! id). Qed.

Lemma finish_call_closing st id e r : closing (finish_call st id e r) = closing st.
Proof. unfold finish_call. by destruct (calls st !! id). Qed.

(** A client that is closing registers nothing more. *)
Lemma closing_step st e st' :
  closing st = true -> client_step ord st e = Some st' ->
  closing st' = true ∧ registered st' = registered st ∧ pending st' ⊆ pending st.
Proof.
  intros Hc Hs. destruct e as [ch n|ch|id sm args reply done fresh|id a|a|]; simpl in Hs.
  - case_bool_decide; by simplify_eq.
  - destruct (chans st !! ch) as [[n [|x l]]|]; by simplify_eq.
  - case_bool_decide; [|done]. destruct (Go _ _ _ _ _ _ _) as [st1|] eqn:Hg; simplify_eq.
    apply Go_frame in Hg as (_ & _ & E & _ & _ & ? & _ & _ & ? & _). rewrite E. split_and!; congruence || done.
  - unfold send_step, register_call in Hs. rewrite Hc, orb_true_r in Hs.
    split_matches; simpl; rewrite ?finish_call_pending, ?finish_call_closing, ?finish_call_registered;
      split_and!; try done; apply delete_subseteq.
  - unfold rx_step in Hs. split_matches; simpl;
      rewrite ?finish_call_pending, ?finish_call_closing, ?finish_call_registered;
      split_and!; try done; try apply delete_subseteq.
    all: try (apply deliver_frame in Hs as (_ & _ & E & _ & _ & ? & _ & _ & ? & _); rewrite ?E; congruence || done).
    all: by destruct (finish_all_frame (upd_flags st (closing st) true) ids (final_error st err))
      as (_ & _ & E & _ & _ & ? & _ & _ & ? & _ & _); rewrite ?E; simpl in *; congruence || done.
  - simplify_eq. unfold mark_closing. by rewrite Hc.
Qed.

(** C26: [Close] works once and for good.  The first one closes the codec and
    returns what the codec answers, an error included; any later one returns
    [ErrShutdown] and leaves the codec alone.  From then on no call is registered
    and none becomes pending, whatever else happens, and a call that reaches
    [send] is completed with [ErrShutdown]. *)
Theorem closed_client_refuses {C : Type} `{ClientCodec V C} st (cc : C) st' :
  let '(st1, cc1, err) := Close st cc in
  (cc1, err) = (if closing st then (cc, Some ErrShutdown) else CloseClientCodec cc) ∧ closing st1 = true ∧
  (reachable st1 st' ->
     (forall cc', Close st' cc' = (st', cc', Some ErrShutdown)) ∧
     registered st' = registered st ∧ pending st' ⊆ pending st ∧
     forall id c, senders st' !! id = Some SRegister -> calls st' !! id = Some c ->
       exists st2, lts_run st' [EvSend id None; EvSend id None] = Some st2 ∧
         completed st2 = completed st' ++ [mkCompletion id (c_Done c) None (Some ErrShutdown)] ∧
         pending st2 = pending st').
Proof.
  assert (closing (mark_closing st) = true ∧ registered (mark_closing st) = registered st ∧ pending (mark_closing st) = pending st)
    as (Hc & Hg & Hp) by (unfold mark_closing; by destruct (closing st) eqn:E).
  assert (Close st cc = let '(cc1, err) := if closing st then (cc, Some ErrShutdown) else CloseClientCodec cc in
    (mark_closing st, cc1, err)) as -> by (unfold Close, mark_closing; destruct (closing st); by destruct (CloseClientCodec cc)).
  destruct (if closing st then _ else _) as [cc1 err]. split_and!; [done..|]. intros Hr.
  assert (closing st' = true ∧ registered st' = registered st ∧ pending st' ⊆ pending st) as (Hc' & Hg' & Hp').
  { induction Hr as [|s1 e s2 _ (IH1 & IH2 & IH3) Hs]; [by rewrite Hp|].
    destruct (closing_step _ _ _ IH1 Hs) as (? & ? & ?). split_and!; [done|congruence|by etrans]. }
  split_and!; [intros cc'; unfold Close; by rewrite Hc'|done..|]. intros id c Hs Hcl. simpl.
  change (lts_step st' ?e) with (client_step ord st' e). simpl. unfold send_step at 1. rewrite Hs. unfold register_call.
  rewrite Hc', orb_true_r. change (lts_step ?s ?e) with (client_step ord s e). simpl. unfold send_step. simpl.
  rewrite lookup_insert_eq. eexists. split; [reflexivity|]. unfold finish_call. simpl. by rewrite Hcl.
Qed.

(** The calls [finish_all] is given all get its error. *)
Lemma finish_all_error st ids e id :
  NoDup ids -> id ∈ ids -> id ∈ dom (calls st) ->
  exists c, calls (finish_all st ids e) !! id = Some c ∧ c_Error c = Some e.
Proof.
  intros Hnd Hid Hd. assert (forall ids st, (id ∉ ids) -> calls (finish_all st ids e) !! id = calls st !! id) as Hkeep.
  { clear. intros ids. unfold finish_all. induction ids as [|i ids IH]; intros st Hn; simpl; [done|].
    rewrite IH by set_solver. unfold finish_call. destruct (calls st !! i); [simpl|done].
    rewrite lookup_insert_ne; set_solver. }
  revert st Hd. unfold finish_all in *. induction Hnd as [|i ids Hi Hnd IH]; intros st Hd; [set_solver|]. simpl.
  destruct (decide (i = id)) as [->|Hne].
  - rewrite Hkeep by done. apply elem_of_dom in Hd as [c Hc]. unfold finish_call. rewrite Hc. simpl.
    rewrite lookup_insert_eq. by eexists.
  - apply IH; [set_solver|]. destruct (finish_call_frame st i (Some e) None)
      as (_ & _ & _ & _ & _ & _ & _ & _ & _ & _ & ->). done.
Qed.

(** C25: when [receive] ends on an error, every call that is still pending is
    completed with it: with [ErrShutdown] if the stream ended and the user had
    closed the client, with [ErrUnexpectedEOF] if it ended unasked, and with the
    error itself otherwise; the client is then shut down. *)
Theorem receive_ends_pending st e ids st' :
  reachable NewClientWithCodec st -> registered st <= Word.modulus ->
  rx st = RxTerm e -> client_step ord st (EvRx (AOrder ids)) = Some st' ->
  shutdown st' = true ∧
  (co_call <$> completed st') = (co_call <$> completed st) ++ ids ∧
  forall s id, pending st !! s = Some id -> exists c, calls st' !! id = Some c ∧
    c_Error c = Some (if bool_decide (e = EOF) then (if closing st then ErrShutdown else ErrUnexpectedEOF) else e).
Proof.
  intros Hr Hb Hrx Hs. destruct (reachable_client_inv ord st Hr Hb) as [_ Hx _ Hbk _].
  simpl in Hs. unfold rx_step in Hs. rewrite Hrx in Hs. case_bool_decide as Hids; [|done]. simplify_eq.
  rewrite pending_values in Hids.
  assert (shutdown st = false) as Hsd by (by rewrite (ex_shutdown _ Hx), Hrx).
  assert (open_calls st ≡ₚ ids ++ collect sender_owes (senders st) ++ rx_call (rx st)) as Hop.
  { unfold open_calls, pending_calls. rewrite Hsd, Hids. solve_Permutation. }
  assert (NoDup ids) as Hnd.
  { pose proof (books_NoDup st Hbk) as Hnd. rewrite Hop in Hnd. apply NoDup_app in Hnd as (_ & _ & Hnd).
    by apply NoDup_app in Hnd as (? & _). }
  assert (forall id, id ∈ ids -> id ∈ dom (calls st)) as Hdom.
  { intros id Hid. apply (open_issued st); [done|]. rewrite Hop. set_solver. }
  destruct (finish_all_frame (upd_flags st (closing st) true) ids (final_error st e))
    as (_ & _ & _ & _ & Hsd' & _). split_and!; [done|simpl; by rewrite finish_all_completed|].
  intros s id Hp. assert (id ∈ ids) by (rewrite Hids; apply elem_of_collect; exists s, id; set_solver).
  apply (finish_all_error (upd_flags st (closing st) true)); auto.
Qed.
End props.

(** ** A run, and the theorems on it

    Two calls share a channel; the first is answered, the second still waits
    when the connection ends. *)
Module Demo.
Import GobDemo.

Definition order (m : gmap string (Plugin Z unit)) : list (string * Plugin Z unit) := map_to_list m.

Definition sends (id : callid) : list (@client_event Z) :=
  [EvSend id None; EvSend id None; EvSend id None; EvSend id None].

Definition calls2 : list (@client_event Z) :=
  [EvMakeChan 0%nat 2%nat; EvGoCall 0%nat "Arith.Add" 3 0 (Some 0%nat) 1%nat;
   EvGoCall 1%nat "Arith.Div" 4 0 (Some 0%nat) 1%nat] ++ sends 1 ++ sends 0 ++
  [EvRx (AHeader (mkResponse "" 0 "" None)); EvRx ATau; EvRx ATau; EvRx (ABody 7 None); EvReceive 0%nat].

Definition ending : list (@client_event Z) :=
  [EvRx (AHeaderErr EOF); EvRx ATau].

Definition over : list (@client_event Z) := [EvRx (AOrder [0%nat]); EvRx ATau].

#[local] Instance demo_steps : LTS (@client Z unit) client_event := client_steps order.

Definition run (es : list (@client_event Z)) : @client Z unit :=
  default NewClientWithCodec (lts_run NewClientWithCodec es).

Definition mid := run calls2.
Definition fin := run (calls2 ++ ending ++ over).

Lemma mid_reachable : reachable NewClientWithCodec mid.
Proof. apply (lts_run_reachable _ calls2). vm_compute. reflexivity. Qed.

Definition term := run (calls2 ++ ending).

Lemma term_reachable : reachable NewClientWithCodec term.
Proof. apply (lts_run_reachable _ (calls2 ++ ending)). vm_compute. reflexivity. Qed.

Lemma fin_reachable : reachable NewClientWithCodec fin.
Proof. apply (lts_run_reachable _ (calls2 ++ ending ++ over)). vm_compute. reflexivity. Qed.

Lemma call_completed_once_witness :
  (co_call <$> completed fin) ≡ₚ elements (dom (calls fin)) ∧ length (completed fin) = 2%nat.
Proof.
  split; [|reflexivity]. apply (call_completed_once order fin); [apply fin_reachable|by vm_compute|by vm_compute..].
Defined.

Lemma response_goes_to_its_call_witness :
  exists co r, co ∈ completed mid ∧ co_resp co = Some r ∧
    (forall id, seq_of mid !! id = Some (resp_Seq r) <-> id = co_call co).
Proof.
  exists (mkCompletion 1 0 (Some (mkResponse "" 0 "" None)) None), (mkResponse "" 0 "" None).
  assert (mkCompletion 1 0 (Some (mkResponse "" 0 "" None)) None ∈ completed mid) as Hin
    by (apply list_elem_of_here).
  split; [exact Hin|split; [reflexivity|]].
  refine (proj1 (proj2 (response_goes_to_its_call order mid _ mid_reachable _ Hin))). by vm_compute.
Defined.

Lemma done_channel_signals_witness :
  completed_on fin 0 = received_on fin 0 ++ [0%nat].
Proof.
  apply (done_channel_signals order fin 0 (mkChan 2 [0%nat])); [apply fin_reachable|by vm_compute|reflexivity|].
  apply Nat.leb_le. reflexivity.
Defined.

Definition writing := run (take 6 calls2).

Lemma one_request_writer_witness :
  rx_locked (rx writing) = false ∧
  (forall id' p', senders writing !! id' = Some p' -> p' <> SLock -> id' = 1%nat) ∧
  (shutdown writing = true -> sending_request SUnlock = false).
Proof.
  apply (one_request_writer order writing 1 SUnlock); [|reflexivity|discriminate].
  apply (lts_run_reachable _ (take 6 calls2)). vm_compute. reflexivity.
Defined.

Definition closed : @client Z unit := upd_flags NewClientWithCodec true false.

(** A call issued after [Close] that has taken the lock. *)
Definition refused : @client Z unit :=
  default closed (lts_run closed [EvGoCall 0%nat "Arith.Add" 3 0 None 0%nat; EvSend 0%nat None]).

(** The gob codec of a connection that is closed already, whose [Close] fails. *)
Definition broken : gobClientCodec Z := NewGobClientCodec (mkGob [] [] true 1).

Lemma closed_client_refuses_witness :
  (Close (NewClientWithCodec (V := Z) (W := unit)) broken).2 = Some closed_error ∧
  Close refused broken = (refused, broken, Some ErrShutdown) ∧ registered refused = 0 ∧ pending refused ⊆ ∅ ∧
  forall id c, senders refused !! id = Some SRegister -> calls refused !! id = Some c ->
    exists st2, lts_run refused [EvSend id None; EvSend id None] = Some st2 ∧
      completed st2 = completed refused ++ [mkCompletion id (c_Done c) None (Some ErrShutdown)] ∧
      pending st2 = pending refused.
Proof.
  destruct (closed_client_refuses order NewClientWithCodec broken refused) as (H1 & _ & H2).
  split; [reflexivity|]. destruct H2 as (H3 & H4 & H5 & H6); [|].
  - apply (lts_run_reachable _ [EvGoCall 0%nat "Arith.Add" 3 0 None 0%nat; EvSend 0%nat None]).
    vm_compute. reflexivity.
  - split; [apply H3|]. split; [exact H4|]. split; [exact H5|exact H6].
Defined.

Lemma receive_ends_pending_witness :
  exists c, calls (run (calls2 ++ ending ++ [EvRx (AOrder [0%nat])])) !! 0%nat = Some c ∧
    c_Error c = Some ErrUnexpectedEOF.
Proof.
  eapply (receive_ends_pending order term EOF [0%nat]);
    [apply term_reachable|by vm_compute|reflexivity|vm_compute; reflexivity|].
  instantiate (1 := 1). reflexivity.
Defined.
End Demo.
