(* ===== verification/ClientProgress.v ===== *)
(** * The client winds up

    From every state the goroutines of the client can reach, they all come to their
    end, in whatever order they are scheduled, once the codec delivers no more
    headers, with every call completed: no lock is held for ever and no call is
    left behind.  *)
From S2P Require Import Prelude GoStd Types Plugin Client ClientSafety ClientLedger ClientProps.

Section progress.
Context {V W : Type}.
Context (ord : gmap string (Plugin V W) -> list (string * Plugin V W)).

Abbreviation client := (@client V W).
Abbreviation step := (client_step ord).
#[local] Instance progress_steps : LTS client client_event := client_lts ord.
Implicit Types (st : client) (id : callid).

(** Steps of goroutines that exist already. *)
Definition winding (e : @client_event V) : Prop :=
  match e with EvSend _ _ | EvRx _ => True | _ => False end.

(** How far a goroutine is from its end. *)
Definition send_weight (p : send_pc) : nat :=
  match p with
  | SLock => 6 | SRegister => 5 | SWrite _ => 4 | SFailed _ _ => 3
  | SFailDone _ _ | SRefused => 2 | SUnlock => 1
  end.
Definition rx_weight (p : rx_pc) : nat :=
  match p with
  | RxPop _ => 7 | RxHooks _ _ => 6 | RxBody _ _ => 5 | RxRead => 4
  | RxStop _ => 3 | RxTerm _ => 2 | RxUnlock => 1 | RxDone => 0
  end.
Definition unsent st : nat := total (fun _ => send_weight) (senders st).
Definition distance st : nat := unsent st + rx_weight (rx st).

(** A header that the codec delivers makes [receive] go round once more. *)
Definition header (e : @client_event V) : nat := match e with EvRx (AHeader _) => 1 | _ => 0 end.

Lemma after_loop_weight e : (rx_weight (after_loop e) <= 4)%nat.
Proof. destruct e; simpl; lia. Qed.

(** ** Every step brings the client nearer to its end *)
Lemma sender_nearer st id a st' :
  send_step st id a = Some st' -> rx st' = rx st ∧ (unsent st' < unsent st)%nat.
Proof.
  intros Hs. unfold send_step in Hs. destruct (senders st !! id) as [p|] eqn:Hp; [|done].
  assert (forall p' st1, senders st1 = <[id := p']> (senders st) -> (send_weight p' < send_weight p)%nat -> (unsent st1 < unsent st)%nat) as Hup.
  { intros p' st1 E Hw. unfold unsent. rewrite E. pose proof (total_update (fun _ => send_weight) _ _ _ p' Hp). lia. }
  pose proof (finish_call_frame st) as Hf. simpl in Hf. destruct p as [| | |s|s e|call e|].
  - destruct (reqMutex st); [done|]. injection Hs as <-. split; [done|]. by apply (Hup SRegister); [|simpl; lia].
  - injection Hs as <-. unfold register_call. destruct (shutdown st || closing st); (split; [done|]; eapply Hup; [reflexivity|simpl; lia]).
  - injection Hs as <-. destruct (Hf id (Some ErrShutdown) None) as (_ & _ & _ & _ & _ & _ & E3 & E4 & _).
    split; [done|]. apply (Hup SUnlock); [simpl; by rewrite E3|simpl; lia].
  - injection Hs as <-. split; [done|]. eapply Hup; [reflexivity|]. destruct a; simpl; lia.
  - injection Hs as <-. split; [done|]. eapply Hup; [reflexivity|]. destruct (pending st !! s); simpl; lia.
  - injection Hs as <-. destruct (Hf call (Some e) None) as (_ & _ & _ & _ & _ & _ & E3 & E4 & _).
    split; [done|]. apply (Hup SUnlock); [simpl; by rewrite E3|simpl; lia].
  - injection Hs as <-. split; [done|]. unfold unsent. simpl. pose proof (total_delete (fun _ => send_weight) _ _ _ Hp). simpl in *. lia.
Qed.

Lemma receive_nearer st a st' :
  rx_step ord st a = Some st' -> senders st' = senders st ∧ (rx_weight (rx st') < rx_weight (rx st) + 4 * header (EvRx a))%nat.
Proof.
  intros Hs. unfold rx_step in Hs. pose proof after_loop_weight as Hal.
  pose proof (finish_call_frame st) as Hf. simpl in Hf.
  destruct (rx st) as [|resp|resp call|resp call|e|e| |] eqn:Hr; destruct a as [r|e1|v e1|e1| |ids]; try done; try (destruct call; done); simpl.
  - injection Hs as <-. simpl. split; [done|lia].
  - injection Hs as <-. simpl. split; [done|lia].
  - injection Hs as <-. simpl. split; [done|lia].
  - destruct (cpm_PreReadResponse _ _ _) as [[r [e1|]]|]; simplify_eq; simpl; (split; [done|lia]).
  - destruct call as [id|]; [|done]. case_bool_decide; [|done]. apply deliver_frame in Hs as (_ & _ & _ & _ & _ & _ & E1 & [e0 E] & _).
    rewrite E. pose proof (Hal e0). split; [done|lia].
  - destruct call as [id|]; [case_bool_decide; [|done]|]; injection Hs as <-; simpl;
      match goal with |- context [after_loop ?x] => pose proof (Hal x) end; (split; [|lia]); [|done].
    by destruct (Hf id (Some (ServerError (resp_Error resp))) (Some resp)) as (_ & _ & _ & _ & _ & _ & ? & _).
  - destruct (reqMutex st); [done|]. injection Hs as <-. simpl. split; [done|lia].
  - case_bool_decide; [|done]. injection Hs as <-. simpl. split; [|lia]. apply (finish_all_frame (upd_flags _ _ _)).
  - injection Hs as <-. simpl. split; [done|lia].
Qed.

(** ** One of them can go on, even if the codec delivers no more headers *)
Definition ending (e : @client_event V) : Prop := winding e ∧ header e = 0%nat.
Definition can_move st : Prop := exists e, ending e ∧ is_Some (step st e).

Lemma sender_moves st id p : senders st !! id = Some p -> (p = SLock -> reqMutex st = None) -> can_move st.
Proof.
  intros Hp Hn. exists (EvSend id None). split; [done|]. simpl. unfold send_step. rewrite Hp. destruct p; try done. by rewrite Hn.
Qed.

(** [receive] moves on when it does not have to wait for the mutex. *)
Lemma receive_moves st :
  client_inv st -> rx st <> RxDone -> (reqMutex st = None ∨ rx_locked (rx st) = true) -> can_move st.
Proof.
  intros Hi Hnd Hm. pose proof (ci_cpm _ Hi) as Hc. assert (forall a, header (EvRx a) = 0%nat -> is_Some (rx_step ord st a) -> can_move st) as Hrx by (intros a ? Ha; by exists (EvRx a)).
  destruct (rx st) as [|resp|resp call|resp call|e|e| |] eqn:Hr; try done.
  - apply (Hrx (AHeaderErr EOF)); [done|]. unfold rx_step. by rewrite Hr.
  - apply (Hrx ATau); [done|]. unfold rx_step. by rewrite Hr.
  - apply (Hrx ATau); [done|]. unfold rx_step, cpm_PreReadResponse. by rewrite Hr, Hc, (dispatch_empty ord).
  - destruct call as [id|]; [destruct (decide (resp_Error resp = "")) as [He|He]|].
    + assert (is_Some (calls st !! id)) as [c _] by (apply elem_of_dom, (open_issued st), rx_call_open; [apply Hi|by rewrite Hr]).
      apply (Hrx (ABody (c_Reply c) None)); [done|]. unfold rx_step, deliver, cpm_PostReadResponse.
      rewrite Hr, bool_decide_eq_true_2, Hc, (dispatch_empty ord) by done. by eexists.
    + apply (Hrx (ADiscard None)); [done|]. unfold rx_step. by rewrite Hr, bool_decide_eq_true_2.
    + apply (Hrx (ADiscard None)); [done|]. unfold rx_step. by rewrite Hr.
  - destruct Hm as [Hm|?]; [|done]. apply (Hrx ATau); [done|]. unfold rx_step. by rewrite Hr, Hm.
  - apply (Hrx (AOrder (map_to_list (pending st)).*2)); [done|]. unfold rx_step. by rewrite Hr, bool_decide_eq_true_2.
  - apply (Hrx ATau); [done|]. unfold rx_step. by rewrite Hr.
Qed.

Lemma client_moves st : client_inv st -> can_move st ∨ rx st = RxDone ∧ senders st = ∅.
Proof.
  intros Hi. pose proof (ci_excl _ Hi) as Hx. destruct (reqMutex st) as [[id|]|] eqn:Hm.
  - left. apply (ex_send _ Hx) in Hm as (p & Hp & Hn). by eapply sender_moves.
  - left. apply (ex_rx _ Hx) in Hm. apply receive_moves; [done| |by right]. intros E. by rewrite E in Hm.
  - destruct (rx st) eqn:Hr; try (left; apply receive_moves; rewrite ?Hr; auto; done).
    destruct (map_choose_or_empty (senders st)) as [(id & p & Hp)|E]; [left; by eapply sender_moves|by right].
Qed.

Lemma receive_registered st a st' : rx_step ord st a = Some st' -> registered st' = registered st.
Proof.
  intros Hs. unfold rx_step in Hs. split_matches; simpl; rewrite ?finish_call_registered; try done.
  - apply deliver_frame in Hs. by destruct_and!.
  - by rewrite finish_all_registered.
Qed.

Lemma registered_rise st e st' : step st e = Some st' -> registered st' <= registered st + 1.
Proof.
  intros Hs. destruct e as [ch n|ch|id sm args reply done fresh|id a|a|]; simpl in Hs.
  - case_bool_decide; simplify_eq; simpl; lia.
  - destruct (chans st !! ch) as [[n [|x l]]|]; simplify_eq; simpl; lia.
  - case_bool_decide; [|done]. destruct (Go _ _ _ _ _ _ _) as [st1|] eqn:Hg; simplify_eq.
    apply Go_frame in Hg. destruct_and!. lia.
  - unfold send_step, register_call in Hs. split_matches; simpl; rewrite ?finish_call_registered; lia.
  - rewrite (receive_registered _ _ _ Hs). lia.
  - simplify_eq. unfold mark_closing. destruct (closing st); simpl; lia.
Qed.

Lemma winding_calls st e st' : winding e -> step st e = Some st' -> dom (calls st') = dom (calls st).
Proof.
  intros Hw Hs. destruct e as [| | |id a|a|]; try done; simpl in Hs.
  - unfold send_step, register_call in Hs. split_matches; simpl; try done; apply finish_call_frame.
  - unfold rx_step in Hs. split_matches; simpl; try done; try apply finish_call_frame.
    + by apply deliver_frame in Hs as (_ & _ & _ & _ & _ & _ & _ & _ & _ & _ & ?).
    + apply (finish_all_frame (upd_flags _ _ _)).
Qed.

Lemma winding_closing st e st' : winding e -> step st e = Some st' -> closing st' = closing st.
Proof.
  intros Hw Hs. destruct e as [| | |id a|a|]; try done; simpl in Hs.
  - unfold send_step, register_call in Hs. split_matches; simpl; try done; apply finish_call_frame.
  - unfold rx_step in Hs. split_matches; simpl; try done; try apply finish_call_frame.
    + unfold deliver in Hs. destruct (cpm_PostReadResponse _ _ _) as [[? perr]|]; simplify_eq. simpl. apply (finish_call_frame (upd_calls _ _)).
    + apply (finish_all_frame (upd_flags _ _ _)).
Qed.

(** The client goes on with the calls [D], without running out of sequence
    numbers. *)
Definition winding_up (D : gset callid) st : Prop :=
  client_inv st ∧ registered st + Z.of_nat (unsent st) <= Word.modulus ∧ dom (calls st) = D.

Lemma winding_up_step D st e st' :
  winding_up D st -> winding e -> step st e = Some st' ->
  winding_up D st' ∧ (1 + distance st' <= 4 * header e + distance st)%nat.
Proof.
  intros (Hi & Hb & Hd) Hw Hs. pose proof (winding_calls _ _ _ Hw Hs) as Ed. unfold winding_up, distance. rewrite Ed.
  pose proof (registered_rise _ _ _ Hs). destruct e as [| | |id a|a|]; try done; simpl in Hs.
  - destruct (sender_nearer _ _ _ _ Hs) as [Er Hlt]. rewrite Er.
    split_and!; [by eapply (client_inv_step ord st (EvSend id a)); [..|lia]|lia|done|simpl; lia].
  - destruct (receive_nearer _ _ _ Hs) as [Es Hlt]. pose proof (receive_registered _ _ _ Hs). unfold unsent in *. rewrite Es.
    split_and!; [by eapply (client_inv_step ord st (EvRx a)); [..|lia]|lia|done|lia].
Qed.

(** All of its goroutines have ended, and the calls [D] are completed. *)
Definition wound_up (D : gset callid) st : Prop :=
  rx st = RxDone ∧ senders st = ∅ ∧ (co_call <$> completed st) ≡ₚ elements D.

Lemma wound_up_ended D st : winding_up D st -> rx st = RxDone -> senders st = ∅ -> wound_up D st.
Proof.
  intros (Hi & _ & Hd) Hrx Hs. split_and!; [done..|].
  destruct Hi as [_ Hx _ Hbk _]. unfold books in Hbk. unfold finished in Hbk. rewrite <- Hd, Hbk. unfold open_calls, pending_calls.
  rewrite (ex_shutdown _ Hx), Hrx, Hs, collect_empty. simpl. by rewrite app_nil_r.
Qed.

Lemma winding_up_moves D st : winding_up D st -> can_move st ∨ wound_up D st.
Proof.
  intros Hw. destruct (client_moves st (proj1 Hw)) as [?|[Hrx Hs]]; [by left|right]. by apply wound_up_ended.
Qed.

(** C13: the client cannot get stuck, and winds up under every schedule.  From every
    reachable state, the goroutines that it has - the senders and [receive] - take
    at most [distance] steps in any order, and four more for each header that the
    codec still delivers; as long as one of them is left, some of them can go on,
    with a codec that answers.  When all have ended, exactly the calls issued so far
    are completed, each once; and there is a run to that point in which the codec
    delivers no header.  The bound keeps the sequence numbers of the calls that are
    still to be registered from wrapping around. *)
Theorem client_winds_up st :
  reachable NewClientWithCodec st -> registered st + Z.of_nat (unsent st) <= Word.modulus ->
  (exists es st', Forall ending es ∧ lts_run st es = Some st' ∧ wound_up (dom (calls st)) st') ∧
  (forall es st', Forall winding es -> lts_run st es = Some st' ->
     (length es <= distance st + 4 * sum_list_with header es)%nat ∧ (can_move st' ∨ wound_up (dom (calls st)) st')).
Proof.
  intros Hr Hb. assert (winding_up (dom (calls st)) st) as Hi by (split_and!; [apply (reachable_client_inv ord); [done|lia]|done..]). split.
  - destruct (lts_comes_to (winding_up (dom (calls st))) (wound_up (dom (calls st))) ending distance) with (s := st)
      as (es & st' & ? & ? & _ & ?); [|by apply winding_up_moves|done|by exists es, st'].
    intros s e s' H1 [H2 H3] H4. destruct (winding_up_step _ _ _ _ H1 H2 H4) as [? Hle]. rewrite H3 in Hle. split; [done|lia].
  - intros es st' Hw Hrun.
    destruct (lts_credits (winding_up (dom (calls st))) winding (fun _ => 1%nat) (fun e => 4 * header e)%nat distance (winding_up_step _) es st st')
      as [Hi' Hle]; [done..|].
    rewrite (sum_list_with_const 1) in Hle. rewrite sum_list_with_mult in Hle. split; [lia|]. by apply winding_up_moves.
Qed.
End progress.

(** From the middle of the run of [Demo]: one call is still pending. *)
Lemma client_winds_up_witness :
  (exists es st', Forall ending es ∧ @lts_run _ _ (progress_steps Demo.order) Demo.mid es = Some st' ∧ wound_up (dom (calls Demo.mid)) st') ∧
  (forall es st', Forall winding es -> @lts_run _ _ (progress_steps Demo.order) Demo.mid es = Some st' ->
     (length es <= distance Demo.mid + 4 * sum_list_with header es)%nat ∧ (can_move Demo.order st' ∨ wound_up (dom (calls Demo.mid)) st')).
Proof. apply (client_winds_up Demo.order Demo.mid); [apply Demo.mid_reachable|by vm_compute]. Defined.
