(* ===== verification/ClientCall.v ===== *)
(** * client.go: Client.Call

    [Call] makes a channel with room for one call, gives it to [Go], waits for
    what comes out of it and returns the error of that call.  The channel is
    nobody else's, and the call that comes out is the one that went in. *)
From S2P Require Import Prelude GoStd Types Plugin Client ClientSafety ClientLedger.

Section call.
Context {V W : Type}.
Context (ord : gmap string (Plugin V W) -> list (string * Plugin V W)).
Abbreviation client := (@client V W).
#[local] Instance call_steps : LTS client (client_event (V := V)) := client_step ord.
Implicit Types (st : client) (id : callid) (ch : chanid).

(** [client.Go(serviceMethod, args, reply, make(chan *Call, 1))] *)
Definition Call_begin st id ch (serviceMethod : string) (args reply : V) : outcome client :=
  Go (upd_chans st (<[ch := mkChan 1 []]> (chans st))) id serviceMethod args reply (Some ch) ch.

(** [call := <-....Done; return call.Error]; [None] while the channel is empty. *)
Definition Call_end st ch : option (client * option error) :=
  match chans st !! ch with
  | Some (mkChan n (id :: rest)) =>
      match calls st !! id with
      | Some call =>
          Some (upd_received (upd_chans st (<[ch := mkChan n rest]> (chans st))) (received st ++ [(ch, id)]), c_Error call)
      | None => None
      end
  | _ => None
  end.

(** Both are steps of the client. *)
Lemma Call_begin_runs st id ch sm args reply fresh :
  chans st !! ch = None -> calls st !! id = None -> chans st !! fresh = None -> fresh <> ch ->
  exists st', Call_begin st id ch sm args reply = Return st' ∧
    lts_run st [EvMakeChan ch 1; EvGoCall id sm args reply (Some ch) fresh] = Some st'.
Proof.
  intros H1 H2 H3 Hne. unfold Call_begin, Go. simpl. rewrite lookup_insert_eq. simpl. eexists. split; [done|].
  unfold lts_run, lts_step, call_steps. simpl. rewrite bool_decide_eq_true_2 by done. simpl.
  rewrite bool_decide_eq_true_2 by (split; [done|by rewrite lookup_insert_ne]). simpl. by rewrite lookup_insert_eq.
Qed.

Lemma Call_end_runs st ch st' err : Call_end st ch = Some (st', err) -> client_step ord st (EvReceive ch) = Some st'.
Proof.
  unfold Call_end. simpl. destruct (chans st !! ch) as [[n [|id rest]]|]; try done. destruct (calls st !! id); [|done].
  intros; by simplify_eq.
Qed.

(** On a channel that only one call was issued with, nothing but that call comes
    out, when it is completed. *)
Lemma own_channel st id ch c :
  client_inv st -> issued_on st ch = [id] -> chans st !! ch = Some c -> cap c = 1%nat -> received_on st ch = [] ->
  (id ∈ finished st ∧ buf c = [id]) ∨ (id ∉ finished st ∧ buf c = []).
Proof.
  intros Hi Hiss Hch Hcap Hrec. pose proof (ci_ledger _ Hi) as Hl.
  assert (completed_on st ch = buf c) as Hbuf by (rewrite (le_delivered _ Hl ch c Hch), Hrec; [done|rewrite Hiss, Hcap; done]).
  assert (forall i, i ∈ buf c <-> i = id ∧ id ∈ finished st) as Hin.
  { intros i. rewrite <- Hbuf. unfold completed_on, finished. rewrite !list_elem_of_fmap. split.
    - intros (co & -> & [Hd Hco]%list_elem_of_filter). destruct (le_completed _ Hl co Hco) as (_ & c1 & Hc1 & _ & Ed).
      assert (co_call co ∈ issued_on st ch) as Hx.
      { apply elem_of_collect. exists (co_call co), c1. split; [done|]. rewrite bool_decide_eq_true_2 by congruence. set_solver. }
      rewrite Hiss in Hx. apply list_elem_of_singleton in Hx. split; [done|]. rewrite <- Hx. by exists co.
    - intros [-> (co & E & Hco)]. exists co. split; [done|]. apply list_elem_of_filter. split; [|done].
      destruct (le_completed _ Hl co Hco) as (_ & c1 & Hc1 & _ & <-).
      assert (id ∈ issued_on st ch) as (k & c2 & Hk & Hx)%elem_of_collect by (rewrite Hiss; set_solver).
      case_bool_decide; [|by apply elem_of_nil in Hx]. apply list_elem_of_singleton in Hx. congruence. }
  assert (NoDup (buf c)) as Hnd.
  { rewrite <- Hbuf. eapply sublist_NoDup; [apply (finished_NoDup _ (ci_books _ Hi))|]. apply fmap_sublist, sublist_filter. }
  destruct (decide (id ∈ finished st)) as [Hf|Hf]; [left|right]; (split; [done|]).
  - destruct (buf c) as [|i [|j l]] eqn:Eb.
    + exfalso. by apply (not_elem_of_nil id), Hin.
    + f_equal. apply Hin. set_solver.
    + apply NoDup_cons in Hnd as [Hn _]. destruct Hn. rewrite (proj1 (proj1 (Hin i) ltac:(set_solver))).
      rewrite (proj1 (proj1 (Hin j) ltac:(set_solver))). set_solver.
  - destruct (buf c) as [|i l]; [done|]. destruct Hf. apply (Hin i). set_solver.
Qed.

Lemma Call_end_when st id ch c :
  client_inv st -> issued_on st ch = [id] -> chans st !! ch = Some c -> cap c = 1%nat -> received_on st ch = [] ->
  (forall co, co ∈ completed st -> co_call co = id -> exists st', Call_end st ch = Some (st', co_err co)) ∧
  (id ∉ finished st -> Call_end st ch = None).
Proof.
  intros Hi Hiss Hch Hcap Hrec. unfold Call_end. rewrite Hch. destruct c as [n b]. simpl in *. subst n. split.
  - intros co Hco <-. assert (co_call co ∈ finished st) as Hf by (by apply list_elem_of_fmap_2).
    destruct (own_channel _ _ _ _ Hi Hiss Hch eq_refl Hrec) as [[_ Eb]|[? _]]; [simpl in Eb; subst b|done].
    destruct (le_completed _ (ci_ledger _ Hi) co Hco) as (_ & c & -> & <- & _). by eexists.
  - intros Hf. destruct (own_channel _ _ _ _ Hi Hiss Hch eq_refl Hrec) as [[? _]|[_ Eb]]; [done|]. simpl in Eb. by subst b.
Qed.

(** ** A channel of one's own *)

(** What only [Go] and [make] change: the method, argument and channel of each
    call, the capacities of the channels, and what was received. *)
Definition call_head (c : @Call V) : string * V * chanid := (c_ServiceMethod c, c_Args c, c_Done c).

Definition settled st st' : Prop :=
  received st' = received st ∧ (forall id, call_head <$> calls st' !! id = call_head <$> calls st !! id) ∧
  (forall ch, cap <$> chans st' !! ch = cap <$> chans st !! ch).

#[local] Instance settled_preorder : PreOrder settled.
Proof. split; [done|]. intros st1 st2 st3 (? & H1 & H2) (? & H3 & H4). split_and!; [congruence|..]; intros; by rewrite ?H3, ?H4. Qed.

Lemma settled_same st st' :
  calls st' = calls st -> chans st' = chans st -> received st' = received st -> settled st st'.
Proof. intros E1 E2 E3. unfold settled. by rewrite E1, E2, E3. Qed.

Lemma settled_finish st id e r : settled st (finish_call st id e r).
Proof.
  unfold finish_call, settled. destruct (calls st !! id) as [c|] eqn:Hc; [simpl|done]. split; [done|]. split.
  - intros i. rewrite lookup_insert. case_decide; [subst|done]. rewrite Hc. by destruct e.
  - intros ch. rewrite lookup_alter. case_decide; [subst|done]. destruct (chans st !! c_Done c) as [k|]; [simpl|done].
    unfold push. by case_match.
Qed.

Lemma settled_finish_all st ids e : settled st (finish_all st ids e).
Proof.
  unfold finish_all. revert st. induction ids as [|i ids IH]; intros st; simpl; [done|].
  etrans; [apply settled_finish|apply IH].
Qed.

Lemma settled_deliver st resp id v e st' : deliver ord st resp id v e = Some st' -> settled st st'.
Proof.
  unfold deliver. intros Hd. set (rd := fun c : Call => _) in Hd. destruct (cpm_PostReadResponse _ _ _) as [[? perr]|]; simplify_eq.
  transitivity (upd_calls st (alter rd id (calls st))).
  - unfold settled. split_and!; [done| |done]. intros i. simpl. rewrite lookup_alter. case_decide; [subst|done].
    destruct (calls st !! i); [simpl|done]. unfold rd. by destruct e.
  - etrans; [apply settled_finish|by apply settled_same].
Qed.

Lemma settled_send st id a st' : send_step st id a = Some st' -> settled st st'.
Proof.
  intros Hs. unfold send_step, register_call in Hs. split_matches; try (by apply settled_same);
    try (etrans; [apply settled_finish|by apply settled_same]).
Qed.

Lemma settled_rx st a st' : rx_step ord st a = Some st' -> settled st st'.
Proof.
  intros Hs. unfold rx_step in Hs. split_matches; try (by apply settled_same); try (by eapply settled_deliver);
    try (etrans; [apply settled_finish|by apply settled_same]).
  transitivity (upd_flags st (closing st) true); [by apply settled_same|].
  etrans; [apply settled_finish_all|by apply settled_same].
Qed.

(** The call [id] is the only one issued with channel [ch], which has room for
    one, and nothing was received from it. *)
Record owns id ch (sm : string) (args : V) st : Prop := {
  ow_call : exists c, calls st !! id = Some c ∧ call_head c = (sm, args, ch);
  ow_only : forall i c, calls st !! i = Some c -> c_Done c = ch -> i = id;
  ow_chan : exists k, chans st !! ch = Some k ∧ cap k = 1%nat;
  ow_received : forall i, (ch, i) ∉ received st
}.

(** An event of somebody who does not have the channel. *)
Definition leaves_alone ch (e : client_event (V := V)) : Prop :=
  match e with
  | EvReceive ch' => ch' <> ch
  | EvGoCall _ _ _ _ (Some ch') _ => ch' <> ch
  | _ => True
  end.

Lemma owns_settled id ch sm args st st' : owns id ch sm args st -> settled st st' -> owns id ch sm args st'.
Proof.
  intros [(c & Hc & Hh) H2 (k & Hk & Hcap) H4] (E1 & E2 & E3). split.
  - specialize (E2 id). rewrite Hc in E2. simpl in E2. apply fmap_Some in E2 as (c' & Hc' & E). exists c'. by rewrite <- E.
  - intros i c' Hc' Hd. specialize (E2 i). rewrite Hc' in E2. simpl in E2. symmetry in E2.
    apply fmap_Some in E2 as (c1 & Hc1 & E). apply (H2 i c1 Hc1). unfold call_head in E. congruence.
  - specialize (E3 ch). rewrite Hk in E3. simpl in E3. apply fmap_Some in E3 as (k' & Hk' & E). exists k'. by rewrite <- E.
  - by rewrite E1.
Qed.

Lemma owns_step id ch sm args st e st' :
  leaves_alone ch e -> owns id ch sm args st -> client_step ord st e = Some st' -> owns id ch sm args st'.
Proof.
  intros Hl Ho Hs. destruct e as [ch' n|ch'|i m a r dn fresh|i a|a|]; simpl in Hs.
  - case_bool_decide as Hn; simplify_eq. destruct Ho as [H1 H2 (k & Hk & Hcap) H4]. split; simpl; try done.
    exists k. rewrite lookup_insert_ne by congruence. done.
  - simpl in Hl. destruct (chans st !! ch') as [[n [|x l]]|]; simplify_eq. destruct Ho as [H1 H2 (k & Hk & Hcap) H4].
    split; simpl; try done; [exists k; by rewrite lookup_insert_ne|]. intros i [?|Hi%list_elem_of_singleton]%elem_of_app; [by eapply H4|congruence].
  - case_bool_decide as Hf; [|done]. destruct Hf as [Hnew Hfresh]. destruct Ho as [(c & Hc & Hh) H2 (k & Hk & Hcap) H4].
    assert (i <> id) by congruence. unfold Go in Hs. destruct dn as [ch'|].
    + simpl in Hl. destruct (chans st !! ch') as [k'|]; [|done]. case_bool_decide; simplify_eq.
      split; simpl; [exists c; by rewrite lookup_insert_ne| |by exists k|done].
      intros j c'. rewrite lookup_insert. case_decide; [by intros [= <-]|]. by apply H2.
    + simplify_eq. assert (fresh <> ch) by congruence.
      split; simpl; [exists c; by rewrite lookup_insert_ne| |exists k; by rewrite lookup_insert_ne|done].
      intros j c'. rewrite lookup_insert. case_decide; [by intros [= <-]|]. by apply H2.
  - by eapply owns_settled; [|eapply settled_send].
  - by eapply owns_settled; [|eapply settled_rx].
  - simplify_eq. eapply owns_settled; [done|]. unfold mark_closing. destruct (closing st); [done|by apply settled_same].
Qed.

Lemma owns_run id ch sm args es st st' :
  Forall (leaves_alone ch) es -> owns id ch sm args st -> lts_run st es = Some st' -> owns id ch sm args st'.
Proof.
  revert st. induction es as [|e es IH]; simpl; intros st Hl Ho Hr; [by simplify_eq|]. inversion Hl; subst.
  change (lts_step st e) with (client_step ord st e) in Hr. destruct (client_step ord st e) as [st1|] eqn:Hs; [|done].
  by eapply IH; [..|eapply owns_step|].
Qed.

(** [Call] gets a channel of its own. *)
Lemma Call_begin_owns st id ch sm args reply st1 :
  ledger st -> chans st !! ch = None -> Call_begin st id ch sm args reply = Return st1 -> owns id ch sm args st1.
Proof.
  intros Hl Hn Hb. unfold Call_begin, Go in Hb. simpl in Hb. rewrite lookup_insert_eq in Hb. simpl in Hb. simplify_eq.
  split; simpl.
  - eexists. by rewrite lookup_insert_eq.
  - intros i c. rewrite lookup_insert. case_decide; [done|]. intros Hc Hd. destruct (le_chan _ Hl i c Hc). congruence.
  - eexists. by rewrite lookup_insert_eq.
  - intros i Hi. destruct (le_received _ Hl ch i Hi). congruence.
Qed.

Lemma owns_issued id ch sm args st : owns id ch sm args st -> issued_on st ch = [id].
Proof.
  intros [(c & Hc & Hh) H2 _ _]. apply Permutation_length_1_inv. symmetry. unfold issued_on.
  rewrite <- (insert_delete_id (calls st) id c Hc), collect_insert_new by apply lookup_delete_eq.
  rewrite bool_decide_eq_true_2 by (unfold call_head in Hh; congruence).
  assert (collect (fun i c => if bool_decide (c_Done c = ch) then [i] else []) (delete id (calls st)) = []) as ->; [|done].
  apply elem_of_nil_inv. intros x (i & c' & Hi & Hx)%elem_of_collect. case_bool_decide as Hd; [|by apply elem_of_nil in Hx].
  apply lookup_delete_Some in Hi as [Hne Hi]. by apply Hne, eq_sym, (H2 i c').
Qed.

Lemma owns_received id ch sm args st : owns id ch sm args st -> received_on st ch = [].
Proof. intros [_ _ _ H4]. unfold received_on. rewrite filter_absent; [done|]. intros [ch1 i] Hin Heq. simpl in Heq. subst. by apply (H4 i). Qed.

(** ** [Call] *)

Lemma run_registered es st st' : lts_run st es = Some st' -> registered st <= registered st'.
Proof.
  revert st. induction es as [|e es IH]; simpl; intros st Hr; [by simplify_eq|].
  change (lts_step st e) with (client_step ord st e) in Hr. destruct (client_step ord st e) as [st1|] eqn:Hs; [|done].
  etrans; [by eapply registered_mono|by apply IH].
Qed.

Lemma Call_begin_returns st id ch sm args reply :
  chans st !! ch = None -> calls st !! id = None ->
  exists st1, Call_begin st id ch sm args reply = Return st1 ∧ reachable st st1 ∧ registered st1 = registered st.
Proof.
  intros Hn Hc. set (fresh := fresh ({[ch]} ∪ dom (chans st))).
  assert (fresh <> ch ∧ chans st !! fresh = None) as [Hne Hf].
  { pose proof (is_fresh ({[ch]} ∪ dom (chans st) : gset chanid)) as Hf. fold fresh in Hf. split; [set_solver|].
    apply not_elem_of_dom. set_solver. }
  destruct (Call_begin_runs st id ch sm args reply fresh) as (st1 & Hb & Hr); [done..|].
  exists st1. split; [done|]. split; [by eapply lts_run_reachable|]. unfold Call_begin in Hb. apply Go_frame in Hb. by destruct_and!.
Qed.

(** C19: [Call].  In any state of the client, with a new channel and a new call
    it begins without a panic.  However the client goes on, as long as nobody
    else is given the channel that [Call] made: the channel has room for one and
    the call keeps its method and argument; once the call is completed, [Call]
    returns, and what it returns is the error that this call was completed with;
    until then it waits. *)
Theorem Call_returns_its_call st0 id ch sm args reply :
  reachable NewClientWithCodec st0 -> chans st0 !! ch = None -> calls st0 !! id = None ->
  exists st1, Call_begin st0 id ch sm args reply = Return st1 ∧
    forall es st, Forall (leaves_alone ch) es -> lts_run st1 es = Some st -> registered st <= Word.modulus ->
      (exists c, calls st !! id = Some c ∧ c_ServiceMethod c = sm ∧ c_Args c = args ∧ c_Done c = ch) ∧
      (exists k, chans st !! ch = Some k ∧ cap k = 1%nat) ∧
      (forall co, co ∈ completed st -> co_call co = id -> exists st', Call_end st ch = Some (st', co_err co)) ∧
      (id ∉ finished st -> Call_end st ch = None).
Proof.
  intros Hr Hn Hc. destruct (Call_begin_returns st0 id ch sm args reply Hn Hc) as (st1 & Hb & Hr1 & Hreg).
  exists st1. split; [done|]. intros es st Hl Hrun Hbound.
  pose proof (run_registered es st1 st Hrun) as Hmono.
  assert (ledger st0) as Hled by (apply ci_ledger, (reachable_client_inv ord); [done|lia]).
  assert (owns id ch sm args st) as Ho by (eapply owns_run; [done|by eapply Call_begin_owns|done]).
  assert (client_inv st) as Hi.
  { apply (reachable_client_inv ord); [|done]. by eapply reachable_trans; [exact Hr|]; eapply reachable_trans; [exact Hr1|]; eapply lts_run_reachable. }
  pose proof (owns_issued _ _ _ _ _ Ho) as Hiss. pose proof (owns_received _ _ _ _ _ Ho) as Hrec.
  destruct Ho as [(c & Hcl & Hh) _ (k & Hch & Hcap) _]. unfold call_head in Hh.
  split; [exists c; by simplify_eq|]. split; [by exists k|]. apply (Call_end_when st id ch k); done.
Qed.
End call.

(** ** A call, from beginning to end *)
Module CallDemo.

Definition order (m : gmap string (Plugin Z unit)) : list (string * Plugin Z unit) := map_to_list m.
#[local] Instance demo_steps : LTS (@client Z unit) (client_event (V := Z)) := client_step order.

(** The client is idle; the call is begun, sent and answered. *)
Definition begun : @client Z unit :=
  match Call_begin NewClientWithCodec 0 0 "Arith.Double" 21 0 with Return st => st | Panic _ => NewClientWithCodec end.
Definition events : list (@client_event Z) :=
  [EvSend 0 None; EvSend 0 None; EvSend 0 None; EvSend 0 None;
   EvRx (AHeader (mkResponse "Arith.Double" 0 "odd" None)); EvRx ATau; EvRx ATau; EvRx (ADiscard None)].
Definition waiting : @client Z unit := default begun (lts_run begun (take 7 events)).
Definition answered : @client Z unit := default begun (lts_run begun events).

Lemma Call_returns_its_call_witness :
  (exists st', Call_end answered 0 = Some (st', Some (ServerError "odd"))) ∧ Call_end waiting 0 = None.
Proof.
  destruct (Call_returns_its_call order NewClientWithCodec 0 0 "Arith.Double" 21 0) as (st1 & E & H);
    [constructor|reflexivity|reflexivity|]. assert (st1 = begun) as -> by (vm_compute in E; injection E as <-; vm_compute; reflexivity).
  split.
  - destruct (H events answered) as (_ & _ & H1 & _); [repeat constructor|vm_compute; reflexivity|by vm_compute|].
    apply (H1 (mkCompletion 0 0 (Some (mkResponse "Arith.Double" 0 "odd" None)) (Some (ServerError "odd")))); [|reflexivity].
    apply (list_elem_of_lookup_2 _ 0). vm_compute; reflexivity.
  - destruct (H (take 7 events) waiting) as (_ & _ & _ & H1); [repeat constructor|vm_compute; reflexivity|by vm_compute|].
    apply H1. vm_compute. by apply not_elem_of_nil.
Defined.
End CallDemo.
