(* ===== verification/ClientTrace.v ===== *)
(** * A call through the steps of the client

    What a step leaves alone of a call: its method and argument for ever, its
    reply but for a delivery, all of it once it is completed; where a completion with a response comes from; and
    that a sender that has written does not write again. *)
From S2P Require Import Prelude GoStd Types Plugin Client ClientSafety ClientLedger.

Section trace.
Context {V W : Type}.
Context (ord : gmap string (Plugin V W) -> list (string * Plugin V W)).
Abbreviation client := (@client V W).
Implicit Types (st : client) (id : callid) (c : @Call V).

(** ** What a step keeps of a call *)

Definition kept (R : Call -> Call -> Prop) id st st' : Prop :=
  forall c, calls st !! id = Some c -> exists c', calls st' !! id = Some c' ∧ R c c'.

Section kept.
Context (R : @Call V -> @Call V -> Prop) `{!PreOrder R} (R_error : forall c e, R c (set_Error c e)).

Lemma kept_eq id st st' : calls st' = calls st -> kept R id st st'.
Proof. intros E c Hc. rewrite E. by exists c. Qed.

Lemma kept_trans id st1 st2 st3 : kept R id st1 st2 -> kept R id st2 st3 -> kept R id st1 st3.
Proof.
  intros H1 H2 c Hc. destruct (H1 _ Hc) as (c1 & Hc1 & ?). destruct (H2 _ Hc1) as (c2 & Hc2 & ?).
  exists c2. split; [done|]. by etrans.
Qed.

Lemma finish_call_kept i st id e r : kept R i st (finish_call st id e r).
Proof.
  intros c Hc. unfold finish_call. destruct (calls st !! id) as [c1|] eqn:H1; [|by exists c]. simpl.
  rewrite lookup_insert. case_decide; [subst|by exists c]. simplify_eq. eexists. split; [done|]. by destruct e.
Qed.

Lemma finish_all_kept i st ids e : kept R i st (finish_all st ids e).
Proof.
  unfold finish_all. revert st; induction ids as [|j ids IH]; intros st; simpl; [by apply kept_eq|].
  eapply kept_trans; [apply finish_call_kept|apply IH].
Qed.

Lemma deliver_kept i st resp id v e st' :
  (id = i -> forall c, R c (set_Reply c v)) -> deliver ord st resp id v e = Some st' -> kept R i st st'.
Proof.
  unfold deliver. intros HR Hd. set (rd := fun c : Call => _) in Hd.
  destruct (cpm_PostReadResponse _ _ _) as [[? perr]|]; simplify_eq.
  eapply (kept_trans _ _ (upd_calls st (alter rd id (calls st)))).
  - intros c Hc. simpl. rewrite lookup_alter. case_decide; [subst|by exists c]. rewrite Hc. simpl.
    eexists. split; [done|]. unfold rd. destruct e; [|by apply HR]. etrans; [by apply HR|apply R_error].
  - intros c Hc. simpl. by apply finish_call_kept.
Qed.

(** Only the delivery of a body changes the reply. *)
Lemma step_kept i st e st' :
  (forall r c v, rx st = RxBody r (Some i) -> R c (set_Reply c v)) -> client_step ord st e = Some st' -> kept R i st st'.
Proof.
  intros HR Hs. destruct e as [ch n|ch|id sm args reply done fresh|id a|a|]; simpl in Hs.
  - case_bool_decide; simplify_eq. by apply kept_eq.
  - destruct (chans st !! ch) as [[n [|x l]]|]; simplify_eq. by apply kept_eq.
  - case_bool_decide as Hnew; [|done]. destruct (Go _ _ _ _ _ _ _) as [st1|] eqn:Hg; simplify_eq.
    apply Go_frame in Hg as (_ & _ & _ & _ & _ & _ & _ & _ & _ & _ & _ & ch & E). intros c Hc. exists c.
    rewrite E, lookup_insert_ne; [done|]. intros ->. destruct Hnew. congruence.
  - unfold send_step, register_call in Hs. split_matches_in Hs; simplify_eq; try (by apply kept_eq);
      try (eapply kept_trans; [apply finish_call_kept|by apply kept_eq]).
    apply kept_eq. by destruct (_ || _).
  - unfold rx_step in Hs. destruct (rx st) as [|r|r co|r [id|]| | | |] eqn:Hrx; destruct a; split_matches_in Hs; simplify_eq;
      try (by apply kept_eq); try (eapply kept_trans; [apply finish_call_kept|by apply kept_eq]).
    + eapply deliver_kept; [|exact Hs]. intros -> c. by apply (HR r).
    + eapply kept_trans; [|by apply kept_eq]. intros c Hc. simpl. by apply (finish_all_kept i (upd_flags _ _ _)).
  - simplify_eq. apply kept_eq. unfold mark_closing. by destruct (closing st).
Qed.
End kept.

(** Its method and argument stay for ever. *)
Definition same_call c c' : Prop := c_ServiceMethod c' = c_ServiceMethod c ∧ c_Args c' = c_Args c.
#[global] Instance same_call_preorder : PreOrder same_call.
Proof. split; [done|]. intros c1 c2 c3 [? ?] [? ?]. split; congruence. Qed.

Lemma step_same_call i st e st' : client_step ord st e = Some st' -> kept same_call i st st'.
Proof. by apply (step_kept same_call). Qed.

(** Its reply stays but for a delivery. *)
Definition same_reply c c' : Prop := c_Reply c' = c_Reply c.
#[global] Instance same_reply_preorder : PreOrder same_reply.
Proof. split; [done|]. intros c1 c2 c3 ? ?. unfold same_reply in *. congruence. Qed.

Lemma step_same_reply i st e st' :
  (forall r, rx st <> RxBody r (Some i)) -> client_step ord st e = Some st' -> kept same_reply i st st'.
Proof. intros Hn. apply (step_kept same_reply); [done|]. intros r c v Hr. by destruct (Hn r). Qed.

(** ** Completed calls *)

(** A completed call is not touched again. *)
Lemma finish_all_frozen st ids e id : id ∉ ids -> calls (finish_all st ids e) !! id = calls st !! id.
Proof.
  unfold finish_all. revert st; induction ids as [|i ids IH]; intros st Hn; simpl; [done|].
  rewrite IH by set_solver. unfold finish_call. destruct (calls st !! i); [simpl|done].
  rewrite lookup_insert_ne; set_solver.
Qed.

Lemma effect_frozen st st' id :
  client_inv st -> effect st st' -> id ∈ finished st -> calls st' !! id = calls st !! id.
Proof.
  intros Hi He Hf. pose proof (finished_issued _ _ (ci_books _ Hi) Hf) as [c Hc]%elem_of_dom.
  destruct He as [E| |ch n i rest E|i c1 Hn E| i resp (Hn & _ & _ & c1 & c2 & _ & _ & E & _)|st1 e ids E _ _ _ _ Hnd _ _ _ E2];
    rewrite ?E; try congruence.
  - rewrite lookup_insert_ne; congruence.
  - rewrite lookup_insert_ne; [done|]. by intros ->.
  - rewrite E2, finish_all_frozen, E; [done|]. apply NoDup_app in Hnd as (_ & Hnd & _). auto.
Qed.

(** Nor is a call touched before it is completed; and it keeps its number. *)
Lemma effect_untouched st st' id c :
  effect st st' -> calls st !! id = Some c -> id ∉ finished st' -> calls st' !! id = Some c.
Proof.
  intros He Hc Hn.
  destruct He as [E| |ch n i rest E|i c1 Hn1 E| i resp (_ & _ & _ & c1 & c2 & _ & _ & E & _ & E2 & _)|st1 e ids E E1 _ _ _ _ Hd _ _ E2 _ E3];
    rewrite ?E; try congruence.
  - rewrite lookup_insert_ne; congruence.
  - rewrite lookup_insert_ne; [done|]. intros ->. apply Hn. unfold finished. rewrite E2, fmap_app. set_solver.
  - rewrite E2, finish_all_frozen, E; [done|]. intros Hin. apply Hn. unfold finished.
    rewrite E3, finish_all_completed by (rewrite E; done). set_solver.
Qed.

Lemma effect_seq_of st st' : effect st st' -> seq_of st ⊆ seq_of st'.
Proof. destruct 1 as [| | | |i r (_ & E & _)|]; try done; by match goal with E : seq_of st' = seq_of st |- _ => rewrite E end. Qed.

(** A step issues at most one call. *)
Lemma effect_dom st st' :
  effect st st' -> dom (calls st') = dom (calls st) ∨ exists id c, calls st !! id = None ∧ calls st' = <[id := c]> (calls st) ∧ completed st' = completed st.
Proof.
  destruct 1 as [E|? ? E|? ? ? ? E|id c Hn E ? ? ? E2|i resp (_ & _ & _ & c1 & c2 & H1 & _ & E & _)|st1 e ids E1 E2 E3 E4 E5 Hnd Hd E6 E7 E];
    try (left; by rewrite E).
  - right. by exists id, c.
  - left. rewrite E. rewrite dom_insert_lookup_L; eauto.
  - left. rewrite E. destruct (finish_all_frame st1 ids e) as (_ & _ & _ & _ & _ & _ & _ & _ & _ & _ & Ed). by rewrite Ed, E1.
Qed.

(** Where a completion with a response comes from: [receive] was at the body of
    that response, which decides the error and, without one, the reply. *)
Definition completion_from st st' (e : client_event (V := V)) (co : completion) : Prop :=
  forall r, co_resp co = Some r -> rx st = RxBody r (Some (co_call co)) ∧
    (co_err co = None -> exists v c, e = EvRx (ABody v None) ∧ calls st' !! co_call co = Some c ∧ c_Reply c = v).

Definition adds st st' (e : client_event (V := V)) : Prop :=
  exists new, completed st' = completed st ++ new ∧ forall co, co ∈ new -> completion_from st st' e co.

Lemma adds_none st st' e : completed st' = completed st -> adds st st' e.
Proof. intros E. exists []. rewrite app_nil_r. split; [done|]. set_solver. Qed.

Lemma adds_finish st st' st1 e id err resp :
  completed st1 = completed st -> completed st' = completed (finish_call st1 id (Some err) resp) ->
  (forall r, resp = Some r -> rx st = RxBody r (Some id)) -> adds st st' e.
Proof.
  intros E1 E2 Hr. unfold finish_call in E2. destruct (calls st1 !! id) as [c|].
  - simpl in E2. rewrite E1 in E2. eexists. split; [done|]. intros co ->%list_elem_of_singleton.
    intros r [= ->]. split; [by apply Hr|]. by intros [=].
  - apply adds_none. congruence.
Qed.

Lemma adds_finish_all st st' st1 e ids err :
  completed st1 = completed st -> completed st' = completed (finish_all st1 ids err) -> adds st st' e.
Proof.
  intros E1 E2.
  assert (exists new, completed (finish_all st1 ids err) = completed st1 ++ new ∧
    forall co, co ∈ new -> co_resp co = None) as (new & E & Hn).
  { clear. unfold finish_all. revert st1; induction ids as [|i ids IH]; intros st1; simpl.
    { exists []. rewrite app_nil_r. split; [done|set_solver]. }
    destruct (IH (finish_call st1 i (Some err) None)) as (new & -> & Hn). unfold finish_call.
    destruct (calls st1 !! i); [|by eauto]. simpl. rewrite <- (assoc_L (++)). eexists. split; [done|].
    intros co [->%list_elem_of_singleton|?]%elem_of_app; auto. }
  exists new. rewrite E2, E, E1. split; [done|]. intros co Hin r Hr. by rewrite Hn in Hr.
Qed.

Lemma adds_deliver st st' resp id v e :
  rx st = RxBody resp (Some id) -> deliver ord st resp id v e = Some st' -> adds st st' (EvRx (ABody v e)).
Proof.
  intros Hrx Hd. unfold deliver in Hd. set (rd := fun c : Call => _) in Hd.
  destruct (cpm_PostReadResponse _ _ _) as [[? perr]|]; simplify_eq. unfold finish_call. simpl.
  rewrite lookup_alter_eq. destruct (calls st !! id) as [c|] eqn:Hc; simpl; [|by apply adds_none].
  eexists. split; [done|]. intros co ->%list_elem_of_singleton r [= <-]. simpl. split; [done|].
  intros He. exists v, (rd c). rewrite lookup_insert_eq. unfold rd in *. by destruct e.
Qed.

Lemma step_adds st e st' : client_step ord st e = Some st' -> adds st st' e.
Proof.
  intros Hs. destruct e as [ch n|ch|id sm args reply done fresh|id a|a|]; simpl in Hs.
  - case_bool_decide; simplify_eq. by apply adds_none.
  - destruct (chans st !! ch) as [[n [|x l]]|]; simplify_eq. by apply adds_none.
  - case_bool_decide as Hnew; [|done]. destruct (Go _ _ _ _ _ _ _) as [st1|] eqn:Hg; simplify_eq.
    apply Go_frame in Hg as (_ & _ & _ & _ & _ & _ & _ & _ & _ & _ & E & _). by apply adds_none.
  - unfold send_step, register_call in Hs.
    split_matches_in Hs; simplify_eq; try (by apply adds_none); try (by eapply (adds_finish _ _ st)).
    apply adds_none. by destruct (_ || _).
  - unfold rx_step in Hs. destruct (rx st) as [|r|r co|r [i|]| | | |] eqn:Hrx; destruct a; try done;
      split_matches_in Hs; simplify_eq; try (by apply adds_none).
    + by eapply adds_deliver.
    + eapply (adds_finish _ _ st); [done|done|]. intros ? [= ->]. done.
    + by eapply (adds_finish_all _ _ (upd_flags st (closing st) true)).
  - simplify_eq. apply adds_none. unfold mark_closing. by destruct (closing st).
Qed.

(** ** Senders *)

(** Past the write. *)
Definition past (p : send_pc) : Prop := match p with SLock | SRegister | SWrite _ => False | _ => True end.

Definition is_past st id : Prop := forall p, senders st !! id = Some p -> past p.

Lemma is_past_eq st st' id : is_past st id -> senders st' !! id = senders st !! id -> is_past st' id.
Proof. intros Hp E p. rewrite E. apply Hp. Qed.

Lemma send_step_past st id a st' i :
  send_step st id a = Some st' -> is_past st i -> is_past st' i.
Proof.
  intros Hs Hp. destruct (decide (i = id)) as [->|Hne].
  - unfold send_step, register_call in Hs. destruct (senders st !! id) as [p|] eqn:Hpc; [|done].
    specialize (Hp p Hpc). intros p'. destruct p; simpl in Hp; try done; simplify_eq; simpl;
      rewrite ?lookup_insert_eq, ?lookup_delete_eq; try done; intros; simplify_eq; by repeat case_match.
  - eapply is_past_eq; [done|]. unfold send_step, register_call, finish_call in Hs.
    split_matches_in Hs; simplify_eq; simpl; try destruct (_ || _); simpl; repeat case_match; simpl;
      rewrite ?lookup_insert_ne, ?lookup_delete_ne by done; done.
Qed.

Lemma step_past st e st' i :
  client_step ord st e = Some st' -> is_Some (calls st !! i) -> is_past st i -> is_past st' i.
Proof.
  intros Hs [c Hc] Hp. destruct e as [ch n|ch|id sm args reply done fresh|id a|a|]; simpl in Hs.
  - case_bool_decide; by simplify_eq.
  - destruct (chans st !! ch) as [[n [|x l]]|]; by simplify_eq.
  - case_bool_decide as Hnew; [|done]. destruct (Go _ _ _ _ _ _ _) as [st1|] eqn:Hg; simplify_eq.
    apply Go_frame in Hg as (_ & _ & _ & _ & _ & _ & E & _). eapply is_past_eq; [done|].
    rewrite E, lookup_insert_ne; [done|]. intros ->. destruct Hnew. congruence.
  - by eapply send_step_past.
  - eapply is_past_eq; [done|]. unfold rx_step in Hs. split_matches_in Hs; simplify_eq; simpl; try done.
    + by apply deliver_frame in Hs as (_ & _ & _ & _ & _ & _ & -> & _).
    + match goal with |- context [finish_call ?s ?i ?e ?r] => destruct (finish_call_frame s i e r) as (_ & _ & _ & _ & _ & _ & E & _) end.
      by rewrite E.
    + match goal with |- context [finish_all ?s ?i ?e] => destruct (finish_all_frame s i e) as (_ & _ & _ & _ & _ & _ & E & _) end.
      by rewrite E.
  - simplify_eq. unfold mark_closing. by destruct (closing st).
Qed.
End trace.
