(* ===== verification/RpcSpec.v ===== *)
(** * What a remote procedure call promises

    The abstract specification that a client and a server with this package
    implement together, with no connection, codec, sequence number or goroutine
    in it: a call is issued once; its method is run at most once, with the call's
    own argument decoded to the type that the method takes; and it is completed at
    most once, with the reply of that run, with the error of that run, with a
    rejection of a call that is never run, or with a failure of the transport.
    What names, texts and values become on the way is a parameter, [Transfer]. *)
From S2P Require Import Prelude GoStd Utils Types Service Server Client.

(** What becomes of things on their way from one side to the other: the name of a
    method and the text of an error, which no wire makes empty; an argument, which
    is decoded into a new value of a type; and a reply, which is decoded into the
    value that the caller gave. *)
Class Transfer (V : Type) := {
  tr_text : string -> string;
  tr_text_empty : forall s, tr_text s = "" <-> s = "";
  tr_arg : rtype -> V -> V + error;
  tr_reply : V -> V -> V + error
}.
Arguments tr_text V {_} _.
Arguments tr_text_empty V {_} _.

(** What a method was run with, and what it returned. *)
Record run (V : Type) := mkRun {
  run_meth : string * string;
  run_args : option (argval V * replyval);
  run_reply : V;
  run_err : option error
}.
Arguments mkRun {V} _ _ _ _.
Arguments run_meth {V} _.
Arguments run_args {V} _.
Arguments run_reply {V} _.
Arguments run_err {V} _.

(** The text of the error that a method returned. *)
Definition err_text (e : option error) : string := match e with Some e => Error e | None => "" end.

(** What a caller asks for: a method, its argument, and a value to decode the
    reply into. *)
Record asked (V : Type) := mkAsked { a_method : string; a_args : V; a_into : V }.
Arguments mkAsked {V} _ _ _.
Arguments a_method {V} _.
Arguments a_args {V} _.
Arguments a_into {V} _.

Inductive result (V : Type) :=
| Replied (v : V)
| Erred (text : string)
| Rejected (text : string)
| Failed (e : error).
Arguments Replied {V} _.
Arguments Erred {V} _.
Arguments Rejected {V} _.
Arguments Failed {V} _.

Section spec.
Context {V : Type} `{Transfer V}.

(** The methods on offer with the types they take, the calls issued, the runs and
    the results. *)
Record rpc := mkRpc {
  offers : string * string -> rtype -> Prop;
  issued : gmap callid (asked V);
  ran_for : gmap callid (run V);
  results : gmap callid (result V)
}.

(** The argument that a method with a parameter of type [T] gets for [v]. *)
Definition decoded (T : rtype) (v : V) (arg : argval V) : Prop :=
  tr_arg (argTarget T).1 v = inl (arg_value arg) ∧ (arg_elem arg, arg_indirect arg) = argTarget T.

(** A run does what a call asks for. *)
Definition serves (offer : string * string -> rtype -> Prop) (q : asked V) (x : run V) : Prop :=
  splitServiceMethod (tr_text V (a_method q)) = Some (run_meth x) ∧ exists T arg rv, offer (run_meth x) T ∧
    decoded T (a_args q) arg ∧ run_args x = Some (arg, rv).

(** A result that a call may have. *)
Definition allowed (A : rpc) (id : callid) (q : asked V) (o : result V) : Prop :=
  match o with
  | Replied v => exists x, ran_for A !! id = Some x ∧ err_text (run_err x) = "" ∧ tr_reply (a_into q) (run_reply x) = inl v
  | Erred t => exists x, ran_for A !! id = Some x ∧ t = tr_text V (err_text (run_err x)) ∧ t <> ""
  | Rejected t => ran_for A !! id = None ∧ t <> ""
  | Failed _ => True
  end.

Inductive rpc_step : rpc -> rpc -> Prop :=
| rpc_offer A offer' :
    (forall m T, offers A m T -> offer' m T) -> rpc_step A (mkRpc offer' (issued A) (ran_for A) (results A))
| rpc_issue A id q :
    issued A !! id = None -> rpc_step A (mkRpc (offers A) (<[id := q]> (issued A)) (ran_for A) (results A))
| rpc_run A id q x :
    issued A !! id = Some q -> ran_for A !! id = None -> (forall t, results A !! id <> Some (Rejected t)) ->
    serves (offers A) q x ->
    rpc_step A (mkRpc (offers A) (issued A) (<[id := x]> (ran_for A)) (results A))
| rpc_complete A id q o :
    issued A !! id = Some q -> results A !! id = None -> allowed A id q o ->
    rpc_step A (mkRpc (offers A) (issued A) (ran_for A) (<[id := o]> (results A))).

(** Nothing has happened. *)
Definition idle (offer : string * string -> rtype -> Prop) : rpc := mkRpc offer ∅ ∅ ∅.

(** ** What follows from the specification *)

Record rpc_ok (A : rpc) : Prop := {
  ro_ran : forall id x, ran_for A !! id = Some x -> exists q, issued A !! id = Some q ∧ serves (offers A) q x;
  ro_results : forall id o, results A !! id = Some o -> exists q, issued A !! id = Some q ∧ allowed A id q o
}.

Lemma serves_mono (o1 o2 : string * string -> rtype -> Prop) q x :
  (forall m T, o1 m T -> o2 m T) -> serves o1 q x -> serves o2 q x.
Proof. intros Ho (? & T & arg & rv & ? & ? & ?). split; [done|]. exists T, arg, rv. auto. Qed.

Lemma allowed_eq A A' id q o : ran_for A' = ran_for A -> allowed A id q o -> allowed A' id q o.
Proof. intros E. unfold allowed. by rewrite E. Qed.

Lemma rpc_ok_step A A' : rpc_ok A -> rpc_step A A' -> rpc_ok A'.
Proof.
  intros Hok Hs. destruct Hs as [B offer' Ho|B id q Hn|B id q x Hq Hn Hr Hx|B id q o Hq Hn Ho];
    destruct Hok as [H1 H2]; split; simpl; try done.
  - intros id x (q & ? & ?)%H1. exists q. eauto using serves_mono.
  - intros i x (q1 & Hi & ?)%H1. exists q1. rewrite lookup_insert_ne by congruence. done.
  - intros i o (q1 & Hi & ?)%H2. exists q1. rewrite lookup_insert_ne by congruence. eauto using allowed_eq.
  - intros i x1. rewrite lookup_insert. case_decide; [|auto]. subst. intros [= <-]. eauto.
  - intros i o Ho. destruct (H2 i o Ho) as (q1 & Hi & Ha). exists q1. split; [done|].
    destruct o as [v|t|t|e]; simpl in *; try done; try (destruct Ha as (x1 & Hx1 & Ha); exists x1; rewrite lookup_insert_ne by congruence; done).
    destruct Ha as [? ?]. rewrite lookup_insert_ne; [done|]. intros ->. by destruct (Hr t).
  - intros i o1. rewrite lookup_insert. case_decide; [|intros (q1 & Hi & ?)%H2; eauto using allowed_eq]. subst. intros [= <-].
    eauto using allowed_eq.
Qed.

Lemma rpc_ok_runs offer A : rtc rpc_step (idle offer) A -> rpc_ok A.
Proof.
  intros Hr. assert (rpc_ok (idle offer)) as Hi by (by split; simpl; intros ??; rewrite lookup_empty).
  revert Hi. induction Hr; eauto using rpc_ok_step.
Qed.
End spec.
