(* ===== verification/Wire.v ===== *)
(** * What a pair of codecs promises

    The client and the server talk through two codecs of the same kind.  The
    interface [Wire] says how such a pair is joined by a connection, and
    [WireLaws] what both sides rely on: a request that was written is read as that
    request, under a header that the server has not seen before; a response is read
    as the response to that request; and closing ends the stream.  The composed
    system and all its theorems are stated against these classes; the gob and the
    JSON codecs are instances. *)
From S2P Require Import Prelude GoStd Utils Types Server ServerConn Client RpcSpec.

(** One end of a connection: what is to be read, what was written, and whether this
    end was closed. *)
Record link (M : Type) := mkLink { l_input : list (M + error); l_sent : list M; l_closed : bool }.
Arguments mkLink {M} _ _ _.
Arguments l_input {M} _.
Arguments l_sent {M} _.
Arguments l_closed {M} _.

(** A new end; and an end that is read up to [rest]. *)
Definition new_link {M} : link M := mkLink [] [] false.
Definition read_to {M} (l : link M) (rest : list (M + error)) : link M := mkLink rest (l_sent l) (l_closed l).
Definition send_on {M} (l : link M) (ms : list M) : link M := mkLink (l_input l) (l_sent l ++ ms) (l_closed l).

(** What arrives at an end; a closed end takes nothing. *)
Definition feed {M} (l : link M) (ms : list (M + error)) : link M :=
  if l_closed l then l else read_to l (l_input l ++ ms).

(** A request that was written: its call, sequence number, method and argument,
    and the value that the caller's reply holds. *)
Record wrote (V : Type) := mkWrote { w_call : callid; w_seq : Z; w_method : string; w_args : V; w_reply : V }.
Arguments mkWrote {V} _ _ _ _ _.
Arguments w_call {V} _.
Arguments w_seq {V} _.
Arguments w_method {V} _.
Arguments w_args {V} _.
Arguments w_reply {V} _.

(** The two codecs of a kind: the name that the configuration has for it, the codecs
    of a new connection, the ends of the connection that they hold, and how many
    values a request takes, and the body of a response. *)
Class Wire (V CC SC M : Type) := {
  codecType : string;
  new_client : CC;
  new_server : SC;
  client_link : CC -> link M;
  client_feed : CC -> list (M + error) -> CC;
  server_link : SC -> link M;
  server_feed : SC -> list (M + error) -> SC;
  call_size : nat;
  body_size : nat
}.

(** How requests and responses are written, and what the codecs keep:
    [client_holds cc ws rd b] after the requests [ws] were written and the headers of
    the responses to the numbers [rd] were read, [b] being the response whose body
    is next; [server_holds cd log done] after the requests of [log] were read, each
    with the header that it was given, and the headers [done] were answered. *)
Class WireSpec (V CC SC M : Type) := {
  enc_call : wrote V -> list M;
  enc_head : wrote V -> string -> V -> M;
  enc_body : V -> list M;
  client_holds : CC -> list (wrote V) -> list Z -> option (string * V) -> Prop;
  server_holds : SC -> list (hdr * wrote V) -> list hdr -> Prop
}.

Section laws.
Context {V CC SC M : Type} `{!ClientCodec V CC, !ServerCodec V SC, !Transfer V, !Wire V CC SC M, !WireSpec V CC SC M}.
Implicit Types (cc : CC) (cd : SC) (w : wrote V) (ws : list (wrote V)) (rd : list Z) (b : option (string * V))
  (log : list (hdr * wrote V)) (dn : list hdr) (v x : V) (err : string).

(** The response that the client gets to see. *)
Definition seen w err : RpcResponse := mkResponse (w_method w) (w_seq w) (tr_text V err) None.

Class WireLaws : Prop := {
  wl_type : codecType (V := V) = "json" ∨ codecType (V := V) = "gob";
  wl_sizes : (0 < call_size)%nat ∧ (body_size <= 1)%nat;
  wl_call_size w : length (enc_call w) = call_size;
  wl_body_size v : length (enc_body (V := V) v) = body_size;
  wl_arg_error t v e : tr_arg t v = inr e -> Error e <> "";
  (* a new connection, and what arrives on it *)
  wl_new_client : client_link new_client = new_link ∧ client_holds new_client [] [] None;
  wl_new_server : server_link new_server = new_link ∧ server_holds new_server [] [];
  wl_client_feed cc ms : client_link (client_feed cc ms) = feed (client_link cc) ms;
  wl_client_feed_holds cc ms ws rd b : client_holds cc ws rd b -> client_holds (client_feed cc ms) ws rd b;
  wl_server_feed cd ms : server_link (server_feed cd ms) = feed (server_link cd) ms;
  wl_server_feed_holds cd ms log dn : server_holds cd log dn -> server_holds (server_feed cd ms) log dn;
  (* the client writes *)
  wl_write cc ws rd b w nx :
    client_holds cc ws rd b -> l_closed (client_link cc) = false -> w_seq w ∉ w_seq <$> ws ->
    exists cc', WriteRequest cc (mkRequest (w_method w) (w_seq w) nx) (w_args w) = (cc', None) ∧
      client_link cc' = send_on (client_link cc) (enc_call w) ∧ client_holds cc' (ws ++ [w]) rd b;
  wl_write_closed cc ws rd b w nx :
    client_holds cc ws rd b -> l_closed (client_link cc) = true -> w_seq w ∉ w_seq <$> ws ->
    exists cc' e, WriteRequest cc (mkRequest (w_method w) (w_seq w) nx) (w_args w) = (cc', Some e) ∧
      client_link cc' = client_link cc ∧ client_holds cc' ws rd b;
  (* the client reads *)
  wl_header cc ws rd b w err v rest :
    client_holds cc ws rd b -> NoDup (w_seq <$> ws) -> Word.is_u64 (w_seq w) -> w ∈ ws -> w_seq w ∉ rd ->
    l_input (client_link cc) = (inl <$> enc_head w err v :: enc_body v) ++ rest ->
    exists cc', ReadResponseHeader cc RpcResponse0 = (cc', seen w err, None) ∧
      client_link cc' = read_to (client_link cc) ((inl <$> enc_body v) ++ rest) ∧
      client_holds cc' ws (rd ++ [w_seq w]) (Some (err, v));
  wl_header_end cc ws rd b e rest :
    client_holds cc ws rd b -> l_input (client_link cc) = inr e :: rest ->
    exists cc' r, ReadResponseHeader cc RpcResponse0 = (cc', r, Some e) ∧
      client_link cc' = client_link cc ∧ client_holds cc' ws rd None;
  wl_body cc ws rd v x rest :
    client_holds cc ws rd (Some ("", v)) -> l_input (client_link cc) = (inl <$> enc_body v) ++ rest ->
    exists cc', ReadResponseBody cc x = Return (cc', tr_reply x v) ∧
      client_link cc' = read_to (client_link cc) rest ∧ client_holds cc' ws rd None;
  wl_body_closed cc ws rd v x e :
    client_holds cc ws rd (Some ("", v)) -> l_input (client_link cc) = [inr e] ->
    exists cc' o, ReadResponseBody cc x = Return (cc', o) ∧ (forall y, o = inl y -> tr_reply x v = inl y) ∧
      client_link cc' = client_link cc ∧ client_holds cc' ws rd None;
  wl_discard cc ws rd err v rest :
    client_holds cc ws rd (Some (err, v)) -> l_input (client_link cc) = (inl <$> enc_body v) ++ rest ->
    exists cc', DiscardResponseBody cc = (cc', None) ∧
      client_link cc' = read_to (client_link cc) rest ∧ client_holds cc' ws rd None;
  wl_discard_closed cc ws rd err v e :
    client_holds cc ws rd (Some (err, v)) -> l_input (client_link cc) = [inr e] ->
    exists cc' o, DiscardResponseBody cc = (cc', o) ∧ client_link cc' = client_link cc ∧ client_holds cc' ws rd None;
  wl_client_close cc ws rd b :
    client_holds cc ws rd b ->
    let cc' := (CloseClientCodec cc).1 in
    client_link cc' = (if l_closed (client_link cc) then client_link cc
                       else mkLink [inr closed_error] (l_sent (client_link cc)) true) ∧ client_holds cc' ws rd b;
  (* the server reads *)
  wl_read cd log dn w rest :
    server_holds cd log dn -> NoDup (w_seq <$> log.*2 ++ [w]) -> Z.of_nat (length log) < Word.modulus ->
    l_input (server_link cd) = (inl <$> enc_call w) ++ rest ->
    exists cd1 sq, ReadRequestHeader cd RpcRequest0 = (cd1, mkRequest (tr_text V (w_method w)) sq None, None) ∧
      (tr_text V (w_method w), sq) ∉ log.*1 ∧
      let after cd2 := server_link cd2 = read_to (server_link cd) rest ∧ server_holds cd2 (log ++ [((tr_text V (w_method w), sq), w)]) dn in
      (forall t, exists cd2, ReadRequestBody cd1 t = (cd2, tr_arg t (w_args w)) ∧ after cd2) ∧
      (exists cd2, DiscardRequestBody cd1 = (cd2, None) ∧ after cd2);
  wl_read_end cd log dn e rest :
    server_holds cd log dn -> l_input (server_link cd) = inr e :: rest ->
    exists cd' r, ReadRequestHeader cd RpcRequest0 = (cd', r, Some e) ∧ server_link cd' = server_link cd ∧ server_holds cd' log dn;
  (* the server writes *)
  wl_respond cd log dn w resp v :
    server_holds cd log dn -> l_closed (server_link cd) = false -> NoDup log.*1 -> Z.of_nat (length log) <= Word.modulus ->
    (hdr_of_resp resp, w) ∈ log -> hdr_of_resp resp ∉ dn ->
    exists cd', WriteResponse cd resp v = (cd', None) ∧
      server_link cd' = send_on (server_link cd) (enc_head w (resp_Error resp) v :: enc_body v) ∧
      server_holds cd' log (dn ++ [hdr_of_resp resp]);
  wl_server_close cd log dn :
    server_holds cd log dn -> l_closed (server_link cd) = false ->
    let cd' := (CloseCodec cd).1 in
    l_sent (server_link cd') = l_sent (server_link cd) ∧ l_closed (server_link cd') = true ∧ server_holds cd' log dn
}.
End laws.
Arguments WireLaws V CC SC M {_ _ _ _ _}.
