(* ===== verification/EndToEnd.v ===== *)
(** * A client and a server, joined by a connection

    The client of [Client] and the server of [ServerConn], with codecs of the same
    kind ([Wire]), are joined on one connection of the server; the server may have
    any number of other connections.  What one codec sends is what the other has to
    read, in order; a read waits while there is nothing to read, and closing one end
    ends the stream at the other.  The steps of both sides are those of [Client] and
    [ServerConn], whose answers of the codec are now computed. *)
From S2P Require Import Prelude GoStd Utils Types FreeList Service Plugin Server ServerConn Client RpcSpec Wire.

Section link.
Context {M : Type}.

(** What was sent, and whether the stream was closed, between two states of one
    end of the connection. *)
Definition news (old new : link M) : list (M + error) :=
  (inl <$> drop (length (l_sent old)) (l_sent new)) ++
  (if negb (l_closed old) && l_closed new then [inr EOF] else []).

(** A read of [n] values can go on when they are there, or the end of the stream. *)
Fixpoint ready (n : nat) (l : list (M + error)) : bool :=
  match n, l with
  | O, _ => true
  | S _, [] => false
  | S _, inr _ :: _ => true
  | S n', inl _ :: l' => ready n' l'
  end.
End link.

(** A method that was run: the request that it was run for, the method, the
    arguments it got, and what it returned. *)
Record exec (V : Type) := mkExec {
  x_for : option (wrote V);
  x_meth : string * string;
  x_args : option (argval V * replyval);
  x_reply : V;
  x_err : option error
}.
Arguments mkExec {V} _ _ _ _ _.
Arguments x_for {V} _.
Arguments x_meth {V} _.
Arguments x_args {V} _.
Arguments x_reply {V} _.
Arguments x_err {V} _.

(** A response that was written: the request that it answers, the response and
    the reply. *)
Record answer (V : Type) := mkAnswer { an_for : option (wrote V); an_resp : RpcResponse; an_reply : V }.
Arguments mkAnswer {V} _ _ _.
Arguments an_for {V} _.
Arguments an_resp {V} _.
Arguments an_reply {V} _.

Section endtoend.
Context {V W CC SC M : Type} `{UnicodeTables} `{!ClientCodec V CC, !ServerCodec V SC, !Wire V CC SC M}.
Context (ord : gmap string (Plugin V W) -> list (string * Plugin V W)).
Context (invalidRequest : V).
(** The connection of the client, and the codecs of all the others. *)
Context (c0 : connid) (others : connid -> SC).

Abbreviation client := (@client V W).
Abbreviation sys := (@sys V W SC).

Definition dialled (c : connid) : SC := if bool_decide (c = c0) then new_server else others c.

(** Both sides, and three histories: the requests that were written, the methods
    that were run for this client, and the responses that were written to it. *)
Record e2e := mkE2E {
  e_client : client;
  e_cc : CC;
  e_sys : sys;
  e_writes : list (wrote V);
  e_execs : list (exec V);
  e_answers : list (answer V)
}.

(** ** The client's side *)

(** What the codec does in a step of the client, and the step with its answers.
    A body that cannot be decoded leaves some value in the reply, which the
    event names. *)
Definition client_codec (st : client) (cc : CC) (e : client_event (V := V))
    : option (client_event (V := V) * CC * list (wrote V)) :=
  match e with
  | EvSend id _ =>
      match senders st !! id, calls st !! id with
      | Some (SWrite s), Some c =>
          let '(cc', err) := WriteRequest cc (mkRequest (c_ServiceMethod c) s (req_next (request st))) (c_Args c) in
          Some (EvSend id err, cc', match err with None => [mkWrote id s (c_ServiceMethod c) (c_Args c) (c_Reply c)] | Some _ => [] end)
      | _, _ => Some (EvSend id None, cc, [])
      end
  | EvRx a =>
      match rx st with
      | RxRead =>
          if ready 1 (l_input (client_link cc)) then
            let '(cc', r, err) := ReadResponseHeader cc RpcResponse0 in
            Some (EvRx (match err with None => AHeader r | Some e => AHeaderErr e end), cc', [])
          else None
      | RxBody r (Some id) =>
          if ready body_size (l_input (client_link cc)) then
            if bool_decide (resp_Error r = "") then
              match calls st !! id with
              | None => None
              | Some c =>
                  match ReadResponseBody cc (c_Reply c), a with
                  | Return (cc', inl v), _ => Some (EvRx (ABody v None), cc', [])
                  | Return (cc', inr e), ABody v _ => Some (EvRx (ABody v (Some e)), cc', [])
                  | _, _ => None
                  end
              end
            else let '(cc', err) := DiscardResponseBody cc in Some (EvRx (ADiscard err), cc', [])
          else None
      | RxBody r None =>
          if ready body_size (l_input (client_link cc)) then
            let '(cc', err) := DiscardResponseBody cc in Some (EvRx (ADiscard err), cc', [])
          else None
      | _ => Some (EvRx a, cc, [])
      end
  | EvClose => Some (EvClose, (Close st cc).1.2, [])
  | _ => Some (e, cc, [])
  end.

Lemma Close_codec (st : client) (cc : CC) : (Close st cc).1.2 = if closing st then cc else (CloseClientCodec cc).1.
Proof. unfold Close. by destruct (closing st), (CloseClientCodec cc). Qed.

Definition feed_server (σ : sys) (l : list (M + error)) : sys :=
  mkSys (srv σ) (alter (fun cn => set_codec cn ((fun cd => server_feed cd l) <$> codec cn)) c0 (conns σ)) (gs σ).

Definition client_side (E : e2e) (e : client_event (V := V)) : option e2e :=
  match client_codec (e_client E) (e_cc E) e with
  | None => None
  | Some (e', cc', ws) =>
      match client_step ord (e_client E) e' with
      | None => None
      | Some st' =>
          Some (mkE2E st' cc' (feed_server (e_sys E) (news (client_link (e_cc E)) (client_link cc')))
                  (e_writes E ++ ws) (e_execs E) (e_answers E))
      end
  end.

(** ** The server's side *)

(** The server's end of the connection, and the headers that it has read. *)
Definition server_end (σ : sys) : link M :=
  match conns σ !! c0 with
  | Some cn => match codec cn with Some cd => server_link cd | None => mkLink [] [] true end
  | None => new_link
  end.

Definition read_headers (σ : sys) : list hdr :=
  match conns σ !! c0 with Some cn => headers cn | None => [] end.

(** The requests that were read, with their headers; and the request with header
    [hd]. *)
Definition request_log (ws : list (wrote V)) (σ : sys) : list (hdr * wrote V) := zip (read_headers σ) ws.
Definition request_of (ws : list (wrote V)) (σ : sys) (hd : hdr) : option (wrote V) :=
  (fun p => p.2.2) <$> list_find (fun p => p.1 = hd) (request_log ws σ).

(** The reader of the connection goes on when a request is there as a whole, or
    the end of the stream. *)
Definition enabled (σ : sys) (e : sys_event (V := V)) : bool :=
  match e with
  | EvReader c _ =>
      if bool_decide (c = c0) then
        match gs σ !! (c0, 0%nat) with
        | Some g => match g_pc g with Reading _ => ready call_size (l_input (server_end σ)) | _ => true end
        | None => true
        end
      else true
  | _ => true
  end.

(** What a step adds to the histories. *)
Definition ran (ws : list (wrote V)) (σ : sys) (e : sys_event (V := V)) : list (exec V) :=
  match e with
  | EvReturn c h reply err =>
      match gs σ !! (c, h) with
      | Some g => if bool_decide (c = c0) then [mkExec (request_of ws σ (g_hdr g)) (g_meth g) (g_args g) reply err] else []
      | None => []
      end
  | _ => []
  end.

Definition answered (ws : list (wrote V)) (σ : sys) (e : sys_event (V := V)) : list (answer V) :=
  match e with
  | EvGo c h =>
      match gs σ !! (c, h) with
      | Some g =>
          match g_pc g with
          | Writing _ r =>
              if bool_decide (c = c0)
              then [mkAnswer (request_of ws σ (g_hdr g)) (default RpcResponse0 (heap (resps (srv σ)) !! r)) (g_reply g)]
              else []
          | _ => []
          end
      | None => []
      end
  | _ => []
  end.

Definition server_side (E : e2e) (e : sys_event (V := V)) : option e2e :=
  if enabled (e_sys E) e then
    match sys_step ord invalidRequest dialled dialled (e_sys E) e with
    | None => None
    | Some σ' =>
        Some (mkE2E (e_client E) (client_feed (e_cc E) (news (server_end (e_sys E)) (server_end σ')))
                σ' (e_writes E) (e_execs E ++ ran (e_writes E) (e_sys E) e) (e_answers E ++ answered (e_writes E) (e_sys E) e))
    end
  else None.

(** ** The system *)
Inductive e2e_event := OnClient (e : client_event (V := V)) | OnServer (e : sys_event (V := V)).

Definition e2e_step (E : e2e) (e : e2e_event) : option e2e :=
  match e with OnClient e => client_side E e | OnServer e => server_side E e end.

#[global] Instance e2e_lts : LTS e2e e2e_event := e2e_step.

(** A server that has been started, is configured for this kind of codec and has
    accepted the connection, and at the other end a client on a new connection. *)
Definition connected (s : Server V W) (E : e2e) : Prop :=
  cfg_CodecType (serverConfig s) = codecType ∧
  exists σ, accept ord invalidRequest dialled dialled (started s) c0 = Some σ ∧
    E = mkE2E NewClientWithCodec new_client σ [] [] [].
End endtoend.
