(* ===== verification/EndToEndServer.v ===== *)
(** * The server's side of a connection, end to end

    The invariant of the server in the system of [EndToEnd]: the requests that
    were written are read in order, each by a goroutine that runs the method or
    rejects the request; what a response says is what the method returned. *)
From S2P Require Import Prelude GoStd Utils Types FreeList Service Plugin Server ServerConn ServerSafety ServerProps ServerTypes Client RpcSpec Wire EndToEnd.

(** ** What travels *)
Section wire.
Context {M : Type}.

Definition eof (closed : bool) : list (M + error) := if closed then [inr EOF] else [].

(** The values of a list of messages, of which the first [n] have been read. *)
Definition unread {A} (enc : A -> list M) (l : list A) (n : nat) : list (M + error) :=
  inl <$> concat (enc <$> drop n l).

Lemma unread_next {A} (enc : A -> list M) l n x :
  l !! n = Some x -> unread enc l n = (inl <$> enc x) ++ unread enc l (S n).
Proof. intros Hx. unfold unread. rewrite (drop_S l x n Hx). simpl. by rewrite fmap_app. Qed.

Lemma unread_all {A} (enc : A -> list M) l n : l !! n = None -> unread enc l n = [].
Proof. intros Hn. unfold unread. rewrite drop_ge; [done|]. by apply lookup_ge_None. Qed.

Lemma ready_values (n : nat) (ms : list M) rest : (n <= length ms)%nat -> ready n ((inl <$> ms) ++ rest) = true.
Proof. revert n; induction ms as [|m ms IH]; intros [|n] Hn; simpl in *; try done; [lia|]. apply IH. lia. Qed.

Lemma ready_end (n : nat) e (rest : list (M + error)) : ready n (inr e :: rest) = true.
Proof. by destruct n. Qed.

Lemma ready_nothing (n : nat) : (0 < n)%nat -> ready n ([] : list (M + error)) = false.
Proof. destruct n; [lia|done]. Qed.
End wire.

Section server.
Context {V W CC SC M : Type} `{UnicodeTables}
  `{!ClientCodec V CC, !ServerCodec V SC, !Transfer V, !Wire V CC SC M, !WireSpec V CC SC M, !WireLaws V CC SC M}.
Context (ord : gmap string (Plugin V W) -> list (string * Plugin V W)).
Context (invalidRequest : V) (c0 : connid) (others : connid -> SC).

Abbreviation sys := (@sys V W SC).
Abbreviation goroutine := (@goroutine V).
Abbreviation step := (sys_step ord invalidRequest (dialled c0 others) (dialled c0 others)).
Implicit Types (c : connid) (h : nat) (s : Server V W) (σ : sys) (g : goroutine) (w : wrote V) (ws : list (wrote V)) (x : exec V)
  (xs : list (exec V)) (a : answer V) (ans : list (answer V)) (hd : hdr) (L : list (hdr * wrote V)) (cn : @conn SC) (cd : SC).

(** The values of a response. *)
Definition enc_answer a : list M :=
  match an_for a with
  | Some w => enc_head w (resp_Error (an_resp a)) (an_reply a) :: enc_body (an_reply a)
  | None => []
  end.

Definition answer_hdr a : hdr := hdr_of_resp (an_resp a).

(** ** Jobs *)

(** A request was handed to the method that its name says, with its argument
    decoded to the type of the method's parameter. *)
Definition invoked s w (m : string * string) (args : option (argval V * replyval)) : Prop :=
  splitServiceMethod (tr_text V (w_method w)) = Some m ∧ exists T arg rv, takes s m T ∧ decoded T (w_args w) arg ∧ args = Some (arg, rv).

Lemma invoked_grows s s' w m args : grows s s' -> invoked s w m args -> invoked s' w m args.
Proof. intros Hg (? & T & arg & rv & ? & ? & ?). split; [done|]. exists T, arg, rv. eauto using takes_grows. Qed.

(** An answer is what the method returned, or the method was not run and there is
    an error. *)
Definition settled xs w (err : string) (reply : V) : Prop :=
  (exists x, x ∈ xs ∧ x_for x = Some w ∧ err = err_text (x_err x) ∧ (err = "" -> reply = x_reply x)) ∨
  (err <> "" ∧ forall x, x ∈ xs -> x_for x <> Some w).

Lemma settled_more xs w err reply x :
  settled xs w err reply -> x_for x <> Some w -> settled (xs ++ [x]) w err reply.
Proof.
  intros [(x1 & Hx & Hs)|[He Hn]] Hne; [left; exists x1; set_solver|right]. split; [done|].
  intros x1 [?|E%list_elem_of_singleton]%elem_of_app; [auto|by subst].
Qed.

(** What is known of a goroutine that has a request to answer. *)
Definition job_ok s L xs g : Prop :=
  match g_pc g with
  | Enter _ | Calling _ =>
      exists w, (g_hdr g, w) ∈ L ∧ invoked s w (g_meth g) (g_args g) ∧ forall x, x ∈ xs -> x_for x <> Some w
  | GetResp _ | Fill _ _ | Lock _ _ | Writing _ _ => exists w, (g_hdr g, w) ∈ L ∧ settled xs w (g_err g) (g_reply g)
  | _ => True
  end.

Definition execs_ok s L xs : Prop :=
  (forall x, x ∈ xs -> exists w, x_for x = Some w ∧ w ∈ L.*2 ∧ invoked s w (x_meth x) (x_args x)) ∧
  NoDup (x_for <$> xs).

(** An answer to a request that was read. *)
Definition answer_ok L xs a : Prop :=
  exists w, an_for a = Some w ∧ (answer_hdr a, w) ∈ L ∧ settled xs w (resp_Error (an_resp a)) (an_reply a).

Lemma job_ok_mono s s' L L' xs g :
  job_ok s L xs g -> grows s s' -> (forall p, p ∈ L -> p ∈ L') -> job_ok s' L' xs g.
Proof.
  intros Hj Hg Hr. unfold job_ok in *. destruct (g_pc g); try done;
    destruct Hj as (w & ? & ?); exists w; destruct_and?; split_and?; eauto using invoked_grows.
Qed.

Lemma execs_ok_mono s s' L L' xs :
  execs_ok s L xs -> grows s s' -> (forall p, p ∈ L -> p ∈ L') -> execs_ok s' L' xs.
Proof.
  intros [H1 H2] Hg Hr. split; [|done]. intros x (w & ? & Hw & ?)%H1. exists w. split_and!; eauto using invoked_grows.
  apply list_elem_of_fmap in Hw as (p & -> & ?). apply list_elem_of_fmap_2. auto.
Qed.

(** ** The invariant

    [closed_c] tells whether the client has closed its end, [L] which requests were
    read. *)
Record link_ok (closed_c : bool) ws ans L cn cd : Prop := {
  lo_codec : codec cn = Some cd;
  lo_holds : server_holds cd L (answer_hdr <$> ans);
  lo_closed : l_closed (server_link cd) = closed cn;
  lo_read : L.*1 = headers cn ∧ L.*2 = take (length L) ws;
  lo_new : NoDup L.*1;
  lo_input : closed cn = false -> l_input (server_link cd) = unread enc_call ws (length L) ++ eof closed_c;
  lo_sent : l_sent (server_link cd) = concat (enc_answer <$> ans);
  lo_answers : an_resp <$> ans = (responses cn).*2
}.

Record serving (closed_c : bool) ws xs ans σ : Prop := {
  sv_ok : server_ok (srv σ);
  sv_inv : inv σ;
  sv_link : exists L cn cd, conns σ !! c0 = Some cn ∧ link_ok closed_c ws ans L cn cd ∧
    (forall h g, gs σ !! (c0, h) = Some g -> job_ok (srv σ) L xs g) ∧ execs_ok (srv σ) L xs ∧
    (forall a, a ∈ ans -> answer_ok L xs a);
  sv_fresh : NoDup (w_seq <$> ws);
  sv_numbers : forall w, w ∈ ws -> Word.is_u64 (w_seq w)
}.

(** *** The requests that were read *)

Lemma log_requests closed_c ws ans L cn cd p : link_ok closed_c ws ans L cn cd -> p ∈ L -> p.2 ∈ ws.
Proof.
  intros Hl Hp. destruct (lo_read _ _ _ _ _ _ Hl) as [_ E]. apply (elem_of_take_weaken _ (length L)). rewrite <- E. by apply list_elem_of_fmap_2.
Qed.

Lemma log_length closed_c ws ans L cn cd : link_ok closed_c ws ans L cn cd -> (length L <= length ws)%nat ∧ length L = length (headers cn).
Proof.
  intros Hl. destruct (lo_read _ _ _ _ _ _ Hl) as [E1 E2]. split; [|by rewrite <- E1, length_fmap].
  apply (f_equal length) in E2. rewrite length_fmap, length_take in E2. lia.
Qed.

Lemma log_requests_NoDup closed_c ws ans L cn cd : NoDup (w_seq <$> ws) -> link_ok closed_c ws ans L cn cd -> NoDup L.*2.
Proof.
  intros Hnd Hl. destruct (lo_read _ _ _ _ _ _ Hl) as [_ ->]. eapply sublist_NoDup; [by eapply NoDup_fmap_1|]. apply sublist_take.
Qed.

(** A header has one request and a request one header. *)
Lemma log_same_hdr closed_c ws ans L cn cd hd w1 w2 : link_ok closed_c ws ans L cn cd -> (hd, w1) ∈ L -> (hd, w2) ∈ L -> w1 = w2.
Proof.
  intros Hl H1 H2. assert ((hd, w1) = (hd, w2)) as [=]; [|done]. eapply (NoDup_fmap_inj fst L); [apply Hl|done..].
Qed.

Lemma log_same_request closed_c ws ans L cn cd hd1 hd2 w :
  NoDup (w_seq <$> ws) -> link_ok closed_c ws ans L cn cd -> (hd1, w) ∈ L -> (hd2, w) ∈ L -> hd1 = hd2.
Proof.
  intros Hnd Hl H1 H2. assert ((hd1, w) = (hd2, w)) as [=]; [|done].
  eapply (NoDup_fmap_inj snd L); [by eapply log_requests_NoDup|done..].
Qed.

(** The log is the one that the histories are made with. *)
Lemma request_of_log closed_c ws ans L cn cd σ hd w :
  conns σ !! c0 = Some cn -> link_ok closed_c ws ans L cn cd -> (hd, w) ∈ L -> request_of c0 ws σ hd = Some w.
Proof.
  intros Hc Hl Hw. assert (request_log c0 ws σ = L) as E.
  { unfold request_log, read_headers. rewrite Hc. destruct (lo_read _ _ _ _ _ _ Hl) as [<- E]. clear -E.
    revert ws E. induction L as [|[hd w] L IH]; intros [|w1 ws] E; simpl in *; simplify_eq; [done..|]. f_equal. by apply IH. }
  unfold request_of. rewrite E. destruct (list_find (fun p => p.1 = hd) L) as [[i [hd1 w1]]|] eqn:Hf.
  - apply list_find_Some in Hf as (Hi & E1 & _). simpl in E1. subst hd1. simpl. f_equal.
    eapply log_same_hdr; [done|by eapply list_elem_of_lookup_2|done].
  - apply list_find_None in Hf. rewrite Forall_forall in Hf. by destruct (Hf _ Hw).
Qed.

Lemma log_bound closed_c ws xs ans σ L cn cd :
  serving closed_c ws xs ans σ -> link_ok closed_c ws ans L cn cd -> Z.of_nat (length ws) <= Word.modulus.
Proof.
  intros [_ _ _ Hf Hu] _. rewrite <- (length_fmap w_seq). apply NoDup_bounded; [done| |pose proof Word.modulus_pos; lia].
  intros z (w & -> & Hw)%list_elem_of_fmap. by apply Hu.
Qed.

(** ** Reading a request *)

(** What [readRequest] makes of a request that the client wrote. *)
Definition read_result s w (q : loc) (rr : requestResult V) : Prop :=
  hr_keepReading (rr_header rr) = true ∧ hr_req (rr_header rr) = Some q ∧
  match hr_err (rr_header rr) with
  | Some e => Error e <> ""
  | None => exists sn mn me v rv, hr_svc (rr_header rr) = Some sn ∧ hr_method (rr_header rr) = Some (mn, me) ∧
      rr_argv rr = Some v ∧ rr_reply rr = Some rv ∧ invoked s w (sn, mn) (Some (v, rv))
  end.

Lemma read_one s cd L dn q w rest :
  server_ok s -> heap (reqs s) !! q = Some RpcRequest0 -> server_holds cd L dn -> NoDup (w_seq <$> L.*2 ++ [w]) ->
  Z.of_nat (length L) < Word.modulus -> l_input (server_link cd) = (inl <$> enc_call w) ++ rest ->
  exists rr cd' sq, readRequest ord s cd q
      = Return (set_reqs s (store (reqs s) q (mkRequest (tr_text V (w_method w)) sq None)), cd', rr) ∧
    (tr_text V (w_method w), sq) ∉ L.*1 ∧ server_link cd' = read_to (server_link cd) rest ∧
    server_holds cd' (L ++ [((tr_text V (w_method w), sq), w)]) dn ∧ read_result s w q rr.
Proof.
  intros Hok Hq Hh Hnd Hb Hin. unfold readRequest, readRequestHeader. rewrite Hq. simpl.
  destruct (wl_read cd L dn w rest Hh Hnd Hb Hin) as (cd1 & sq & -> & Hnew & Hbody & cd2 & Hdisc & Hl2 & Hh2). simpl.
  unfold read_result.
  destruct (splitServiceMethod (tr_text V (w_method w))) as [[sn mn]|] eqn:Hsp; simpl;
    [|rewrite Hdisc; eexists _, cd2, sq; split_and!; by try done].
  destruct (serviceMap s !! sn) as [svc|] eqn:Hsvc; simpl; [|rewrite Hdisc; eexists _, cd2, sq; split_and!; by try done].
  destruct (methods svc !! mn) as [me|] eqn:Hme; simpl; [|rewrite Hdisc; eexists _, cd2, sq; split_and!; by try done].
  unfold spm_PreReadRequest, spm_PostReadRequest. rewrite (ok_spm _ Hok), dispatch_empty. simpl.
  destruct (argTarget (ArgType me)) as [t ind] eqn:Ht. destruct (Hbody t) as (cd3 & -> & Hl3 & Hh3).
  destruct (tr_arg t (w_args w)) as [v|e] eqn:Hd.
  - destruct (proj1 (Kind_Ptr (ReplyType me))) as (b & nm & el & ->); [by eapply ok_methods|]. simpl.
    rewrite (ok_spm _ Hok), dispatch_empty. simpl. rewrite !lookup_insert_eq. simpl. rewrite !store_store.
    eexists _, cd3, sq. split; [done|]. split_and!; try done. eexists sn, mn, me, _, _. split_and!; try done.
    split; [done|]. exists (ArgType me). exists (mkArg v t ind), (newReply el). unfold decoded. rewrite Ht. split_and!; [|done..]. by eexists _, _, svc, me.
  - rewrite store_store. eexists _, cd3, sq. split; [done|]. split_and!; try done. simpl. by eapply wl_arg_error.
Qed.

(** At the end of the stream it gives up. *)
Lemma read_end s cd L dn q e rest :
  heap (reqs s) !! q = Some RpcRequest0 -> server_holds cd L dn -> l_input (server_link cd) = inr e :: rest ->
  exists s1 cd' rr, readRequest ord s cd q = Return (s1, cd', rr) ∧ s1 = set_reqs s (reqs s1) ∧
    server_link cd' = server_link cd ∧ (forall L dn, server_holds cd L dn -> server_holds cd' L dn) ∧
    hr_keepReading (rr_header rr) = false ∧ is_Some (hr_err (rr_header rr)).
Proof.
  intros Hq Hh Hin. unfold readRequest, readRequestHeader. rewrite Hq. simpl.
  destruct (wl_read_end cd L dn e rest Hh Hin) as (cd' & r & E & Hl & Hh'). rewrite E. simpl. eexists _, cd', _. split; [done|]. simpl.
  split_and!; eauto. intros L1 dn1 Hh1. destruct (wl_read_end cd L1 dn1 e rest Hh1 Hin) as (cd1 & r1 & E1 & _ & ?). by assert (cd1 = cd') as -> by congruence.
Qed.

(** ** What the client does to the server *)

Lemma inv_feed σ l : inv σ -> inv (feed_server c0 σ l).
Proof.
  intros [H1 H2 H3 H4]. split; try done.
  - intros c h g Hg. destruct (H3 c h g Hg) as [Hc ?]. split; [|done]. simpl. by rewrite lookup_alter_is_Some.
  - intros c cn Hc. simpl in *. rewrite lookup_alter in Hc. case_decide; [|by apply H4].
    apply fmap_Some in Hc as (cn0 & Hc & ->). subst c. by destruct (H4 _ _ Hc).
Qed.

(** The requests that were read stay the same when more are written. *)
Lemma link_feed closed_c closed_c' ws ws' ans L cn cd l :
  link_ok closed_c ws ans L cn cd -> take (length L) ws' = take (length L) ws ->
  (closed cn = false -> unread enc_call ws (length L) ++ eof closed_c ++ l = unread enc_call ws' (length L) ++ eof closed_c') ->
  link_ok closed_c' ws' ans L (set_codec cn ((fun cd => server_feed cd l) <$> codec cn)) (server_feed cd l).
Proof.
  intros [L1 L2 L3 [L4 L4'] L5 L6 L7 L8] Ht Hl. rewrite L1. split; simpl; try done.
  - by apply wl_server_feed_holds.
  - rewrite wl_server_feed. unfold feed. destruct (l_closed (server_link cd)) eqn:?; simpl; congruence.
  - by rewrite Ht.
  - intros Hc. rewrite wl_server_feed. unfold feed. rewrite L3, Hc. simpl. by rewrite L6, <- Hl, (assoc_L (++)).
  - rewrite wl_server_feed. unfold feed. destruct (l_closed (server_link cd)) eqn:?; simpl; congruence.
Qed.

Lemma serving_feed closed_c closed_c' ws new xs ans σ l :
  serving closed_c ws xs ans σ -> NoDup (w_seq <$> (ws ++ new)) -> (forall w, w ∈ ws ++ new -> Word.is_u64 (w_seq w)) ->
  (forall n, (n <= length ws)%nat -> unread enc_call ws n ++ eof closed_c ++ l = unread enc_call (ws ++ new) n ++ eof closed_c') ->
  serving closed_c' (ws ++ new) xs ans (feed_server c0 σ l).
Proof.
  intros [Hok Hi (L & cn & cd & Hc & Hl & Hj & Hx & Ha) Hf Hu] Hnd Hu' Hun. split; try done; [by apply inv_feed|].
  destruct (log_length _ _ _ _ _ _ Hl) as [Hn _].
  exists L, (set_codec cn ((fun cd => server_feed cd l) <$> codec cn)), (server_feed cd l).
  split_and!; [simpl; by rewrite lookup_alter_eq, Hc| |done|apply Hx|done].
  eapply link_feed; [done|by rewrite take_app_le|auto].
Qed.

(** ** What the server's steps do *)

(** The headers that were read are all different, so are those that were answered
    and those that goroutines still have to answer. *)
Lemma headers_NoDup closed_c ws xs ans σ cn :
  serving closed_c ws xs ans σ -> conns σ !! c0 = Some cn -> NoDup ((responses cn).*1 ++ collect (owes c0) (gs σ)).
Proof.
  intros [_ Hi (L & cn' & cd & Hc' & Hl & _) _ _] Hc. assert (cn' = cn) as -> by congruence.
  rewrite <- (b_headers _ _ _ (inv_books _ Hi _ _ Hc)). destruct (lo_read _ _ _ _ _ _ Hl) as [<- _]. apply Hl.
Qed.

Lemma owed_once closed_c ws xs ans σ cn h1 h2 g1 g2 :
  serving closed_c ws xs ans σ -> conns σ !! c0 = Some cn ->
  gs σ !! (c0, h1) = Some g1 -> gs σ !! (c0, h2) = Some g2 -> h1 <> h2 ->
  owes c0 (c0, h1) g1 = [g_hdr g1] -> owes c0 (c0, h2) g2 = [g_hdr g2] -> g_hdr g1 <> g_hdr g2.
Proof.
  intros Hs Hc H1 H2 Hne O1 O2 E. pose proof (headers_NoDup _ _ _ _ _ _ Hs Hc) as (_ & _ & Hnd)%NoDup_app.
  rewrite <- (collect_delete (owes c0) (gs σ) (c0, h1) g1 H1), O1 in Hnd. simpl in Hnd.
  apply NoDup_cons in Hnd as [Hn _]. apply Hn, elem_of_collect. exists (c0, h2), g2.
  rewrite lookup_delete_ne by congruence. split; [done|]. rewrite O2, E. set_solver.
Qed.

(** The headers of the answers are those that were answered. *)
Lemma answers_headers closed_c ws xs ans σ L cn cd :
  serving closed_c ws xs ans σ -> conns σ !! c0 = Some cn -> link_ok closed_c ws ans L cn cd -> answer_hdr <$> ans = (responses cn).*1.
Proof.
  intros [_ Hi _ _ _] Hc Hl. pose proof (b_echo _ _ _ (inv_books _ Hi _ _ Hc)) as He.
  change (answer_hdr <$> ans) with (hdr_of_resp ∘ an_resp <$> ans). rewrite list_fmap_compose, (lo_answers _ _ _ _ _ _ Hl), <- list_fmap_compose.
  apply list_fmap_ext. intros i y Hy. simpl. rewrite Forall_forall in He. by apply He, (list_elem_of_lookup_2 _ i).
Qed.

Lemma unanswered_hdr closed_c ws xs ans σ L cn cd h g :
  serving closed_c ws xs ans σ -> conns σ !! c0 = Some cn -> link_ok closed_c ws ans L cn cd -> gs σ !! (c0, h) = Some g ->
  owes c0 (c0, h) g = [g_hdr g] -> g_hdr g ∉ answer_hdr <$> ans.
Proof.
  intros Hs Hc Hl Hg Ho Hin. rewrite (answers_headers _ _ _ _ _ _ _ _ Hs Hc Hl) in Hin.
  pose proof (headers_NoDup _ _ _ _ _ _ Hs Hc) as (_ & Hnd & _)%NoDup_app. apply (Hnd _ Hin), elem_of_collect.
  exists (c0, h), g. rewrite Ho. set_solver.
Qed.

Lemma answered_once closed_c ws xs ans σ L cn cd h g w a :
  serving closed_c ws xs ans σ -> conns σ !! c0 = Some cn -> link_ok closed_c ws ans L cn cd -> gs σ !! (c0, h) = Some g ->
  owes c0 (c0, h) g = [g_hdr g] -> (g_hdr g, w) ∈ L -> a ∈ ans -> (forall a, a ∈ ans -> answer_ok L xs a) -> an_for a <> Some w.
Proof.
  intros Hs Hc Hl Hg Ho Hw Ha Hok E. destruct (Hok a Ha) as (w1 & E1 & Hw1 & _). assert (w1 = w) as -> by congruence.
  pose proof (log_same_request _ _ _ _ _ _ _ _ _ (sv_fresh _ _ _ _ _ Hs) Hl Hw1 Hw) as Eh.
  apply (unanswered_hdr _ _ _ _ _ _ _ _ _ _ Hs Hc Hl Hg Ho). rewrite <- Eh. by apply list_elem_of_fmap_2.
Qed.

(** No request is answered twice. *)
Lemma answers_NoDup closed_c ws xs ans σ : serving closed_c ws xs ans σ -> NoDup (an_for <$> ans).
Proof.
  intros Hs. pose proof Hs as [_ _ (L & cn & cd & Hc & Hl & _ & _ & Ha) _ _].
  pose proof (headers_NoDup _ _ _ _ _ _ Hs Hc) as (Hnd & _)%NoDup_app. rewrite <- (answers_headers _ _ _ _ _ _ _ _ Hs Hc Hl) in Hnd.
  apply NoDup_fmap_2_strong; [|by eapply NoDup_fmap_1]. intros a1 a2 H1 H2 E. eapply (NoDup_fmap_inj answer_hdr ans); [done..|].
  destruct (Ha _ H1) as (w1 & E1 & Hw1 & _), (Ha _ H2) as (w2 & E2 & Hw2 & _). assert (w1 = w2) as -> by congruence.
  by eapply log_same_request; [apply Hs|..].
Qed.

(** The map of goroutines after a step of one of them. *)
Lemma jobs_insert (P : goroutine -> Prop) (G : gmap (connid * nat) goroutine) c h g' :
  (forall h g, G !! (c0, h) = Some g -> P g) -> (c = c0 -> P g') ->
  forall h1 g1, <[(c, h) := g']> G !! (c0, h1) = Some g1 -> P g1.
Proof. intros Hj Hg h1 g1. rewrite lookup_insert. case_decide as E; [|by apply Hj]. intros [= <-]. apply Hg. congruence. Qed.

(** A step that neither reads a request of the connection, nor runs a method for
    it, nor writes or closes. *)
Definition same_link cn cn' : Prop :=
  headers cn' = headers cn ∧ responses cn' = responses cn ∧ closed cn' = closed cn ∧
  forall cd, codec cn = Some cd -> exists cd', codec cn' = Some cd' ∧ server_link cd' = server_link cd ∧
    forall L dn, server_holds cd L dn -> server_holds cd' L dn.

Lemma same_link_codec cn cn' :
  headers cn' = headers cn -> responses cn' = responses cn -> closed cn' = closed cn -> codec cn' = codec cn -> same_link cn cn'.
Proof. intros E1 E2 E3 E4. split_and!; [done..|]. intros cd Hcd. exists cd. by rewrite E4. Qed.

Lemma link_same closed_c ws ans L cn cn' cd :
  same_link cn cn' -> link_ok closed_c ws ans L cn cd -> exists cd', link_ok closed_c ws ans L cn' cd'.
Proof.
  intros (E2 & E3 & E4 & Hcd) [L1 L2 L3 [? ?] ? ? ? ?]. destruct (Hcd cd L1) as (cd' & E1 & El & Hh). exists cd'.
  split; rewrite ?El, ?E2, ?E3, ?E4; auto.
Qed.

Lemma serving_frame closed_c ws xs ans σ σ' cn' :
  serving closed_c ws xs ans σ -> server_ok (srv σ') -> inv σ' -> grows (srv σ) (srv σ') ->
  conns σ' !! c0 = Some cn' -> (forall cn, conns σ !! c0 = Some cn -> same_link cn cn') ->
  (forall h g', gs σ' !! (c0, h) = Some g' ->
     (exists g, gs σ !! (c0, h) = Some g ∧ forall s L, job_ok s L xs g -> job_ok s L xs g') ∨
     forall s L, job_ok s L xs g') ->
  serving closed_c ws xs ans σ'.
Proof.
  intros [Hok Hi (L & cn & cd & Hc & Hl & Hj & Hx & Ha) Hf Hu] Hok' Hi' Hg Hc' Hs Hgs. split; try done.
  destruct (link_same _ _ _ _ _ cn' cd (Hs cn Hc) Hl) as [cd' Hl'].
  exists L, cn', cd'. split_and!; [done|done|..|done]; [|by eapply execs_ok_mono].
  intros h g' [(g & Hg0 & Himp)|Hfree]%Hgs; [|done]. apply Himp. eapply job_ok_mono; eauto.
Qed.

(** A method returns. *)
Lemma serving_return closed_c ws xs ans σ σ' h g q g' x :
  serving closed_c ws xs ans σ -> server_ok (srv σ') -> inv σ' -> srv σ' = srv σ -> conns σ' = conns σ ->
  gs σ !! (c0, h) = Some g -> g_pc g = Calling q -> gs σ' = <[(c0, h) := g']> (gs σ) ->
  g_pc g' = GetResp q -> g_hdr g' = g_hdr g ->
  x_for x = request_of c0 ws σ (g_hdr g) -> x_meth x = g_meth g -> x_args x = g_args g -> x_reply x = g_reply g' ->
  err_text (x_err x) = g_err g' -> serving closed_c ws (xs ++ [x]) ans σ'.
Proof.
  intros Hs Hok' Hi' Es Ec Hg Hpc Eg Hpc' Hh X1 X2 X3 X4 X5.
  pose proof Hs as [Hok Hi (L & cn & cd & Hc & Hl & Hj & Hx & Ha) Hf Hu].
  assert (owes c0 (c0, h) g = [g_hdr g]) as Ho by (unfold owes; by rewrite Hpc, bool_decide_eq_true_2).
  pose proof (Hj h g Hg) as Hjob. unfold job_ok in Hjob. rewrite Hpc in Hjob. destruct Hjob as (w & Hw & Hinv & Hno).
  rewrite (request_of_log _ _ _ _ _ _ _ _ _ Hc Hl Hw) in X1.
  split; try done. exists L, cn, cd. rewrite Es, Ec, Eg. split_and!; [done..| |split|].
  - intros h1 g1. rewrite lookup_insert. case_decide as E; intros Hg1; simplify_eq.
    { unfold job_ok. rewrite Hpc', Hh. exists w. split; [done|]. left. exists x. split_and!; [set_solver|congruence..]. }
    pose proof (Hj h1 g1 Hg1) as Hj1. unfold job_ok in *.
    assert (forall w1, owes c0 (c0, h1) g1 = [g_hdr g1] -> (g_hdr g1, w1) ∈ L -> x_for x <> Some w1) as Hne.
    { intros w1 Ho1 Hw1 E1. assert (w1 = w) as -> by congruence. apply (owed_once _ _ _ _ _ cn h h1 g g1 Hs Hc Hg Hg1); [congruence|done|done|].
      by eapply log_same_request. }
    unfold owes in Hne. rewrite bool_decide_eq_true_2 in Hne by done.
    destruct (g_pc g1); try done; destruct Hj1 as (w1 & Hw1 & Hj1); exists w1; (split; [done|]);
      try (by apply settled_more; auto); destruct Hj1 as [? Hn1]; (split; [done|]);
      intros x1 [?|E1%list_elem_of_singleton]%elem_of_app; [auto|subst; auto|auto|subst; auto].
  - destruct Hx as [Hx1 _]. intros x1 [?|E1%list_elem_of_singleton]%elem_of_app; [auto|subst x1]. exists w. rewrite X2, X3. split_and!; [done| |done].
    apply list_elem_of_fmap. by exists (g_hdr g, w).
  - destruct Hx as [_ Hx2]. rewrite fmap_app. apply NoDup_app. split_and!; [done| |apply NoDup_singleton].
    intros o (x1 & -> & Hin)%list_elem_of_fmap. simpl. rewrite list_elem_of_singleton, X1. auto.
  - intros a Hin. destruct (Ha a Hin) as (w1 & E1 & Hw1 & Hset). exists w1. split_and!; [done..|]. apply settled_more; [done|].
    rewrite X1. intros [= <-]. by eapply (answered_once _ _ _ _ _ L cn cd h g w a).
Qed.

(** A response is written. *)
Lemma serving_write closed_c ws xs ans σ σ' h g q r g' cn resp :
  serving closed_c ws xs ans σ -> server_ok (srv σ') -> inv σ' -> serviceMap (srv σ') = serviceMap (srv σ) ->
  gs σ !! (c0, h) = Some g -> g_pc g = Writing q r -> gs σ' = <[(c0, h) := g']> (gs σ) -> g_pc g' = Unlock q r ->
  conns σ !! c0 = Some cn -> heap (resps (srv σ)) !! r = Some resp ->
  (forall cd, codec cn = Some cd -> conns σ' !! c0
     = Some (log_response (set_codec cn (Some (WriteResponse cd resp (g_reply g)).1)) (g_hdr g) resp)) ->
  serving closed_c ws xs (ans ++ [mkAnswer (request_of c0 ws σ (g_hdr g)) resp (g_reply g)]) σ'.
Proof.
  intros Hs Hok' Hi' Es Hg Hpc Eg Hpc' Hcn Hr Ec.
  pose proof Hs as [Hok Hi (L & cn1 & cd & Hc & Hl & Hj & Hx & Ha) Hf Hu]. assert (cn1 = cn) as -> by congruence.
  destruct (held_value _ _ _ _ (inv_resp _ Hi) (c0, h) g r) as (v & Hv & Hcv); [done|by unfold own_resp; rewrite Hpc|].
  assert (v = resp) as -> by congruence. unfold resp_content in Hcv. rewrite Hpc in Hcv. destruct Hcv as [Hh He].
  assert (closed cn = false) as Hcl by (eapply books_open; [by apply (inv_books _ Hi)|exact Hg|by rewrite Hpc]).
  assert (owes c0 (c0, h) g = [g_hdr g]) as Ho by (unfold owes; by rewrite Hpc, bool_decide_eq_true_2).
  pose proof (Hj h g Hg) as Hjob. unfold job_ok in Hjob. rewrite Hpc in Hjob. destruct Hjob as (w & Hw & Hset).
  rewrite (request_of_log _ _ _ _ _ _ _ _ _ Hc Hl Hw).
  pose proof (unanswered_hdr _ _ _ _ _ _ _ _ _ _ Hs Hc Hl Hg Ho) as Hun. pose proof (log_bound _ _ _ _ _ _ _ _ Hs Hl) as Hb.
  destruct (log_length _ _ _ _ _ _ Hl) as [Hn _]. pose proof Hl as [L1 L2 L3 L4 L5 L6 L7 L8]. specialize (Ec cd L1).
  destruct (wl_respond cd L (answer_hdr <$> ans) w resp (g_reply g)) as (cd' & Ewr & El & Hh'); [done|congruence|done|lia|by rewrite Hh..|].
  rewrite Ewr in Ec. simpl in Ec.
  split; try done. exists L. eexists _, cd'. split; [exact Ec|]. split_and!.
  - split; simpl; rewrite ?El; try done.
    + by rewrite fmap_app.
    + simpl. rewrite fmap_app, concat_app, L7. simpl. by rewrite app_nil_r.
    + by rewrite !fmap_app, L8.
  - intros h1 g1. rewrite Eg. apply (jobs_insert (job_ok (srv σ') L xs)).
    + intros h2 g2 Hg2. eapply job_ok_mono; [by eapply Hj|by apply grows_eq|done].
    + intros _. unfold job_ok. by rewrite Hpc'.
  - eapply execs_ok_mono; [done|by apply grows_eq|done].
  - intros a [?|E%list_elem_of_singleton]%elem_of_app; [auto|]. subst a. exists w. unfold answer_hdr. simpl.
    rewrite Hh, He. by split_and!.
Qed.

(** The connection is closed. *)
Lemma serving_close closed_c ws xs ans σ σ' g' cn cd :
  serving closed_c ws xs ans σ -> server_ok (srv σ') -> inv σ' -> srv σ' = srv σ ->
  gs σ' = <[(c0, 0%nat) := g']> (gs σ) -> g_pc g' = Tail ->
  conns σ !! c0 = Some cn -> codec cn = Some cd ->
  conns σ' !! c0 = Some (set_closed (set_codec cn (Some (CloseCodec cd).1))) -> closed cn = false ->
  serving closed_c ws xs ans σ'.
Proof.
  intros [Hok Hi (L & cn1 & cd1 & Hc & Hl & Hj & Hx & Ha) Hf Hu] Hok' Hi' Es Eg Hpc' Hcn Hcd Ec Hcl.
  assert (cn1 = cn) as -> by congruence. destruct Hl as [L1 L2 L3 L4 L5 L6 L7 L8]. assert (cd1 = cd) as -> by congruence.
  destruct (wl_server_close cd L (answer_hdr <$> ans)) as (C1 & C2 & C3); [done|congruence|].
  split; try done. exists L. eexists _, _. split; [exact Ec|]. rewrite Es, Eg. split_and!; [|..|done|done].
  - split; simpl; try done. congruence.
  - apply (jobs_insert (job_ok (srv σ) L xs)); [done|]. intros _. unfold job_ok. by rewrite Hpc'.
Qed.

(** The request that is read next is new. *)
Lemma fresh_request closed_c ws ans L cn cd xs s w :
  NoDup (w_seq <$> ws) -> link_ok closed_c ws ans L cn cd -> ws !! length L = Some w -> execs_ok s L xs ->
  NoDup (w_seq <$> L.*2 ++ [w]) ∧ forall x, x ∈ xs -> x_for x <> Some w.
Proof.
  intros Hnd Hl Hw [Hx _]. destruct (lo_read _ _ _ _ _ _ Hl) as [_ E].
  assert (NoDup (w_seq <$> L.*2 ++ [w])) as Hnd'.
  { rewrite E, <- (take_S_r _ _ _ Hw), fmap_take. eapply sublist_NoDup; [done|]. apply sublist_take. }
  split; [done|]. intros x (w1 & Ew & Hin & _)%Hx E1. assert (w1 = w) as -> by congruence.
  apply NoDup_fmap_1, NoDup_app in Hnd' as (_ & Hnd' & _). apply (Hnd' w); set_solver.
Qed.

(** The reader has read one more request. *)
Lemma serving_more closed_c ws xs ans σ σ' L cn cd cd' cn' w hd :
  serving closed_c ws xs ans σ -> conns σ !! c0 = Some cn -> link_ok closed_c ws ans L cn cd ->
  (forall h g, gs σ !! (c0, h) = Some g -> job_ok (srv σ) L xs g) -> execs_ok (srv σ) L xs ->
  (forall a, a ∈ ans -> answer_ok L xs a) ->
  ws !! length L = Some w -> server_ok (srv σ') -> inv σ' -> serviceMap (srv σ') = serviceMap (srv σ) ->
  conns σ' !! c0 = Some cn' -> codec cn' = Some cd' -> hd ∉ L.*1 ->
  server_link cd' = read_to (server_link cd) (unread enc_call ws (S (length L)) ++ eof closed_c) ->
  server_holds cd' (L ++ [(hd, w)]) (answer_hdr <$> ans) ->
  headers cn' = headers cn ++ [hd] -> responses cn' = responses cn -> closed cn' = closed cn ->
  (forall h g', gs σ' !! (c0, h) = Some g' -> gs σ !! (c0, h) = Some g' ∨ job_ok (srv σ) (L ++ [(hd, w)]) xs g') ->
  serving closed_c ws xs ans σ'.
Proof.
  intros [Hok Hi _ Hf Hu] Hc [L1 L2 L3 [L4 L4'] L5 L6 L7 L8] Hj Hx Ha Hw Hok' Hi' Es Hc' E1 Hnew El Hh E2 E3 E4 Hgs. split; try done.
  assert (forall p, p ∈ L -> p ∈ L ++ [(hd, w)]) as Hmore by set_solver.
  exists (L ++ [(hd, w)]), cn', cd'. split; [done|]. split_and!.
  - split; rewrite ?El, ?E3, ?E4; try done.
    + rewrite !fmap_app, length_app. simpl. rewrite Nat.add_1_r, (take_S_r _ _ _ Hw). split; congruence.
    + rewrite fmap_app. apply NoDup_app. split_and!; [done| |apply NoDup_singleton]. intros hd1 ? ?%list_elem_of_singleton. by subst.
    + intros _. rewrite length_app. simpl. by rewrite Nat.add_1_r.
  - intros h g' [Hg|Hg]%Hgs; (eapply job_ok_mono; [by eauto|by apply grows_eq|auto]).
  - eapply execs_ok_mono; [done|by apply grows_eq|done].
  - intros a (w1 & ? & ? & ?)%Ha. exists w1. auto.
Qed.

(** What the reader makes of the next request. *)
Lemma reads_next closed_c ws xs ans σ L cn cd q w :
  serving closed_c ws xs ans σ -> link_ok closed_c ws ans L cn cd -> execs_ok (srv σ) L xs ->
  heap (reqs (srv σ)) !! q = Some RpcRequest0 -> ws !! length L = Some w ->
  l_input (server_link cd) = unread enc_call ws (length L) ++ eof closed_c ->
  exists rr cd' sq, readRequest ord (srv σ) cd q
      = Return (set_reqs (srv σ) (store (reqs (srv σ)) q (mkRequest (tr_text V (w_method w)) sq None)), cd', rr) ∧
    (tr_text V (w_method w), sq) ∉ L.*1 ∧
    server_link cd' = read_to (server_link cd) (unread enc_call ws (S (length L)) ++ eof closed_c) ∧
    server_holds cd' (L ++ [((tr_text V (w_method w), sq), w)]) (answer_hdr <$> ans) ∧ read_result (srv σ) w q rr.
Proof.
  intros Hs Hl Hx Hv Hw Hin. pose proof Hs as [Hok _ _ Hf _]. rewrite (unread_next _ _ _ _ Hw), <- (assoc_L (++)) in Hin.
  destruct (fresh_request _ _ _ _ _ _ _ _ _ Hf Hl Hw Hx) as [Hnd _].
  apply (read_one (srv σ) cd L _ q w); [done|done|apply Hl|done| |done].
  pose proof (log_bound _ _ _ _ _ _ _ _ Hs Hl). apply lookup_lt_Some in Hw. lia.
Qed.

Lemma serving_read closed_c ws xs ans σ h g q σ' :
  serving closed_c ws xs ans σ -> gs σ !! (c0, 0%nat) = Some g -> g_pc g = Reading q ->
  ready call_size (l_input (server_end c0 σ)) = true -> reader_step ord invalidRequest σ c0 h = Some σ' ->
  server_ok (srv σ') -> inv σ' -> serving closed_c ws xs ans σ'.
Proof.
  intros Hs Hg Hpc Hrd Hst Hok' Hi'. pose proof Hs as [Hok Hi (L & cn & cd & Hc & Hl & Hj & Hx & Ha) Hf Hu].
  assert (closed cn = false) as Hcl by (eapply books_open; [by apply (inv_books _ Hi)|exact Hg|by rewrite Hpc]).
  destruct (held_value _ _ _ _ (inv_req _ Hi) (c0, 0%nat) g q) as (v & Hv & Hcv); [done|by unfold own_req; rewrite Hpc|].
  unfold req_content in Hcv. rewrite Hpc in Hcv. subst v.
  unfold reader_step in Hst. rewrite Hg, Hpc, Hc, (lo_codec _ _ _ _ _ _ Hl) in Hst.
  pose proof (lo_input _ _ _ _ _ _ Hl Hcl) as Hin. unfold server_end in Hrd. rewrite Hc, (lo_codec _ _ _ _ _ _ Hl), Hin in Hrd.
  destruct (ws !! length L) as [w|] eqn:Hw.
  - destruct (fresh_request _ _ _ _ _ _ _ _ _ Hf Hl Hw Hx) as [_ Hnew].
    destruct (reads_next _ _ _ _ _ _ _ _ _ _ Hs Hl Hx Hv Hw Hin)
      as (rr & cd' & sq & Hr & Hsq & El & Hh & Hk & Hq & Hres). rewrite Hr in Hst. clear Hr Hrd.
    unfold dispatch_request in Hst. rewrite Hk, Hq in Hst. simpl in Hst. rewrite lookup_insert_eq in Hst. simpl in Hst.
    assert ((tr_text V (w_method w), sq, w) ∈ L ++ [(tr_text V (w_method w), sq, w)]) as Hlast by set_solver.
    destruct (hr_err (rr_header rr)) as [e|] eqn:He.
    + simplify_eq. eapply (serving_more _ _ _ _ σ _ L cn cd cd' _ w (tr_text V (w_method w), sq) Hs Hc Hl Hj Hx Ha Hw Hok' Hi');
        [done|simpl; by rewrite lookup_insert_eq|done..|].
      simpl. intros h1 g1. rewrite lookup_insert. case_decide; [|by left]. intros [= <-]. right. unfold job_ok. simpl.
      exists w. split; [done|]. by right.
    + destruct Hres as (sn & mn & me & v & rv & E1 & E2 & E3 & E4 & Hinv). rewrite E1, E2, E3, E4 in Hst.
      case_bool_decide; simplify_eq. eapply (serving_more _ _ _ _ σ _ L cn cd cd' _ w (tr_text V (w_method w), sq) Hs Hc Hl Hj Hx Ha Hw Hok' Hi');
        [done|simpl; by rewrite lookup_insert_eq|done..|].
      simpl. intros h1 g1. rewrite !lookup_insert. case_decide; [|case_decide; [|by left]]; intros [= <-]; right; unfold job_ok; simpl; [|done].
      by exists w.
  - rewrite (unread_all _ _ _ Hw) in Hin, Hrd. destruct closed_c; simpl in Hrd, Hin.
    2:{ destruct wl_sizes as [Hsz _]. by rewrite ready_nothing in Hrd. }
    destruct (read_end (srv σ) cd L _ q EOF [] Hv (lo_holds _ _ _ _ _ _ Hl) Hin) as (s1 & cd' & rr & Hr & Es & El & Hh & Hk & [e He]). rewrite Hr in Hst.
    unfold dispatch_request in Hst. rewrite He, Hk in Hst. simplify_eq.
    eapply (serving_frame _ _ _ _ σ); try done.
    + simpl. rewrite Es. by apply grows_eq.
    + simpl. by rewrite lookup_insert_eq.
    + intros cn1 Hc1. assert (cn1 = cn) as -> by congruence. split_and!; try done. simpl. intros cd1 Hcd1. exists cd'.
      assert (cd1 = cd) as -> by (rewrite (lo_codec _ _ _ _ _ _ Hl) in Hcd1; congruence). done.
    + simpl. intros h1 g1. rewrite lookup_insert. case_decide; [|left; eauto]. intros [= <-]. by right.
Qed.

(** ** Every step *)

(** What a step of another connection leaves alone. *)
Definition elsewhere σ σ' : Prop :=
  grows (srv σ) (srv σ') ∧ conns σ' !! c0 = conns σ !! c0 ∧ forall h, gs σ' !! (c0, h) = gs σ !! (c0, h).

Ltac elsewhere :=
  split_and!; [by apply grows_eq|simpl; by rewrite ?lookup_insert_ne by congruence
    |intros; simpl; by rewrite ?lookup_insert_ne, ?lookup_delete_ne by congruence].

Lemma reader_elsewhere σ c h σ' :
  server_ok (srv σ) -> c <> c0 -> reader_step ord invalidRequest σ c h = Some σ' -> elsewhere σ σ'.
Proof.
  intros Hok Hne Hs. unfold reader_step in Hs. destruct (gs σ !! (c, 0%nat)) as [g|]; [|done].
  destruct (conns σ !! c) as [cn|]; [|done]. destruct (g_pc g) as [|q| | | | | | | | | | | |]; try done.
  - destruct (getRequest _) as [q P]. simplify_eq. elsewhere.
  - destruct (codec cn) as [cd|]; [|done].
    destruct (readRequest_effect ord (srv σ) cd q Hok) as (cd1 & rr & Hrr & _). rewrite Hrr in Hs. clear Hrr.
    unfold dispatch_request in Hs. repeat case_match; simplify_eq; elsewhere.
  - case_bool_decide; simplify_eq. elsewhere.
  - unfold finish in Hs. destruct (spm_HandleConnClose _ _ _) as [[? ?]|]; simplify_eq. elsewhere.
Qed.

Lemma go_elsewhere σ c h σ' :
  server_ok (srv σ) -> c <> c0 -> go_step ord invalidRequest σ c h = Some σ' -> elsewhere σ σ'.
Proof.
  intros Hok Hne Hs. unfold go_step in Hs. destruct (gs σ !! (c, h)) as [g|]; [|done].
  destruct (conns σ !! c) as [cn|]; [|done].
  destruct (g_pc g) as [| |q| |q|q r|q r|q r|q r|q r|q| | |]; try done; repeat case_match; simplify_eq; try by elsewhere.
  split_and!; [apply grows_count|done|intros; simpl; by rewrite lookup_insert_ne by congruence].
Qed.

(** The events of the connection; every other one happens elsewhere. *)
Definition here (e : sys_event (V := V)) : Prop :=
  match e with EvReader c _ | EvReturn c _ _ _ | EvGo c _ => c = c0 | _ => False end.
#[global] Instance here_dec e : Decision (here e).
Proof. destruct e; simpl; apply _. Defined.

Lemma step_elsewhere ws σ e σ' :
  server_ok (srv σ) -> is_Some (conns σ !! c0) -> ~ here e -> step σ e = Some σ' ->
  elsewhere σ σ' ∧ ran c0 ws σ e = [] ∧ answered c0 ws σ e = [].
Proof.
  intros Hok [cn Hc] Hne Hst. destruct e as [rcv al ua|c|c h|c h reply err|c h]; simpl in Hst, Hne.
  - destruct (register ord (srv σ) rcv al ua) as [[s' err]|] eqn:Hr; simplify_eq/=. split; [|done].
    split_and!; [by eapply grows_register|done..].
  - unfold accept, spm_HandleConnAccept in Hst. rewrite (ok_spm _ Hok), dispatch_empty in Hst.
    destruct (activeConn (srv σ)) as [a|]; [|done]. destruct (conns σ !! c) eqn:Hc1; [done|].
    assert (c <> c0) by congruence. simplify_eq. split; [elsewhere|done].
  - split; [by eapply reader_elsewhere|done].
  - unfold method_returns in Hst. unfold ran. destruct (gs σ !! (c, h)) as [g|] eqn:Hg; [|done].
    rewrite bool_decide_eq_false_2 by done. destruct (g_pc g); simplify_eq. split; [elsewhere|done].
  - split; [by eapply go_elsewhere|]. split; [done|]. unfold answered. repeat case_match; try done. by case_bool_decide.
Qed.

Lemma serving_elsewhere closed_c ws xs ans σ σ' :
  serving closed_c ws xs ans σ -> server_ok (srv σ') -> inv σ' -> elsewhere σ σ' -> serving closed_c ws xs ans σ'.
Proof.
  intros Hs Hok' Hi' (Hg & Hc & Hgs). pose proof (sv_link _ _ _ _ _ Hs) as (L & cn & cd & Hcn & _).
  eapply (serving_frame _ _ _ _ σ σ' cn); [done..|by rewrite Hc| |].
  - intros cn1 Hc1. assert (cn1 = cn) as -> by congruence. by apply same_link_codec.
  - intros h g' Hg'. rewrite Hgs in Hg'. left. eauto.
Qed.

(** A goroutine of the connection moves on and keeps what it knows; the connection
    stays as it is, or the mutex or the wait group changes. *)
Lemma serving_move closed_c ws xs ans σ σ' cn cn' h g g' :
  serving closed_c ws xs ans σ -> server_ok (srv σ') -> inv σ' -> grows (srv σ) (srv σ') ->
  conns σ !! c0 = Some cn -> conns σ' !! c0 = Some cn' -> same_link cn cn' ->
  gs σ !! (c0, h) = Some g -> gs σ' = <[(c0, h) := g']> (gs σ) ->
  (forall s L, job_ok s L xs g -> job_ok s L xs g') -> serving closed_c ws xs ans σ'.
Proof.
  intros Hs Hok' Hi' Hgr Hc Hc' Hl Hg Eg Hj. eapply (serving_frame _ _ _ _ σ σ' cn'); [done..| |].
  - intros cn1 Hc1. assert (cn1 = cn) as -> by congruence. done.
  - intros h1 g1. rewrite Eg, lookup_insert. case_decide as E; [|left; eauto]. intros [= <-].
    left. exists g. simplify_eq. auto.
Qed.

Lemma serving_end closed_c ws xs ans σ σ' cn cn' h :
  serving closed_c ws xs ans σ -> server_ok (srv σ') -> inv σ' -> serviceMap (srv σ') = serviceMap (srv σ) ->
  conns σ !! c0 = Some cn -> conns σ' !! c0 = Some cn' -> same_link cn cn' ->
  gs σ' = delete (c0, h) (gs σ) -> serving closed_c ws xs ans σ'.
Proof.
  intros Hs Hok' Hi' Hgr Hc Hc' Hl Eg. eapply (serving_frame _ _ _ _ σ σ' cn'); [done..|by apply grows_eq|done| |].
  - intros cn1 Hc1. assert (cn1 = cn) as -> by congruence. done.
  - intros h1 g1. rewrite Eg, lookup_delete_Some. intros [_ ?]. left. eauto.
Qed.

Lemma serving_reader closed_c ws xs ans σ h σ' :
  serving closed_c ws xs ans σ -> enabled c0 σ (EvReader c0 h) = true -> reader_step ord invalidRequest σ c0 h = Some σ' ->
  server_ok (srv σ') -> inv σ' -> serving closed_c ws xs ans σ'.
Proof.
  intros Hs Hen Hst Hok' Hi'. pose proof Hst as Hst0. pose proof Hs as [Hok Hi (L & cn & cd & Hc & Hl & Hj & Hx & Ha) Hf Hu].
  unfold enabled in Hen. rewrite bool_decide_eq_true_2 in Hen by done.
  unfold reader_step in Hst. rewrite Hc in Hst. destruct (gs σ !! (c0, 0%nat)) as [g|] eqn:Hg; [|done].
  destruct (g_pc g) as [|q| | | | | | | | | | | |] eqn:Hpc; try done.
  - destruct (getRequest _) as [q P]. simplify_eq.
    eapply (serving_move _ _ _ _ σ); [done..|by apply grows_eq|done|done|by apply same_link_codec|done|done|done].
  - by eapply serving_read.
  - case_bool_decide; simplify_eq. pose proof (lo_codec _ _ _ _ _ _ Hl) as Hcd. rewrite Hcd in Hok', Hi', Hst0 |- *.
    eapply (serving_close _ _ _ _ σ); [done..|simpl; by rewrite lookup_insert_eq|].
    eapply books_open; [by apply (inv_books _ Hi)|exact Hg|by rewrite Hpc].
  - unfold finish in Hst. destruct (spm_HandleConnClose _ _ _) as [[? ?]|]; simplify_eq.
    eapply (serving_end _ _ _ _ σ); [done..|by apply same_link_codec|done].
Qed.

Lemma serving_go closed_c ws xs ans σ h σ' :
  serving closed_c ws xs ans σ -> go_step ord invalidRequest σ c0 h = Some σ' -> server_ok (srv σ') -> inv σ' ->
  serving closed_c ws xs (ans ++ answered c0 ws σ (EvGo c0 h)) σ'.
Proof.
  intros Hs Hst Hok' Hi'. pose proof Hs as [Hok Hi (L & cn & cd & Hc & Hl & Hj & Hx & Ha) Hf Hu].
  unfold answered. rewrite bool_decide_eq_true_2 by done.
  unfold go_step in Hst. rewrite Hc in Hst. destruct (gs σ !! (c0, h)) as [g|] eqn:Hg; [|done].
  destruct (g_pc g) as [| |q| |q|q r|q r|q r|q r|q r|q| | |] eqn:Hpc; try done; rewrite ?app_nil_r.
  - simplify_eq. eapply (serving_move _ _ _ _ σ); [done..|apply grows_count|done|done|by apply same_link_codec|done|done|].
    intros s L1. unfold job_ok. by rewrite Hpc.
  - destruct (getResponse _) as [r P]. simplify_eq.
    eapply (serving_move _ _ _ _ σ); [done..|by apply grows_eq|done|done|by apply same_link_codec|done|done|].
    intros s L1. unfold job_ok. by rewrite Hpc.
  - simplify_eq. eapply (serving_move _ _ _ _ σ); [done..|by apply grows_eq|done|done|by apply same_link_codec|done|done|].
    intros s L1. unfold job_ok. rewrite Hpc. simpl. case_bool_decide; [|done].
    intros (w & Hw & [(x & Hx1 & Hx2 & Hx3 & _)|[? ?]]); exists w; (split; [done|]); [left; by exists x|by right].
  - destruct (sending cn); simplify_eq.
    eapply (serving_move _ _ _ _ σ); [done..|by apply grows_eq|done|simpl; by rewrite lookup_insert_eq|by apply same_link_codec|done|done|].
    intros s L1. unfold job_ok. by rewrite Hpc.
  - unfold spm_PreWriteResponse in Hst. rewrite (ok_spm _ Hok), dispatch_empty in Hst.
    rewrite (lo_codec _ _ _ _ _ _ Hl) in Hst. destruct (WriteResponse _ _ _) as [cd' e] eqn:Hw. simplify_eq.
    destruct (held_value _ _ _ _ (inv_resp _ Hi) (c0, h) g r) as (v & Hv & _); [done|by unfold own_resp; rewrite Hpc|].
    rewrite Hv in *. simpl in *.
    eapply (serving_write _ _ _ _ σ _ h g q r); [done..|].
    intros cd1 Hcd1. assert (cd1 = cd) as -> by (rewrite (lo_codec _ _ _ _ _ _ Hl) in Hcd1; congruence).
    simpl. rewrite lookup_insert_eq. by rewrite Hw.
  - unfold spm_PostWriteResponse in Hst. rewrite (ok_spm _ Hok), dispatch_empty in Hst. simplify_eq.
    eapply (serving_move _ _ _ _ σ); [done..|by apply grows_eq|done|simpl; by rewrite lookup_insert_eq|by apply same_link_codec|done|done|done].
  - simplify_eq. eapply (serving_move _ _ _ _ σ); [done..|by apply grows_eq|done|done|by apply same_link_codec|done|done|done].
  - simplify_eq. eapply (serving_move _ _ _ _ σ); [done..|by apply grows_eq|done|done|by apply same_link_codec|done|done|].
    intros s L1 _. by case_bool_decide.
  - simplify_eq. eapply (serving_end _ _ _ _ σ); [done..|simpl; by rewrite lookup_insert_eq|by apply same_link_codec|done].
Qed.

Lemma serving_step closed_c ws xs ans σ e σ' :
  serving closed_c ws xs ans σ -> enabled c0 σ e = true -> step σ e = Some σ' ->
  serving closed_c ws (xs ++ ran c0 ws σ e) (ans ++ answered c0 ws σ e) σ'.
Proof.
  intros Hs Hen Hst. pose proof Hs as [Hok Hi (L & cn & cd & Hc & Hl & Hj & Hx & Ha) Hf Hu].
  destruct (inv_step _ _ _ _ _ _ _ Hok Hi Hst) as [Hok' Hi'].
  destruct (decide (here e)) as [He|He].
  2:{ destruct (step_elsewhere ws σ e σ') as (? & -> & ->); [done|by eexists|done..|]. rewrite !app_nil_r. by eapply (serving_elsewhere _ _ _ _ σ). }
  destruct e as [| |c h|c h reply err|c h]; try done; simpl in He, Hst; subst c.
  - simpl. rewrite !app_nil_r. by eapply serving_reader.
  - unfold method_returns in Hst. unfold answered, ran. rewrite app_nil_r.
    destruct (gs σ !! (c0, h)) as [g|] eqn:Hg; [|done]. destruct (g_pc g) as [| | |q| | | | | | | | | |] eqn:Hpc; simplify_eq.
    rewrite bool_decide_eq_true_2 by done. by eapply (serving_return _ _ _ _ σ _ h g q).
  - unfold ran. rewrite app_nil_r. by eapply serving_go.
Qed.

(** ** What the client gets to see *)

Lemma server_end_ok closed_c ws xs ans σ :
  serving closed_c ws xs ans σ -> exists cn, conns σ !! c0 = Some cn ∧
    l_sent (server_end c0 σ) = concat (enc_answer <$> ans) ∧ l_closed (server_end c0 σ) = closed cn.
Proof.
  intros [_ _ (L & cn & cd & Hc & Hl & _) _ _]. exists cn. unfold server_end.
  rewrite Hc, (lo_codec _ _ _ _ _ _ Hl). split_and!; [done|apply Hl..].
Qed.

(** A connection that is closed stays closed, and is not written to. *)
Lemma closed_stays closed_c ws xs ans σ e σ' :
  serving closed_c ws xs ans σ -> enabled c0 σ e = true -> step σ e = Some σ' -> l_closed (server_end c0 σ) = true ->
  l_closed (server_end c0 σ') = true ∧ answered c0 ws σ e = [].
Proof.
  intros Hs Hen Hst Hcl. destruct (server_end_ok _ _ _ _ _ Hs) as (cn & Hc & _ & Ecl). rewrite Ecl in Hcl.
  pose proof (b_closed _ _ _ (inv_books _ (sv_inv _ _ _ _ _ Hs) _ _ Hc) Hcl) as Htail.
  pose proof (serving_step _ _ _ _ _ _ _ Hs Hen Hst) as Hs'. destruct (server_end_ok _ _ _ _ _ Hs') as (cn' & Hc' & _ & ->).
  destruct (decide (here e)) as [He|He].
  2:{ destruct (step_elsewhere ws σ e σ') as ((_ & E & _) & _ & Hna); [apply Hs|by eexists|done..|]. split; congruence. }
  assert (answered c0 ws σ e = []) as Hna.
  { unfold answered. destruct e as [| | | |c h]; try done. destruct (gs σ !! (c, h)) as [g|] eqn:Hg; [|done].
    destruct (g_pc g) eqn:Hpc; try done. case_bool_decide; [|done]. subst c. apply Htail in Hg. congruence. }
  split; [|done]. assert (conns σ' !! c0 = conns σ !! c0) as E; [|congruence].
  destruct e as [| |c h|c h reply err|c h]; try done; simpl in He, Hst; subst c.
  - unfold reader_step in Hst. rewrite Hc in Hst. destruct (gs σ !! (c0, 0%nat)) as [g|] eqn:Hg; [|done]. rewrite (Htail _ _ Hg) in Hst.
    unfold finish in Hst. destruct (spm_HandleConnClose _ _ _) as [[? ?]|]; by simplify_eq.
  - unfold method_returns in Hst. destruct (gs σ !! (c0, h)) as [g|]; [|done]. by destruct (g_pc g); simplify_eq.
  - unfold go_step in Hst. rewrite Hc in Hst. destruct (gs σ !! (c0, h)) as [g|] eqn:Hg; [|done]. by rewrite (Htail _ _ Hg) in Hst.
Qed.

(** What a step sends to the client: the answers that it writes, and the end of
    the stream when it closes the connection. *)
Lemma serving_news closed_c ws xs ans σ e σ' :
  serving closed_c ws xs ans σ -> enabled c0 σ e = true -> step σ e = Some σ' ->
  forall m, (m <= length ans)%nat ->
    unread enc_answer ans m ++ eof (l_closed (server_end c0 σ)) ++ news (server_end c0 σ) (server_end c0 σ')
    = unread enc_answer (ans ++ answered c0 ws σ e) m ++ eof (l_closed (server_end c0 σ')).
Proof.
  intros Hs Hen Hst m Hm. pose proof (serving_step _ _ _ _ _ _ _ Hs Hen Hst) as Hs'.
  pose proof (closed_stays _ _ _ _ _ _ _ Hs Hen Hst) as Hcl.
  destruct (server_end_ok _ _ _ _ _ Hs) as (cn & _ & E1 & _). destruct (server_end_ok _ _ _ _ _ Hs') as (cn' & _ & E2 & _).
  unfold news. rewrite E1, E2, fmap_app, concat_app, drop_app_length. unfold unread.
  rewrite (drop_app_le ans) by done. rewrite fmap_app, concat_app, fmap_app, <- (assoc_L (++)). f_equal.
  destruct (l_closed (server_end c0 σ)) eqn:Ecl; simpl.
  - destruct Hcl as [-> ->]; [done|]. done.
  - f_equal.
Qed.

(** ** The beginning *)
Lemma serving_connected s s1 E :
  server_ok s -> reqs s = empty_pool -> resps s = empty_pool -> activeConn s = None -> Start s = Return s1 ->
  connected ord invalidRequest c0 others s1 E ->
  serving false [] [] [] (e_sys E) ∧ l_closed (server_end c0 (e_sys E)) = false ∧
  exists g, gs (e_sys E) !! (c0, 0%nat) = Some g ∧ g_pc g = Loop.
Proof.
  intros Hok E1 E2 E3 Hst (Hty & σ & Hacc & ->). simpl.
  assert (server_ok s1 ∧ reqs s1 = empty_pool ∧ resps s1 = empty_pool) as (Hok1 & E4 & E5).
  { unfold Start in Hst. destruct (ok_ln _ Hok) as [addr Ha]. rewrite Ha, E3 in Hst. simplify_eq. split_and!; [|done..]. by destruct Hok. }
  destruct (inv_step ord invalidRequest (dialled c0 others) (dialled c0 others) (started s1) (EvAccept c0) σ) as [Hok' Hi'];
    [done|by apply inv_started|done|].
  unfold accept, spm_HandleConnAccept in Hacc. simpl in Hacc. rewrite (ok_spm _ Hok1), dispatch_empty in Hacc.
  destruct (activeConn s1) as [a|]; [|done]. rewrite lookup_empty in Hacc.
  destruct wl_new_server as [Hlink Hholds].
  assert (newCodec (dialled c0 others) (dialled c0 others) (cfg_CodecType (serverConfig s1)) c0 = Some new_server) as Ecd.
  { unfold newCodec, dialled. rewrite Hty, (bool_decide_eq_true_2 (c0 = c0)) by done. by destruct wl_type as [->| ->]. }
  simpl in Hacc. rewrite Ecd in Hacc. simplify_eq.
  split; [|split].
  2:{ unfold server_end. simpl. rewrite lookup_insert_eq. simpl. by rewrite Hlink. }
  2:{ eexists. simpl. by rewrite lookup_insert_eq. }
  split; [done|done| |constructor|by intros ? ?%elem_of_nil].
  exists []. eexists _, _. split; [simpl; by rewrite lookup_insert_eq|]. split_and!.
  - split; simpl; rewrite ?Hlink; try done. constructor.
  - intros h g. simpl. rewrite lookup_insert. case_decide; [|by rewrite lookup_empty]. by intros [= <-].
  - split; [by intros ? ?%elem_of_nil|constructor].
  - by intros ? ?%elem_of_nil.
Qed.
End server.
