(* ===== verification/EndToEndClient.v ===== *)
(** * The client's side of a connection, end to end

    The invariant of the client in the system of [EndToEnd]: each call is written
    at most once, under its own number; the responses are read in order, a header
    and then its body; and what a completed call holds is what some response
    said. *)
From S2P Require Import Prelude GoStd Utils Types FreeList Service Plugin Server ServerConn ServerSafety ServerProps ServerTypes Client ClientSafety ClientLedger ClientTrace RpcSpec Wire EndToEnd EndToEndServer.

Section client_side.
Context {V W CC SC M : Type} `{UnicodeTables}
  `{!ClientCodec V CC, !ServerCodec V SC, !Transfer V, !Wire V CC SC M, !WireSpec V CC SC M, !WireLaws V CC SC M}.
Context (ord : gmap string (Plugin V W) -> list (string * Plugin V W)).

Abbreviation client := (@client V W).
Implicit Types (st : client) (cc : CC) (id : callid) (c : @Call V) (w : wrote V) (ws : list (wrote V))
  (ans : list (answer V)) (e : client_event (V := V)) (b : option (string * V)).

(** The answers are for requests, at most one for each, and the requests are told
    apart by their numbers. *)
Record fits ws ans : Prop := {
  ft_for : forall a, a ∈ ans -> exists w, an_for a = Some w ∧ w ∈ ws;
  ft_once : NoDup (an_for <$> ans);
  ft_fresh : NoDup (w_seq <$> ws);
  ft_numbers : forall w, w ∈ ws -> Word.is_u64 (w_seq w)
}.

Definition answer_seq (a : answer V) : Z := from_option w_seq 0 (an_for a).

Lemma answer_unread ws ans m a w : fits ws ans -> ans !! m = Some a -> an_for a = Some w -> w_seq w ∉ answer_seq <$> take m ans.
Proof.
  intros Hf Ha Hw (a1 & E & Hin)%list_elem_of_fmap. pose proof (elem_of_take_weaken _ _ _ Hin) as Hin1.
  destruct (ft_for _ _ Hf a1 Hin1) as (w1 & E1 & Hw1). unfold answer_seq in E. rewrite E1 in E. simpl in E.
  destruct (ft_for _ _ Hf a) as (w2 & E2 & Hw2); [by eapply list_elem_of_lookup_2|]. assert (w2 = w) as -> by congruence.
  assert (w1 = w) as -> by (by eapply (NoDup_fmap_inj w_seq ws); [apply Hf|..]).
  apply list_elem_of_lookup in Hin as [i Hi]. apply lookup_take_Some in Hi as [Hi Hlt].
  assert (i = m); [|lia]. eapply NoDup_lookup; [apply (ft_once _ _ Hf)|..]; rewrite list_lookup_fmap; [by rewrite Hi|rewrite Ha]. simpl. congruence.
Qed.

(** ** What the codec does in a step *)

(** What a request that was written is made of. *)
Definition written st e w : Prop :=
  e = EvSend (w_call w) None ∧ senders st !! w_call w = Some (SWrite (w_seq w)) ∧
  exists c, calls st !! w_call w = Some c ∧ c_ServiceMethod c = w_method w ∧ c_Args c = w_args w ∧ c_Reply c = w_reply w.

Record codec_effect st cc e cc' new : Prop := {
  ce_sent : l_sent (client_link cc') = l_sent (client_link cc) ++ concat (enc_call <$> new);
  ce_closed : l_closed (client_link cc) = true -> l_closed (client_link cc') = true ∧ new = [];
  ce_new : new = [] ∨ exists w, new = [w] ∧ written st e w
}.

(** Nothing is sent and the connection stays open, or closed. *)
Definition quiet cc cc' : Prop :=
  l_sent (client_link cc') = l_sent (client_link cc) ∧ l_closed (client_link cc') = l_closed (client_link cc).

Lemma codec_quiet st cc e cc' : quiet cc cc' -> codec_effect st cc e cc' [].
Proof. intros [E1 E2]. split; [by rewrite app_nil_r|by rewrite E2|by left]. Qed.

(** What the server gets to see of it. *)
Lemma codec_news st cc e cc' ws new n :
  codec_effect st cc e cc' new -> l_sent (client_link cc) = concat (enc_call <$> ws) -> (n <= length ws)%nat ->
  unread enc_call ws n ++ eof (l_closed (client_link cc)) ++ news (client_link cc) (client_link cc')
  = unread enc_call (ws ++ new) n ++ eof (l_closed (client_link cc')).
Proof.
  intros [Es Hcl _] E Hn. unfold news. rewrite Es, drop_app_length. unfold unread.
  rewrite (drop_app_le ws) by done. rewrite fmap_app, concat_app, fmap_app, <- (assoc_L (++)). f_equal.
  destruct (l_closed (client_link cc)); simpl; [|done]. destruct Hcl as [-> ->]; done.
Qed.

(** ** Reading responses *)

(** The response whose body is still to be read. *)
Definition rx_resp (p : rx_pc) : option RpcResponse :=
  match p with RxPop r | RxHooks r _ | RxBody r _ => Some r | _ => None end.

(** The client has read the headers of [m] answers; what it has still to read, by
    the position of [receive].  [closed_s] tells whether the server has closed its
    end. *)
Record reading (closed_s : bool) ws ans (p : rx_pc) cc (m : nat) b : Prop := {
  rd_holds : client_holds cc ws (answer_seq <$> take m ans) b;
  rd_count : (m <= length ans)%nat;
  rd_idle : p = RxRead -> l_closed (client_link cc) = false -> l_input (client_link cc) = unread enc_answer ans m ++ eof closed_s;
  rd_resp : forall r, rx_resp p = Some r -> exists a w, ans !! pred m = Some a ∧ an_for a = Some w ∧ m <> 0%nat ∧
    r = seen w (resp_Error (an_resp a)) ∧ b = Some (resp_Error (an_resp a), an_reply a) ∧
    (l_closed (client_link cc) = false ->
       l_input (client_link cc) = (inl <$> enc_body (an_reply a)) ++ unread enc_answer ans m ++ eof closed_s);
  rd_closed : l_closed (client_link cc) = true -> l_input (client_link cc) = [inr closed_error]
}.

(** It is at its beginning, or leaves the loop there. *)
Lemma reading_rest closed_s ws ans p' cc m b :
  reading closed_s ws ans RxRead cc m b -> rx_resp p' = None -> reading closed_s ws ans p' cc m b.
Proof. intros [? ? ? _ ?] E. split; try done; [auto|by rewrite E]. Qed.

(** It goes on with the same response. *)
Lemma reading_same closed_s ws ans p p' cc m b :
  reading closed_s ws ans p cc m b -> rx_resp p' = rx_resp p -> (p' = RxRead -> p = RxRead) -> reading closed_s ws ans p' cc m b.
Proof. intros [? ? ? H2 ?] E Hp. split; try done; [auto|by rewrite E]. Qed.

(** It has read a header, or there is none. *)
Lemma reading_header closed_s ws ans cc m b :
  fits ws ans -> reading closed_s ws ans RxRead cc m b -> ready 1 (l_input (client_link cc)) = true ->
  exists cc' r err m' b', ReadResponseHeader cc RpcResponse0 = (cc', r, err) ∧ quiet cc cc' ∧
    reading closed_s ws ans (match err with None => RxPop r | Some e => RxStop e end) cc' m' b' ∧
    (l_closed (client_link cc) = false -> closed_s = false -> err = None ∧ m' = S m).
Proof.
  intros Hf Hrd Hst. pose proof Hrd as [Hh Hm H1 _ H3].
  assert (forall e : error, l_input (client_link cc) = [inr e] -> (l_closed (client_link cc) = true ∨ closed_s = true) ->
    exists cc' r err m' b', ReadResponseHeader cc RpcResponse0 = (cc', r, err) ∧ quiet cc cc' ∧
      reading closed_s ws ans (match err with None => RxPop r | Some e => RxStop e end) cc' m' b' ∧
      (l_closed (client_link cc) = false -> closed_s = false -> err = None ∧ m' = S m)) as Hend.
  { intros e Hin Hor. destruct (wl_header_end cc ws _ b e [] Hh Hin) as (cc' & r & Hr & Hl & Hh').
    exists cc', r, (Some e), m, None. unfold quiet. rewrite Hl. split_and!; [done..| |intros; by destruct Hor; congruence].
    split; try done. by rewrite Hl. }
  destruct (l_closed (client_link cc)) eqn:Hcl; [apply (Hend closed_error); auto|].
  specialize (H1 eq_refl eq_refl). destruct (ans !! m) as [a|] eqn:Ha.
  - destruct (ft_for _ _ Hf a) as (w & Ew & Hw); [by eapply list_elem_of_lookup_2|].
    rewrite (unread_next _ _ _ _ Ha) in H1. unfold enc_answer at 1 in H1. rewrite Ew, <- (assoc_L (++)) in H1.
    destruct (wl_header cc ws _ b w (resp_Error (an_resp a)) (an_reply a) (unread enc_answer ans (S m) ++ eof closed_s) Hh)
      as (cc' & Hr & Hl & Hh'); [apply Hf|by apply Hf|done|by eapply answer_unread|done|].
    eexists cc', _, None, (S m), _. split; [done|]. unfold quiet. rewrite Hl. split_and!; [done..| |done].
    split; simpl; rewrite ?Hl; simpl; try done.
    + rewrite (take_S_r _ _ _ Ha), fmap_app. simpl. unfold answer_seq at 2. by rewrite Ew.
    + by eapply lookup_lt_Some.
    + intros r [= <-]. by exists a, w.
    + by rewrite Hcl.
  - rewrite (unread_all _ _ _ Ha) in H1. destruct closed_s; [apply (Hend EOF); auto|]. by rewrite H1 in Hst.
Qed.

(** There is always a body to read. *)
Lemma reading_ready closed_s ws ans p cc m b r :
  reading closed_s ws ans p cc m b -> rx_resp p = Some r -> ready body_size (l_input (client_link cc)) = true.
Proof.
  intros [_ _ _ H2 H3] Hp. destruct (H2 r Hp) as (a & w & _ & _ & _ & _ & _ & Hin). destruct (l_closed (client_link cc)).
  - rewrite H3 by done. apply ready_end.
  - rewrite Hin by done. apply ready_values. by rewrite wl_body_size.
Qed.

(** It has read a body. *)
Lemma reading_next closed_s ws ans p cc cc' m b r a rest :
  reading closed_s ws ans p cc m b -> rx_resp p = Some r -> ans !! pred m = Some a ->
  (l_closed (client_link cc) = false -> client_link cc' = read_to (client_link cc) rest ∧ rest = unread enc_answer ans m ++ eof closed_s) ->
  (l_closed (client_link cc) = true -> client_link cc' = client_link cc) -> client_holds cc' ws (answer_seq <$> take m ans) None ->
  quiet cc cc' ∧ reading closed_s ws ans RxRead cc' m None.
Proof.
  intros [? ? _ _ H3] Hp Ha Hop Hcl Hh. unfold quiet. destruct (l_closed (client_link cc)) eqn:E.
  - rewrite Hcl, E by done. split; [done|]. split; try done; rewrite Hcl by done; rewrite ?E; auto; congruence.
  - destruct (Hop eq_refl) as [El ->]. rewrite El. split; [done|]. split; try done; rewrite El; simpl; congruence.
Qed.

Lemma reading_body closed_s ws ans p cc m b r x :
  reading closed_s ws ans p cc m b -> rx_resp p = Some r -> resp_Error r = "" ->
  exists cc' o, ReadResponseBody cc x = Return (cc', o) ∧ quiet cc cc' ∧ reading closed_s ws ans RxRead cc' m None ∧
    forall y, o = inl y -> exists a w, a ∈ ans ∧ an_for a = Some w ∧ r = seen w (resp_Error (an_resp a)) ∧ tr_reply x (an_reply a) = inl y.
Proof.
  intros Hrd Hp He. pose proof Hrd as [Hh _ _ H2 H3]. destruct (H2 r Hp) as (a & w & Ha & Hw & _ & -> & Eb & Hin). simpl in He. apply tr_text_empty in He. rewrite He in Eb. subst b.
  destruct (l_closed (client_link cc)) eqn:Hcl.
  - destruct (wl_body_closed cc ws _ _ x _ Hh (H3 eq_refl)) as (cc' & o & Hr & Ho & Hl & Hh').
    exists cc', o. split; [done|]. rewrite (assoc and). split; [eapply (reading_next _ _ _ _ _ _ _ _ _ a []); try done; by rewrite Hcl|].
    intros y Ey. exists a, w. split_and!; [by eapply list_elem_of_lookup_2|done..|auto].
  - destruct (wl_body cc ws _ _ x _ Hh (Hin eq_refl)) as (cc' & Hr & Hl & Hh'). eexists cc', _. split; [done|].
    rewrite (assoc and). split; [eapply (reading_next _ _ _ _ _ _ _ _ _ a); try done; by rewrite Hcl|].
    intros y Ey. exists a, w. split_and!; [by eapply list_elem_of_lookup_2|done..].
Qed.

Lemma reading_discard closed_s ws ans p cc m b r :
  reading closed_s ws ans p cc m b -> rx_resp p = Some r ->
  exists cc' o, DiscardResponseBody cc = (cc', o) ∧ quiet cc cc' ∧ reading closed_s ws ans RxRead cc' m None ∧
    (l_closed (client_link cc) = false -> o = None).
Proof.
  intros Hrd Hp. pose proof Hrd as [Hh _ _ H2 H3]. destruct (H2 r Hp) as (a & w & Ha & Hw & _ & -> & -> & Hin).
  destruct (l_closed (client_link cc)) eqn:Hcl.
  - destruct (wl_discard_closed cc ws _ _ _ _ Hh (H3 eq_refl)) as (cc' & o & Hr & Hl & Hh').
    exists cc', o. split; [done|]. rewrite (assoc and). split; [|done]. eapply (reading_next _ _ _ _ _ _ _ _ _ a []); try done; by rewrite Hcl.
  - destruct (wl_discard cc ws _ _ _ _ Hh (Hin eq_refl)) as (cc' & Hr & Hl & Hh'). eexists cc', _. split; [done|].
    rewrite (assoc and). split; [|done]. eapply (reading_next _ _ _ _ _ _ _ _ _ a); try done; by rewrite Hcl.
Qed.

(** A request is written, or the connection is closed. *)
Lemma reading_write closed_s ws ans p cc m b w nx :
  reading closed_s ws ans p cc m b -> w_seq w ∉ w_seq <$> ws ->
  exists cc' err, WriteRequest cc (mkRequest (w_method w) (w_seq w) nx) (w_args w) = (cc', err) ∧
    (err = None <-> l_closed (client_link cc) = false) ∧ l_closed (client_link cc') = l_closed (client_link cc) ∧
    let new := match err with None => [w] | Some _ => [] end in
    l_sent (client_link cc') = l_sent (client_link cc) ++ concat (enc_call <$> new) ∧
    reading closed_s (ws ++ new) ans p cc' m b.
Proof.
  intros [Hh Hm H1 H2 H3] Hn. destruct (l_closed (client_link cc)) eqn:Hcl.
  - destruct (wl_write_closed cc ws _ b w nx Hh Hcl Hn) as (cc' & e & Hw & Hl & Hh'). eexists cc', (Some e). rewrite Hl.
    split_and!; try done. simpl. rewrite !app_nil_r. split; [done|]. split; rewrite ?Hl, ?Hcl; auto.
  - destruct (wl_write cc ws _ b w nx Hh Hcl Hn) as (cc' & Hw & Hl & Hh'). eexists cc', None. rewrite Hl. split_and!; try done. simpl.
    rewrite app_nil_r. split; [done|]. split; rewrite ?Hl; simpl; rewrite ?Hcl; auto.
Qed.

(** The client closes its end. *)
Lemma reading_close closed_s ws ans p cc m b :
  reading closed_s ws ans p cc m b ->
  let cc' := (CloseClientCodec cc).1 in
  l_sent (client_link cc') = l_sent (client_link cc) ∧ l_closed (client_link cc') = true ∧ reading closed_s ws ans p cc' m b.
Proof.
  intros [Hh Hm H1 H2 H3]. destruct (wl_client_close cc ws _ b Hh) as [Hl Hh']. simpl in *.
  assert (l_closed (client_link (CloseClientCodec cc).1) = true ∧ l_sent (client_link (CloseClientCodec cc).1) = l_sent (client_link cc) ∧
    l_input (client_link (CloseClientCodec cc).1) = [inr closed_error]) as (E1 & E2 & E3).
  { rewrite Hl. destruct (l_closed (client_link cc)) eqn:Hcl; auto. }
  split_and!; [done..|]. split; rewrite ?E1; try done. intros r Hr. destruct (H2 r Hr) as (a & w & Ha). exists a, w. by destruct_and!.
Qed.

(** It has more to read. *)
Lemma reading_feed closed_s closed_s' ws ans new p cc m b l :
  reading closed_s ws ans p cc m b ->
  (forall m, (m <= length ans)%nat ->
     unread enc_answer ans m ++ eof closed_s ++ l = unread enc_answer (ans ++ new) m ++ eof closed_s') ->
  reading closed_s' ws (ans ++ new) p (client_feed cc l) m b.
Proof.
  intros [Hh Hm H1 H2 H3] Hl. split; rewrite ?wl_client_feed; unfold feed.
  - rewrite take_app_le by done. by apply wl_client_feed_holds.
  - rewrite length_app. lia.
  - intros Hp. destruct (l_closed (client_link cc)) eqn:Hcl; [by rewrite Hcl|]. intros _. simpl.
    by rewrite H1, <- (assoc_L (++)), Hl by done.
  - intros r Hr. destruct (H2 r Hr) as (a & w & Ha & ? & ? & ? & ? & Hin). exists a, w. split_and!; [by apply lookup_app_l_Some|done..|].
    destruct (l_closed (client_link cc)) eqn:Hcl; [by rewrite Hcl|]. intros _. simpl. by rewrite Hin, <- !(assoc_L (++)), Hl by done.
  - destruct (l_closed (client_link cc)) eqn:Hcl; [by rewrite Hcl|]. simpl. congruence.
Qed.

Lemma after_loop_resp err : rx_resp (after_loop err) = None.
Proof. by destruct err. Qed.

(** Only [receive] moves [receive]. *)
Lemma step_rx_same st e st' :
  client_step ord st e = Some st' -> (forall a, e <> EvRx a) -> rx st' = rx st.
Proof.
  intros Hs Hne. destruct e as [ch n|ch|id sm args reply done fresh|id a|a|]; simpl in Hs; [..|by destruct (Hne a)|].
  - case_bool_decide; by simplify_eq.
  - destruct (chans st !! ch) as [[n [|x l]]|]; by simplify_eq.
  - case_bool_decide; [|done]. destruct (Go _ _ _ _ _ _ _) eqn:Hg; simplify_eq. apply Go_frame in Hg. by destruct_and!.
  - unfold send_step, register_call, finish_call in Hs. split_matches_in Hs; simplify_eq; simpl; repeat case_match; done.
  - simplify_eq. unfold mark_closing. by destruct (closing st).
Qed.

(** After the body [receive] is not at a response. *)
Lemma rx_body_done st a st' r co :
  rx st = RxBody r co -> rx_step ord st a = Some st' -> rx_resp (rx st') = None.
Proof.
  intros Hrx Hs. unfold rx_step in Hs. rewrite Hrx in Hs. destruct co as [id|]; destruct a; try done.
  - case_bool_decide; [|done]. apply deliver_frame in Hs as (_ & _ & _ & _ & _ & _ & _ & (err & ->) & _). apply after_loop_resp.
  - case_bool_decide; simplify_eq. apply after_loop_resp.
  - simplify_eq. apply after_loop_resp.
Qed.

(** Between the header and the body nothing is read. *)
Lemma rx_quiet st a st' :
  cpm st = newClientPluginManager -> rx_step ord st a = Some st' -> rx st <> RxRead ->
  (forall r co, rx st <> RxBody r co) ->
  rx_resp (rx st') = rx_resp (rx st) ∧ rx st' <> RxRead.
Proof.
  intros Hcpm Hs Hne Hnb. unfold rx_step in Hs. destruct (rx st) as [|r|r co|r co|err|err| |]; try done;
    [..|by destruct (Hnb r co)| | |]; destruct a; try done.
  - by simplify_eq.
  - unfold cpm_PreReadResponse in Hs. rewrite Hcpm, (dispatch_empty ord) in Hs. by simplify_eq.
  - destruct (reqMutex st); by simplify_eq.
  - case_bool_decide; by simplify_eq.
  - by simplify_eq.
Qed.

Lemma reading_quiet closed_s ws ans st a st' cc m b :
  cpm st = newClientPluginManager -> reading closed_s ws ans (rx st) cc m b -> rx_step ord st a = Some st' -> rx st <> RxRead ->
  (forall r co, rx st <> RxBody r co) -> reading closed_s ws ans (rx st') cc m b.
Proof.
  intros Hcpm Hrd Hs H1 H2. destruct (rx_quiet _ _ _ Hcpm Hs H1 H2) as [E1 E2]. eapply reading_same; [exact Hrd|done|done].
Qed.

(** The position of [receive] when the body has been read. *)
Lemma rx_after_body closed_s ws ans st a st' r co cc m b :
  rx st = RxBody r co -> rx_step ord st a = Some st' -> reading closed_s ws ans RxRead cc m b -> reading closed_s ws ans (rx st') cc m b.
Proof. intros Hrx Hs Hrd. eapply reading_rest; [done|]. by eapply rx_body_done. Qed.

Lemma codec_rx closed_s ws ans st cc a e' cc' new st' m b :
  cpm st = newClientPluginManager -> fits ws ans -> reading closed_s ws ans (rx st) cc m b ->
  client_codec st cc (EvRx a) = Some (e', cc', new) -> client_step ord st e' = Some st' ->
  quiet cc cc' ∧ new = [] ∧ exists m' b', reading closed_s ws ans (rx st') cc' m' b'.
Proof.
  intros Hcpm Hf Hrd Hc Hs. unfold client_codec in Hc.
  assert (rx st <> RxRead -> (forall r co, rx st <> RxBody r co) -> (e', cc', new) = (EvRx a, cc, []) ->
    quiet cc cc' ∧ new = [] ∧ exists m' b', reading closed_s ws ans (rx st') cc' m' b') as Hq.
  { intros H1 H2 E. simplify_eq. split_and!; [done..|]. exists m, b. by eapply reading_quiet. }
  destruct (rx st) as [|r|r co|r co| | | |] eqn:Hrx; try (by apply Hq; congruence).
  - destruct (ready 1 (l_input (client_link cc))) eqn:Hst; [|done].
    destruct (reading_header _ _ _ _ _ _ Hf Hrd Hst) as (cc1 & r & err & m' & b' & Hr & Hqu & Hrd' & _). rewrite Hr in Hc.
    simplify_eq. split_and!; [done..|]. exists m', b'. simpl in Hs. unfold rx_step in Hs. rewrite Hrx in Hs. destruct err; by simplify_eq.
  - destruct (reading_discard _ _ _ _ _ _ _ r Hrd eq_refl) as (cc1 & o & Hd & Hqu & Hrd' & _).
    rewrite (reading_ready _ _ _ _ _ _ _ r Hrd eq_refl) in Hc.
    assert (client_step ord st e' = Some st' -> cc' = cc1 -> (exists a', e' = EvRx a') ->
      quiet cc cc' ∧ exists m' b', reading closed_s ws ans (rx st') cc' m' b') as Hdone.
    { intros _ -> [a' ->]. split; [done|]. exists m, None. by eapply rx_after_body. }
    destruct co as [id|]; [case_bool_decide as He|].
    + destruct (calls st !! id) as [c|]; [|done]. destruct (reading_body _ _ _ _ _ _ _ r (c_Reply c) Hrd eq_refl He) as (cc2 & o2 & Hb & Hqu2 & Hrd2 & _).
      rewrite Hb in Hc. assert (cc' = cc2 ∧ new = [] ∧ exists a', e' = EvRx a') as (-> & -> & a' & ->)
        by (destruct o2; [by simplify_eq; eauto|]; destruct a; simplify_eq; eauto).
      split_and!; [done..|]. exists m, None. by eapply rx_after_body.
    + rewrite Hd in Hc. simplify_eq. rewrite (comm and), <- (assoc and). split; [done|]. rewrite (comm and). apply Hdone; eauto.
    + rewrite Hd in Hc. simplify_eq. rewrite (comm and), <- (assoc and). split; [done|]. rewrite (comm and). apply Hdone; eauto.
Qed.

Lemma codec_step closed_s ws ans st cc e e' cc' new st' m b :
  cpm st = newClientPluginManager -> fits ws ans -> (forall id s, senders st !! id = Some (SWrite s) -> s ∉ w_seq <$> ws) ->
  reading closed_s ws ans (rx st) cc m b -> client_codec st cc e = Some (e', cc', new) -> client_step ord st e' = Some st' ->
  codec_effect st cc e' cc' new ∧ exists m' b', reading closed_s (ws ++ new) ans (rx st') cc' m' b'.
Proof.
  intros Hcpm Hf Hfresh Hrd Hc Hs.
  assert ((e', cc', new) = (e, cc, []) -> (forall a, e <> EvRx a) ->
    codec_effect st cc e' cc' new ∧ exists m' b', reading closed_s (ws ++ new) ans (rx st') cc' m' b') as Hsame.
  { intros E Hne. simplify_eq. split; [by apply codec_quiet|]. exists m, b. rewrite (step_rx_same _ _ _ Hs), app_nil_r by done. done. }
  destruct e as [ch n|ch|id sm args reply done fresh|id a|a|]; simpl in Hc; try by (apply Hsame; congruence).
  - assert (forall err st1, client_step ord st (EvSend id err) = Some st1 -> rx st1 = rx st) as Hkeep by (intros ?? H1; by eapply step_rx_same).
    assert ((e', cc', new) = (EvSend id None, cc, []) ->
      codec_effect st cc e' cc' new ∧ exists m' b', reading closed_s (ws ++ new) ans (rx st') cc' m' b') as Hidle.
    { intros E. simplify_eq. split; [by apply codec_quiet|]. exists m, b. by rewrite (Hkeep _ _ Hs), app_nil_r. }
    destruct (senders st !! id) as [[| | |s| | |]|] eqn:Hp; try by (apply Hidle; congruence).
    destruct (calls st !! id) as [c|] eqn:Hcall; [|by apply Hidle; congruence].
    destruct (reading_write _ _ _ _ _ _ _ (mkWrote id s (c_ServiceMethod c) (c_Args c) (c_Reply c)) (req_next (request st)) Hrd) as
      (cc1 & err & Hw & Herr & Hcl & Hsent & Hrd'); [by eapply Hfresh|]. simpl in Hw. rewrite Hw in Hc. simplify_eq.
    split; [|exists m, b; by rewrite (Hkeep _ _ Hs)]. split; [done|intros Ecl; rewrite Hcl|].
    + split; [done|]. destruct err; [done|]. rewrite (proj1 Herr eq_refl) in Ecl. done.
    + destruct err; [by left|right]. eexists. split; [done|]. split; [done|]. split; [done|]. by exists c.
  - destruct (codec_rx _ _ _ _ _ _ _ _ _ _ _ _ Hcpm Hf Hrd Hc Hs) as (Hq & -> & Hrd'). rewrite app_nil_r. split; [by apply codec_quiet|done].
  - simplify_eq. rewrite (step_rx_same _ _ _ Hs), app_nil_r, Close_codec by done. destruct (closing st); [split; [by apply codec_quiet|eauto]|].
    destruct (reading_close _ _ _ _ _ _ _ Hrd) as (E1 & E2 & Hrd'). split; [|eauto]. split; [by rewrite app_nil_r|done|by left].
Qed.

(** ** The calls that were written *)

(** A call whose request was written: it has the number of the request, its
    sender will not write again, and it has the caller's reply until it is
    completed. *)
Definition sent_call st w : Prop :=
  seq_of st !! w_call w = Some (w_seq w) ∧ is_past st (w_call w) ∧
  exists c, calls st !! w_call w = Some c ∧ c_ServiceMethod c = w_method w ∧ c_Args c = w_args w ∧
    (w_call w ∉ finished st -> c_Reply c = w_reply w).

Lemma finished_mono st e st' id : client_step ord st e = Some st' -> id ∈ finished st -> id ∈ finished st'.
Proof. intros (new & E & _)%step_adds. unfold finished. rewrite E, fmap_app. set_solver. Qed.

Lemma sent_call_step st e st' w : client_inv st -> client_step ord st e = Some st' -> sent_call st w -> sent_call st' w.
Proof.
  intros Hi Hs (Hseq & Hp & c & Hc & Hm & Ha & Hr). pose proof (effect_step _ _ _ _ Hi Hs) as He.
  split_and!; [eapply lookup_weaken; [done|by apply effect_seq_of]|by eapply step_past; eauto|].
  destruct (step_same_call _ _ _ _ _ Hs _ Hc) as (c' & Hc' & Em & Ea). exists c'. split_and!; [done|congruence..|].
  intros Hn. rewrite (effect_untouched _ _ _ _ He Hc Hn) in Hc'. simplify_eq. apply Hr. intros Hf. by eapply Hn, finished_mono.
Qed.

Lemma sent_call_new st e st' w : client_inv st -> client_step ord st e = Some st' -> written st e w -> sent_call st' w.
Proof.
  intros Hi Hs (-> & Hp & c & Hc & Hm & Ha & Hr). simpl in Hs. unfold send_step in Hs. rewrite Hp in Hs. simplify_eq.
  split; [apply (nu_send _ (ci_numbers _ Hi) _ _ Hp)|]. split; [|by exists c].
  intros p. simpl. rewrite lookup_insert_eq. by intros [= <-].
Qed.

(** ** The completed calls *)

(** The response that a call was completed with was written by the server for the
    request of this call, and without an error the reply was decoded from its
    body. *)
Definition got st ws ans (co : completion) (r : RpcResponse) : Prop :=
  exists a w, a ∈ ans ∧ an_for a = Some w ∧ r = seen w (resp_Error (an_resp a)) ∧ w ∈ ws ∧ w_call w = co_call co ∧
    (co_err co = None -> exists c, calls st !! co_call co = Some c ∧ tr_reply (w_reply w) (an_reply a) = inl (c_Reply c)).

Lemma got_step st e st' ws ws' ans ans' co r :
  client_inv st -> client_step ord st e = Some st' -> co ∈ completed st ->
  (forall w, w ∈ ws -> w ∈ ws') -> (forall a, a ∈ ans -> a ∈ ans') -> got st ws ans co r -> got st' ws' ans' co r.
Proof.
  intros Hi Hs Hco Hw Ha (a & w & ? & ? & ? & ? & ? & Hr). exists a, w. split_and!; auto. intros Hn.
  destruct (Hr Hn) as (c & Hc & Hd). exists c. split; [|done].
  rewrite (effect_frozen _ _ _ Hi (effect_step _ _ _ _ Hi Hs)); [done|]. apply list_elem_of_fmap. by exists co.
Qed.

Lemma got_more st ws ans ans' co r : (forall a, a ∈ ans -> a ∈ ans') -> got st ws ans co r -> got st ws ans' co r.
Proof. intros Ha (a & w & ? & ? & ? & ? & ? & Hr). exists a, w. split_and!; auto. Qed.

Record calling (closed_s : bool) ws ans st cc : Prop := {
  cl_inv : client_inv st;
  cl_sent : l_sent (client_link cc) = concat (enc_call <$> ws);
  cl_calls : forall w, w ∈ ws -> sent_call st w;
  cl_once : NoDup (w_call <$> ws);
  cl_reading : exists m b, reading closed_s ws ans (rx st) cc m b;
  cl_got : forall co r, co ∈ completed st -> co_resp co = Some r -> got st ws ans co r
}.

(** The number that is written next is not that of a request. *)
Lemma calling_fresh closed_s ws ans st cc id s :
  calling closed_s ws ans st cc -> senders st !! id = Some (SWrite s) -> s ∉ w_seq <$> ws.
Proof.
  intros [Hi _ Hcalls _ _ _] Hp (w & -> & Hw)%list_elem_of_fmap. destruct (Hcalls w Hw) as (Hseq & Hpast & _).
  pose proof (nu_send _ (ci_numbers _ Hi) _ _ Hp) as Hs. simpl in Hs.
  assert (w_call w = id) as <- by (by eapply (nu_inj _ (ci_numbers _ Hi))). by apply (Hpast _ Hp).
Qed.

(** A reply that was decoded is that of the body. *)
Lemma body_decoded closed_s ws ans st cc e cc' new r id v m b :
  reading closed_s ws ans (rx st) cc m b -> rx st = RxBody r (Some id) ->
  client_codec st cc e = Some (EvRx (ABody v None), cc', new) ->
  exists a w c, a ∈ ans ∧ an_for a = Some w ∧ r = seen w (resp_Error (an_resp a)) ∧ calls st !! id = Some c ∧ tr_reply (c_Reply c) (an_reply a) = inl v.
Proof.
  intros Hrd Hrx Hc.
  assert (resp_Error r = "" ∧ exists c, calls st !! id = Some c ∧ ReadResponseBody cc (c_Reply c) = Return (cc', inl v)) as (He & c & Hcall & Hb).
  { destruct e as [ch n|ch|i sm args reply done fresh|i a1|a1|]; simpl in Hc; simplify_eq.
    - repeat case_match; simplify_eq.
    - rewrite Hrx in Hc. destruct (ready body_size _); [|done]. case_bool_decide; [split; [done|]|].
      + destruct (calls st !! id) as [c|]; [|done]. exists c. destruct (ReadResponseBody _ _) as [[cc1 [v1|err]]|]; [..|done];
          destruct a1; by simplify_eq.
      + destruct (DiscardResponseBody cc). by simplify_eq. }
  destruct (reading_body _ _ _ _ _ _ _ r (c_Reply c) Hrd) as (cc1 & o & Hb1 & _ & _ & Ho); [by rewrite Hrx|done|].
  rewrite Hb in Hb1. simplify_eq. destruct (Ho v eq_refl) as (a & w & ? & ? & ? & ?). by exists a, w, c.
Qed.

(** A completion that a step makes. *)
Lemma got_new closed_s ws ws' ans st cc e e' cc' new st' co r :
  calling closed_s ws ans st cc -> fits ws ans ->
  client_codec st cc e = Some (e', cc', new) -> client_step ord st e' = Some st' ->
  (forall w, w ∈ ws -> w ∈ ws') -> completion_from st st' e' co -> co_resp co = Some r -> got st' ws' ans co r.
Proof.
  intros [Hi _ Hcalls _ (m & b & Hrd) _] Hans Hc Hs Hws Hfrom Hr. destruct (Hfrom r Hr) as [Hrx Hok].
  pose proof (nu_rx _ (ci_numbers _ Hi) r (co_call co)) as Hseq. rewrite Hrx in Hseq. specialize (Hseq eq_refl).
  assert (forall a w, a ∈ ans -> an_for a = Some w -> r = seen w (resp_Error (an_resp a)) -> w ∈ ws ∧ w_call w = co_call co) as Hmine.
  { intros a w (w1 & E1 & Hw)%(ft_for _ _ Hans) E ->. assert (w1 = w) as -> by congruence. split; [done|]. destruct (Hcalls w Hw) as [Hsw _].
    by eapply (nu_inj _ (ci_numbers _ Hi)). }
  destruct (co_err co) as [err|] eqn:Herr.
  - destruct (rd_resp _ _ _ _ _ _ _ Hrd r) as (a & w & Ha & Ew & _ & Er & _); [by rewrite Hrx|]. apply list_elem_of_lookup_2 in Ha.
    destruct (Hmine a w Ha Ew Er) as [? ?]. exists a, w. split_and!; auto. congruence.
  - destruct (Hok eq_refl) as (v & c' & -> & Hc' & Ev). destruct (body_decoded _ _ _ _ _ _ _ _ _ _ _ _ _ Hrd Hrx Hc) as (a & w & c & Ha & Ew & Er & Hcl & Hd).
    destruct (Hmine a w Ha Ew Er) as [Hw Ecall]. exists a, w. split_and!; auto. intros _. exists c'. split; [done|].
    destruct (Hcalls w Hw) as (_ & _ & c1 & Hc1 & _ & _ & Hrep). rewrite Ecall in Hc1, Hrep. simplify_eq. rewrite <- Hrep; [done|].
    apply open_unfinished; [apply Hi|]. apply rx_call_open. by rewrite Hrx.
Qed.

Lemma calling_step closed_s ws ans st cc e e' cc' new st' :
  calling closed_s ws ans st cc -> fits ws ans ->
  client_codec st cc e = Some (e', cc', new) -> client_step ord st e' = Some st' -> registered st' <= Word.modulus ->
  calling closed_s (ws ++ new) ans st' cc'.
Proof.
  intros Hcl Hans Hc Hs Hb. pose proof Hcl as [Hi Hsent Hcalls Honce (m & b & Hrd) Hgot].
  destruct (codec_step _ _ _ _ _ _ _ _ _ _ _ _ (ci_cpm _ Hi) Hans (fun id s => calling_fresh _ _ _ _ _ id s Hcl) Hrd Hc Hs) as [[E2 _ Hnew] Hrd'].
  split; [by eapply client_inv_step|by rewrite E2, Hsent, fmap_app, concat_app|..|done|].
  - intros w [?|Hw]%elem_of_app; [eapply sent_call_step; eauto|].
    destruct Hnew as [->|(w1 & -> & Hwr)]; [by apply elem_of_nil in Hw|]. apply list_elem_of_singleton in Hw. subst w1. by eapply sent_call_new.
  - destruct Hnew as [->|(w1 & -> & _ & Hp & _)]; [by rewrite app_nil_r|]. rewrite fmap_app. apply NoDup_app.
    split_and!; [done| |apply NoDup_singleton]. intros id (w & -> & Hw)%list_elem_of_fmap. simpl. rewrite list_elem_of_singleton.
    intros E. destruct (Hcalls w Hw) as (_ & Hpast & _). rewrite E in Hpast. by apply (Hpast _ Hp).
  - destruct (step_adds _ _ _ _ Hs) as (cos & Eco & Hfrom). intros co r. rewrite Eco. intros [Hco|Hco]%elem_of_app Hr.
    + eapply got_step; [done|done|done| |done|by apply Hgot]. set_solver.
    + eapply got_new; [done..| |by apply Hfrom|done]. set_solver.
Qed.

(** What the server sends leaves the calls alone. *)
Lemma calling_feed closed_s closed_s' ws ans new st cc l :
  calling closed_s ws ans st cc ->
  (forall m, (m <= length ans)%nat ->
     unread enc_answer ans m ++ eof closed_s ++ l = unread enc_answer (ans ++ new) m ++ eof closed_s') ->
  calling closed_s' ws (ans ++ new) st (client_feed cc l).
Proof.
  intros [Hi Hsent Hcalls Honce (m & b & Hrd) Hgot] Hl. split; try done.
  - rewrite wl_client_feed. unfold feed. by destruct (l_closed (client_link cc)).
  - exists m, b. by eapply reading_feed.
  - intros co r Hco Hr. eapply got_more; [|by apply Hgot]. set_solver.
Qed.
End client_side.
