(* ===== verification/EndToEndSafety.v ===== *)
(** * A call, end to end

    The invariants of the two sides put together: what the client writes is what
    the server has to read, what the server answers is what the client has to
    read, and both hold in every run of the composed system. *)
From S2P Require Import Prelude GoStd Utils Types FreeList Service Plugin Server ServerConn ServerSafety ServerProps ServerTypes Client ClientSafety ClientLedger ClientTrace RpcSpec Wire EndToEnd EndToEndServer EndToEndClient.

Section safety.
Context {V W CC SC M : Type} `{UnicodeTables}
  `{!ClientCodec V CC, !ServerCodec V SC, !Transfer V, !Wire V CC SC M, !WireSpec V CC SC M, !WireLaws V CC SC M}.
Context (ord : gmap string (Plugin V W) -> list (string * Plugin V W)).
Context (invalidRequest : V) (c0 : connid) (others : connid -> SC).

Abbreviation e2e := (@e2e V W CC SC).
Abbreviation step := (e2e_step ord invalidRequest c0 others).
#[local] Instance e2e_steps : LTS e2e (e2e_event (V := V)) := step.
Implicit Types (E : e2e) (σ : @sys V W SC) (id : callid) (w : wrote V) (x : exec V) (c : @Call V) (A : rpc (V := V)).

(** A client that is connected to a server: constructed with any registrations,
    started, and not more calls than there are sequence numbers. *)
Definition online E : Prop :=
  exists s s1 E0, prepared ord s ∧ Start s = Return s1 ∧ connected ord invalidRequest c0 others s1 E0 ∧
    reachable E0 E ∧ registered (e_client E) <= Word.modulus.

(** ** Both sides *)

Definition e2e_ok E : Prop :=
  serving c0 (l_closed (client_link (e_cc E))) (e_writes E) (e_execs E) (e_answers E) (e_sys E) ∧
  calling (l_closed (server_end c0 (e_sys E))) (e_writes E) (e_answers E) (e_client E) (e_cc E).

(** An answer is for a request. *)
Lemma serving_fits closed_c ws xs ans σ : serving c0 closed_c ws xs ans σ -> fits ws ans.
Proof.
  intros Hs. pose proof Hs as [_ _ (L & cn & cd & Hc & Hl & _ & _ & Ha) Hf Hu]. split; [|by eapply answers_NoDup|done|done].
  intros a (w & E & Hw & _)%Ha. exists w. split; [done|]. by eapply log_requests in Hw.
Qed.

(** The requests are told apart by their calls and by their numbers. *)
Lemma requests_differ closed_s ws ans st (cc : CC) w1 w2 :
  calling (V := V) (W := W) closed_s ws ans st cc -> w1 ∈ ws -> w2 ∈ ws ->
  w_call w1 = w_call w2 ∨ w_seq w1 = w_seq w2 -> w1 = w2.
Proof.
  intros Hcl H1 H2 Heq. assert (w_call w1 = w_call w2) as E1.
  { destruct Heq as [?|E]; [done|]. destruct (cl_calls _ _ _ _ _ Hcl w1 H1) as [S1 _]. destruct (cl_calls _ _ _ _ _ Hcl w2 H2) as [S2 _].
    eapply (nu_inj _ (ci_numbers _ (cl_inv _ _ _ _ _ Hcl))); [done|congruence]. }
  by eapply NoDup_fmap_inj; [apply (cl_once _ _ _ _ _ Hcl)|..].
Qed.

Lemma written_NoDup closed_s ws ans st (cc : CC) :
  calling (V := V) (W := W) closed_s ws ans st cc -> NoDup (w_seq <$> ws).
Proof.
  intros Hcl. apply NoDup_fmap_2_strong; [|by eapply NoDup_fmap_1, (cl_once _ _ _ _ _ Hcl)].
  intros w1 w2 H1 H2 E. eapply requests_differ; eauto.
Qed.

Lemma written_numbers closed_s ws ans st (cc : CC) w :
  calling (V := V) (W := W) closed_s ws ans st cc -> registered st <= Word.modulus -> w ∈ ws -> Word.is_u64 (w_seq w).
Proof.
  intros Hcl Hb Hw. destruct (cl_calls _ _ _ _ _ Hcl w Hw) as [Hs _].
  apply (nu_range _ (ci_numbers _ (cl_inv _ _ _ _ _ Hcl))) in Hs as [Hs _]. unfold Word.is_u64. lia.
Qed.

Lemma feed_server_closed σ l : l_closed (server_end c0 (feed_server c0 σ l)) = l_closed (server_end c0 σ).
Proof.
  unfold server_end, feed_server. simpl. rewrite lookup_alter_eq. destruct (conns σ !! c0) as [cn|]; [|done]. simpl.
  destruct (codec cn) as [cd|]; [|done]. simpl. rewrite wl_server_feed. unfold feed. by destruct (l_closed (server_link cd)) eqn:E.
Qed.

Lemma feed_client_closed (cc : CC) l : l_closed (client_link (client_feed cc l)) = l_closed (client_link cc).
Proof. rewrite wl_client_feed. unfold feed. by destruct (l_closed (client_link cc)) eqn:E. Qed.

Lemma e2e_ok_client E e E' : e2e_ok E -> client_side ord c0 E e = Some E' -> registered (e_client E') <= Word.modulus -> e2e_ok E'.
Proof.
  intros [Hsv Hcl] Hs Hb. unfold client_side in Hs. destruct (client_codec _ _ _) as [[[e' cc'] new]|] eqn:Hc; [|done].
  destruct (client_step ord (e_client E) e') as [st'|] eqn:Hst; simplify_eq. simpl in Hb.
  pose proof (serving_fits _ _ _ _ _ Hsv) as Hfit.
  assert (calling (l_closed (server_end c0 (e_sys E))) (e_writes E ++ new) (e_answers E) st' cc') as Hcl' by (by eapply calling_step).
  split; simpl; [|by rewrite feed_server_closed].
  eapply serving_feed; [done|by eapply written_NoDup|intros w Hw; by eapply written_numbers|]. intros n Hn.
  pose proof (cl_reading _ _ _ _ _ Hcl) as (m & b & Hrd).
  eapply (codec_news (e_client E)); [|apply Hcl|done].
  eapply codec_step; [apply Hcl|exact Hfit| |exact Hrd|done|done]. intros id s. by eapply calling_fresh.
Qed.

Lemma e2e_ok_server E e E' : e2e_ok E -> server_side ord invalidRequest c0 others E e = Some E' -> e2e_ok E'.
Proof.
  intros [Hsv Hcl] Hs. unfold server_side in Hs. destruct (enabled c0 (e_sys E) e) eqn:Hen; [|done].
  destruct (sys_step _ _ _ _ _ _) as [σ'|] eqn:Hst; simplify_eq. split; simpl.
  - rewrite feed_client_closed. by eapply serving_step.
  - eapply calling_feed; [exact Hcl|]. by eapply serving_news.
Qed.

Lemma e2e_ok_step E e E' : e2e_ok E -> step E e = Some E' -> registered (e_client E') <= Word.modulus -> e2e_ok E'.
Proof. destruct e; simpl; intros; [by eapply e2e_ok_client|by eapply e2e_ok_server]. Qed.

Lemma e2e_ok_connected s s1 E :
  prepared ord s -> Start s = Return s1 -> connected ord invalidRequest c0 others s1 E -> e2e_ok E.
Proof.
  intros (Hok & E1 & E2 & _ & E4)%prepared_ok Hst Hc.
  destruct (serving_connected ord invalidRequest c0 others s s1 E Hok E1 E2 E4 Hst Hc) as (Hsv & Hop & _).
  destruct Hc as (_ & σ & _ & ->). destruct wl_new_client as [Hl Hh]. unfold e2e_ok. simpl in *. rewrite Hl, Hop. split; simpl; [done|].
  split; simpl; rewrite ?Hl; [apply client_inv_init|done|by intros w ?%elem_of_nil|constructor| |by intros co r ?%elem_of_nil].
  exists 0%nat, None. split; simpl; rewrite ?Hl; done.
Qed.

(** The counter of calls only grows, so it is in bounds before when it is after. *)
Lemma e2e_registered E e E' : step E e = Some E' -> registered (e_client E) <= registered (e_client E').
Proof.
  destruct e as [e|e]; simpl; intros Hs.
  - unfold client_side in Hs. destruct (client_codec _ _ _) as [[[e' cc'] new]|]; [|done].
    destruct (client_step ord (e_client E) e') as [st'|] eqn:Hst; simplify_eq. simpl. by eapply registered_mono.
  - unfold server_side in Hs. destruct (enabled _ _ _); [|done]. by destruct (sys_step _ _ _ _ _ _); simplify_eq.
Qed.
End safety.
