(* ===== verification/EndToEndRefine.v ===== *)
(** * The refinement of the specification

    Every run of a client, a server and the connection between them is a run of
    [RpcSpec]: a simulation, one step of the composed system being none, one or
    (when the connection ends) many steps of the specification. *)
From S2P Require Import Prelude GoStd Utils Types FreeList Service Plugin Server ServerConn ServerSafety ServerProps ServerTypes Client ClientSafety ClientLedger ClientTrace RpcSpec Wire EndToEnd EndToEndServer EndToEndClient EndToEndSafety.

Section refine.
Context {V W CC SC M : Type} `{UnicodeTables}
  `{!ClientCodec V CC, !ServerCodec V SC, !Transfer V, !Wire V CC SC M, !WireSpec V CC SC M, !WireLaws V CC SC M}.
Implicit Types (id : callid) (w : wrote V) (ws : list (wrote V)) (x : exec V) (xs : list (exec V)) (c : @Call V)
  (cs : gmap callid (@Call V)) (s : Server V W) (ans : list (answer V)) (co : completion) (cos : list completion)
  (A : rpc (V := V)) (q : asked V) (o : result V).

(** ** The relation *)

Definition run_of x : run V := mkRun (x_meth x) (x_args x) (x_reply x) (x_err x).

(** How a result shows: in the error of the completed call and in its reply. *)
Definition result_of co c o : Prop :=
  match o with
  | Replied v => co_err co = None ∧ c_Reply c = v
  | Erred t | Rejected t => co_err co = Some (ServerError t)
  | Failed e => co_err co = Some e
  end.

(** A state of the specification and the services, the calls, the requests
    written, the methods run, the answers and the completions of the system. *)
Record implements A s cs ws xs ans cos : Prop := {
  im_offers : forall m T, offers A m T <-> takes s m T;
  im_issued : forall id q, issued A !! id = Some q -> exists c, cs !! id = Some c ∧
    a_method q = c_ServiceMethod c ∧ a_args q = c_Args c ∧
    (forall w, w ∈ ws -> w_call w = id -> a_into q = w_reply w) ∧ (id ∉ w_call <$> ws -> a_into q = c_Reply c);
  im_calls : forall id, is_Some (cs !! id) -> is_Some (issued A !! id);
  im_ran : forall id y, ran_for A !! id = Some y <->
    exists x w, x ∈ xs ∧ w ∈ ws ∧ w_call w = id ∧ x_for x = Some w ∧ y = run_of x;
  im_results : forall id o, results A !! id = Some o -> exists co c, co ∈ cos ∧ co_call co = id ∧ cs !! id = Some c ∧ result_of co c o;
  im_done : forall co, co ∈ cos -> is_Some (results A !! co_call co);
  im_rejected : forall id t, results A !! id = Some (Rejected t) ->
    exists a w, a ∈ ans ∧ w ∈ ws ∧ w_call w = id ∧ an_for a = Some w
}.

(** ** One history at a time *)

Lemma im_offer A s s' cs ws xs ans cos :
  implements A s cs ws xs ans cos -> grows s s' -> exists A', rpc_step A A' ∧ implements A' s' cs ws xs ans cos.
Proof.
  intros [H1 ? ? ? ? ? ?] Hg. eexists. split; [apply (rpc_offer A (takes s')); intros m T ?%H1; by eapply takes_grows|]. by split.
Qed.

(** A request is written. *)
Lemma im_write A s cs ws xs ans cos w c :
  implements A s cs ws xs ans cos -> cs !! w_call w = Some c -> c_Reply c = w_reply w -> w_call w ∉ w_call <$> ws ->
  (forall x, x ∈ xs -> x_for x <> Some w) -> implements A s cs (ws ++ [w]) xs ans cos.
Proof.
  intros [H1 H2 H3 H4 H5 H6 H7] Hc Hr Hn Hx. split; try done.
  - intros id q Hq. destruct (H2 id q Hq) as (c1 & Hc1 & ? & ? & Hw & Hnw). exists c1. split_and!; try done.
    + intros w1 [?|E%list_elem_of_singleton]%elem_of_app Ew; [auto|]. subst w1. rewrite <- Ew in Hc1, Hnw. rewrite Hnw by done. congruence.
    + rewrite fmap_app. intros Hn1. apply Hnw. set_solver.
  - intros id y. rewrite H4. split; intros (x & w1 & ? & Hw & ? & E & ?); exists x, w1; split_and!; try done; [set_solver|].
    apply elem_of_app in Hw as [?|E1%list_elem_of_singleton]; [done|]. subst w1. by destruct (Hx x).
  - intros id t (a & w1 & ? & ? & ?)%H7. exists a, w1. set_solver.
Qed.

(** Answers are written. *)
Lemma im_answer A s cs ws xs ans new cos : implements A s cs ws xs ans cos -> implements A s cs ws xs (ans ++ new) cos.
Proof. intros [H1 H2 H3 H4 H5 H6 H7]. split; try done. intros id t (a & w1 & ? & ? & ?)%H7. exists a, w1. set_solver. Qed.

(** Calls change: not their requests, not the reply before the request is
    written, and nothing once they are completed. *)
Lemma im_kept A s cs cs' ws xs ans cos :
  implements A s cs ws xs ans cos ->
  (forall id c, cs !! id = Some c -> exists c', cs' !! id = Some c' ∧ same_call c c' ∧
     (id ∉ w_call <$> ws -> c_Reply c' = c_Reply c) ∧ (id ∈ co_call <$> cos -> c' = c)) ->
  dom cs' = dom cs -> implements A s cs' ws xs ans cos.
Proof.
  intros [H1 H2 H3 H4 H5 H6 H7] Hk Hd. split; try done.
  - intros id q Hq. destruct (H2 id q Hq) as (c & Hc & ? & ? & ? & ?). destruct (Hk id c Hc) as (c' & Hc' & [? ?] & Hr & _).
    exists c'. split_and!; try congruence; [auto|]. intros Hn. rewrite Hr by done. auto.
  - intros id. rewrite <- elem_of_dom, Hd, elem_of_dom. auto.
  - intros id o Ho. destruct (H5 id o Ho) as (co & c & Hco & <- & Hc & Hr). destruct (Hk _ c Hc) as (c' & Hc' & _ & _ & Hf).
    rewrite Hf in Hc' by (by apply list_elem_of_fmap_2). by exists co, c.
Qed.

(** A call is issued. *)
Lemma im_issue A s cs ws xs ans cos id c :
  implements A s cs ws xs ans cos -> cs !! id = None -> id ∉ w_call <$> ws ->
  exists A', rpc_step A A' ∧ implements A' s (<[id := c]> cs) ws xs ans cos.
Proof.
  intros [H1 H2 H3 H4 H5 H6 H7] Hn Hnw. set (q := mkAsked (c_ServiceMethod c) (c_Args c) (c_Reply c)).
  assert (issued A !! id = None) as Hi.
  { destruct (issued A !! id) as [q1|] eqn:Hq; [|done]. destruct (H2 id q1 Hq) as (c1 & ? & _). congruence. }
  eexists. split; [by apply (rpc_issue A id q)|]. split; simpl; try done.
  - intros i q1. rewrite !lookup_insert. case_decide; [|apply H2]. subst i. intros [= <-]. exists c. split_and!; try done.
    intros w Hw Ew. destruct Hnw. apply list_elem_of_fmap. by exists w.
  - intros i. rewrite !lookup_insert. case_decide; [by eexists|apply H3].
  - intros i o Ho. destruct (H5 i o Ho) as (co & c1 & ? & ? & Hc1 & ?). exists co, c1.
    rewrite lookup_insert_ne by congruence. done.
Qed.

(** A method is run. *)
Lemma im_run A s cs ws xs ans cos w x c :
  implements A s cs ws xs ans cos -> w ∈ ws -> cs !! w_call w = Some c -> c_ServiceMethod c = w_method w -> c_Args c = w_args w ->
  (forall w1, w1 ∈ ws -> w_call w1 = w_call w -> w1 = w) ->
  x_for x = Some w -> invoked s w (x_meth x) (x_args x) ->
  (forall x1, x1 ∈ xs -> x_for x1 <> x_for x) -> (forall a, a ∈ ans -> an_for a <> x_for x) ->
  exists A', rpc_step A A' ∧ implements A' s cs ws (xs ++ [x]) ans cos.
Proof.
  intros [H1 H2 H3 H4 H5 H6 H7] Hw Hc Hm Ha Hu Hx (Hsp & T & arg & rv & Ht & Hd & Hargs) Hnx Hna.
  destruct (H3 (w_call w)) as [q Hq]; [by eexists|]. destruct (H2 _ _ Hq) as (c1 & Hc1 & Em & Ea & _). assert (c1 = c) as -> by congruence.
  assert (ran_for A !! w_call w = None) as Hran.
  { destruct (ran_for A !! w_call w) as [y|] eqn:Hy; [|done]. apply H4 in Hy as (x1 & w1 & Hx1 & Hw1 & Ew & Ex & _).
    assert (w1 = w) as -> by (apply Hu; auto). destruct (Hnx x1 Hx1). congruence. }
  eexists. split; [apply (rpc_run A (w_call w) q (run_of x)); try done|].
  - intros t Ht1. destruct (H7 _ _ Ht1) as (a & w1 & Ha1 & Hw1 & Ew & Eh). assert (w1 = w) as -> by (apply Hu; auto).
    destruct (Hna a Ha1). congruence.
  - split; [simpl; congruence|]. exists T, arg, rv. simpl. split_and!; [by apply H1|congruence|done].
  - split; simpl; try done. intros id y. rewrite lookup_insert. case_decide as E.
    + subst id. split; [intros [= <-]; exists x, w; set_solver|]. intros (x1 & w1 & Hx1 & Hw1 & Ew & Ex & ->).
      assert (w1 = w) as -> by (apply Hu; auto). apply elem_of_app in Hx1 as [Hx1|E%list_elem_of_singleton]; [|by subst].
      destruct (Hnx x1 Hx1). congruence.
    + rewrite H4. split; intros (x1 & w1 & Hx1 & Hw1 & Ew & Ex & ?); exists x1, w1; split_and!; try done; [set_solver|].
      apply elem_of_app in Hx1 as [Hx1|E1%list_elem_of_singleton]; [done|]. subst x1. destruct E.
      assert (w1 = w) as -> by congruence. congruence.
Qed.

(** A call is completed. *)
Lemma im_complete A s cs ws xs ans cos co c o :
  implements A s cs ws xs ans cos -> cs !! co_call co = Some c -> co_call co ∉ co_call <$> cos -> result_of co c o ->
  (forall q, issued A !! co_call co = Some q -> allowed A (co_call co) q o) ->
  (forall t, o = Rejected t -> exists a w, a ∈ ans ∧ w ∈ ws ∧ w_call w = co_call co ∧ an_for a = Some w) ->
  exists A', rpc_step A A' ∧ implements A' s cs ws xs ans (cos ++ [co]).
Proof.
  intros [H1 H2 H3 H4 H5 H6 H7] Hc Hn Hr Ha Hrej. destruct (H3 (co_call co)) as [q Hq]; [by eexists|].
  assert (results A !! co_call co = None) as Hnone.
  { destruct (results A !! co_call co) as [o1|] eqn:Ho; [|done]. destruct (H5 _ _ Ho) as (co1 & c1 & Hco & E & _).
    destruct Hn. rewrite <- E. by apply list_elem_of_fmap_2. }
  eexists. split; [by eapply (rpc_complete A (co_call co) q o); auto|]. split; simpl; try done.
  - intros id o1. rewrite lookup_insert. case_decide.
    + subst id. intros [= <-]. exists co, c. set_solver.
    + intros (co1 & c1 & ? & ? & ? & ?)%H5. exists co1, c1. set_solver.
  - intros co1 [Hco|E%list_elem_of_singleton]%elem_of_app; rewrite lookup_insert; case_decide; try by eexists; auto.
    + auto.
    + subst. done.
  - intros id t. rewrite lookup_insert. case_decide; [|apply H7]. subst id. intros [= E]. by eapply Hrej.
Qed.

(** What a completion stands for. *)
Lemma completion_result A s cs ws xs ans cos co c sq :
  implements A s cs ws xs ans cos -> outcome_ok sq co ->
  (forall w1 w2, w1 ∈ ws -> w2 ∈ ws -> w_call w1 = w_call w2 -> w1 = w2) ->
  (forall a w, a ∈ ans -> an_for a = Some w -> settled xs w (resp_Error (an_resp a)) (an_reply a)) ->
  (forall r, co_resp co = Some r -> exists a w, a ∈ ans ∧ an_for a = Some w ∧ r = seen w (resp_Error (an_resp a)) ∧
     w ∈ ws ∧ w_call w = co_call co ∧ (co_err co = None -> tr_reply (w_reply w) (an_reply a) = inl (c_Reply c))) ->
  exists o, result_of co c o ∧ (forall q, issued A !! co_call co = Some q -> allowed A (co_call co) q o) ∧
    (forall t, o = Rejected t -> exists a w, a ∈ ans ∧ w ∈ ws ∧ w_call w = co_call co ∧ an_for a = Some w).
Proof.
  intros [H1 H2 H3 H4 H5 H6 H7] Hout Hu Hset Hgot. unfold outcome_ok in Hout. destruct (co_resp co) as [r|].
  2:{ destruct (co_err co) as [e|] eqn:He; [|done]. by exists (Failed e). }
  destruct (Hgot r eq_refl) as (a & w & Ha & Eh & -> & Hw & Ew & Hdec). destruct Hout as [_ Hout]. simpl in Hout.
  destruct (Hset a w Ha Eh) as [(x & Hx & Ex & Et & Hrep)|[Hne Hnx]].
  - assert (ran_for A !! co_call co = Some (run_of x)) as Hran by (apply H4; exists x, w; split_and!; congruence).
    case_bool_decide as Hemp.
    + apply tr_text_empty in Hemp. destruct Hout as [He|[e He]]; [|by eexists (Failed _)]. exists (Replied (c_Reply c)). split_and!; try done.
      intros q Hq. exists (run_of x). simpl. split_and!; [done|congruence|]. destruct (H2 _ _ Hq) as (_ & _ & _ & _ & Hinto & _).
      rewrite (Hinto w Hw Ew), <- Hrep by done. auto.
    + exists (Erred (tr_text V (resp_Error (an_resp a)))). split_and!; [done|by exists (run_of x); rewrite Et in *|done].
  - assert (tr_text V (resp_Error (an_resp a)) <> "") as Hne' by (by rewrite tr_text_empty).
    rewrite bool_decide_eq_false_2 in Hout by done. exists (Rejected (tr_text V (resp_Error (an_resp a)))). split_and!; [done| |by exists a, w].
    intros q Hq. split; [|done]. destruct (ran_for A !! co_call co) as [y|] eqn:Hy; [|done].
    apply H4 in Hy as (x1 & w1 & Hx1 & Hw1 & Ew1 & Ex1 & _). destruct (Hnx x1 Hx1). rewrite Ex1.
    f_equal. apply Hu; congruence.
Qed.

(** ** The simulation *)
Section simulation.
Context (ord : gmap string (Plugin V W) -> list (string * Plugin V W)).
Context (invalidRequest : V) (c0 : connid) (others : connid -> SC).
Abbreviation e2e := (@e2e V W CC SC).
Implicit Types (E : e2e).

Definition refines A E : Prop :=
  implements A (srv (e_sys E)) (calls (e_client E)) (e_writes E) (e_execs E) (e_answers E) (completed (e_client E)).

(** The call that [receive] has a response for was written. *)
Lemma rx_written E r id :
  e2e_ok c0 E -> rx (e_client E) = RxBody r (Some id) -> id ∈ w_call <$> e_writes E.
Proof.
  intros [Hsv Hcl] Hrx. pose proof (ci_numbers _ (cl_inv _ _ _ _ _ Hcl)) as Hn. destruct (cl_reading _ _ _ _ _ Hcl) as (m & b & Hrd).
  destruct (rd_resp _ _ _ _ _ _ _ Hrd r) as (a & w & Ha & Ew & _ & -> & _); [by rewrite Hrx|].
  apply list_elem_of_lookup_2 in Ha. destruct (ft_for _ _ (serving_fits _ _ _ _ _ _ Hsv) a Ha) as (w1 & E1 & Hw).
  assert (w1 = w) as -> by congruence. pose proof (nu_rx _ Hn (seen w (resp_Error (an_resp a))) id) as Hseq. rewrite Hrx in Hseq. specialize (Hseq eq_refl).
  destruct (cl_calls _ _ _ _ _ Hcl w Hw) as [Hsw _]. apply list_elem_of_fmap. exists w. split; [|done]. by eapply (nu_inj _ Hn).
Qed.

(** The completions of a step, one after the other. *)
Lemma sim_completions E' l : e2e_ok c0 E' -> forall A cos,
  (forall co, co ∈ l -> co ∈ completed (e_client E')) -> NoDup (co_call <$> (cos ++ l)) ->
  implements A (srv (e_sys E')) (calls (e_client E')) (e_writes E') (e_execs E') (e_answers E') cos ->
  exists A', rtc rpc_step A A' ∧
    implements A' (srv (e_sys E')) (calls (e_client E')) (e_writes E') (e_execs E') (e_answers E') (cos ++ l).
Proof.
  intros Hok. pose proof Hok as [Hsv Hcl]. pose proof (cl_inv _ _ _ _ _ Hcl) as Hi.
  induction l as [|co l IH]; intros A cos Hin Hnd Him; [exists A; rewrite app_nil_r; by split|].
  assert (co ∈ completed (e_client E')) as Hco by (apply Hin; set_solver).
  assert (is_Some (calls (e_client E') !! co_call co)) as [c Hc].
  { apply elem_of_dom, (finished_issued _ _ (ci_books _ Hi)). by apply list_elem_of_fmap_2. }
  destruct (completion_result A _ _ _ _ _ _ co c (seq_of (e_client E')) Him) as (o & Hr & Hal & Hrej).
  - by apply (le_completed _ (ci_ledger _ Hi)).
  - intros w1 w2 H1 H2 Ew. eapply requests_differ; eauto.
  - intros a w Ha Ew. pose proof (sv_link _ _ _ _ _ _ Hsv) as (L & cn & cd & _ & _ & _ & _ & Hans).
    destruct (Hans a Ha) as (w1 & E1 & _ & Hset). by assert (w1 = w) as -> by congruence.
  - intros r Hresp. destruct (cl_got _ _ _ _ _ Hcl co r Hco Hresp) as (a & w & ? & ? & ? & ? & ? & Hd). exists a, w. split_and!; try done.
    intros He. destruct (Hd He) as (c1 & Hc1 & ?). congruence.
  - destruct (im_complete A _ _ _ _ _ _ co c o Him Hc) as (A1 & Hs1 & Him1); [|done..|].
    { rewrite fmap_app in Hnd. apply NoDup_app in Hnd as (_ & Hnd & _). intros Hx. apply (Hnd _ Hx). simpl. set_solver. }
    destruct (IH A1 (cos ++ [co])) as (A2 & Hs2 & Him2); [intros; apply Hin; set_solver|by rewrite <- (assoc_L (++))|done|].
    rewrite <- (assoc_L (++)) in Him2. exists A2. split; [by eapply rtc_l|done].
Qed.

(** A method is run for a request. *)
Lemma exec_request closed_c ws xs ans (σ : @sys V W SC) x :
  serving c0 closed_c ws xs ans σ -> x ∈ xs -> exists w, x_for x = Some w ∧ w ∈ ws ∧ invoked (srv σ) w (x_meth x) (x_args x).
Proof.
  intros [_ _ (L & cn & cd & _ & Hl & _ & [Hex _] & _) _ _] (w & E & (p & -> & Hp)%list_elem_of_fmap & Hinv)%Hex.
  exists p.2. split_and!; [done| |done]. by eapply log_requests.
Qed.

(** The requests of a step. *)
Lemma sim_writes A E E' e cc' new :
  e2e_ok c0 E -> e2e_ok c0 E' -> refines A E -> e_writes E' = e_writes E ++ new ->
  codec_effect (e_client E) (e_cc E) e cc' new ->
  implements A (srv (e_sys E)) (calls (e_client E)) (e_writes E ++ new) (e_execs E) (e_answers E) (completed (e_client E)).
Proof.
  intros [Hsv Hcl] [Hsv' Hcl'] Him Ew [_ _ [->|(w & -> & _ & _ & c & Hcw & _ & _ & Hr)]]; [by rewrite app_nil_r|].
  pose proof (cl_once _ _ _ _ _ Hcl') as Honce. pose proof (sv_fresh _ _ _ _ _ _ Hsv') as Hfresh. rewrite Ew in Honce, Hfresh.
  eapply im_write; [done|done|done|..].
  - intros (w1 & E1 & Hw1)%list_elem_of_fmap. by eapply NoDup_fmap_snoc; [exact Honce|exact Hw1|].
  - intros x Hx Ex. destruct (exec_request _ _ _ _ _ _ Hsv Hx) as (w1 & E1 & Hw1 & _). assert (w1 = w) as -> by congruence.
    by eapply NoDup_fmap_snoc; [exact Hfresh|exact Hw1|].
Qed.

(** The calls of a step: one is issued, or they change as they may. *)
Lemma sim_calls A E e' st' ws :
  e2e_ok c0 E -> client_step ord (e_client E) e' = Some st' ->
  (forall w, w ∈ e_writes E -> w ∈ ws) -> (forall w, w ∈ ws -> is_Some (calls (e_client E) !! w_call w)) ->
  implements A (srv (e_sys E)) (calls (e_client E)) ws (e_execs E) (e_answers E) (completed (e_client E)) ->
  exists A', rtc rpc_step A A' ∧
    implements A' (srv (e_sys E)) (calls st') ws (e_execs E) (e_answers E) (completed (e_client E)).
Proof.
  intros Hok Hst Hsub Hcalled Him. pose proof Hok as [_ Hcl]. pose proof (cl_inv _ _ _ _ _ Hcl) as Hi.
  pose proof (effect_step _ _ _ _ Hi Hst) as He. destruct (effect_dom _ _ He) as [Hd|(id & c & Hn & -> & _)].
  - exists A. split; [done|]. eapply im_kept; [done| |done]. intros id c Hid.
    destruct (step_same_call ord id _ _ _ Hst c Hid) as (c' & Hc' & Hsame). exists c'. split_and!; [done|done|..].
    + intros Hnw. assert (forall r, rx (e_client E) <> RxBody r (Some id)) as Hrx.
      { intros r Hrx. apply Hnw. apply (rx_written _ _ _ Hok), list_elem_of_fmap in Hrx as (w & -> & Hw).
        apply list_elem_of_fmap_2. auto. }
      destruct (step_same_reply ord id _ _ _ Hrx Hst c Hid) as (c2 & ? & ?). congruence.
    + intros Hf. rewrite (effect_frozen _ _ _ Hi He Hf) in Hc'. congruence.
  - destruct (im_issue A _ _ _ _ _ _ id c Him Hn) as (A1 & ? & ?).
    + intros (w & -> & Hw)%list_elem_of_fmap. destruct (Hcalled w Hw). congruence.
    + exists A1. split; [by eapply rtc_once|done].
Qed.

Lemma sim_client A E e E' :
  e2e_ok c0 E -> e2e_ok c0 E' -> refines A E -> client_side ord c0 E e = Some E' -> exists A', rtc rpc_step A A' ∧ refines A' E'.
Proof.
  intros Hok Hok' Him Hs. pose proof Hok as [Hsv Hcl]. pose proof Hok' as [Hsv' Hcl']. unfold client_side in Hs.
  destruct (client_codec _ _ _) as [[[e' cc'] new]|] eqn:Hc; [|done].
  destruct (client_step ord (e_client E) e') as [st'|] eqn:Hst; [|done]. injection Hs as <-.
  assert (codec_effect (e_client E) (e_cc E) e' cc' new) as Heff.
  { destruct (cl_reading _ _ _ _ _ Hcl) as (m & b & Hrd).
    eapply codec_step; [apply Hcl|exact (serving_fits _ _ _ _ _ _ Hsv)|intros id s; by eapply calling_fresh|exact Hrd|done|done]. }
  pose proof (sim_writes A E _ e' cc' new Hok Hok' Him eq_refl Heff) as Him1.
  destruct (sim_calls A E e' st' (e_writes E ++ new) Hok Hst) as (A1 & Hs1 & Him2); [set_solver| |done|].
  { intros w [Hw|Hw]%elem_of_app; [destruct (cl_calls _ _ _ _ _ Hcl w Hw) as (_ & _ & c & ? & _); eauto|].
    destruct Heff as [_ _ [->|(w1 & -> & _ & _ & c & ? & _)]]; [by apply elem_of_nil in Hw|].
    apply list_elem_of_singleton in Hw. subst; eauto. }
  destruct (step_adds _ _ _ _ Hst) as (l & El & _).
  destruct (sim_completions _ l Hok' A1 (completed (e_client E))) as (A2 & Hs2 & Him3); simpl.
  - intros co Hco. rewrite El. set_solver.
  - rewrite <- El. apply (finished_NoDup st'), (cl_inv _ _ _ _ _ Hcl').
  - done.
  - exists A2. split; [by etrans|]. unfold refines. simpl. by rewrite El.
Qed.

(** What is run is run for a request that was not answered. *)
Lemma ran_unanswered closed_c ws xs ans (σ : @sys V W SC) e σ' x a :
  serving c0 closed_c ws xs ans σ -> sys_step ord invalidRequest (dialled c0 others) (dialled c0 others) σ e = Some σ' ->
  x ∈ ran c0 ws σ e -> a ∈ ans -> an_for a <> x_for x.
Proof.
  intros Hsv Hst Hx Ha. unfold ran in Hx. destruct e as [| | |c h reply err|]; try by apply elem_of_nil in Hx.
  simpl in Hst. unfold method_returns in Hst. destruct (gs σ !! (c, h)) as [g|] eqn:Hg; [|done].
  destruct (g_pc g) as [| | |q| | | | | | | | | |] eqn:Hpc; try done. case_bool_decide; [|by apply elem_of_nil in Hx]. subst c.
  apply list_elem_of_singleton in Hx. subst x. simpl. pose proof (sv_link _ _ _ _ _ _ Hsv) as (L & cn & cd & Hc & Hl & Hj & _ & Hans).
  pose proof (Hj h g Hg) as Hjob. unfold job_ok in Hjob. rewrite Hpc in Hjob. destruct Hjob as (w & Hw & _).
  rewrite (request_of_log _ _ _ _ _ _ _ _ _ _ Hc Hl Hw). eapply answered_once; [done..| | |done|done]; [|done].
  unfold owes. by rewrite bool_decide_eq_true_2, Hpc.
Qed.

Lemma ran_one ws (σ : @sys V W SC) e : ran c0 ws σ e = [] ∨ exists x, ran c0 ws σ e = [x].
Proof. unfold ran. destruct e; auto. destruct (gs σ !! _); auto. case_bool_decide; eauto. Qed.

Lemma sim_server A E e E' :
  e2e_ok c0 E -> e2e_ok c0 E' -> refines A E -> server_side ord invalidRequest c0 others E e = Some E' ->
  exists A', rtc rpc_step A A' ∧ refines A' E'.
Proof.
  intros [Hsv Hcl] Hok' Him Hs. pose proof Hok' as [Hsv' Hcl']. unfold server_side in Hs.
  destruct (enabled c0 (e_sys E) e) eqn:Hen; [|done]. destruct (sys_step _ _ _ _ _ _) as [σ'|] eqn:Hst; [|done]. injection Hs as <-.
  destruct (im_offer A _ (srv σ') _ _ _ _ _ Him) as (A1 & Hs1 & Him1); [by eapply step_grows; [apply Hsv|]|].
  unfold refines. simpl. destruct (ran_one (e_writes E) (e_sys E) e) as [Hr|[x Hr]].
  { rewrite Hr, app_nil_r. exists A1. split; [by apply rtc_once|]. by apply im_answer. }
  pose proof (sv_link _ _ _ _ _ _ Hsv') as (L & cn & cd & _ & _ & _ & [_ Hnd] & _). simpl in Hnd.
  destruct (exec_request _ _ _ _ _ x Hsv') as (w & Ex & Hw & Hinv); [simpl; rewrite Hr; set_solver|].
  destruct (cl_calls _ _ _ _ _ Hcl w Hw) as (_ & _ & c & Hc & Hm & Ha & _).
  destruct (im_run A1 _ _ _ _ _ _ w x c Him1 Hw Hc Hm Ha) as (A2 & Hs2 & Him2); [..|done|done| | |].
  - intros w1 Hw1 Heq. eapply (requests_differ _ _ _ _ _ w1 w Hcl); auto.
  - intros x1. rewrite Hr in Hnd. by apply NoDup_fmap_snoc.
  - intros a Hin. eapply (ran_unanswered _ _ _ _ _ _ _ _ _ Hsv Hst); [rewrite Hr; set_solver|exact Hin].
  - exists A2. rewrite Hr. split; [by eapply rtc_l, rtc_once|]. by apply im_answer.
Qed.

#[local] Instance e2e_moves : LTS e2e (e2e_event (V := V)) := e2e_step ord invalidRequest c0 others.

Lemma refines_connected s E : connected ord invalidRequest c0 others s E -> refines (idle (takes s)) E.
Proof.
  intros (_ & σ & Hacc & ->). unfold accept in Hacc. simpl in Hacc.
  assert (serviceMap (srv σ) = serviceMap s) as Es by (repeat case_match; by simplify_eq).
  split; simpl; try (by intros *; rewrite lookup_empty).
  - intros m T. unfold takes, has. by rewrite Es.
  - intros id y. rewrite lookup_empty. split; [done|]. by intros (x & w & ?%elem_of_nil & _).
  - by intros co ?%elem_of_nil.
Qed.

Lemma online_refines E : online ord invalidRequest c0 others E ->
  e2e_ok c0 E ∧ exists offer A, rtc rpc_step (idle offer) A ∧ refines A E.
Proof.
  intros (s & s1 & E0 & Hp & Hst & Hc & Hr & Hb). revert Hb.
  induction Hr as [|E e E' Hr IH Hs]; intros Hb.
  - split; [by eapply (e2e_ok_connected ord invalidRequest c0 others s s1)|]. exists (takes s1), (idle (takes s1)).
    split; [done|]. by apply refines_connected.
  - destruct IH as (Hok & offer & A & Ha & Him); [pose proof (e2e_registered ord invalidRequest c0 others _ _ _ Hs); lia|].
    assert (e2e_ok c0 E') as Hok' by (by eapply (e2e_ok_step ord invalidRequest c0 others)). split; [done|]. exists offer.
    assert (exists A', rtc rpc_step A A' ∧ refines A' E') as (A' & ? & ?).
    { destruct e as [e|e]; [by eapply (sim_client A E e)|by eapply (sim_server A E e)]. }
    exists A'. split; [by etrans|done].
Qed.
End simulation.
End refine.
