(* ===== verification/EndToEndAlive.v ===== *)
(** * While the client is open

    As long as the client has not been closed, nothing ends on either side: no
    request fails, [receive] stays in its loop, and so does the reader of the
    server's connection.  And a call that is pending has its request on the way:
    to be written, to be read, being served, or its answer is still to be read. *)
From S2P Require Import Prelude GoStd Utils Types FreeList Service Plugin Server ServerConn ServerSafety ServerProps ServerTypes Client ClientSafety ClientLedger ClientProps ClientTrace RpcSpec Wire EndToEnd EndToEndServer EndToEndClient EndToEndSafety.

Section alive.
Context {V W CC SC M : Type} `{UnicodeTables}
  `{!ClientCodec V CC, !ServerCodec V SC, !Transfer V, !Wire V CC SC M, !WireSpec V CC SC M, !WireLaws V CC SC M}.
Context (ord : gmap string (Plugin V W) -> list (string * Plugin V W)).
Context (invalidRequest : V) (c0 : connid) (others : connid -> SC).

Abbreviation client := (@client V W).
Abbreviation e2e := (@e2e V W CC SC).
Abbreviation sys := (@sys V W SC).
Implicit Types (E : e2e) (st : client) (cc : CC) (id : callid) (w : wrote V) (ws : list (wrote V))
  (ans : list (answer V)) (σ : sys) (m : nat) (b : option (string * V)).

(** ** The client *)

(** The positions of a sender whose request does not fail. *)
Definition going (p : send_pc) : bool :=
  match p with SLock | SRegister | SWrite _ | SUnlock => true | _ => false end.

(** [receive] is in its loop. *)
Definition in_loop (p : rx_pc) : bool :=
  match p with RxRead | RxPop _ | RxHooks _ _ | RxBody _ _ => true | _ => false end.

(** Of [m] answers whose headers were read, those whose calls were taken out of
    [pending]. *)
Definition popped m (p : rx_pc) : nat := match p with RxPop _ => pred m | _ => m end.

Definition rx_at ws ans st cc m b : Prop :=
  reading false ws ans (rx st) cc m b ∧ in_loop (rx st) = true ∧
  forall i a w, (i < popped m (rx st))%nat -> ans !! i = Some a -> an_for a = Some w -> pending st !! w_seq w = None.

Record listening ws ans st cc : Prop := {
  li_senders : forall id p, senders st !! id = Some p -> going p = true;
  li_open : l_closed (client_link cc) = false;
  li_pending : forall s id, pending st !! s = Some id ->
    senders st !! id = Some (SWrite s) ∨ exists w, w ∈ ws ∧ w_call w = id ∧ w_seq w = s;
  li_rx : exists m b, rx_at ws ans st cc m b
}.

Lemma listening_shutdown ws ans st cc : excl st -> listening ws ans st cc -> shutdown st = false.
Proof. intros Hx [_ _ _ (m & b & _ & Hl & _)]. rewrite (ex_shutdown _ Hx). by destruct (rx st). Qed.

(** Senders and [pending] change; [receive] does not. *)
Lemma listening_send ws ws' ans st st' cc cc' m b :
  fits ws ans -> rx_at ws ans st cc m b -> rx st' = rx st -> reading false ws' ans (rx st) cc' m b -> l_closed (client_link cc') = false ->
  (forall id p, senders st' !! id = Some p -> going p = true) ->
  (forall s id, pending st' !! s = Some id ->
     senders st' !! id = Some (SWrite s) ∨ exists w, w ∈ ws' ∧ w_call w = id ∧ w_seq w = s) ->
  (forall w, w ∈ ws -> pending st !! w_seq w = None -> pending st' !! w_seq w = None) ->
  listening ws' ans st' cc'.
Proof.
  intros Hf (_ & Hl & Hp) E1 Hrd Hcl Hs Hpend Hnew. split; [done|done|done|]. exists m, b. unfold rx_at. rewrite E1. split_and!; [done..|].
  intros i a w Hi Hia Ew. apply Hnew; [|by eapply Hp]. apply list_elem_of_lookup_2 in Hia.
  destruct (ft_for _ _ Hf a Hia) as (w1 & E & ?). by assert (w1 = w) as <- by congruence.
Qed.

(** [receive] moves. *)
Lemma listening_rx ws ans st st' cc cc' m b :
  listening ws ans st cc -> senders st' = senders st -> (forall s id, pending st' !! s = Some id -> pending st !! s = Some id) ->
  l_closed (client_link cc') = false -> rx_at ws ans st' cc' m b -> listening ws ans st' cc'.
Proof.
  intros [Hs _ Hp _] E1 E2 Hcl Ha. split; [by rewrite E1|done| |by exists m, b].
  intros s id Hid. rewrite E1. by apply Hp, E2.
Qed.

(** The next number is not that of a request. *)
Lemma fresh_number closed_s ws ans st cc w :
  calling closed_s ws ans st cc -> registered st + 1 <= Word.modulus -> w ∈ ws -> seq st <> w_seq w.
Proof.
  intros Hcl Hb Hw E. destruct (cl_calls _ _ _ _ _ Hcl w Hw) as [Hs _].
  destruct (ci_numbers _ (cl_inv _ _ _ _ _ Hcl)) as [[Hq H0'] _ Hr _ _ _]. apply Hr in Hs as [Hs _].
  rewrite Word.u64_small in Hq; [|unfold Word.is_u64]; lia.
Qed.

(** A sender moves on from [p] to [p'], and its request may have become written. *)
Lemma listening_sender ws new ans st st' cc cc' m b id p p' :
  fits ws ans -> listening ws ans st cc -> rx_at ws ans st cc m b -> senders st !! id = Some p ->
  senders st' = <[id := p']> (senders st) -> going p' = true -> pending st' = pending st -> rx st' = rx st ->
  reading false (ws ++ new) ans (rx st) cc' m b -> l_closed (client_link cc') = false ->
  (forall s, p = SWrite s -> exists w, w ∈ new ∧ w_call w = id ∧ w_seq w = s) -> listening (ws ++ new) ans st' cc'.
Proof.
  intros Hf Hl Hat Hp E1 Hg E2 E3 Hrd Hcl Hw. eapply listening_send; [exact Hf|exact Hat|done|done|done| | |].
  - intros i p1. rewrite E1, lookup_insert. case_decide; [by intros [= <-]|apply Hl].
  - intros s i Hi. rewrite E2 in Hi. rewrite E1, lookup_insert. destruct (li_pending _ _ _ _ Hl s i Hi) as [Hs|(w & ? & ? & ?)].
    + case_decide; [subst i|by left]. right. destruct (Hw s) as (w & ? & ? & ?); [congruence|]. exists w. set_solver.
    + right. exists w. set_solver.
  - intros w _. by rewrite E2.
Qed.

Lemma listening_register closed_s ws ans st cc id :
  calling closed_s ws ans st cc -> fits ws ans -> listening ws ans st cc -> senders st !! id = Some SRegister -> closing st = false ->
  registered (register_call st id) <= Word.modulus -> listening ws ans (register_call st id) cc.
Proof.
  intros Hcl Hans Hl Hp Hc Hb. pose proof (listening_shutdown _ _ _ _ (ci_excl _ (cl_inv _ _ _ _ _ Hcl)) Hl) as Hsd.
  destruct (li_rx _ _ _ _ Hl) as (m & b & Hat). pose proof Hat as [Hrd _].
  unfold register_call in *. rewrite Hsd, Hc in *. simpl in *. eapply listening_send; [exact Hans|exact Hat|done|done|apply Hl|..]; simpl.
  - intros i p1. rewrite lookup_insert. case_decide; [by intros [= <-]|apply Hl].
  - intros s i. rewrite !lookup_insert. case_decide as E.
    + intros [= <-]. left. rewrite decide_True by done. by rewrite E.
    + intros Hi. destruct (li_pending _ _ _ _ Hl s i Hi) as [Hs|?]; [|by right]. left. rewrite decide_False; [done|]. congruence.
  - intros w Hw Hn. rewrite lookup_insert_ne; [done|]. by eapply fresh_number.
Qed.

Lemma listening_send_step closed_s ws ans st cc id a e' cc' new st' :
  calling closed_s ws ans st cc -> fits ws ans ->
  listening ws ans st cc -> client_codec st cc (EvSend id a) = Some (e', cc', new) -> client_step ord st e' = Some st' ->
  closing st' = false -> registered st' <= Word.modulus -> listening (ws ++ new) ans st' cc'.
Proof.
  intros Hcl Hans Hl Hc Hs Hclo Hb. simpl in Hc. pose proof (li_open _ _ _ _ Hl) as Hop. pose proof (li_senders _ _ _ _ Hl id) as Hgo.
  destruct (li_rx _ _ _ _ Hl) as (m & b & Hat). pose proof Hat as [Hrd _].
  destruct (senders st !! id) as [p|] eqn:Hp; [|simplify_eq; simpl in Hs; unfold send_step in Hs; by rewrite Hp in Hs].
  specialize (Hgo p eq_refl). destruct p as [| | |s| | |]; try done.
  - simplify_eq. simpl in Hs. unfold send_step in Hs. rewrite Hp in Hs. destruct (reqMutex st); simplify_eq.
    by eapply (listening_sender _ _ _ _ _ _ _ m b id SLock); rewrite ?app_nil_r.
  - simplify_eq. simpl in Hs. unfold send_step in Hs. rewrite Hp in Hs. simplify_eq. rewrite app_nil_r.
    eapply listening_register; [done..| |done]. unfold register_call in Hclo. by destruct (_ || _).
  - destruct (calls st !! id) as [c|] eqn:Hcall.
    2:{ exfalso. apply (ex_calls _ (ci_excl _ (cl_inv _ _ _ _ _ Hcl))) in Hp. apply elem_of_dom in Hp as [? ?]. congruence. }
    destruct (reading_write _ _ _ _ _ _ _ (mkWrote id s (c_ServiceMethod c) (c_Args c) (c_Reply c)) (req_next (request st)) Hrd) as
      (cc1 & err & Hw & Herr & Hop1 & _ & Hrd'); [by eapply calling_fresh|]. simpl in Hw. rewrite Hw in Hc.
    rewrite (proj2 Herr Hop) in *. simplify_eq. simpl in Hs. unfold send_step in Hs. rewrite Hp in Hs. simplify_eq.
    eapply (listening_sender _ _ _ _ _ _ _ m b id (SWrite s)); [done..|congruence|].
    intros s1 [= <-]. eexists. split; [apply list_elem_of_here|done].
  - simplify_eq. simpl in Hs. unfold send_step in Hs. rewrite Hp in Hs. simplify_eq. rewrite app_nil_r.
    eapply listening_send; [exact Hans|exact Hat|done|done|done| | |done]; simpl.
    + intros i p1 [_ ?]%lookup_delete_Some. by eapply Hl.
    + intros s i Hi. rewrite lookup_delete. destruct (li_pending _ _ _ _ Hl s i Hi) as [Hs|?]; [|by right].
      left. rewrite decide_False; [done|]. congruence.
Qed.

(** *** receive *)

(** After a body that was read, [receive] is at the next header. *)
Lemma rx_body_next st a st' r co :
  cpm st = newClientPluginManager -> rx st = RxBody r co -> (forall err, a <> ADiscard (Some err)) -> rx_step ord st a = Some st' ->
  rx st' = RxRead ∧ senders st' = senders st ∧ pending st' = pending st.
Proof.
  intros Hcpm Hrx Hne Hs. unfold rx_step in Hs. rewrite Hrx in Hs. destruct co as [id|]; destruct a as [| |v e|[e|]| |]; try done;
    try by destruct (Hne e).
  - case_bool_decide; [|done]. unfold deliver, cpm_PostReadResponse in Hs. rewrite Hcpm, (dispatch_empty ord) in Hs. simplify_eq.
    split; [done|]. simpl. match goal with |- context [finish_call ?s ?i ?e ?r] =>
      destruct (finish_call_frame s i e r) as (_ & _ & -> & _ & _ & _ & -> & _) end. done.
  - case_bool_decide; [|done]. simplify_eq. split; [done|]. simpl. match goal with |- context [finish_call ?s ?i ?e ?r] =>
      destruct (finish_call_frame s i e r) as (_ & _ & -> & _ & _ & _ & -> & _) end. done.
  - by simplify_eq.
Qed.

Lemma listening_body ws ans st cc cc' r co a st' m b :
  client_inv st -> listening ws ans st cc -> rx st = RxBody r co -> rx_at ws ans st cc m b ->
  (forall err, a <> ADiscard (Some err)) -> rx_step ord st a = Some st' -> quiet cc cc' -> reading false ws ans RxRead cc' m None ->
  listening ws ans st' cc'.
Proof.
  intros Hi Hl Hrx (_ & _ & Hpop) Hne Hs [_ Ecl] Hrd. destruct (rx_body_next _ _ _ _ _ (ci_cpm _ Hi) Hrx Hne Hs) as (E1 & E2 & E3).
  eapply (listening_rx _ _ _ _ _ _ m None); [exact Hl|done|by rewrite E3|rewrite Ecl; apply Hl|].
  unfold rx_at. rewrite E1, E3. rewrite Hrx in Hpop. done.
Qed.

Lemma listening_rx_step ws ans st cc a e' cc' new st' :
  client_inv st -> fits ws ans -> listening ws ans st cc -> client_codec st cc (EvRx a) = Some (e', cc', new) -> client_step ord st e' = Some st' ->
  listening (ws ++ new) ans st' cc'.
Proof.
  intros Hi Hf Hl Hc Hs. pose proof Hl as [_ Hop _ (m & b & Hat)]. pose proof Hat as (Hrd & Hin & Hpop). unfold client_codec in Hc.
  destruct (rx st) as [|r|r co|r co| | | |] eqn:Hrx; try done.
  - destruct (ready 1 (l_input (client_link cc))) eqn:Hst; [|done].
    destruct (reading_header _ _ _ _ _ _ Hf Hrd Hst) as (cc1 & r & err & m' & b' & Hr & [_ Hq] & Hrd' & Hno). rewrite Hr in Hc.
    destruct (Hno Hop eq_refl) as [-> ->]. simplify_eq. simpl in Hs. unfold rx_step in Hs. rewrite Hrx in Hs.
    simplify_eq. rewrite app_nil_r. eapply (listening_rx _ _ _ _ _ _ (S m) b'); [done..|congruence|]. by split_and!.
  - simplify_eq. simpl in Hs. unfold rx_step in Hs. rewrite Hrx in Hs. destruct a; try done. simplify_eq. rewrite app_nil_r.
    eapply (listening_rx _ _ _ _ _ _ m b); [exact Hl|done| |done|]; simpl.
    + intros s i [_ ?]%lookup_delete_Some. done.
    + split_and!; [by eapply reading_same|done|]. simpl.
      destruct (rd_resp _ _ _ _ _ _ _ Hrd r eq_refl) as (a & w & Ha & Ew & Hm0 & -> & _).
      intros i a1 w1 Hi1 Hia Ew1. rewrite lookup_delete. case_decide as E; [done|].
      destruct (decide (i = pred m)) as [->|]; [|apply (Hpop i a1 w1); [simpl; lia|done|done]]. destruct E. simpl. congruence.
  - simplify_eq. simpl in Hs. unfold rx_step in Hs. rewrite Hrx in Hs. destruct a; try done.
    unfold cpm_PreReadResponse in Hs. rewrite (ci_cpm _ Hi), (dispatch_empty ord) in Hs. simplify_eq. rewrite app_nil_r.
    eapply (listening_rx _ _ _ _ _ _ m b); [done..|]. split_and!; [by eapply reading_same|done..].
  - destruct (reading_discard _ _ _ _ _ _ _ r Hrd eq_refl) as (cc1 & o & Hd & Hqu & Hrd' & Hnone). rewrite (Hnone Hop) in Hd.
    rewrite (reading_ready _ _ _ _ _ _ _ r Hrd eq_refl), Hd in Hc.
    assert (new = [] ∧ quiet cc cc' ∧ reading false ws ans RxRead cc' m None ∧ exists a', e' = EvRx a' ∧ forall err, a' <> ADiscard (Some err))
      as (-> & Hq & Hrd2 & a' & -> & Hne).
    { destruct co as [id|]; [case_bool_decide as He|]; [|simplify_eq; split_and!; [done..|]; by eexists|simplify_eq; split_and!; [done..|]; by eexists].
      destruct (calls st !! id) as [c|]; [|done]. destruct (reading_body _ _ _ _ _ _ _ r (c_Reply c) Hrd eq_refl He) as (cc2 & o2 & Hb & ? & ? & _).
      rewrite Hb in Hc. destruct o2; [simplify_eq; split_and!; [done..|by eexists]|]. destruct a; simplify_eq; (split_and!; [done..|by eexists]). }
    rewrite app_nil_r. eapply listening_body; [done|done|exact Hrx|unfold rx_at; rewrite Hrx; by split_and!|exact Hne|exact Hs|done|done].
Qed.

(** *** Every step of the client *)

Lemma closing_mono st e st' : client_step ord st e = Some st' -> closing st' = false -> closing st = false.
Proof.
  intros Hs Hc. destruct (closing st) eqn:E; [|done]. by rewrite (proj1 (closing_step ord st e st' E Hs)) in Hc.
Qed.

Lemma listening_step closed_s ws ans st cc e e' cc' new st' :
  calling closed_s ws ans st cc -> fits ws ans ->
  listening ws ans st cc -> client_codec st cc e = Some (e', cc', new) -> client_step ord st e' = Some st' ->
  closing st' = false -> registered st' <= Word.modulus -> listening (ws ++ new) ans st' cc'.
Proof.
  intros Hcl Hans Hl Hc Hs Hclo Hb. destruct e as [ch n|ch|id sm args reply done fresh|id a|a|].
  - simpl in Hc. simplify_eq. simpl in Hs. case_bool_decide; simplify_eq. rewrite app_nil_r. by destruct Hl.
  - simpl in Hc. simplify_eq. simpl in Hs. destruct (chans st !! ch) as [[n [|x l]]|]; simplify_eq. rewrite app_nil_r. by destruct Hl.
  - simpl in Hc. simplify_eq. simpl in Hs. case_bool_decide as Hnew; [|done]. destruct (Go _ _ _ _ _ _ _) as [st1|] eqn:Hg; simplify_eq.
    apply Go_frame in Hg as (_ & _ & E1 & _ & _ & _ & E2 & E3 & _). rewrite app_nil_r.
    destruct (li_rx _ _ _ _ Hl) as (m & b & Hat). pose proof Hat as [Hrd _].
    eapply listening_send; [exact Hans|exact Hat|done|done|apply Hl|..|by rewrite E1].
    + intros i p. rewrite E2, lookup_insert. case_decide; [by intros [= <-]|apply Hl].
    + intros s i. rewrite E1, E2. intros Hi. destruct (li_pending _ _ _ _ Hl s i Hi) as [Hs|?]; [left|by right].
      rewrite lookup_insert_ne; [done|]. intros ->. apply (ex_calls _ (ci_excl _ (cl_inv _ _ _ _ _ Hcl))) in Hs.
      apply elem_of_dom in Hs as [? ?]. destruct Hnew. congruence.
  - by eapply listening_send_step.
  - by eapply listening_rx_step; [apply Hcl|..].
  - simpl in Hc. simplify_eq. simpl in Hs. simplify_eq. exfalso. unfold mark_closing in Hclo. by destruct (closing st) eqn:E; simpl in Hclo; rewrite ?E in Hclo.
Qed.

(** What the server sends. *)
Lemma listening_feed ws ans new st cc l :
  listening ws ans st cc ->
  (forall m, (m <= length ans)%nat -> unread enc_answer ans m ++ l = unread enc_answer (ans ++ new) m) ->
  listening ws (ans ++ new) st (client_feed cc l).
Proof.
  intros [H1 H2 H3 (m & b & Hrd & Hin & Hp)] Hl. split; [done|by rewrite feed_client_closed|done|].
  exists m, b. split_and!; [|done|].
  - eapply reading_feed; [done|]. intros k Hk. simpl. rewrite app_nil_r. auto.
  - intros i a w Hi Hia. apply (Hp i a w Hi). rewrite lookup_app_l in Hia; [done|]. pose proof (rd_count _ _ _ _ _ _ _ Hrd).
    unfold popped in Hi. destruct (rx st); lia.
Qed.

(** ** The server *)

(** The reader of the connection is in its loop. *)
Definition tended σ : Prop := exists g, gs σ !! (c0, 0%nat) = Some g ∧ g_pc g <> Waiting ∧ g_pc g <> Tail.

Lemma tended_open closed_c ws xs ans σ : serving c0 closed_c ws xs ans σ -> tended σ -> l_closed (server_end c0 σ) = false.
Proof.
  intros Hs (g & Hg & H1 & H2). destruct (server_end_ok _ _ _ _ _ _ Hs) as (cn & Hc & _ & ->).
  eapply books_open; [by apply (inv_books _ (sv_inv _ _ _ _ _ _ Hs))|exact Hg|done].
Qed.

Lemma tended_same σ σ' : gs σ' !! (c0, 0%nat) = gs σ !! (c0, 0%nat) -> tended σ -> tended σ'.
Proof. intros E (g & Hg & ?). exists g. by rewrite E. Qed.

Lemma tended_insert σ σ' h g' :
  tended σ -> gs σ' = <[(c0, h) := g']> (gs σ) -> (h = 0%nat -> g_pc g' <> Waiting ∧ g_pc g' <> Tail) -> tended σ'.
Proof.
  intros Ht E Hg. destruct (decide (h = 0%nat)) as [->|Hne].
  - exists g'. rewrite E, lookup_insert_eq. split; [done|]. auto.
  - eapply tended_same; [|done]. rewrite E, lookup_insert_ne by congruence. done.
Qed.

Lemma tended_reader ws xs ans σ h σ' :
  serving c0 false ws xs ans σ -> enabled c0 σ (EvReader c0 h) = true -> reader_step ord invalidRequest σ c0 h = Some σ' ->
  tended σ -> tended σ'.
Proof.
  intros Hs Hen Hst Ht. pose proof Hs as [Hok Hi (L & cn & cd & Hc & Hl & _ & Hx & _) Hf Hu]. pose proof Ht as (g & Hg & N1 & N2).
  unfold enabled in Hen. rewrite bool_decide_eq_true_2, Hg in Hen by done. unfold reader_step in Hst. rewrite Hg, Hc in Hst.
  destruct (g_pc g) as [|q| | | | | | | | | | | |] eqn:Hpc; try done.
  - destruct (getRequest _) as [q P]. simplify_eq. by eapply (tended_insert σ _ 0%nat).
  - assert (closed cn = false) as Hcl by (eapply books_open; [by apply (inv_books _ Hi)|exact Hg|by rewrite Hpc]).
    destruct (held_value _ _ _ _ (inv_req _ Hi) (c0, 0%nat) g q) as (v & Hv & Hcv); [done|by unfold own_req; rewrite Hpc|].
    unfold req_content in Hcv. rewrite Hpc in Hcv. subst v.
    pose proof (lo_codec _ _ _ _ _ _ Hl) as Hcd. pose proof (lo_input _ _ _ _ _ _ Hl Hcl) as Hin. rewrite Hcd in Hst.
    unfold server_end in Hen. rewrite Hc, Hcd, Hin in Hen. destruct (ws !! length L) as [w|] eqn:Hw.
    2:{ rewrite (unread_all _ _ _ Hw) in Hen. simpl in Hen. rewrite ready_nothing in Hen; [done|apply wl_sizes]. }
    destruct (reads_next ord c0 others _ _ _ _ _ _ _ _ _ _ Hs Hl Hx Hv Hw Hin) as (rr & cd' & sq & Hr & _ & _ & _ & Hk & Hq & _). rewrite Hr in Hst.
    unfold dispatch_request in Hst. rewrite Hk, Hq in Hst.
    destruct (hr_err (rr_header rr)) as [e|]; [simplify_eq; by eapply (tended_insert σ _ 0%nat)|].
    repeat case_match; simplify_eq. case_bool_decide as Hh; simplify_eq. destruct Hh as [Hh _].
    eexists. simpl. rewrite lookup_insert_ne, lookup_insert_eq by congruence. by split_and!.
Qed.

Lemma tended_go ws xs ans σ h σ' :
  serving c0 false ws xs ans σ -> go_step ord invalidRequest σ c0 h = Some σ' -> tended σ -> tended σ'.
Proof.
  intros [Hok Hi _ _ _] Hst Ht. unfold go_step in Hst. destruct (gs σ !! (c0, h)) as [g|] eqn:Hg; [|done].
  destruct (conns σ !! c0) as [cn|]; [|done].
  destruct (g_pc g) as [| |q| |q|q r|q r|q r|q r|q r|q| | |] eqn:Hpc; try done; repeat case_match; simplify_eq;
    try by eapply (tended_insert σ _ h).
  eapply tended_same; [|done]. simpl. rewrite lookup_delete_ne; [done|]. intros [= ->].
  destruct (inv_shape _ Hi _ _ _ Hg) as (_ & Hr & _). rewrite Hpc in Hr. by apply Hr.
Qed.

Lemma tended_step ws xs ans σ e σ' :
  serving c0 false ws xs ans σ -> enabled c0 σ e = true ->
  sys_step ord invalidRequest (dialled c0 others) (dialled c0 others) σ e = Some σ' -> tended σ -> tended σ'.
Proof.
  intros Hs Hen Hst Ht. pose proof Hs as [Hok Hi (L & cn & cd & Hc & _) _ _]. destruct (decide (here c0 e)) as [He|He].
  2:{ destruct (step_elsewhere ord invalidRequest c0 others ws σ e σ') as ((_ & _ & Hg) & _); [done|by eexists|done..|]. eapply tended_same; [apply Hg|done]. }
  destruct e as [| |c h|c h reply err|c h]; try done; simpl in He, Hst; subst c.
  - by eapply tended_reader.
  - unfold method_returns in Hst. destruct (gs σ !! (c0, h)) as [g|] eqn:Hg; [|done].
    destruct (g_pc g) as [| | |q| | | | | | | | | |]; simplify_eq. by eapply (tended_insert σ _ h).
  - by eapply tended_go.
Qed.

(** ** Both *)

Definition alive E : Prop :=
  closing (e_client E) = false -> listening (e_writes E) (e_answers E) (e_client E) (e_cc E) ∧ tended (e_sys E).

Lemma alive_client E e E' :
  e2e_ok c0 E -> alive E -> client_side ord c0 E e = Some E' -> registered (e_client E') <= Word.modulus -> alive E'.
Proof.
  intros [Hsv Hcl] Hal Hs Hb Hclo. unfold client_side in Hs. destruct (client_codec _ _ _) as [[[e' cc'] new]|] eqn:Hc; [|done].
  destruct (client_step ord (e_client E) e') as [st'|] eqn:Hst; [|done]. injection Hs as <-. simpl in *.
  destruct Hal as [Hl Ht]; [by eapply closing_mono|]. split; [|by eapply tended_same; [|exact Ht]].
  eapply listening_step; [exact Hcl|by eapply serving_fits|done..].
Qed.

Lemma alive_server E e E' :
  e2e_ok c0 E -> alive E -> server_side ord invalidRequest c0 others E e = Some E' -> alive E'.
Proof.
  intros Hok Hal Hs Hclo. pose proof (e2e_ok_server ord invalidRequest c0 others E e E' Hok Hs) as [Hsv' _].
  pose proof Hok as [Hsv Hcl]. unfold server_side in Hs. destruct (enabled c0 (e_sys E) e) eqn:Hen; [|done].
  destruct (sys_step _ _ _ _ _ _) as [σ'|] eqn:Hst; [|done]. injection Hs as <-. simpl in *.
  destruct (Hal Hclo) as [Hl Ht]. rewrite (li_open _ _ _ _ Hl) in Hsv.
  assert (tended σ') as Ht' by (by eapply tended_step). split; [|done].
  apply listening_feed; [done|]. intros m Hm.
  pose proof (serving_news ord invalidRequest c0 others _ _ _ _ _ _ _ Hsv Hen Hst m Hm) as Hn.
  rewrite (tended_open _ _ _ _ _ Hsv Ht), (tended_open _ _ _ _ _ Hsv' Ht') in Hn. simpl in Hn. by rewrite app_nil_r in Hn.
Qed.

Lemma alive_step E e E' :
  e2e_ok c0 E -> alive E -> e2e_step ord invalidRequest c0 others E e = Some E' -> registered (e_client E') <= Word.modulus -> alive E'.
Proof. destruct e; simpl; intros; [by eapply alive_client|by eapply alive_server]. Qed.

#[local] Instance alive_moves : LTS e2e (e2e_event (V := V)) := e2e_step ord invalidRequest c0 others.

Lemma online_alive E : online ord invalidRequest c0 others E -> e2e_ok c0 E ∧ alive E.
Proof.
  intros (s & s1 & E0 & Hp & Hst & Hc & Hr & Hb). revert Hb. induction Hr as [|E e E' Hr IH Hs]; intros Hb.
  - split; [by eapply (e2e_ok_connected ord invalidRequest c0 others s s1)|]. intros _.
    apply prepared_ok in Hp as (Hok & E1 & E2 & _ & E4).
    destruct (serving_connected ord invalidRequest c0 others s s1 E0 Hok E1 E2 E4 Hst Hc) as (_ & _ & g & Hgs & Hpc).
    destruct Hc as (_ & σ & _ & ->). destruct wl_new_client as [Hl Hh]. simpl in *. split.
    + split; simpl; [done|by rewrite Hl|done|]. exists 0%nat, None. split_and!; [|done|simpl; intros; lia].
      split; simpl; rewrite ?Hl; done.
    + exists g. by rewrite Hpc.
  - pose proof (e2e_registered ord invalidRequest c0 others _ _ _ Hs) as Hreg. destruct IH as [Hok Hal]; [lia|].
    split; [by eapply (e2e_ok_step ord invalidRequest c0 others)|by eapply alive_step].
Qed.
End alive.
