(* ===== verification/EndToEndMeasure.v ===== *)
(** * The work that is left

    While the client is open, what its goroutines and those of the server still
    have to do is bounded by [cost]: each of their steps lowers it, in whatever
    order they come, and what the rest of the system does - other connections, the
    registration of services, callers that make channels and receive from them -
    leaves it as it is. *)
From S2P Require Import Prelude GoStd Utils Types FreeList Service Plugin Server ServerConn ServerSafety ServerProps ServerProgress ServerTypes Client ClientSafety ClientLedger ClientProps ClientProgress ClientTrace RpcSpec Wire EndToEnd EndToEndServer EndToEndClient EndToEndSafety EndToEndAlive.

(** ** The work that is left *)

(** The goroutines of the server cost what they do in [ServerProgress]; a request
    on its way to the server costs 20 and a message to the client 4, so that a step
    that sends them lowers the cost by more than they add. *)
Definition send_cost (p : send_pc) : nat :=
  match p with SLock => 24 | SRegister => 23 | SWrite _ => 22 | _ => 1 end.
Definition rx_cost (p : rx_pc) : nat :=
  match p with RxPop _ => 3 | RxHooks _ _ => 2 | RxBody _ _ => 1 | _ => 0 end.

Lemma unread_length {A M} (enc : A -> list M) (l : list A) n k :
  (forall x, x ∈ l -> length (enc x) = k) -> length (unread enc l n) = (k * (length l - n))%nat.
Proof.
  intros He. unfold unread. rewrite length_fmap, <- length_drop.
  assert (forall x, x ∈ drop n l -> length (enc x) = k) as Hd by (intros x Hx; apply He; rewrite <- (take_drop n l); set_solver).
  clear He. induction (drop n l) as [|x l' IH]; [simpl; lia|].
  csimpl. rewrite length_app, Hd, IH by set_solver. lia.
Qed.

Section measure.
Context {V W CC SC M : Type} `{UnicodeTables}
  `{!ClientCodec V CC, !ServerCodec V SC, !Transfer V, !Wire V CC SC M, !WireSpec V CC SC M, !WireLaws V CC SC M}.
Context (ord : gmap string (Plugin V W) -> list (string * Plugin V W)).
Context (invalidRequest : V) (c0 : connid) (others : connid -> SC).

Abbreviation client := (@client V W).
Abbreviation e2e := (@e2e V W CC SC).
Abbreviation sys := (@sys V W SC).
Abbreviation goroutine := (@goroutine V).
Abbreviation step := (e2e_step ord invalidRequest c0 others).
Abbreviation sstep := (sys_step ord invalidRequest (dialled c0 others) (dialled c0 others)).
Implicit Types (E : e2e) (st : client) (cc : CC) (id : callid) (w : wrote V) (ws : list (wrote V))
  (xs : list (exec V)) (ans : list (answer V)) (σ : sys) (g : goroutine) (h : nat) (cn : @conn SC).

(** The work of the goroutines of the connection, where [f] says what a goroutine
    at some point has to do. *)
Definition work_of (f : pc -> nat) (k : connid * nat) g : nat := if bool_decide (k.1 = c0) then f (g_pc g) else 0.
Definition work (f : pc -> nat) σ : nat := total (work_of f) (gs σ).
Abbreviation jobs := (work go_cost).
Definition sends st : nat := total (fun _ => send_cost) (senders st).

(** The requests that were not read yet. *)
Definition waiting E : nat := length (e_writes E) - length (read_headers c0 (e_sys E)).

Definition cost E : nat :=
  sends (e_client E) + rx_cost (rx (e_client E)) + 4 * length (l_input (client_link (e_cc E))) + 20 * waiting E + jobs (e_sys E).

(** The steps of the goroutines of the client and of its connection; and
    everything that can happen but new calls and [Close]. *)
Definition own (e : e2e_event (V := V)) : Prop :=
  match e with
  | OnClient (EvSend _ _) | OnClient (EvRx _) => True
  | OnClient _ => False
  | OnServer e => here c0 e
  end.
#[global] Instance own_dec e : Decision (own e).
Proof. destruct e as [[]|]; simpl; apply _. Defined.

Definition unattended (e : e2e_event (V := V)) : Prop :=
  match e with OnClient (EvGoCall _ _ _ _ _ _) | OnClient EvClose => False | _ => True end.

(** ** What is on the way *)

Lemma answer_length closed_c ws xs ans σ a : serving c0 closed_c ws xs ans σ -> a ∈ ans -> length (enc_answer a) = S body_size.
Proof.
  intros Hs (w & E & _)%(ft_for _ _ (serving_fits _ _ _ _ _ _ Hs)). unfold enc_answer. rewrite E. simpl. by rewrite wl_body_size.
Qed.

Lemma read_length closed_c ws xs ans σ : serving c0 closed_c ws xs ans σ -> (length (read_headers c0 σ) <= length ws)%nat.
Proof.
  intros [_ _ (L & cn & cd & Hc & Hl & _) _ _]. unfold read_headers. rewrite Hc. destruct (log_length _ _ _ _ _ _ Hl). lia.
Qed.

Lemma news_length ws xs ans σ e σ' :
  serving c0 false ws xs ans σ -> enabled c0 σ e = true -> sstep σ e = Some σ' -> tended c0 σ ->
  (length (news (server_end c0 σ) (server_end c0 σ')) <= 2 * length (answered c0 ws σ e))%nat.
Proof.
  intros Hs Hen Hst Ht. assert (tended c0 σ') as Ht' by (by eapply (tended_step ord invalidRequest c0 others)).
  pose proof (serving_step ord invalidRequest c0 others _ _ _ _ _ _ _ Hs Hen Hst) as Hs'.
  pose proof (serving_news ord invalidRequest c0 others _ _ _ _ _ _ _ Hs Hen Hst (length ans) ltac:(lia)) as Hn.
  rewrite (tended_open _ _ _ _ _ _ Hs Ht), (tended_open _ _ _ _ _ _ Hs' Ht') in Hn. simpl in Hn.
  apply (f_equal length) in Hn. rewrite !length_app in Hn.
  rewrite (unread_length enc_answer ans _ (S body_size)) in Hn by (intros; by eapply (answer_length _ _ _ _ _ _ Hs)).
  rewrite (unread_length enc_answer (ans ++ _) _ (S body_size)) in Hn by (intros; by eapply (answer_length _ _ _ _ _ _ Hs')).
  rewrite length_app in Hn. simpl in Hn. destruct wl_sizes as [_ Hsz]. nia.
Qed.

(** ** The server *)

(** An open client, and what is known of the system then. *)
Definition going_on E : Prop :=
  serving c0 false (e_writes E) (e_execs E) (e_answers E) (e_sys E) ∧ calling false (e_writes E) (e_answers E) (e_client E) (e_cc E) ∧
  listening (e_writes E) (e_answers E) (e_client E) (e_cc E) ∧ tended c0 (e_sys E).

Lemma online_going_on E : online ord invalidRequest c0 others E -> closing (e_client E) = false -> going_on E.
Proof.
  intros Ho Hc. destruct (online_alive ord invalidRequest c0 others E Ho) as [[Hsv Hcl] Hal]. destruct (Hal Hc) as [Hl Ht].
  rewrite (li_open _ _ _ _ Hl) in Hsv. rewrite (tended_open _ _ _ _ _ _ Hsv Ht) in Hcl. done.
Qed.

(** A step of the server lowers the cost by what its goroutines have done, and by
    the requests that it reads more than by the answers that it writes. *)
Lemma server_cost E e E' :
  going_on E -> step E (OnServer e) = Some E' ->
  (cost E' + jobs (e_sys E) + 20 * length (read_headers c0 (e_sys E')) <=
   cost E + jobs (e_sys E') + 8 * length (answered c0 (e_writes E) (e_sys E) e) + 20 * length (read_headers c0 (e_sys E)))%nat.
Proof.
  intros (Hs & _ & Hl & Ht) Hst. simpl in Hst. unfold server_side in Hst. destruct (enabled c0 (e_sys E) e) eqn:Hen; [|done].
  destruct (sstep (e_sys E) e) as [σ'|] eqn:Hss; [|done]. injection Hst as <-. unfold cost, waiting. simpl.
  rewrite wl_client_feed. unfold feed. rewrite (li_open _ _ _ _ Hl). simpl.
  rewrite length_app. pose proof (news_length _ _ _ _ _ _ Hs Hen Hss Ht). pose proof (read_length _ _ _ _ _ Hs).
  pose proof (serving_step ord invalidRequest c0 others _ _ _ _ _ _ _ Hs Hen Hss) as Hs'. pose proof (read_length _ _ _ _ _ Hs'). lia.
Qed.

Lemma on_server E e E' : step E (OnServer e) = Some E' -> enabled c0 (e_sys E) e = true ∧ sstep (e_sys E) e = Some (e_sys E').
Proof.
  intros Hst. simpl in Hst. unfold server_side in Hst. destruct (enabled c0 (e_sys E) e); [|done].
  destruct (sstep (e_sys E) e) as [σ'|]; [|done]. by injection Hst as <-.
Qed.

Lemma work_update f σ σ' h g g' :
  gs σ !! (c0, h) = Some g -> gs σ' = <[(c0, h) := g']> (gs σ) -> (f (g_pc g) + work f σ' = f (g_pc g') + work f σ)%nat.
Proof.
  intros Hg E. unfold work. rewrite E. pose proof (total_update (work_of f) _ _ _ g' Hg) as Ht.
  unfold work_of in Ht at 1 3. by rewrite !bool_decide_eq_true_2 in Ht.
Qed.

Lemma work_end f σ σ' h g :
  gs σ !! (c0, h) = Some g -> gs σ' = delete (c0, h) (gs σ) -> (f (g_pc g) + work f σ' = work f σ)%nat.
Proof.
  intros Hg E. unfold work. rewrite E. pose proof (total_delete (work_of f) _ _ _ Hg) as Ht.
  unfold work_of in Ht at 1. by rewrite bool_decide_eq_true_2 in Ht.
Qed.

Lemma work_start f σ σ' h g g1 g' :
  gs σ !! (c0, 0%nat) = Some g -> h <> 0%nat -> gs σ !! (c0, h) = None -> gs σ' = <[(c0, h) := g']> (<[(c0, 0%nat) := g1]> (gs σ)) ->
  (f (g_pc g) + work f σ' = f (g_pc g') + f (g_pc g1) + work f σ)%nat.
Proof.
  intros Hg Hh0 Hh E. unfold work. rewrite E, total_insert_new by (by rewrite lookup_insert_ne by congruence).
  pose proof (total_update (work_of f) _ _ _ g1 Hg) as Ht. unfold work_of in Ht at 1 3. unfold work_of at 1.
  rewrite !bool_decide_eq_true_2 in Ht by done. rewrite bool_decide_eq_true_2 by done. lia.
Qed.

(** A goroutine of the connection comes nearer to its end. *)
Lemma advances_cost E h g cn e E' :
  going_on E -> gs (e_sys E) !! (c0, h) = Some g -> conns (e_sys E) !! c0 = Some cn ->
  (8 * length (answered c0 (e_writes E) (e_sys E) e) <= write_cost (g_pc g))%nat ->
  step E (OnServer e) = Some E' -> advances (e_sys E) c0 h g cn (e_sys E') -> (cost E' < cost E)%nat.
Proof.
  intros Hgo Hg Hc Ha Hst ((cn' & Ec & Eh) & Hadv). pose proof (server_cost E e E' Hgo Hst) as Hlt.
  unfold read_headers in Hlt. rewrite Ec, lookup_insert_eq, Hc, Eh in Hlt. destruct Hadv as [(g' & Eg & Hl)|(Eg & Hpc)].
  - pose proof (work_update go_cost _ _ _ _ _ Hg Eg). lia.
  - pose proof (work_end go_cost _ _ _ _ Hg Eg). rewrite Hpc in *. simpl in *. lia.
Qed.

Lemma event_on_goroutine σ e h σ' : event_on e c0 h -> sstep σ e = Some σ' -> exists g, gs σ !! (c0, h) = Some g.
Proof.
  intros He Hss. destruct e as [| | |c1 h1 v err|c1 h1]; try done; destruct He as [-> ->]; simpl in Hss; unfold method_returns, go_step in Hss;
    destruct (gs σ !! (c0, h)) as [g|]; try done; by exists g.
Qed.

Lemma goroutine_cost E e h E' :
  going_on E -> event_on e c0 h -> step E (OnServer e) = Some E' -> (cost E' < cost E)%nat.
Proof.
  intros Hgo He Hst. pose proof Hgo as ([Hok Hi (L & cn & cd & Hc & Hl & _) _ _] & _). destruct (on_server _ _ _ Hst) as [_ Hss].
  destruct (event_on_goroutine _ _ _ _ He Hss) as [g Hg].
  eapply advances_cost; [done|exact Hg|exact Hc| |exact Hst|by eapply (step_advances ord invalidRequest (dialled c0 others) (dialled c0 others))].
  destruct e as [| | |c1 h1 v err|c1 h1]; try done; destruct He as [-> ->]; simpl; [lia|]. rewrite Hg.
  destruct (g_pc g); simpl; try lia. case_bool_decide; simpl; lia.
Qed.

(** The reader gets a request object, or it reads a request and starts a goroutine
    or answers itself. *)
Lemma dispatch_shape σ cn h rr q w σ' :
  hr_keepReading (rr_header rr) = true -> hr_req (rr_header rr) = Some q -> read_result (srv σ) w q rr ->
  dispatch_request invalidRequest σ c0 cn h rr = Some σ' ->
  exists cn', conns σ' !! c0 = Some cn' ∧ length (headers cn') = S (length (headers cn)) ∧
    exists g', (gs σ' = <[(c0, 0%nat) := g']> (gs σ) ∧ g_pc g' = GetResp q) ∨
      (h <> 0%nat ∧ gs σ !! (c0, h) = None ∧ gs σ' = <[(c0, h) := g']> (<[(c0, 0%nat) := reader0 invalidRequest Loop]> (gs σ)) ∧ g_pc g' = Enter q).
Proof.
  intros Hk Hq (_ & _ & Hres) Hd. unfold dispatch_request in Hd. rewrite Hk, Hq in Hd. destruct (hr_err (rr_header rr)) as [err|].
  - injection Hd as <-. simpl. rewrite lookup_insert_eq. eexists. split; [done|]. simpl. rewrite length_app. simpl.
    split; [lia|]. eexists. by left.
  - destruct Hres as (sn & mn & me & v & rv & E1 & E2 & E3 & E4 & _). rewrite E1, E2, E3, E4 in Hd. case_bool_decide as Hh; [|done].
    injection Hd as <-. simpl. rewrite lookup_insert_eq. eexists. split; [done|]. simpl. rewrite length_app. simpl.
    split; [lia|]. eexists. right. by destruct Hh.
Qed.

(** What the reader finds when it reads: the next request that was written. *)
Lemma reader_finds closed_c E g q :
  serving c0 closed_c (e_writes E) (e_execs E) (e_answers E) (e_sys E) -> gs (e_sys E) !! (c0, 0%nat) = Some g -> g_pc g = Reading q ->
  exists cn cd, conns (e_sys E) !! c0 = Some cn ∧ codec cn = Some cd ∧
    (ready call_size (l_input (server_link cd)) = true <-> waiting E <> 0%nat ∨ closed_c = true) ∧
    (waiting E <> 0%nat -> exists rr cd1 w v, readRequest ord (srv (e_sys E)) cd q = Return (set_reqs (srv (e_sys E)) v, cd1, rr) ∧
       hr_keepReading (rr_header rr) = true ∧ hr_req (rr_header rr) = Some q ∧ read_result (srv (e_sys E)) w q rr) ∧
    (waiting E = 0%nat -> closed_c = true -> exists s1 rr cd1, readRequest ord (srv (e_sys E)) cd q = Return (s1, cd1, rr) ∧
       hr_keepReading (rr_header rr) = false ∧ is_Some (hr_err (rr_header rr))).
Proof.
  intros Hs Hg Hpc. pose proof Hs as [Hok Hi (L & cn & cd & Hc & Hl & _ & Hx & _) _ _].
  pose proof (lo_codec _ _ _ _ _ _ Hl) as Hcd. destruct (log_length _ _ _ _ _ _ Hl) as [_ Elen].
  assert (closed cn = false) as Hcl by (eapply books_open; [by apply (inv_books _ Hi)|exact Hg|by rewrite Hpc]).
  pose proof (lo_input _ _ _ _ _ _ Hl Hcl) as Hin. exists cn, cd. unfold waiting, read_headers. rewrite Hc, <- Elen.
  destruct (held_value _ _ _ _ (inv_req _ Hi) (c0, 0%nat) g q) as (v & Hv & Hcv); [done|by unfold own_req; rewrite Hpc|].
  unfold req_content in Hcv. rewrite Hpc in Hcv. subst v. split_and!; [done|done|..].
  - rewrite Hin. destruct (e_writes E !! length L) as [w|] eqn:Hw.
    + pose proof (lookup_lt_Some _ _ _ Hw). split; [lia|]. intros _. rewrite (unread_next _ _ _ _ Hw), <- (assoc_L (++)).
      apply ready_values. by rewrite wl_call_size.
    + rewrite (unread_all _ _ _ Hw). apply lookup_ge_None in Hw. destruct wl_sizes as [Hsz _]. destruct closed_c; simpl.
      * rewrite ready_end. split; [by right|done].
      * rewrite ready_nothing by done. split; [done|]. intros [?|?]; [lia|done].
  - intros Hw. destruct (e_writes E !! length L) as [w|] eqn:Ew; [|apply lookup_ge_None in Ew; lia].
    destruct (reads_next ord c0 others _ _ _ _ _ _ _ _ _ _ Hs Hl Hx Hv Ew Hin) as (rr & cd1 & sq & Hr & _ & _ & _ & Hres).
    exists rr, cd1, w. eexists. split; [exact Hr|]. by destruct Hres as (? & ? & ?).
  - intros Hw ->. rewrite unread_all in Hin by (apply lookup_ge_None; lia).
    destruct (read_end ord (srv (e_sys E)) cd L _ q EOF [] Hv (lo_holds _ _ _ _ _ _ Hl) Hin) as (s1 & cd' & rr & Hr & _ & _ & _ & Hk & He).
    by exists s1, rr, cd'.
Qed.

Lemma reader_cost E h E' :
  going_on E -> step E (OnServer (EvReader c0 h)) = Some E' -> (cost E' < cost E)%nat.
Proof.
  intros Hgo Hst. pose proof Hgo as (Hs & _ & _ & g & Hg & N1 & N2). destruct (on_server _ _ _ Hst) as [Hen Hss].
  simpl in Hss. unfold reader_step in Hss. rewrite Hg in Hss. destruct (conns (e_sys E) !! c0) as [cn|] eqn:Hc; [|done].
  unfold enabled in Hen. rewrite bool_decide_eq_true_2, Hg in Hen by done.
  destruct (g_pc g) as [|q| | | | | | | | | | | |] eqn:Hpc; try done.
  - destruct (getRequest (reqs (srv (e_sys E)))) as [q P] eqn:Hq.
    eapply (advances_cost E 0 g cn (EvReader c0 h)); [done..|simpl; lia|done|]. injection Hss as <-.
    split; [exists cn; simpl; by rewrite (insert_id _ _ _ Hc)|]. left. eexists. split; [done|]. rewrite Hpc. simpl. lia.
  - destruct (reader_finds false E g q Hs Hg Hpc) as (cn1 & cd & Hc1 & Hcd & Hrdy & Hread & _). assert (cn1 = cn) as -> by congruence.
    unfold server_end in Hen. rewrite Hc, Hcd in Hen. apply Hrdy in Hen as [Hen|?]; [|done].
    destruct (Hread Hen) as (rr & cd1 & w & v & Hr & Hk & Hq & Hres). rewrite Hcd, Hr in Hss.
    apply (dispatch_shape _ _ _ _ q w) in Hss as (cn' & Hc' & Eh & g' & Hgs); [|done..]. simpl in Eh, Hgs.
    pose proof (server_cost E _ E' Hgo Hst) as Hlt. unfold read_headers in Hlt. rewrite Hc, Hc', Eh in Hlt. simpl in Hlt.
    destruct Hgs as [[Egs Hpc']|(Hh0 & Hh & Egs & Hpc')].
    + pose proof (work_update go_cost _ _ _ _ _ Hg Egs) as Hj. rewrite Hpc, Hpc' in Hj. simpl in Hj. lia.
    + pose proof (work_start go_cost _ _ h g _ _ Hg Hh0 Hh Egs) as Hj. rewrite Hpc, Hpc' in Hj. simpl in Hj. lia.
Qed.

(** What happens elsewhere costs nothing. *)
Lemma elsewhere_work f σ σ' : elsewhere c0 σ σ' -> work f σ' = work f σ.
Proof.
  intros (_ & _ & Hg). unfold work. rewrite <- (total_filter (work_of f) (gs σ) (fun kg => kg.1.1 = c0)), <- (total_filter (work_of f) (gs σ') (fun kg => kg.1.1 = c0));
    [|intros [c h] g Hne; unfold work_of; by rewrite bool_decide_eq_false_2..].
  f_equal. apply map_eq. intros [c h]. apply option_eq. intros g. rewrite !map_lookup_filter_Some. simpl.
  split; intros [Hl ->]; by rewrite Hg in * || rewrite <- Hg in *.
Qed.

Lemma elsewhere_cost E e E' :
  going_on E -> ~ here c0 e -> step E (OnServer e) = Some E' -> (cost E' <= cost E)%nat.
Proof.
  intros Hgo He Hst. pose proof Hgo as (Hs & _). pose proof Hs as [Hok _ (L & cn & cd & Hc & _) _ _]. destruct (on_server _ _ _ Hst) as [_ Hss].
  destruct (step_elsewhere ord invalidRequest c0 others (e_writes E) (e_sys E) e (e_sys E')) as (Hel & _ & Ha); [done|by eexists|done..|].
  pose proof (server_cost E e E' Hgo Hst) as Hlt. rewrite Ha, (elsewhere_work _ _ _ Hel) in Hlt. destruct Hel as (_ & Ec & _).
  unfold read_headers in Hlt. rewrite Ec in Hlt. simpl in Hlt. lia.
Qed.

(** ** The client *)

Definition client_cost st cc : nat := sends st + rx_cost (rx st) + 4 * length (l_input (client_link cc)).

(** A step of the client lowers the cost by what its goroutines have done, less
    20 for each request that it writes. *)
Lemma client_step_cost E e e' cc' new st' E' :
  going_on E -> client_codec (e_client E) (e_cc E) e = Some (e', cc', new) -> client_step ord (e_client E) e' = Some st' ->
  step E (OnClient e) = Some E' ->
  (cost E' + client_cost (e_client E) (e_cc E) <= cost E + client_cost st' cc' + 20 * length new)%nat.
Proof.
  intros (Hs & _) Hc Hst HE. simpl in HE. unfold client_side in HE. rewrite Hc, Hst in HE. injection HE as <-.
  unfold cost, waiting, client_cost. simpl. pose proof (read_length _ _ _ _ _ Hs) as Hrl.
  assert (length (read_headers c0 (feed_server c0 (e_sys E) (news (client_link (e_cc E)) (client_link cc')))) = length (read_headers c0 (e_sys E))) as ->.
  { unfold read_headers. simpl. rewrite lookup_alter_eq. by destruct (conns (e_sys E) !! c0). }
  rewrite length_app. unfold work in *. simpl. lia.
Qed.

Lemma on_client E e E' : step E (OnClient e) = Some E' ->
  exists e' cc' new, client_codec (e_client E) (e_cc E) e = Some (e', cc', new) ∧ client_step ord (e_client E) e' = Some (e_client E').
Proof.
  intros HE. simpl in HE. unfold client_side in HE. destruct (client_codec _ _ _) as [[[e' cc'] new]|]; [|done].
  destruct (client_step ord (e_client E) e') as [st'|] eqn:Hst; [|done]. injection HE as <-. by exists e', cc', new.
Qed.

(** A sender moves on and writes [n] requests, or ends. *)
Lemma sends_lower st st' cc cc' id p n :
  senders st !! id = Some p -> rx st' = rx st -> l_input (client_link cc') = l_input (client_link cc) ->
  (exists p', senders st' = <[id := p']> (senders st) ∧ (send_cost p' + 20 * n < send_cost p)%nat) ∨
  (senders st' = delete id (senders st) ∧ (20 * n < send_cost p)%nat) ->
  (client_cost st' cc' + 20 * n < client_cost st cc)%nat.
Proof.
  intros Hp Er Ei Hs. unfold client_cost, sends. rewrite Er, Ei. destruct Hs as [(p' & -> & Hlt)|[-> Hlt]].
  - pose proof (total_update (fun _ => send_cost) _ _ _ p' Hp). simpl in *. lia.
  - pose proof (total_delete (fun _ => send_cost) _ _ _ Hp). simpl in *. lia.
Qed.

(** A request that is written while the connection is open is sent. *)
Lemma sender_writes E id s c :
  going_on E -> senders (e_client E) !! id = Some (SWrite s) -> calls (e_client E) !! id = Some c ->
  exists cc', WriteRequest (e_cc E) (mkRequest (c_ServiceMethod c) s (req_next (request (e_client E)))) (c_Args c) = (cc', None) ∧
    l_input (client_link cc') = l_input (client_link (e_cc E)).
Proof.
  intros (_ & Hcl & Hl & _) Hp Hcall. destruct (li_rx _ _ _ _ Hl) as (m & b & Hrd & _).
  destruct (wl_write (e_cc E) _ _ _ (mkWrote id s (c_ServiceMethod c) (c_Args c) (c_Reply c)) (req_next (request (e_client E)))
    (rd_holds _ _ _ _ _ _ _ Hrd) (li_open _ _ _ _ Hl)) as (cc1 & Hw & El & _); [by eapply calling_fresh|].
  exists cc1. split; [done|]. by rewrite El.
Qed.

Lemma sender_call closed_s ws ans st cc id p : calling closed_s ws ans st cc -> senders st !! id = Some p -> is_Some (calls st !! id).
Proof. intros Hcl Hp. by eapply elem_of_dom, ex_calls; [apply (ci_excl _ (cl_inv _ _ _ _ _ Hcl))|]. Qed.

Lemma sender_cost E id a E' :
  going_on E -> closing (e_client E) = false -> step E (OnClient (EvSend id a)) = Some E' -> (cost E' < cost E)%nat.
Proof.
  intros Hgo Hclo HE. destruct (on_client _ _ _ HE) as (e' & cc' & new & Hc & Hst).
  pose proof (client_step_cost _ _ _ _ _ _ _ Hgo Hc Hst HE) as Hle. pose proof Hgo as (_ & Hcl & Hl & _). unfold client_codec in Hc.
  destruct (senders (e_client E) !! id) as [p|] eqn:Hp; [|simplify_eq; simpl in Hst; unfold send_step in Hst; by rewrite Hp in Hst].
  pose proof (li_senders _ _ _ _ Hl id p Hp) as Hg. destruct (sender_call _ _ _ _ _ _ _ Hcl Hp) as [c Hcall]. rewrite Hcall in Hc.
  assert (client_cost (e_client E') cc' + 20 * length new < client_cost (e_client E) (e_cc E))%nat; [|lia].
  destruct p as [| | |s| | |]; try done.
  3: destruct (sender_writes _ _ _ _ Hgo Hp Hcall) as (cc1 & Hw & Ein); rewrite Hw in Hc.
  all: injection Hc as <- <- <-; simpl in Hst; unfold send_step, register_call in Hst;
    rewrite Hp, ?(listening_shutdown _ _ _ _ (ci_excl _ (cl_inv _ _ _ _ _ Hcl)) Hl), ?Hclo in Hst; simpl in Hst.
  1: destruct (reqMutex (e_client E)); [done|].
  all: injection Hst as <-; eapply sends_lower; [exact Hp|done|done|]; first [by right; split; [done|simpl; lia]|left; eexists; split; [done|simpl; lia]].
Qed.

(** [receive] moves on; a message that it reads costs more than what it has to do
    with it. *)
Lemma header_cost E a E' :
  going_on E -> rx (e_client E) = RxRead -> step E (OnClient (EvRx a)) = Some E' -> (cost E' < cost E)%nat.
Proof.
  intros Hgo Hrx HE. destruct (on_client _ _ _ HE) as (e' & cc' & new & Hc & Hst).
  pose proof (client_step_cost _ _ _ _ _ _ _ Hgo Hc Hst HE) as Hle. pose proof Hgo as (Hs & _ & [_ Hop _ (m & b & Hrd & _)] & _).
  rewrite Hrx in Hrd. unfold client_codec in Hc. rewrite Hrx in Hc. destruct (ready 1 _) eqn:Hrdy; [|done].
  destruct (reading_header _ _ _ _ _ _ (serving_fits _ _ _ _ _ _ Hs) Hrd Hrdy) as (cc1 & r & err & m' & b' & Hr & [_ Hq] & Hrd' & Hno).
  destruct (Hno Hop eq_refl) as [-> ->]. rewrite Hr in Hc. injection Hc as <- <- <-. simpl in Hst. unfold rx_step in Hst. rewrite Hrx in Hst.
  injection Hst as Hst. unfold client_cost, sends in Hle. rewrite <- Hst, Hrx in Hle. simpl in Hle.
  assert (length (l_input (client_link cc1)) < length (l_input (client_link (e_cc E))))%nat; [|lia].
  destruct (rd_resp _ _ _ _ _ _ _ Hrd' r eq_refl) as (a1 & w & Ha & Ew & _ & _ & _ & Hin'). simpl in Ha.
  rewrite Hin', (rd_idle _ _ _ _ _ _ _ Hrd eq_refl Hop), (unread_next _ _ _ _ Ha) by congruence. unfold enc_answer at 2. rewrite Ew.
  rewrite !length_app, !length_fmap. simpl. lia.
Qed.

(** What the codec has for a body that is read, and that it has one. *)
Lemma body_answer E a e' cc' new r co :
  going_on E -> rx (e_client E) = RxBody r co -> client_codec (e_client E) (e_cc E) (EvRx a) = Some (e', cc', new) ->
  new = [] ∧ (length (l_input (client_link cc')) <= length (l_input (client_link (e_cc E))))%nat ∧
  exists a', e' = EvRx a' ∧ forall err, a' <> ADiscard (Some err).
Proof.
  intros Hgo Hrx Hc. pose proof Hgo as (_ & _ & [_ Hop _ (m & b & Hrd & _)] & _). rewrite Hrx in Hrd.
  destruct (reading_discard _ _ _ _ _ _ _ r Hrd eq_refl) as (cc1 & o & Hd & [_ Hq1] & Hrd1 & Hnone). rewrite (Hnone Hop) in Hd.
  assert (forall cc2, l_closed (client_link cc2) = l_closed (client_link (e_cc E)) ->
    reading false (e_writes E) (e_answers E) RxRead cc2 m None -> (length (l_input (client_link cc2)) <= length (l_input (client_link (e_cc E))))%nat) as Hle.
  { intros cc2 Hq Hrd'. destruct (rd_resp _ _ _ _ _ _ _ Hrd r eq_refl) as (a1 & w & _ & _ & _ & _ & _ & Hin).
    rewrite (rd_idle _ _ _ _ _ _ _ Hrd' eq_refl), Hin by congruence. rewrite !length_app. lia. }
  unfold client_codec in Hc. rewrite Hrx, (reading_ready _ _ _ _ _ _ _ r Hrd eq_refl), Hd in Hc.
  destruct co as [id|]; [|injection Hc as <- <- <-; split_and!; [done|by apply Hle|by eexists]].
  case_bool_decide as He; [|injection Hc as <- <- <-; split_and!; [done|by apply Hle|by eexists]].
  destruct (calls (e_client E) !! id) as [c|]; [|done].
  destruct (reading_body _ _ _ _ _ _ _ r (c_Reply c) Hrd eq_refl He) as (cc2 & o2 & Hb & [_ Hq2] & Hrd2 & _). rewrite Hb in Hc.
  destruct o2 as [v|err]; [|destruct a; try done]; injection Hc as <- <- <-; (split_and!; [done|by apply Hle|by eexists]).
Qed.

Lemma receive_cost E a E' :
  going_on E -> step E (OnClient (EvRx a)) = Some E' -> (cost E' < cost E)%nat.
Proof.
  intros Hgo HE. destruct (on_client _ _ _ HE) as (e' & cc' & new & Hc & Hst).
  pose proof (client_step_cost _ _ _ _ _ _ _ Hgo Hc Hst HE) as Hle. unfold client_cost, sends in Hle.
  pose proof Hgo as (_ & Hcl & [_ _ _ (m & b & _ & Hin & _)] & _). pose proof (ci_cpm _ (cl_inv _ _ _ _ _ Hcl)) as Hcpm.
  destruct (rx (e_client E)) as [|r|r co|r co| | | |] eqn:Hrx; try done; [by eapply header_cost|..].
  3:{ destruct (body_answer _ _ _ _ _ _ _ Hgo Hrx Hc) as (-> & Hlen & a' & -> & Hne). simpl in Hst.
      destruct (rx_body_next ord _ _ _ _ _ Hcpm Hrx Hne Hst) as (E1 & E2 & _). rewrite E1, E2 in Hle. simpl in Hle. lia. }
  all: unfold client_codec in Hc; rewrite Hrx in Hc; injection Hc as <- <- <-; simpl in Hst; unfold rx_step in Hst; rewrite Hrx in Hst; destruct a; try done.
  2: unfold cpm_PreReadResponse in Hst; rewrite Hcpm, (dispatch_empty ord) in Hst.
  all: injection Hst as Hst; rewrite <- Hst in Hle; simpl in Hle; lia.
Qed.

(** ** Both *)

Lemma own_lowers E e E' :
  going_on E -> closing (e_client E) = false -> own e -> step E e = Some E' -> (cost E' < cost E)%nat.
Proof.
  intros Hgo Hclo Ho Hst. destruct e as [e|e].
  - destruct e as [| | |id a|a|]; try done; [by eapply sender_cost|by eapply receive_cost].
  - destruct e as [| |c h|c h v err|c h]; try done; simpl in Ho; subst c; [by eapply reader_cost|eapply goroutine_cost; [done| |exact Hst]; done..].
Qed.

Lemma unattended_keeps E e E' :
  going_on E -> unattended e -> ~ own e -> step E e = Some E' -> (cost E' <= cost E)%nat.
Proof.
  intros Hgo Hu Ho Hst. destruct e as [e|e]; [|by eapply elsewhere_cost].
  destruct (on_client _ _ _ Hst) as (e' & cc' & new & Hc & Hs). pose proof (client_step_cost _ _ _ _ _ _ _ Hgo Hc Hs Hst) as Hle.
  destruct e as [ch n|ch|id sm args reply dn fresh|id a|a|]; simpl in Hu, Ho; try (by destruct Ho); try done; simpl in Hc; simplify_eq; simpl in Hs;
    unfold client_cost, sends in Hle; [case_bool_decide|destruct (chans (e_client E) !! ch) as [[n [|x l]]|]]; try done;
    injection Hs as Hs; rewrite <- Hs in Hle; simpl in Hle; lia.
Qed.
End measure.
