(* ===== verification/EndToEndProgress.v ===== *)
(** * Every call is answered

    While the client is open, the system goes on until every call is completed with
    a response of the server: no message is lost, no lock is held for ever and no
    goroutine waits for nothing.  [EndToEndMeasure] bounds how long that can take;
    here it is shown that the goroutines can go on as long as a call is open. *)
From S2P Require Import Prelude GoStd Utils Types FreeList Service Plugin Server ServerConn ServerSafety ServerProps ServerProgress ServerTypes Client ClientSafety ClientLedger ClientProps ClientProgress ClientTrace RpcSpec Wire EndToEnd EndToEndServer EndToEndClient EndToEndSafety EndToEndAlive EndToEndMeasure.

Section progress.
Context {V W CC SC M : Type} `{UnicodeTables}
  `{!ClientCodec V CC, !ServerCodec V SC, !Transfer V, !Wire V CC SC M, !WireSpec V CC SC M, !WireLaws V CC SC M}.
Context (ord : gmap string (Plugin V W) -> list (string * Plugin V W)).
Context (invalidRequest : V) (c0 : connid) (others : connid -> SC).

Abbreviation client := (@client V W).
Abbreviation e2e := (@e2e V W CC SC).
Abbreviation sys := (@sys V W SC).
Abbreviation goroutine := (@goroutine V).
Abbreviation step := (e2e_step ord invalidRequest c0 others).
Abbreviation sstep := (sys_step ord invalidRequest (dialled c0 others) (dialled c0 others)).
Implicit Types (E : e2e) (st : client) (cc : CC) (id : callid) (w : wrote V) (ws : list (wrote V))
  (xs : list (exec V)) (ans : list (answer V)) (σ : sys) (g : goroutine) (h : nat) (cn : @conn SC).

(** The steps of the goroutines, where [returns h] is what the method returns that
    goroutine [h] runs. *)
Definition working (returns : nat -> V * option error) (e : e2e_event (V := V)) : Prop :=
  own c0 e ∧ match e with OnServer (EvReturn _ h reply err) => (reply, err) = returns h | _ => True end.

Abbreviation cost := (cost c0).
Abbreviation going_on := (going_on c0).

Definition moves (returns : nat -> V * option error) E : Prop := exists e, working returns e ∧ is_Some (step E e).

(** ** The server *)

Lemma server_moves_on returns E e :
  working returns (OnServer e) -> enabled c0 (e_sys E) e = true -> is_Some (sstep (e_sys E) e) -> moves returns E.
Proof. intros Hw Hen [σ' Hs]. exists (OnServer e). split; [done|]. simpl. unfold server_side. by rewrite Hen, Hs. Qed.

Abbreviation served_in closed_c E := (serving c0 closed_c (e_writes E) (e_execs E) (e_answers E) (e_sys E)).
Abbreviation called_in closed_s E := (calling closed_s (e_writes E) (e_answers E) (e_client E) (e_cc E)).

(** A goroutine that serves a request goes on, unless it has to wait for the
    [sending] mutex. *)
Lemma goroutine_goes_on closed_c returns E h g cn :
  served_in closed_c E -> gs (e_sys E) !! (c0, h) = Some g -> conns (e_sys E) !! c0 = Some cn -> serving_pc (g_pc g) = true ->
  (sending cn = None ∨ locked g = true) -> moves returns E.
Proof.
  intros [Hok _ (L & cn1 & cd & Hc1 & Hl & _) _ _] Hg Hc Hp Hm. assert (cn1 = cn) as -> by congruence.
  apply (server_moves_on returns E (event_of (fun _ => returns) c0 h g)).
  - unfold event_of. destruct (g_pc g); try done. split; [done|]. by destruct (returns h).
  - unfold event_of. by destruct (g_pc g).
  - eapply goroutine_moves; [done..|by rewrite (lo_codec _ _ _ _ _ _ Hl)|done|done].
Qed.

(** So some of them goes on, as long as there is one. *)
Lemma jobs_rest closed_c returns E :
  served_in closed_c E -> moves returns E ∨ forall h g, gs (e_sys E) !! (c0, h) = Some g -> serving_pc (g_pc g) = false.
Proof.
  intros Hs. pose proof Hs as [_ Hi (L & cn & cd & Hc & _) _ _]. pose proof (b_lock _ _ _ (inv_books _ Hi _ _ Hc)) as Hlock.
  destruct (sending cn) as [h|] eqn:Hsend.
  { destruct (proj1 (Hlock h) eq_refl) as (g & Hg & Hl). left. eapply (goroutine_goes_on closed_c returns E h g); [done..| |by right].
    unfold locked in Hl. by destruct (g_pc g). }
  destruct (map_choose_or_empty (filter (fun kg => kg.1.1 = c0 ∧ serving_pc (g_pc kg.2) = true) (gs (e_sys E)))) as [([c h] & g & Hf)|Hf].
  { apply map_lookup_filter_Some in Hf as (Hg & Ec & Hp). simpl in *. subst c. left. eapply (goroutine_goes_on closed_c returns E h g); eauto. }
  right. intros h g Hg. destruct (serving_pc (g_pc g)) eqn:Hp; [|done].
  assert (filter (fun kg : connid * nat * goroutine => kg.1.1 = c0 ∧ serving_pc (g_pc kg.2) = true) (gs (e_sys E)) !! (c0, h) = Some g) as E1
    by (by apply map_lookup_filter_Some). by rewrite Hf in E1.
Qed.

Lemma fresh_goroutine σ : exists h, h <> 0%nat ∧ gs σ !! (c0, h) = None.
Proof.
  destruct (exist_fresh ({[0%nat]} ∪ set_map snd (dom (gs σ)) : gset nat)) as [h Hh]. exists h. split; [set_solver|].
  apply not_elem_of_dom. intros Hin. apply Hh, elem_of_union_r, elem_of_map. by exists (c0, h).
Qed.

(** The reader goes on, unless there is nothing to read. *)
Lemma reader_goes_on closed_c returns E g :
  served_in closed_c E -> gs (e_sys E) !! (c0, 0%nat) = Some g ->
  (g_pc g = Loop ∨ exists q, g_pc g = Reading q ∧ (waiting c0 E <> 0%nat ∨ closed_c = true)) -> moves returns E.
Proof.
  intros Hs Hg Hpc. destruct (fresh_goroutine (e_sys E)) as (h & Hh0 & Hh). pose proof Hs as [_ _ (L & cn0 & cd0 & Hc0 & _) _ _].
  apply (server_moves_on returns E (EvReader c0 h)); [done|..]; simpl; unfold reader_step; rewrite ?Hc0, ?bool_decide_eq_true_2, ?Hg by done;
    (destruct Hpc as [-> |(q & Hpc & Hne)]; [first [done|by destruct (getRequest (reqs (srv (e_sys E))))]|rewrite Hpc]);
    destruct (reader_finds ord c0 others closed_c E g q Hs Hg Hpc) as (cn & cd & Hc & Hcd & Hrdy & Hread & Hend); assert (cn0 = cn) as -> by congruence.
  - unfold server_end. rewrite Hc, Hcd. by apply Hrdy.
  - rewrite Hcd. unfold dispatch_request. destruct (decide (waiting c0 E = 0%nat)) as [Hw|Hw].
    + destruct Hne as [?|Hcc]; [done|]. destruct (Hend Hw Hcc) as (s1 & rr & cd1 & Hr & Hk & [e He]). by rewrite Hr, Hk, He.
    + destruct (Hread Hw) as (rr & cd1 & w & v & Hr & Hk & Hq & _ & _ & Hres). rewrite Hr, Hk, Hq.
      destruct (hr_err (rr_header rr)); [done|]. destruct Hres as (sn & mn & me & v1 & rv & -> & -> & -> & -> & _).
      by rewrite bool_decide_eq_true_2.
Qed.

(** So the server goes on as long as it has a request to read or to answer. *)
Lemma server_rests returns E :
  going_on E -> moves returns E ∨
    (waiting c0 E = 0%nat ∧ forall h g, gs (e_sys E) !! (c0, h) = Some g -> serving_pc (g_pc g) = false).
Proof.
  intros (Hs & _ & _ & g0 & Hg0 & N1 & N2). destruct (jobs_rest false returns E Hs) as [?|Hall]; [by left|].
  pose proof (Hall _ _ Hg0) as Hp0. destruct (g_pc g0) as [|q| | | | | | | | | | | |] eqn:Hpc; try done.
  - left. eapply reader_goes_on; eauto.
  - destruct (decide (waiting c0 E = 0%nat)) as [E0|E0]; [by right|left]. eapply reader_goes_on; eauto 6.
Qed.

(** ** The client *)

Lemma client_moves_on returns E e e' cc' new :
  own c0 (OnClient e) -> client_codec (e_client E) (e_cc E) e = Some (e', cc', new) -> is_Some (client_step ord (e_client E) e') -> moves returns E.
Proof. intros Hw Hc [st' Hs]. exists (OnClient e). split; [done|]. simpl. unfold client_side. by rewrite Hc, Hs. Qed.

(** A sender goes on, unless it has to wait for [reqMutex]. *)
Lemma sender_goes_on closed_s returns E id p :
  called_in closed_s E -> senders (e_client E) !! id = Some p -> (p = SLock -> reqMutex (e_client E) = None) -> moves returns E.
Proof.
  intros Hcl Hp Hm. destruct (sender_call _ _ _ _ _ _ _ Hcl Hp) as [c Hcall].
  assert (exists cc' new err, client_codec (e_client E) (e_cc E) (EvSend id None) = Some (EvSend id err, cc', new)) as (cc' & new & err & Hc).
  { unfold client_codec. rewrite Hp, Hcall. destruct p; try by eexists _, _, _. destruct (WriteRequest _ _ _). by eexists _, _, _. }
  eapply client_moves_on; [|exact Hc|]; [done|]. simpl. unfold send_step. rewrite Hp. destruct p; try done. by rewrite Hm.
Qed.

(** [receive] goes on, unless there is nothing to read. *)
Lemma body_goes_on closed_s returns E r co : called_in closed_s E -> rx (e_client E) = RxBody r co -> moves returns E.
Proof.
  intros Hcl Hrx. destruct (cl_reading _ _ _ _ _ Hcl) as (m & b & Hrd). pose proof (cl_inv _ _ _ _ _ Hcl) as Hi. rewrite Hrx in Hrd.
  pose proof (reading_ready _ _ _ _ _ _ _ r Hrd eq_refl) as Hrdy.
  destruct co as [id|].
  2:{ destruct (DiscardResponseBody (e_cc E)) as [cc1 o] eqn:Hd. eapply (client_moves_on returns E (EvRx ATau)); [done| |].
      - unfold client_codec. by rewrite Hrx, Hrdy, Hd.
      - simpl. unfold rx_step. by rewrite Hrx. }
  destruct (decide (resp_Error r = "")) as [He|He].
  - assert (is_Some (calls (e_client E) !! id)) as [c Hcall].
    { apply elem_of_dom, (open_issued _ _ (ci_books _ Hi)), rx_call_open. by rewrite Hrx. }
    destruct (reading_body _ _ _ _ _ _ _ r (c_Reply c) Hrd eq_refl He) as (cc2 & o2 & Hb & _).
    assert (forall v e, is_Some (client_step ord (e_client E) (EvRx (ABody v e)))) as Hdel.
    { intros v e. simpl. unfold rx_step, deliver, cpm_PostReadResponse. rewrite Hrx, bool_decide_eq_true_2, (ci_cpm _ Hi), (dispatch_empty ord) by done. by eexists. }
    destruct o2 as [v|err]; (eapply (client_moves_on returns E (EvRx (ABody (c_Reply c) None))); [done| |apply Hdel]);
      unfold client_codec; rewrite Hrx, Hrdy, bool_decide_eq_true_2, Hcall, Hb by done; reflexivity.
  - destruct (DiscardResponseBody (e_cc E)) as [cc1 o] eqn:Hd. eapply (client_moves_on returns E (EvRx ATau)); [done| |].
    + unfold client_codec. by rewrite Hrx, Hrdy, bool_decide_eq_false_2, Hd by done.
    + simpl. unfold rx_step. by rewrite Hrx, bool_decide_eq_true_2.
Qed.

(** In its loop it waits only for a header. *)
Lemma loop_goes_on closed_s returns E :
  called_in closed_s E -> in_loop (rx (e_client E)) = true ->
  moves returns E ∨ (rx (e_client E) = RxRead ∧ l_input (client_link (e_cc E)) = []).
Proof.
  intros Hcl Hin. destruct (rx (e_client E)) as [|r|r co|r co| | | |] eqn:Hrx; try done.
  - destruct (l_input (client_link (e_cc E))) as [|x l] eqn:El; [by right|left].
    destruct (ReadResponseHeader (e_cc E) RpcResponse0) as [[cc' r] err] eqn:Hr.
    eapply (client_moves_on returns E (EvRx ATau)); [done| |].
    + unfold client_codec. rewrite Hrx, El, Hr. assert (ready 1 (x :: l) = true) as -> by (by destruct x). reflexivity.
    + simpl. unfold rx_step. rewrite Hrx. by destruct err.
  - left. eapply (client_moves_on returns E (EvRx ATau) _ (e_cc E)); [done|unfold client_codec; by rewrite Hrx|].
    simpl. unfold rx_step. by rewrite Hrx.
  - left. eapply (client_moves_on returns E (EvRx ATau) _ (e_cc E)); [done|unfold client_codec; by rewrite Hrx|].
    simpl. unfold rx_step, cpm_PreReadResponse. by rewrite Hrx, (ci_cpm _ (cl_inv _ _ _ _ _ Hcl)), (dispatch_empty ord).
  - left. by eapply body_goes_on.
Qed.

Lemma rx_rests returns E :
  going_on E -> moves returns E ∨ (rx (e_client E) = RxRead ∧ l_input (client_link (e_cc E)) = []).
Proof. intros (_ & Hcl & [_ _ _ (m & b & _ & Hin & _)] & _). by apply (loop_goes_on false). Qed.

(** ** Both *)

Definition all_done E : Prop := finished (e_client E) ≡ₚ elements (dom (calls (e_client E))).

(** Requests that are all read and owed by nobody are all answered. *)
Lemma requests_answered closed_c ws xs ans σ w :
  serving c0 closed_c ws xs ans σ -> (length ws <= length (read_headers c0 σ))%nat ->
  (forall h g, gs σ !! (c0, h) = Some g -> serving_pc (g_pc g) = false) ->
  w ∈ ws -> exists a, a ∈ ans ∧ an_for a = Some w.
Proof.
  intros Hs Hlen Hno Hw. pose proof Hs as [_ Hi (L & cn & cd & Hc & Hl & _ & _ & Ha) _ _].
  destruct (log_length _ _ _ _ _ _ Hl) as [_ Elen]. unfold read_headers in Hlen. rewrite Hc, <- Elen in Hlen.
  destruct (lo_read _ _ _ _ _ _ Hl) as [E1 E2]. rewrite take_ge in E2 by lia. rewrite <- E2 in Hw.
  apply list_elem_of_fmap in Hw as ([hd w1] & -> & Hp). simpl.
  pose proof (b_headers _ _ _ (inv_books _ Hi _ _ Hc)) as Hb. rewrite (collect_nil (owes c0)), app_nil_r in Hb.
  2:{ intros [c h] g Hg. unfold owes. case_bool_decide as Ec; [|done]. simpl in Ec. subst c. apply Hno in Hg. by destruct (g_pc g). }
  assert (hd ∈ answer_hdr <$> ans) as Hin.
  { rewrite (answers_headers _ _ _ _ _ _ _ _ _ Hs Hc Hl), <- Hb, <- E1. apply list_elem_of_fmap. by exists (hd, w1). }
  apply list_elem_of_fmap in Hin as (a & -> & Hin). exists a. split; [done|].
  destruct (Ha a Hin) as (w2 & E3 & Hw2 & _). rewrite E3. f_equal. by eapply (log_same_hdr _ _ _ _ _ _ (answer_hdr a)).
Qed.

(** When nothing goes on, nothing is left. *)
Lemma system_rests returns E :
  going_on E -> moves returns E ∨ all_done E.
Proof.
  intros Hgo. destruct (server_rests returns E Hgo) as [?|[Hin Hno]]; [by left|].
  destruct (rx_rests returns E Hgo) as [?|[Hrx Hcin]]; [by left|]. pose proof Hgo as (Hs & Hcl & Hl & Ht).
  pose proof (cl_inv _ _ _ _ _ Hcl) as [_ Hx _ Hb _].
  destruct (map_choose_or_empty (senders (e_client E))) as [(id & p & Hp)|Hse].
  { left. destruct (reqMutex (e_client E)) as [[i|]|] eqn:Hm.
    - apply (ex_send _ Hx) in Hm as (p1 & Hp1 & Hn1). by eapply (sender_goes_on false returns E i p1).
    - apply (ex_rx _ Hx) in Hm. by rewrite Hrx in Hm.
    - by eapply (sender_goes_on false returns E id p). }
  right. unfold all_done. unfold books in Hb. rewrite Hb. unfold open_calls, pending_calls, finished.
  rewrite (listening_shutdown _ _ _ _ Hx Hl), Hrx, Hse, collect_empty, (collect_nil (fun _ id => [id])); [simpl; by rewrite app_nil_r|].
  intros s id Hid. exfalso. destruct Hl as [_ Hop Hpend (m & b & Hrd & _ & Hpop)]. rewrite Hrx in Hrd, Hpop.
  destruct (Hpend s id Hid) as [Hse'|(w & Hw & _ & Es)]; [by rewrite Hse in Hse'|].
  destruct (requests_answered _ _ _ _ _ w Hs) as (a & [i Hi]%list_elem_of_lookup & Ew); [unfold waiting in Hin; lia|done|done|].
  pose proof (rd_idle _ _ _ _ _ _ _ Hrd eq_refl Hop) as Hu. rewrite Hcin in Hu. apply (f_equal length) in Hu.
  rewrite length_app, (unread_length enc_answer _ _ (S body_size)) in Hu by (intros; by eapply (answer_length c0)). simpl in Hu.
  pose proof (lookup_lt_Some _ _ _ Hi). pose proof (Hpop i a w) as Hpn. simpl in Hpn. rewrite Es, Hid in Hpn. discriminate Hpn; [nia|done|done].
Qed.

(** While the client is open, only a response of the server completes a call. *)
Lemma finish_call_answers st id err r co :
  co ∈ completed (finish_call st id err (Some r)) -> co ∈ completed st ∨ is_Some (co_resp co).
Proof.
  unfold finish_call. destruct (calls st !! id) as [c|]; [|by left]. simpl.
  intros [?|E%list_elem_of_singleton]%elem_of_app; [by left|right]. subst co. by eexists.
Qed.

Lemma completed_by_answer ws ans st cc e st' co :
  listening ws ans st cc -> client_step ord st e = Some st' -> co ∈ completed st' -> co ∈ completed st ∨ is_Some (co_resp co).
Proof.
  intros Hl Hs. destruct e as [ch n|ch|id sm args reply done fresh|id a|a|]; simpl in Hs.
  - case_bool_decide; simplify_eq. by left.
  - destruct (chans st !! ch) as [[n [|x l]]|]; simplify_eq. by left.
  - case_bool_decide; [|done]. destruct (Go _ _ _ _ _ _ _) as [st1|] eqn:Hg; simplify_eq. apply Go_frame in Hg as (_ & _ & _ & _ & _ & _ & _ & _ & _ & _ & -> & _). by left.
  - unfold send_step in Hs. destruct (senders st !! id) as [p|] eqn:Hp; [|done]. pose proof (li_senders _ _ _ _ Hl id p Hp) as Hg.
    destruct p; try done; unfold register_call in Hs; split_matches; simplify_eq; by left.
  - destruct Hl as [_ _ _ (m & b & _ & Ha & _)]. unfold rx_step in Hs. destruct (rx st) as [|r|r oid|r oid| | | |]; try done.
    1-3: split_matches; simplify_eq; by left.
    destruct oid as [id|]; destruct a; try done; [..|simplify_eq; by left]; (case_bool_decide; [|done]).
    + unfold deliver in Hs. destruct (cpm_PostReadResponse _ _ _) as [[? perr]|]; simplify_eq. by intros Hco%finish_call_answers.
    + simplify_eq. by intros Hco%finish_call_answers.
  - simplify_eq. unfold mark_closing. destruct (closing st); by left.
Qed.

#[local] Instance progress_moves : LTS e2e (e2e_event (V := V)) := step.

Lemma online_next E e E' :
  online ord invalidRequest c0 others E -> step E e = Some E' -> registered (e_client E') <= Word.modulus -> online ord invalidRequest c0 others E'.
Proof.
  intros (s & s1 & E0 & H1 & H2 & H3 & Hr & _) Hs Hb. exists s, s1, E0. split_and!; try done. by eapply reachable_step.
Qed.

Lemma online_answered E :
  online ord invalidRequest c0 others E -> closing (e_client E) = false -> forall co, co ∈ completed (e_client E) -> is_Some (co_resp co).
Proof.
  intros (s & s1 & E0 & Hp & Hst & Hc & Hr & Hb). revert Hb. induction Hr as [|E e E' Hr IH Hs]; intros Hb Hclo co Hco.
  - destruct Hc as (_ & σ & _ & ->). simpl in Hco. by apply elem_of_nil in Hco.
  - pose proof (e2e_registered ord invalidRequest c0 others _ _ _ Hs) as Hreg.
    assert (online ord invalidRequest c0 others E) as Ho by (exists s, s1, E0; split_and!; [done..|lia]).
    change (step E e = Some E') in Hs. destruct e as [e|e]; simpl in Hs.
    + unfold client_side in Hs. destruct (client_codec _ _ _) as [[[e' cc'] new]|]; [|done].
      destruct (client_step ord (e_client E) e') as [st'|] eqn:Hst'; [|done]. injection Hs as <-. simpl in *.
      pose proof (closing_mono ord _ _ _ Hst' Hclo) as Hclo0.
      destruct (online_going_on ord invalidRequest c0 others E Ho Hclo0) as (_ & _ & Hl & _). destruct (completed_by_answer _ _ _ _ _ _ _ Hl Hst' Hco); [|done].
      apply IH; [lia|done|done].
    + unfold server_side in Hs. destruct (enabled _ _ _); [|done]. destruct (sys_step _ _ _ _ _ _); simplify_eq. simpl in *. by apply IH.
Qed.

(** What the steps leave alone while nobody calls or closes. *)
Lemma unattended_keeps_calls E e E' :
  unattended e -> step E e = Some E' ->
  closing (e_client E') = closing (e_client E) ∧ dom (calls (e_client E')) = dom (calls (e_client E)) ∧
  registered (e_client E') <= registered (e_client E) + (if decide (own c0 e) then 1 else 0).
Proof.
  intros Hu Hs. destruct e as [e|e].
  2:{ simpl in Hs. unfold server_side in Hs. destruct (enabled _ _ _); [|done]. destruct (sys_step _ _ _ _ _ _); simplify_eq. simpl.
      split_and!; [done..|]. case_decide; lia. }
  destruct (on_client _ _ _ _ _ _ _ Hs) as (e' & cc' & new & Hc & Hst). destruct (decide (own c0 (OnClient e))) as [Hw|Hw].
  - assert (winding e') as Hwi by (destruct e; try done; simpl in Hc; repeat case_match; simplify_eq; done).
    split_and!; [by eapply winding_closing|by eapply winding_calls|by eapply registered_rise].
  - destruct e as [ch n|ch|id sm args reply dn fresh|id a|a|]; simpl in Hu, Hw; try (by destruct Hw); try done; simpl in Hc; simplify_eq; simpl in Hst;
      [case_bool_decide|destruct (chans (e_client E) !! ch) as [[n [|x l]]|]]; try done; injection Hst as <-; simpl; (split_and!; [done..|lia]).
Qed.

(** An open client that will not run out of sequence numbers, and whose calls are
    [D]. *)
Definition due (D : gset callid) E : Prop :=
  online ord invalidRequest c0 others E ∧ closing (e_client E) = false ∧
  registered (e_client E) + Z.of_nat (cost E) <= Word.modulus ∧ dom (calls (e_client E)) = D.

Lemma due_step D E e E' :
  due D E -> unattended e -> step E e = Some E' -> due D E' ∧ (cost E' <= cost E)%nat ∧ (own c0 e -> cost E' < cost E)%nat.
Proof.
  intros (Ho & Hclo & Hb & Hd) Hu Hs. destruct (unattended_keeps_calls _ _ _ Hu Hs) as (Ec & Ed & Hr).
  pose proof (online_going_on ord invalidRequest c0 others E Ho Hclo) as Hgo.
  assert (own c0 e -> cost E' < cost E)%nat as Hlt by (intros Hw; by eapply (own_lowers ord invalidRequest c0 others)).
  assert (cost E' <= cost E)%nat as Hle.
  { destruct (decide (own c0 e)) as [Hw|Hw]; [specialize (Hlt Hw); lia|by eapply (unattended_keeps ord invalidRequest c0 others)]. }
  split; [|done]. split_and!; [|congruence| |congruence].
  - eapply online_next; [done..|]. case_decide; [specialize (Hlt ltac:(done))|]; lia.
  - case_decide; [specialize (Hlt ltac:(done))|]; lia.
Qed.

Lemma due_rests returns D E : due D E -> moves returns E ∨ all_done E.
Proof. intros (Ho & Hclo & _). by apply system_rests, (online_going_on ord invalidRequest c0 others). Qed.

Lemma working_unattended returns e : working returns e -> unattended e.
Proof. intros [Ho _]. by destruct e as [[]|]. Qed.

(** Every call is completed, once and with a response of the server. *)
Definition answered_all (D : gset callid) E : Prop :=
  (co_call <$> completed (e_client E)) ≡ₚ elements D ∧ forall co, co ∈ completed (e_client E) -> is_Some (co_resp co).

Lemma due_answered D E : due D E -> all_done E -> answered_all D E.
Proof. intros (Ho & Hclo & _ & <-) Hall. split; [done|]. by apply online_answered. Qed.

(** What an open client gets of the system: some run of the goroutines answers
    every call, and in every run - whatever the rest of the system does in between,
    as long as there are no new calls and the client is not closed - they take at
    most [cost] steps, and can go on until every call is answered. *)
Definition answerable E : Prop :=
  closing (e_client E) = false -> registered (e_client E) + Z.of_nat (cost E) <= Word.modulus ->
  forall returns,
    (exists es E', Forall (working returns) es ∧ lts_run E es = Some E' ∧ answered_all (dom (calls (e_client E))) E') ∧
    (forall es E', Forall unattended es -> lts_run E es = Some E' ->
       (length (filter (own c0) es) <= cost E)%nat ∧ (moves returns E' ∨ answered_all (dom (calls (e_client E))) E')).

Lemma online_answerable E : online ord invalidRequest c0 others E -> answerable E.
Proof.
  intros Ho Hc Hb returns. set (D := dom (calls (e_client E))). assert (due D E) as HD by done. split.
  - destruct (lts_comes_to (due D) all_done (working returns) cost) with (s := E) as (es & E' & ? & ? & ? & ?); [..|done|].
    + intros E1 e E2 H1 H2 H3. destruct (due_step _ _ _ _ H1 (working_unattended _ _ H2) H3) as (? & _ & Hlt). split; [done|]. apply Hlt, H2.
    + intros E1 H1. by eapply due_rests.
    + exists es, E'. split_and!; [done..|]. by apply due_answered.
  - intros es E' Hes Hr. destruct (lts_bounded (due D) unattended (own c0) cost (due_step D) es E E') as [HD' Hle]; [done..|].
    split; [lia|]. destruct (due_rests returns D E' HD'); [by left|right; by apply due_answered].
Qed.
End progress.
