(* ===== verification/EndToEndClose.v ===== *)
(** * Close ends everything

    When the client has been closed, both sides come to their end under every
    schedule: the senders and [receive] end with every call completed, the server
    reads and answers the requests that were written before, sees the end of the
    stream, waits for its methods, closes its end and forgets the connection. *)
From S2P Require Import Prelude GoStd Utils Types FreeList Service Plugin Server ServerConn ServerSafety ServerProps ServerProgress ServerTypes Client ClientSafety ClientLedger ClientProps ClientProgress ClientTrace RpcSpec Wire EndToEnd EndToEndServer EndToEndClient EndToEndSafety EndToEndAlive EndToEndMeasure EndToEndProgress.

Section closing.
Context {V W CC SC M : Type} `{UnicodeTables}
  `{!ClientCodec V CC, !ServerCodec V SC, !Transfer V, !Wire V CC SC M, !WireSpec V CC SC M, !WireLaws V CC SC M}.
Context (ord : gmap string (Plugin V W) -> list (string * Plugin V W)).
Context (invalidRequest : V) (c0 : connid) (others : connid -> SC).

Abbreviation client := (@client V W).
Abbreviation e2e := (@e2e V W CC SC).
Abbreviation sys := (@sys V W SC).
Abbreviation goroutine := (@goroutine V).
Abbreviation step := (e2e_step ord invalidRequest c0 others).
Abbreviation sstep := (sys_step ord invalidRequest (dialled c0 others) (dialled c0 others)).
Abbreviation online := (online ord invalidRequest c0 others).
Implicit Types (E : e2e) (st : client) (cc : CC) (id : callid) (σ : sys) (g : goroutine) (h : nat).

(** ** What is kept of both ends *)

(** The reader of the connection has not come to its end. *)
Definition reads_on σ : Prop := exists g, gs σ !! (c0, 0%nat) = Some g ∧ g_pc g <> Tail.

(** The server has its books of the connections; a client that was closed has
    closed its end; and so has the server, or its reader goes on. *)
Record kept E : Prop := {
  kp_accounts : accounts (e_sys E);
  kp_client : closing (e_client E) = true -> l_closed (client_link (e_cc E)) = true;
  kp_server : l_closed (server_end c0 (e_sys E)) = false -> reads_on (e_sys E)
}.

(** Only [Close] sets the flag. *)
Lemma closing_by_Close st e st' : client_step ord st e = Some st' -> e <> EvClose -> closing st' = closing st.
Proof.
  intros Hs Hne. destruct e as [ch n|ch|id sm args reply dn fresh|id a|a|]; try done.
  - simpl in Hs. case_bool_decide; by simplify_eq.
  - simpl in Hs. destruct (chans st !! ch) as [[n [|x l]]|]; by simplify_eq.
  - simpl in Hs. case_bool_decide; [|done]. destruct (Go _ _ _ _ _ _ _) as [st1|] eqn:Hg; simplify_eq. apply Go_frame in Hg. by destruct_and!.
  - by eapply (winding_closing ord st (EvSend id a)).
  - by eapply (winding_closing ord st (EvRx a)).
Qed.

(** What the codec does in a step of the client. *)
Lemma client_effect E e e' cc' new st' :
  e2e_ok c0 E -> client_codec (e_client E) (e_cc E) e = Some (e', cc', new) -> client_step ord (e_client E) e' = Some st' ->
  codec_effect (e_client E) (e_cc E) e' cc' new.
Proof.
  intros [Hsv Hcl] Hc Hst. destruct (cl_reading _ _ _ _ _ Hcl) as (m & b & Hrd).
  eapply (codec_step ord); [apply (cl_inv _ _ _ _ _ Hcl)|by eapply serving_fits| |exact Hrd|exact Hc|exact Hst].
  intros id s. by eapply calling_fresh.
Qed.

Lemma codec_event st cc e e' cc' new : client_codec (V := V) st cc e = Some (e', cc', new) -> e' = EvClose -> e = EvClose.
Proof. intros Hc ->. destruct e; unfold client_codec in Hc; repeat case_match; by simplify_eq. Qed.

Lemma kept_client E e E' : e2e_ok c0 E -> kept E -> client_side ord c0 E e = Some E' -> kept E'.
Proof.
  intros Hok [Ha Hcc Hr] Hs. unfold client_side in Hs. destruct (client_codec _ _ _) as [[[e' cc'] new]|] eqn:Hc; [|done].
  destruct (client_step ord (e_client E) e') as [st'|] eqn:Hst; [|done]. injection Hs as <-. split; simpl.
  - by apply (accounts_keep _ _ Ha).
  - intros Hclo. pose proof (client_effect _ _ _ _ _ _ Hok Hc Hst) as He.
    destruct (closing (e_client E)) eqn:Hc0; [by apply (ce_closed _ _ _ _ _ He), Hcc|].
    assert (e' = EvClose) as ->.
    { destruct e'; try done; by rewrite (closing_by_Close _ _ _ Hst), Hc0 in Hclo by done. }
    pose proof (codec_event _ _ _ _ _ _ Hc eq_refl) as ->. simpl in Hc. rewrite Close_codec, Hc0 in Hc. injection Hc as <- <-.
    destruct Hok as [_ Hcl]. destruct (cl_reading _ _ _ _ _ Hcl) as (m & b & Hrd). by destruct (reading_close _ _ _ _ _ _ _ Hrd) as (_ & ? & _).
  - rewrite feed_server_closed. exact Hr.
Qed.

(** The reader goes on until the server has closed its end. *)
Lemma reads_on_same σ σ' : gs σ' !! (c0, 0%nat) = gs σ !! (c0, 0%nat) -> reads_on σ -> reads_on σ'.
Proof. intros E (g & Hg & ?). exists g. by rewrite E. Qed.

Lemma reads_on_reader σ h σ' :
  server_ok (srv σ) -> reads_on σ -> reader_step ord invalidRequest σ c0 h = Some σ' ->
  reads_on σ' ∨ exists cn, conns σ' !! c0 = Some cn ∧ closed cn = true.
Proof.
  intros Hok (g & Hg & Hne) Hs. unfold reader_step in Hs. rewrite Hg in Hs. destruct (conns σ !! c0) as [cn|] eqn:Hc; [|done].
  destruct (g_pc g) as [|q| | | | | | | | | | | |] eqn:Hpc; try done.
  - left. destruct (getRequest _) as [q P]. simplify_eq. eexists. simpl. by rewrite lookup_insert_eq.
  - left. destruct (codec cn) as [cd|]; [|done].
    destruct (readRequest_effect ord (srv σ) cd q Hok) as (cd1 & rr & Hrr & _). rewrite Hrr in Hs. clear Hrr.
    unfold dispatch_request in Hs. repeat case_match; simplify_eq; unfold reads_on; simpl;
      try (rewrite lookup_insert_ne by naive_solver); rewrite lookup_insert_eq; eexists; by split.
  - right. case_bool_decide; simplify_eq. simpl. rewrite lookup_insert_eq. by eexists.
Qed.

Lemma reads_on_go σ h σ' : inv σ -> reads_on σ -> go_step ord invalidRequest σ c0 h = Some σ' -> reads_on σ'.
Proof.
  intros Hi Hr Hs. unfold go_step in Hs. destruct (gs σ !! (c0, h)) as [g|] eqn:Hg; [|done]. destruct (conns σ !! c0) as [cn|]; [|done].
  assert (forall g', g_pc g' <> Tail -> gs σ' = <[(c0, h) := g']> (gs σ) -> reads_on σ') as Hup.
  { intros g' Hne E. destruct (decide (h = 0%nat)) as [->|Hh]; [exists g'; by rewrite E, lookup_insert_eq|].
    eapply reads_on_same; [|done]. by rewrite E, lookup_insert_ne by congruence. }
  assert (g_pc g = WgDone -> h <> 0%nat) as Hh0.
  { intros E ->. destruct (inv_shape _ Hi _ _ _ Hg) as (_ & Hrd & _). rewrite E in Hrd. by apply Hrd. }
  destruct (g_pc g); try done; repeat case_match; simplify_eq; try (eapply Hup; [|reflexivity]; done).
  eapply reads_on_same; [|done]. simpl. rewrite lookup_delete_ne; [done|]. intros [= ->]. by apply Hh0.
Qed.

Lemma kept_server E e E' : e2e_ok c0 E -> kept E -> step E (OnServer e) = Some E' -> kept E'.
Proof.
  intros Hok0 [Ha Hcc Hr] Hst. pose proof (e2e_ok_server ord invalidRequest c0 others E e E' Hok0 Hst) as [Hsv' _].
  destruct (on_server _ _ _ _ _ _ _ Hst) as [Hen Hss]. pose proof Hok0 as [Hsv _]. pose proof Hsv as [Hok Hi (L & cn & cd & Hc & _) _ _].
  assert (e_client E' = e_client E ∧ l_closed (client_link (e_cc E')) = l_closed (client_link (e_cc E))) as [E1 E2].
  { simpl in Hst. unfold server_side in Hst. rewrite Hen, Hss in Hst. injection Hst as <-. simpl. by rewrite feed_client_closed. }
  split; [by eapply accounts_step|by rewrite E1, E2|]. intros Hop.
  assert (l_closed (server_end c0 (e_sys E)) = false) as Hop0.
  { destruct (l_closed (server_end c0 (e_sys E))) eqn:Ecl; [|done].
    destruct (closed_stays ord invalidRequest c0 others _ _ _ _ _ _ _ Hsv Hen Hss Ecl) as [? _]. congruence. }
  specialize (Hr Hop0). destruct (decide (here c0 e)) as [He|He].
  2:{ destruct (step_elsewhere ord invalidRequest c0 others (e_writes E) (e_sys E) e (e_sys E')) as ((_ & _ & Hg) & _); [done|by eexists|done..|].
      eapply reads_on_same; [apply Hg|done]. }
  destruct e as [| |c h|c h reply err|c h]; try done; simpl in He, Hss; subst c.
  - destruct (reads_on_reader _ _ _ Hok Hr Hss) as [?|(cn' & Hc' & Hcl')]; [done|].
    destruct (server_end_ok _ _ _ _ _ _ Hsv') as (cn1 & Hc1 & _ & E3). congruence.
  - unfold method_returns in Hss. destruct (gs (e_sys E) !! (c0, h)) as [g|] eqn:Hg; [|done]. destruct (g_pc g); try done.
    injection Hss as <-. destruct (decide (h = 0%nat)) as [->|Hh]; unfold reads_on; simpl; [rewrite lookup_insert_eq; by eexists|].
    by rewrite lookup_insert_ne by congruence.
  - by eapply reads_on_go.
Qed.

#[local] Instance closing_moves : LTS e2e (e2e_event (V := V)) := step.

Lemma online_kept E : online E -> e2e_ok c0 E ∧ kept E.
Proof.
  intros (s & s1 & E0 & Hp & Hst & Hc & Hr & Hb). revert Hb. induction Hr as [|E e E' Hr IH Hs]; intros Hb.
  - split; [by eapply (e2e_ok_connected ord invalidRequest c0 others s s1)|].
    pose proof (accounts_started (C := SC) ord s s1 Hp Hst) as Ha. destruct (prepared_start ord s s1 Hp Hst) as (Hok1 & Er1 & Er2 & _). apply prepared_ok in Hp as (Hok & E1 & E2 & _ & E4).
    destruct (serving_connected ord invalidRequest c0 others s s1 E0 Hok E1 E2 E4 Hst Hc) as (_ & _ & g & Hg & Hpc).
    destruct Hc as (_ & σ & Hacc & ->). simpl in *. split; simpl; [|done|].
    + eapply (accounts_step ord invalidRequest (dialled c0 others) (dialled c0 others) (started s1) (EvAccept c0)); [done|by apply inv_started|done|exact Hacc].
    + intros _. exists g. by rewrite Hpc.
  - pose proof (e2e_registered ord invalidRequest c0 others _ _ _ Hs) as Hreg. destruct IH as [Hok Hk]; [lia|].
    split; [by eapply (e2e_ok_step ord invalidRequest c0 others)|]. destruct e; [by eapply kept_client|by eapply kept_server].
Qed.
(** ** The work that is left *)

(** A goroutine of the server, up to the end of [handleConn]. *)
Definition leave_cost (p : pc) : nat :=
  match p with Tail => 1 | Waiting => 2 | Reading _ => 3 | Loop => 4 | p => 4 + go_cost p end.

Definition close_cost E : nat := distance (e_client E) + 24 * waiting c0 E + work c0 leave_cost (e_sys E).

Lemma leave_cost_le p : (leave_cost p <= 4 + go_cost p)%nat.
Proof. destruct p; simpl; lia. Qed.

Lemma leave_cost_serving p : serving_pc p = true -> leave_cost p = (4 + go_cost p)%nat.
Proof. by destruct p. Qed.

Lemma leave_cost_pos p : (0 < leave_cost p)%nat.
Proof. destruct p; simpl; lia. Qed.

(** In terms of the server. *)
Lemma server_leaves E e E' :
  step E (OnServer e) = Some E' ->
  (24 * length (read_headers c0 (e_sys E)) + work c0 leave_cost (e_sys E') <
   24 * length (read_headers c0 (e_sys E')) + work c0 leave_cost (e_sys E))%nat ->
  (length (read_headers c0 (e_sys E')) <= length (e_writes E))%nat -> (close_cost E' < close_cost E)%nat.
Proof.
  intros Hst. simpl in Hst. unfold server_side in Hst. destruct (enabled c0 (e_sys E) e); [|done].
  destruct (sstep (e_sys E) e) as [σ'|]; [|done]. injection Hst as <-. unfold close_cost, waiting. simpl. lia.
Qed.

Abbreviation served_in E := (serving c0 true (e_writes E) (e_execs E) (e_answers E) (e_sys E)).

Lemma headers_bound E e E' : served_in E -> step E (OnServer e) = Some E' -> (length (read_headers c0 (e_sys E')) <= length (e_writes E))%nat.
Proof.
  intros Hs Hst. destruct (on_server _ _ _ _ _ _ _ Hst) as [Hen Hss].
  exact (read_length c0 _ _ _ _ _ (serving_step ord invalidRequest c0 others _ _ _ _ _ _ _ Hs Hen Hss)).
Qed.

Lemma goroutine_leaves E e h E' :
  served_in E -> event_on e c0 h -> step E (OnServer e) = Some E' -> (close_cost E' < close_cost E)%nat.
Proof.
  intros Hs He Hst. pose proof Hs as [Hok Hi (L & cn & cd & Hc & Hl & _) _ _]. destruct (on_server _ _ _ _ _ _ _ Hst) as [_ Hss].
  destruct (event_on_goroutine _ _ _ _ _ _ _ _ He Hss) as [g Hg]. pose proof (event_on_serving _ _ _ _ _ _ _ _ _ _ Hg He Hss) as Hp.
  destruct (step_advances ord invalidRequest _ _ _ _ _ _ _ _ _ Hok Hg Hc He Hss) as ((cn' & Ec & Eh) & Hadv).
  eapply server_leaves; [exact Hst| |by eapply headers_bound]. unfold read_headers. rewrite Ec, lookup_insert_eq, Hc, Eh.
  pose proof (leave_cost_serving _ Hp). destruct Hadv as [(g' & Eg & Hlt)|(Eg & Hpc)].
  - pose proof (work_update c0 leave_cost _ _ _ _ _ Hg Eg). pose proof (leave_cost_le (g_pc g')). lia.
  - pose proof (work_end c0 leave_cost _ _ _ _ Hg Eg). lia.
Qed.

(** The reader moves to a point that is nearer to its end, and reads nothing. *)
Lemma reader_nearer E h E' g g' cn cn' :
  served_in E -> step E (OnServer (EvReader c0 h)) = Some E' -> gs (e_sys E) !! (c0, 0%nat) = Some g -> conns (e_sys E) !! c0 = Some cn ->
  gs (e_sys E') = <[(c0, 0%nat) := g']> (gs (e_sys E)) -> conns (e_sys E') !! c0 = Some cn' -> headers cn' = headers cn ->
  (leave_cost (g_pc g') < leave_cost (g_pc g))%nat -> (close_cost E' < close_cost E)%nat.
Proof.
  intros Hs Hst Hg Hc Eg Hc' Eh Hlt. eapply server_leaves; [exact Hst| |by eapply headers_bound].
  unfold read_headers. rewrite Hc, Hc', Eh. pose proof (work_update c0 leave_cost _ _ _ _ _ Hg Eg). lia.
Qed.

Lemma reader_leaves E h E' :
  served_in E -> step E (OnServer (EvReader c0 h)) = Some E' -> (close_cost E' < close_cost E)%nat.
Proof.
  intros Hs Hst. pose proof Hs as [Hok Hi (L & cn & cd & Hc & Hl & _) _ _]. destruct (on_server _ _ _ _ _ _ _ Hst) as [Hen Hss].
  simpl in Hss. unfold reader_step in Hss. rewrite Hc in Hss. destruct (gs (e_sys E) !! (c0, 0%nat)) as [g|] eqn:Hg; [|done].
  destruct (g_pc g) as [|q| | | | | | | | | | | |] eqn:Hpc; try done.
  - destruct (getRequest (reqs (srv (e_sys E)))) as [q P]. injection Hss as Hss.
    eapply (reader_nearer E h E' g _ cn cn Hs Hst Hg Hc); rewrite <- ?Hss; [reflexivity|done|done|]. rewrite Hpc. simpl. lia.
  - destruct (reader_finds ord c0 others true E g q Hs Hg Hpc) as (cn1 & cd1 & Hc1 & Hcd & _ & Hread & Hend).
    assert (cn1 = cn) as -> by congruence. rewrite Hcd in Hss. destruct (decide (waiting c0 E = 0%nat)) as [Hw|Hw].
    + destruct (Hend Hw eq_refl) as (s1 & rr & cd2 & Hr & Hk & [e He]). rewrite Hr in Hss. unfold dispatch_request in Hss. rewrite Hk, He in Hss.
      injection Hss as Hss. eapply (reader_nearer E h E' g _ cn _ Hs Hst Hg Hc); rewrite <- ?Hss; simpl; [reflexivity|by rewrite lookup_insert_eq|done|].
      rewrite Hpc. simpl. lia.
    + destruct (Hread Hw) as (rr & cd2 & w & v & Hr & Hk & Hq & Hres). rewrite Hr in Hss.
      apply (dispatch_shape invalidRequest c0 _ _ _ _ q w) in Hss as (cn' & Hc' & Eh & g' & Hgs); [|done..]. simpl in Eh, Hgs.
      eapply server_leaves; [exact Hst| |by eapply headers_bound]. unfold read_headers. rewrite Hc, Hc', Eh.
      destruct Hgs as [[Egs Hpc']|(Hh0 & Hh & Egs & Hpc')].
      * pose proof (work_update c0 leave_cost _ _ _ _ _ Hg Egs) as Hj. rewrite Hpc, Hpc' in Hj. simpl in Hj. lia.
      * pose proof (work_start c0 leave_cost _ _ h g _ _ Hg Hh0 Hh Egs) as Hj. rewrite Hpc, Hpc' in Hj. simpl in Hj. lia.
  - case_bool_decide; [|done]. injection Hss as Hss.
    eapply (reader_nearer E h E' g _ cn _ Hs Hst Hg Hc); rewrite <- ?Hss; simpl; [reflexivity|by rewrite lookup_insert_eq|done|]. rewrite Hpc. simpl. lia.
  - unfold finish in Hss. destruct (spm_HandleConnClose _ _ _) as [[? ?]|]; [|done]. injection Hss as Hss.
    eapply server_leaves; [exact Hst| |by eapply headers_bound]. unfold read_headers. rewrite <- Hss. simpl. rewrite Hc.
    pose proof (work_end c0 leave_cost (e_sys E) (e_sys E') 0%nat g Hg ltac:(by rewrite <- Hss)) as Hj. rewrite <- Hss in Hj.
    pose proof (leave_cost_pos (g_pc g)). lia.
Qed.
(** ** The client *)

(** After [Close] no header is read. *)
Lemma no_header closed_s ws ans st cc e e' cc' new st' :
  calling closed_s ws ans st cc -> l_closed (client_link cc) = true ->
  client_codec st cc e = Some (e', cc', new) -> client_step ord st e' = Some st' -> header e' = 0%nat.
Proof.
  intros Hcl Hop Hc Hst. destruct e' as [| | | |[r| | | | |]|]; try done. exfalso. simpl in Hst. unfold rx_step in Hst.
  destruct (rx st) as [|? |?  [?|]|? [?|]| | | |] eqn:Hrx; try done. destruct (cl_reading _ _ _ _ _ Hcl) as (m & b & Hrd). rewrite Hrx in Hrd.
  destruct (wl_header_end cc ws _ b closed_error [] (rd_holds _ _ _ _ _ _ _ Hrd) (rd_closed _ _ _ _ _ _ _ Hrd Hop)) as (cc1 & r1 & Hr & _).
  destruct e; unfold client_codec in Hc; repeat case_match; by simplify_eq.
Qed.

(** What a step of the client leaves of the work of the server. *)
Lemma client_leaves E e e' cc' new E' :
  e2e_ok c0 E -> l_closed (client_link (e_cc E)) = true -> client_codec (e_client E) (e_cc E) e = Some (e', cc', new) ->
  client_step ord (e_client E) e' = Some (e_client E') -> step E (OnClient e) = Some E' ->
  (close_cost E' + distance (e_client E) = close_cost E + distance (e_client E'))%nat.
Proof.
  intros Hok Hop Hc Hst HE. destruct (ce_closed _ _ _ _ _ (client_effect _ _ _ _ _ _ Hok Hc Hst) Hop) as [_ ->].
  simpl in HE. unfold client_side in HE. rewrite Hc in HE. destruct (client_step ord (e_client E) e') as [st'|]; [|done]. injection HE as <-.
  unfold close_cost, waiting, work, read_headers. simpl. rewrite app_nil_r, lookup_alter_eq. destruct (conns (e_sys E) !! c0); simpl; lia.
Qed.

(** ** Both *)

(** A client that was closed, and whose calls are [D]. *)
Definition leaving (D : gset callid) E : Prop :=
  online E ∧ closing (e_client E) = true ∧ winding_up D (e_client E).

Lemma leaving_client D E e E' :
  leaving D E -> unattended (OnClient e) -> step E (OnClient e) = Some E' ->
  closing (e_client E') = true ∧ winding_up D (e_client E') ∧ (close_cost E' <= close_cost E)%nat ∧
  (own c0 (OnClient e) -> close_cost E' < close_cost E)%nat.
Proof.
  intros (Ho & Hclo & Hwu) Hu HE. destruct (online_kept E Ho) as [Hok Hk]. pose proof (kp_client _ Hk Hclo) as Hop. pose proof Hok as [_ Hcl].
  destruct (unattended_keeps_calls _ _ _ _ _ _ _ Hu HE) as (Ec & _ & Hreg). destruct (on_client _ _ _ _ _ _ _ HE) as (e' & cc' & new & Hc & Hst).
  pose proof (client_leaves _ _ _ _ _ _ Hok Hop Hc Hst HE) as Hle. split; [by rewrite Ec|].
  destruct (decide (own c0 (OnClient e))) as [Hw|Hw].
  - assert (winding e') as Hwi by (destruct e; try done; simpl in Hc; repeat case_match; simplify_eq; done).
    destruct (winding_up_step ord D _ _ _ Hwu Hwi Hst) as [? Hlt]. rewrite (no_header _ _ _ _ _ _ _ _ _ _ Hcl Hop Hc Hst) in Hlt.
    split_and!; [done|lia|intros; lia].
  - assert (e' = e) as ->.
    { destruct e as [ch n|ch|id sm args reply dn fresh|id a|a|]; simpl in Hu, Hw; try (by destruct Hw); try done; simpl in Hc; by simplify_eq. }
    assert (distance (e_client E') = distance (e_client E) ∧ winding_up D (e_client E')) as [Ed ?].
    { destruct Hwu as (Hi & Hb & Hd). assert (client_inv (e_client E')) as Hi'.
      { eapply (client_inv_step ord); [done..|]. simpl in Hreg. lia. }
      destruct e as [ch n|ch|id sm args reply dn fresh|id a|a|]; simpl in Hu, Hw; try (by destruct Hw); try done; simpl in Hst;
        [case_bool_decide|destruct (chans (e_client E) !! ch) as [[n [|x l]]|]]; try done; injection Hst as Hst; rewrite <- Hst in *; done. }
    split_and!; [done|lia|done].
Qed.
Lemma leaving_server D E e E' :
  leaving D E -> step E (OnServer e) = Some E' ->
  e_client E' = e_client E ∧ (close_cost E' <= close_cost E)%nat ∧ (here c0 e -> close_cost E' < close_cost E)%nat.
Proof.
  intros (Ho & Hclo & _) Hst. destruct (online_kept E Ho) as [[Hs _] Hk]. rewrite (kp_client _ Hk Hclo) in Hs.
  destruct (on_server _ _ _ _ _ _ _ Hst) as [Hen Hss].
  assert (e_client E' = e_client E ∧ e_writes E' = e_writes E) as [E1 E2].
  { simpl in Hst. unfold server_side in Hst. rewrite Hen, Hss in Hst. by injection Hst as <-. }
  assert (here c0 e -> close_cost E' < close_cost E)%nat as Hlt.
  { intros He. destruct e as [| |c h|c h v err|c h]; try done; simpl in He; subst c; [by eapply reader_leaves|eapply goroutine_leaves; [done| |exact Hst]; done..]. }
  split_and!; [done| |done]. destruct (decide (here c0 e)) as [He|He]; [specialize (Hlt He); lia|].
  pose proof Hs as [Hok _ (L & cn & cd & Hc & _) _ _].
  destruct (step_elsewhere ord invalidRequest c0 others (e_writes E) (e_sys E) e (e_sys E')) as (Hel & _); [done|by eexists|done..|].
  unfold close_cost, waiting, read_headers. rewrite E1, E2, (elsewhere_work c0 leave_cost _ _ Hel). destruct Hel as (_ & -> & _). lia.
Qed.

Lemma leaving_step D E e E' :
  leaving D E -> unattended e -> step E e = Some E' ->
  leaving D E' ∧ (close_cost E' <= close_cost E)%nat ∧ (own c0 e -> close_cost E' < close_cost E)%nat.
Proof.
  intros HD Hu Hs. pose proof HD as (Ho & Hclo & Hwu). destruct e as [e|e].
  - destruct (leaving_client D E e E' HD Hu Hs) as (? & Hw & ? & ?). split; [|done]. split_and!; [|done..].
    eapply online_next; [done..|]. destruct Hw as (_ & ? & _). lia.
  - destruct (leaving_server D E e E' HD Hs) as (E1 & ? & ?). split; [|done]. rewrite <- E1 in Hclo, Hwu. split_and!; [|done..].
    eapply online_next; [done..|]. destruct Hwu as (_ & ? & _). lia.
Qed.

(** ** The end *)

(** No goroutine of either side is left, every call is completed, and the server
    has closed its end and forgotten the connection. *)
Definition gone (D : gset callid) E : Prop :=
  wound_up D (e_client E) ∧ (forall h, gs (e_sys E) !! (c0, h) = None) ∧ l_closed (server_end c0 (e_sys E)) = true ∧
  exists active, activeConn (srv (e_sys E)) = Some active ∧ c0 ∉ active.

Abbreviation moves := (moves ord invalidRequest c0 others).

Lemma receive_leaves closed_s returns E :
  calling closed_s (e_writes E) (e_answers E) (e_client E) (e_cc E) -> l_closed (client_link (e_cc E)) = true -> rx (e_client E) <> RxDone ->
  (reqMutex (e_client E) = None ∨ rx_locked (rx (e_client E)) = true) -> moves returns E.
Proof.
  intros Hcl Hop Hnd Hm. destruct (in_loop (rx (e_client E))) eqn:Hin.
  { destruct (loop_goes_on ord invalidRequest c0 others closed_s returns E Hcl Hin) as [?|[_ El]]; [done|].
    destruct (cl_reading _ _ _ _ _ Hcl) as (m & b & Hrd). by rewrite (rd_closed _ _ _ _ _ _ _ Hrd Hop) in El. }
  assert (forall a, is_Some (rx_step ord (e_client E) a) -> moves returns E) as Hrx.
  { intros a Ha. eapply (client_moves_on ord invalidRequest c0 others returns E (EvRx a) (EvRx a) (e_cc E)); [done| |exact Ha].
    unfold client_codec. by destruct (rx (e_client E)). }
  destruct (rx (e_client E)) as [|r|r co|r co|e|e| |] eqn:Hr; try done.
  - apply (Hrx ATau). unfold rx_step. rewrite Hr. destruct Hm as [->|?]; [|done]. by eexists.
  - apply (Hrx (AOrder (map_to_list (pending (e_client E))).*2)). unfold rx_step. by rewrite Hr, bool_decide_eq_true_2.
  - apply (Hrx ATau). unfold rx_step. by rewrite Hr.
Qed.

Lemma client_gone returns D E :
  leaving D E -> moves returns E ∨ wound_up D (e_client E).
Proof.
  intros (Ho & Hclo & Hwu). destruct (online_kept E Ho) as [[_ Hcl] Hk]. pose proof (kp_client _ Hk Hclo) as Hop.
  pose proof (cl_inv _ _ _ _ _ Hcl) as Hi. pose proof (ci_excl _ Hi) as Hx. destruct (reqMutex (e_client E)) as [[id|]|] eqn:Hm.
  - left. apply (ex_send _ Hx) in Hm as (p & Hp & Hn). by eapply (sender_goes_on ord invalidRequest c0 others).
  - left. apply (ex_rx _ Hx) in Hm. eapply receive_leaves; [done..| |by right]. intros E0. by rewrite E0 in Hm.
  - destruct (rx (e_client E)) eqn:Hr; try (left; eapply receive_leaves; [done..|by rewrite Hr|by left]).
    destruct (map_choose_or_empty (senders (e_client E))) as [(id & p & Hp)|Hs]; [left; by eapply (sender_goes_on ord invalidRequest c0 others)|right].
    by apply wound_up_ended.
Qed.

Lemma server_gone returns D E :
  leaving D E -> moves returns E ∨ forall h, gs (e_sys E) !! (c0, h) = None.
Proof.
  intros (Ho & Hclo & _). destruct (online_kept E Ho) as [[Hs _] Hk]. rewrite (kp_client _ Hk Hclo) in Hs.
  destruct (jobs_rest ord invalidRequest c0 others true returns E Hs) as [?|Hall]; [by left|]. pose proof Hs as [Hok Hi (L & cn & cd & Hc & _) _ _].
  assert (forall h, h <> 0%nat -> gs (e_sys E) !! (c0, h) = None) as Hno.
  { intros h Hh. destruct (gs (e_sys E) !! (c0, h)) as [g|] eqn:Hg; [|done]. destruct (inv_shape _ Hi _ _ _ Hg) as (_ & _ & Hp).
    specialize (Hall _ _ Hg). specialize (Hp Hh). by destruct (g_pc g). }
  destruct (gs (e_sys E) !! (c0, 0%nat)) as [g|] eqn:Hg; [left|right; intros h; destruct (decide (h = 0%nat)) as [->|]; auto].
  pose proof (Hall _ _ Hg) as Hp. destruct (g_pc g) as [|q| | | | | | | | | | | |] eqn:Hpc; try done.
  1,2: eapply (reader_goes_on ord invalidRequest c0 others true); eauto 6.
  - apply (server_moves_on ord invalidRequest c0 others returns E (EvReader c0 0)); [done|simpl; by rewrite bool_decide_eq_true_2, Hg, Hpc by done|].
    simpl. unfold reader_step. rewrite Hg, Hc, Hpc, (b_wg _ _ _ (inv_books _ Hi _ _ Hc)), (collect_nil (handler c0)); [by rewrite bool_decide_eq_true_2|].
    intros [c h] g1 Hg1. unfold handler. case_bool_decide as E1; [|done]. destruct E1 as [E1 E2]. simpl in E1, E2. subst c. by rewrite Hno in Hg1.
  - apply (server_moves_on ord invalidRequest c0 others returns E (EvReader c0 0)); [done|simpl; by rewrite bool_decide_eq_true_2, Hg, Hpc by done|].
    simpl. unfold reader_step, finish, spm_HandleConnClose. rewrite Hg, Hc, Hpc. simpl. by rewrite (ok_spm _ Hok), dispatch_empty.
Qed.

Lemma leaving_rests returns D E : leaving D E -> moves returns E ∨ gone D E.
Proof.
  intros HD. destruct (client_gone returns D E HD) as [?|Hw]; [by left|]. destruct (server_gone returns D E HD) as [?|Hno]; [by left|right].
  destruct HD as (Ho & _). destruct (online_kept E Ho) as [_ [(active & Ha & Hin & _) _ Hr]]. split_and!; [done|done| |].
  - destruct (l_closed (server_end c0 (e_sys E))); [done|]. destruct (Hr eq_refl) as (g & Hg & _). by rewrite Hno in Hg.
  - exists active. split; [done|]. rewrite Hin, Hno. by intros [? ?].
Qed.

Lemma leaving_ends returns D E :
  leaving D E ->
  (exists es E', Forall (working c0 returns) es ∧ lts_run E es = Some E' ∧ gone D E') ∧
  (forall es E', Forall unattended es -> lts_run E es = Some E' ->
     (length (filter (own c0) es) <= close_cost E)%nat ∧ (moves returns E' ∨ gone D E')).
Proof.
  intros HD. split.
  - destruct (lts_comes_to (leaving D) (gone D) (working c0 returns) close_cost) with (s := E) as (es & E' & ? & ? & _ & ?); [..|done|by exists es, E'].
    + intros E1 e E2 H1 H2 H3. destruct (leaving_step _ _ _ _ H1 (working_unattended _ _ _ H2) H3) as (? & _ & Hlt). split; [done|]. apply Hlt, H2.
    + intros E1 H1. by apply leaving_rests.
  - intros es E' Hes Hr. destruct (lts_bounded (leaving D) unattended (own c0) close_cost (leaving_step D) es E E') as [HD' Hle]; [done..|].
    split; [lia|]. by apply leaving_rests.
Qed.

(** What a client that was closed gets of the system. *)
Definition closable E : Prop :=
  closing (e_client E) = true -> registered (e_client E) + Z.of_nat (unsent (e_client E)) <= Word.modulus ->
  forall returns,
    (exists es E', Forall (working c0 returns) es ∧ lts_run E es = Some E' ∧ gone (dom (calls (e_client E))) E') ∧
    (forall es E', Forall unattended es -> lts_run E es = Some E' ->
       (length (filter (own c0) es) <= close_cost E)%nat ∧ (moves returns E' ∨ gone (dom (calls (e_client E))) E')).

Lemma online_closable E : online E -> closable E.
Proof.
  intros Ho Hc Hb returns. apply leaving_ends. split_and!; [done..|]. split_and!; [|done..].
  destruct (online_kept E Ho) as [[_ Hcl] _]. apply (cl_inv _ _ _ _ _ Hcl).
Qed.
End closing.
