(* ===== verification/EndToEndProps.v ===== *)
(** * What a caller can rely on

    The theorems on a client and a server that are joined by a connection, for
    every interleaving of the two and of the server's other connections.  They hold
    for any pair of codecs with the laws of [Wire]; [GobWire] and [JsonWire] have the
    two pairs of this package, and concrete runs with each. *)
From S2P Require Import Prelude GoStd Utils Types FreeList Service Plugin Server ServerConn ServerSafety ServerProps ServerTypes Client ClientSafety ClientLedger ClientProgress ClientTrace RpcSpec Wire EndToEnd EndToEndServer EndToEndClient EndToEndSafety EndToEndRefine EndToEndAlive EndToEndMeasure EndToEndProgress EndToEndClose.

Section props.
Context {V W CC SC M : Type} `{UnicodeTables}
  `{!ClientCodec V CC, !ServerCodec V SC, !Transfer V, !Wire V CC SC M, !WireSpec V CC SC M}.
Context (ord : gmap string (Plugin V W) -> list (string * Plugin V W)).
Context (invalidRequest : V) (c0 : connid) (others : connid -> SC).
Implicit Types (E : @e2e V W CC SC) (w : wrote V) (x : exec V) (c : @Call V) (co : completion).
Abbreviation online := (online ord invalidRequest c0 others).

(** The method was run for the call, with the call's own argument. *)
Definition ran_with E (id : callid) c x w : Prop :=
  x ∈ e_execs E ∧ w ∈ e_writes E ∧ w_call w = id ∧ x_for x = Some w ∧
  splitServiceMethod (tr_text V (c_ServiceMethod c)) = Some (x_meth x) ∧
  exists T arg rv, takes (srv (e_sys E)) (x_meth x) T ∧ decoded T (c_Args c) arg ∧ x_args x = Some (arg, rv).

Lemma ran_for_with E A (offer : string * string -> rtype -> Prop) id c y :
  rtc rpc_step (idle offer) A -> refines A E -> calls (e_client E) !! id = Some c -> ran_for A !! id = Some y ->
  exists x w, y = run_of x ∧ ran_with E id c x w.
Proof.
  intros Hr Him Hc Hy. destruct (ro_ran _ (rpc_ok_runs _ _ Hr) _ _ Hy) as (q & Hq & Hsp & T & arg & rv & Ho & Hd & Ha).
  destruct (im_issued _ _ _ _ _ _ _ Him _ _ Hq) as (c1 & Hc1 & Em & Ea & _). assert (c1 = c) as -> by congruence.
  apply (im_ran _ _ _ _ _ _ _ Him) in Hy as (x & w & ? & ? & ? & ? & ->). exists x, w. split; [done|]. simpl in *.
  split_and!; [done..|congruence|]. exists T, arg, rv. split_and!; [by apply (im_offers _ _ _ _ _ _ _ Him)|congruence|done].
Qed.

(** C1: every run of a client, a server and the connection between them is a run
    of the specification of remote procedure calls: for each state of the system
    there is a state of the specification that it implements, reached by the
    specification's own steps. *)
Theorem system_refines_rpc E :
  WireLaws V CC SC M -> online E ->
  exists offer A, rtc rpc_step (idle offer) A ∧ refines A E.
Proof. intros Hg Ho. by apply (online_refines ord invalidRequest c0 others). Qed.

(** C2: a call that is completed without an error has the reply that its own
    method returned: the method that the call names was run on the server, with
    the call's argument decoded to the type that the method takes; it returned no
    error, or one whose text is empty, which the server does not tell from none; and
    the caller's reply is what the codec decodes from the method's reply.  This
    holds for every pair of codecs with the laws of [Wire]. *)
Theorem reply_is_the_methods E co c :
  WireLaws V CC SC M -> online E ->
  co ∈ completed (e_client E) -> calls (e_client E) !! co_call co = Some c -> co_err co = None ->
  exists x w, ran_with E (co_call co) c x w ∧ err_text (x_err x) = "" ∧
    tr_reply (w_reply w) (x_reply x) = inl (c_Reply c).
Proof.
  intros Hg Ho Hco Hc He. destruct (online_refines ord invalidRequest c0 others E Ho) as ([_ Hcl] & offer & A & Hr & Him).
  destruct (im_done _ _ _ _ _ _ _ Him co Hco) as [o Hres].
  destruct (im_results _ _ _ _ _ _ _ Him _ _ Hres) as (co1 & c1 & Hco1 & Ecall & Hc1 & Hof). assert (c1 = c) as -> by congruence.
  assert (co1 = co) as -> by (eapply NoDup_fmap_inj; [apply (finished_NoDup (e_client E)), (cl_inv _ _ _ _ _ Hcl)|done..]).
  destruct (ro_results _ (rpc_ok_runs _ _ Hr) _ _ Hres) as (q & Hq & Hal).
  destruct o as [v|t|t|e]; simpl in Hof; [|congruence..]. destruct Hof as [_ <-]. destruct Hal as (y & Hy & Et & Hd).
  destruct (ran_for_with _ _ _ _ c _ Hr Him Hc Hy) as (x & w & -> & Hw). exists x, w. split_and!; [done|done|].
  destruct (im_issued _ _ _ _ _ _ _ Him _ _ Hq) as (_ & _ & _ & _ & Hinto & _). destruct Hw as (_ & Hw & Ew & _).
  by rewrite <- (Hinto w Hw Ew).
Qed.

(** C3: a call that is completed with an error of the server has the text of the
    error that its method returned, as the codecs carry it ([tr_text], for gob the
    text itself), or its request was rejected and no method was run for it. *)
Theorem error_is_the_methods E co r c :
  WireLaws V CC SC M -> online E ->
  co ∈ completed (e_client E) -> calls (e_client E) !! co_call co = Some c -> co_resp co = Some r -> resp_Error r <> "" ->
  co_err co = Some (ServerError (resp_Error r)) ∧
  ((exists x w, ran_with E (co_call co) c x w ∧ tr_text V (err_text (x_err x)) = resp_Error r) ∨
   (forall x w, x ∈ e_execs E -> x_for x = Some w -> w_call w <> co_call co)).
Proof.
  intros Hg Ho Hco Hc Hresp Hne. destruct (online_refines ord invalidRequest c0 others E Ho) as ([Hsv Hcl] & offer & A & Hr & Him).
  destruct (le_completed _ (ci_ledger _ (cl_inv _ _ _ _ _ Hcl)) co Hco) as [Hout _]. unfold outcome_ok in Hout. rewrite Hresp in Hout.
  rewrite bool_decide_eq_false_2 in Hout by done. split; [apply Hout|].
  destruct (cl_got _ _ _ _ _ Hcl co r Hco Hresp) as (a & w & Ha & Eh & -> & Hw & Ew & _). simpl in *.
  pose proof (sv_link _ _ _ _ _ _ Hsv) as (L & cn & cd & _ & _ & _ & _ & Hans).
  destruct (Hans a Ha) as (w0 & E0 & _ & Hset). assert (w0 = w) as -> by congruence.
  destruct Hset as [(x & Hx & Ex & Et & _)|[_ Hnx]].
  - left. assert (ran_for A !! co_call co = Some (run_of x)) as Hy by (apply (im_ran _ _ _ _ _ _ _ Him); exists x, w; split_and!; congruence).
    destruct (ran_for_with _ _ _ _ c _ Hr Him Hc Hy) as (x1 & w1 & E1 & Hw1). exists x1, w1. split; [done|].
    unfold run_of in E1. simplify_eq. congruence.
  - right. intros x1 w1 Hx1 Ex1 Ew1. destruct (Hnx x1 Hx1). rewrite Ex1. f_equal.
    destruct (exec_request _ _ _ _ _ _ _ Hsv Hx1) as (w2 & E2 & Hw2 & _). assert (w2 = w1) as -> by congruence.
    eapply requests_differ; [done..|left; congruence].
Qed.

(** C4: a method is run at most once for a call, and only for a call that was
    issued: different runs are for different calls, and each is of the method and
    with the argument of its call. *)
Theorem runs_at_most_once E :
  WireLaws V CC SC M -> online E ->
  (forall x, x ∈ e_execs E -> exists w c, calls (e_client E) !! w_call w = Some c ∧ ran_with E (w_call w) c x w) ∧
  (forall i j x1 x2 w1 w2, e_execs E !! i = Some x1 -> e_execs E !! j = Some x2 ->
     x_for x1 = Some w1 -> x_for x2 = Some w2 -> w_call w1 = w_call w2 -> i = j).
Proof.
  intros Hg Ho. destruct (online_refines ord invalidRequest c0 others E Ho) as ([Hsv Hcl] & _).
  pose proof (sv_link _ _ _ _ _ _ Hsv) as (L & cn & cd & _ & _ & _ & [_ Hnd] & _).
  assert (forall i x w, e_execs E !! i = Some x -> x_for x = Some w -> w ∈ e_writes E) as Hwr.
  { intros i x w Hx%list_elem_of_lookup_2 Ex. destruct (exec_request _ _ _ _ _ _ _ Hsv Hx) as (w1 & E1 & ? & _). congruence. }
  split.
  - intros x Hx. destruct (exec_request _ _ _ _ _ _ _ Hsv Hx) as (w & Eh & Hw & Hsp & T & arg & rv & ? & ? & ?).
    destruct (cl_calls _ _ _ _ _ Hcl w Hw) as (_ & _ & c & Hc & Em & Ea & _). exists w, c. split; [done|].
    split_and!; [done..|congruence|]. exists T, arg, rv. split_and!; [done|congruence|done].
  - intros i j x1 x2 w1 w2 H1 H2 E1 E2 Ew. eapply NoDup_lookup; [exact Hnd|..]; rewrite list_lookup_fmap; [by rewrite H1|].
    rewrite H2. simpl. f_equal. rewrite E1, E2. f_equal. symmetry. eapply requests_differ; [exact Hcl|by eauto|by eauto|by left].
Qed.

#[local] Instance props_moves : LTS (@e2e V W CC SC) (e2e_event (V := V)) := e2e_step ord invalidRequest c0 others.

(** C5: as long as the client is not closed, every call is answered, under every
    schedule.  From each state of the system, in every run without new calls - in
    which services are registered, other connections are accepted and served and
    callers receive from their channels in between - the goroutines of the client
    and of its connection take at most [cost] steps, whatever the methods return;
    and as long as a call is open, some of them can go on.  When none can, exactly
    the calls issued so far are completed, each once and with a response of the
    server: nothing is lost on the way, and no lock or wait group holds the system
    up.  There is a run to that point whatever the methods return.  The bound
    keeps the sequence numbers from wrapping around. *)
Theorem every_call_is_answered (returns : nat -> V * option error) E :
  WireLaws V CC SC M -> online E -> closing (e_client E) = false ->
  registered (e_client E) + Z.of_nat (cost c0 E) <= Word.modulus ->
  let D := dom (calls (e_client E)) in
  (exists es E', Forall (working c0 returns) es ∧ lts_run E es = Some E' ∧ answered_all D E') ∧
  (forall es E', Forall unattended es -> lts_run E es = Some E' ->
     (length (filter (own c0) es) <= cost c0 E)%nat ∧ (moves ord invalidRequest c0 others returns E' ∨ answered_all D E')).
Proof.
  intros Hg Ho Hc Hb. by apply (online_answerable ord invalidRequest c0 others E Ho).
Qed.

(** C6: [Close] ends everything, under every schedule.  From each state of the system
    whose client was closed, in every run without new calls the goroutines of the
    client and of its connection take at most [close_cost] steps, and as long as one
    of them is left some of them can go on.  When none is left, exactly the calls
    issued before are completed, each once, the senders and [receive] have ended,
    and the server has ended its goroutines of the connection, closed its end and
    taken it out of [activeConn]; and there is a run to that point.  The bound keeps
    the sequence numbers from wrapping around. *)
Theorem close_ends_everything (returns : nat -> V * option error) E :
  WireLaws V CC SC M -> online E -> closing (e_client E) = true ->
  registered (e_client E) + Z.of_nat (unsent (e_client E)) <= Word.modulus ->
  let D := dom (calls (e_client E)) in
  (exists es E', Forall (working c0 returns) es ∧ lts_run E es = Some E' ∧ gone c0 D E') ∧
  (forall es E', Forall unattended es -> lts_run E es = Some E' ->
     (length (filter (own c0) es) <= close_cost c0 E)%nat ∧ (moves ord invalidRequest c0 others returns E' ∨ gone c0 D E')).
Proof.
  intros Hg Ho Hc Hb. by apply (online_closable ord invalidRequest c0 others E Ho).
Qed.
End props.

