(* ===== verification/GobWire.v ===== *)
(** * The gob codecs on a connection

    The codecs of [GobCodec] are an instance of [Wire], with which the server's
    default configuration and [NewClient] work.  A request is a header and the
    argument; so is a response.  With [Connect], the theorems on the composed
    system are theorems on what a caller of this package gets, and the last part is
    a run of it. *)
From S2P Require Import Prelude GoStd Utils Types FreeList Service Plugin Server ServerConn ServerSafety ServerProps ServerTypes JsonCodec ServerDemo GobCodec Client ClientSafety ClientLedger ClientProgress ClientTrace RpcSpec Wire EndToEnd EndToEndServer EndToEndClient EndToEndSafety EndToEndRefine EndToEndAlive EndToEndMeasure EndToEndProgress EndToEndClose EndToEndProps.

Section gob_wire.
Context {V : Type} `{GoGob V}.
Implicit Types (s : gob_stream V).

#[export] Instance gob_transfer : Transfer V := {
  tr_text text := text;
  tr_text_empty text := reflexivity (text = "");
  tr_arg := gob_decode_new;
  tr_reply := gob_decode_into
}.

Definition gob_link (s : gob_stream V) : link (gob_value V) := mkLink (g_input s) (g_sent s) (g_closed s).
Definition gob_feed (s : gob_stream V) (ms : list (gob_value V + error)) : gob_stream V :=
  if g_closed s then s else mkGob (g_input s ++ ms) (g_sent s) false (g_closes s).

#[export] Instance gob_wire : Wire V (gobClientCodec V) (gobServerCodec V) (gob_value V) := {
  codecType := "gob";
  new_client := NewGobClientCodec (mkGob [] [] false 0);
  new_server := NewGobServerCodec (mkGob [] [] false 0);
  client_link cc := gob_link (gc_rwc cc);
  client_feed cc ms := mkGobClient (gob_feed (gc_rwc cc) ms) (gc_encBuf cc);
  server_link cd := gob_link (gs_rwc cd);
  server_feed cd ms := mkGobServer (gob_feed (gs_rwc cd) ms) (gs_encBuf cd) (gs_closed cd);
  call_size := 2;
  body_size := 1
}.

(** The server knows a request by the client's own number.  The buffered writers
    stay empty. *)
#[export] Instance gob_wire_spec : WireSpec V (gobClientCodec V) (gobServerCodec V) (gob_value V) := {
  enc_call w := [gob_request (mkRequest (w_method w) (w_seq w) None); GBody (w_args w)];
  enc_head w err _ := gob_response (mkResponse (w_method w) (w_seq w) err None);
  enc_body v := [GBody v];
  client_holds cc _ _ _ := gc_encBuf cc = [];
  server_holds cd log _ := gs_encBuf cd = [] ∧ gs_closed cd = g_closed (gs_rwc cd) ∧
    log.*1 = (fun w => (w_method w, w_seq w)) <$> log.*2
}.

(** A condition on the program, whose arguments and replies are the values of type
    [V]: gob can encode them all.  Gob refuses functions and channels, and values
    without exported fields, and what the codecs do then is another matter
    ([gob_client_loses_step]). *)
Definition encodable_values : Prop := forall v : V, gob_unencodable v = None.

(** What gob documents: an error of decoding has a text. *)
Definition gob_errors_have_text : Prop := forall t (v : V) e, gob_decode_new t v = inr e -> Error e <> "".

Lemma gob_feed_link s ms : gob_link (gob_feed s ms) = feed (gob_link s) ms.
Proof. unfold gob_feed, feed, read_to. simpl. by destruct (g_closed s) eqn:E. Qed.

Lemma gob_next_end s e rest : g_input s = inr e :: rest -> gob_next s = (s, inr e).
Proof. intros Hin. unfold gob_next. by rewrite Hin. Qed.

Lemma gob_next_value s v rest :
  g_input s = inl v :: rest -> exists s', gob_next s = (s', inl v) ∧ gob_link s' = read_to (gob_link s) rest.
Proof. intros Hin. unfold gob_next. rewrite Hin. by eexists. Qed.

(** The server reads a request. *)
Lemma gob_read (cd : gobServerCodec V) log dn w rest :
  server_holds cd log dn -> NoDup (w_seq <$> log.*2 ++ [w]) -> Z.of_nat (length log) < Word.modulus ->
  l_input (server_link cd) = (inl <$> enc_call w) ++ rest ->
  exists cd1 sq, ReadRequestHeader cd RpcRequest0 = (cd1, mkRequest (w_method w) sq None, None) ∧
    (w_method w, sq) ∉ log.*1 ∧
    let after cd2 := server_link cd2 = read_to (server_link cd) rest ∧ server_holds cd2 (log ++ [((w_method w, sq), w)]) dn in
    (forall t, exists cd2, ReadRequestBody cd1 t = (cd2, tr_arg t (w_args w)) ∧ after cd2) ∧
    (exists cd2, DiscardRequestBody cd1 = (cd2, None) ∧ after cd2).
Proof.
  destruct cd as [s buf cl]. simpl. intros (-> & -> & Hlog) Hnd _ Hin. unfold gs_ReadRequestHeader, decode_request. simpl.
  destruct (gob_next_value _ _ _ Hin) as (s' & -> & Hl). unfold gob_request, RpcRequest0. rewrite set_request_fields_sent. simpl.
  assert (forall s2, gob_link s2 = read_to (gob_link s') rest -> gob_link s2 = read_to (gob_link s) rest ∧
    [] = ([] : list (gob_value V)) ∧ g_closed s = g_closed s2 ∧ (log ++ [(w_method w, w_seq w, w)]).*1
      = (fun w => (w_method w, w_seq w)) <$> (log ++ [(w_method w, w_seq w, w)]).*2) as Hafter.
  { intros s2 E. rewrite Hl in E. unfold gob_link, read_to in *. simplify_eq/=. split_and!; [congruence|done|congruence|by rewrite !fmap_app, Hlog]. }
  assert (g_input s' = inl (GBody (w_args w)) :: rest) as Hin' by (unfold gob_link, read_to in Hl; by simplify_eq/=).
  eexists _, _. split; [done|]. split_and!.
  - rewrite Hlog. intros (w1 & E & Hw1)%list_elem_of_fmap. rewrite fmap_app in Hnd. apply NoDup_app in Hnd as (_ & Hnd & _).
    apply (Hnd (w_seq w1)); [by apply list_elem_of_fmap_2|]. simplify_eq. set_solver.
  - intros t. unfold gs_ReadRequestBody, decode_body. simpl. destruct (gob_next_value _ _ _ Hin') as (s2 & -> & Hl2).
    eexists. split; [done|]. by apply Hafter.
  - unfold gs_DiscardRequestBody, decode_nil. simpl. destruct (gob_next_value _ _ _ Hin') as (s2 & -> & Hl2).
    eexists. split; [done|]. by apply Hafter.
Qed.

(** The server writes a response. *)
Lemma gob_respond (cd : gobServerCodec V) log dn w resp v :
  (forall v : V, gob_unencodable v = None) ->
  server_holds cd log dn -> l_closed (server_link cd) = false -> (hdr_of_resp resp, w) ∈ log ->
  exists cd', WriteResponse cd resp v = (cd', None) ∧
    server_link cd' = send_on (server_link cd) (enc_head w (resp_Error resp) v :: enc_body v) ∧
    server_holds cd' log (dn ++ [hdr_of_resp resp]).
Proof.
  intros Henc. destruct cd as [[inp snt cl] buf cl']. simpl. intros (-> & -> & Hlog) -> Hin.
  assert (hdr_of_resp resp = (w_method w, w_seq w)) as [= Em Es].
  { apply list_elem_of_lookup in Hin as [i Hi]. pose proof (f_equal (.!! i) Hlog) as Ei.
    rewrite !list_lookup_fmap, Hi in Ei. simpl in Ei. congruence. }
  unfold gs_WriteResponse, gob_write, encode_body. simpl. rewrite Henc. simpl. eexists. split; [done|]. split_and!; [|done..].
  unfold gob_link, send_on, gob_response. simpl. rewrite <- Em, <- Es. by rewrite <- (assoc_L (++)).
Qed.

Lemma gob_wire_laws : encodable_values -> gob_errors_have_text -> WireLaws V (gobClientCodec V) (gobServerCodec V) (gob_value V).
Proof.
  intros Henc Herr. split; simpl.
  - by right.
  - lia.
  - done.
  - done.
  - done.
  - done.
  - done.
  - intros [s buf] ms. apply gob_feed_link.
  - done.
  - intros [s buf cl] ms. apply gob_feed_link.
  - intros [s buf cl] ms log dn (? & E & ?). simpl in *. split_and!; [done| |done]. rewrite E. unfold gob_feed. by destruct (g_closed s) eqn:?.
  - intros [[inp snt cl] buf] ws rd b w nx. simpl. intros -> -> _. unfold gc_WriteRequest, gob_write, encode_body. simpl.
    rewrite Henc. simpl. eexists. split_and!; [done| |done]. unfold gob_link, send_on. simpl. by rewrite <- (assoc_L (++)).
  - intros [[inp snt cl] buf] ws rd b w nx. simpl. intros -> -> _. unfold gc_WriteRequest, gob_write. simpl. by eexists _, _.
  - intros [s buf] ws rd b w err v rest. simpl. intros -> _ _ _ _ Hin. unfold gc_ReadResponseHeader, decode_response. simpl.
    destruct (gob_next_value _ _ _ Hin) as (s' & -> & Hl). unfold gob_response, RpcResponse0. rewrite set_response_fields_sent. by eexists.
  - intros [s buf] ws rd b e rest. simpl. intros -> Hin. unfold gc_ReadResponseHeader, decode_response. simpl.
    rewrite (gob_next_end _ _ _ Hin). by eexists _, _.
  - intros [s buf] ws rd v x rest. simpl. intros -> Hin. unfold gc_ReadResponseBody, decode_body. simpl.
    destruct (gob_next_value _ _ _ Hin) as (s' & -> & Hl). by eexists.
  - intros [s buf] ws rd v x e. simpl. intros -> Hin. unfold gc_ReadResponseBody, decode_body. simpl.
    rewrite (gob_next_end _ _ _ Hin). by eexists _, _.
  - intros [s buf] ws rd err v rest. simpl. intros -> Hin. unfold gc_DiscardResponseBody, decode_nil. simpl.
    destruct (gob_next_value _ _ _ Hin) as (s' & -> & Hl). by eexists.
  - intros [s buf] ws rd err v e. simpl. intros -> Hin. unfold gc_DiscardResponseBody, decode_nil. simpl.
    rewrite (gob_next_end _ _ _ Hin). by eexists _, _.
  - intros [s buf] ws rd b. simpl. intros ->. unfold gc_Close, gob_close. simpl. by destruct s as [inp snt [] n].
  - apply gob_read.
  - intros [s buf cl] log dn e rest. simpl. intros (-> & -> & Hlog) Hin. unfold gs_ReadRequestHeader, decode_request. simpl.
    rewrite (gob_next_end _ _ _ Hin). by eexists _, _.
  - intros cd log dn w resp v Hh Hc _ _ Hin _. exact (gob_respond cd log dn w resp v Henc Hh Hc Hin).
  - intros [[inp snt cl] buf cl'] log dn. simpl. intros (-> & -> & Hlog) ->. done.
Qed.
End gob_wire.
Arguments encodable_values V {_}.
Arguments gob_errors_have_text V {_}.

(** ** Dialling *)
Section dialling.
Context {V W : Type} `{UnicodeTables} `{GoGob V}.
Abbreviation client := (@client V W).
Abbreviation e2e := (@e2e V W (gobClientCodec V) (gobServerCodec V)).

(** [NewClient]: a client with the gob codec on its connection. *)
Definition NewClient (conn : gob_stream V) : client * gobClientCodec V := (NewClientWithCodec, NewGobClientCodec conn).

(** [Connect]; [Dial] is [net.Dial]. *)
Definition Connect (Dial : string -> string -> gob_stream V + error) (network address : string)
    : client * gobClientCodec V + error :=
  match Dial network address with
  | inr err => inr err
  | inl conn => inl (NewClient conn)
  end.

Context (ord : gmap string (Plugin V W) -> list (string * Plugin V W)).
Context (invalidRequest : V) (c0 : connid) (others : connid -> gobServerCodec V).
#[local] Instance gob_moves : LTS e2e (e2e_event (V := V)) := e2e_step ord invalidRequest c0 others.

(** A client that [Connect] has made on a new connection, and a server that is
    configured for gob and has accepted it. *)
Lemma Connect_connected network address s st cc σ :
  Connect (fun _ _ => inl (mkGob [] [] false 0)) network address = inl (st, cc) -> cfg_CodecType (serverConfig s) = "gob" ->
  accept ord invalidRequest (dialled c0 others) (dialled c0 others) (started s) c0 = Some σ ->
  connected ord invalidRequest c0 others s (mkE2E st cc σ [] [] []).
Proof. intros [= <- <-] Hty Ha. split; [done|]. by exists σ. Qed.

(** C7: a client made by [Connect] and a server configured for gob, in a program
    whose arguments and replies are all values that gob can encode
    ([encodable_values]; a value that it cannot encode breaks the connection): as
    long as at most 2^64 requests are registered, whatever the two do from then
    on, in any interleaving, is a run of the specification of remote procedure
    calls, and as long as the client is not closed every call is answered, under
    every schedule ([answerable]); and once it is closed both sides come to their
    end, under every schedule ([closable]). *)
Theorem gob_system_serves s s1 σ network address st cc (E : e2e) :
  encodable_values V -> gob_errors_have_text V -> prepared ord s -> Start s = Return s1 -> cfg_CodecType (serverConfig s1) = "gob" ->
  accept ord invalidRequest (dialled c0 others) (dialled c0 others) (started s1) c0 = Some σ ->
  Connect (fun _ _ => inl (mkGob [] [] false 0)) network address = inl (st, cc) ->
  reachable (mkE2E st cc σ [] [] []) E -> registered (e_client E) <= Word.modulus ->
  (exists offer A, rtc rpc_step (idle offer) A ∧ refines A E) ∧
  answerable ord invalidRequest c0 others E ∧ closable ord invalidRequest c0 others E.
Proof.
  intros Henc Herr Hp Hst Hty Ha Hc Hr Hb. pose proof (gob_wire_laws Henc Herr) as Hlaws. assert (online ord invalidRequest c0 others E) as Ho.
  { exists s, s1. eexists. split_and!; [done|done|by eapply Connect_connected|done|done]. }
  split_and!; [by apply (online_refines ord invalidRequest c0 others)|by apply online_answerable|by apply online_closable].
Qed.
End dialling.

(** ** A run

    Three calls: one is answered, one fails in its method, and one is of a method
    that does not exist.  The third is answered first. *)
Module GobSystemDemo.
#[local] Existing Instance ServerDemo.ascii_tables.

#[export] Instance int_gob : GoGob Z := {
  gob_unencodable _ := None;
  gob_decode_new _ z := if z <? 0 then inr (ErrNew "gob: negative") else inl z;
  gob_decode_into _ z := inl z
}.

Lemma ints_encodable : encodable_values Z.
Proof. by intros v. Qed.

Lemma int_gob_errors : gob_errors_have_text Z.
Proof. intros t v e. simpl. destruct (v <? 0); [|done]. by intros [= <-]. Qed.

Definition conf : ServerConfig := mkServerConfig "demo.arith.svc" 8888 "gob" 0 0 0 "rr" 0 0.
Definition new : Server Z unit :=
  match newRpcServerWithOptions ServerDemo.Listen tt conf with Return s => s | Panic _ => ServerDemo.new end.
Definition made : Server Z unit :=
  match RegisterService ServerDemo.order new ServerDemo.Arith with Return (s, _) => s | Panic _ => new end.
Definition up : Server Z unit := match Start made with Return s => s | Panic _ => made end.

Lemma gob_made_prepared : prepared ServerDemo.order made.
Proof.
  apply (prepared_register ServerDemo.order new ServerDemo.Arith "" false made None); [|vm_compute; reflexivity].
  apply (prepared_new ServerDemo.order ServerDemo.Listen tt conf). vm_compute. reflexivity.
Qed.

Definition int_laws := gob_wire_laws ints_encodable int_gob_errors.
Definition others (c : connid) : gobServerCodec Z := new_server.
Abbreviation e2e := (@e2e Z unit (gobClientCodec Z) (gobServerCodec Z)).
#[export] Instance demo_lts : LTS e2e (e2e_event (V := Z)) := e2e_step ServerDemo.order 0 0 others.

Definition start : e2e :=
  mkE2E (NewClient (W := unit) (mkGob [] [] false 0)).1 (NewClient (W := unit) (mkGob [] [] false 0)).2
    (default (started up) (accept ServerDemo.order 0 (dialled 0 others) (dialled 0 others) (started up) 0)) [] [] [].

Definition call (id : callid) (sm : string) (args : Z) : list (e2e_event (V := Z)) :=
  OnClient (EvGoCall id sm args 0 None id) :: replicate 4 (OnClient (EvSend id None)).
Definition read_request (h : nat) : list (e2e_event (V := Z)) := replicate 2 (OnServer (EvReader 0 h)).
Definition respond (h : nat) : list (e2e_event (V := Z)) := replicate 7 (OnServer (EvGo 0 h)).
Definition read_response : list (e2e_event (V := Z)) := replicate 4 (OnClient (EvRx ATau)).

Definition events : list (e2e_event (V := Z)) :=
  call 0 "Arith.Double" 21 ++ call 1 "Arith.Double" 13 ++ call 2 "Arith.Halve" 4 ++
  read_request 1 ++ read_request 2 ++ read_request 3 ++ respond 0 ++ read_response ++
  [OnServer (EvGo 0 2); OnServer (EvReturn 0 2 0 (Some (ErrNew "unlucky")))] ++ respond 2 ++
  [OnServer (EvGo 0 1); OnServer (EvReturn 0 1 42 None)] ++ respond 1 ++ read_response ++ read_response.

Definition done : e2e := default start (lts_run start events).

Lemma demo_online es E :
  lts_run start es = Some E -> registered (e_client E) <= Word.modulus -> online ServerDemo.order 0 0 others E.
Proof.
  intros Hr Hb. exists made, up, start. split_and!; [apply gob_made_prepared|reflexivity| | |done].
  - split; [reflexivity|]. by eexists.
  - by apply (lts_run_reachable _ es).
Qed.

Lemma done_online : online ServerDemo.order 0 0 others done.
Proof. apply (demo_online events); vm_compute; [reflexivity|discriminate]. Qed.

Definition call_of (id : callid) : @Call Z := default (mkCall "" 0 0 None 0%nat) (calls (e_client done) !! id).
Definition answer (i : nat) : completion := default (mkCompletion 0 0 None None) (completed (e_client done) !! i).

Lemma system_refines_rpc_witness :
  exists offer A, rtc rpc_step (idle offer) A ∧ refines A done.
Proof. apply (system_refines_rpc ServerDemo.order 0 0 others done int_laws done_online). Defined.

Lemma reply_is_the_methods_witness :
  c_Reply (call_of 0) = 42 ∧ exists x w, ran_with done (co_call (answer 2)) (call_of 0) x w ∧ err_text (x_err x) = "" ∧
    tr_reply (w_reply w) (x_reply x) = inl (c_Reply (call_of 0)).
Proof.
  split; [vm_compute; reflexivity|]. apply (reply_is_the_methods ServerDemo.order 0 0 others done (answer 2) (call_of 0));
    [exact int_laws|exact done_online| |vm_compute; reflexivity..].
  apply (list_elem_of_lookup_2 _ 2). vm_compute. reflexivity.
Defined.

Definition unlucky : RpcResponse := mkResponse "Arith.Double" 1 "unlucky" None.

Lemma error_is_the_methods_witness :
  co_err (answer 1) = Some (ServerError (resp_Error unlucky)) ∧
  ((exists x w, ran_with done (co_call (answer 1)) (call_of 1) x w ∧ err_text (x_err x) = resp_Error unlucky) ∨
   (forall x w, x ∈ e_execs done -> x_for x = Some w -> w_call w <> co_call (answer 1))).
Proof.
  refine (error_is_the_methods ServerDemo.order 0 0 others done (answer 1) unlucky (call_of 1) int_laws done_online _ _ _ _);
    [|vm_compute; reflexivity..|discriminate].
  apply (list_elem_of_lookup_2 _ 1). vm_compute. reflexivity.
Defined.

Lemma runs_at_most_once_witness :
  length (e_execs done) = 2%nat ∧
  (forall x, x ∈ e_execs done -> exists w c, calls (e_client done) !! w_call w = Some c ∧ ran_with done (w_call w) c x w).
Proof.
  split; [vm_compute; reflexivity|]. apply (runs_at_most_once ServerDemo.order 0 0 others done int_laws done_online).
Defined.

(** In the middle: the three requests are written, two are being served and the
    last one is unread. *)
Definition midway : e2e := default start (lts_run start (take 19 events)).

Lemma midway_online : online ServerDemo.order 0 0 others midway.
Proof. apply (demo_online (take 19 events)); vm_compute; [reflexivity|discriminate]. Qed.

Lemma every_call_is_answered_witness :
  completed (e_client midway) = [] ∧ cost 0 midway = 57%nat ∧
  (exists es E', Forall (working 0 (fun _ => (7, None))) es ∧ lts_run midway es = Some E' ∧ answered_all (dom (calls (e_client midway))) E') ∧
  (forall es E', Forall unattended es -> lts_run midway es = Some E' ->
     (length (filter (own 0) es) <= cost 0 midway)%nat ∧
     (moves ServerDemo.order 0 0 others (fun _ => (7, None)) E' ∨ answered_all (dom (calls (e_client midway))) E')).
Proof.
  split; [vm_compute; reflexivity|]. split; [vm_compute; reflexivity|].
  apply (every_call_is_answered ServerDemo.order 0 0 others (fun _ => (7, None)) midway);
    [exact int_laws|exact midway_online|vm_compute; reflexivity|]. vm_compute. discriminate.
Defined.

(** There the client is closed. *)
Definition closed_midway : e2e := default start (lts_run start (take 19 events ++ [OnClient EvClose])).

Lemma closed_midway_online : online ServerDemo.order 0 0 others closed_midway.
Proof. apply (demo_online (take 19 events ++ [OnClient EvClose])); vm_compute; [reflexivity|discriminate]. Qed.

Lemma close_ends_everything_witness :
  completed (e_client closed_midway) = [] ∧ close_cost 0 closed_midway = 76%nat ∧
  (exists es E', Forall (working 0 (fun _ => (7, None))) es ∧ lts_run closed_midway es = Some E' ∧
     gone 0 (dom (calls (e_client closed_midway))) E') ∧
  (forall es E', Forall unattended es -> lts_run closed_midway es = Some E' ->
     (length (filter (own 0) es) <= close_cost 0 closed_midway)%nat ∧
     (moves ServerDemo.order 0 0 others (fun _ => (7, None)) E' ∨ gone 0 (dom (calls (e_client closed_midway))) E')).
Proof.
  split; [vm_compute; reflexivity|]. split; [vm_compute; reflexivity|].
  apply (close_ends_everything ServerDemo.order 0 0 others (fun _ => (7, None)) closed_midway);
    [exact int_laws|exact closed_midway_online|vm_compute; reflexivity|]. vm_compute. discriminate.
Defined.

Lemma gob_system_serves_witness :
  (exists offer A, rtc rpc_step (idle offer) A ∧ refines A midway) ∧
  answerable ServerDemo.order 0 0 others midway ∧ closable ServerDemo.order 0 0 others midway.
Proof.
  eapply (gob_system_serves ServerDemo.order 0 0 others made up (e_sys start) "tcp" "127.0.0.1:8888");
    [exact ints_encodable|exact int_gob_errors|apply gob_made_prepared|reflexivity..| |vm_compute; discriminate].
  apply (lts_run_reachable _ (take 19 events)). vm_compute. reflexivity.
Defined.
End GobSystemDemo.
