(* ===== verification/JsonWire.v ===== *)
(** * The JSON codecs on a connection

    The codecs of [JsonCodec] are an instance of [Wire] as well, for a client made
    with [NewClientWithCodec] and a server that is configured for JSON.  Each
    request and each response is one JSON object.  The server numbers the requests
    itself and keeps the client's number until it answers.  The last part is a run
    of a client and a server with them. *)
From S2P Require Import Prelude GoStd Utils Types FreeList Service Plugin Server ServerConn ServerSafety ServerProps ServerTypes JsonCodec ServerDemo Client ClientSafety ClientLedger ClientProgress ClientTrace RpcSpec Wire EndToEnd EndToEndServer EndToEndClient EndToEndSafety EndToEndRefine EndToEndAlive EndToEndMeasure EndToEndProgress EndToEndClose.

Section json_wire.
Context {V : Type} `{GoJson V} (fold : string -> string -> bool).
Abbreviation jsonClientCodec := (jsonClientCodec (V := V)).
#[local] Instance client_codec_fold : ClientCodec V jsonClientCodec := json_ClientCodec fold.
#[local] Instance server_codec_fold : ServerCodec V jsonServerCodec := json_ServerCodec fold.

#[export] Instance json_transfer : Transfer V := {
  tr_text := Utf8.coerce;
  tr_text_empty := Utf8.coerce_empty;
  tr_arg t v := match marshal v with inl j => unmarshal_params t (JArr [j]) | inr e => inr e end;
  tr_reply x v := match marshal v with inl j => unmarshal_into x j | inr e => inr e end
}.

Definition json_link (s : stream) : link json := mkLink (input s) (sent s) (wclosed s).
Definition json_feed (s : stream) (ms : list (json + error)) : stream :=
  if wclosed s then s else mkStream (input s ++ ms) (sent s) false.

#[export] Instance json_wire : Wire V jsonClientCodec jsonServerCodec json := {
  codecType := "json";
  new_client := NewJsonClientCodec (new_stream []);
  new_server := NewJsonServerCodec (new_stream []);
  client_link cc := json_link (jc_conn cc);
  client_feed cc ms := mkJsonClient (json_feed (jc_conn cc) ms) (jc_req cc) (jc_resp cc) (jc_pending cc);
  server_link cd := json_link (js_conn cd);
  server_feed cd ms := mkJsonServer (json_feed (js_conn cd) ms) (js_req cd) (js_seq cd) (js_pending cd);
  call_size := 1;
  body_size := 0
}.

Definition marshalled (v : V) : json := match marshal v with inl j => j | inr _ => JNull end.

(** The number that the server gives to the request after [i] others. *)
Definition server_number (i : nat) : Z := Word.u64 (Z.of_nat i + 1).

#[export] Instance json_wire_spec : WireSpec V jsonClientCodec jsonServerCodec json := {
  enc_call w := [request_message (Utf8.coerce (w_method w)) (marshalled (w_args w)) (w_seq w)];
  enc_head w err v := JObj [("id", JNum (w_seq w)); ("result", if bool_decide (err = "") then marshalled v else JNull);
                            ("error", if bool_decide (err = "") then JNull else JStr (Utf8.coerce err))];
  enc_body _ := [];
  client_holds cc ws rd b :=
    (forall w, w ∈ ws -> w_seq w ∉ rd -> jc_pending cc !! w_seq w = Some (w_method w)) ∧
    (forall v, b = Some ("", v) -> cr_Result (jc_resp cc) = Some (marshalled v));
  server_holds cd log dn :=
    js_seq cd = Word.u64 (Z.of_nat (length log)) ∧
    forall i hd w, log !! i = Some (hd, w) -> hd = (Utf8.coerce (w_method w), server_number i) ∧
      (hd ∉ dn -> js_pending cd !! server_number i = Some (Some (JNum (w_seq w))))
}.

(** A condition on the program, whose arguments and replies are the values of type
    [V]: each can be marshalled, and not to null.  Encoding/json refuses channels,
    functions and cyclic values and writes nil pointers as null, and what the
    codecs do then is another matter. *)
Definition marshallable_values : Prop := forall v : V, exists j, marshal v = inl j ∧ j <> JNull.

(** What encoding/json documents: an error of decoding has a text. *)
Definition json_errors_have_text : Prop := forall (x : V) j e, unmarshal_into x j = inr e -> Error e <> "".

Lemma json_feed_link s ms : json_link (json_feed s ms) = feed (json_link s) ms.
Proof. unfold json_feed, feed, read_to. simpl. by destruct (wclosed s) eqn:E. Qed.

Lemma next_end s e rest : input s = inr e :: rest -> next_value s = (s, inr e).
Proof. intros Hin. unfold next_value. by rewrite Hin. Qed.

Lemma server_number_inj i j : (Z.of_nat i < Word.modulus) -> (Z.of_nat j < Word.modulus) -> server_number i = server_number j -> i = j.
Proof.
  unfold server_number, Word.u64. intros Hi Hj E. pose proof Word.modulus_pos.
  destruct (decide (Z.of_nat i + 1 = Word.modulus)) as [Ei|]; destruct (decide (Z.of_nat j + 1 = Word.modulus)) as [Ej|]; try lia;
    rewrite ?Ei, ?Ej, ?Z.mod_same in E by lia; rewrite ?Z.mod_small in E by lia; lia.
Qed.

Section total.
Context (Hvalues : marshallable_values) (Herrors : json_errors_have_text).

Lemma marshal_total v : marshal v = inl (marshalled v) ∧ marshalled v <> JNull.
Proof. unfold marshalled. destruct (Hvalues v) as (j & -> & ?). done. Qed.

(** *** The client *)

Lemma json_write (cc : jsonClientCodec) ws rd b w nx :
  client_holds cc ws rd b -> w_seq w ∉ w_seq <$> ws ->
  exists cc', WriteRequest cc (mkRequest (w_method w) (w_seq w) nx) (w_args w)
      = (cc', if wclosed (jc_conn cc) then Some closed_error else None) ∧
    client_link cc' = (if wclosed (jc_conn cc) then client_link cc else send_on (client_link cc) (enc_call w)) ∧
    client_holds cc' (ws ++ [w]) rd b.
Proof.
  intros [Hp Hb] Hn. simpl. unfold jc_WriteRequest, write_value. simpl. destruct (marshal_total (w_args w)) as [-> _].
  assert (forall pend, pend = <[w_seq w := w_method w]> (jc_pending cc) ->
    forall w1, w1 ∈ ws ++ [w] -> w_seq w1 ∉ rd -> pend !! w_seq w1 = Some (w_method w1)) as Hp'.
  { intros pend -> w1 [Hw1|E%list_elem_of_singleton]%elem_of_app Hrd; [|subst w1; by rewrite lookup_insert_eq].
    rewrite lookup_insert_ne; [auto|]. intros E. apply Hn. rewrite E. by apply list_elem_of_fmap_2. }
  destruct (wclosed (jc_conn cc)) eqn:Hc; eexists; (split; [done|]); simpl; (split; [|by auto]); [done|].
  unfold json_link, send_on. simpl. by rewrite Hc.
Qed.

Lemma json_header (cc : jsonClientCodec) ws rd b w err v rest :
  client_holds cc ws rd b -> NoDup (w_seq <$> ws) -> Word.is_u64 (w_seq w) -> w ∈ ws -> w_seq w ∉ rd ->
  input (jc_conn cc) = inl (enc_head w err v) :: rest ->
  exists cc', ReadResponseHeader cc RpcResponse0 = (cc', seen w err, None) ∧
    client_link cc' = read_to (client_link cc) rest ∧ client_holds cc' ws (rd ++ [w_seq w]) (Some (err, v)).
Proof.
  intros [Hp _] Hnd Hu Hw Hr Hin. simpl in *. destruct (marshal_total v) as [Hm Hnn].
  unfold jc_ReadResponseHeader, next_value. rewrite Hin, decode_response by done. simpl. rewrite (Hp w Hw Hr). simpl.
  assert (forall w1, w1 ∈ ws -> w_seq w1 ∉ rd ++ [w_seq w] -> delete (w_seq w) (jc_pending cc) !! w_seq w1 = Some (w_method w1)) as Hp'.
  { intros w1 Hw1 Hr1. rewrite lookup_delete_ne; [apply Hp; set_solver|]. set_solver. }
  destruct (decide (err = "")) as [->|He].
  - rewrite !(bool_decide_eq_true_2 ("" = "")) by done. simpl. rewrite (raw_of_Some _ Hnn), bool_decide_eq_false_2 by naive_solver.
    eexists. split; [done|]. split; [done|]. split; [done|]. simpl. intros v1 [= <-]. done.
  - rewrite !(bool_decide_eq_false_2 (err = "")) by done. simpl.
    rewrite (bool_decide_eq_false_2 (Utf8.coerce err = "")) by (by rewrite Utf8.coerce_empty).
    eexists. split; [done|]. split; [done|]. split; [done|]. intros v1 [= -> _]. done.
Qed.

(** *** The server *)

Lemma json_read cd log dn w rest :
  server_holds (V := V) cd log dn -> Z.of_nat (length log) < Word.modulus ->
  input (js_conn cd) = inl (request_message (Utf8.coerce (w_method w)) (marshalled (w_args w)) (w_seq w)) :: rest ->
  exists cd1, js_ReadRequestHeader fold cd RpcRequest0 = (cd1, mkRequest (Utf8.coerce (w_method w)) (server_number (length log)) None, None) ∧
    (Utf8.coerce (w_method w), server_number (length log)) ∉ log.*1 ∧ sq_Params (js_req cd1) = Some (JArr [marshalled (w_args w)]) ∧
    server_link cd1 = read_to (server_link cd) rest ∧ server_holds cd1 (log ++ [((Utf8.coerce (w_method w), server_number (length log)), w)]) dn.
Proof.
  intros [Hs Hl] Hb Hin. assert (Word.u64 (js_seq cd + 1) = server_number (length log)) as Eq.
  { rewrite Hs. unfold server_number, Word.u64. apply Zplus_mod_idemp_l. }
  assert (forall i hd w1, log !! i = Some (hd, w1) -> server_number i <> server_number (length log)) as Hne.
  { intros i hd w1 Hi%lookup_lt_Some E. apply server_number_inj in E; lia. }
  unfold js_ReadRequestHeader, next_value. rewrite Hin. unfold request_message. rewrite decode_request. simpl. rewrite Eq.
  eexists. split; [done|]. split_and!; [|done|done| |]; simpl.
  - intros ([hd w1] & E & [i Hi]%list_elem_of_lookup)%list_elem_of_fmap. simpl in E. subst hd.
    destruct (Hl _ _ _ Hi) as [[= _ E] _]. by destruct (Hne _ _ _ Hi).
  - rewrite length_app. simpl. unfold server_number. f_equal. lia.
  - intros i hd w1 [Hi|[Hlt Hi]]%lookup_app_Some.
    + destruct (Hl _ _ _ Hi) as [? Hp]. split; [done|]. intros Hd. rewrite lookup_insert_ne; [auto|]. intros E. by destruct (Hne _ _ _ Hi).
    + apply list_lookup_singleton_Some in Hi as [Hi [= <- <-]]. assert (i = length log) as -> by lia. split; [done|].
      intros _. by rewrite lookup_insert_eq.
Qed.

Lemma json_respond cd log dn w resp v :
  server_holds (V := V) cd log dn -> wclosed (js_conn cd) = false -> NoDup log.*1 -> Z.of_nat (length log) <= Word.modulus ->
  (hdr_of_resp resp, w) ∈ log -> hdr_of_resp resp ∉ dn ->
  exists cd', js_WriteResponse cd resp v = (cd', None) ∧
    server_link cd' = send_on (server_link cd) [enc_head w (resp_Error resp) v] ∧ server_holds cd' log (dn ++ [hdr_of_resp resp]).
Proof.
  intros [Hs Hl] Hc Hnd Hb [i Hi]%list_elem_of_lookup Hd. destruct (Hl _ _ _ Hi) as [Eh Hp]. specialize (Hp Hd).
  destruct (marshal_total v) as [Hm _]. unfold js_WriteResponse, write_value.
  assert (resp_Seq resp = server_number i) as -> by (by injection Eh). rewrite Hp, Hc.
  assert ((if bool_decide (resp_Error resp = "") then marshal v else inl JNull)
    = inl (if bool_decide (resp_Error resp = "") then marshalled v else JNull)) as -> by (case_bool_decide; [by rewrite Hm|done]).
  eexists. split; [done|]. split; [simpl; unfold json_link, send_on; simpl; by rewrite Hc|]. split; simpl; [done|].
  intros j hd w1 Hj. destruct (Hl _ _ _ Hj) as [E1 Hp1]. split; [done|]. intros Hd1. rewrite lookup_delete_ne.
  - apply Hp1. set_solver.
  - intros E. apply server_number_inj in E as ->; [|apply lookup_lt_Some in Hi, Hj; lia..]. assert (hd = hdr_of_resp resp) by congruence. set_solver.
Qed.

Lemma json_tr_arg_error t (v : V) e : tr_arg t v = inr e -> Error e <> "".
Proof.
  simpl. destruct (marshal_total v) as [-> Hn]. unfold unmarshal_params, unmarshal. destruct (marshalled v); try done; apply Herrors.
Qed.

Lemma json_wire_laws : WireLaws V jsonClientCodec jsonServerCodec json.
Proof.
  split.
  - by left.
  - simpl. lia.
  - done.
  - done.
  - apply json_tr_arg_error.
  - split; [done|]. split; [by intros w ?%elem_of_nil|done].
  - split; [done|]. by split.
  - intros cc ms. apply json_feed_link.
  - intros cc ms ws rd b Hh. exact Hh.
  - intros cd ms. apply json_feed_link.
  - intros cd ms log dn Hh. exact Hh.
  - intros cc ws rd b w nx Hh Hc Hn. simpl in Hc. destruct (json_write cc ws rd b w nx Hh Hn) as (cc' & Hw & Hl & Hh').
    rewrite Hc in Hw, Hl. eauto.
  - intros cc ws rd b w nx Hh Hc Hn. simpl in Hc. destruct (json_write cc ws rd b w nx Hh Hn) as (cc' & Hw & Hl & Hp & Hb').
    rewrite Hc in Hw, Hl. exists cc', closed_error. split_and!; [done..|]. split; [|done]. intros w1 Hw1. apply Hp. set_solver.
  - intros cc ws rd b w err v rest Hh Hnd Hu Hw Hr Hin. by apply (json_header cc ws rd b w err v rest).
  - intros cc ws rd b e rest [Hp Hb] Hin. simpl in *. unfold jc_ReadResponseHeader. rewrite (next_end _ _ _ Hin).
    eexists _, _. split_and!; [try done..|by intros ? ?].
  - intros cc ws rd v x rest [Hp Hb] Hin. simpl in *. unfold jc_ReadResponseBody. rewrite (Hb v eq_refl).
    destruct (marshal_total v) as [-> _]. eexists. split_and!; [done|by rewrite <- Hin|exact Hp|by intros ? ?].
  - intros cc ws rd v x e [Hp Hb] Hin. simpl in *. unfold jc_ReadResponseBody. rewrite (Hb v eq_refl).
    destruct (marshal_total v) as [-> _]. eexists _, _. split_and!; [try done..|by intros ? ?].
  - intros cc ws rd err v rest [Hp Hb] Hin. simpl in *. eexists. split_and!; [done|by rewrite <- Hin|exact Hp|by intros ? ?].
  - intros cc ws rd err v e [Hp Hb] Hin. simpl in *. eexists _, _. split_and!; [try done..|by intros ? ?].
  - intros cc ws rd b Hh. simpl. unfold jc_Close, close_stream. destruct (wclosed (jc_conn cc)) eqn:E; simpl; (split; [|exact Hh]); [done|].
    unfold json_link. simpl. done.
  - intros cd log dn w rest Hh Hnd Hb Hin. destruct (json_read cd log dn w rest Hh Hb Hin) as (cd1 & Hr & Hn & Hp & Hl & Hh').
    exists cd1, (server_number (length log)). split; [done|]. split; [done|]. split.
    + intros t. exists cd1. split; [|done]. simpl. unfold js_ReadRequestBody. rewrite Hp. by destruct (marshal_total (w_args w)) as [-> _].
    + exists cd1. done.
  - intros cd log dn e rest Hh Hin. simpl in *. unfold js_ReadRequestHeader. rewrite (next_end _ _ _ Hin). by eexists _, _.
  - intros cd log dn w resp v Hh Hc Hnd Hb Hin Hd. by apply json_respond.
  - intros cd log dn Hh Hc. simpl in *. unfold js_Close, close_stream. rewrite Hc. simpl. done.
Qed.
End total.

(** ** The system *)
Context {W : Type} `{UnicodeTables} (ord : gmap string (Plugin V W) -> list (string * Plugin V W)).
Context (invalidRequest : V) (c0 : connid) (others : connid -> jsonServerCodec).
Abbreviation e2e := (@e2e V W jsonClientCodec jsonServerCodec).
#[local] Instance json_moves : LTS e2e (e2e_event (V := V)) := e2e_step ord invalidRequest c0 others.

(** C8: a client made by [NewClientWithCodec] with the JSON codec on a new connection,
    and a server configured for JSON, in a program whose arguments and replies are
    all values that can be marshalled, and not to null ([marshallable_values]; a
    reply that is written as null ends the connection): as long as at most 2^64
    requests are registered, whatever the two do from then on is a run of the
    specification of remote procedure calls, in which names of methods and texts
    of errors arrive with U+FFFD for bytes that are not UTF-8 ([tr_text] is
    [Utf8.coerce]), and as long as the client is not closed every call is answered,
    under every schedule ([answerable]); and once it is closed both sides come to
    their end, under every schedule ([closable]). *)
Theorem json_system_serves s s1 σ (E : e2e) :
  marshallable_values -> json_errors_have_text -> prepared ord s -> Start s = Return s1 -> cfg_CodecType (serverConfig s1) = "json" ->
  accept ord invalidRequest (dialled (V := V) c0 others) (dialled (V := V) c0 others) (started s1) c0 = Some σ ->
  reachable (mkE2E NewClientWithCodec (NewJsonClientCodec (new_stream [])) σ [] [] []) E ->
  registered (e_client E) <= Word.modulus ->
  (exists offer A, rtc rpc_step (idle offer) A ∧ refines A E) ∧
  answerable ord invalidRequest c0 others E ∧ closable ord invalidRequest c0 others E.
Proof.
  intros Hv He Hp Hst Hty Ha Hr Hb. pose proof (json_wire_laws Hv He) as Hlaws. assert (online ord invalidRequest c0 others E) as Ho.
  { exists s, s1. eexists. split_and!; [done|done| |exact Hr|done]. split; [done|]. by exists σ. }
  split_and!; [by apply (online_refines ord invalidRequest c0 others)|by apply online_answerable|by apply online_closable].
Qed.
End json_wire.
Arguments marshallable_values V {_}.
Arguments json_errors_have_text V {_}.

(** ** A run

    Three calls: one is answered, one fails in its method, and one is of a method
    that does not exist.  The third is answered first, so that the numbers of the
    server and of the client differ on the way. *)
Module JsonSystemDemo.
#[local] Existing Instance ServerDemo.ascii_tables.
#[local] Existing Instance ServerDemo.int_json.
#[local] Existing Instance ServerDemo.demo_codec.
#[export] Instance demo_client : ClientCodec Z (jsonClientCodec (V := Z)) := json_ClientCodec String.eqb.
Abbreviation e2e := (@e2e Z unit (jsonClientCodec (V := Z)) jsonServerCodec).

Lemma ints_marshallable : marshallable_values Z.
Proof. intros v. by exists (JNum v). Qed.

Lemma int_json_errors : json_errors_have_text Z.
Proof. intros x j e. destruct j; simpl; by intros [= <-]. Qed.

Definition others (c : connid) : jsonServerCodec := NewJsonServerCodec (new_stream []).
#[export] Instance demo_lts : LTS e2e (e2e_event (V := Z)) := e2e_step ServerDemo.order 0 0 others.

Definition start : e2e :=
  mkE2E NewClientWithCodec (NewJsonClientCodec (new_stream []))
    (default (started ServerDemo.up) (accept ServerDemo.order 0 (dialled (V := Z) 0 others) (dialled (V := Z) 0 others) (started ServerDemo.up) 0)) [] [] [].

Definition call (id : callid) (sm : string) (args : Z) : list (e2e_event (V := Z)) :=
  OnClient (EvGoCall id sm args 0 None id) :: replicate 4 (OnClient (EvSend id None)).
Definition read_request (h : nat) : list (e2e_event (V := Z)) := replicate 2 (OnServer (EvReader 0 h)).
Definition respond (h : nat) : list (e2e_event (V := Z)) := replicate 7 (OnServer (EvGo 0 h)).
Definition read_response : list (e2e_event (V := Z)) := replicate 4 (OnClient (EvRx ATau)).

Definition serving : list (e2e_event (V := Z)) :=
  call 0 "Arith.Double" 21 ++ call 1 "Arith.Double" 13 ++ call 2 "Arith.Halve" 4 ++
  read_request 1 ++ read_request 2 ++ read_request 3 ++ respond 0 ++ read_response.
Definition events : list (e2e_event (V := Z)) :=
  serving ++ [OnServer (EvGo 0 2); OnServer (EvReturn 0 2 0 (Some (ErrNew "unlucky")))] ++ respond 2 ++
  [OnServer (EvGo 0 1); OnServer (EvReturn 0 1 42 None)] ++ respond 1 ++ read_response ++ read_response.

Definition midway : e2e := default start (lts_run start serving).
Definition done : e2e := default start (lts_run start events).

(** What the three calls are completed with. *)
Example outcomes :
  ((fun co => (co_call co, co_err co)) <$> completed (e_client done)) =
    [(2%nat, Some (ServerError "can't find method Arith.Halve")); (1%nat, Some (ServerError "unlucky")); (0%nat, None)] ∧
  (c_Reply <$> calls (e_client done) !! 0%nat) = Some 42.
Proof. vm_compute. split; reflexivity. Qed.

(** After the rejection, two methods are still running. *)
Lemma json_system_serves_witness :
  (exists offer A, rtc rpc_step (idle offer) A ∧ refines A midway) ∧
  answerable ServerDemo.order 0 0 others midway ∧ closable ServerDemo.order 0 0 others midway.
Proof.
  apply (json_system_serves String.eqb ServerDemo.order 0 0 others ServerDemo.made ServerDemo.up (e_sys start));
    [exact ints_marshallable|exact int_json_errors|apply ServerDemo.made_prepared|reflexivity..| |vm_compute; discriminate].
  apply (lts_run_reachable _ serving). vm_compute. reflexivity.
Defined.
End JsonSystemDemo.
