(* ===== verification/Dencoder.v ===== *)
(** * dencoder.go: frames of protobuf messages

    A frame is the length of its data as a base-128 varint and then the data.
    Bytes are integers from 0 to 255.  [encoding/binary]'s varints and
    [io.ReadFull] are written out; protobuf's own encoding and the writer are
    the interfaces [ProtoMessage] and [ByteWriter]. *)
From S2P Require Import Prelude GoStd.

Definition is_byte (b : Z) : Prop := 0 <= b < 256.

(** ** encoding/binary *)

Definition MaxVarintLen64 : nat := 10.

(** The loop of [PutUvarint(buf, x)] with [room] bytes left in [buf]: the bytes
    it writes, or nothing when it would write past the end. *)
Fixpoint PutUvarint (room : nat) (x : Z) : option (list Z) :=
  match room with
  | O => None
  | S room' =>
      if bool_decide (128 <= x)
      then cons (Z.lor (x mod 256) 128) <$> PutUvarint room' (Z.shiftr x 7)
      else Some [x]
  end.

(** A source of bytes: what is still to come, and the error at its end. *)
Record reader := mkReader { r_bytes : list Z; r_end : error }.

Definition ReadByte (r : reader) : reader * (Z + error) :=
  match r_bytes r with
  | [] => (r, inr (r_end r))
  | b :: bs => (mkReader bs (r_end r), inl b)
  end.

Definition errOverflow : error := ErrNew "binary: varint overflows a 64-bit integer".

(** The loop of [ReadUvarint] with [todo] iterations to go; [i], [x] and [s] are
    its variables. *)
Fixpoint read_uvarint (todo : nat) (r : reader) (i : nat) (x s : Z) : reader * (Z + error) :=
  match todo with
  | O => (r, inr errOverflow)
  | S todo' =>
      match ReadByte r with
      | (r1, inr e) => (r1, inr (if bool_decide (i <> 0%nat ∧ e = EOF) then ErrUnexpectedEOF else e))
      | (r1, inl b) =>
          if bool_decide (b < 128) then
            if bool_decide (i = (MaxVarintLen64 - 1)%nat ∧ 1 < b) then (r1, inr errOverflow)
            else (r1, inl (Z.lor x (Word.u64 (Z.shiftl b s))))
          else read_uvarint todo' r1 (S i) (Z.lor x (Word.u64 (Z.shiftl (Z.land b 127) s))) (s + 7)
      end
  end.

Definition ReadUvarint (r : reader) : reader * (Z + error) := read_uvarint MaxVarintLen64 r 0 0 0.

(** [io.ReadFull(r, buf)] for a [buf] of [n] bytes: the bytes read, and the
    error; some bytes before the end make it [ErrUnexpectedEOF]. *)
Definition ReadFull (r : reader) (n : nat) : reader * list Z * option error :=
  let got := take n (r_bytes r) in
  (mkReader (drop n (r_bytes r)) (r_end r), got,
   if bool_decide (length got = n) then None
   else Some (if bool_decide (got <> [] ∧ r_end r = EOF) then ErrUnexpectedEOF else r_end r)).

(** ** The decoder *)

(** A byte slice: the array behind it, as long as its capacity, and its length. *)
Record slice := mkSlice { sl_array : list Z; sl_len : nat }.

Definition sl_data (s : slice) : list Z := take (sl_len s) (sl_array s).
Definition sl_cap (s : slice) : Z := Z.of_nat (length (sl_array s)).

Definition bootstrapLen : nat := 128.

Section dencoder.
(** The largest slice that [make] can allocate. *)
Context (maxAlloc : Z).

(** [readFull].  Slicing below zero, and an allocation that is too large,
    panic. *)
Definition readFull (r : reader) (buf : slice) : outcome (reader * slice * option error) :=
  match ReadUvarint r with
  | (r1, inr e) => Return (r1, mkSlice (sl_array buf) 0, Some e)
  | (r1, inl val) =>
      let size := Word.int64 val in
      let fresh := bool_decide (sl_cap buf < size) in
      if fresh && bool_decide (maxAlloc < size) then Panic "makeslice: len out of range"
      else if bool_decide (size < 0) then Panic "slice bounds out of range"
      else
        let n := Z.to_nat size in
        let array := if fresh then replicate n 0 else sl_array buf in
        let '(r2, got, err) := ReadFull r1 n in
        Return (r2, mkSlice (got ++ drop (length got) array) n, err)
  end.

Class ProtoMessage (M : Type) := {
  Marshal : M -> list Z + error;
  Unmarshal : list Z -> M -> M * option error
}.

Context {M : Type} `{!ProtoMessage M}.

Record Decoder := mkDecoder { d_r : reader; d_buf : slice }.

Definition NewDecoder (r : reader) : Decoder := mkDecoder r (mkSlice (replicate bootstrapLen 0) 0).

(** [Decode(m)]; a nil [m] discards the value. *)
Definition Decode (d : Decoder) (m : option M) : outcome (Decoder * option M * option error) :=
  match readFull (d_r d) (d_buf d) with
  | Panic w => Panic w
  | Return (r, buf, Some e) => Return (mkDecoder r buf, m, Some e)
  | Return (r, buf, None) =>
      let d' := mkDecoder r buf in
      match m with
      | None => Return (d', None, None)
      | Some v => let '(v', e) := Unmarshal (sl_data buf) v in Return (d', Some v', e)
      end
  end.

(** ** The encoder *)

(** A writer, with all that was ever written to it; a write without an error
    has written everything, one with an error a part of it. *)
Class ByteWriter (W : Type) := {
  written : W -> list Z;
  Write : W -> list Z -> W * option error;
  Write_appends w bs w' e : Write w bs = (w', e) ->
    exists n, written w' = written w ++ take n bs ∧ (e = None -> n = length bs)
}.

Context {W : Type} `{!ByteWriter W}.

(** [Encoder]; [e_buf] is what the [proto.Buffer] holds. *)
Record Encoder := mkEncoder { e_size : list Z; e_buf : list Z; e_w : W }.

Definition NewEncoder (w : W) : Encoder := mkEncoder (replicate MaxVarintLen64 0) [] w.

(** [writeFrame] *)
Definition writeFrame (enc : Encoder) (data : list Z) : outcome (Encoder * option error) :=
  match PutUvarint (length (e_size enc)) (Word.u64 (Z.of_nat (length data))) with
  | None => Panic "index out of range"
  | Some hd =>
      let size := hd ++ drop (length hd) (e_size enc) in
      match Write (e_w enc) (take (length hd) size) with
      | (w1, Some e) => Return (mkEncoder size (e_buf enc) w1, Some e)
      | (w1, None) =>
          let '(w2, e) := Write w1 data in Return (mkEncoder size (e_buf enc) w2, e)
      end
  end.

(** [Encode]: [Marshal] appends to the buffer, which is reset on every path. *)
Definition Encode (enc : Encoder) (m : M) : outcome (Encoder * option error) :=
  match Marshal m with
  | inr e => Return (mkEncoder (e_size enc) [] (e_w enc), Some e)
  | inl bs =>
      match writeFrame (mkEncoder (e_size enc) (e_buf enc ++ bs) (e_w enc)) (e_buf enc ++ bs) with
      | Panic w => Panic w
      | Return (enc', e) => Return (mkEncoder (e_size enc') [] (e_w enc'), e)
      end
  end.

(** [encode]: a value that is not a message is refused. *)
Definition encode (enc : Encoder) (m : M + string) : outcome (Encoder * option error) :=
  match m with
  | inl pb => Encode enc pb
  | inr typeName => Return (enc, Some (ErrNew (typeName +:+ " does not implement proto.Message")))
  end.

(** ** Varints *)

Lemma PutUvarint_byte room x bs : 0 <= x -> PutUvarint room x = Some bs -> Forall is_byte bs.
Proof.
  revert x bs; induction room as [|room IH]; intros x bs Hx Hp; simpl in Hp; [done|].
  case_bool_decide; [|simplify_eq; constructor; [unfold is_byte; lia|constructor]].
  apply fmap_Some in Hp as (bs' & Hp & ->). constructor.
  - unfold is_byte. assert (0 <= x mod 256 < 2 ^ 8) as Hm by (apply Z.mod_pos_bound; lia).
    assert (0 <= Z.lor (x mod 256) 128) by (apply Z.lor_nonneg; lia). split; [done|].
    destruct (decide (Z.lor (x mod 256) 128 = 0)); [lia|].
    apply (Z.log2_lt_pow2 _ 8); [lia|]. rewrite Z.log2_lor by lia. apply Z.max_lub_lt; [|done].
    destruct (decide (x mod 256 = 0)) as [->|]; [done|]. apply Z.log2_lt_pow2; lia.
  - eapply IH; [|done]. apply Z.shiftr_nonneg. lia.
Qed.

Lemma PutUvarint_length room x bs :
  PutUvarint room x = Some bs -> (1 <= length bs <= room)%nat.
Proof.
  revert x bs; induction room as [|room IH]; intros x bs Hp; simpl in Hp; [done|].
  case_bool_decide; [|simplify_eq/=; lia].
  apply fmap_Some in Hp as (bs' & Hp & ->). apply IH in Hp. simpl. lia.
Qed.

Lemma PutUvarint_fits room x :
  0 <= x < 2 ^ (7 * Z.of_nat room) -> (room <> 0)%nat -> is_Some (PutUvarint room x).
Proof.
  revert x; induction room as [|room IH]; intros x Hx Hr; [done|]. simpl.
  case_bool_decide as Hb; [|by eexists]. apply fmap_is_Some.
  rewrite Z.shiftr_div_pow2 by lia. change (2 ^ 7) with 128. destruct room as [|room].
  - change (2 ^ (7 * Z.of_nat 1)) with 128 in Hx. lia.
  - apply IH; [|done]. split; [apply Z.div_pos; lia|]. apply Z.div_lt_upper_bound; [lia|].
    change 128 with (2 ^ 7). rewrite <- Z.pow_add_r by lia. replace (7 + 7 * Z.of_nat (S room)) with (7 * Z.of_nat (S (S room))) by lia.
    lia.
Qed.

(** A bit field put above the bits of [x]. *)
Lemma lor_shiftl x b s : 0 <= s -> 0 <= x < 2 ^ s -> Z.lor x (Z.shiftl b s) = x + b * 2 ^ s.
Proof.
  intros Hs Hx. rewrite <- Z.shiftl_mul_pow2 by done. symmetry. apply Z.add_nocarry_lor.
  apply Z.bits_inj'. intros n Hn. rewrite Z.land_spec, Z.bits_0.
  destruct (decide (n < s)); [rewrite (Z.shiftl_spec_low b) by done; apply andb_false_r|].
  destruct (decide (x = 0)) as [->|]; [by rewrite Z.bits_0|].
  rewrite (Z.bits_above_log2 x); [done|lia|]. apply Z.log2_lt_pow2; [lia|].
  eapply Z.lt_le_trans; [apply Hx|]. apply Z.pow_le_mono_r; lia.
Qed.

Lemma land_127 x : Z.land (Z.lor (x mod 256) 128) 127 = x mod 128.
Proof.
  rewrite Z.land_lor_distr_l. change 127 with (Z.ones 7). rewrite Z.land_ones by lia.
  change (Z.land 128 (Z.ones 7)) with 0. rewrite Z.lor_0_r. change (2 ^ 7) with 128.
  apply Z.mod_mod_divide. by exists 2.
Qed.

Lemma lor_128 x : 128 <= Z.lor (x mod 256) 128.
Proof.
  assert (0 <= x mod 256) by (apply Z.mod_pos_bound; lia).
  assert (0 <= Z.lor (x mod 256) 128) by (apply Z.lor_nonneg; lia).
  assert (Z.lor (x mod 256) 128 <> 0) by (intros [_ ?]%Z.lor_eq_0_iff; lia).
  apply (Z.log2_le_pow2 _ 7); [lia|]. rewrite Z.log2_lor by lia. change (Z.log2 128) with 7. lia.
Qed.

(** The reading loop takes up where the writing loop is. *)
Lemma read_uvarint_put room x bs i acc rest e :
  PutUvarint room x = Some bs -> 0 <= x -> (i < MaxVarintLen64)%nat ->
  0 <= acc < 2 ^ (7 * Z.of_nat i) -> acc + x * 2 ^ (7 * Z.of_nat i) < Word.modulus ->
  read_uvarint (MaxVarintLen64 - i) (mkReader (bs ++ rest) e) i acc (7 * Z.of_nat i)
  = (mkReader rest e, inl (acc + x * 2 ^ (7 * Z.of_nat i))).
Proof.
  revert x bs i acc; induction room as [|room IH]; intros x bs i acc Hp Hx Hi Ha Hb; [done|].
  simpl in Hp. set (s := 7 * Z.of_nat i) in *. assert (0 < 2 ^ s) as Hs by (apply Z.pow_pos_nonneg; lia).
  destruct (MaxVarintLen64 - i)%nat as [|todo] eqn:Htodo; [lia|]. cbn [read_uvarint].
  assert (i = 9%nat -> x < 2) as H9.
  { intros ->. subst s. change (2 ^ (7 * Z.of_nat 9)) with (2 ^ 63) in *. unfold Word.modulus in Hb.
    change (2 ^ 64) with (2 * 2 ^ 63) in Hb. nia. }
  case_bool_decide as Hge.
  - apply fmap_Some in Hp as (bs' & Hp & ->). simpl.
    pose proof (lor_128 x). rewrite bool_decide_eq_false_2 by lia. rewrite land_127.
    assert (0 <= x mod 128 < 128) by (apply Z.mod_pos_bound; lia).
    pose proof (Z.div_mod x 128 ltac:(lia)) as Hdm.
    assert (0 <= x / 128) by (apply Z.div_pos; lia).
    rewrite Word.u64_small, lor_shiftl by
      (try split; unfold Word.is_u64; rewrite ?Z.shiftl_mul_pow2 by lia; try lia; nia).
    assert (i <> 9%nat) by (intros E; specialize (H9 E); lia). unfold MaxVarintLen64 in *.
    replace todo with (10 - S i)%nat by lia. replace (s + 7) with (7 * Z.of_nat (S i)) by lia.
    assert (2 ^ (7 * Z.of_nat (S i)) = 128 * 2 ^ s) as Hpow.
    { replace (7 * Z.of_nat (S i)) with (7 + s) by lia. rewrite Z.pow_add_r by lia. lia. }
    rewrite Z.shiftr_div_pow2 in Hp by lia. change (2 ^ 7) with 128 in Hp.
    rewrite (IH (x / 128) bs' (S i)); rewrite ?Hpow; try done; [|lia|nia|nia].
    do 2 f_equal. nia.
  - simplify_eq. simpl. rewrite bool_decide_eq_true_2 by lia. unfold MaxVarintLen64.
    rewrite bool_decide_eq_false_2 by (intros [-> ?]; specialize (H9 eq_refl); lia).
    rewrite Word.u64_small, lor_shiftl by
      (try split; unfold Word.is_u64; rewrite ?Z.shiftl_mul_pow2 by lia; try lia; nia).
    done.
Qed.

Lemma ReadUvarint_put room x bs rest e :
  PutUvarint room x = Some bs -> Word.is_u64 x ->
  ReadUvarint (mkReader (bs ++ rest) e) = (mkReader rest e, inl x).
Proof.
  intros Hp [Hx Hm]. unfold ReadUvarint. change 0 with (7 * Z.of_nat 0) at 2.
  change MaxVarintLen64 with (MaxVarintLen64 - 0)%nat.
  rewrite (read_uvarint_put room x bs 0 0 rest e Hp Hx); change (2 ^ (7 * Z.of_nat 0)) with 1;
    [do 2 f_equal; lia|unfold MaxVarintLen64; lia|lia..].
Qed.

(** The bytes of a frame. *)
Definition frame (data : list Z) : option (list Z) :=
  (fun hd => hd ++ data) <$> PutUvarint MaxVarintLen64 (Z.of_nat (length data)).

Lemma frame_some (data : list Z) :
  Z.of_nat (length data) < 2 ^ 63 -> exists hd, PutUvarint MaxVarintLen64 (Z.of_nat (length data)) = Some hd.
Proof.
  intros Hl. destruct (PutUvarint_fits MaxVarintLen64 (Z.of_nat (length data))) as [hd Hhd]; [|done|eauto].
  unfold MaxVarintLen64. change (2 ^ (7 * Z.of_nat 10)) with (2 ^ 70). assert (2 ^ 63 < 2 ^ 70) by done. lia.
Qed.

(** Reading a frame that is there. *)
Lemma readFull_frame data fr rest e buf :
  Z.of_nat (length data) < 2 ^ 63 -> Z.of_nat (length data) <= maxAlloc -> frame data = Some fr ->
  exists buf', readFull (mkReader (fr ++ rest) e) buf = Return (mkReader rest e, buf', None) ∧ sl_data buf' = data.
Proof.
  intros Hl Hm Hf. unfold frame in Hf. apply fmap_Some in Hf as (hd & Hhd & ->).
  unfold readFull. rewrite <- (assoc_L (++)), (ReadUvarint_put _ _ _ _ _ Hhd).
  2: { unfold Word.is_u64, Word.modulus. assert (2 ^ 63 < 2 ^ 64) by done. lia. }
  rewrite Word.int64_small by lia. rewrite (bool_decide_eq_false_2 (maxAlloc < _)) by lia.
  rewrite andb_false_r, bool_decide_eq_false_2 by lia. rewrite Nat2Z.id. unfold ReadFull. simpl.
  rewrite take_app_length, drop_app_length. rewrite (bool_decide_eq_true_2 (length data = _)) by done.
  eexists. split; [done|]. unfold sl_data. simpl. by rewrite take_app_length.
Qed.

(** Writing a frame to a writer that takes everything. *)
Lemma writeFrame_ok (enc enc' : Encoder) data :
  length (e_size enc) = MaxVarintLen64 -> Z.of_nat (length data) < 2 ^ 63 ->
  writeFrame enc data = Return (enc', None) ->
  exists fr, frame data = Some fr ∧ written (e_w enc') = written (e_w enc) ++ fr ∧
    length (e_size enc') = MaxVarintLen64 ∧ e_buf enc' = e_buf enc.
Proof.
  intros Hs Hl. destruct (frame_some data Hl) as [hd Hhd]. unfold writeFrame, frame. rewrite Hs.
  rewrite Word.u64_small by (unfold Word.is_u64, Word.modulus; assert (2 ^ 63 < 2 ^ 64) by done; lia).
  rewrite Hhd. simpl. rewrite take_app_length.
  destruct (Write (e_w enc) hd) as [w1 [e|]] eqn:H1; [done|].
  destruct (Write w1 data) as [w2 e2] eqn:H2. intros [= <- ->].
  apply Write_appends in H1 as (n1 & E1 & Hn1). apply Write_appends in H2 as (n2 & E2 & Hn2).
  rewrite Hn1 in E1 by done. rewrite Hn2 in E2 by done. rewrite take_ge in E1, E2 by lia.
  eexists. split; [done|]. simpl. split_and!; [by rewrite E2, E1, (assoc_L (++))| |done].
  pose proof (PutUvarint_length _ _ _ Hhd). rewrite length_app, length_drop. lia.
Qed.

(** A varint that is cut short. *)
Lemma read_uvarint_cut room x bs i k acc s :
  PutUvarint room x = Some bs -> 0 <= x < 2 ^ (7 * Z.of_nat (MaxVarintLen64 - i)) ->
  (i < MaxVarintLen64)%nat -> (k < length bs)%nat ->
  read_uvarint (MaxVarintLen64 - i) (mkReader (take k bs) EOF) i acc s
  = (mkReader [] EOF, inr (if bool_decide (i = 0 ∧ k = 0)%nat then EOF else ErrUnexpectedEOF)).
Proof.
  revert x bs i k acc s; induction room as [|room IH]; intros x bs i k acc s Hp Hx Hi Hk; [done|].
  simpl in Hp. destruct (MaxVarintLen64 - i)%nat as [|todo] eqn:Ht; [lia|]. cbn [read_uvarint].
  destruct k as [|k].
  { simpl. do 2 f_equal. destruct i; done. }
  rewrite (bool_decide_eq_false_2 (i = 0 ∧ S k = 0)%nat) by lia.
  case_bool_decide as Hge; [|by simplify_eq/=; lia].
  apply fmap_Some in Hp as (bs' & Hp & ->). simpl in *. pose proof (lor_128 x).
  rewrite bool_decide_eq_false_2 by lia. rewrite Z.shiftr_div_pow2 in Hp by lia. change (2 ^ 7) with 128 in Hp.
  destruct todo as [|todo].
  { exfalso. change (2 ^ (7 * Z.of_nat 1)) with 128 in Hx. lia. }
  replace (S todo) with (MaxVarintLen64 - S i)%nat by lia.
  rewrite (IH (x / 128) bs' (S i) k); [by rewrite bool_decide_eq_false_2 by lia|done| |lia|lia].
  split; [apply Z.div_pos; lia|]. apply Z.div_lt_upper_bound; [lia|].
  change 128 with (2 ^ 7). rewrite <- Z.pow_add_r by lia. replace (7 + 7 * Z.of_nat (MaxVarintLen64 - S i)) with (7 * Z.of_nat (S (S todo))) by lia. lia.
Qed.

(** ** Properties *)

(** The length of a frame always fits the ten bytes set aside for it, and
    any 64-bit unsigned number that [PutUvarint] writes is what [ReadUvarint]
    reads, which leaves the rest of the input alone. *)
Theorem uvarint_roundtrip x :
  Word.is_u64 x ->
  exists bs, PutUvarint MaxVarintLen64 x = Some bs ∧ (1 <= length bs <= MaxVarintLen64)%nat ∧ Forall is_byte bs ∧
    forall rest e, ReadUvarint (mkReader (bs ++ rest) e) = (mkReader rest e, inl x).
Proof.
  intros Hx. destruct (PutUvarint_fits MaxVarintLen64 x) as [bs Hbs]; [|done|].
  { destruct Hx. unfold Word.modulus, MaxVarintLen64 in *. assert (2 ^ 64 < 2 ^ (7 * Z.of_nat 10)) by done. lia. }
  exists bs. split_and!; [done|by eapply PutUvarint_length..| |].
  - eapply PutUvarint_byte; [|done]. apply Hx.
  - intros rest e. by eapply ReadUvarint_put.
Qed.

Fixpoint encode_all (enc : Encoder) (ms : list M) : outcome (Encoder * option error) :=
  match ms with
  | [] => Return (enc, None)
  | m :: ms' =>
      match Encode enc m with
      | Return (enc', None) => encode_all enc' ms'
      | other => other
      end
  end.

(** Decoding into the values [vs] one after the other. *)
Fixpoint decode_all (d : Decoder) (vs : list M) : outcome (Decoder * list M * option error) :=
  match vs with
  | [] => Return (d, [], None)
  | v :: vs' =>
      match Decode d (Some v) with
      | Return (d', Some m, None) =>
          match decode_all d' vs' with
          | Return (d'', ms, e) => Return (d'', m :: ms, e)
          | Panic w => Panic w
          end
      | Return (d', _, e) => Return (d', [], e)
      | Panic w => Panic w
      end
  end.

(** C30: a sequence of messages that was encoded without an error is decoded
    again: the same messages in the same order, whatever is in the buffer that
    the decoder reuses from one frame to the next, and nothing beyond their
    frames is consumed.  [Unmarshal] is assumed to invert [Marshal] (protobuf's
    contract: it resets the message it decodes into), the messages to be small
    enough to be allocated. *)
Theorem messages_roundtrip (ms vs : list M) (enc enc' : Encoder) :
  (forall m bs v, Marshal m = inl bs -> Unmarshal bs v = (m, None)) ->
  (forall m bs, m ∈ ms -> Marshal m = inl bs -> Z.of_nat (length bs) < 2 ^ 63 ∧ Z.of_nat (length bs) <= maxAlloc) ->
  length vs = length ms -> length (e_size enc) = MaxVarintLen64 -> e_buf enc = [] ->
  encode_all enc ms = Return (enc', None) ->
  exists bs, written (e_w enc') = written (e_w enc) ++ bs ∧
    forall rest e buf, exists d', decode_all (mkDecoder (mkReader (bs ++ rest) e) buf) vs = Return (d', ms, None) ∧
      d_r d' = mkReader rest e.
Proof.
  intros Hproto. revert vs enc. induction ms as [|m ms IH]; intros [|v vs] enc Hsz Hlen He Hb Henc; try done; simpl in Henc.
  { simplify_eq. exists []. rewrite app_nil_r. split; [done|]. intros rest e buf. by eexists. }
  unfold Encode in Henc. destruct (Marshal m) as [bs|err] eqn:Hm; [|done]. rewrite Hb in Henc. simpl in Henc.
  destruct (writeFrame (mkEncoder (e_size enc) bs (e_w enc)) bs) as [[enc1 [err|]]|] eqn:Hw; try done.
  destruct (Hsz m bs) as [H1 H2]; [by left|done|].
  apply writeFrame_ok in Hw as (fr & Hfr & Hwr & Hs1 & _); [|done|done]. simpl in Hwr.
  destruct (IH vs (mkEncoder (e_size enc1) [] (e_w enc1))) as (bs' & Hbs' & Hdec); try done.
  { intros m0 bs0 Hin. apply Hsz. by right. }
  { simpl in Hlen. lia. }
  exists (fr ++ bs'). split; [by rewrite Hbs', (assoc_L (++)), <- Hwr|]. intros rest e buf.
  destruct (readFull_frame bs fr (bs' ++ rest) e buf H1 H2 Hfr) as (buf' & Hr & Hd).
  destruct (Hdec rest e buf') as (d' & Hd' & Hrest). exists d'. split; [|done].
  simpl. unfold Decode. simpl. rewrite <- (assoc_L (++)), Hr, Hd, (Hproto m bs v Hm). by rewrite Hd'.
Qed.

(** A stream that ends within a frame is an error, never a short message:
    [ErrUnexpectedEOF], but plain [EOF] when it ends before the frame or just
    between the length and the data, where the reader cannot tell it from the
    end of the stream. *)
Theorem truncated_frame data hd k buf :
  Z.of_nat (length data) < 2 ^ 63 -> Z.of_nat (length data) <= maxAlloc ->
  PutUvarint MaxVarintLen64 (Z.of_nat (length data)) = Some hd ->
  (k < length (hd ++ data))%nat ->
  exists buf', readFull (mkReader (take k (hd ++ data)) EOF) buf
    = Return (mkReader [] EOF, buf',
        Some (if bool_decide (k = 0 ∨ k = length hd)%nat then EOF else ErrUnexpectedEOF)).
Proof.
  intros Hl Hm Hhd Hk. pose proof (PutUvarint_length _ _ _ Hhd) as Hlen. unfold readFull.
  destruct (decide (k < length hd)%nat) as [Hlt|Hge].
  - rewrite take_app_le by lia. unfold ReadUvarint. change MaxVarintLen64 with (MaxVarintLen64 - 0)%nat.
    rewrite (read_uvarint_cut MaxVarintLen64 (Z.of_nat (length data)) hd 0 k 0 0 Hhd);
      [|split; [lia|]; unfold MaxVarintLen64; assert (2 ^ 63 < 2 ^ (7 * Z.of_nat (10 - 0))) by done; lia|unfold MaxVarintLen64; lia|done].
    eexists. do 3 f_equal. case_bool_decide; case_bool_decide; try done; lia.
  - rewrite take_app_ge by lia. rewrite (ReadUvarint_put _ _ _ _ _ Hhd).
    2: { unfold Word.is_u64, Word.modulus. assert (2 ^ 63 < 2 ^ 64) by done. lia. }
    rewrite Word.int64_small by lia. rewrite (bool_decide_eq_false_2 (maxAlloc < _)) by lia.
    rewrite andb_false_r, bool_decide_eq_false_2 by lia. rewrite Nat2Z.id. unfold ReadFull. simpl.
    rewrite length_app in Hk. rewrite (take_ge (take _ _)) by (rewrite length_take; lia).
    rewrite length_take, drop_ge by (rewrite length_take; lia).
    rewrite (bool_decide_eq_false_2 (_ = length data)) by lia. eexists. do 3 f_equal.
    destruct (decide (k = length hd)) as [->|Hne].
    + rewrite Nat.sub_diag. simpl. by rewrite (bool_decide_eq_true_2 (_ ∨ _)) by lia.
    + rewrite bool_decide_eq_true_2, bool_decide_eq_false_2; [done|lia|]. split; [|done].
      intros E%(f_equal length). rewrite length_take in E. simpl in E. lia.
Qed.

(** C31: the length that a frame announces is trusted: with the top bit set it is
    negative as an [int], and reading the frame panics whatever the buffer; a
    length beyond what can be allocated panics unless the buffer is as long. *)
Theorem announced_length_panics x hd rest e buf :
  PutUvarint MaxVarintLen64 x = Some hd -> Word.is_u64 x ->
  (2 ^ 63 <= x -> exists why, readFull (mkReader (hd ++ rest) e) buf = Panic why) ∧
  (maxAlloc < x < 2 ^ 63 -> sl_cap buf < x -> exists why, readFull (mkReader (hd ++ rest) e) buf = Panic why).
Proof.
  intros Hhd Hx. unfold readFull. rewrite (ReadUvarint_put _ _ _ _ _ Hhd Hx). unfold Word.is_u64, Word.modulus in Hx.
  split.
  - intros H63. rewrite Word.int64_high by lia. rewrite (bool_decide_eq_false_2 (sl_cap buf < _)) by (unfold sl_cap; lia).
    simpl. rewrite bool_decide_eq_true_2 by lia. eauto.
  - intros Hb Hc. destruct (decide (0 <= x)) as [H0|]; [|lia]. rewrite Word.int64_small by lia.
    rewrite !bool_decide_eq_true_2 by lia. simpl. eauto.
Qed.
End dencoder.

(** ** Frames of plain byte strings

    A message type and a writer on which the theorems are tried. *)
Module FrameDemo.

#[export] Instance raw_message : ProtoMessage (list Z) := {
  Marshal bs := inl bs;
  Unmarshal bs _ := (bs, None)
}.

Lemma buffer_appends (w bs w' : list Z) e :
  (w ++ bs, @None error) = (w', e) -> exists n, w' = w ++ take n bs ∧ (e = None -> n = length bs).
Proof. intros [= <- <-]. exists (length bs). by rewrite firstn_all. Qed.

#[export] Instance buffer_writer : ByteWriter (list Z) := {
  written w := w;
  Write w bs := (w ++ bs, None);
  Write_appends := buffer_appends
}.

Definition encoder : Encoder (W := list Z) := NewEncoder [].
Definition long : list Z := replicate 200 7.
Definition encoded : Encoder (W := list Z) :=
  match encode_all encoder [long; [1; 2; 3]] with Return (e, _) => e | Panic _ => encoder end.

Lemma messages_roundtrip_witness :
  exists bs, written (e_w encoded) = written (e_w encoder) ++ bs ∧
    forall rest e buf, exists d', decode_all 1000 (mkDecoder (mkReader (bs ++ rest) e) buf) [[]; []]
      = Return (d', [long; [1; 2; 3]], None) ∧ d_r d' = mkReader rest e.
Proof.
  apply (messages_roundtrip 1000 [long; [1; 2; 3]] [[]; []] encoder encoded).
  - intros m bs v [= ->]. reflexivity.
  - intros m bs Hin [= ->]. apply list_elem_of_In in Hin.
    destruct Hin as [<-|[<-|[]]]; vm_compute; (split; [reflexivity|discriminate]).
  - reflexivity.
  - reflexivity.
  - reflexivity.
  - vm_compute. reflexivity.
Defined.

Lemma uvarint_roundtrip_witness :
  exists bs, PutUvarint MaxVarintLen64 300 = Some bs ∧ (1 <= length bs <= MaxVarintLen64)%nat ∧ Forall is_byte bs ∧
    forall rest e, ReadUvarint (mkReader (bs ++ rest) e) = (mkReader rest e, inl 300).
Proof. apply (uvarint_roundtrip 300). split; [lia|reflexivity]. Defined.

Lemma truncated_frame_witness :
  exists buf', readFull 1000 (mkReader [3; 1] EOF) (mkSlice [] 0) = Return (mkReader [] EOF, buf', Some ErrUnexpectedEOF).
Proof.
  apply (truncated_frame 1000 [1; 2; 3] [3] 2 (mkSlice [] 0)); [reflexivity|discriminate|reflexivity|].
  apply Nat.ltb_lt. reflexivity.
Defined.

Lemma announced_length_panics_witness :
  exists why, readFull 1000 (mkReader (replicate 9 255 ++ [1]) EOF) (mkSlice [] 0) = Panic why.
Proof.
  refine (proj1 (announced_length_panics 1000 (2 ^ 64 - 1) (replicate 9 255 ++ [1]) [] EOF (mkSlice [] 0) _ _) _);
    [vm_compute; reflexivity|split; [lia|reflexivity]|lia].
Defined.
End FrameDemo.
