(* ===== verification/Selector.v ===== *)
(** * selector.go, selector_random.go, selector_rr.go: choosing an address

    A selector keeps a list of addresses, in which an address occurs as often as
    its weight says, and a map with what is known of each.  The order in which
    Go ranges over the map is a parameter. *)
From S2P Require Import Prelude GoStd.

(** [Address]; the metadata is used only when it is a [*map[string]string]. *)
Inductive metadata := MetaMap (m : gmap string string) | MetaOther.

#[global] Instance metadata_eq_dec : EqDecision metadata.
Proof. solve_decision. Defined.

Record Address := mkAddress { Addr : string; Metadata : metadata }.

Definition Address0 : Address := mkAddress "" MetaOther.

#[global] Instance Address_eq_dec : EqDecision Address.
Proof. solve_decision. Defined.

(** [AddrInfo] *)
Record AddrInfo := mkInfo { ai_addr : Address; weight : Z; load : Z; connected : bool }.

Definition add_load (a : AddrInfo) (n : Z) : AddrInfo :=
  mkInfo (ai_addr a) (weight a) (Word.u64 (load a + n)) (connected a).

Record baseSelector := mkBase { addrs : list string; addrMap : gmap string AddrInfo }.

(** ** baseSelector *)

(** A positive number in the metadata, or the default. *)
Definition meta_number (md : metadata) (key : string) (dflt : Z) : Z :=
  match md with
  | MetaMap m =>
      match m !! key with
      | Some w => match Atoi w with Some n => if bool_decide (0 < n) then n else dflt | None => dflt end
      | None => dflt
      end
  | MetaOther => dflt
  end.

(** The loop of [Reset]. *)
Fixpoint reset_loop (l : list Address) (b : baseSelector) : baseSelector :=
  match l with
  | [] => b
  | addr :: l' =>
      match addrMap b !! Addr addr with
      | Some _ => reset_loop l' b
      | None =>
          let w := meta_number (Metadata addr) "weight" 1 in
          let ld := meta_number (Metadata addr) "load" 0 in
          reset_loop l'
            (mkBase (addrs b ++ replicate (Z.to_nat w) (Addr addr))
                    (<[Addr addr := mkInfo addr w (Word.u64 ld) false]> (addrMap b)))
      end
  end.

(** [Reset] makes a new map, and appends to the old list. *)
Definition Reset (b : baseSelector) (l : list Address) : baseSelector := reset_loop l (mkBase (addrs b) ∅).

Definition Put (b : baseSelector) (a : string) : baseSelector :=
  mkBase (addrs b) (alter (fun i => add_load i (-1)) a (addrMap b)).

Definition bump (b : baseSelector) (a : string) : baseSelector :=
  mkBase (addrs b) (alter (fun i => add_load i 1) a (addrMap b)).

Definition AddrList (ord : gmap string AddrInfo -> list (string * AddrInfo)) (b : baseSelector) : list Address :=
  (fun x => ai_addr x.2) <$> ord (addrMap b).

(** [baseSelector.Select] *)
Definition base_Select (b : baseSelector) : Address * option error := (Address0, None).

(** ** RandomSelector *)

Definition NewRandomSelector : baseSelector := mkBase [] ∅.

(** The loop over the positions from [idx] on, [i] of them done. *)
Fixpoint random_loop (b : baseSelector) (idx : nat) (todo i : nat) : baseSelector * (Address + error) :=
  match todo with
  | O => (b, inr ErrNoAvailableAddressErr)
  | S todo' =>
      let next := random_loop b idx todo' (S i) in
      match addrs b !! ((idx + i) mod length (addrs b))%nat with
      | Some a =>
          match addrMap b !! a with
          | Some info => if connected info then (bump b a, inl (ai_addr info)) else next
          | None => next
          end
      | None => next
      end
  end.

(** [Select]; [r] is the non-negative number that [rand.Rand] gives. *)
Definition random_Select (r : Z) (b : baseSelector) : baseSelector * (Address + error) :=
  let size := length (addrs b) in
  if bool_decide (size = 0%nat) then (b, inr ErrAddrListEmptyErr)
  else random_loop b (Z.to_nat (r mod Z.of_nat size)) size 0.

(** ** RoundRobinSelector *)

Record rrSelector := mkRR { rr_base : baseSelector; rr_next : nat }.

Definition NewRoundRobinSelector : rrSelector := mkRR (mkBase [] ∅) 0.

(** The loop of [Select], which has no bound of its own: [None] when [fuel]
    iterations were not enough.  The index is below the length by the modulus. *)
Fixpoint rr_loop (fuel : nat) (b : baseSelector) (start next : nat) : option (rrSelector * Address) :=
  match fuel with
  | O => None
  | S fuel' =>
      let next' := ((next + 1) mod length (addrs b))%nat in
      match addrs b !! next with
      | None => None
      | Some a =>
          match addrMap b !! a with
          | Some info =>
              if connected info || bool_decide (next' = start)
              then Some (mkRR (bump b a) next', ai_addr info)
              else rr_loop fuel' b start next'
          | None => rr_loop fuel' b start next'
          end
      end
  end.

Definition rr_Select (fuel : nat) (s : rrSelector) : option (rrSelector * (Address + error)) :=
  let b := rr_base s in
  if bool_decide (addrs b = []) then Some (s, inr ErrAddrListEmptyErr)
  else
    let start := if bool_decide (length (addrs b) <= rr_next s)%nat then 0%nat else rr_next s in
    (fun x => (x.1, inl x.2)) <$> rr_loop fuel b start start.

(** ** Reset *)

(** The addresses of [l] that are not in [seen], each at its first occurrence. *)
Fixpoint firsts (l : list Address) (seen : gset string) : list Address :=
  match l with
  | [] => []
  | a :: l' => if bool_decide (Addr a ∈ seen) then firsts l' seen else a :: firsts l' ({[Addr a]} ∪ seen)
  end.

Definition info_of (a : Address) : AddrInfo :=
  mkInfo a (meta_number (Metadata a) "weight" 1) (Word.u64 (meta_number (Metadata a) "load" 0)) false.

(** The list entries of one address. *)
Definition entries (a : Address) : list string := replicate (Z.to_nat (weight (info_of a))) (Addr a).

Lemma reset_loop_eq l b :
  reset_loop l b = mkBase (addrs b ++ (firsts l (dom (addrMap b)) ≫= entries))
    (addrMap b ∪ list_to_map ((fun a => (Addr a, info_of a)) <$> firsts l (dom (addrMap b)))).
Proof.
  revert b; induction l as [|a l IH]; intros [as_ m]; simpl.
  { by rewrite app_nil_r, (right_id_L ∅ (∪)). }
  destruct (m !! Addr a) as [i|] eqn:Hm.
  - rewrite bool_decide_eq_true_2 by by apply elem_of_dom_2 in Hm. by rewrite IH.
  - rewrite bool_decide_eq_false_2 by by apply not_elem_of_dom. rewrite IH. simpl. f_equal.
    + by rewrite (assoc_L (++)), dom_insert_L.
    + by rewrite dom_insert_L, <- insert_union_l, <- insert_union_r.
Qed.

Lemma firsts_spec l seen a :
  a ∈ firsts l seen -> a ∈ l ∧ Addr a ∉ seen.
Proof.
  revert seen; induction l as [|b l IH]; intros seen; simpl; [set_solver|].
  case_bool_decide; intros Hin.
  - destruct (IH _ Hin). split; [set_solver|done].
  - apply elem_of_cons in Hin as [->|Hin]; [split; [set_solver|done]|]. destruct (IH _ Hin). set_solver.
Qed.

Lemma firsts_addrs l seen x :
  x ∈ Addr <$> firsts l seen <-> x ∈ Addr <$> l ∧ x ∉ seen.
Proof.
  revert seen; induction l as [|b l IH]; intros seen; simpl; [set_solver|].
  case_bool_decide; csimpl; [rewrite IH; set_solver|].
  rewrite !elem_of_cons, IH. destruct (decide (x = Addr b)); set_solver.
Qed.

Lemma firsts_NoDup l seen : NoDup (Addr <$> firsts l seen).
Proof.
  revert seen; induction l as [|b l IH]; intros seen; simpl; [constructor|].
  case_bool_decide; [done|]. csimpl. constructor; [|done]. rewrite firsts_addrs. set_solver.
Qed.

Lemma meta_number_pos md key dflt : 0 < dflt -> 0 < meta_number md key dflt.
Proof. intros. unfold meta_number. split_matches; case_bool_decide; lia. Qed.

(** C33: [Reset] gives the map one fresh entry per address, with the weight and
    load of its metadata, for the first of several with the same name; it
    appends the address to the list as often as its weight says, at least once.
    The list itself is not cleared: the entries of the addresses before stay in
    front, whether or not they are still in the map. *)
Theorem Reset_spec b l :
  exists l', addrs (Reset b l) = addrs b ++ (l' ≫= entries) ∧
    NoDup (Addr <$> l') ∧ (forall x, x ∈ Addr <$> l' <-> x ∈ Addr <$> l) ∧
    (forall a, a ∈ l' -> a ∈ l ∧ (1 <= length (entries a))%nat) ∧
    forall x info, addrMap (Reset b l) !! x = Some info <-> exists a, a ∈ l' ∧ Addr a = x ∧ info = info_of a.
Proof.
  exists (firsts l ∅). unfold Reset. rewrite reset_loop_eq. simpl. rewrite dom_empty_L, (left_id_L ∅ (∪)).
  split_and!; [done|apply firsts_NoDup|intros x; rewrite firsts_addrs; set_solver| |].
  - intros a Ha. split; [by apply firsts_spec in Ha as [? _]|]. unfold entries. rewrite length_replicate. simpl.
    pose proof (meta_number_pos (Metadata a) "weight" 1). lia.
  - intros x info. rewrite <- elem_of_list_to_map.
    + rewrite list_elem_of_fmap. naive_solver.
    + rewrite <- list_fmap_compose. apply firsts_NoDup.
Qed.

(** ** Round robin *)
Section rr.
Context (b : baseSelector) (start : nat).
Context (Hn : addrs b <> []) (Hstart : (start < length (addrs b))%nat).

Abbreviation n := (length (addrs b)).
Abbreviation pos k := ((start + k) mod n)%nat.

(** The address [k] places after the start, and what is known of it. *)
Definition addr_at (k : nat) : string := default "" (addrs b !! pos k).
Definition info_at (k : nat) : option AddrInfo := addrMap b !! addr_at k.
Definition connected_at (k : nat) : bool := match info_at k with Some i => connected i | None => false end.

Lemma n_pos : (0 < n)%nat.
Proof. by destruct (addrs b); [|simpl; lia]. Qed.

Lemma pos_0 : pos 0 = start.
Proof. rewrite Nat.add_0_r. by apply Nat.mod_small. Qed.

Lemma pos_S k : ((pos k + 1) mod n)%nat = pos (S k).
Proof.
  pose proof n_pos. rewrite Nat.Div0.add_mod_idemp_l. f_equal. lia.
Qed.

Lemma addr_at_lookup k : addrs b !! pos k = Some (addr_at k).
Proof.
  unfold addr_at. destruct (addrs b !! pos k) eqn:E; [done|]. apply lookup_ge_None in E.
  pose proof n_pos. pose proof (Nat.mod_upper_bound (start + k) n). lia.
Qed.

Lemma pos_start k : (k < n)%nat -> pos (S k) = start <-> S k = n.
Proof.
  intros Hk. pose proof n_pos. split.
  - intros E. destruct (decide (start + S k < n)%nat) as [Hlt|Hge].
    + rewrite Nat.mod_small in E by done. lia.
    + rewrite <- (Nat.mod_unique (start + S k) n 1 (start + S k - n)) in E by lia. lia.
  - intros ->. replace (start + n)%nat with (start + 1 * n)%nat by lia. rewrite Nat.Div0.mod_add. by apply Nat.mod_small.
Qed.

(** One iteration, at [k] places from the start. *)
Lemma rr_loop_step fuel k :
  rr_loop (S fuel) b start (pos k) =
  match info_at k with
  | Some i => if connected i || bool_decide (pos (S k) = start) then Some (mkRR (bump b (addr_at k)) (pos (S k)), ai_addr i)
              else rr_loop fuel b start (pos (S k))
  | None => rr_loop fuel b start (pos (S k))
  end.
Proof. cbn [rr_loop]. by rewrite addr_at_lookup, pos_S. Qed.

(** Passing over [m] addresses that the loop does not stop at. *)
Lemma rr_loop_pass m fuel k :
  (forall j, (k <= j < k + m)%nat -> connected_at j = false ∧ (is_Some (info_at j) -> pos (S j) <> start)) ->
  rr_loop (m + fuel) b start (pos k) = rr_loop fuel b start (pos (k + m)).
Proof.
  revert k; induction m as [|m IH]; intros k Hj; [by rewrite Nat.add_0_r|].
  cbn [Nat.add]. rewrite rr_loop_step. destruct (Hj k) as [Hc Hi]; [lia|]. unfold connected_at in Hc.
  assert (rr_loop (m + fuel) b start (pos (S k)) = rr_loop fuel b start (pos (k + S m))) as E.
  { rewrite IH; [do 2 f_equal; lia|]. intros j Hle. apply Hj. lia. }
  destruct (info_at k); [|done]. rewrite Hc, bool_decide_eq_false_2 by eauto. done.
Qed.

Lemma rr_loop_pos_0 fuel : rr_loop fuel b start start = rr_loop fuel b start (pos 0).
Proof. by rewrite pos_0. Qed.

Lemma rr_loop_first k :
  (k < n)%nat -> connected_at k = true -> (forall j, (j < k)%nat -> connected_at j = false) ->
  exists i, info_at k = Some i ∧
    rr_loop n b start start = Some (mkRR (bump b (addr_at k)) (pos (S k)), ai_addr i).
Proof.
  intros Hk Hc Hj. unfold connected_at in Hc. destruct (info_at k) as [i|] eqn:Hi; [|done].
  exists i. split; [done|]. rewrite rr_loop_pos_0. replace n with (k + S (n - S k))%nat at 1 by lia.
  rewrite rr_loop_pass; cbn [Nat.add].
  - by rewrite rr_loop_step, Hi, Hc.
  - intros j Hle. split; [apply Hj; lia|]. intros _ E%pos_start; lia.
Qed.

Lemma rr_loop_none_connected :
  (forall j, (j < n)%nat -> connected_at j = false) ->
  match info_at (n - 1) with
  | Some i => rr_loop n b start start = Some (mkRR (bump b (addr_at (n - 1))) start, ai_addr i)
  | None => forall fuel, rr_loop fuel b start start = None
  end.
Proof.
  intros Hj. pose proof n_pos.
  assert (forall fuel, rr_loop ((n - 1) + fuel) b start start = rr_loop fuel b start (pos (n - 1))) as Hpass.
  { intros fuel. rewrite rr_loop_pos_0, rr_loop_pass; [done|]. intros j Hle.
    split; [apply Hj; lia|]. intros _ E%pos_start; lia. }
  assert (pos (S (n - 1)) = start) as Hlast by (apply pos_start; lia).
  destruct (info_at (n - 1)) as [i|] eqn:Hi.
  - replace n with (n - 1 + 1)%nat at 1 by lia. rewrite Hpass, rr_loop_step, Hi, Hlast.
    by rewrite bool_decide_eq_true_2, orb_true_r by done.
  - intros fuel. induction (lt_wf fuel) as [fuel _ IH].
    destruct (decide (fuel < n)%nat) as [Hlt|Hge].
    + destruct (decide (fuel = 0)%nat) as [->|Hf]; [done|].
      rewrite rr_loop_pos_0. replace fuel with (fuel + 0)%nat by lia. rewrite rr_loop_pass; [done|].
      intros j Hle. split; [apply Hj; lia|]. intros [i Hs] E%pos_start; [|lia].
      replace j with (n - 1)%nat in Hs by lia. congruence.
    + replace fuel with ((n - 1) + S (fuel - n))%nat by lia. rewrite Hpass, rr_loop_step, Hi, Hlast. apply IH. lia.
Qed.
End rr.

(** C32: [RoundRobinSelector.Select] on a list that is not empty.  From where the
    last one stopped it returns the first address that is connected, counts the
    request, and will go on behind it; it needs at most one round.  If none is
    connected it returns the last address of the round, provided the map still
    has it, and stays where it was; if the map does not have it any more, the
    loop never ends. *)
Theorem rr_Select_spec s :
  addrs (rr_base s) <> [] ->
  let b := rr_base s in
  let n := length (addrs b) in
  let start := if bool_decide (n <= rr_next s)%nat then 0%nat else rr_next s in
  (forall k, (k < n)%nat -> connected_at b start k = true -> (forall j, (j < k)%nat -> connected_at b start j = false) ->
     exists i, info_at b start k = Some i ∧
       rr_Select n s = Some (mkRR (bump b (addr_at b start k)) ((start + S k) mod n)%nat, inl (ai_addr i))) ∧
  ((forall j, (j < n)%nat -> connected_at b start j = false) ->
     match info_at b start (n - 1) with
     | Some i => rr_Select n s = Some (mkRR (bump b (addr_at b start (n - 1))) start, inl (ai_addr i))
     | None => forall fuel, rr_Select fuel s = None
     end).
Proof.
  intros Hne b n start.
  assert (start < length (addrs b))%nat as Hs.
  { unfold start, n. assert (length (addrs b) <> 0%nat) by (by intros ?%length_zero_iff_nil). case_bool_decide; lia. }
  unfold rr_Select. fold b. rewrite (bool_decide_eq_false_2 (addrs b = [])) by done. fold n. fold start. split.
  - intros k Hk Hc Hj. destruct (rr_loop_first b start Hne Hs k Hk Hc Hj) as (i & Hi & E).
    exists i. split; [done|]. unfold n in *. by rewrite E.
  - intros Hj. pose proof (rr_loop_none_connected b start Hne Hs Hj) as E. fold n in E.
    destruct (info_at b start (n - 1)) as [i|]; [by rewrite E|]. intros fuel. by rewrite E.
Qed.

(** When the last address goes away - [Reset] with an empty list on a
    selector that ever had one - [Select] never returns, since the list still
    has the addresses and the map has none. *)
Theorem emptied_selector_hangs s :
  addrs (rr_base s) <> [] -> forall fuel, rr_Select fuel (mkRR (Reset (rr_base s) []) (rr_next s)) = None.
Proof.
  intros Hne fuel. unfold rr_Select, Reset. simpl. rewrite bool_decide_eq_false_2 by done.
  set (b := mkBase (addrs (rr_base s)) ∅). set (start := if bool_decide _ then _ else _).
  assert (start < length (addrs b))%nat.
  { unfold start, b. simpl. assert (length (addrs (rr_base s)) <> 0%nat) by (by intros ?%length_zero_iff_nil).
    case_bool_decide; lia. }
  assert (forall k, info_at b start k = None) as Hi by (intros k; apply lookup_empty).
  pose proof (rr_loop_none_connected b start Hne ltac:(done)) as E. rewrite Hi in E.
  rewrite E; [done|]. intros j _. unfold connected_at. by rewrite Hi.
Qed.

(** ** The interface of the balancer *)

(** What the balancer asks of a selector.  [Select] is given the random number
    that it may use and a bound on its iterations; [None] is no answer within
    the bound.  After [Reset] the list has exactly the names it was given, and
    [Put] does not change it. *)
Class Selector (S : Type) := {
  sel_Reset : S -> list Address -> S;
  sel_AddrList : S -> list Address;
  sel_Select : Z -> nat -> S -> option (S * (Address + error));
  sel_Put : S -> string -> S;
  sel_Reset_list s l x : x ∈ Addr <$> sel_AddrList (sel_Reset s l) <-> x ∈ Addr <$> l;
  sel_Put_list s a : sel_AddrList (sel_Put s a) ≡ₚ sel_AddrList s
}.

Inductive sel_event := SelReset (l : list Address) | SelPut (a : string) | SelSelect (r : Z) (fuel : nat).

(** A history of a selector. *)
Definition sel_step {T} `{Selector T} (s : T) (e : sel_event) : option T :=
  match e with
  | SelReset l => Some (sel_Reset s l)
  | SelPut a => Some (sel_Put s a)
  | SelSelect r fuel => fst <$> sel_Select r fuel s
  end.

Section instances.
Context (ord : gmap string AddrInfo -> list (string * AddrInfo)).
Context (Hord : forall m, ord m ≡ₚ map_to_list m).

Lemma AddrList_Reset b l x : x ∈ Addr <$> AddrList ord (Reset b l) <-> x ∈ Addr <$> l.
Proof.
  unfold AddrList, Reset. rewrite reset_loop_eq. simpl.
  rewrite Hord, dom_empty_L, (left_id_L ∅ (∪)). rewrite map_to_list_to_map.
  - rewrite <- !list_fmap_compose. unfold compose. simpl. rewrite (firsts_addrs l ∅). set_solver.
  - rewrite <- list_fmap_compose. apply firsts_NoDup.
Qed.

Lemma AddrList_Put b a : AddrList ord (Put b a) ≡ₚ AddrList ord b.
Proof.
  assert (forall m, (fun x => ai_addr x.2) <$> ord m ≡ₚ (map_to_list (ai_addr <$> m)).*2) as Hl.
  { intros m. rewrite Hord, map_to_list_fmap, <- list_fmap_compose. done. }
  assert (ai_addr <$> addrMap (Put b a) = ai_addr <$> addrMap b) as E.
  { apply map_eq. intros i. simpl. rewrite !lookup_fmap, lookup_alter.
    case_decide; [subst|done]. by destruct (addrMap b !! i). }
  unfold AddrList. by rewrite !Hl, E.
Qed.

Program Definition RandomSelector : Selector baseSelector := {|
  sel_Reset := Reset;
  sel_AddrList := AddrList ord;
  sel_Select r _ b := Some (random_Select r b);
  sel_Put := Put
|}.
Next Obligation. apply AddrList_Reset. Qed.
Next Obligation. apply AddrList_Put. Qed.

Program Definition RoundRobinSelector : Selector rrSelector := {|
  sel_Reset s l := mkRR (Reset (rr_base s) l) (rr_next s);
  sel_AddrList s := AddrList ord (rr_base s);
  sel_Select _ fuel s := rr_Select fuel s;
  sel_Put s a := mkRR (Put (rr_base s) a) (rr_next s)
|}.
Next Obligation. intros s. apply AddrList_Reset. Qed.
Next Obligation. intros s. apply AddrList_Put. Qed.

(** ** Nobody is ever connected *)

Definition nobody (b : baseSelector) : Prop := forall a i, addrMap b !! a = Some i -> connected i = false.

Lemma nobody_Reset b l : nobody (Reset b l).
Proof.
  unfold Reset. rewrite reset_loop_eq. intros a i. simpl. rewrite dom_empty_L, (left_id_L ∅ (∪)).
  intros Hi%elem_of_list_to_map_2. apply list_elem_of_fmap in Hi as (x & [= -> ->] & _). done.
Qed.

Lemma nobody_alter b a n : nobody b -> nobody (mkBase (addrs b) (alter (fun i => add_load i n) a (addrMap b))).
Proof.
  intros Hb x i. simpl. rewrite lookup_alter. case_decide; [|by apply Hb].
  intros (i0 & Hi & ->)%fmap_Some. by eapply Hb in Hi.
Qed.

Lemma random_loop_nobody b idx todo i : nobody b -> random_loop b idx todo i = (b, inr ErrNoAvailableAddressErr).
Proof.
  intros Hb. revert i; induction todo as [|todo IH]; intros i; simpl; [done|].
  destruct (addrs b !! _); [|done]. destruct (addrMap b !! s) eqn:E; [|done]. by rewrite (Hb _ _ E).
Qed.

Lemma rr_loop_nobody fuel b start next s a : nobody b -> rr_loop fuel b start next = Some (s, a) -> nobody (rr_base s).
Proof.
  intros Hb. revert next; induction fuel as [|fuel IH]; intros next Hr; simpl in Hr; [done|].
  destruct (addrs b !! next); [|done]. destruct (addrMap b !! _); [|by eauto].
  destruct (connected _ || _); [|by eauto]. simplify_eq. by apply nobody_alter.
Qed.

#[local] Instance random_history : LTS baseSelector sel_event := sel_step (H := RandomSelector).
#[local] Instance rr_history : LTS rrSelector sel_event := sel_step (H := RoundRobinSelector).

Lemma random_nobody b : reachable NewRandomSelector b -> nobody b.
Proof.
  apply reachable_invariant; [done|]. intros b1 [l|a|r fuel] b2 Hb Hs.
  - injection Hs as <-. apply nobody_Reset.
  - injection Hs as <-. by apply nobody_alter.
  - unfold lts_step, random_history, sel_step in Hs. simpl in Hs. injection Hs as <-. unfold random_Select.
    case_bool_decide; [done|]. by rewrite random_loop_nobody.
Qed.

Lemma rr_nobody s : reachable NewRoundRobinSelector s -> nobody (rr_base s).
Proof.
  apply (reachable_invariant (fun s => nobody (rr_base s))); [done|]. intros s1 [l|a|r fuel] s2 Hb Hs.
  - injection Hs as <-. apply nobody_Reset.
  - injection Hs as <-. by apply nobody_alter.
  - unfold lts_step, rr_history, sel_step in Hs. simpl in Hs. apply fmap_Some in Hs as ([s' res] & Hs & ->).
    unfold rr_Select in Hs. case_bool_decide; simplify_eq/=; [done|].
    apply fmap_Some in Hs as ([s0 a] & Hs & E). simplify_eq/=. by eapply rr_loop_nobody.
Qed.

Lemma rr_loop_more fuel extra b start next x :
  rr_loop fuel b start next = Some x -> rr_loop (fuel + extra) b start next = Some x.
Proof.
  revert next; induction fuel as [|fuel IH]; intros next Hr; simpl in *; [done|].
  destruct (addrs b !! next); [|done]. destruct (addrMap b !! _); [|by auto]. destruct (connected _ || _); auto.
Qed.

Lemma rr_Select_more fuel extra s x : rr_Select fuel s = Some x -> rr_Select (fuel + extra) s = Some x.
Proof.
  unfold rr_Select. case_bool_decide; [done|]. intros (y & Hy & ->)%fmap_Some.
  by rewrite (rr_loop_more _ extra _ _ _ _ Hy).
Qed.

Lemma rr_Select_det fuel1 fuel2 s x y : rr_Select fuel1 s = Some x -> rr_Select fuel2 s = Some y -> x = y.
Proof.
  intros H1%(rr_Select_more _ fuel2) H2%(rr_Select_more _ fuel1). rewrite Nat.add_comm in H2. congruence.
Qed.

(** What [Select] does when nobody is connected. *)
Lemma rr_Select_nobody fuel s s' a :
  nobody (rr_base s) -> rr_Select fuel s = Some (s', inl a) ->
  let b := rr_base s in
  let n := length (addrs b) in
  let start := if bool_decide (n <= rr_next s)%nat then 0%nat else rr_next s in
  (start < n)%nat ∧ s' = mkRR (bump b (addr_at b start (n - 1))) start ∧
  exists i, info_at b start (n - 1) = Some i ∧ a = ai_addr i.
Proof.
  intros Hb Hs b n start. destruct (decide (addrs b = [])) as [E|Hne].
  { unfold rr_Select in Hs. fold b in Hs. rewrite bool_decide_eq_true_2 in Hs by done. done. }
  assert (start < n)%nat.
  { unfold start, n. assert (length (addrs b) <> 0%nat) by (by intros ?%length_zero_iff_nil). case_bool_decide; lia. }
  assert (forall j, (j < n)%nat -> connected_at b start j = false) as Hj.
  { intros j _. unfold connected_at, info_at. destruct (addrMap b !! _) eqn:E; [|done]. by eapply Hb. }
  pose proof (rr_loop_none_connected b start Hne ltac:(done) Hj) as E. fold n in E.
  assert (forall f, rr_Select f s = (fun x => (x.1, inl x.2)) <$> rr_loop f b start start) as Hsel.
  { intros f. unfold rr_Select. fold b. by rewrite (bool_decide_eq_false_2 (addrs b = [])). }
  destruct (info_at b start (n - 1)) as [i|].
  - assert ((s', inl a : Address + error) = (mkRR (bump b (addr_at b start (n - 1))) start, inl (ai_addr i))) as Heq.
    { eapply (rr_Select_det fuel n); [done|]. by rewrite Hsel, E. }
    simplify_eq. eauto.
  - by rewrite Hsel, E in Hs.
Qed.

(** Since nothing marks an address as connected ([Up] is commented out), the
    random selector never selects one: after any history [Select] fails. *)
Theorem random_never_selects b r :
  reachable NewRandomSelector b ->
  random_Select r b = (b, inr (if bool_decide (addrs b = []) then ErrAddrListEmptyErr else ErrNoAvailableAddressErr)).
Proof.
  intros Hb%random_nobody. unfold random_Select.
  destruct (decide (addrs b = [])) as [E|E]; [by rewrite E|].
  rewrite bool_decide_eq_false_2, (bool_decide_eq_false_2 (addrs b = [])); [by apply random_loop_nobody|done|].
  by intros ?%length_zero_iff_nil.
Qed.

(** And the round-robin selector does not rotate: whenever [Select] returns
    an address, the next [Select] that returns one returns the same. *)
Theorem rr_never_rotates s fuel1 s1 a1 fuel2 s2 a2 :
  reachable NewRoundRobinSelector s ->
  rr_Select fuel1 s = Some (s1, inl a1) -> rr_Select fuel2 s1 = Some (s2, inl a2) ->
  a2 = a1 ∧ rr_next s2 = rr_next s1.
Proof.
  intros Hb%rr_nobody H1 H2.
  destruct (rr_Select_nobody _ _ _ _ Hb H1) as (Hs & -> & i & Hi & ->).
  set (b := rr_base s) in *. set (start := if bool_decide _ then _ else _) in *.
  apply rr_Select_nobody in H2; [|by apply nobody_alter]. simpl in H2.
  rewrite bool_decide_eq_false_2 in H2 by lia. destruct H2 as (_ & -> & i2 & Hi2 & ->). split; [|done].
  unfold info_at, bump in Hi2. simpl in Hi2. change (addr_at (bump b _) start _) with (addr_at b start (length (addrs b) - 1)) in Hi2.
  unfold info_at in Hi. rewrite lookup_alter_eq, Hi in Hi2. by simplify_eq/=.
Qed.
End instances.

(** ** Two addresses, one of weight two *)
Module SelectorDemo.

Definition order (m : gmap string AddrInfo) : list (string * AddrInfo) := map_to_list m.
Lemma order_ok m : order m ≡ₚ map_to_list m.
Proof. done. Qed.

Definition A : Address := mkAddress "10.0.0.1:80" (MetaMap {[ "weight" := "2" ]}).
Definition B : Address := mkAddress "10.0.0.2:80" MetaOther.

#[local] Existing Instance random_history.
#[local] Existing Instance rr_history.

Definition filled : baseSelector := Reset NewRandomSelector [A; B; A].
Definition rr : rrSelector := mkRR filled 0.

(** The same list with the first address connected. *)
Definition up : rrSelector :=
  mkRR (mkBase (addrs filled) (alter (fun i => mkInfo (ai_addr i) (weight i) (load i) true) "10.0.0.1:80" (addrMap filled))) 2.

Lemma rr_Select_spec_witness :
  exists i, info_at (rr_base up) 2 1 = Some i ∧
    rr_Select 3 up = Some (mkRR (bump (rr_base up) (addr_at (rr_base up) 2 1)) 1, inl (ai_addr i)).
Proof.
  refine (proj1 (rr_Select_spec up _) 1%nat _ _ _).
  - discriminate.
  - apply Nat.ltb_lt. reflexivity.
  - reflexivity.
  - intros j Hj. destruct j; [reflexivity|]. apply Nat.ltb_lt in Hj. discriminate.
Defined.

Lemma random_never_selects_witness :
  random_Select 5 filled = (filled, inr ErrNoAvailableAddressErr).
Proof.
  apply (random_never_selects order order_ok filled 5).
  apply (@lts_run_reachable _ _ (random_history order order_ok) NewRandomSelector [SelReset [A; B; A]]).
  reflexivity.
Defined.

Lemma rr_never_rotates_witness :
  exists s1 s2, rr_Select 3 rr = Some (s1, inl B) ∧ rr_Select 3 s1 = Some (s2, inl B) ∧ B = B ∧ rr_next s2 = rr_next s1.
Proof.
  assert (exists s1, rr_Select 3 rr = Some (s1, inl B)) as [s1 H1] by (eexists; vm_compute; reflexivity).
  assert (exists s2, rr_Select 3 s1 = Some (s2, inl B)) as [s2 H2].
  { vm_compute in H1. injection H1 as <-. eexists. vm_compute. reflexivity. }
  exists s1, s2. split; [exact H1|split; [exact H2|]].
  apply (rr_never_rotates order order_ok rr 3 s1 B 3 s2 B); [|exact H1|exact H2].
  apply (@lts_run_reachable _ _ (rr_history order order_ok) NewRoundRobinSelector [SelReset [A; B; A]]).
  reflexivity.
Defined.

Lemma emptied_selector_hangs_witness : rr_Select 1000 (mkRR (Reset filled []) 0) = None.
Proof. apply (emptied_selector_hangs rr). discriminate. Defined.
End SelectorDemo.
