(* ===== verification/Registry.v ===== *)
(** * registry.go, registry_mem.go, registry_etcd.go, registry_zk.go: where
      services are announced

    The in-memory registry, and the registry on a key-value store.  The store
    (libkv) is the interface [KVStore]; the values in it are JSON, or bytes that
    do not parse, and then the error that parsing gives. *)
From S2P Require Import Prelude GoStd Utils Types Plugin Server JsonCodec.

Definition ServiceRootPath : string := "/byterpc/services".
Definition ConsulServiceRootPath : string := "byterpc/services".
Definition ZKServiceRootPath : string := "byterpc/services".

(** [RegistryConfig]; the TLS configuration is a name for it. *)
Record RegistryConfig := mkRegistryConfig {
  rc_RegistryType : string;
  rc_Addrs : list string;
  rc_TLS : option nat;
  rc_ConnectionTimeout : Z;
  rc_Bucket : string;
  rc_PersistConnection : bool;
  rc_Username : string;
  rc_Password : string
}.

(** libkv's [store.Config]; [sc_ClientTLS] tells whether it is set. *)
Record StoreConfig := mkStoreConfig {
  sc_ConnectionTimeout : Z;
  sc_Username : string;
  sc_Password : string;
  sc_PersistConnection : bool;
  sc_TLS : option nat;
  sc_Bucket : string;
  sc_ClientTLS : bool
}.

Definition WrapKVConfig (config : RegistryConfig) : StoreConfig :=
  mkStoreConfig (rc_ConnectionTimeout config) (rc_Username config) (rc_Password config)
    (rc_PersistConnection config) (rc_TLS config) (rc_Bucket config) true.

Definition checkRegistryConfig (config : RegistryConfig) : option error := None.

(** ** The interfaces *)

Abbreviation value := (json + error)%type.

Class KVStore (S : Type) := {
  kv_Exists : S -> string -> bool + error;
  kv_Put : S -> string -> value -> S * option error;
  kv_Delete : S -> string -> S * option error;
  kv_List : S -> string -> list (string * value) + error
}.

(** What libkv documents of a store: [contents] is what it holds. *)
Class KVLaws (S : Type) `{KVStore S} := {
  contents : S -> gmap string value;
  kv_Put_ok s k v s' : kv_Put s k v = (s', None) -> contents s' = <[k := v]> (contents s);
  kv_Delete_ok s k s' : kv_Delete s k = (s', None) -> contents s' = delete k (contents s);
  kv_List_sound s dir ps k v : kv_List s dir = inl ps -> (k, v) ∈ ps -> contents s !! k = Some v;
  kv_List_complete s dir ps k v : kv_List s dir = inl ps ->
    contents s !! k = Some v -> Str.HasPrefix k (dir +:+ "/") = true -> (k, v) ∈ ps
}.

(** [ServiceRegistry] *)
Class ServiceRegistry (R : Type) := {
  reg_Init : R -> string -> RegistryConfig -> R * option error;
  reg_Register : R -> Endpoint -> outcome (R * option error);
  reg_DeRegister : R -> Endpoint -> outcome (R * option error);
  reg_DeRegisterAll : R -> outcome (R * option error);
  reg_ListServices : R -> string -> outcome (list Endpoint);
  reg_Destroy : R -> R * option error
}.

(** ** The JSON of endpoints *)
Section endpoint.
Context (fold : string -> string -> bool).

(** [Endpoint.Data]: the metadata alone, its strings as encoding/json writes
    them; a nil map is null. *)
Definition Data (rs : Endpoint) : json :=
  match ep_MetaData rs with
  | None => JNull
  | Some m => JObj ((fun kv => (Utf8.coerce kv.1, JStr (Utf8.coerce kv.2))) <$> map_to_list m)
  end.

(** Decoding into a string field. *)
Definition decode_string (v : json) (old : string) : string * option error :=
  match v with
  | JStr s => (s, None)
  | JNull => (old, None)
  | _ => (old, Some type_error)
  end.

(** Decoding into a [map[string]string]: an entry of another type is stored as
    an empty string, and reported. *)
Fixpoint decode_entries (fs : list (string * json)) (m : gmap string string) (err : option error)
    : gmap string string * option error :=
  match fs with
  | [] => (m, err)
  | (k, v) :: fs' =>
      let '(x, e) := decode_string v "" in
      decode_entries fs' (<[k := x]> m) (match err with Some _ => err | None => e end)
  end.

Definition decode_map (v : json) (old : option (gmap string string)) : option (gmap string string) * option error :=
  match v with
  | JObj fs => let '(m, e) := decode_entries fs (default ∅ old) None in (Some m, e)
  | JNull => (None, None)
  | _ => (old, Some type_error)
  end.

Definition endpoint_fields : list string := ["psm"; "address"; "service_name"; "path"; "MetaData"].

Definition set_Endpoint (n : string) (v : json) (ep : Endpoint) : Endpoint * option error :=
  if bool_decide (n = "psm") then
    let '(x, e) := decode_string v (ep_PSM ep) in
    (mkEndpoint x (ep_Address ep) (ep_ServiceName ep) (ep_Path ep) (ep_MetaData ep), e)
  else if bool_decide (n = "address") then
    let '(x, e) := decode_string v (ep_Address ep) in
    (mkEndpoint (ep_PSM ep) x (ep_ServiceName ep) (ep_Path ep) (ep_MetaData ep), e)
  else if bool_decide (n = "service_name") then
    let '(x, e) := decode_string v (ep_ServiceName ep) in
    (mkEndpoint (ep_PSM ep) (ep_Address ep) x (ep_Path ep) (ep_MetaData ep), e)
  else if bool_decide (n = "path") then
    let '(x, e) := decode_string v (ep_Path ep) in
    (mkEndpoint (ep_PSM ep) (ep_Address ep) (ep_ServiceName ep) x (ep_MetaData ep), e)
  else
    let '(x, e) := decode_map v (ep_MetaData ep) in
    (mkEndpoint (ep_PSM ep) (ep_Address ep) (ep_ServiceName ep) (ep_Path ep) x, e).

(** [json.Unmarshal(value, &rs)] into a new endpoint. *)
Definition unmarshal_Endpoint (v : value) : Endpoint * option error :=
  match v with
  | inl j => decode_struct fold endpoint_fields set_Endpoint j Endpoint0
  | inr e => (Endpoint0, Some e)
  end.

(** ** kvRegistry *)
Section kv.
Context {S : Type} `{KVStore S}.
Context (NewStore : string -> list string -> StoreConfig -> S + error).
Context (ord : gmap string Endpoint -> list (string * Endpoint)).

(** [kvRegistry]; the store and the map are nil before [Init]. *)
Record kvRegistry := mkKV {
  storeEngine : option S;
  backend : string;
  servicesCache : option (gmap string Endpoint);
  rootPath : string
}.

Definition kvRegistry0 : kvRegistry := mkKV None "" None "".

Definition kv_Init (kvr : kvRegistry) (registryType : string) (config : RegistryConfig) : kvRegistry * option error :=
  let go be root :=
    match checkRegistryConfig config with
    | Some err => (mkKV (storeEngine kvr) be (servicesCache kvr) root, Some err)
    | None =>
        match NewStore be (rc_Addrs config) (WrapKVConfig config) with
        | inr err => (mkKV None be (servicesCache kvr) root, Some err)
        | inl s => (mkKV (Some s) be (Some ∅) root, None)
        end
    end in
  if bool_decide (registryType = "etcd") then go "etcd" ServiceRootPath
  else if bool_decide (registryType = "consul") then go "consul" ConsulServiceRootPath
  else if bool_decide (registryType = "zookeeper") then go "zk" ZKServiceRootPath
  else (kvr, Some ErrUnsupportedRegistrationType).

Definition kv_Register (kvr : kvRegistry) (service : Endpoint) : outcome (kvRegistry * option error) :=
  let fullPath := rootPath kvr +:+ ep_Path service in
  match storeEngine kvr with
  | None => Panic "nil pointer dereference"
  | Some s =>
      match kv_Exists s fullPath with
      | inr err => Return (kvr, Some err)
      | inl _ =>
          match servicesCache kvr with
          | None => Panic "assignment to entry in nil map"
          | Some cache =>
              let '(s', err) := kv_Put s fullPath (inl (Data service)) in
              Return (mkKV (Some s') (backend kvr) (Some (<[fullPath := service]> cache)) (rootPath kvr), err)
          end
      end
  end.

Definition kv_DeRegister (kvr : kvRegistry) (service : Endpoint) : outcome (kvRegistry * option error) :=
  let fullPath := rootPath kvr +:+ ep_Path service in
  match default ∅ (servicesCache kvr) !! fullPath with
  | None => Return (kvr, None)
  | Some _ =>
      match storeEngine kvr with
      | None => Panic "nil pointer dereference"
      | Some s =>
          let '(s', err) := kv_Delete s fullPath in
          Return (mkKV (Some s') (backend kvr) (servicesCache kvr) (rootPath kvr), err)
      end
  end.

(** The loop of [DeRegisterAll]. *)
Fixpoint delete_all (s : S) (paths : list string) (errs : list error) : S * list error :=
  match paths with
  | [] => (s, errs)
  | p :: paths' =>
      let '(s', err) := kv_Delete s p in
      delete_all s' paths' (match err with Some e => errs ++ [e] | None => errs end)
  end.

Definition kv_DeRegisterAll (kvr : kvRegistry) : outcome (kvRegistry * option error) :=
  let paths := (ord (default ∅ (servicesCache kvr))).*1 in
  match storeEngine kvr with
  | None => match paths with [] => Return (kvr, None) | _ => Panic "nil pointer dereference" end
  | Some s =>
      let '(s', errs) := delete_all s paths [] in
      Return (mkKV (Some s') (backend kvr) (servicesCache kvr) (rootPath kvr), WrapArrayErrs errs)
  end.

(** The endpoints of the pairs that can be decoded. *)
Fixpoint decode_pairs (ps : list (string * value)) : list Endpoint :=
  match ps with
  | [] => []
  | (_, v) :: ps' =>
      match unmarshal_Endpoint v with
      | (rs, None) => rs :: decode_pairs ps'
      | (_, Some _) => decode_pairs ps'
      end
  end.

Definition kv_ListServices (kvr : kvRegistry) (invokePoint : string) : outcome (list Endpoint) :=
  match TransformInvokePointToPath invokePoint with
  | inr _ => Return []
  | inl epPath =>
      match storeEngine kvr with
      | None => Panic "nil pointer dereference"
      | Some s =>
          match kv_List s (rootPath kvr +:+ epPath) with
          | inr _ => Return []
          | inl pairs => Return (decode_pairs pairs)
          end
      end
  end.

Definition kv_Destroy (kvr : kvRegistry) : kvRegistry * option error := (kvr, None).

(** The constructors drop the error of [Init]; the wrappers delegate. *)
Definition NewEtcdRegistry (config : RegistryConfig) : kvRegistry := (kv_Init kvRegistry0 "etcd" config).1.
Definition NewZKRegistry (config : RegistryConfig) : kvRegistry := (kv_Init kvRegistry0 "zookeeper" config).1.

Definition etcdRegistry : ServiceRegistry kvRegistry := {|
  reg_Init r _ config := kv_Init r "etcd" config;
  reg_Register := kv_Register;
  reg_DeRegister := kv_DeRegister;
  reg_DeRegisterAll := kv_DeRegisterAll;
  reg_ListServices := kv_ListServices;
  reg_Destroy := kv_Destroy
|}.

Definition zkRegistry : ServiceRegistry kvRegistry := {|
  reg_Init r _ config := kv_Init r "zookeeper" config;
  reg_Register := kv_Register;
  reg_DeRegister := kv_DeRegister;
  reg_DeRegisterAll := kv_DeRegisterAll;
  reg_ListServices := kv_ListServices;
  reg_Destroy := kv_Destroy
|}.
End kv.
End endpoint.

(** ** memoryRegistry *)
Section memory.
Context (ord : gmap string Endpoint -> list (string * Endpoint)).

(** The cache, nil after [Destroy]. *)
Record memoryRegistry := mkMem { cache : option (gmap string Endpoint) }.

Definition NewMemoryRegistry : memoryRegistry := mkMem (Some ∅).

Definition mem_Init (r : memoryRegistry) (registryType : string) (config : RegistryConfig)
    : memoryRegistry * option error := (mkMem (Some ∅), None).

Definition mem_Destroy (r : memoryRegistry) : memoryRegistry * option error := (mkMem None, None).

Definition mem_Register (r : memoryRegistry) (s : Endpoint) : outcome (memoryRegistry * option error) :=
  match cache r with
  | None => Panic "assignment to entry in nil map"
  | Some m => Return (mkMem (Some (<[ep_Path s := s]> m)), None)
  end.

Definition mem_DeRegister (r : memoryRegistry) (s : Endpoint) : outcome (memoryRegistry * option error) :=
  Return (mkMem (delete (ep_Path s) <$> cache r), None).

Definition mem_DeRegisterAll (r : memoryRegistry) : outcome (memoryRegistry * option error) :=
  Return (mkMem (Some ∅), None).

Definition mem_ListServices (r : memoryRegistry) (invokePoint : string) : outcome (list Endpoint) :=
  Return (filter (fun v => Str.Contains (ep_Path v) invokePoint = true) ((ord (default ∅ (cache r))).*2)).

#[global] Instance memory_ServiceRegistry : ServiceRegistry memoryRegistry := {
  reg_Init := mem_Init;
  reg_Register := mem_Register;
  reg_DeRegister := mem_DeRegister;
  reg_DeRegisterAll := mem_DeRegisterAll;
  reg_ListServices := mem_ListServices;
  reg_Destroy := mem_Destroy
}.

(** ** The registration plugins *)

(** What the registration plugins have in common: the methods of [Plugin] and of
    [ServiceRegistrationPlugin]. *)
Class RegistrationPlugin (P : Type) := {
  pl_Name : P -> string;
  pl_Type : P -> Z;
  pl_IsDisabled : P -> bool;
  pl_SetDisable : P -> bool -> P;
  pl_RegisterService : P -> Endpoint -> outcome (P * option error);
  pl_DeRegisterService : P -> Endpoint -> outcome (P * option error)
}.

Section plugin.
Context {R : Type} `{ServiceRegistry R}.

(** A call of the registry that a plugin holds. *)
Definition delegate {P} (put : R -> P) (res : outcome (R * option error)) : outcome (P * option error) :=
  match res with
  | Return (r', e) => Return (put r', e)
  | Panic w => Panic w
  end.

Record MemServiceRegistrationPlugin := mkMemPlugin { mp_registry : R; mp_disabled : bool }.

Definition mem_plugin : RegistrationPlugin MemServiceRegistrationPlugin := {|
  pl_Name _ := "_plugin_service_registration_mem";
  pl_Type _ := ServiceRegistrationPluginType;
  pl_IsDisabled := mp_disabled;
  pl_SetDisable p disable := mkMemPlugin (mp_registry p) disable;
  pl_RegisterService p service := delegate (fun r => mkMemPlugin r (mp_disabled p)) (reg_Register (mp_registry p) service);
  pl_DeRegisterService p service := delegate (fun r => mkMemPlugin r (mp_disabled p)) (reg_DeRegister (mp_registry p) service)
|}.

Record EtcdServiceRegistrationPlugin := mkEtcdPlugin { ep_registry : R; ep_disabled : bool }.

Definition etcd_plugin : RegistrationPlugin EtcdServiceRegistrationPlugin := {|
  pl_Name _ := "_plugin_service_registration_etcd";
  pl_Type _ := ServiceRegistrationPluginType;
  pl_IsDisabled := ep_disabled;
  pl_SetDisable p disable := mkEtcdPlugin (ep_registry p) disable;
  pl_RegisterService p service := delegate (fun r => mkEtcdPlugin r (ep_disabled p)) (reg_Register (ep_registry p) service);
  pl_DeRegisterService p service := delegate (fun r => mkEtcdPlugin r (ep_disabled p)) (reg_DeRegister (ep_registry p) service)
|}.

Record ZKServiceRegistrationPlugin := mkZKPlugin { zp_registry : R; zp_disabled : bool }.

Definition zk_plugin : RegistrationPlugin ZKServiceRegistrationPlugin := {|
  pl_Name _ := "_plugin_service_registration_zk";
  pl_Type _ := ServiceRegistrationPluginType;
  pl_IsDisabled := zp_disabled;
  pl_SetDisable p disable := mkZKPlugin (zp_registry p) disable;
  pl_RegisterService p service := delegate (fun r => mkZKPlugin r (zp_disabled p)) (reg_Register (zp_registry p) service);
  pl_DeRegisterService p service := delegate (fun r => mkZKPlugin r (zp_disabled p)) (reg_DeRegister (zp_registry p) service)
|}.
End plugin.

(** ** The memory registry against its history *)

Inductive mem_event :=
| MemInit | MemRegister (s : Endpoint) | MemDeRegister (s : Endpoint) | MemDeRegisterAll.

Definition mem_step (r : memoryRegistry) (e : mem_event) : option memoryRegistry :=
  match e with
  | MemInit => Some (mem_Init r "" (mkRegistryConfig "" [] None 0 "" false "" "")).1
  | MemRegister s => match mem_Register r s with Return (r', _) => Some r' | Panic _ => None end
  | MemDeRegister s => match mem_DeRegister r s with Return (r', _) => Some r' | Panic _ => None end
  | MemDeRegisterAll => match mem_DeRegisterAll r with Return (r', _) => Some r' | Panic _ => None end
  end.

#[global] Instance mem_lts : LTS memoryRegistry mem_event := mem_step.

(** An event that ends or replaces a registration under [path]. *)
Definition overrides (path : string) (e : mem_event) : Prop :=
  match e with
  | MemInit | MemDeRegisterAll => True
  | MemRegister s | MemDeRegister s => ep_Path s = path
  end.

(** [s] was registered, and nothing since has overridden it. *)
Definition announced (es : list mem_event) (s : Endpoint) : Prop :=
  exists es1 es2, es = es1 ++ MemRegister s :: es2 ∧ Forall (fun e => ~ overrides (ep_Path s) e) es2.

Lemma announced_snoc es e s :
  announced (es ++ [e]) s <-> e = MemRegister s ∨ (~ overrides (ep_Path s) e ∧ announced es s).
Proof.
  unfold announced. split.
  - intros (es1 & es2 & E & Hf). destruct es2 as [|e3 es3 _] using rev_ind.
    + apply app_inj_tail in E as [_ ->]. by left.
    + rewrite app_comm_cons, (assoc_L (++)) in E. apply app_inj_tail in E as [-> ->].
      apply Forall_app in Hf as [? Hl]. inversion Hl; subst. right. split; [done|]. eauto.
  - intros [->|[Ho (es1 & es2 & -> & Hf)]]; [by exists es, []|].
    exists es1, (es2 ++ [e]). rewrite <- (assoc_L (++)). split; [done|]. apply Forall_app. auto.
Qed.

Lemma mem_cache_history es r :
  lts_run NewMemoryRegistry es = Some r ->
  exists m, cache r = Some m ∧ forall p s, m !! p = Some s <-> ep_Path s = p ∧ announced es s.
Proof.
  revert r; induction es as [|e es IH] using rev_ind; intros r Hr.
  { simpl in Hr. simplify_eq. exists ∅. split; [done|]. intros p s. rewrite lookup_empty. split; [done|].
    intros (_ & es1 & es2 & E & _). by destruct es1. }
  rewrite lts_run_app in Hr. destruct (lts_run NewMemoryRegistry es) as [r1|]; [|done].
  destruct (IH r1 eq_refl) as (m & Hc & Hm). simpl in Hr.
  assert (forall p s, ep_Path s = p ∧ announced (es ++ [e]) s <->
    ep_Path s = p ∧ (e = MemRegister s ∨ ~ overrides (ep_Path s) e ∧ announced es s)) as Ha.
  { intros p s. by rewrite announced_snoc. }
  destruct (lts_step r1 e) as [r2|] eqn:Hs; simplify_eq. unfold lts_step, mem_lts, mem_step in Hs.
  destruct e as [|s0|s0|]; simpl in *.
  - simplify_eq. exists ∅. split; [done|]. intros p s. rewrite lookup_empty, Ha. naive_solver.
  - unfold mem_Register in Hs. rewrite Hc in Hs. simplify_eq. eexists. split; [done|]. intros p s.
    rewrite Ha, lookup_insert. case_decide as Hp; [subst p|rewrite Hm]; [|naive_solver].
    split; [intros [= ->]; by auto|]. intros [Hp [Hreg|[Hno _]]]; [congruence|]. by destruct Hno.
  - simplify_eq. rewrite Hc. eexists. split; [done|]. intros p s. rewrite Ha, lookup_delete_Some, Hm. naive_solver.
  - simplify_eq. exists ∅. split; [done|]. intros p s. rewrite lookup_empty, Ha. naive_solver.
Qed.

(** C37: the memory registry lists exactly the endpoints that were registered and
    not deregistered, replaced or dropped since, and whose path contains the
    given text; each path once. *)
Theorem mem_ListServices_spec es r ip :
  (forall m, ord m ≡ₚ map_to_list m) -> lts_run NewMemoryRegistry es = Some r ->
  exists l, mem_ListServices r ip = Return l ∧ NoDup (ep_Path <$> l) ∧
    forall s, s ∈ l <-> announced es s ∧ Str.Contains (ep_Path s) ip = true.
Proof.
  intros Hord Hr. destruct (mem_cache_history es r Hr) as (m & Hc & Hm). eexists. split; [done|].
  rewrite Hc. simpl.
  assert (forall p s, (p, s) ∈ map_to_list m -> ep_Path s = p) as Hpath.
  { intros p s Hin. apply elem_of_map_to_list, Hm in Hin. by destruct Hin. }
  split.
  - eapply sublist_NoDup; [|apply fmap_sublist, sublist_filter]. rewrite Hord.
    rewrite <- list_fmap_compose. rewrite (list_fmap_ext _ fst); [apply NoDup_fst_map_to_list|].
    intros i [p s] Hi. simpl. eapply Hpath, list_elem_of_lookup_2, Hi.
  - intros s. rewrite list_elem_of_filter, Hord, list_elem_of_fmap. split.
    + intros (Hct & [p s'] & -> & Hin%elem_of_map_to_list). simpl. apply Hm in Hin. naive_solver.
    + intros [Ha Hct]. split; [done|]. exists (ep_Path s, s). split; [done|]. apply elem_of_map_to_list, Hm. done.
Qed.
End memory.

(** ** The registry on a store *)
Section kv_props.
Context (fold : string -> string -> bool).
Context {S : Type} `{KVLaws S}.
Implicit Types (kvr : @kvRegistry S) (ep : Endpoint).

(** No key of the metadata, as it is written, is taken for a field of
    [Endpoint]. *)
Definition plain_metadata ep : Prop :=
  forall k x, default ∅ (ep_MetaData ep) !! k = Some x -> field_of fold endpoint_fields (Utf8.coerce k) = None.

Lemma decode_fields_unknown {A} names (set : string -> json -> A -> A * option error) fs a err :
  (forall k v, (k, v) ∈ fs -> field_of fold names k = None) -> decode_fields fold names set fs a err = (a, err).
Proof.
  induction fs as [|[k v] fs IH]; intros Hf; simpl; [done|]. rewrite (Hf k v) by set_solver. apply IH. set_solver.
Qed.

(** What [Register] stores decodes to an empty endpoint. *)
Lemma Data_decodes ep : plain_metadata ep -> unmarshal_Endpoint fold (inl (Data ep)) = (Endpoint0, None).
Proof.
  unfold plain_metadata, Data. destruct (ep_MetaData ep) as [m|]; [|done]. intros Hp. simpl.
  apply decode_fields_unknown. intros k v Hin. apply list_elem_of_fmap in Hin as ([k' x] & E & Hin).
  simplify_eq/=. apply elem_of_map_to_list in Hin. by eapply Hp.
Qed.

Lemma kv_Register_ok kvr ep kvr' :
  kv_Register kvr ep = Return (kvr', None) ->
  exists s s', storeEngine kvr = Some s ∧ storeEngine kvr' = Some s' ∧ rootPath kvr' = rootPath kvr ∧
    contents s' = <[rootPath kvr +:+ ep_Path ep := inl (Data ep)]> (contents s) ∧
    is_Some (default ∅ (servicesCache kvr') !! (rootPath kvr +:+ ep_Path ep)).
Proof.
  unfold kv_Register. destruct (storeEngine kvr) as [s|]; [|done].
  destruct (kv_Exists s _); [|done]. destruct (servicesCache kvr) as [c|]; [|done].
  destruct (kv_Put s _ _) as [s' e] eqn:Hp. intros [= <- ->]. apply kv_Put_ok in Hp.
  exists s, s'. split_and!; try done. simpl. rewrite lookup_insert_eq. eauto.
Qed.

Lemma decode_pairs_elem k v rs ps :
  (k, v) ∈ ps -> unmarshal_Endpoint fold v = (rs, None) -> rs ∈ decode_pairs fold ps.
Proof.
  induction ps as [|[k' v'] ps IH]; intros Hin Hu; [set_solver|]. simpl.
  apply elem_of_cons in Hin as [E|Hin]; [simplify_eq; rewrite Hu; set_solver|].
  destruct (unmarshal_Endpoint fold v') as [rs' [e|]]; [by apply IH|]. apply elem_of_cons. right. by apply IH.
Qed.

(** [DeRegister] takes out of the store what [Register] put in, and touches
    nothing else there; a service that was not registered through this registry
    is left alone without an error.  The service stays in the cache, so it is
    deleted again by a later [DeRegister] or [DeRegisterAll]. *)
Theorem kv_register_deregister kvr ep kvr1 kvr2 :
  kv_Register kvr ep = Return (kvr1, None) -> kv_DeRegister kvr1 ep = Return (kvr2, None) ->
  (exists s s2, storeEngine kvr = Some s ∧ storeEngine kvr2 = Some s2 ∧
     contents s2 = delete (rootPath kvr +:+ ep_Path ep) (contents s)) ∧
  servicesCache kvr2 = servicesCache kvr1 ∧
  is_Some (default ∅ (servicesCache kvr2) !! (rootPath kvr +:+ ep_Path ep)) ∧
  (forall ep', default ∅ (servicesCache kvr2) !! (rootPath kvr2 +:+ ep_Path ep') = None ->
     kv_DeRegister kvr2 ep' = Return (kvr2, None)).
Proof.
  intros Hreg Hde. apply kv_Register_ok in Hreg as (s & s1 & Hs & Hs1 & Hroot & Hc & Hin).
  unfold kv_DeRegister in Hde. rewrite Hroot in Hde. destruct Hin as [x Hx]. rewrite Hx, Hs1 in Hde.
  destruct (kv_Delete s1 _) as [s2 e] eqn:Hd. simplify_eq. apply kv_Delete_ok in Hd. split_and!; try done.
  - exists s, s2. split_and!; try done. by rewrite Hd, Hc, delete_insert_eq.
  - intros ep' Hn. unfold kv_DeRegister. by rewrite Hn.
Qed.
End kv_props.

(** ** A store in memory *)
Module RegistryDemo.

Definition in_dir (dir : string) (p : string * value) : Prop := Str.HasPrefix p.1 dir = true.
#[local] Instance in_dir_dec dir p : Decision (in_dir dir p).
Proof. unfold in_dir. apply _. Defined.

#[export] Instance map_store : KVStore (gmap string value) := {
  kv_Exists s k := inl (bool_decide (is_Some (s !! k)));
  kv_Put s k v := (<[k := v]> s, None);
  kv_Delete s k := (delete k s, None);
  kv_List s dir := inl (filter (in_dir dir) (map_to_list s))
}.

Lemma list_sound (s : gmap string value) dir ps k v : kv_List s dir = inl ps -> (k, v) ∈ ps -> s !! k = Some v.
Proof. intros [= <-] [_ Hin]%list_elem_of_filter. by apply elem_of_map_to_list. Qed.

Lemma list_complete (s : gmap string value) dir ps k v :
  kv_List s dir = inl ps -> s !! k = Some v -> Str.HasPrefix k (dir +:+ "/") = true -> (k, v) ∈ ps.
Proof.
  intros [= <-] Hk Hp. apply list_elem_of_filter. split; [|by apply elem_of_map_to_list].
  apply Str.HasPrefix_iff in Hp as [t ->]. unfold in_dir. simpl. rewrite <- Str.app_assoc. apply Str.HasPrefix_app.
Qed.

#[export] Program Instance map_laws : KVLaws (gmap string value) := { contents s := s }.
Next Obligation. intros s k v s' [= <-]. done. Qed.
Next Obligation. intros s k s' [= <-]. done. Qed.
Next Obligation. apply list_sound. Qed.
Next Obligation. apply list_complete. Qed.

Definition config : RegistryConfig := mkRegistryConfig "etcd" ["10.0.0.9:2379"] None 0 "" false "" "".
Definition NewStore (be : string) (addrs : list string) (c : StoreConfig) : gmap string value + error := inl ∅.

Definition ep : Endpoint :=
  mkEndpoint "demo.svc" "10.0.0.1:8888" "Arith" "/demo.svc/Arith/10.0.0.1:8888" (Some {[ "weight" := "3" ]}).

Definition registry : kvRegistry := NewEtcdRegistry NewStore config.
Definition ok_of (r : outcome (@kvRegistry (gmap string value) * option error)) : kvRegistry :=
  match r with Return (k, _) => k | Panic _ => registry end.
Definition registered : kvRegistry := ok_of (kv_Register registry ep).
Definition removed : kvRegistry := ok_of (kv_DeRegister registered ep).

Lemma plain : plain_metadata String.eqb ep.
Proof.
  intros k x Hk. simpl in Hk. apply lookup_singleton_Some in Hk as [<- _]. reflexivity.
Qed.

Lemma kv_register_deregister_witness :
  servicesCache removed = servicesCache registered ∧
  (forall ep', default ∅ (servicesCache removed) !! (rootPath removed +:+ ep_Path ep') = None ->
     kv_DeRegister removed ep' = Return (removed, None)).
Proof.
  destruct (kv_register_deregister registry ep registered removed) as (_ & H1 & _ & H2);
    [vm_compute; reflexivity..|]. split; [exact H1|exact H2].
Defined.

Definition order (m : gmap string Endpoint) : list (string * Endpoint) := map_to_list m.

Lemma mem_ListServices_spec_witness :
  exists r l, lts_run NewMemoryRegistry [MemRegister ep; MemRegister Endpoint0; MemDeRegister Endpoint0] = Some r ∧
    mem_ListServices order r "Arith" = Return l ∧
    forall s, s ∈ l <-> announced [MemRegister ep; MemRegister Endpoint0; MemDeRegister Endpoint0] s ∧
      Str.Contains (ep_Path s) "Arith" = true.
Proof.
  eexists. destruct (mem_ListServices_spec order [MemRegister ep; MemRegister Endpoint0; MemDeRegister Endpoint0]
    (mkMem (Some (delete "" (<["" := Endpoint0]> (<[ep_Path ep := ep]> ∅))))) "Arith") as (l & H1 & _ & H2);
    [reflexivity|reflexivity|]. exists l. split; [reflexivity|split; [exact H1|exact H2]].
Defined.
End RegistryDemo.
