(* ===== verification/RegistryHistory.v ===== *)
(** * The key-value registry against its history

    The registry of [Registry] on a store that other clients write to as well: what
    the store holds after any sequence of registrations, deregistrations and writes
    of others.  The abstract specification is a map and a set of paths: what is in
    the store, and which paths this registry has ever announced. *)
From S2P Require Import Prelude GoStd Utils Types Plugin Server JsonCodec Registry.

(** ** The specification *)

Inductive kv_event :=
| KvRegister (ep : Endpoint) | KvDeRegister (ep : Endpoint) | KvDeRegisterAll
| KvOther (path : string) (v : option value).    (* another client puts or deletes *)

Record announcements := mkAnnouncements { in_store : gmap string value; mine : gset string }.

Section spec.
Context (root : string).
Implicit Types (sp : announcements) (ep : Endpoint) (e : kv_event).

Definition full_path ep : string := root +:+ ep_Path ep.

Definition spec_step sp e : announcements :=
  match e with
  | KvRegister ep => mkAnnouncements (<[full_path ep := inl (Data ep)]> (in_store sp)) ({[full_path ep]} ∪ mine sp)
  | KvDeRegister ep =>
      if bool_decide (full_path ep ∈ mine sp) then mkAnnouncements (delete (full_path ep) (in_store sp)) (mine sp) else sp
  | KvDeRegisterAll => mkAnnouncements (filter (fun kv => kv.1 ∉ mine sp) (in_store sp)) (mine sp)
  | KvOther p (Some v) => mkAnnouncements (<[p := v]> (in_store sp)) (mine sp)
  | KvOther p None => mkAnnouncements (delete p (in_store sp)) (mine sp)
  end.

Definition spec_run sp (es : list kv_event) : announcements := foldl spec_step sp es.

Lemma spec_run_app sp es1 es2 : spec_run sp (es1 ++ es2) = spec_run (spec_run sp es1) es2.
Proof. apply foldl_app. Qed.

(** A path that was announced once is this registry's for good. *)
Lemma mine_grows sp es : mine sp ⊆ mine (spec_run sp es).
Proof.
  revert sp; induction es as [|e es IH]; intros sp; [done|]. simpl. etrans; [|apply IH].
  destruct e as [ep|ep| |p [v|]]; simpl; try done; [set_solver|]. by case_bool_decide.
Qed.

(** What does not concern a path leaves it alone. *)
Definition concerns (p : string) e : Prop :=
  match e with
  | KvRegister ep | KvDeRegister ep => full_path ep = p
  | KvDeRegisterAll => True
  | KvOther q _ => q = p
  end.

Lemma unconcerned sp es p : Forall (fun e => ~ concerns p e) es -> in_store (spec_run sp es) !! p = in_store sp !! p.
Proof.
  intros Hf. revert sp; induction Hf as [|e es Hne _ IH]; intros sp; [done|]. simpl. rewrite IH.
  destruct e as [ep|ep| |q [v|]]; simpl in *; try case_bool_decide; simpl;
    by rewrite ?lookup_insert_ne, ?lookup_delete_ne by done.
Qed.
End spec.

Section history.
Context (fold : string -> string -> bool).
Context {S : Type} `{KVLaws S}.
Context (ord : gmap string Endpoint -> list (string * Endpoint)).
Context (Hord : forall m, ord m ≡ₚ map_to_list m).
Implicit Types (kvr : @kvRegistry S) (ep : Endpoint) (s : S) (e : kv_event) (sp : announcements).

(** ** The registry's steps, on a store that does not fail *)

Definition worked (r : outcome (@kvRegistry S * option error)) : option kvRegistry :=
  match r with Return (kvr', None) => Some kvr' | _ => None end.

Definition kv_step kvr e : option kvRegistry :=
  match e with
  | KvRegister ep => worked (kv_Register kvr ep)
  | KvDeRegister ep => worked (kv_DeRegister kvr ep)
  | KvDeRegisterAll => worked (kv_DeRegisterAll ord kvr)
  | KvOther p v =>
      match storeEngine kvr with
      | None => None
      | Some s =>
          match (match v with Some v => kv_Put s p v | None => kv_Delete s p end) with
          | (s', None) => Some (mkKV (Some s') (backend kvr) (servicesCache kvr) (rootPath kvr))
          | (_, Some _) => None
          end
      end
  end.

#[local] Instance kv_lts : LTS (@kvRegistry S) kv_event := kv_step.

(** The registry implements the specification. *)
Record implements_kv (root : string) kvr sp : Prop := {
  ik_root : rootPath kvr = root;
  ik_store : exists s, storeEngine kvr = Some s ∧ contents s = in_store sp;
  ik_cache : exists c, servicesCache kvr = Some c ∧ dom c = mine sp
}.

Lemma delete_all_ok paths s errs s' errs' :
  delete_all s paths errs = (s', errs') -> errs' = [] ->
  errs = [] ∧ contents s' = filter (fun kv => kv.1 ∉ paths) (contents s).
Proof.
  revert s errs. induction paths as [|p paths IH]; intros s errs Hd He; simpl in Hd.
  - simplify_eq. split; [done|]. symmetry. apply map_filter_id. intros k v _. apply not_elem_of_nil.
  - destruct (kv_Delete s p) as [s1 err] eqn:Hk. destruct (IH _ _ Hd He) as [E1 E2].
    destruct err as [err|]; [by destruct errs|]. split; [done|]. rewrite E2, (kv_Delete_ok _ _ _ Hk).
    apply map_eq. intros k. apply option_eq. intros v. rewrite !map_lookup_filter_Some, lookup_delete_Some. set_solver.
Qed.

Lemma kv_simulates root kvr sp e kvr' :
  implements_kv root kvr sp -> kv_step kvr e = Some kvr' -> implements_kv root kvr' (spec_step root sp e).
Proof.
  intros [<- (s & Hs & Hc) (c & Hca & Hm)] Hst. destruct e as [ep|ep| |p v]; simpl in Hst.
  - unfold kv_Register in Hst. rewrite Hs, Hca in Hst. destruct (kv_Exists s _); [|done]. destruct (kv_Put s _ _) as [s' [err|]] eqn:Hp; simplify_eq/=.
    apply kv_Put_ok in Hp. split; simpl; [done|exists s'; by rewrite Hp, Hc|]. eexists. split; [done|]. by rewrite dom_insert_L, Hm.
  - unfold kv_DeRegister in Hst. rewrite Hs, Hca in Hst. simpl in *. fold (full_path (rootPath kvr) ep) in *.
    destruct (c !! full_path (rootPath kvr) ep) as [x|] eqn:Hx; simpl in Hst.
    + rewrite bool_decide_eq_true_2 by (rewrite <- Hm; by apply elem_of_dom). destruct (kv_Delete s _) as [s' [err|]] eqn:Hd; simplify_eq/=.
      apply kv_Delete_ok in Hd. split; simpl; [done|exists s'; by rewrite Hd, Hc|by exists c].
    + rewrite bool_decide_eq_false_2 by (rewrite <- Hm; by apply not_elem_of_dom). simplify_eq. split; eauto.
  - unfold kv_DeRegisterAll in Hst. rewrite Hs, Hca in Hst. simpl in Hst. destruct (delete_all s _ _) as [s' errs] eqn:Hd. simpl in Hst.
    pose proof (WrapArrayErrs_spec errs) as Hw. destruct (WrapArrayErrs errs); simplify_eq/=. destruct (delete_all_ok _ _ _ _ _ Hd eq_refl) as [_ E].
    split; simpl; [done|exists s'; split; [done|]|by exists c]. rewrite E, Hc, <- Hm. apply map_filter_ext. intros k v _. simpl.
    rewrite Hord, elem_of_dom, list_elem_of_fmap. split; intros Hn Hin; apply Hn.
    + destruct Hin as [x Hx]. exists (k, x). split; [done|]. by apply elem_of_map_to_list.
    + destruct Hin as ([k' x] & -> & Hx%elem_of_map_to_list). by eexists.
  - rewrite Hs in Hst. destruct v as [v|]; [destruct (kv_Put s p v) as [s' [err|]] eqn:Hp|destruct (kv_Delete s p) as [s' [err|]] eqn:Hp]; simplify_eq/=;
      [apply kv_Put_ok in Hp|apply kv_Delete_ok in Hp]; (split; simpl; [done|exists s'; by rewrite Hp, Hc|by exists c]).
Qed.

Lemma kv_simulates_run root es kvr sp kvr' :
  implements_kv root kvr sp -> lts_run kvr es = Some kvr' -> implements_kv root kvr' (spec_run root sp es).
Proof.
  revert kvr sp; induction es as [|e es IH]; intros kvr sp Hi Hr; simpl in Hr; [by simplify_eq|].
  destruct (lts_step kvr e) as [kvr1|] eqn:Hst; [|done]. eapply IH; [by eapply kv_simulates|done].
Qed.

(** The endpoints that a listing shows, path by path. *)
Lemma lists_empty_endpoint root kvr sp ip p ps s ep rest :
  implements_kv root kvr sp -> storeEngine kvr = Some s -> TransformInvokePointToPath ip = inl p ->
  kv_List s (root +:+ p) = inl ps -> ep_Path ep = p +:+ "/" +:+ rest -> plain_metadata fold ep ->
  in_store sp !! full_path root ep = Some (inl (Data ep)) ->
  exists l, kv_ListServices fold kvr ip = Return l ∧ Endpoint0 ∈ l.
Proof.
  intros [<- (s1 & Hs1 & Hc) _] Hs Ht Hl Hp Hm Hin. assert (s1 = s) as -> by congruence. unfold kv_ListServices. rewrite Ht, Hs, Hl.
  eexists. split; [done|]. apply (decode_pairs_elem fold (full_path (rootPath kvr) ep) (inl (Data ep))); [|by apply Data_decodes].
  eapply kv_List_complete; [done|by rewrite Hc|]. unfold full_path. rewrite Hp. apply Str.HasPrefix_iff. exists rest. by rewrite !Str.app_assoc.
Qed.

(** A registry after [Init]. *)
Lemma implements_init NewStore ty config kvr s :
  kv_Init NewStore kvRegistry0 ty config = (kvr, None) -> storeEngine kvr = Some s ->
  implements_kv (rootPath kvr) kvr (mkAnnouncements (contents s) ∅).
Proof.
  intros Hinit Hs. unfold kv_Init in Hinit. assert (servicesCache kvr = Some ∅) as Hc.
  { simpl in Hinit. repeat case_match; by simplify_eq/=. }
  split; [done|by exists s|]. exists ∅. split; [done|apply dom_empty_L].
Qed.

(** C38: a registry on a key-value store that others write to as well.  After any
    sequence of operations that the store carries out, the store holds what the
    specification says: the metadata of what was registered last under a path,
    unless it was deregistered or another client has changed it since; and
    [DeRegisterAll] takes out every path that this registry has ever announced.
    What is registered is listed under its invoke point, but as an endpoint
    without PSM, address, name and path. *)
Theorem kv_registry_history NewStore ty config es kvr kvr' s :
  kv_Init NewStore kvRegistry0 ty config = (kvr, None) -> storeEngine kvr = Some s -> lts_run kvr es = Some kvr' ->
  let sp := spec_run (rootPath kvr) (mkAnnouncements (contents s) ∅) es in
  exists s', storeEngine kvr' = Some s' ∧ contents s' = in_store sp ∧
    forall ep, plain_metadata fold ep -> in_store sp !! full_path (rootPath kvr) ep = Some (inl (Data ep)) ->
    forall ip p ps rest, TransformInvokePointToPath ip = inl p -> ep_Path ep = p +:+ "/" +:+ rest ->
      kv_List s' (rootPath kvr +:+ p) = inl ps -> exists l, kv_ListServices fold kvr' ip = Return l ∧ Endpoint0 ∈ l.
Proof.
  intros Hinit Hs Hr sp. pose proof (kv_simulates_run _ _ _ _ _ (implements_init _ _ _ _ _ Hinit Hs) Hr) as Hi'.
  destruct (ik_store _ _ _ Hi') as (s' & Hs' & Hc'). exists s'. split_and!; [done..|].
  intros ep Hm Hin ip p ps rest Ht Hp Hl. by eapply lists_empty_endpoint.
Qed.

(** A registration lasts until something concerns its path. *)
Theorem registration_lasts NewStore ty config es1 ep es2 kvr kvr' s :
  kv_Init NewStore kvRegistry0 ty config = (kvr, None) -> storeEngine kvr = Some s ->
  lts_run kvr (es1 ++ KvRegister ep :: es2) = Some kvr' ->
  Forall (fun e => ~ concerns (rootPath kvr) (full_path (rootPath kvr) ep) e) es2 ->
  exists s', storeEngine kvr' = Some s' ∧ contents s' !! full_path (rootPath kvr) ep = Some (inl (Data ep)).
Proof.
  intros Hinit Hs Hr Hf. pose proof (kv_simulates_run _ _ _ _ _ (implements_init _ _ _ _ _ Hinit Hs) Hr) as Hi'.
  destruct (ik_store _ _ _ Hi') as (s' & Hs' & Hc'). exists s'. split; [done|].
  rewrite Hc', spec_run_app. simpl. rewrite unconcerned by done. simpl. by rewrite lookup_insert_eq.
Qed.

(** [DeRegisterAll] also takes out a path that this registry has deregistered long
    since, and that another server has announced in the meantime. *)
Theorem DeRegisterAll_takes_others NewStore ty config es1 ep es2 kvr kvr' s :
  kv_Init NewStore kvRegistry0 ty config = (kvr, None) -> storeEngine kvr = Some s ->
  lts_run kvr ((es1 ++ KvRegister ep :: es2) ++ [KvDeRegisterAll]) = Some kvr' ->
  exists s', storeEngine kvr' = Some s' ∧ contents s' !! full_path (rootPath kvr) ep = None.
Proof.
  intros Hinit Hs Hr. pose proof (kv_simulates_run _ _ _ _ _ (implements_init _ _ _ _ _ Hinit Hs) Hr) as Hi'.
  destruct (ik_store _ _ _ Hi') as (s' & Hs' & Hc'). exists s'. split; [done|]. rewrite Hc', spec_run_app. simpl.
  apply map_lookup_filter_None. right. intros v _. simpl. intros Hn. apply Hn. rewrite spec_run_app. simpl.
  eapply mine_grows. simpl. set_solver.
Qed.
End history.

(** ** A run

    Two services are registered, one is deregistered, another server announces
    itself under the path of the latter. *)
Module HistoryDemo.
Import RegistryDemo.

Definition ep2 : Endpoint :=
  mkEndpoint "demo.svc" "10.0.0.1:8888" "Text" "/demo.svc/Text/10.0.0.1:8888" None.
#[export] Instance demo_lts : LTS (@kvRegistry (gmap string value)) kv_event := kv_step order.

Definition events : list kv_event :=
  [KvRegister ep; KvRegister ep2; KvDeRegister ep2; KvOther (ServiceRootPath +:+ ep_Path ep2) (Some (inl JNull))].
Definition after : kvRegistry := default registry (lts_run registry events).

Lemma kv_registry_history_witness :
  exists s', storeEngine after = Some s' ∧
    contents s' = in_store (spec_run ServiceRootPath (mkAnnouncements ∅ ∅) events) ∧
    exists l, kv_ListServices String.eqb after "demo.svc:Arith.Double" = Return l ∧ Endpoint0 ∈ l.
Proof.
  destruct (kv_registry_history String.eqb order ltac:(reflexivity) NewStore "etcd" config events registry after ∅) as (s' & Hs & Hc & Hl);
    [vm_compute; reflexivity..|]. exists s'. split; [exact Hs|]. split; [exact Hc|].
  eapply (Hl ep plain); [vm_compute; reflexivity|vm_compute; reflexivity|reflexivity|reflexivity].
Defined.

(** The other server's announcement goes with the registry's own. *)
Example takes_others : exists s', storeEngine (default registry (lts_run registry (events ++ [KvDeRegisterAll]))) = Some s' ∧ s' = ∅.
Proof. eexists. split; vm_compute; reflexivity. Qed.
End HistoryDemo.
