(* ===== verification/Watcher.v ===== *)
(** * naming.go, watcher.go, resolver_etcd.go, resolver_zk.go: finding services

    A resolver turns an invoke point into a watcher of the directory of its
    service in the store; the watcher turns the values there into updates. *)
From S2P Require Import Prelude GoStd Utils Types FreeList Service Plugin Server JsonCodec Registry Selector.

(** [Operation] is not used by the code; [Update] is. *)
Inductive Operation := OpAdd | OpDelete.

Record Update := mkUpdate { u_Addr : string; u_Metadata : metadata }.

Section watcher.
Context (fold : string -> string -> bool).

(** [extractUpdates]: the metadata is a pointer to the decoded map. *)
Fixpoint extractUpdates (resp : list (string * value)) : list Update :=
  match resp with
  | [] => []
  | (_, v) :: resp' =>
      match unmarshal_Endpoint fold v with
      | (endpoint, None) =>
          mkUpdate (ep_Address endpoint) (MetaMap (default ∅ (ep_MetaData endpoint))) :: extractUpdates resp'
      | (_, Some _) => extractUpdates resp'
      end
  end.

(** [ServiceWatcher]: whether [WatchTree] has been called, and whether [stopCh]
    is closed. *)
Record ServiceWatcher := mkWatcher {
  w_key : string;
  w_watching : bool;
  w_stopped : bool;
  w_updates : list Update
}.

Definition newServiceWatcher (key : string) : ServiceWatcher := mkWatcher (ServiceRootPath +:+ key) false false [].

(** [Close]: closing a closed channel panics. *)
Definition watcher_Close (w : ServiceWatcher) : outcome ServiceWatcher :=
  if w_stopped w then Panic "close of closed channel"
  else Return (mkWatcher (w_key w) (w_watching w) true (w_updates w)).

(** What happens to a call of [Next]: [WatchTree] fails; pairs come in; the
    store has closed its channel, which reads as no pairs; the watcher has been
    stopped. *)
Inductive next_answer :=
| WatchFails (e : error)
| GotPairs (ps : list (string * value))
| ChanClosed
| Stopped.

(** [Next]; [None] when the answer cannot happen. *)
Definition Next (w : ServiceWatcher) (a : next_answer) : option (ServiceWatcher * (list Update + error)) :=
  let got ps :=
    let us := extractUpdates ps in Some (mkWatcher (w_key w) true (w_stopped w) us, inl us) in
  match a with
  | WatchFails e => if w_watching w then None else Some (w, inr e)
  | GotPairs ps => got ps
  | ChanClosed => got []
  | Stopped => if w_stopped w then Some (mkWatcher (w_key w) true true (w_updates w), inl []) else None
  end.

(** [Resolver] of naming.go: a target becomes a watcher, with the client of the
    store that it watches. *)
Class Resolver (R S : Type) := Resolve : R -> string -> (ServiceWatcher * S) + error.

(** What both resolvers do; [New] is the client of their store. *)
Definition resolve {S} (New : list string -> StoreConfig -> S + error) (config : RegistryConfig) (target : string)
    : (ServiceWatcher * S) + error :=
  if bool_decide (target = "") then inr ErrNoTargetProvided
  else
    match New (rc_Addrs config) (WrapKVConfig config) with
    | inr e => inr e
    | inl client =>
        match TransformInvokePointToPath target with
        | inr e => inr e
        | inl key => inl (newServiceWatcher key, client)
        end
    end.

Section resolvers.
(** The clients of libkv's stores. *)
Context {S : Type} (etcd_New zookeeper_New : list string -> StoreConfig -> S + error).

Record ETCDResolver := mkETCDResolver { er_Config : RegistryConfig }.
Definition NewETCDResolver (cfg : RegistryConfig) : ETCDResolver := mkETCDResolver cfg.
Definition etcd_Resolve : Resolver ETCDResolver S := fun er target => resolve etcd_New (er_Config er) target.

Record ZKResolver := mkZKResolver { zr_Config : RegistryConfig }.
Definition NewZKResolver (cfg : RegistryConfig) : ZKResolver := mkZKResolver cfg.
Definition zk_Resolve : Resolver ZKResolver S := fun zr target => resolve zookeeper_New (zr_Config zr) target.
End resolvers.

(** ** Properties *)

(** The path under which the server announces a service is below the key
    that both resolvers watch for an invoke point of that service: with the PSM
    and the service name free of colons and the name free of dots, the watcher
    for [PSM:Service.Method] watches [/byterpc/services/PSM/Service], and the
    path the etcd registry stores the endpoint under is that key, a slash and
    the server's address. *)
Lemma endpoint_watched {V W} `{UnicodeTables} (s : Server V W) svc ep m
    {S} (New : list string -> StoreConfig -> S + error) config client :
  endpointOf s svc = Return ep ->
  Str.has ":"%char (ep_PSM ep) = false -> Str.has ":"%char (name svc +:+ "." +:+ m) = false ->
  Str.has "."%char (name svc) = false -> New (rc_Addrs config) (WrapKVConfig config) = inl client ->
  exists w, etcd_Resolve New (NewETCDResolver config) (ep_PSM ep +:+ ":" +:+ name svc +:+ "." +:+ m) = inl (w, client) ∧
    zk_Resolve New (NewZKResolver config) (ep_PSM ep +:+ ":" +:+ name svc +:+ "." +:+ m) = inl (w, client) ∧
    w_key w = ServiceRootPath +:+ "/" +:+ ep_PSM ep +:+ "/" +:+ name svc ∧
    ServiceRootPath +:+ ep_Path ep = w_key w +:+ "/" +:+ ep_Address ep.
Proof.
  unfold endpointOf. destruct (ln s) as [addr|]; [|done]. intros [= <-]. simpl. intros H1 H2 H3 Hn.
  unfold etcd_Resolve, zk_Resolve, resolve. simpl. rewrite bool_decide_eq_false_2 by (by destruct (cfg_PSM (serverConfig s))).
  rewrite Hn. change (":" +:+ ?x) with (String ":"%char x). rewrite Transform_one by done.
  eexists. split; [done|]. change (?x +:+ "." +:+ m) with (x +:+ String "."%char m).
  rewrite Str.Split_app by done. simpl. split; [done|]. split; [done|]. by rewrite <- !Str.app_assoc.
Qed.

(** The endpoints that the registry has stored are read by the watcher as
    updates without an address: the values in the store are the metadata. *)
Theorem announced_addresses_are_lost (ps : list (string * value)) :
  Forall (fun p => exists ep, plain_metadata fold ep ∧ p.2 = inl (Data ep)) ps ->
  extractUpdates ps = replicate (length ps) (mkUpdate "" (MetaMap ∅)).
Proof.
  induction 1 as [|[k v] ps (ep & Hp & Hv) _ IH]; [done|]. simpl in Hv. subst v.
  cbn [extractUpdates length replicate]. by rewrite (Data_decodes fold ep Hp), IH.
Qed.
End watcher.

(** ** The endpoint of [RegistryDemo], resolved *)
Module WatcherDemo.
Import RegistryDemo.

Lemma announced_addresses_are_lost_witness :
  extractUpdates String.eqb [("/demo.svc/Arith/10.0.0.1:8888", inl (Data ep))] = [mkUpdate "" (MetaMap ∅)].
Proof.
  apply (announced_addresses_are_lost String.eqb [("/demo.svc/Arith/10.0.0.1:8888", inl (Data ep))]).
  constructor; [|constructor]. exists ep. split; [apply plain|reflexivity].
Defined.
End WatcherDemo.
