(* ===== verification/Balancer.v ===== *)
(** * balancer.go: the balancer

    A balancer has callers of [Start], [Get], [Close] and the [put] functions,
    one goroutine per [Start] that waits for updates, and a reader of [Notify].
    One event is one critical section of [mu], one answer of the watcher, or one
    channel operation.  [Get] is two events, since it can keep [mu]. *)
From S2P Require Import Prelude GoStd Types JsonCodec Registry Selector Watcher.

(** Who holds [mu]: a [Get] in its loop or in [Select], or nobody that is still
    running: a [Get] that has returned without unlocking. *)
Inductive holder := InGet (blockingWait : bool) | Abandoned.

(** [addrCh]: a buffered channel of address lists. *)
Record addr_chan := mkAddrChan { ac_cap : nat; ac_buf : list (list Address); ac_closed : bool }.

(** A receive: the oldest value, nothing at once when the channel is closed and
    empty; on an empty or a nil channel it blocks, which is [None]. *)
Definition chan_receive (ch : option addr_chan) : option (option addr_chan * option (list Address)) :=
  match ch with
  | None => None
  | Some c =>
      match ac_buf c with
      | l :: rest => Some (Some (mkAddrChan (ac_cap c) rest (ac_closed c)), Some l)
      | [] => if ac_closed c then Some (Some c, None) else None
      end
  end.

(** A send: it panics on a closed channel, and blocks on a full or a nil one. *)
Definition chan_send (ch : option addr_chan) (l : list Address) : option (outcome (option addr_chan)) :=
  match ch with
  | None => None
  | Some c =>
      if ac_closed c then Some (Panic "send on closed channel")
      else if bool_decide (length (ac_buf c) < ac_cap c)%nat
      then Some (Return (Some (mkAddrChan (ac_cap c) (ac_buf c ++ [l]) false)))
      else None
  end.

(** [select { case <-ch: default: }] *)
Definition chan_drain (ch : option addr_chan) : option addr_chan :=
  match chan_receive ch with Some (ch', _) => ch' | None => ch end.

(** Where a watching goroutine is: before it reads [b.w], in [Next] of a watcher,
    or with its updates before the critical section. *)
Inductive watch_pc := Looping | InNext (w : nat) | HaveUpdates (us : list Update).

Section balancer.
Context {S : Type} `{Selector S}.
Context (fold : string -> string -> bool).

(** [balancer]; [waitCh] is never made, since its code is commented out.
    [b_resolver] tells whether there is a resolver.  A second [Start] replaces
    the watcher while the goroutine of the first may still be in the [Next] of
    the old one, so the watchers are a store and [b_w] is a position in it. *)
Record balancer := mkBalancer {
  b_resolver : bool;
  b_w : option nat;
  b_watchers : list ServiceWatcher;
  b_s : S;
  b_mu : option holder;
  b_addrCh : option addr_chan;
  b_done : bool;
  b_watching : gmap nat watch_pc
}.

(** [NewBalancer]; without a selector it takes the package's [DefaultSelector]. *)
Definition NewBalancer (DefaultSelector : S) (resolver : bool) (s : option S) : balancer :=
  mkBalancer resolver None [] (default DefaultSelector s) None None false ∅.

Definition set_mu (b : balancer) (m : option holder) : balancer :=
  mkBalancer (b_resolver b) (b_w b) (b_watchers b) (b_s b) m (b_addrCh b) (b_done b) (b_watching b).
Definition set_s (b : balancer) (s : S) : balancer :=
  mkBalancer (b_resolver b) (b_w b) (b_watchers b) s (b_mu b) (b_addrCh b) (b_done b) (b_watching b).
Definition set_ch (b : balancer) (c : option addr_chan) : balancer :=
  mkBalancer (b_resolver b) (b_w b) (b_watchers b) (b_s b) (b_mu b) c (b_done b) (b_watching b).
Definition set_watchers (b : balancer) (l : list ServiceWatcher) : balancer :=
  mkBalancer (b_resolver b) (b_w b) l (b_s b) (b_mu b) (b_addrCh b) (b_done b) (b_watching b).
Definition set_watching (b : balancer) (m : gmap nat watch_pc) : balancer :=
  mkBalancer (b_resolver b) (b_w b) (b_watchers b) (b_s b) (b_mu b) (b_addrCh b) (b_done b) m.

(** [Start]; [resolved] is what [Resolve] answers, [g] the new goroutine. *)
Definition Start (b : balancer) (resolved : ServiceWatcher + error) (g : nat) : balancer * option error :=
  if b_done b then (b, Some ErrClientConnClosing)
  else if negb (b_resolver b) then (b, None)
  else
    match resolved with
    | inr e => (b, Some e)
    | inl w =>
        (mkBalancer (b_resolver b) (Some (length (b_watchers b))) (b_watchers b ++ [w]) (b_s b) (b_mu b)
           (Some (mkAddrChan 1 [] false)) (b_done b) (<[g := Looping]> (b_watching b)), None)
    end.

(** The first line of [watchAddrUpdates]: [b.w] is read, and its [Next] returns
    some time later; an error ends the goroutine. *)
Definition watch_call (b : balancer) (g : nat) : option balancer :=
  match b_watching b !! g, b_w b with
  | Some Looping, Some w => Some (set_watching b (<[g := InNext w]> (b_watching b)))
  | _, _ => None
  end.

Definition watch_next (b : balancer) (g : nat) (a : next_answer) : option balancer :=
  match b_watching b !! g with
  | Some (InNext i) =>
      match b_watchers b !! i with
      | None => None
      | Some w =>
          match Next fold w a with
          | None => None
          | Some (w', inr _) =>
              Some (set_watching (set_watchers b (<[i := w']> (b_watchers b))) (delete g (b_watching b)))
          | Some (w', inl us) =>
              Some (set_watching (set_watchers b (<[i := w']> (b_watchers b))) (<[g := HaveUpdates us]> (b_watching b)))
          end
      end
  | _ => None
  end.

Definition address_of (u : Update) : Address := mkAddress (u_Addr u) (u_Metadata u).

(** The critical section of [watchAddrUpdates], which begins when [mu] is free:
    the selector is reset also when the balancer is closed; the channel is
    drained, and the new list is sent on it.  [None]: [mu] is held, or the send
    blocks.  A reader of the channel that comes between the two only makes more
    room. *)
Definition watch_update (b : balancer) (g : nat) : option (outcome balancer) :=
  match b_mu b, b_watching b !! g with
  | None, Some (HaveUpdates us) =>
      let b1 := set_s b (sel_Reset (b_s b) (address_of <$> us)) in
      if b_done b then Some (Return (set_watching b1 (delete g (b_watching b))))
      else
        let b2 := set_ch b1 (chan_drain (b_addrCh b1)) in
        match chan_send (b_addrCh b2) (sel_AddrList (b_s b2)) with
        | None => None
        | Some (Panic why) => Some (Panic why)
        | Some (Return ch) => Some (Return (set_watching (set_ch b2 ch) (<[g := Looping]> (b_watching b))))
        end
  | _, _ => None
  end.

(** [Get] up to the end of the waiting loop is reached: it takes [mu], and keeps
    it unless the balancer is closed. *)
Definition get_lock (b : balancer) (blockingWait : bool) : balancer * option error :=
  if b_done b then (b, Some ErrClientConnClosing) else (set_mu b (Some (InGet blockingWait)), None).

(** The rest of [Get].  While there is no address a blocking [Get] goes round in
    its loop.  Only a [Select] that succeeds is followed by the unlock. *)
Definition get_select (b : balancer) (r : Z) (fuel : nat) : option (balancer * (Address + error)) :=
  match b_mu b with
  | Some (InGet blockingWait) =>
      if blockingWait && bool_decide (sel_AddrList (b_s b) = []) then None
      else
        match sel_Select r fuel (b_s b) with
        | None => None
        | Some (s', inl a) => Some (set_mu (set_s b s') None, inl a)
        | Some (s', inr e) => Some (set_mu (set_s b s') (Some Abandoned), inr e)
        end
  | _ => None
  end.

(** The [put] function of a [Get]; it does not take [mu]. *)
Definition put (b : balancer) (addr : string) : balancer := set_s b (sel_Put (b_s b) addr).

(** A receive from the channel that [Notify] returns. *)
Definition notify_receive (b : balancer) : option (balancer * option (list Address)) :=
  match chan_receive (b_addrCh b) with
  | Some (ch, l) => Some (set_ch b ch, l)
  | None => None
  end.

(** [Close]; [mu] is released by the deferred unlock also when it panics. *)
Definition Close (b : balancer) : outcome balancer :=
  let b1 := mkBalancer (b_resolver b) (b_w b) (b_watchers b) (b_s b) (b_mu b) (b_addrCh b) true (b_watching b) in
  let closed_watchers :=
    match b_w b with
    | None => Return (b_watchers b)
    | Some i =>
        match b_watchers b !! i with
        | None => Panic "nil pointer dereference"
        | Some w =>
            match watcher_Close w with
            | Return w' => Return (<[i := w']> (b_watchers b))
            | Panic why => Panic why
            end
        end
    end in
  match closed_watchers with
  | Panic why => Panic why
  | Return l =>
      match b_addrCh b with
      | None => Return (set_watchers b1 l)
      | Some c => if ac_closed c then Panic "close of closed channel"
                  else Return (set_ch (set_watchers b1 l) (Some (mkAddrChan (ac_cap c) (ac_buf c) true)))
      end
  end.

(** ** The transition system *)
Inductive bal_event :=
| EvStart (resolved : ServiceWatcher + error) (g : nat)
| EvCall (g : nat)
| EvNext (g : nat) (a : next_answer)
| EvUpdate (g : nat)
| EvGetLock (blockingWait : bool)
| EvGetSelect (r : Z) (fuel : nat)
| EvPutBack (addr : string)
| EvNotified
| EvCloseBal.

(** The events that begin by taking [mu] wait while it is held. *)
Definition locking (e : bal_event) : bool :=
  match e with EvStart _ _ | EvUpdate _ | EvGetLock _ | EvCloseBal => true | _ => false end.

Definition bal_step (b : balancer) (e : bal_event) : option balancer :=
  if locking e && bool_decide (is_Some (b_mu b)) then None
  else
    match e with
    | EvStart resolved g =>
        if bool_decide (b_watching b !! g = None) then Some (Start b resolved g).1 else None
    | EvCall g => watch_call b g
    | EvNext g a => watch_next b g a
    | EvUpdate g => match watch_update b g with Some (Return b') => Some b' | _ => None end
    | EvGetLock blockingWait => Some (get_lock b blockingWait).1
    | EvGetSelect r fuel => fst <$> get_select b r fuel
    | EvPutBack addr => Some (put b addr)
    | EvNotified => fst <$> notify_receive b
    | EvCloseBal => match Close b with Return b' => Some b' | Panic _ => None end
    end.

#[global] Instance bal_lts : LTS balancer bal_event := bal_step.
End balancer.

Section props.
Context {S : Type} `{Selector S}.
Context (fold : string -> string -> bool).
#[local] Instance balancer_steps : LTS balancer bal_event := bal_lts fold.
Implicit Types (b : @balancer S).

(** ** A mutex that is not given back *)

(** What happens while [mu] is held: nothing that needs it. *)
Lemma held_step b e b' m :
  b_mu b = Some m -> bal_step fold b e = Some b' ->
  (exists g, e = EvCall g ∧ watch_call b g = Some b') ∨
  (exists g a, e = EvNext g a ∧ watch_next fold b g a = Some b') ∨
  (exists r fuel x, e = EvGetSelect r fuel ∧ get_select b r fuel = Some (b', x)) ∨
  (exists addr, e = EvPutBack addr ∧ b' = put b addr) ∨
  (exists l, e = EvNotified ∧ notify_receive b = Some (b', l)).
Proof.
  intros Hm Hs. unfold bal_step in Hs. rewrite Hm, (bool_decide_eq_true_2 (is_Some (Some m))) in Hs by eauto.
  destruct e; simpl in Hs; try done; simplify_eq.
  - eauto 10.
  - eauto 10.
  - apply fmap_Some in Hs as ([b1 x] & Hs & ->). right; right; left. eauto 10.
  - eauto 10.
  - apply fmap_Some in Hs as ([b1 l] & Hs & ->). right; right; right; right. eauto.
Qed.

Lemma watch_call_frame b g b' :
  watch_call b g = Some b' -> b_mu b' = b_mu b ∧ b_done b' = b_done b ∧ b_s b' = b_s b ∧ b_addrCh b' = b_addrCh b ∧
    b_w b' = b_w b ∧ b_watchers b' = b_watchers b ∧ b_watching b <> ∅.
Proof.
  unfold watch_call. destruct (b_watching b !! g) as [[| |]|] eqn:Hg; try done. destruct (b_w b) eqn:Hw; [|done].
  intros [= <-]. split_and!; simpl; try done. intros E. by rewrite E in Hg.
Qed.

Lemma watch_next_frame b g a b' :
  watch_next fold b g a = Some b' -> b_mu b' = b_mu b ∧ b_done b' = b_done b ∧ b_s b' = b_s b ∧ b_addrCh b' = b_addrCh b ∧
    b_w b' = b_w b.
Proof.
  unfold watch_next. destruct (b_watching b !! g) as [[|i|us]|]; try done. destruct (b_watchers b !! i) as [w|]; [|done].
  destruct (Next fold w a) as [[w' [us|e]]|]; intros; by simplify_eq.
Qed.

Lemma notify_frame b b' l :
  notify_receive b = Some (b', l) -> b_mu b' = b_mu b ∧ b_done b' = b_done b ∧ b_s b' = b_s b ∧ b_w b' = b_w b ∧
    b_watchers b' = b_watchers b ∧ b_watching b' = b_watching b.
Proof. unfold notify_receive. destruct (chan_receive (b_addrCh b)) as [[ch x]|]; intros; by simplify_eq. Qed.

(** C36: a [Get] whose [Select] fails returns the error and keeps [mu] for ever:
    from then on no [Start], [Get], [Close] and no update of the addresses can
    run, whatever else happens. *)
Theorem failed_get_locks_balancer b r fuel b1 e b' :
  get_select b r fuel = Some (b1, inr e) -> reachable b1 b' ->
  b_mu b' = Some Abandoned ∧ b_done b' = b_done b ∧
  forall ev, locking ev = true -> bal_step fold b' ev = None.
Proof.
  intros Hg Hr.
  assert (b_mu b1 = Some Abandoned ∧ b_done b1 = b_done b) as [H1 Hd1].
  { unfold get_select in Hg. destruct (b_mu b) as [[bw|]|]; try done. destruct (bw && _); [done|].
    destruct (sel_Select r fuel (b_s b)) as [[s' [a|e']]|]; by simplify_eq. }
  assert (b_mu b' = Some Abandoned ∧ b_done b' = b_done b) as [Hm Hd].
  { induction Hr as [|b2 ev b3 _ [Hm Hd] Hs]; [done|].
    destruct (held_step _ _ _ _ Hm Hs) as [(g & _ & Hn)|[(g & a & _ & Hn)|[(r' & f' & x & _ & Hg')|[(ad & _ & ->)|(l & _ & Hn)]]]].
    - apply watch_call_frame in Hn as (-> & -> & _). done.
    - apply watch_next_frame in Hn as (-> & -> & _). done.
    - unfold get_select in Hg'. by rewrite Hm in Hg'.
    - done.
    - apply notify_frame in Hn as (-> & -> & _). done. }
  split_and!; [done..|]. intros ev Hev. unfold bal_step. rewrite Hev, Hm.
  by rewrite bool_decide_eq_true_2 by eauto.
Qed.

(** A blocking [Get] that finds no address waits in vain: it holds [mu], the
    updates that could bring an address need it, so [Get] never returns and
    nothing else gets the mutex. *)
Theorem blocking_get_waits_forever b b' :
  b_mu b = Some (InGet true) -> sel_AddrList (b_s b) = [] -> reachable b b' ->
  b_mu b' = Some (InGet true) ∧ sel_AddrList (b_s b') = [] ∧ (forall r fuel, get_select b' r fuel = None) ∧
  forall ev, locking ev = true -> bal_step fold b' ev = None.
Proof.
  intros Hm0 Hl0 Hr.
  assert (forall b2, b_mu b2 = Some (InGet true) -> sel_AddrList (b_s b2) = [] ->
    forall r fuel, get_select b2 r fuel = None) as Hsel.
  { intros b2 Hm Hl r fuel. unfold get_select. rewrite Hm, Hl. done. }
  assert (b_mu b' = Some (InGet true) ∧ sel_AddrList (b_s b') = []) as [Hm Hl].
  { induction Hr as [|b2 ev b3 _ [Hm Hl] Hs]; [done|].
    destruct (held_step _ _ _ _ Hm Hs) as [(g & _ & Hn)|[(g & a & _ & Hn)|[(r' & f' & x & _ & Hg')|[(ad & _ & ->)|(l & _ & Hn)]]]].
    - apply watch_call_frame in Hn as (-> & _ & -> & _). done.
    - apply watch_next_frame in Hn as (-> & _ & -> & _). done.
    - by rewrite (Hsel b2 Hm Hl) in Hg'.
    - split; [done|]. simpl. pose proof (sel_Put_list (b_s b2) ad) as Hp. rewrite Hl in Hp.
      by apply Permutation_nil_r in Hp.
    - apply notify_frame in Hn as (-> & _ & -> & _). done. }
  split_and!; [done..| |].
  - by apply Hsel.
  - intros ev Hev. unfold bal_step. rewrite Hev, Hm. by rewrite bool_decide_eq_true_2 by eauto.
Qed.

(** ** The channel of addresses *)

Record bal_ok b : Prop := {
  bo_closed : forall c, b_addrCh b = Some c -> ac_closed c = true -> b_done b = true;
  bo_watching : b_watching b <> ∅ -> is_Some (b_addrCh b);
  bo_w : is_Some (b_w b) <-> is_Some (b_addrCh b);
  bo_done : b_done b = true -> forall c, b_addrCh b = Some c -> ac_closed c = true;
  bo_stopped : b_done b = true -> forall i w, b_w b = Some i -> b_watchers b !! i = Some w -> w_stopped w = true;
  bo_known : forall i, b_w b = Some i -> is_Some (b_watchers b !! i);
  bo_room : forall c, b_addrCh b = Some c -> ac_cap c = 1%nat ∧ (length (ac_buf c) <= 1)%nat
}.

Lemma bal_ok_new (ds : S) resolver s : bal_ok (NewBalancer ds resolver s).
Proof. split; simpl; done. Qed.

Lemma Next_stopped w a w' res : Next fold w a = Some (w', res) -> w_stopped w' = w_stopped w.
Proof. unfold Next. destruct a; simpl; try (destruct (w_watching w)); try (destruct (w_stopped w) eqn:E); intros; by simplify_eq. Qed.

(** Changes of the selector, the mutex and the goroutines' progress. *)
Lemma bal_ok_same b b' :
  bal_ok b -> b_addrCh b' = b_addrCh b -> b_done b' = b_done b -> b_w b' = b_w b -> b_watchers b' = b_watchers b ->
  (b_watching b' <> ∅ -> b_watching b <> ∅) -> bal_ok b'.
Proof. intros [? ? ? ? ? ? ?] E1 E2 E3 E4 Hw. split; rewrite ?E1, ?E2, ?E3, ?E4; auto. Qed.

Lemma lookup_insert_is_Some_list {A} (l : list A) i k x : is_Some (l !! k) -> is_Some (<[i := x]> l !! k).
Proof. rewrite !lookup_lt_is_Some. by rewrite length_insert. Qed.

Lemma bal_ok_next b g a b' : bal_ok b -> watch_next fold b g a = Some b' -> bal_ok b'.
Proof.
  intros Hb Hs. unfold watch_next in Hs. destruct (b_watching b !! g) as [[|i|us]|] eqn:Hg; try done.
  destruct (b_watchers b !! i) as [w|] eqn:Hw; [|done].
  assert (b_watching b <> ∅) as Hne by (intros E; by rewrite E in Hg).
  destruct (Next fold w a) as [[w' [us|e]]|] eqn:Hn; [| |done]; apply Next_stopped in Hn; simplify_eq;
    pose proof Hb as [H1 H2 H3 H4 H5 H6 H7]; split; simpl; auto.
  all: try (intros k Hk; by apply lookup_insert_is_Some_list, H6).
  all: intros Hd k w0 Hk; rewrite list_lookup_insert; case_decide; intros; simplify_eq; [|by eapply H5].
  all: destruct_and!; simplify_eq; rewrite Hn; by eapply H5.
Qed.

(** A drained channel of capacity 1 has room, and then holds what is sent. *)
Lemma drain_send c l :
  ac_closed c = false -> ac_cap c = 1%nat -> (length (ac_buf c) <= 1)%nat ->
  chan_send (chan_drain (Some c)) l = Some (Return (Some (mkAddrChan 1 [l] false))).
Proof.
  destruct c as [n [|x [|y r]] cl]; simpl; intros -> -> Hlen; [..|lia];
    unfold chan_drain, chan_receive, chan_send; simpl; done.
Qed.

(** An update that has the mutex happens. *)
Lemma watch_update_ok b g us :
  bal_ok b -> b_mu b = None -> b_watching b !! g = Some (HaveUpdates us) ->
  exists b', watch_update b g = Some (Return b') ∧ bal_ok b' ∧ b_mu b' = None ∧ b_done b' = b_done b ∧
    b_s b' = sel_Reset (b_s b) (address_of <$> us) ∧
    (b_done b = false -> b_addrCh b' = Some (mkAddrChan 1 [sel_AddrList (b_s b')] false) ∧ b_watching b' !! g = Some Looping) ∧
    (b_done b = true -> b_addrCh b' = b_addrCh b ∧ b_watching b' !! g = None).
Proof.
  intros Hb Hmu Hg. unfold watch_update. rewrite Hmu, Hg.
  assert (b_watching b <> ∅) as Hne by (intros E; by rewrite E in Hg).
  destruct (b_done b) eqn:Hd.
  - eexists. split_and!; [done|by eapply bal_ok_same|done..|]. intros _. simpl. by rewrite lookup_delete_eq.
  - destruct (bo_watching _ Hb Hne) as [c Hc].
    assert (ac_closed c = false) as Hcl by (apply not_true_is_false; intros E; by rewrite (bo_closed _ Hb c Hc E) in Hd).
    destruct (bo_room _ Hb c Hc) as [Hcap Hlen]. simpl. rewrite Hc, (drain_send _ _ Hcl Hcap Hlen).
    eexists. split_and!; [done| |done..| |done]; [|by simpl; rewrite lookup_insert_eq].
    pose proof Hb as [H1 H2 H3 H4 H5 H6 H7]. split; simpl; eauto; [naive_solver| |congruence..|].
    + rewrite H3, Hc. split; eauto.
    + intros c' [= <-]. simpl. split; [done|lia].
Qed.

Lemma watch_update_inv b g res :
  watch_update b g = Some res -> b_mu b = None ∧ exists us, b_watching b !! g = Some (HaveUpdates us).
Proof. unfold watch_update. destruct (b_mu b), (b_watching b !! g) as [[| |us]|]; try done. eauto. Qed.

Lemma Close_ok b b' :
  bal_ok b -> Close b = Return b' -> bal_ok b' ∧ b_done b' = true ∧ b_w b' = b_w b.
Proof.
  intros Hb Hc. unfold Close in Hc. pose proof Hb as [H1 H2 H3 H4 H5 H6 H7].
  destruct (b_w b) as [i|] eqn:Hw.
  - destruct (H6 i eq_refl) as [w Hi]. rewrite Hi in Hc. unfold watcher_Close in Hc. destruct (w_stopped w); [done|].
    destruct (b_addrCh b) as [c|] eqn:Hch; [|by destruct (proj1 H3) as [? ?]; eauto].
    destruct (ac_closed c); [done|]. simplify_eq. split; [|by simpl]. split; simpl; eauto.
    + split; eauto.
    + by intros _ c' [= <-].
    + intros _ k w0 [= <-]. rewrite list_lookup_insert_eq by by eapply lookup_lt_Some.
      by intros [= <-].
    + intros k [= <-]. apply lookup_insert_is_Some_list. eauto.
    + intros c' [= <-]. simpl. by apply (H7 c).
  - destruct (b_addrCh b) as [c|] eqn:Hch; [by destruct (proj2 H3) as [? ?]; eauto|]. simplify_eq.
    split; [|by simpl]. split; simpl; rewrite ?Hw, ?Hch; done.
Qed.

Lemma bal_ok_step b e b' : bal_ok b -> bal_step fold b e = Some b' -> bal_ok b'.
Proof.
  intros Hb Hs. unfold bal_step in Hs. destruct (locking e && _); [done|]. destruct e as [res g|g|g a|g|bw|r fuel|addr| |].
  - case_bool_decide; simplify_eq. unfold Start. destruct (b_done b) eqn:Hd; [done|].
    destruct (b_resolver b); simpl; [|done]. destruct res as [w|err]; [|done].
    simpl. split; simpl; eauto; try (intros; congruence); [naive_solver|split; eauto| |].
    + intros i [= <-]. rewrite lookup_app_r, Nat.sub_diag by done. eauto.
    + intros c [= <-]. simpl. split; [done|lia].
  - apply watch_call_frame in Hs as (_ & E1 & _ & E2 & E3 & E4 & Hne). by eapply bal_ok_same.
  - by eapply bal_ok_next.
  - destruct (watch_update b g) as [[b1|]|] eqn:Hu; simplify_eq.
    destruct (watch_update_inv _ _ _ Hu) as [Hmu [us Hg]].
    destruct (watch_update_ok b g us Hb Hmu Hg) as (b2 & Hu2 & ? & _). by simplify_eq.
  - simplify_eq. unfold get_lock. destruct (b_done b); [done|]. by eapply bal_ok_same.
  - apply fmap_Some in Hs as ([b1 x] & Hs & ->). unfold get_select in Hs.
    destruct (b_mu b) as [[bw|]|]; try done. destruct (bw && _); [done|].
    destruct (sel_Select r fuel (b_s b)) as [[s' [a|e']]|]; simplify_eq; by eapply bal_ok_same.
  - simplify_eq. by eapply bal_ok_same.
  - apply fmap_Some in Hs as ([b1 l] & Hs & ->). unfold notify_receive in Hs. pose proof Hb as [H1 H2 H3 H4 H5 H6 H7].
    destruct (b_addrCh b) as [[n [|x rest] cl]|] eqn:Hc; simpl in Hs; simplify_eq; [destruct cl; simplify_eq|]; split; simpl; eauto.
    + intros c [= <-] Hcl. by eapply H1.
    + rewrite H3. split; eauto.
    + intros Hd c [= <-]. simpl. by eapply (H4 Hd (mkAddrChan _ _ cl)).
    + intros c [= <-]. destruct (H7 _ eq_refl) as [E Hlen]. simpl in *. split; [done|lia].
  - destruct (Close b) as [b1|] eqn:Hc; simplify_eq. by apply (Close_ok b).
Qed.

Lemma reachable_bal_ok (ds : S) resolver s b : reachable (NewBalancer ds resolver s) b -> bal_ok b.
Proof.
  apply (reachable_invariant bal_ok); [apply bal_ok_new|]. intros b1 e b2. apply bal_ok_step.
Qed.

(** C34: an update that has its turn on [mu] goes through: it does not panic and
    does not block, since the channel it sends on exists, is not closed while the
    balancer is open, and has room once it is drained.  It gives [mu] back.
    Afterwards the channel holds one list, with exactly the addresses of this
    update, whatever was left in it; and the goroutine goes on to the next
    update.  After [Close] the goroutine ends without sending. *)
Theorem update_notifies_latest (ds : S) resolver s b g us :
  reachable (NewBalancer ds resolver s) b -> b_watching b !! g = Some (HaveUpdates us) -> b_mu b = None ->
  exists b', watch_update b g = Some (Return b') ∧ bal_step fold b (EvUpdate g) = Some b' ∧ b_mu b' = None ∧
    (b_done b = false -> b_watching b' !! g = Some Looping ∧
       exists l, b_addrCh b' = Some (mkAddrChan 1 [l] false) ∧ forall x, x ∈ Addr <$> l <-> x ∈ u_Addr <$> us) ∧
    (b_done b = true -> b_addrCh b' = b_addrCh b ∧ b_watching b' !! g = None).
Proof.
  intros Hb%reachable_bal_ok Hg Hmu.
  destruct (watch_update_ok b g us Hb Hmu Hg) as (b' & Hu & _ & Hm & _ & Hs & H1 & H2).
  exists b'. split_and!; try done; [unfold bal_step; by rewrite Hmu, Hu|].
  intros [Hc Hl]%H1. split; [done|]. eexists. split; [done|].
  intros x. rewrite Hs, sel_Reset_list, <- list_fmap_compose. done.
Qed.

(** A closed balancer stays closed. *)
Lemma closed_step b e b' :
  b_done b = true -> bal_step fold b e = Some b' -> b_done b' = true ∧ b_w b' = b_w b.
Proof.
  intros Hd Hs. unfold bal_step in Hs. destruct (locking e && _); [done|]. destruct e as [res g|g|g a|g|bw|r fuel|addr| |].
  - case_bool_decide; simplify_eq. unfold Start. by rewrite Hd.
  - apply watch_call_frame in Hs as (_ & -> & _ & _ & -> & _). done.
  - apply watch_next_frame in Hs as (_ & -> & _ & _ & ->). done.
  - destruct (watch_update b g) as [[b1|]|] eqn:Hu; simplify_eq. unfold watch_update in Hu. rewrite Hd in Hu.
    by split_matches_in Hu.
  - simplify_eq. unfold get_lock. by rewrite Hd.
  - apply fmap_Some in Hs as ([b1 x] & Hs & ->). unfold get_select in Hs. split_matches_in Hs; done.
  - by simplify_eq.
  - apply fmap_Some in Hs as ([b1 l] & Hs & ->). apply notify_frame in Hs as (_ & E & _ & E2 & _). simpl. by rewrite E, E2.
  - destruct (Close b) as [b1|] eqn:Hc; simplify_eq. unfold Close in Hc. split_matches_in Hc; by simplify_eq.
Qed.

(** C35: after [Close] the balancer refuses: [Start] and [Get] return
    [ErrClientConnClosing] and leave [mu] free.  A second [Close] panics if the
    balancer had been started: it closes a closed channel. *)
Theorem closed_balancer_refuses (ds : S) resolver s b b1 b2 :
  reachable (NewBalancer ds resolver s) b -> Close b = Return b1 -> reachable b1 b2 ->
  (forall res g, Start b2 res g = (b2, Some ErrClientConnClosing)) ∧
  (forall bw, get_lock b2 bw = (b2, Some ErrClientConnClosing)) ∧
  (is_Some (b_w b) -> exists why, Close b2 = Panic why).
Proof.
  intros Hb%reachable_bal_ok Hc Hr. destruct (Close_ok _ _ Hb Hc) as (Hb1 & Hd1 & Hw1).
  assert (bal_ok b2 ∧ b_done b2 = true ∧ b_w b2 = b_w b) as (Hb2 & Hd2 & Hw2).
  { induction Hr as [|b3 e b4 _ (IH1 & IH2 & IH3) Hs]; [done|].
    destruct (closed_step _ _ _ IH2 Hs) as [? ->]. split_and!; [by eapply bal_ok_step|done|done]. }
  split_and!.
  - intros res g. unfold Start. by rewrite Hd2.
  - intros bw. unfold get_lock. by rewrite Hd2.
  - rewrite <- Hw2. intros [i Hi]. destruct (bo_known _ Hb2 i Hi) as [w Hw].
    unfold Close, watcher_Close. rewrite Hi, Hw, (bo_stopped _ Hb2 Hd2 i w Hi Hw). eauto.
Qed.
End props.

(** ** The default selector *)
Section default.
Context (ord : gmap string AddrInfo -> list (string * AddrInfo)).
Context (Hord : forall m, ord m ≡ₚ map_to_list m).
Context (fold : string -> string -> bool).
#[local] Instance DefaultSelector : Selector baseSelector := RandomSelector ord Hord.
#[local] Instance default_steps : LTS (@balancer baseSelector) bal_event := bal_lts fold.

(** Every change of the selector is one of the selector's own. *)
Lemma step_selector b e b' :
  bal_step fold b e = Some b' ->
  b_s b' = b_s b ∨ (exists l, b_s b' = Reset (b_s b) l) ∨ (exists a, b_s b' = Put (b_s b) a) ∨
  (exists r, b_s b' = (random_Select r (b_s b)).1).
Proof.
  intros Hs. unfold bal_step in Hs. destruct (locking e && _); [done|]. destruct e as [res g|g|g a|g|bw|r fuel|addr| |].
  - case_bool_decide; simplify_eq. unfold Start. left. by destruct (b_done b), (b_resolver b), res.
  - left. by apply watch_call_frame in Hs as (_ & _ & ? & _).
  - left. by apply watch_next_frame in Hs as (_ & _ & ? & _).
  - destruct (watch_update b g) as [[b1|]|] eqn:Hu; simplify_eq. unfold watch_update in Hu.
    right; left. split_matches_in Hu; simplify_eq; simpl; eauto.
  - simplify_eq. left. unfold get_lock. by destruct (b_done b).
  - apply fmap_Some in Hs as ([b1 x] & Hs & ->). unfold get_select in Hs.
    destruct (b_mu b) as [[bw|]|]; try done. destruct (bw && _); [done|]. right; right; right. exists r.
    simpl in Hs. destruct (random_Select r (b_s b)) as [s' [a|e']]; by simplify_eq.
  - simplify_eq. eauto.
  - apply fmap_Some in Hs as ([b1 l] & Hs & ->). apply notify_frame in Hs. left. apply Hs.
  - destruct (Close b) as [b1|] eqn:Hc; simplify_eq. left. unfold Close in Hc. split_matches_in Hc; by simplify_eq.
Qed.

Lemma default_nobody resolver b : reachable (NewBalancer NewRandomSelector resolver None) b -> nobody (b_s b).
Proof.
  apply (reachable_invariant (fun b => nobody (b_s b))); [done|]. intros b1 e b2 Hb Hs.
  destruct (step_selector _ _ _ Hs) as [->|[(l & ->)|[(a & ->)|(r & ->)]]]; [done|apply nobody_Reset|by apply nobody_alter|].
  unfold random_Select. case_bool_decide; [done|]. by rewrite random_loop_nobody.
Qed.

(** With the selector that [NewBalancer] uses by default, every [Get] that
    gets past [done] fails or waits for ever, and keeps [mu] in both cases. *)
Theorem default_balancer_never_selects resolver b r fuel :
  reachable (NewBalancer NewRandomSelector resolver None) b ->
  match get_select b r fuel with
  | None => True
  | Some (b', res) => b_mu b' = Some Abandoned ∧ (res = inr ErrAddrListEmptyErr ∨ res = inr ErrNoAvailableAddressErr)
  end.
Proof.
  intros Hb%default_nobody. unfold get_select. destruct (b_mu b) as [[bw|]|]; try done.
  destruct (bw && _); [done|]. simpl. unfold random_Select. case_bool_decide; [by auto|].
  rewrite random_loop_nobody by done. auto.
Qed.
End default.

(** ** A balancer whose service has two servers *)
Module BalancerDemo.
Import SelectorDemo.

#[local] Instance demo_selector : Selector baseSelector := RandomSelector order order_ok.
#[local] Instance demo_steps : LTS (@balancer baseSelector) bal_event := bal_lts String.eqb.

Definition endpoint_json (addr : string) : value := inl (JObj [("address", JStr addr)]).

Definition watcher : ServiceWatcher := newServiceWatcher "/demo/Arith".
Definition new : balancer := NewBalancer NewRandomSelector true None.

Definition run (es : list bal_event) : balancer := default new (lts_run new es).

(** Started, with the first update ready. *)
Definition updating : list bal_event :=
  [EvStart (inl watcher) 0; EvCall 0; EvNext 0 (GotPairs [("a", endpoint_json "10.0.0.1:80"); ("b", endpoint_json "10.0.0.2:80")])].
(** The update is done, and a [Get] has the lock. *)
Definition getting : list bal_event := updating ++ [EvUpdate 0; EvGetLock false].

(** A first update was sent and not read, and the next one is ready. *)
Definition again : list bal_event :=
  updating ++ [EvUpdate 0; EvCall 0; EvNext 0 (GotPairs [("b", endpoint_json "10.0.0.2:80")])].

Lemma update_notifies_latest_witness :
  (exists old, b_addrCh (run again) = Some (mkAddrChan 1 [old] false) ∧ length old = 2%nat) ∧
  exists b' l, watch_update (run again) 0 = Some (Return b') ∧ b_addrCh b' = Some (mkAddrChan 1 [l] false) ∧
    forall x, x ∈ Addr <$> l <-> x ∈ ["10.0.0.2:80"].
Proof.
  split; [eexists; split; [vm_compute; reflexivity|reflexivity]|].
  destruct (update_notifies_latest String.eqb NewRandomSelector true None (run again) 0
    (extractUpdates String.eqb [("b", endpoint_json "10.0.0.2:80")])) as (b' & H1 & _ & _ & H2 & _).
  - apply (lts_run_reachable _ again). vm_compute. reflexivity.
  - vm_compute. reflexivity.
  - reflexivity.
  - destruct H2 as (_ & l & H3 & H4); [reflexivity|]. exists b', l. split; [exact H1|]. split; [exact H3|exact H4].
Defined.

Definition failed : balancer :=
  match get_select (run getting) 7 1 with Some (b, _) => b | None => new end.

Lemma failed_get_locks_balancer_witness :
  b_mu failed = Some Abandoned ∧ b_done failed = b_done (run getting) ∧
  forall ev, locking ev = true -> bal_step String.eqb failed ev = None.
Proof.
  apply (failed_get_locks_balancer String.eqb (run getting) 7 1 failed ErrNoAvailableAddressErr failed).
  - vm_compute. reflexivity.
  - apply reachable_refl.
Defined.

Definition waiting : balancer := run [EvGetLock true].

Lemma blocking_get_waits_forever_witness :
  b_mu waiting = Some (InGet true) ∧ sel_AddrList (b_s waiting) = [] ∧ (forall r fuel, get_select waiting r fuel = None) ∧
  forall ev, locking ev = true -> bal_step String.eqb waiting ev = None.
Proof. apply (blocking_get_waits_forever String.eqb waiting waiting); [reflexivity..|apply reachable_refl]. Defined.

Definition closed : balancer := match Close (run updating) with Return b => b | Panic _ => new end.

Lemma closed_balancer_refuses_witness : exists why, Close closed = Panic why.
Proof.
  apply (closed_balancer_refuses String.eqb NewRandomSelector true None (run updating) closed closed).
  - apply (lts_run_reachable _ updating). vm_compute. reflexivity.
  - vm_compute. reflexivity.
  - apply reachable_refl.
  - exists 0%nat. vm_compute. reflexivity.
Defined.

Lemma default_balancer_never_selects_witness :
  match get_select (run getting) 7 1 with
  | None => True
  | Some (b', res) => b_mu b' = Some Abandoned ∧ (res = inr ErrAddrListEmptyErr ∨ res = inr ErrNoAvailableAddressErr)
  end.
Proof.
  apply (default_balancer_never_selects order order_ok String.eqb true (run getting) 7 1).
  apply (lts_run_reachable _ getting). vm_compute. reflexivity.
Defined.
End BalancerDemo.
