(* ===== verification/Discovery.v ===== *)
(** * How a client finds a server

    The parts of discovery put together: servers announce their services through
    the registry on etcd, a resolver turns an invoke point into a watcher of the
    same store, and the balancer keeps the addresses that the watcher reports for
    its selector.  The steps are those of [RegistryHistory] and [Balancer]; what a
    watcher is told is the list of its directory as it is or was in the store. *)
From S2P Require Import Prelude GoStd Utils Types FreeList Service Plugin Server JsonCodec Registry RegistryHistory Selector Watcher Balancer.

Section discovery.
Context {KV S : Type} `{KVLaws KV} `{Selector S} (fold : string -> string -> bool).
Context (ordE : gmap string Endpoint -> list (string * Endpoint)) (HordE : forall m, ordE m ≡ₚ map_to_list m).
Context (New : list string -> StoreConfig -> KV + error) (config : RegistryConfig).
Implicit Types (kvr : @kvRegistry KV) (s : KV) (b : @balancer S) (ep : Endpoint) (v : value).

(** The registry of the servers with its store, what the store was before, and the
    balancer of the client. *)
Record discovery := mkDiscovery { d_registry : @kvRegistry KV; d_stores : list KV; d_balancer : @balancer S }.

(** What [Start] gets from the resolver. *)
Definition resolved (target : string) : ServiceWatcher + error :=
  match etcd_Resolve New (NewETCDResolver config) target with inl (w, _) => inl w | inr e => inr e end.

(** A value that a registry stores. *)
Definition announcement v : Prop := exists ep, plain_metadata fold ep ∧ v = inl (Data ep).

(** The other clients of the store are registries of other servers. *)
Definition announcing (e : kv_event) : Prop :=
  match e with
  | KvRegister ep => plain_metadata fold ep
  | KvOther _ (Some v) => announcement v
  | _ => True
  end.

Definition inside (e : bal_event) : Prop :=
  match e with EvStart _ _ | EvNext _ (GotPairs _) => False | _ => True end.

Inductive find_step : discovery -> discovery -> Prop :=
| find_announce kvr kvr' past s' b e :
    announcing e -> kv_step ordE kvr e = Some kvr' -> storeEngine kvr' = Some s' ->
    find_step (mkDiscovery kvr past b) (mkDiscovery kvr' (s' :: past) b)
| find_start kvr past b target g b' :
    bal_step fold b (EvStart (resolved target) g) = Some b' -> find_step (mkDiscovery kvr past b) (mkDiscovery kvr past b')
| find_told kvr past b g i w s ps b' :
    b_watching b !! g = Some (InNext i) -> b_watchers b !! i = Some w -> s ∈ past -> kv_List s (w_key w) = inl ps ->
    bal_step fold b (EvNext g (GotPairs ps)) = Some b' -> find_step (mkDiscovery kvr past b) (mkDiscovery kvr past b')
| find_inside kvr past b e b' :
    inside e -> bal_step fold b e = Some b' -> find_step (mkDiscovery kvr past b) (mkDiscovery kvr past b').

(** ** What gets lost *)

Definition nameless (us : list Update) : Prop := Forall (fun u => u_Addr u = "") us.

Record lost (d : discovery) : Prop := {
  lt_registry : exists sp, implements_kv ServiceRootPath (d_registry d) sp ∧ map_Forall (fun _ => announcement) (in_store sp);
  lt_stores : forall s, s ∈ d_stores d -> map_Forall (fun _ => announcement) (contents s);
  lt_updates : forall g us, b_watching (d_balancer d) !! g = Some (HaveUpdates us) -> nameless us;
  lt_notify : forall c l a, b_addrCh (d_balancer d) = Some c -> l ∈ ac_buf c -> a ∈ l -> Addr a = ""
}.

Lemma listed_announcements s dir ps :
  map_Forall (fun _ => announcement) (contents s) -> kv_List s dir = inl ps -> Forall (fun p => announcement p.2) ps.
Proof. intros Hs Hl. apply Forall_forall. intros [k v] Hin. simpl. by eapply Hs, (kv_List_sound s). Qed.

Lemma listed_nameless s dir ps :
  map_Forall (fun _ => announcement) (contents s) -> kv_List s dir = inl ps -> nameless (extractUpdates fold ps).
Proof.
  intros Hs Hl%(listed_announcements _ _ _ Hs). rewrite (announced_addresses_are_lost fold ps Hl).
  apply Forall_forall. by intros u [-> _]%elem_of_replicate.
Qed.

Lemma announcing_store root sp e :
  announcing e -> map_Forall (fun _ => announcement) (in_store sp) -> map_Forall (fun _ => announcement) (in_store (spec_step root sp e)).
Proof.
  intros He Hs. destruct e as [ep|ep| |p [v|]]; simpl; try case_bool_decide; simpl; try done.
  - apply map_Forall_insert_2; [by exists ep|done].
  - by apply map_Forall_delete.
  - intros k v Hk. apply map_lookup_filter_Some in Hk as [Hk _]. by eapply Hs.
  - by apply map_Forall_insert_2.
  - by apply map_Forall_delete.
Qed.

(** The goroutines of the balancer have updates only from [Next], and the channel
    has addresses only from these. *)
Lemma balancer_step_updates b e b' g us :
  bal_step fold b e = Some b' -> b_watching b' !! g = Some (HaveUpdates us) ->
  b_watching b !! g = Some (HaveUpdates us) ∨ us = [] ∨ exists ps, e = EvNext g (GotPairs ps) ∧ us = extractUpdates fold ps.
Proof.
  intros Hs Hg. unfold bal_step in Hs. destruct (locking e && _); [done|]. destruct e as [res g1|g1|g1 a|g1|bw|r fuel|addr| |].
  - case_bool_decide; simplify_eq. unfold Start in Hg. destruct (b_done b), (b_resolver b), res; simpl in Hg; auto.
    rewrite lookup_insert in Hg. case_decide; [done|auto].
  - unfold watch_call in Hs. destruct (b_watching b !! g1) as [[| |]|]; try done. destruct (b_w b); simplify_eq. simpl in Hg.
    rewrite lookup_insert in Hg. case_decide; [done|auto].
  - unfold watch_next in Hs. destruct (b_watching b !! g1) as [[|i|]|]; try done. destruct (b_watchers b !! i) as [w|]; [|done].
    destruct (Next fold w a) as [[w' [us1|err]]|] eqn:Hn; simplify_eq; simpl in Hg.
    + rewrite lookup_insert in Hg. case_decide; [|auto]. simplify_eq. right. unfold Next in Hn.
      destruct a; repeat case_match; simplify_eq; eauto.
    + rewrite lookup_delete in Hg. case_decide; [done|auto].
  - destruct (watch_update b g1) as [[b1|]|] eqn:Hu; simplify_eq. unfold watch_update in Hu. left.
    split_matches_in Hu; simplify_eq; simpl in Hg; rewrite ?lookup_insert, ?lookup_delete in Hg; case_decide; by simplify_eq.
  - simplify_eq. left. unfold get_lock in Hg. by destruct (b_done b).
  - apply fmap_Some in Hs as ([b1 x] & Hs & ->). unfold get_select in Hs. left. split_matches_in Hs; simplify_eq; done.
  - simplify_eq. by left.
  - apply fmap_Some in Hs as ([b1 l] & Hs & ->). unfold notify_receive in Hs. left. split_matches_in Hs; simplify_eq; done.
  - destruct (Close b) as [b1|] eqn:Hc; simplify_eq. unfold Close in Hc. left. split_matches_in Hc; simplify_eq; done.
Qed.

(** What is in a channel after a receive was there, and after a send it was there
    or is what was sent. *)
Lemma received_was ch c' y l :
  chan_receive ch = Some (Some c', y) -> l ∈ ac_buf c' -> exists c, ch = Some c ∧ l ∈ ac_buf c.
Proof.
  unfold chan_receive. intros Hr Hl. destruct ch as [c|]; [|done]. exists c. split; [done|].
  destruct (ac_buf c) as [|x rest] eqn:Hb; [destruct (ac_closed c); simplify_eq; by rewrite Hb in Hl|].
  simplify_eq. simpl in Hl. set_solver.
Qed.

Lemma sent_or_was ch x c' l :
  chan_send (chan_drain ch) x = Some (Return (Some c')) -> l ∈ ac_buf c' -> (exists c, ch = Some c ∧ l ∈ ac_buf c) ∨ l = x.
Proof.
  unfold chan_send. intros Hs Hl. destruct (chan_drain ch) as [c|] eqn:Hd; [|done].
  destruct (ac_closed c); [done|]. case_bool_decide; simplify_eq. simpl in Hl.
  apply elem_of_app in Hl as [Hl|?%list_elem_of_singleton]; [left|by right].
  unfold chan_drain in Hd. destruct (chan_receive ch) as [[ch1 y]|] eqn:Hr; [subst; by eapply received_was|eauto].
Qed.

Lemma balancer_step_notify b e b' c' l a :
  bal_step fold b e = Some b' -> b_addrCh b' = Some c' -> l ∈ ac_buf c' -> a ∈ l ->
  (exists c, b_addrCh b = Some c ∧ l ∈ ac_buf c) ∨
  exists g us, b_watching b !! g = Some (HaveUpdates us) ∧ Addr a ∈ u_Addr <$> us.
Proof.
  intros Hs Hc Hl Ha. unfold bal_step in Hs. destruct (locking e && _); [done|]. destruct e as [res g1|g1|g1 x|g1|bw|r fuel|addr| |].
  - case_bool_decide; simplify_eq. unfold Start in Hc. destruct (b_done b), (b_resolver b), res; simpl in Hc; simplify_eq/=; eauto. by apply elem_of_nil in Hl.
  - left. apply watch_call_frame in Hs as (_ & _ & _ & E & _). rewrite E in Hc. eauto.
  - left. apply watch_next_frame in Hs as (_ & _ & _ & E & _). rewrite E in Hc. eauto.
  - destruct (watch_update b g1) as [[b1|]|] eqn:Hu; simplify_eq. unfold watch_update in Hu.
    destruct (b_mu b); [done|].
    destruct (b_watching b !! g1) as [[| |us]|] eqn:Hg; try done. destruct (b_done b); [simplify_eq; left; eauto|].
    simpl in Hu. destruct (chan_send _ _) as [[ch|]|] eqn:Hsend; simplify_eq/=.
    destruct (sent_or_was _ _ _ l Hsend Hl) as [(c & ? & ?)| ->]; [eauto|]. right. exists g1, us. split; [done|].
    apply (list_elem_of_fmap_2 Addr), sel_Reset_list in Ha. by rewrite <- list_fmap_compose in Ha.
  - simplify_eq. left. unfold get_lock in Hc. destruct (b_done b); eauto.
  - apply fmap_Some in Hs as ([b1 x] & Hs & ->). unfold get_select in Hs. left. split_matches_in Hs; simplify_eq/=; eauto.
  - simplify_eq. left. eauto.
  - apply fmap_Some in Hs as ([b1 x] & Hs & ->). unfold notify_receive in Hs. left.
    destruct (chan_receive (b_addrCh b)) as [[ch y]|] eqn:Hrv; simplify_eq/=. by eapply received_was.
  - destruct (Close b) as [b1|] eqn:Hcl; simplify_eq. unfold Close in Hcl. left. split_matches_in Hcl; simplify_eq/=; eauto.
Qed.

(** A step of the balancer whose updates have no address keeps it that way. *)
Lemma lost_balancer kvr past b e b' :
  lost (mkDiscovery kvr past b) -> bal_step fold b e = Some b' ->
  (forall g ps, e = EvNext g (GotPairs ps) -> nameless (extractUpdates fold ps)) -> lost (mkDiscovery kvr past b').
Proof.
  intros [L1 L2 L3 L4] Hs He. simpl in *. split; simpl; [done|done|..].
  - intros g us Hg. destruct (balancer_step_updates _ _ _ _ _ Hs Hg) as [?|[->|(ps & -> & ->)]]; [eauto|constructor|eauto].
  - intros c l a Hc Hl Ha. destruct (balancer_step_notify _ _ _ _ _ _ Hs Hc Hl Ha) as [(c1 & ? & ?)|(g & us & Hg & Hin)]; [eauto|].
    apply list_elem_of_fmap in Hin as (u & -> & Hu). specialize (L3 g us Hg). unfold nameless in L3. rewrite Forall_forall in L3. auto.
Qed.

Lemma lost_step d d' : lost d -> find_step d d' -> lost d'.
Proof.
  intros Hl Hs. destruct Hs as [kvr kvr' past s' b e He Hk Hst|kvr past b target g b' Hb|kvr past b g i w s ps b' Hg Hw Hin Hps Hb|kvr past b e b' He Hb].
  - destruct Hl as [(sp & Hi & Hsp) L2 L3 L4]. simpl in *. pose proof (kv_simulates fold ordE HordE _ _ _ _ _ Hi Hk) as Hi'.
    pose proof (announcing_store ServiceRootPath sp e He Hsp) as Hsp'. split; simpl; [by eexists| |done|done].
    intros s [->|?]%elem_of_cons; [|auto]. destruct (ik_store _ _ _ Hi') as (s1 & E1 & E2). assert (s1 = s') as -> by congruence. by rewrite E2.
  - eapply lost_balancer; [done..|]. done.
  - eapply lost_balancer; [done..|]. intros g1 ps1 [= <- <-]. eapply listed_nameless; [|done]. by apply Hl.
  - eapply lost_balancer; [done..|]. by intros g ps ->.
Qed.

(** At the beginning: a registry on an empty store, and a new balancer. *)
Definition at_first (NewStore : string -> list string -> StoreConfig -> KV + error) (ds : S) (d : discovery) : Prop :=
  exists kvr s, kv_Init NewStore kvRegistry0 "etcd" config = (kvr, None) ∧ storeEngine kvr = Some s ∧ contents s = ∅ ∧
    d = mkDiscovery kvr [s] (NewBalancer ds true None).

Lemma lost_at_first NewStore ds d0 d : at_first NewStore ds d0 -> rtc find_step d0 d -> lost d.
Proof.
  intros (kvr & s & Hi & Hs & Hc & ->) Hr.
  assert (lost (mkDiscovery kvr [s] (NewBalancer ds true None))) as H0'.
  { pose proof (implements_init _ _ _ _ _ Hi Hs) as Him. assert (rootPath kvr = ServiceRootPath) as Er.
    { unfold kv_Init in Hi. simpl in Hi. repeat case_match; by simplify_eq/=. }
    rewrite Er in Him. split; simpl.
    - eexists. split; [exact Him|]. simpl. rewrite Hc. apply map_Forall_empty.
    - intros s1 ->%list_elem_of_singleton. rewrite Hc. apply map_Forall_empty.
    - intros g us. by rewrite lookup_empty.
    - done. }
  induction Hr as [|d0 d1 d2 Hs1 _ IH]; [done|]. apply IH. by eapply lost_step.
Qed.

(** The steps of the balancer are its own. *)
Lemma find_balancer d d' (fb := bal_lts fold) :
  rtc find_step d d' -> @reachable _ _ fb (d_balancer d) (d_balancer d').
Proof.
  revert d'. apply rtc_ind_r; [constructor|]. intros d1 d2 _ Hs IH. destruct Hs; simpl in *; [done|by eapply reachable_step..].
Qed.

(** An announced service is in the list that the watcher of its directory gets. *)
Lemma announced_is_told s w ps ep rest :
  contents s !! (w_key w +:+ "/" +:+ rest) = Some (inl (Data ep)) -> plain_metadata fold ep -> kv_List s (w_key w) = inl ps ->
  extractUpdates fold ps <> [].
Proof.
  intros Hc Hp Hl. assert ((w_key w +:+ "/" +:+ rest, inl (Data ep) : value) ∈ ps) as Hin.
  { eapply kv_List_complete; [done..|]. rewrite Str.app_assoc. apply Str.HasPrefix_app. }
  clear Hc Hl. induction ps as [|[k v] ps IH]; [by apply elem_of_nil in Hin|].
  apply elem_of_cons in Hin as [E|Hin]; simpl.
  - simplify_eq. by rewrite (Data_decodes fold ep Hp).
  - destruct (unmarshal_Endpoint fold v) as [x [e|]]; [auto|done].
Qed.
End discovery.

(** ** The client of the default balancer *)
Section default.
Context {KV : Type} `{KVLaws KV} (fold : string -> string -> bool).
Context (ordE : gmap string Endpoint -> list (string * Endpoint)) (HordE : forall m, ordE m ≡ₚ map_to_list m).
Context (ord : gmap string AddrInfo -> list (string * AddrInfo)) (Hord : forall m, ord m ≡ₚ map_to_list m).
Context (New : list string -> StoreConfig -> KV + error) (config : RegistryConfig).
#[local] Instance default_selector : Selector baseSelector := RandomSelector ord Hord.

End default.

(** ** A server that announces itself, and a client that looks for it *)
Module DiscoveryDemo.
Import RegistryDemo SelectorDemo.

#[local] Instance no_tables : UnicodeTables := { upper_table := fun _ => false; RuneError_not_upper := eq_refl }.
#[local] Instance random : Selector baseSelector := default_selector SelectorDemo.order order_ok.

Definition server : Server Z unit :=
  mkServer (mkServerConfig "demo.svc" 8888 "json" 0 0 0 "rr" 0 0) (Some "10.0.0.1:8888")
    newServerPluginManager None ∅ empty_pool empty_pool 0 tt.
Definition service : Service := mkService "Arith" "" "Arith" ∅.
Definition announced : Endpoint := mkEndpoint "demo.svc" "10.0.0.1:8888" "Arith" "/demo.svc/Arith/10.0.0.1:8888" None.
Definition target : string := "demo.svc:Arith.Double".

Definition connect (addrs : list string) (c : StoreConfig) : gmap string value + error := inl ∅.
Abbreviation find_step := (find_step String.eqb RegistryDemo.order connect config).

Definition first : discovery := mkDiscovery registry [∅] (NewBalancer NewRandomSelector true None).
Definition holding : gmap string value := {["/byterpc/services/demo.svc/Arith/10.0.0.1:8888" := inl (Data announced)]}.
Definition run (es : list bal_event) : @balancer baseSelector :=
  default (NewBalancer NewRandomSelector true None) (@lts_run _ _ (bal_lts String.eqb) (NewBalancer NewRandomSelector true None) es).
Definition told : list (string * value) := [("/byterpc/services/demo.svc/Arith/10.0.0.1:8888", inl (Data announced))].
Definition looking : list bal_event := [EvStart (resolved connect config target) 0; EvCall 0].
Definition registered : kvRegistry := ok_of (kv_Register registry announced).
Definition last : discovery := mkDiscovery registered [holding; ∅] (run (looking ++ [EvNext 0 (GotPairs told); EvUpdate 0; EvGetLock false])).

Lemma announced_plain : plain_metadata String.eqb announced.
Proof. intros k x. simpl. by rewrite lookup_empty. Qed.

Lemma last_found : rtc find_step first last.
Proof.
  eapply rtc_l; [eapply (find_announce String.eqb RegistryDemo.order connect config registry registered _ holding _ (KvRegister announced));
    [apply announced_plain|vm_compute; reflexivity..]|].
  eapply rtc_l; [apply (find_start String.eqb RegistryDemo.order connect config _ _ _ target 0 (run (take 1 looking))); vm_compute; reflexivity|].
  eapply rtc_l; [apply (find_inside String.eqb RegistryDemo.order connect config _ _ _ (EvCall 0) (run looking)); [done|vm_compute; reflexivity]|].
  eapply rtc_l; [eapply (find_told String.eqb RegistryDemo.order connect config _ _ _ 0 0 _ holding told (run (looking ++ [EvNext 0 (GotPairs told)])));
    [vm_compute; reflexivity|vm_compute; reflexivity|set_solver|vm_compute; reflexivity..]|].
  eapply rtc_l; [apply (find_inside String.eqb RegistryDemo.order connect config _ _ _ (EvUpdate 0)
    (run (looking ++ [EvNext 0 (GotPairs told); EvUpdate 0]))); [done|vm_compute; reflexivity]|].
  eapply rtc_l; [apply (find_inside String.eqb RegistryDemo.order connect config _ _ _ (EvGetLock false)
    (run (looking ++ [EvNext 0 (GotPairs told); EvUpdate 0; EvGetLock false]))); [done|vm_compute; reflexivity]|]. constructor.
Qed.

End DiscoveryDemo.
