(* ===== verification/Lifecycle.v ===== *)
(** * lifecycle.go: the life cycle controller

    Callers of [Start] and [Stop] run the registered callbacks one by one; a
    [Stop] first looks whether [done] is closed and closes it at its end, and
    nothing makes the two one action.  One event is one registration, one
    evaluation of the [select], one callback, or the closing of [done]. *)
From S2P Require Import Prelude.

Section lifecycle.
Context {Callback : Type}.

(** [lifeCycleController]; [lc_done] tells whether the channel is closed. *)
Record lifeCycleController := mkLifeCycle {
  lc_done : bool;
  onStartCallbacks : list Callback;
  onStopCallbacks : list Callback
}.

(** [GetDoneChan]: who waits on the channel goes on when it is closed. *)
Definition GetDoneChan (c : lifeCycleController) : bool := lc_done c.

(** [NewLifeCycleCtl] *)
Definition NewLifeCycleCtl : lifeCycleController := mkLifeCycle false [] [].

(** [OnStart], [OnStop] *)
Definition OnStart (c : lifeCycleController) (l : Callback) : lifeCycleController :=
  mkLifeCycle (lc_done c) (onStartCallbacks c ++ [l]) (onStopCallbacks c).
Definition OnStop (c : lifeCycleController) (l : Callback) : lifeCycleController :=
  mkLifeCycle (lc_done c) (onStartCallbacks c) (onStopCallbacks c ++ [l]).

(** A goroutine in [notifyStart] or [notifyStop] ranges over the slice as it was
    when the loop began: what it has run, and what is left.  A [Stop] ends by
    finding [done] closed, by closing it, or by a panic because it is closed. *)
Inductive lc_pc :=
| Starting (ran rest : list Callback)
| Stopping (ran rest : list Callback)
| Started (ran : list Callback)
| WasStopped
| ClosedDone (ran : list Callback)
| ClosePanic (ran : list Callback).

Record lc_state := mkLcState {
  lc_ctl : lifeCycleController;
  lc_gos : gmap nat lc_pc;
  lc_log : list (nat * Callback)
}.

Definition lc_init : lc_state := mkLcState NewLifeCycleCtl ∅ [].

Inductive lc_event :=
| AddStart (l : Callback) | AddStop (l : Callback) | CallStart (g : nat) | CallStop (g : nat) | Continue (g : nat).

(** [Start] is [notifyStart]. *)
Definition Start (c : lifeCycleController) : lc_pc := Starting [] (onStartCallbacks c).

(** [Stop] up to the end of the [select]. *)
Definition Stop (c : lifeCycleController) : lc_pc :=
  if lc_done c then WasStopped else Stopping [] (onStopCallbacks c).

(** [close(ch)] *)
Definition close_done (c : lifeCycleController) : option lifeCycleController :=
  if lc_done c then None else Some (mkLifeCycle true (onStartCallbacks c) (onStopCallbacks c)).

(** One round of the loop of [notifyStart] or [notifyStop], or what follows it. *)
Definition continue_step (s : lc_state) (g : nat) : option lc_state :=
  match lc_gos s !! g with
  | Some (Starting ran (f :: rest)) =>
      Some (mkLcState (lc_ctl s) (<[g := Starting (ran ++ [f]) rest]> (lc_gos s)) (lc_log s ++ [(g, f)]))
  | Some (Starting ran []) => Some (mkLcState (lc_ctl s) (<[g := Started ran]> (lc_gos s)) (lc_log s))
  | Some (Stopping ran (f :: rest)) =>
      Some (mkLcState (lc_ctl s) (<[g := Stopping (ran ++ [f]) rest]> (lc_gos s)) (lc_log s ++ [(g, f)]))
  | Some (Stopping ran []) =>
      match close_done (lc_ctl s) with
      | Some c => Some (mkLcState c (<[g := ClosedDone ran]> (lc_gos s)) (lc_log s))
      | None => Some (mkLcState (lc_ctl s) (<[g := ClosePanic ran]> (lc_gos s)) (lc_log s))
      end
  | _ => None
  end.

Definition lc_step (s : lc_state) (e : lc_event) : option lc_state :=
  match e with
  | AddStart l => Some (mkLcState (OnStart (lc_ctl s) l) (lc_gos s) (lc_log s))
  | AddStop l => Some (mkLcState (OnStop (lc_ctl s) l) (lc_gos s) (lc_log s))
  | CallStart g =>
      match lc_gos s !! g with
      | None => Some (mkLcState (lc_ctl s) (<[g := Start (lc_ctl s)]> (lc_gos s)) (lc_log s))
      | Some _ => None
      end
  | CallStop g =>
      match lc_gos s !! g with
      | None => Some (mkLcState (lc_ctl s) (<[g := Stop (lc_ctl s)]> (lc_gos s)) (lc_log s))
      | Some _ => None
      end
  | Continue g => continue_step s g
  end.

#[local] Instance lc_lts : LTS lc_state lc_event := lc_step.

(** ** What a goroutine has run *)

Definition ran_of (p : lc_pc) : list Callback :=
  match p with
  | Starting ran _ | Stopping ran _ | Started ran | ClosedDone ran | ClosePanic ran => ran
  | WasStopped => []
  end.

Definition runs_of (g : nat) (log : list (nat * Callback)) : list Callback := (filter (fun x => x.1 = g) log).*2.

Lemma runs_of_snoc g g' f log :
  runs_of g (log ++ [(g', f)]) = runs_of g log ++ (if decide (g' = g) then [f] else []).
Proof. unfold runs_of. rewrite filter_app, fmap_app. f_equal. rewrite filter_cons. simpl. by repeat case_decide. Qed.

(** What a goroutine has run and will run comes from the registered callbacks. *)
Definition planned (c : lifeCycleController) (p : lc_pc) : Prop :=
  match p with
  | Starting ran rest => ran ++ rest `prefix_of` onStartCallbacks c
  | Started ran => ran `prefix_of` onStartCallbacks c
  | Stopping ran rest => ran ++ rest `prefix_of` onStopCallbacks c
  | ClosedDone ran | ClosePanic ran => ran `prefix_of` onStopCallbacks c
  | WasStopped => True
  end.

(** The registered callbacks only grow. *)
Definition extends (c c' : lifeCycleController) : Prop :=
  onStartCallbacks c `prefix_of` onStartCallbacks c' ∧ onStopCallbacks c `prefix_of` onStopCallbacks c'.

Lemma extends_refl c : extends c c.
Proof. by split. Qed.
#[local] Hint Resolve extends_refl : core.

Lemma planned_extends c c' p : extends c c' -> planned c p -> planned c' p.
Proof. intros [H1 H2]. destruct p; simpl; try done; intros Hp; by etrans. Qed.

Definition in_stop (p : lc_pc) : Prop := match p with Stopping _ _ => True | _ => False end.

Record lc_ok (s : lc_state) : Prop := {
  lk_log : forall g, runs_of g (lc_log s) = default [] (ran_of <$> lc_gos s !! g);
  lk_closed : lc_done (lc_ctl s) = true <-> exists g ran, lc_gos s !! g = Some (ClosedDone ran);
  lk_unique : forall g1 g2 r1 r2, lc_gos s !! g1 = Some (ClosedDone r1) -> lc_gos s !! g2 = Some (ClosedDone r2) -> g1 = g2;
  lk_late : forall g, lc_gos s !! g = Some WasStopped -> lc_done (lc_ctl s) = true;
  lk_panic : forall g ran, lc_gos s !! g = Some (ClosePanic ran) -> lc_done (lc_ctl s) = true;
  lk_plan : forall g p, lc_gos s !! g = Some p -> planned (lc_ctl s) p
}.

(** A goroutine moves to a place that neither closes [done] nor depends on it. *)
Lemma lc_ok_move s g p log c :
  lc_ok s -> lc_done c = lc_done (lc_ctl s) -> extends (lc_ctl s) c -> planned c p ->
  (forall ran, p ≠ ClosedDone ran) -> (forall ran, lc_gos s !! g ≠ Some (ClosedDone ran)) ->
  (p = WasStopped -> lc_done c = true) -> (forall ran, p = ClosePanic ran -> lc_done c = true) ->
  (forall g', runs_of g' log = if decide (g = g') then ran_of p else runs_of g' (lc_log s)) ->
  lc_ok (mkLcState c (<[g := p]> (lc_gos s)) log).
Proof.
  intros [H1 H2 H3 H4 H5 H6] Hd Hex Hpl Hp Hg Hw Hn Hl. split; simpl; rewrite ?Hd in *.
  - intros g'. rewrite Hl, lookup_insert. case_decide; [done|apply H1].
  - rewrite H2. split; intros (g' & ran & Hg'); exists g', ran; rewrite lookup_insert in *; case_decide; naive_solver.
  - intros g1 g2 r1 r2. rewrite !lookup_insert. case_decide; case_decide; naive_solver.
  - intros g'. rewrite lookup_insert. case_decide; naive_solver.
  - intros g' ran. rewrite lookup_insert. case_decide; naive_solver.
  - intros g' p'. rewrite lookup_insert. case_decide; [naive_solver|]. eauto using planned_extends.
Qed.

Lemma lc_ok_ctl s c :
  lc_ok s -> lc_done c = lc_done (lc_ctl s) -> extends (lc_ctl s) c -> lc_ok (mkLcState c (lc_gos s) (lc_log s)).
Proof. intros [H1 H2 H3 H4 H5 H6] Hd Hex. split; simpl; rewrite ?Hd; eauto using planned_extends. Qed.

Lemma runs_stay s g p q :
  lc_ok s -> lc_gos s !! g = Some q -> ran_of p = ran_of q ->
  forall g', runs_of g' (lc_log s) = if decide (g = g') then ran_of p else runs_of g' (lc_log s).
Proof. intros Hok Hg Hr g'. case_decide as E; [|done]. subst. by rewrite (lk_log _ Hok), Hg, Hr. Qed.

Lemma runs_more s g p q f :
  lc_ok s -> lc_gos s !! g = Some q -> ran_of p = ran_of q ++ [f] ->
  forall g', runs_of g' (lc_log s ++ [(g, f)]) = if decide (g = g') then ran_of p else runs_of g' (lc_log s).
Proof.
  intros Hok Hg Hr g'. rewrite runs_of_snoc. case_decide as E; [|by rewrite app_nil_r].
  subst. by rewrite (lk_log _ Hok), Hg, Hr.
Qed.

Lemma runs_new s g p :
  lc_ok s -> lc_gos s !! g = None -> ran_of p = [] ->
  forall g', runs_of g' (lc_log s) = if decide (g = g') then ran_of p else runs_of g' (lc_log s).
Proof. intros Hok Hg Hr g'. case_decide as E; [|done]. subst. by rewrite (lk_log _ Hok), Hg, Hr. Qed.

Lemma lc_ok_close s g ran :
  lc_ok s -> lc_gos s !! g = Some (Stopping ran []) -> lc_done (lc_ctl s) = false ->
  lc_ok (mkLcState (mkLifeCycle true (onStartCallbacks (lc_ctl s)) (onStopCallbacks (lc_ctl s)))
    (<[g := ClosedDone ran]> (lc_gos s)) (lc_log s)).
Proof.
  intros Hok Hg Hd. pose proof (runs_stay s g (ClosedDone ran) _ Hok Hg eq_refl) as Hr.
  destruct Hok as [H1 H2 H3 H4 H5 H6].
  assert (forall g' r, lc_gos s !! g' ≠ Some (ClosedDone r)) as Hno by (intros g' r Hc; assert (lc_done (lc_ctl s) = true); [apply H2; eauto|congruence]).
  split; simpl; [|split; [intros _|done]|..].
  - intros g'. rewrite Hr, lookup_insert. case_decide; [done|apply H1].
  - exists g, ran. by rewrite lookup_insert_eq.
  - intros g1 g2 r1 r2. rewrite !lookup_insert. case_decide; case_decide; naive_solver.
  - done.
  - done.
  - intros g' p'. rewrite lookup_insert. case_decide; [|apply H6]. intros [= <-].
    specialize (H6 _ _ Hg). simpl in *. by rewrite app_nil_r in H6.
Qed.

Lemma lc_ok_continue s g s' : lc_ok s -> continue_step s g = Some s' -> lc_ok s'.
Proof.
  intros Hok Hs. unfold continue_step, close_done in Hs.
  destruct (lc_gos s !! g) as [p|] eqn:Hg; [|done]. pose proof (lk_plan _ Hok _ _ Hg) as Hp.
  destruct p as [ran [|f rest]|ran [|f rest]|ran| |ran|ran]; simplify_eq; simpl in Hp.
  - rewrite app_nil_r in Hp. apply lc_ok_move; try done; eauto using runs_stay; by rewrite Hg.
  - apply lc_ok_move; try done; eauto using runs_more; [by simpl; rewrite <- (assoc_L (++))|by rewrite Hg].
  - destruct (lc_done (lc_ctl s)) eqn:Hd; simplify_eq; [|by apply lc_ok_close].
    rewrite app_nil_r in Hp. apply lc_ok_move; try done; eauto using runs_stay; by rewrite Hg.
  - apply lc_ok_move; try done; eauto using runs_more; [by simpl; rewrite <- (assoc_L (++))|by rewrite Hg].
Qed.

Lemma lc_ok_step s e s' : lc_ok s -> lc_step s e = Some s' -> lc_ok s'.
Proof.
  intros Hok Hs. destruct e as [l|l|g|g|g]; simpl in Hs; simplify_eq.
  - apply lc_ok_ctl; [done..|]. split; [by apply prefix_app_r|done].
  - apply lc_ok_ctl; [done..|]. split; [done|by apply prefix_app_r].
  - destruct (lc_gos s !! g) eqn:Hg; simplify_eq.
    apply lc_ok_move; try done; eauto using runs_new; try (by rewrite Hg). by simpl.
  - destruct (lc_gos s !! g) eqn:Hg; simplify_eq. unfold Stop.
    destruct (lc_done (lc_ctl s)) eqn:Hd; (apply lc_ok_move; try done; eauto using runs_new; try (by rewrite Hg); by simpl).
  - by eapply lc_ok_continue.
Qed.

Lemma lc_ok_reachable s : reachable lc_init s -> lc_ok s.
Proof.
  apply reachable_invariant; [|intros ? ? ?; apply lc_ok_step].
  split; simpl; try done. split; [done|]. by intros (g & ran & Hg).
Qed.

(** ** One [Stop] at a time *)

Definition serial_event (s : lc_state) (e : lc_event) : Prop :=
  match e with CallStop _ => forall g p, lc_gos s !! g = Some p -> ~ in_stop p | _ => True end.

(** Runs in which no [Stop] is called while another one is under way. *)
Inductive serial : lc_state -> Prop :=
| serial_init : serial lc_init
| serial_step s e s' : serial s -> serial_event s e -> lc_step s e = Some s' -> serial s'.

Lemma serial_reachable s : serial s -> reachable lc_init s.
Proof. induction 1; [constructor|eapply reachable_step; eauto]. Qed.

Record serial_ok (s : lc_state) : Prop := {
  so_open : forall g p, lc_gos s !! g = Some p -> in_stop p -> lc_done (lc_ctl s) = false;
  so_one : forall g1 g2 p1 p2, lc_gos s !! g1 = Some p1 -> lc_gos s !! g2 = Some p2 -> in_stop p1 -> in_stop p2 -> g1 = g2;
  so_calm : forall g ran, lc_gos s !! g ≠ Some (ClosePanic ran)
}.

Lemma serial_ok_keep s g p q c log :
  serial_ok s -> lc_gos s !! g = Some q -> lc_done c = lc_done (lc_ctl s) -> (in_stop p -> in_stop q) ->
  (forall ran, p ≠ ClosePanic ran) -> serial_ok (mkLcState c (<[g := p]> (lc_gos s)) log).
Proof.
  intros [H1 H2 H3] Hg Hd Hp Hn. split; simpl; rewrite ?Hd.
  - intros g' p'. rewrite lookup_insert. case_decide; naive_solver.
  - intros g1 g2 p1 p2. rewrite !lookup_insert. case_decide; case_decide; naive_solver.
  - intros g' ran. rewrite lookup_insert. case_decide; naive_solver.
Qed.

Lemma serial_ok_new s g p :
  serial_ok s -> lc_gos s !! g = None -> (forall ran, p ≠ ClosePanic ran) ->
  (in_stop p -> lc_done (lc_ctl s) = false ∧ forall g p, lc_gos s !! g = Some p -> ~ in_stop p) ->
  serial_ok (mkLcState (lc_ctl s) (<[g := p]> (lc_gos s)) (lc_log s)).
Proof.
  intros [H1 H2 H3] Hg Hn Hp. split; simpl.
  - intros g' p'. rewrite lookup_insert. case_decide; naive_solver.
  - intros g1 g2 p1 p2. rewrite !lookup_insert. case_decide; case_decide; naive_solver.
  - intros g' ran. rewrite lookup_insert. case_decide; naive_solver.
Qed.

Lemma serial_ok_continue s g s' : serial_ok s -> continue_step s g = Some s' -> serial_ok s'.
Proof.
  intros Hok Hs. unfold continue_step, close_done in Hs.
  destruct (lc_gos s !! g) as [[ran [|f rest]|ran [|f rest]|ran| |ran|ran]|] eqn:Hg; simplify_eq;
    try (by eapply serial_ok_keep).
  rewrite (so_open _ Hok g _ Hg I) in Hs. simplify_eq. destruct Hok as [H1 H2 H3].
  assert (forall g' p, g ≠ g' -> lc_gos s !! g' = Some p -> ~ in_stop p) as Hno.
  { intros g' p Hne Hg' Hin. by apply Hne, (H2 g g' _ _ Hg Hg'). }
  split; simpl.
  - intros g' p'. rewrite lookup_insert. case_decide; naive_solver.
  - intros g1 g2 p1 p2. rewrite !lookup_insert. case_decide; case_decide; naive_solver.
  - intros g' r. rewrite lookup_insert. case_decide; naive_solver.
Qed.

Lemma serial_is_ok s : serial s -> serial_ok s.
Proof.
  induction 1 as [|s e s' _ IH Hse Hs]; [by split|].
  destruct e as [l|l|g|g|g]; simpl in Hs, Hse; simplify_eq.
  - by destruct IH.
  - by destruct IH.
  - destruct (lc_gos s !! g) eqn:Hg; simplify_eq. by apply serial_ok_new.
  - destruct (lc_gos s !! g) eqn:Hg; simplify_eq. unfold Stop.
    destruct (lc_done (lc_ctl s)) eqn:Hd; by apply serial_ok_new.
  - by eapply serial_ok_continue.
Qed.

(** ** What a goroutine set out to run

    The callbacks a goroutine has run and has left to run are, at every moment,
    those it found registered when it began. *)

Definition rest_of (p : lc_pc) : list Callback :=
  match p with Starting _ rest | Stopping _ rest => rest | _ => [] end.

Definition plan_of (p : lc_pc) : list Callback := ran_of p ++ rest_of p.

(** The goroutine is one of [Stop] that passed the [select]. *)
Definition stops (p : lc_pc) : Prop :=
  match p with Stopping _ _ | ClosedDone _ | ClosePanic _ => True | _ => False end.

Definition same_plan (p p' : lc_pc) : Prop := plan_of p' = plan_of p ∧ (stops p <-> stops p').

Lemma same_plan_refl p : same_plan p p.
Proof. by split. Qed.
#[local] Hint Resolve same_plan_refl : core.

Lemma continue_keeps_plan s g s' g' p :
  continue_step s g = Some s' -> lc_gos s !! g' = Some p ->
  exists p', lc_gos s' !! g' = Some p' ∧ same_plan p p'.
Proof.
  unfold continue_step, close_done. intros Hs Hg'.
  destruct (decide (g = g')) as [<-|Hne].
  - rewrite Hg' in Hs. destruct p as [ran [|f rest]|ran [|f rest]|ran| |ran|ran]; try done;
      [..|destruct (lc_done (lc_ctl s))|]; simplify_eq; simpl; rewrite lookup_insert_eq; eexists; (split; [done|]);
      unfold same_plan, plan_of; simpl; by rewrite <- ?(assoc_L (++)).
  - exists p. split; [|done].
    destruct (lc_gos s !! g) as [[ran [|f rest]|ran [|f rest]|ran| |ran|ran]|]; try done;
      [..|destruct (lc_done (lc_ctl s))|]; simplify_eq; simpl; by rewrite lookup_insert_ne.
Qed.

Lemma step_keeps_plan s e s' g p :
  lc_step s e = Some s' -> lc_gos s !! g = Some p -> exists p', lc_gos s' !! g = Some p' ∧ same_plan p p'.
Proof.
  intros Hs Hg. destruct e as [l|l|g'|g'|g']; simpl in Hs; [simplify_eq; eauto..| | |by eapply continue_keeps_plan].
  all: destruct (lc_gos s !! g') eqn:Hg'; simplify_eq; simpl; rewrite lookup_insert_ne by congruence; eauto.
Qed.

Lemma run_keeps_plan s s' g p :
  reachable s s' -> lc_gos s !! g = Some p -> exists p', lc_gos s' !! g = Some p' ∧ same_plan p p'.
Proof.
  intros Hr Hg. induction Hr as [|s1 e s2 _ (p1 & H1 & H1p & H1s) Hs]; [eauto|].
  destruct (step_keeps_plan s1 e s2 g p1 Hs H1) as (p2 & H2 & H2p & H2s).
  exists p2. split; [done|]. split; [congruence|tauto].
Qed.

(** A goroutine that steps in with a call. *)
Lemma call_stop_plan s g s' :
  lc_step s (CallStop g) = Some s' -> lc_gos s' !! g = Some (Stop (lc_ctl s)).
Proof. simpl. intros Hs. destruct (lc_gos s !! g); simplify_eq. simpl. by rewrite lookup_insert_eq. Qed.

Lemma call_start_plan s g s' :
  lc_step s (CallStart g) = Some s' -> lc_gos s' !! g = Some (Start (lc_ctl s)).
Proof. simpl. intros Hs. destruct (lc_gos s !! g); simplify_eq. simpl. by rewrite lookup_insert_eq. Qed.

(** Where a goroutine in [Stop] comes from. *)
Lemma new_goroutine s e s' g p :
  lc_step s e = Some s' -> lc_gos s !! g = None -> lc_gos s' !! g = Some p -> e = CallStart g ∨ e = CallStop g.
Proof.
  intros Hs Hg Hg'. destruct e as [l|l|g'|g'|g']; simpl in Hs; [simplify_eq; simpl in *; congruence..| | |].
  1,2: destruct (lc_gos s !! g'); simplify_eq; simpl in Hg'; rewrite lookup_insert in Hg'; case_decide; naive_solver.
  unfold continue_step, close_done in Hs.
  destruct (decide (g' = g)) as [->|Hne]; [by rewrite Hg in Hs|].
  destruct (lc_gos s !! g') as [[ran [|f rest]|ran [|f rest]|ran| |ran|ran]|]; try done;
    [..|destruct (lc_done (lc_ctl s))|]; simplify_eq; simpl in Hg'; rewrite lookup_insert_ne in Hg'; congruence.
Qed.

(** The call of [Stop] of goroutine [g] that found [done] open, in state [s0]. *)
Definition stop_began (g : nat) (s0 s : lc_state) : Prop :=
  reachable lc_init s0 ∧ lc_done (lc_ctl s0) = false ∧
  exists s1, lc_step s0 (CallStop g) = Some s1 ∧ reachable s1 s.

Lemma stop_has_begun s g p :
  reachable lc_init s -> lc_gos s !! g = Some p -> stops p -> exists s0, stop_began g s0 s.
Proof.
  intros Hr. revert p. induction Hr as [|s e s' Hr IH Hs]; [done|]. intros p Hg Hst.
  destruct (lc_gos s !! g) as [q|] eqn:Hq.
  - destruct (step_keeps_plan s e s' g q Hs Hq) as (p' & Hg' & _ & Hss). simplify_eq.
    destruct (IH q eq_refl (proj2 Hss Hst)) as (s0 & H0 & Hd & s1 & H1 & H2).
    exists s0. split; [done|]. split; [done|]. exists s1. split; [done|]. by eapply reachable_step.
  - destruct (new_goroutine s e s' g p Hs Hq Hg) as [-> | ->].
    + rewrite (call_start_plan _ _ _ Hs) in Hg. simplify_eq. done.
    + pose proof Hs as Hs'. rewrite (call_stop_plan _ _ _ Hs) in Hg. simplify_eq. unfold Stop in Hst.
      exists s. split; [done|]. destruct (lc_done (lc_ctl s)); [done|]. split; [done|]. exists s'. split; [done|constructor].
Qed.

Lemma stop_runs_all s0 s g :
  stop_began g s0 s -> exists p, lc_gos s !! g = Some p ∧ stops p ∧ plan_of p = onStopCallbacks (lc_ctl s0).
Proof.
  intros (H0 & Hd & s1 & H1 & H2). destruct (run_keeps_plan s1 s g _ H2 (call_stop_plan _ _ _ H1)) as (p & Hg & Hp & Hs).
  exists p. split; [done|]. unfold Stop in Hp, Hs. rewrite Hd in Hp, Hs. split; [by apply Hs|exact Hp].
Qed.

(** ** The steps of a [Stop] that nobody disturbs *)

Lemma run_callbacks s g ran rest :
  lc_gos s !! g = Some (Stopping ran rest) ->
  lts_run s (replicate (length rest) (Continue g))
  = Some (mkLcState (lc_ctl s) (<[g := Stopping (ran ++ rest) []]> (lc_gos s)) (lc_log s ++ ((fun f => (g, f)) <$> rest))).
Proof.
  revert s ran. induction rest as [|f rest IH]; intros s ran Hg; simpl.
  - rewrite !app_nil_r, insert_id by done. by destruct s.
  - unfold lts_step at 1, lc_lts, lc_step at 1, continue_step. rewrite Hg.
    rewrite IH with (ran := ran ++ [f]) by (simpl; by rewrite lookup_insert_eq).
    simpl. by rewrite insert_insert_eq, <- !(assoc_L (++)).
Qed.

Lemma run_cons s e s' es : lc_step s e = Some s' -> lts_run s (e :: es) = lts_run s' es.
Proof. intros Hs. simpl. unfold lts_step, lc_lts. by rewrite Hs. Qed.

Lemma run_app s es1 s1 es2 : lts_run s es1 = Some s1 -> lts_run s (es1 ++ es2) = lts_run s1 es2.
Proof. intros Hs. by rewrite lts_run_app, Hs. Qed.

(** The steps of a [Stop]. *)
Lemma stop_passes s g :
  lc_gos s !! g = None -> lc_done (lc_ctl s) = false ->
  lc_step s (CallStop g)
  = Some (mkLcState (lc_ctl s) (<[g := Stopping [] (onStopCallbacks (lc_ctl s))]> (lc_gos s)) (lc_log s)).
Proof. intros Hg Hd. simpl. unfold Stop. by rewrite Hg, Hd. Qed.

Lemma stop_closes s g ran :
  lc_gos s !! g = Some (Stopping ran []) -> lc_done (lc_ctl s) = false ->
  lc_step s (Continue g)
  = Some (mkLcState (mkLifeCycle true (onStartCallbacks (lc_ctl s)) (onStopCallbacks (lc_ctl s)))
      (<[g := ClosedDone ran]> (lc_gos s)) (lc_log s)).
Proof. intros Hg Hd. simpl. unfold continue_step, close_done. by rewrite Hg, Hd. Qed.

Lemma stop_panics s g ran :
  lc_gos s !! g = Some (Stopping ran []) -> lc_done (lc_ctl s) = true ->
  lc_step s (Continue g) = Some (mkLcState (lc_ctl s) (<[g := ClosePanic ran]> (lc_gos s)) (lc_log s)).
Proof. intros Hg Hd. simpl. unfold continue_step, close_done. by rewrite Hg, Hd. Qed.

(** A [Stop] that nobody disturbs. *)
Lemma stop_alone s g :
  lc_gos s !! g = None -> lc_done (lc_ctl s) = false ->
  lts_run s (CallStop g :: replicate (length (onStopCallbacks (lc_ctl s))) (Continue g) ++ [Continue g])
  = Some (mkLcState (mkLifeCycle true (onStartCallbacks (lc_ctl s)) (onStopCallbacks (lc_ctl s)))
      (<[g := ClosedDone (onStopCallbacks (lc_ctl s))]> (lc_gos s))
      (lc_log s ++ ((fun f => (g, f)) <$> onStopCallbacks (lc_ctl s)))).
Proof.
  intros Hg Hd. set (fs := onStopCallbacks (lc_ctl s)).
  erewrite (run_cons s) by by apply stop_passes.
  erewrite run_app by (apply (run_callbacks _ g [] fs); simpl; by rewrite lookup_insert_eq).
  cbn [lc_ctl lc_gos lc_log].
  erewrite run_cons by (apply stop_closes; simpl; [by rewrite lookup_insert_eq|done]).
  simpl. by rewrite !insert_insert_eq.
Qed.

Lemma stop_ran_all s g s0 :
  reachable lc_init s -> stop_began g s0 s ->
  exists p, lc_gos s !! g = Some p ∧ stops p ∧
    runs_of g (lc_log s) ++ rest_of p = onStopCallbacks (lc_ctl s0) ∧
    (~ in_stop p -> runs_of g (lc_log s) = onStopCallbacks (lc_ctl s0)).
Proof.
  intros Hr Hb. destruct (stop_runs_all s0 s g Hb) as (p & Hg & Hs & Hp). exists p. split; [done|]. split; [done|].
  rewrite (lk_log _ (lc_ok_reachable s Hr)), Hg. split; [exact Hp|]. intros Hi. rewrite <- Hp. unfold plan_of.
  destruct p; simpl in *; try done; by rewrite app_nil_r.
Qed.

Lemma start_runs_all s g s0 s1 :
  reachable lc_init s -> lc_step s0 (CallStart g) = Some s1 -> reachable s1 s ->
  exists p, lc_gos s !! g = Some p ∧ runs_of g (lc_log s) ++ rest_of p = onStartCallbacks (lc_ctl s0).
Proof.
  intros Hr H1 H2. destruct (run_keeps_plan s1 s g _ H2 (call_start_plan _ _ _ H1)) as (p & Hg & Hp & _).
  exists p. split; [done|]. by rewrite (lk_log _ (lc_ok_reachable s Hr)), Hg.
Qed.

Lemma serial_stops s :
  serial s -> (forall g ran, lc_gos s !! g ≠ Some (ClosePanic ran)) ∧
    forall g1 g2 p1 p2, lc_gos s !! g1 = Some p1 -> lc_gos s !! g2 = Some p2 ->
      in_stop p1 ∨ (exists r, p1 = ClosedDone r) -> in_stop p2 ∨ (exists r, p2 = ClosedDone r) -> g1 = g2.
Proof.
  intros Hse. destruct (lc_ok_reachable s (serial_reachable s Hse)) as [_ H2 H3 _ _ _].
  destruct (serial_is_ok s Hse) as [S1 S2 S3]. split; [exact S3|].
  assert (forall g1 g2 p r, lc_gos s !! g1 = Some p -> in_stop p -> lc_gos s !! g2 ≠ Some (ClosedDone r)) as Hx.
  { intros g1 g2 p r Hg1 Hin Hg2. assert (lc_done (lc_ctl s) = true) by (apply H2; eauto).
    specialize (S1 _ _ Hg1 Hin). congruence. }
  intros g1 g2 p1 p2 Hg1 Hg2 [Hi1|[r1 ->]] [Hi2|[r2 ->]]; naive_solver.
Qed.

(** ** Properties *)

(** C40: stopping.  However the calls interleave: [done] is closed exactly when
    one [Stop] has closed it, and no two have; a [Stop] that found [done] open
    when it was called runs the callbacks that were registered then, in order,
    each once, and has run all of them before it closes [done] or panics on it;
    so once [done] is closed, all the callbacks that were registered when some
    [Stop] began have run.  A [Stop] that finds [done] closed runs none, a
    [Start] runs the start callbacks that were registered when it began, and who is not in
    a call has run none.  A [Stop] on an open controller that runs by itself
    gets to its end.  If no [Stop] is called while another one is under way,
    none panics, and all but one run no callback. *)
Theorem stop_once (s : lc_state) :
  reachable lc_init s ->
  (lc_done (lc_ctl s) = true <-> exists g ran, lc_gos s !! g = Some (ClosedDone ran)) ∧
  (forall g1 g2 r1 r2, lc_gos s !! g1 = Some (ClosedDone r1) -> lc_gos s !! g2 = Some (ClosedDone r2) -> g1 = g2) ∧
  (forall g s0, stop_began g s0 s -> exists p, lc_gos s !! g = Some p ∧
    runs_of g (lc_log s) ++ rest_of p = onStopCallbacks (lc_ctl s0) ∧
    (~ in_stop p -> runs_of g (lc_log s) = onStopCallbacks (lc_ctl s0))) ∧
  (lc_done (lc_ctl s) = true ->
    exists g s0, stop_began g s0 s ∧ runs_of g (lc_log s) = onStopCallbacks (lc_ctl s0)) ∧
  (forall g s0 s1, lc_step s0 (CallStart g) = Some s1 -> reachable s1 s -> exists p, lc_gos s !! g = Some p ∧
    runs_of g (lc_log s) ++ rest_of p = onStartCallbacks (lc_ctl s0)) ∧
  (forall g p, lc_gos s !! g = Some p -> runs_of g (lc_log s) = ran_of p ∧ planned (lc_ctl s) p) ∧
  (forall g, lc_gos s !! g = None -> runs_of g (lc_log s) = []) ∧
  (lc_done (lc_ctl s) = true -> Stop (lc_ctl s) = WasStopped) ∧
  (forall g, lc_gos s !! g = None -> lc_done (lc_ctl s) = false ->
    exists s', lts_run s (CallStop g :: replicate (length (onStopCallbacks (lc_ctl s))) (Continue g) ++ [Continue g]) = Some s' ∧
      lc_done (lc_ctl s') = true ∧
      lc_log s' = lc_log s ++ ((fun f => (g, f)) <$> onStopCallbacks (lc_ctl s))) ∧
  (serial s -> (forall g ran, lc_gos s !! g ≠ Some (ClosePanic ran)) ∧
    forall g1 g2 p1 p2, lc_gos s !! g1 = Some p1 -> lc_gos s !! g2 = Some p2 ->
      in_stop p1 ∨ (exists r, p1 = ClosedDone r) -> in_stop p2 ∨ (exists r, p2 = ClosedDone r) -> g1 = g2).
Proof.
  intros Hr. pose proof (lc_ok_reachable s Hr) as Hok. pose proof (stop_ran_all s) as Hall.
  destruct Hok as [H1 H2 H3 H4 H5 H6].
  split; [exact H2|]. split; [exact H3|].
  split; [by intros g s0 Hb; destruct (Hall g s0 Hr Hb) as (p & ? & _ & ? & ?); eauto|].
  split; [|split; [by intros g s0 s1; apply start_runs_all|]; split; [by intros g p Hg; rewrite H1, Hg; eauto|];
    split; [by intros g Hg; rewrite H1, Hg|]; split; [by unfold Stop; intros ->|];
    split; [by intros g Hg Hd; eexists; split; [by apply stop_alone|]|by apply serial_stops]].
  intros (g & ran & Hg)%H2. destruct (stop_has_begun s g _ Hr Hg I) as (s0 & Hb). exists g, s0. split; [done|].
  destruct (Hall g s0 Hr Hb) as (p & Hp & _ & _ & Hrun). simplify_eq. apply Hrun. by intros [].
Qed.

(** Two calls of [Stop] that overlap.  Whatever is registered on a controller
    that is not stopped, both can pass the [select]; then every callback runs
    twice and the second [Stop] panics on the closed channel. *)
Theorem overlapping_stops (s : lc_state) (g1 g2 : nat) :
  lc_done (lc_ctl s) = false -> lc_gos s !! g1 = None -> lc_gos s !! g2 = None -> g1 ≠ g2 ->
  exists es s', lts_run s es = Some s' ∧ lc_done (lc_ctl s') = true ∧
    lc_gos s' !! g1 = Some (ClosedDone (onStopCallbacks (lc_ctl s))) ∧
    lc_gos s' !! g2 = Some (ClosePanic (onStopCallbacks (lc_ctl s))) ∧
    (lc_log s').*2 = (lc_log s).*2 ++ onStopCallbacks (lc_ctl s) ++ onStopCallbacks (lc_ctl s).
Proof.
  intros Hd Hg1 Hg2 Hne. set (fs := onStopCallbacks (lc_ctl s)).
  exists (CallStop g1 :: CallStop g2 :: replicate (length fs) (Continue g1) ++ Continue g1
    :: replicate (length fs) (Continue g2) ++ [Continue g2]).
  eexists. split.
  { erewrite (run_cons s) by by apply stop_passes.
    erewrite run_cons by (apply stop_passes; simpl; [by rewrite lookup_insert_ne|done]).
    cbn [lc_ctl lc_gos lc_log onStartCallbacks onStopCallbacks lc_done].
    erewrite run_app by (apply (run_callbacks _ g1 [] fs); simpl; by rewrite lookup_insert_ne, lookup_insert_eq by done).
    cbn [lc_ctl lc_gos lc_log onStartCallbacks onStopCallbacks lc_done].
    erewrite run_cons by (apply stop_closes; simpl; [by rewrite lookup_insert_eq|done]).
    cbn [lc_ctl lc_gos lc_log onStartCallbacks onStopCallbacks lc_done].
    erewrite run_app by (apply (run_callbacks _ g2 [] fs); simpl; by rewrite !lookup_insert_ne, lookup_insert_eq by done).
    cbn [lc_ctl lc_gos lc_log onStartCallbacks onStopCallbacks lc_done].
    erewrite run_cons by (apply stop_panics; simpl; [by rewrite lookup_insert_eq|done]). done. }
  simpl. rewrite lookup_insert_eq. split; [done|]. split; [|split; [done|]].
  - by rewrite !lookup_insert_ne, lookup_insert_eq by done.
  - rewrite !fmap_app, <- !list_fmap_compose, <- (assoc_L (++)). f_equal. unfold compose. simpl.
    by rewrite !list_fmap_id.
Qed.
End lifecycle.
Arguments lifeCycleController : clear implicits.
Arguments lc_state : clear implicits.
Arguments lc_event : clear implicits.

(** ** A controller with two callbacks *)
Module LifecycleDemo.
#[export] Existing Instance lc_lts.

Definition events : list (lc_event string) :=
  [AddStop "flush"; AddStart "log"; AddStop "close"; CallStart 0; CallStop 1; Continue 1; Continue 0; Continue 1; Continue 1; CallStop 2].

Definition stopped : lc_state string := Eval vm_compute in default lc_init (lts_run lc_init events).

Lemma stopped_reachable : reachable lc_init stopped.
Proof. apply (lts_run_reachable _ events). reflexivity. Defined.

Lemma stopped_began :
  stop_began 1 (default lc_init (lts_run lc_init (take 4 events))) stopped.
Proof.
  split; [apply (lts_run_reachable _ (take 4 events)); reflexivity|]. split; [reflexivity|].
  eexists. split; [reflexivity|]. apply (lts_run_reachable _ (drop 5 events)). reflexivity.
Qed.

Lemma stop_once_witness :
  lc_gos stopped !! 2%nat = Some WasStopped ∧ runs_of 1 (lc_log stopped) = ["flush"; "close"] ∧
  Stop (lc_ctl stopped) = WasStopped.
Proof.
  destruct (stop_once stopped stopped_reachable) as (_ & _ & H1 & _ & _ & _ & _ & H2 & _).
  split; [reflexivity|]. split; [|apply H2; reflexivity].
  destruct (H1 1%nat _ stopped_began) as (p & Hp & _ & Hrun).
  assert (p = ClosedDone ["flush"; "close"]) as -> by (injection Hp as <-; reflexivity).
  apply Hrun. intros [].
Defined.

Definition open : lc_state string := mkLcState (mkLifeCycle false [] ["flush"]) ∅ [].

Lemma overlapping_stops_witness :
  exists es s', lts_run open es = Some s' ∧ lc_done (lc_ctl s') = true ∧
    lc_gos s' !! 1%nat = Some (ClosedDone ["flush"]) ∧
    lc_gos s' !! 2%nat = Some (ClosePanic ["flush"]) ∧ (lc_log s').*2 = ["flush"; "flush"].
Proof. apply (overlapping_stops open 1 2); [reflexivity..|lia]. Defined.
End LifecycleDemo.
